(* ===== verification/_CoqProject ===== *)
-Q . S2P
Prelude.v
Sampling.v
KernelTypes.v
CreditLedger.v
ProducerLanes.v
Utf8.v
Charconv.v
RecordLayout.v
RecordStorage.v
RawEncoder.v
RouteTypes.v
RawFileSink.v
InMemoryEncodedDestination.v
InMemoryDestination.v
Operation.v
ControlReserve.v
ThreadRegistry.v
Lifetime.v
ProducerKernel.v
KernelWorld.v
KernelAccounting.v
KernelSnapshots.v
KernelProperties.v
RuntimeConfig.v
RuntimeRoute.v
RuntimeDomain.v
ControlRuns.v
KernelRuns.v
RouteContract.v
RouteViews.v
RuntimeWorld.v
RuntimeInvariant.v
RuntimeSteps.v
RuntimeStatus.v
RuntimeReports.v
RuntimeCreation.v
WorkerWake.v
RuntimeDemo.v
RuntimeLoops.v
RuntimeProperties.v
Logger.v
