(* ===== verification/Prelude.v ===== *)
(** * Ulog: a verification library for the Ulog logging pipeline

    Ulog is a bounded, asynchronous logging library in C++20. A thread that logs builds its
    record in memory that was allocated beforehand and never waits; one worker takes the
    records in admission order, hands them to a sink and accounts for what becomes of each;
    ordered operations (Drain, Shutdown) report exactly what happened below a watermark.
    This library models that pipeline from the macros to the file and proves what its parts
    promise to each other and to the application.

    ** The parts of the program and the files that model them

    A logging macro (include/ulog/log.hpp) passes a builder to a [Logger], which is a pointer
    to the null state or to a producer kernel ([Logger.v]). The kernel
    (src/producer/producer_kernel.cpp, [ProducerKernel.v]) finds the slot that the thread
    registered ([ThreadRegistry.v], with the reference counts of [Lifetime.v]), claims a cell of the slot's lane
    (src/producer/producer_lanes.hpp, [ProducerLanes.v]), reserves the worst case of a record
    from a byte budget (src/producer/credit_ledger.cpp, [CreditLedger.v]), and lets the builder
    write into the cell (src/producer/record_storage.cpp, [RecordStorage.v] over
    [RecordLayout.v], [Utf8.v] and [Charconv.v]). The Runtime's worker (src/runtime.cpp,
    [RuntimeConfig.v], [RuntimeRoute.v], [RuntimeDomain.v]) consumes the records, encodes them
    (src/encoding/raw_encoder.cpp, [RawEncoder.v]) and delivers them to one of three sinks:
    a file written by a libuv loop (src/io/raw_file_sink.cpp, [RawFileSink.v]), or a destination
    in memory for encoded frames or for records (src/testing, [InMemoryEncodedDestination.v],
    [InMemoryDestination.v]); the accounting types they share are in [RouteTypes.v]
    (src/route/delivery_accounting.hpp). Operations are nodes of a fixed reserve
    (src/control/control_reserve.cpp, [ControlReserve.v]) behind handles (src/operation.cpp,
    [Operation.v]). [KernelTypes.v] holds the types and constants they share.

    A structure of the code is a Record with its fields, an enumeration or a tagged union an
    Inductive, a member function a Definition of the same name that takes the state and
    returns it. [Prelude.v] has the notation [r <| f := v |>] for an assignment to a member,
    machine integers as [Z] with the wrap of their width written out ([+w], [-w], [w64]), and
    the lemmas on lists that the components share. An exception or an early return is a
    constructor of the result. A null pointer in a token is [false]. A function that reads an
    object while other threads change it (the snapshots) is a [Sampling] ([Sampling.v]): a
    program that is given the object as it is at each of its loads.

    ** Interleaving

    The code is concurrent. Each component first has its functions, and then a relation that
    interleaves them, over a system state that adds the tokens its clients hold and a history:
    [lanes_step], [ledger_step], [sink_step], [dest_step], [mem_step], [control_step],
    [lifetime_step], [wake_step].
    [KernelWorld.v] cuts a publication and a consumption where they touch shared state and
    interleaves the pieces of any number of threads; its lanes and its ledger are systems of the
    files above, whose invariants it uses. [KernelAccounting.v] (the counters against the history
    of refusals), [KernelSnapshots.v] (what a snapshot's loads find while the threads run) and
    [KernelProperties.v] prove what the kernel promises. [Lifetime.v] has the member functions of
    a lifetime reference as programs of atomic accesses and interleaves any number of them.
    [WorkerWake.v] cuts the wait of the worker, and the functions that wake it, at each access
    to the mutex, the condition and the epoch. [RuntimeWorld.v] interleaves the worker with the
    threads that log, start operations, drop them, move the sink and destroy the Runtime.

    The Runtime's theorems do not look into its parts: [RouteContract.v] is the interface of a
    sink (the class [RouteView] with the laws [RouteLaws], proved of the three sinks in
    [RouteViews.v]), [KernelRuns.v] and [ControlRuns.v] say that whole calls of the kernel and of
    the reserve are runs of their relations. [RuntimeInvariant.v], [RuntimeSteps.v],
    [RuntimeStatus.v] and [RuntimeReports.v] build the invariant [runtime_inv];
    [RuntimeCreation.v] shows that a Runtime that was created satisfies it, [RuntimeDemo.v] runs
    one, and [RuntimeProperties.v] states what follows. [RuntimeLoops.v] shows that the worker leaves
    every loop of an iteration.

    ** What the theorems show

    - Runtime: every report is the reference report over the fates of the deliveries, and the
      fates are final; success covers every record admitted before the start; every operation
      completes exactly once; a snapshot, whose parts are read at different moments, counts the
      fates without overflow, and shows more processed than accepted records only by what was
      admitted meanwhile; no wake-up of the control plane is lost and its waits do not deadlock; every
      iteration of the worker's loop ends; creation and validation succeed exactly on the
      documented conditions.
    - Kernel and lanes: records are delivered once, in admission order, as they were built; a
      claimed cell is free and every cell is well formed; every attempt is counted once, under
      its cause, and a snapshot reports it unless it is of the time the snapshot takes; a
      registration is never revived; whole calls do what the state decides.
    - Lifetime blocks: no call accesses a block that was freed, each is freed once, and none
      leaks.
    - Ledger: the budget is conserved under every interleaving and recovered when idle.
    - Record storage: a record reads back as it was built; a message is cut only when it must
      be, at a character of UTF-8, and then it is marked.
    - Encoder: the line is exact, fits its bound and parses back.
    - Sinks: the file holds whole frames in order and at most a prefix of one more; outcomes
      tell the truth about it; no wake-up is lost; handles show submitted frames only; the
      destinations lose, repeat and reorder nothing.
    - Control reserve: a handle polls its result and nothing else; a callback runs once; nodes
      are never lost.
    - Loggers: what is filtered is not evaluated; what a message throws while it is formatted
      does not escape; a macro is one publication of the kernel.

    ** Bounds and fuel

    Loops over slots and cells recur on their number. The scan of UTF-8 has the fuel
    [S (length bytes)], since each round consumes a byte. The pump of the file sink, which libuv
    may call back at once, has fuel 8; [pump_terminates] proves that it never runs out. Retry
    loops of a compare-exchange take the number of spurious failures as an argument. Sequences
    are 64-bit counters; the theorems on histories assume fewer than 2^64 admissions, or show
    that the code's own test keeps them below.

    ** What a step is

    A call of the ledger, of the reserve's critical sections and of a sink's lock is one step;
    the atomics of the lanes and of the kernel are cut where another thread can tell the
    difference. A snapshot is a series of loads with any steps of other threads between them
    ([watched]); the counts it adds up under a lock are read together. A critical section of the Runtime's
    [state_mutex_] is one step with a sample of the accepted count, which producers change
    without the lock. In the relations of the Runtime and of the sinks a condition wait may
    always end, since it has an interval or is woken by the step that changes the state; when
    the worker's wait ends without its interval is what [WorkerWake.v] shows. The scan of [IsQuiescent] goes slot by slot.

    ** Parameters

    The shortest text of a double ([std::to_chars]), [fmt::format_to], the results of libuv, the
    clock, allocations and thread creation, the sizes of three structs, and the callbacks of the
    application are arguments of the definitions. Memory order is sequential consistency: the
    model does not show what the weaker orders of the code would add.

    ** Not modelled

    [std::shared_ptr] and what it frees: an address names its state. Joining threads and deadlines beyond the result they give. The
    inline storage of a callback. The generated table of I/O error names, the version, compiler
    attributes, and the compile-time checks of templates. The prototypes and benchmarks, the
    probes of another library, the tests and the build, which are not parts of the library. *)
From stdpp Require Export base list option numbers.
From Stdlib Require Export ZArith Lia.
#[export] Set Default Goal Selector "!".

#[global] Open Scope Z_scope.

(** ** Record update

    [r <| f := v |>] is the C++ assignment [r.f = v] on a copy of [r].  A
    record lists its fields once ([Eta]); the setter of a field is derived from
    that list when the notation is used. *)

Class Eta (R : Type) : Type := eta : R -> R.
Class Setter {R E : Type} (getter : R -> E) : Type := modify : (E -> E) -> R -> R.
Arguments modify {R E} getter {_} _ _ /.

Ltac derive_setter getter :=
  let R := lazymatch type of getter with ?R -> _ => R end in
  let inst := constr:(ltac:(typeclasses eauto) : Eta R) in
  let eta_body := eval hnf in inst in
  exact (fun update_ record_ => ltac:(
    let b := eval cbv beta in (eta_body record_) in
    match b with
    | context C [getter record_] =>
        let b' := context C [update_ (getter record_)] in exact b'
    end)).

#[global] Typeclasses Opaque Eta Setter.
#[export] Hint Extern 0 (Setter ?getter) => derive_setter getter : typeclass_instances.

Declare Scope ulog_scope.
Delimit Scope ulog_scope with ulog.
#[global] Open Scope ulog_scope.

Notation "r <| f := v |>" := (modify f (fun _ => v) r)
  (at level 12, f at next level, v at level 200, left associativity,
   format "r  <| f  :=  v |>") : ulog_scope.
Notation "r <| f ::= g |>" := (modify f g r)
  (at level 12, f at next level, g at level 200, left associativity,
   format "r  <| f  ::=  g |>") : ulog_scope.

(** ** Machine integers

    A C++ unsigned integer of [w] bits is a [Z]; every operation that can leave
    the range is followed by the wrap of its width.  [std::size_t] has 64 bits. *)

Definition w8 (x : Z) : Z := x mod 2 ^ 8.
Definition w32 (x : Z) : Z := x mod 2 ^ 32.
Definition w64 (x : Z) : Z := x mod 2 ^ 64.
Definition u32_max : Z := 2 ^ 32 - 1.
Definition u64_max : Z := 2 ^ 64 - 1.
Definition size_max : Z := 2 ^ 64 - 1.

(** A 64-bit pattern read as [std::int64_t] ([std::bit_cast]), and back. *)
Definition to_s64 (x : Z) : Z := if x <? 2 ^ 63 then x else x - 2 ^ 64.
Definition of_s64 (x : Z) : Z := w64 x.

(** [static_cast<std::int32_t>] of a wider integer. *)
Definition to_s32 (x : Z) : Z := if w32 x <? 2 ^ 31 then w32 x else w32 x - 2 ^ 32.

Notation "x +w y" := (w64 (x + y)) (at level 50, left associativity) : ulog_scope.
Notation "x -w y" := (w64 (x - y)) (at level 50, left associativity) : ulog_scope.

Definition zlen {A} (l : list A) : Z := Z.of_nat (length l).

(** An array index converted to [std::uint32_t]. *)
Definition u32_of_index (i : nat) : nat := Z.to_nat (w32 (Z.of_nat i)).

(** ** Sums over arrays *)

Fixpoint sumZ {A} (f : A -> Z) (l : list A) : Z :=
  match l with
  | [] => 0
  | x :: l' => f x + sumZ f l'
  end.

(** ** Scans over slot arrays

    [first_index P l] is the loop that returns the first index whose element
    satisfies [P]. *)

Definition first_index {A} (P : A -> bool) (l : list A) : option nat :=
  fst <$> list_find (fun x => P x = true) l.

(** The loop [if (!selected || key < key of selected) selected = index] over the
    elements that satisfy [sel]. *)
Fixpoint lowest_from {A} (sel : A -> bool) (key : A -> Z) (l : list A) (i : nat)
    (selected : option (nat * Z)) : option (nat * Z) :=
  match l with
  | [] => selected
  | x :: l' =>
      let selected' :=
        if sel x then
          match selected with
          | None => Some (i, key x)
          | Some (_, k) => if key x <? k then Some (i, key x) else selected
          end
        else selected in
      lowest_from sel key l' (S i) selected'
  end.

Definition lowest_index {A} (sel : A -> bool) (key : A -> Z) (l : list A) : option nat :=
  fst <$> lowest_from sel key l 0%nat None.

(** ** Byte storage

    Bytes are integers; [slice] and [blit] are [memcpy] out of and into an
    array.  A [blit] that would leave the array changes its length, so a lemma
    that the length is preserved is a bounds guarantee. *)

Abbreviation byte := Z (only parsing).

Definition slice (off n : Z) (mem : list byte) : list byte :=
  take (Z.to_nat n) (drop (Z.to_nat off) mem).

Definition blit (off : Z) (bs mem : list byte) : list byte :=
  take (Z.to_nat off) mem ++ bs ++ drop (Z.to_nat off + length bs) mem.

Fixpoint le_bytes (n : nat) (z : Z) : list byte :=
  match n with
  | O => []
  | S n' => z mod 256 :: le_bytes n' (z / 256)
  end.

Fixpoint le_value (bs : list byte) : Z :=
  match bs with
  | [] => 0
  | b :: bs' => b + 256 * le_value bs'
  end.

(** ** Automation *)

Create HintDb ulog discriminated.

(** Case analysis on every [if] and [match] of the goal, keeping equations. *)
Ltac case_ifs :=
  repeat match goal with
  | |- context [if ?b then _ else _] => destruct b eqn:?
  end.

(** Boolean hypotheses as propositions. *)
Ltac b2p :=
  repeat match goal with
  | H : _ && _ = true |- _ => apply andb_true_iff in H; destruct H
  | H : _ && _ = false |- _ => apply andb_false_iff in H
  | H : _ || _ = true |- _ => apply orb_true_iff in H
  | H : _ || _ = false |- _ => apply orb_false_iff in H; destruct H
  | H : negb _ = true |- _ => apply negb_true_iff in H
  | H : negb _ = false |- _ => apply negb_false_iff in H
  | H : (_ <? _) = true |- _ => apply Z.ltb_lt in H
  | H : (_ <? _) = false |- _ => apply Z.ltb_ge in H
  | H : (_ <=? _) = true |- _ => apply Z.leb_le in H
  | H : (_ <=? _) = false |- _ => apply Z.leb_gt in H
  | H : (_ =? _) = true |- _ => apply Z.eqb_eq in H
  | H : (_ =? _) = false |- _ => apply Z.eqb_neq in H
  | H : (_ <? _)%nat = true |- _ => apply Nat.ltb_lt in H
  | H : (_ <? _)%nat = false |- _ => apply Nat.ltb_ge in H
  | H : (_ <=? _)%nat = true |- _ => apply Nat.leb_le in H
  | H : (_ <=? _)%nat = false |- _ => apply Nat.leb_gt in H
  | H : (_ =? _)%nat = true |- _ => apply Nat.eqb_eq in H
  | H : (_ =? _)%nat = false |- _ => apply Nat.eqb_neq in H
  end.

(** Closed facts about concrete inputs, by evaluation. *)
Ltac by_compute :=
  vm_compute; repeat match goal with |- _ /\ _ => split end;
  first [reflexivity | discriminate | lia].

(** Existentials and conjunctions in the context. *)
Ltac split_hyps :=
  repeat match goal with
  | H : exists _, _ |- _ => destruct H
  | H : _ /\ _ |- _ => destruct H
  end.

(** ** Lemmas: integers *)

Lemma w64_small x : 0 <= x < 2 ^ 64 -> w64 x = x.
Proof. apply Z.mod_small. Qed.

(** Arithmetic where no wrap happens: innermost wraps are discharged first. *)
Ltac unwrap :=
  repeat match goal with
  | |- context [w64 ?x] =>
      lazymatch x with context [w64 _] => fail | _ => rewrite (w64_small x) by lia end
  end.
Ltac solve_w64 := unwrap; lia.

Lemma w64_range x : 0 <= w64 x < 2 ^ 64.
Proof. unfold w64. apply Z.mod_pos_bound. lia. Qed.

Lemma w32_small x : 0 <= x < 2 ^ 32 -> w32 x = x.
Proof. apply Z.mod_small. Qed.

Lemma w32_range x : 0 <= w32 x < 2 ^ 32.
Proof. unfold w32. apply Z.mod_pos_bound. lia. Qed.

Lemma to_s32_small x : - 2 ^ 31 <= x < 2 ^ 31 -> to_s32 x = x.
Proof.
  intros Hx. unfold to_s32, w32. destruct (Z.ltb_spec x 0).
  - replace (x mod 2 ^ 32) with (x + 2 ^ 32) by (apply (Z.mod_unique _ _ (-1)); lia).
    rewrite (proj2 (Z.ltb_ge _ _)) by lia. lia.
  - rewrite Z.mod_small by lia. rewrite (proj2 (Z.ltb_lt _ _)) by lia. done.
Qed.

Lemma u32_of_index_small i : (i < 2 ^ 32)%nat -> u32_of_index i = i.
Proof.
  intros Hi. unfold u32_of_index. rewrite w32_small; [lia|].
  split; [lia|]. change (2 ^ 32) with (Z.of_nat 2 ^ Z.of_nat 32).
  rewrite <- Nat2Z.inj_pow. lia.
Qed.

Lemma to_of_s64 x : - 2 ^ 63 <= x < 2 ^ 63 -> to_s64 (of_s64 x) = x.
Proof.
  intros. unfold to_s64, of_s64, w64.
  destruct (Z.neg_nonneg_cases x).
  - assert (x mod 2 ^ 64 = x + 2 ^ 64) as ->.
    { symmetry. apply Z.mod_unique_pos with (-1); lia. }
    destruct (Z.ltb_spec (x + 2 ^ 64) (2 ^ 63)); lia.
  - rewrite Z.mod_small by lia.
    destruct (Z.ltb_spec x (2 ^ 63)); lia.
Qed.

Create Rewrite HintDb ulog_len.

#[export] Hint Rewrite @length_app @length_take @length_drop @length_insert
  @length_cons @length_replicate @length_fmap : ulog_len.

(** ** Lemmas: sums *)

Section Sums.
Context {A : Type} (f : A -> Z).

Lemma sumZ_app l1 l2 : sumZ f (l1 ++ l2) = sumZ f l1 + sumZ f l2.
Proof. induction l1; simpl; lia. Qed.

Lemma sumZ_insert l i x y :
  l !! i = Some x -> sumZ f (<[i := y]> l) = sumZ f l - f x + f y.
Proof.
  revert i. induction l as [|z l IH]; intros [|i] Hi; simplify_eq/=; [lia|].
  rewrite (IH _ Hi). lia.
Qed.

Lemma sumZ_nonneg l : (forall x, x ∈ l -> 0 <= f x) -> 0 <= sumZ f l.
Proof.
  induction l as [|x l IH]; intros H; simpl; [lia|].
  pose proof (H x ltac:(left)).
  enough (0 <= sumZ f l) by lia. apply IH. intros y Hy. apply H. by right.
Qed.

Lemma sumZ_lookup_le l i x :
  (forall y, y ∈ l -> 0 <= f y) -> l !! i = Some x -> f x <= sumZ f l.
Proof.
  revert i. induction l as [|z l IH]; intros [|i] H Hi; simplify_eq/=.
  - enough (0 <= sumZ f l) by lia. apply sumZ_nonneg. intros y Hy. apply H. by right.
  - pose proof (H z ltac:(left)).
    enough (f x <= sumZ f l) by lia. eapply IH; [|done]. intros y Hy. apply H. by right.
Qed.

Lemma sumZ_zero l : (forall x, x ∈ l -> f x = 0) -> sumZ f l = 0.
Proof.
  induction l as [|x l IH]; intros H; simpl; [done|].
  rewrite (H x ltac:(left)), IH; [done|]. intros y Hy. apply H. by right.
Qed.
End Sums.

Lemma sumZ_ext {A} (f g : A -> Z) l :
  (forall x, x ∈ l -> f x = g x) -> sumZ f l = sumZ g l.
Proof.
  induction l as [|x l IH]; intros H; simpl; [done|].
  rewrite (H x ltac:(left)), IH; [done|]. intros y Hy. apply H. by right.
Qed.

Lemma sumZ_le {A} (f g : A -> Z) l :
  (forall x, x ∈ l -> f x <= g x) -> sumZ f l <= sumZ g l.
Proof.
  induction l as [|x l IH]; intros H; simpl; [done|].
  pose proof (H x ltac:(left)).
  enough (sumZ f l <= sumZ g l) by lia. apply IH. intros y Hy. apply H. by right.
Qed.

(** ** Lemmas: scans *)

Lemma first_index_Some {A} (P : A -> bool) l i :
  first_index P l = Some i <->
  exists x, l !! i = Some x /\ P x = true /\
    forall j y, l !! j = Some y -> (j < i)%nat -> P y = false.
Proof.
  unfold first_index. rewrite fmap_Some. split.
  - intros [[j x] [Hf ->]]. apply list_find_Some in Hf as (Hx & HP & Hlt).
    exists x. split_and!; [done..|]. intros j' y Hy Hj.
    apply not_true_is_false. simpl in *. eauto.
  - intros (x & Hx & HP & Hlt). exists (i, x). split; [|done].
    apply list_find_Some. split_and!; [done..|]. intros j y Hy Hj.
    rewrite (Hlt j y Hy Hj). done.
Qed.

Lemma first_index_None {A} (P : A -> bool) l :
  first_index P l = None <-> forall i x, l !! i = Some x -> P x = false.
Proof.
  unfold first_index. rewrite fmap_None, list_find_None, Forall_lookup.
  split; intros H i x Hx; specialize (H i x Hx).
  - by apply not_true_is_false.
  - by rewrite H.
Qed.

Lemma lowest_from_spec {A} (sel : A -> bool) key (l : list A) i best :
  match lowest_from sel key l i best with
  | None => best = None /\ forall j x, l !! j = Some x -> sel x = false
  | Some (r, k) =>
      (best = Some (r, k) \/
       exists j x, r = (i + j)%nat /\ l !! j = Some x /\ sel x = true /\ k = key x) /\
      (forall r' k', best = Some (r', k') -> k <= k') /\
      (forall j x, l !! j = Some x -> sel x = true -> k <= key x)
  end.
Proof.
  revert i best. induction l as [|x l IH]; intros i best; simpl.
  { destruct best as [[r k]|]; [|done].
    split_and!; [by left|intros ? ? [= -> ->]; lia|done]. }
  set (best' := if sel x then _ else _). specialize (IH (S i) best').
  destruct (lowest_from sel key l (S i) best') as [[r k]|].
  - destruct IH as (Hr & Hb & Hl).
    assert (sel x = true -> k <= key x) as Hx.
    { intros Hs. unfold best' in Hb. rewrite Hs in Hb.
      destruct best as [[r0 k0]|]; [|by eapply Hb].
      destruct (Z.ltb_spec (key x) k0); [by eapply Hb|].
      pose proof (Hb _ _ eq_refl). lia. }
    split_and!.
    + destruct Hr as [Hr|(j & y & -> & Hy & Hs & ->)].
      * unfold best' in Hr. destruct (sel x) eqn:Hs; [|by left].
        destruct best as [[r0 k0]|].
        -- destruct (key x <? k0); [|by left]. right. exists 0%nat, x.
           simplify_eq. split_and!; [lia|done..].
        -- right. exists 0%nat, x. simplify_eq. split_and!; [lia|done..].
      * right. exists (S j), y. split_and!; [lia|done..].
    + intros r' k' ->. unfold best' in Hb. destruct (sel x); [|by eapply Hb].
      destruct (Z.ltb_spec (key x) k'); [|by eapply Hb].
      pose proof (Hb _ _ eq_refl). lia.
    + intros [|j] y Hy Hs; simplify_eq/=; eauto.
  - destruct IH as [Hn Hl]. unfold best' in Hn.
    destruct (sel x) eqn:Hs.
    { destruct best as [[r0 k0]|]; [destruct (key x <? k0)|]; simplify_eq. }
    split; [done|]. intros [|j] y Hy; simplify_eq/=; eauto.
Qed.

Lemma lowest_index_Some {A} (sel : A -> bool) key (l : list A) i :
  lowest_index sel key l = Some i ->
  exists x, l !! i = Some x /\ sel x = true /\
    forall j y, l !! j = Some y -> sel y = true -> key x <= key y.
Proof.
  unfold lowest_index. pose proof (lowest_from_spec sel key l 0 None) as Hs.
  destruct (lowest_from sel key l 0 None) as [[r k]|]; [|done].
  intros [= ->]. destruct Hs as ([|(j & x & -> & Hx & Hsel & ->)] & _ & Hl); [done|].
  exists x. simpl. eauto.
Qed.

Lemma lowest_index_None {A} (sel : A -> bool) key (l : list A) :
  lowest_index sel key l = None -> forall i x, l !! i = Some x -> sel x = false.
Proof.
  unfold lowest_index. pose proof (lowest_from_spec sel key l 0 None) as Hs.
  destruct (lowest_from sel key l 0 None) as [[r k]|]; [done|]. intros _. apply Hs.
Qed.

(** ** Lemmas: byte storage *)

Lemma lookup_slice off n mem i :
  0 <= off -> slice off n mem !! i =
    if decide (Z.of_nat i < n) then mem !! (Z.to_nat off + i)%nat else None.
Proof.
  intros Hoff. unfold slice. case_decide.
  - rewrite lookup_take_lt by lia. by rewrite lookup_drop.
  - apply lookup_take_ge. lia.
Qed.

Lemma length_slice off n mem :
  0 <= off -> 0 <= n -> off + n <= zlen mem -> length (slice off n mem) = Z.to_nat n.
Proof. unfold slice, zlen. intros. rewrite length_take, length_drop. lia. Qed.

Lemma zlen_slice off n mem :
  0 <= off -> 0 <= n -> off + n <= zlen mem -> zlen (slice off n mem) = n.
Proof. intros. unfold zlen. rewrite length_slice by done. lia. Qed.

Lemma lookup_blit off bs mem i :
  0 <= off <= zlen mem ->
  blit off bs mem !! i =
    if decide (Z.of_nat i < off) then mem !! i
    else if decide (Z.of_nat i < off + zlen bs) then bs !! (i - Z.to_nat off)%nat
    else mem !! i.
Proof.
  unfold zlen, blit. intros Hoff. repeat case_decide.
  - rewrite lookup_app_l by (rewrite length_take; lia). by rewrite lookup_take_lt by lia.
  - rewrite lookup_app_r by (rewrite length_take; lia). rewrite length_take.
    rewrite lookup_app_l by lia. f_equal. lia.
  - rewrite lookup_app_r by (rewrite length_take; lia). rewrite length_take.
    rewrite lookup_app_r by lia. rewrite lookup_drop. f_equal. lia.
Qed.

Lemma length_blit off bs mem :
  0 <= off -> off + zlen bs <= zlen mem -> length (blit off bs mem) = length mem.
Proof.
  unfold zlen, blit. intros. rewrite !length_app, length_take, length_drop. lia.
Qed.

Lemma zlen_blit off bs mem :
  0 <= off -> off + zlen bs <= zlen mem -> zlen (blit off bs mem) = zlen mem.
Proof. intros. unfold zlen. by rewrite length_blit. Qed.

Lemma slice_blit_same off bs mem :
  0 <= off -> off + zlen bs <= zlen mem -> slice off (zlen bs) (blit off bs mem) = bs.
Proof.
  intros. apply list_eq. intros i. rewrite lookup_slice by lia.
  case_decide as Hi.
  - rewrite lookup_blit by (unfold zlen in *; lia). unfold zlen in *.
    rewrite decide_False by lia. rewrite decide_True by lia. f_equal. lia.
  - symmetry. apply lookup_ge_None. unfold zlen in Hi. lia.
Qed.

Lemma slice_blit_other off bs mem off' n :
  0 <= off -> off + zlen bs <= zlen mem -> 0 <= off' ->
  off' + n <= off \/ off + zlen bs <= off' ->
  slice off' n (blit off bs mem) = slice off' n mem.
Proof.
  intros. apply list_eq. intros i. rewrite !lookup_slice by lia.
  case_decide; [|done]. rewrite lookup_blit by (unfold zlen in *; lia).
  repeat case_decide; [done|lia|done].
Qed.

Lemma slice_app off n m mem :
  0 <= off -> 0 <= n -> 0 <= m ->
  slice off (n + m) mem = slice off n mem ++ slice (off + n) m mem.
Proof.
  intros. unfold slice. rewrite !Z2Nat.inj_add by lia.
  rewrite <- drop_drop. rewrite <- (take_drop (Z.to_nat n) (drop (Z.to_nat off) mem)) at 1.
  rewrite take_app.
  destruct (decide (Z.to_nat n <= length (drop (Z.to_nat off) mem))%nat).
  - rewrite length_take, Nat.min_l by lia. f_equal.
    + apply take_ge. rewrite length_take. lia.
    + f_equal. lia.
  - rewrite (drop_ge (drop (Z.to_nat off) mem)) by lia. rewrite !take_nil.
    rewrite !app_nil_r. apply take_ge. rewrite length_take. lia.
Qed.

Lemma slice_nil off mem : slice off 0 mem = [].
Proof. done. Qed.

Lemma slice_prefix off n m mem :
  0 <= off -> 0 <= n <= m -> take (Z.to_nat n) (slice off m mem) = slice off n mem.
Proof. intros. unfold slice. rewrite take_take. f_equal. lia. Qed.

(** A slice of a slice. *)
Lemma slice_inner off w m len mem :
  0 <= off -> 0 <= w -> 0 <= m -> w + m <= len ->
  slice (off + w) m mem
  = take (Z.to_nat m) (drop (Z.to_nat w) (slice off len mem)).
Proof.
  intros. unfold slice. rewrite skipn_firstn_comm, drop_drop, take_take.
  f_equal; [lia|]. f_equal. lia.
Qed.

Lemma slice_middle {a b c : list byte} : slice (zlen a) (zlen b) (a ++ b ++ c) = b.
Proof.
  unfold slice, zlen. rewrite !Nat2Z.id, drop_app_length. by rewrite take_app_length.
Qed.

Lemma length_le_bytes n z : length (le_bytes n z) = n.
Proof. revert z. induction n; intros; simpl; auto. Qed.

Lemma le_value_le_bytes n z :
  0 <= z < 256 ^ Z.of_nat n -> le_value (le_bytes n z) = z.
Proof.
  revert z. induction n as [|n IH]; intros z Hz; simpl.
  { simpl in Hz. lia. }
  rewrite IH.
  - pose proof (Z.div_mod z 256). lia.
  - rewrite Nat2Z.inj_succ, Z.pow_succ_r in Hz by lia.
    split; [apply Z.div_pos; lia|]. apply Z.div_lt_upper_bound; lia.
Qed.

#[export] Hint Resolve w64_range w32_range : ulog.

#[export] Instance sumZ_permutation {A} (f : A -> Z) :
  Proper (Permutation ==> eq) (sumZ f).
Proof. intros l1 l2 H. induction H; simpl; lia. Qed.

Lemma alter_as_insert {A} (g : A -> A) (l : list A) i x :
  l !! i = Some x -> alter g i l = <[i := g x]> l.
Proof.
  revert i. induction l as [|y l IH]; intros [|i] Hi; simplify_eq/=; [done|].
  f_equal. by apply IH.
Qed.

Lemma alter_out_of_range {A} (g : A -> A) (l : list A) i :
  (length l <= i)%nat -> alter g i l = l.
Proof.
  revert i. induction l as [|y l IH]; intros [|i] Hi; simpl in *; [done..|lia|].
  f_equal. apply IH. lia.
Qed.

Lemma lookup_alter_at {A} (g : A -> A) (l : list A) i j :
  alter g i l !! j = if decide (i = j) then g <$> l !! j else l !! j.
Proof.
  case_decide; [subst; apply list_lookup_alter_eq|by apply list_lookup_alter_ne].
Qed.

Lemma sumZ_alter {A} (f : A -> Z) (g : A -> A) l i x :
  l !! i = Some x -> sumZ f (alter g i l) = sumZ f l - f x + f (g x).
Proof. intros Hi. rewrite (alter_as_insert _ _ _ x) by done. by apply sumZ_insert. Qed.

Lemma elem_of_alter {A} (g : A -> A) (l : list A) i y :
  y ∈ alter g i l -> y ∈ l \/ exists x, l !! i = Some x /\ y = g x.
Proof.
  intros [j Hj]%list_elem_of_lookup. rewrite lookup_alter_at in Hj.
  case_decide.
  - subst. destruct (l !! j) as [x|] eqn:Hx; simplify_eq/=. right. eauto.
  - left. apply list_elem_of_lookup. eauto.
Qed.

Lemma sumZ_fmap {A B} (f : B -> Z) (g : A -> B) (l : list A) :
  sumZ f (g <$> l) = sumZ (fun x => f (g x)) l.
Proof. induction l as [|x l IH]; [done|]. csimpl. by rewrite <- IH. Qed.

Lemma sumZ_by_index {A} (f : A -> Z) (l : list A) :
  sumZ f l = sumZ (fun i => from_option f 0 (l !! i)) (seq 0 (length l)).
Proof.
  induction l as [|x l IH]; [done|]. simpl. rewrite IH. f_equal.
  rewrite <- fmap_S_seq, sumZ_fmap. by apply sumZ_ext.
Qed.

Lemma sumZ_add {A} (f g : A -> Z) l : sumZ (fun x => f x + g x) l = sumZ f l + sumZ g l.
Proof. induction l; simpl; lia. Qed.

Lemma sumZ_swap {A B} (g : A -> B -> Z) (xs : list A) (ys : list B) :
  sumZ (fun x => sumZ (g x) ys) xs = sumZ (fun y => sumZ (fun x => g x y) xs) ys.
Proof.
  induction xs as [|x xs IH]; simpl; [by rewrite sumZ_zero|].
  by rewrite IH, <- sumZ_add.
Qed.

Lemma sumZ_indicator (k n : nat) v :
  (k < n)%nat -> sumZ (fun i => if decide (k = i) then v else 0) (seq 0 n) = v.
Proof.
  intros Hk. induction n as [|n IH]; [lia|].
  rewrite seq_S, sumZ_app. simpl. destruct (decide (k = n)) as [->|].
  - rewrite sumZ_zero; [lia|]. intros x Hx%elem_of_seq. case_decide; lia.
  - rewrite IH; lia.
Qed.

(** ** Lemmas: lengths and adjacent writes *)

Lemma zlen_nonneg {A} (l : list A) : 0 <= zlen l.
Proof. unfold zlen. lia. Qed.

Lemma zlen_app {A} (l l' : list A) : zlen (l ++ l') = zlen l + zlen l'.
Proof. unfold zlen. rewrite length_app. lia. Qed.

Lemma zlen_nil {A} (l : list A) : zlen l = 0 <-> l = [].
Proof. unfold zlen. destruct l; simpl; [done|]. split; [lia|done]. Qed.

Lemma zlen_take {A} (n : Z) (l : list A) :
  0 <= n -> zlen (take (Z.to_nat n) l) = Z.min n (zlen l).
Proof. unfold zlen. rewrite length_take. lia. Qed.

#[export] Hint Resolve zlen_nonneg : ulog.

Lemma blit_nil off mem : blit off [] mem = mem.
Proof. unfold blit. simpl. rewrite Nat.add_0_r. apply take_drop. Qed.

(** Two adjacent writes, in either order, are one write. *)
Lemma blit_join_left off a b mem :
  0 <= off -> off + zlen a + zlen b <= zlen mem ->
  blit off a (blit (off + zlen a) b mem) = blit off (a ++ b) mem.
Proof.
  intros Ho Hl. pose proof (zlen_nonneg a). pose proof (zlen_nonneg b).
  apply list_eq. intros i.
  rewrite lookup_blit by (rewrite zlen_blit by lia; lia).
  rewrite lookup_blit, lookup_blit by lia. rewrite zlen_app.
  repeat case_decide; try lia; try done.
  - by rewrite lookup_app_l by (unfold zlen in *; lia).
  - rewrite lookup_app_r by (unfold zlen in *; lia). f_equal. unfold zlen. lia.
Qed.

Lemma blit_join_right off a b mem :
  0 <= off -> off + zlen a + zlen b <= zlen mem ->
  blit (off + zlen a) b (blit off a mem) = blit off (a ++ b) mem.
Proof.
  intros Ho Hl. pose proof (zlen_nonneg a). pose proof (zlen_nonneg b).
  apply list_eq. intros i.
  rewrite lookup_blit by (rewrite zlen_blit by lia; lia).
  rewrite lookup_blit, lookup_blit by lia. rewrite zlen_app.
  repeat case_decide; try lia; try done.
  - by rewrite lookup_app_l by (unfold zlen in *; lia).
  - rewrite lookup_app_r by (unfold zlen in *; lia). f_equal. unfold zlen. lia.
Qed.

(** Overwriting the start of a region. *)
Lemma slice_blit_head off bs mem n :
  0 <= off -> zlen bs <= n -> off + n <= zlen mem ->
  slice off n (blit off bs mem) = bs ++ drop (length bs) (slice off n mem).
Proof.
  intros Ho Hb Hn. pose proof (zlen_nonneg bs).
  replace n with (zlen bs + (n - zlen bs)) by lia.
  rewrite !slice_app by lia. rewrite slice_blit_same, slice_blit_other by lia. f_equal.
  rewrite drop_app_length'; [done|]. rewrite length_slice by lia. unfold zlen. lia.
Qed.

Lemma blit_slice_self off n mem : 0 <= off -> 0 <= n -> blit off (slice off n mem) mem = mem.
Proof.
  intros Ho Hn. etransitivity; [|apply (take_drop (Z.to_nat off) mem)]. unfold blit, slice. f_equal.
  etransitivity; [|apply (take_drop (Z.to_nat n) (drop (Z.to_nat off) mem))]. f_equal.
  rewrite length_take, length_drop, drop_drop.
  destruct (decide (Z.to_nat n <= length mem - Z.to_nat off)%nat).
  - f_equal. lia.
  - rewrite !drop_ge by lia. done.
Qed.

(** Removing one of the elements with distinct keys. *)
Lemma NoDup_fmap_split {A B} (key : A -> B) (l before after : list A) x :
  l = before ++ x :: after -> NoDup (key <$> l) ->
  NoDup (key <$> (before ++ after)) /\ x ∈ l
  /\ forall c, c ∈ before ++ after -> c ∈ l /\ key c <> key x.
Proof.
  intros ->. rewrite !fmap_app, fmap_cons, !list.NoDup_app, list.NoDup_cons.
  intros (Hb & Hba & Hni & Ha). split_and!.
  - done. - intros y Hy Hy'. apply (Hba y Hy). by right. - done.
  - apply elem_of_app. right. left.
  - intros c Hc. split.
    + apply elem_of_app in Hc as [Hc|Hc]; apply elem_of_app; [by left|right; by right].
    + intros Heq. apply elem_of_app in Hc as [Hc|Hc].
      * apply (Hba (key c)); [by apply list_elem_of_fmap_2|]. rewrite Heq. left.
      * apply Hni. rewrite <- Heq. by apply list_elem_of_fmap_2.
Qed.

Lemma NoDup_fst_unique {A B} (l : list (A * B)) x y z :
  NoDup l.*1 -> (x, y) ∈ l -> (x, z) ∈ l -> y = z.
Proof.
  intros Hnd [i Hi]%list_elem_of_lookup [j Hj]%list_elem_of_lookup.
  assert (i = j) as ->.
  { eapply (NoDup_lookup l.*1); [exact Hnd|..]; rewrite list_lookup_fmap, ?Hi, ?Hj; done. }
  congruence.
Qed.
