(* ===== verification/Sampling.v ===== *)
(** * Reads that other threads interleave with

    A snapshot function reads an object with a series of relaxed loads, and other threads
    change the object between any two of them. It is modelled as a [Sampling]: a program
    that is given the object at the moment of each of its loads. *)
From stdpp Require Import relations.
From S2P Require Import Prelude.
#[local] Open Scope nat_scope.

(** [at_ n] is the object when load [n] executes; a program is given the number of its first
    load and returns that of the next one. *)
Definition Sampling (X A : Type) : Type := (nat -> X) -> nat -> A * nat.

#[export] Instance sampling_ret X : MRet (Sampling X) := fun _ x at_ n => (x, n).
#[export] Instance sampling_bind X : MBind (Sampling X) :=
  fun _ _ f m at_ n => f (m at_ n).1 at_ (m at_ n).2.

(** One atomic access. *)
Definition load {X A} (f : X -> A) : Sampling X A := fun at_ n => (f (at_ n), S n).

(** The loads of a member object. *)
Definition within {X T A} (member : X -> T) (m : Sampling T A) : Sampling X A :=
  fun at_ n => m (member ∘ at_) n.

Definition sampled {X A} (m : Sampling X A) (at_ : nat -> X) : A := (m at_ 0).1.

(** What is read when nothing moves. *)
Definition still {X A} (m : Sampling X A) (s : X) : A := sampled m (fun _ => s).

(** [sum += counter.load()] over the counters of an array. *)
Fixpoint sum_loads {X I} (counter : I -> X -> Z) (l : list I) (sum : Z) : Sampling X Z :=
  match l with
  | [] => mret sum
  | i :: l => x ← load (counter i); sum_loads counter l (w64 (sum + x))
  end.

(** The result of a program has the property [P] when its pieces do. *)
Definition yields {X A} (at_ : nat -> X) (P : A -> Prop) (m : Sampling X A) : Prop :=
  forall n, P (m at_ n).1.

Section Yields.
Context {X : Type} (at_ : nat -> X).

Lemma yields_ret {A} (P : A -> Prop) (x : A) : P x -> yields at_ P (mret x : Sampling X A).
Proof. by intros H n. Qed.

Lemma yields_bind {A B} (Q : A -> Prop) (P : B -> Prop) (m : Sampling X A) (f : A -> Sampling X B) :
  yields at_ Q m -> (forall x, Q x -> yields at_ P (f x)) -> yields at_ P (m ≫= f).
Proof. intros Hm Hf n. apply Hf, Hm. Qed.

Lemma yields_load {A} (P : A -> Prop) (f : X -> A) : (forall n, P (f (at_ n))) -> yields at_ P (load f).
Proof. intros H n. apply H. Qed.

Lemma yields_weaken {A} (P Q : A -> Prop) (m : Sampling X A) :
  yields at_ P m -> (forall x, P x -> Q x) -> yields at_ Q m.
Proof. intros Hm H n. by apply H. Qed.

Lemma yields_and {A} (P Q : A -> Prop) (m : Sampling X A) :
  yields at_ P m -> yields at_ Q m -> yields at_ (fun x => P x /\ Q x) m.
Proof. intros H1 H2 n. by split. Qed.

Lemma yields_sampled {A} (P : A -> Prop) (m : Sampling X A) : yields at_ P m -> P (sampled m at_).
Proof. intros H. apply H. Qed.

Lemma yields_within {T A} (P : A -> Prop) (member : X -> T) (m : Sampling T A) :
  yields (member ∘ at_) P m -> yields at_ P (within member m).
Proof. intros H n. apply H. Qed.

(** A sum of loads lies between the sums of what bounds each load. *)
Lemma yields_sum {I} (counter : I -> X -> Z) (low high : I -> Z) l sum_low sum_high sum :
  (forall i n, i ∈ l -> (low i <= counter i (at_ n) <= high i)%Z) ->
  (forall i, i ∈ l -> (0 <= low i)%Z) ->
  (0 <= sum_low <= sum)%Z -> (sum <= sum_high)%Z -> (sum_high + sumZ high l < 2 ^ 64)%Z ->
  yields at_ (fun x => sum_low + sumZ low l <= x <= sum_high + sumZ high l)%Z (sum_loads counter l sum).
Proof.
  revert sum_low sum_high sum. induction l as [|i l IH]; intros sum_low sum_high sum Hc H0 Hl Hh Hb.
  { apply yields_ret. cbn. lia. }
  cbn [sum_loads sumZ] in *.
  assert (forall j, j ∈ l -> (0 <= low j <= high j)%Z) as Hj.
  { intros j Hin. specialize (Hc j 0 ltac:(by right)). specialize (H0 j ltac:(by right)). lia. }
  assert (0 <= sumZ high l)%Z as Hn.
  { apply sumZ_nonneg. intros j Hin. specialize (Hj j Hin). lia. }
  eapply (yields_bind (fun x => (low i <= x <= high i)%Z)); [apply yields_load; intros n; apply Hc; left|].
  intros x Hx. specialize (H0 i ltac:(left)) as Hi0. rewrite w64_small by lia.
  eapply yields_weaken; [apply (IH (sum_low + low i)%Z (sum_high + high i)%Z)|cbn; lia]; try lia.
  - intros j n Hin. apply Hc. by right.
  - intros j Hin. apply H0. by right.
Qed.
End Yields.

(** ** Snapshots of a state that steps *)

(** A snapshot starts after [w] and ends before [w']; [at_ n] is the state of its load [n]. *)
Record watched {W} (R : relation W) (w : W) (at_ : nat -> W) (w' : W) : Prop := {
  wt_start : rtc R w (at_ 0);
  wt_next : forall n, rtc R (at_ n) (at_ (S n));
  wt_end : forall n, rtc R (at_ n) w';
}.

Lemma watched_from {W} (R : relation W) w at_ w' n : watched R w at_ w' -> rtc R w (at_ n).
Proof. intros [Hs Hn _]. induction n as [|n IH]; [done|]. by etrans. Qed.

(** Nothing moves. *)
Lemma watched_still {W} (R : relation W) w : watched R w (fun _ => w) w.
Proof. by split. Qed.
