(* ===== verification/KernelTypes.v ===== *)
(** * Shared types and constants of the producer pipeline

    [include/ulog/level.hpp], the constants and plain types of
    [src/producer/producer_kernel.hpp], and [AccountingCharge] of
    [src/producer/record_storage.cpp], which the ledger and the record writer
    both use. *)
From S2P Require Import Prelude.

(** ** Levels

    [enum class Level : std::uint8_t] can hold any byte, and the code tests for
    values that are no enumerator, so a level is its underlying value. *)

Definition Level : Type := Z.
Definition kTrace : Level := 0.
Definition kDebug : Level := 1.
Definition kInfo : Level := 2.
Definition kWarning : Level := 3.
Definition kError : Level := 4.
Definition kCritical : Level := 5.
Definition kNone : Level := 6.

Definition IsLevelEnabled (message_level threshold : Level) : bool :=
  let message := w8 message_level in
  let minimum := w8 threshold in
  let none := w8 kNone in
  (message <? none) && (minimum <=? none) && (minimum <=? message).

(** ** Constants of the producer kernel *)

Definition kAccountingQuantumBytes : Z := 64.
Definition kMaximumRecordBytes : Z := 16384.
Definition kMaximumProducerSlots : nat := 32.
Definition kMaximumIngressCells : nat := 64.

(** ** Source locations *)

Record SourceLocation := {
  file_name_ : list byte;
  function_name_ : list byte;
  line_ : Z;
  column_ : Z;
}.

Record WriteResult := {
  requested_bytes : Z;
  stored_bytes : Z;
  truncated : bool;
}.

Inductive FieldKind := kString | kInt64 | kUInt64 | kDouble | kBool | kNull.

#[export] Instance FieldKind_eq_dec : EqDecision FieldKind.
Proof. solve_decision. Defined.

(** The underlying value of a [FieldKind], and the cast back, which accepts any
    byte. *)
Definition FieldKind_value (k : FieldKind) : Z :=
  match k with
  | kString => 0 | kInt64 => 1 | kUInt64 => 2 | kDouble => 3 | kBool => 4 | kNull => 5
  end.

(** ** The accounting charge of a record *)

Definition AccountingCharge (serialized_bytes : Z) : Z :=
  let at_least_one_quantum := Z.max serialized_bytes kAccountingQuantumBytes in
  let kRoundingMask := kAccountingQuantumBytes - 1 in
  if size_max - kRoundingMask <? at_least_one_quantum then 0
  else Z.land (at_least_one_quantum +w kRoundingMask) (size_max - kRoundingMask).

(** ** Lemmas *)

Lemma land_round_down x : 0 <= x < 2 ^ 64 -> Z.land x (size_max - 63) = 64 * (x / 64).
Proof.
  intros Hx. change (size_max - 63) with (Z.ldiff (Z.ones 64) (Z.ones 6)).
  assert (Z.land x (Z.ldiff (Z.ones 64) (Z.ones 6)) = Z.ldiff x (Z.ones 6)) as ->.
  { apply Z.bits_inj'. intros n Hn.
    rewrite Z.land_spec, !Z.ldiff_spec.
    destruct (Z.testbit x n) eqn:Hb; [|done]. simpl.
    assert (n < 64) as Hlt.
    { apply Z.nle_gt. intros Hge.
      rewrite <- (Z.mod_small x (2 ^ 64)), Z.mod_pow2_bits_high in Hb by lia. done. }
    rewrite Z.ones_spec_low by lia. done. }
  rewrite Z.ldiff_ones_r by lia.
  rewrite Z.shiftl_mul_pow2, Z.shiftr_div_pow2 by lia.
  change (2 ^ 6) with 64. lia.
Qed.

Lemma AccountingCharge_spec s :
  0 <= s <= size_max - 63 -> AccountingCharge s = 64 * ((Z.max s 64 + 63) / 64).
Proof.
  intros Hs. unfold AccountingCharge, kAccountingQuantumBytes, size_max in *.
  change (64 - 1) with 63.
  destruct (Z.ltb_spec (2 ^ 64 - 1 - 63) (Z.max s 64)); [lia|].
  rewrite w64_small by lia. apply land_round_down. lia.
Qed.

Lemma AccountingCharge_overflow s :
  size_max - 63 < s -> AccountingCharge s = 0.
Proof.
  intros Hs. unfold AccountingCharge, kAccountingQuantumBytes, size_max in *.
  destruct (Z.ltb_spec (2 ^ 64 - 1 - (64 - 1)) (Z.max s 64)); [done|lia].
Qed.

Lemma AccountingCharge_nonneg s : 0 <= s -> 0 <= AccountingCharge s.
Proof.
  intros. destruct (decide (s <= size_max - 63)).
  - rewrite AccountingCharge_spec by lia.
    pose proof (Z.div_pos (Z.max s 64 + 63) 64). lia.
  - rewrite AccountingCharge_overflow; lia.
Qed.

(** The charge covers the bytes, is a positive multiple of the quantum, and
    exceeds the bytes by less than one quantum. *)
Lemma AccountingCharge_bounds s :
  0 <= s <= size_max - 63 ->
  Z.max s 64 <= AccountingCharge s < Z.max s 64 + 64 /\ AccountingCharge s mod 64 = 0.
Proof.
  intros Hs. rewrite AccountingCharge_spec by done.
  pose proof (Z.div_mod (Z.max s 64 + 63) 64 ltac:(lia)).
  pose proof (Z.mod_pos_bound (Z.max s 64 + 63) 64 ltac:(lia)).
  split; [lia|]. rewrite Z.mul_comm. apply Z.mod_mul. lia.
Qed.

Lemma AccountingCharge_mono s t :
  0 <= s <= t -> t <= size_max - 63 -> AccountingCharge s <= AccountingCharge t.
Proof.
  intros. rewrite !AccountingCharge_spec by lia.
  pose proof (Z.div_le_mono (Z.max s 64 + 63) (Z.max t 64 + 63) 64). lia.
Qed.

Lemma AccountingCharge_nonzero s :
  0 <= s -> AccountingCharge s <> 0 -> s <= size_max - 63 /\ 64 <= AccountingCharge s.
Proof.
  intros Hs H. destruct (decide (s <= size_max - 63)) as [Hle|].
  - split; [done|]. pose proof (AccountingCharge_bounds s ltac:(lia)). lia.
  - rewrite AccountingCharge_overflow in H by lia. done.
Qed.

(** A multiple of the quantum that covers the bytes covers the charge. *)
Lemma AccountingCharge_le_limit s limit :
  0 <= s <= limit -> 64 <= limit <= size_max - 63 -> limit mod 64 = 0 ->
  AccountingCharge s <= limit.
Proof.
  intros Hs Hl Hm. rewrite AccountingCharge_spec by lia.
  pose proof (Z.div_mod limit 64 ltac:(lia)).
  pose proof (Z.div_mod (Z.max s 64 + 63) 64 ltac:(lia)).
  pose proof (Z.mod_pos_bound (Z.max s 64 + 63) 64 ltac:(lia)). lia.
Qed.

#[export] Hint Resolve AccountingCharge_nonneg : ulog.
