(* ===== verification/CreditLedger.v ===== *)
(** * The credit ledger ([src/producer/credit_ledger.hpp], [.cpp])

    The byte budget of a Runtime.  [CreditLedger] is the class's state, one
    definition per member function; [Reservation] and [Ownership] are the
    move-only tokens, passed and returned as values.  A null [ledger_] pointer is
    [false].  [ledger_step] is every call a client can make, with the live tokens
    of the process kept next to the ledger. *)
From stdpp Require Import relations.
From S2P Require Import Prelude Sampling KernelTypes.

(** ** Data *)

Record Config := { capacity_bytes : Z; producer_count : nat }.

Record ProducerSlot := {
  local_credit_bytes : Z;
  returned_credit_bytes : Z;
  logical_charge_bytes : Z;
}.

#[export] Instance ProducerSlot_eta : Eta ProducerSlot := fun s =>
  {| local_credit_bytes := local_credit_bytes s;
     returned_credit_bytes := returned_credit_bytes s;
     logical_charge_bytes := logical_charge_bytes s |}.

Record CreditLedger := {
  producer_slots_ : list ProducerSlot;
  capacity_bytes_ : Z;
  producer_count_ : nat;
  central_available_bytes_ : Z;
}.

#[export] Instance CreditLedger_eta : Eta CreditLedger := fun l =>
  {| producer_slots_ := producer_slots_ l;
     capacity_bytes_ := capacity_bytes_ l;
     producer_count_ := producer_count_ l;
     central_available_bytes_ := central_available_bytes_ l |}.

Record Snapshot := {
  snap_capacity_bytes : Z;
  central_available_bytes : Z;
  logical_retained_bytes : Z;
  physical_retained_bytes : Z;
  sample_consistent : bool;
}.

Record Reservation := {
  res_ledger_ : bool;
  res_producer_index_ : nat;
  requested_bytes_ : Z;
  res_charge_bytes_ : Z;
}.

Record Ownership := {
  own_ledger_ : bool;
  own_producer_index_ : nat;
  retained_bytes_ : Z;
  own_charge_bytes_ : Z;
}.

Definition null_reservation : Reservation :=
  {| res_ledger_ := false; res_producer_index_ := 0; requested_bytes_ := 0;
     res_charge_bytes_ := 0 |}.

Definition null_ownership : Ownership :=
  {| own_ledger_ := false; own_producer_index_ := 0; retained_bytes_ := 0;
     own_charge_bytes_ := 0 |}.

Definition empty_slot : ProducerSlot :=
  {| local_credit_bytes := 0; returned_credit_bytes := 0; logical_charge_bytes := 0 |}.

(** [CreditLedger() noexcept = default]. *)
Definition initial_ledger : CreditLedger :=
  {| producer_slots_ := replicate kMaximumProducerSlots empty_slot;
     capacity_bytes_ := 0; producer_count_ := 0; central_available_bytes_ := 0 |}.

(** ** Private helpers *)

Definition slot_at (l : CreditLedger) (producer_index : nat) : ProducerSlot :=
  default empty_slot (producer_slots_ l !! producer_index).

Definition on_slot (f : ProducerSlot -> ProducerSlot) (producer_index : nat)
    (l : CreditLedger) : CreditLedger :=
  l <| producer_slots_ ::= alter f producer_index |>.

Definition IsValidProducer (l : CreditLedger) (producer_index : nat) : bool :=
  (producer_index <? producer_count_ l)%nat.

(** [local += returned.exchange(0)]. *)
Definition DrainReturnedCredit (producer_index : nat) (l : CreditLedger) : CreditLedger :=
  on_slot (fun s =>
    s <| local_credit_bytes ::= fun c => c +w returned_credit_bytes s |>
      <| returned_credit_bytes := 0 |>) producer_index l.

(** [returned.fetch_add(bytes)] unless [bytes] is zero. *)
Definition ReturnToMailbox (producer_index : nat) (bytes : Z) (l : CreditLedger)
    : CreditLedger :=
  if bytes =? 0 then l
  else on_slot (fun s => s <| returned_credit_bytes ::= fun c => c +w bytes |>)
         producer_index l.

(** [logical.fetch_sub(bytes)] and [logical.fetch_add(bytes)]. *)
Definition SubLogical (producer_index : nat) (bytes : Z) (l : CreditLedger) : CreditLedger :=
  on_slot (fun s => s <| logical_charge_bytes ::= fun c => c -w bytes |>) producer_index l.

Definition AddLogical (producer_index : nat) (bytes : Z) (l : CreditLedger) : CreditLedger :=
  on_slot (fun s => s <| logical_charge_bytes ::= fun c => c +w bytes |>) producer_index l.

(** ** Public operations *)

Definition Reset (config : Config) (l : CreditLedger) : CreditLedger :=
  {| producer_slots_ := (fun _ => empty_slot) <$> producer_slots_ l;
     capacity_bytes_ := capacity_bytes config;
     producer_count_ := producer_count config;
     central_available_bytes_ := capacity_bytes config |}.

(** The loop [while (available >= deficit) if (compare_exchange_weak(...)) break].
    Each element of [failures] is one failed exchange, with the value it reloads
    into [available]; the exchange after them succeeds.  [Some available] is the
    value the successful exchange replaced, [None] is [refilled == false]. *)
Fixpoint RefillLoop (available deficit : Z) (failures : list Z) : option Z :=
  if deficit <=? available then
    match failures with
    | [] => Some available
    | reloaded :: failures' => RefillLoop reloaded deficit failures'
    end
  else None.

(** A call that runs alone: an exchange can only fail spuriously, which reloads
    the value [central_available_bytes_] already had. *)
Definition TryReserve (spurious_failures : nat) (producer_index : nat)
    (worst_case_bytes : Z) (l : CreditLedger) : Reservation * CreditLedger :=
  let charge_bytes := AccountingCharge worst_case_bytes in
  if negb (IsValidProducer l producer_index) || (charge_bytes =? 0)
     || (capacity_bytes_ l <? charge_bytes)
  then (null_reservation, l)
  else
    let l := DrainReturnedCredit producer_index l in
    let local_credit := local_credit_bytes (slot_at l producer_index) in
    let refill :=
      if local_credit <? charge_bytes then
        let deficit := charge_bytes -w local_credit in
        let available := central_available_bytes_ l in
        match RefillLoop available deficit (replicate spurious_failures available) with
        | Some replaced =>
            Some (on_slot (fun s => s <| local_credit_bytes ::= fun c => c +w deficit |>)
                    producer_index (l <| central_available_bytes_ := replaced -w deficit |>))
        | None => None
        end
      else Some l in
    match refill with
    | None => (null_reservation, l)
    | Some l =>
        let l := on_slot (fun s =>
          s <| local_credit_bytes ::= fun c => c -w charge_bytes |>) producer_index l in
        let l := AddLogical producer_index worst_case_bytes l in
        ({| res_ledger_ := true; res_producer_index_ := producer_index;
            requested_bytes_ := worst_case_bytes; res_charge_bytes_ := charge_bytes |}, l)
    end.

Definition TryReconcileProducer (producer_index : nat) (l : CreditLedger)
    : bool * CreditLedger :=
  if negb (IsValidProducer l producer_index)
     || negb (logical_charge_bytes (slot_at l producer_index) =? 0)
  then (false, l)
  else
    let l := DrainReturnedCredit producer_index l in
    let local_credit := local_credit_bytes (slot_at l producer_index) in
    if local_credit =? 0 then (true, l)
    else
      let l := l <| central_available_bytes_ ::= fun c => c +w local_credit |> in
      (true, on_slot (fun s => s <| local_credit_bytes := 0 |>) producer_index l).

(** The loads of a snapshot, in the order of the code; the count and the capacity are set once
    by [Reset]. *)
Definition GetSnapshot : Sampling CreditLedger Snapshot :=
  count ← load producer_count_;
  logical_retained ←
    sum_loads (fun index l => logical_charge_bytes (slot_at l index)) (seq 0 count) 0;
  sampled_central_available ← load central_available_bytes_;
  capacity ← load capacity_bytes_;
  let central_available := Z.min sampled_central_available capacity in
  let physical_retained := capacity -w central_available in
  mret {| snap_capacity_bytes := capacity;
          central_available_bytes := central_available;
          logical_retained_bytes := Z.min logical_retained physical_retained;
          physical_retained_bytes := physical_retained;
          sample_consistent :=
            (sampled_central_available <=? capacity) && (logical_retained <=? physical_retained) |}.

(** ** Tokens

    [AbandonReservation] and [ReleaseOwnership] null the token they are given, so
    they return the ledger only; [Abandon] and [Release] are the guarded members
    the destructors call. *)

Definition AbandonReservation (r : Reservation) (l : CreditLedger) : CreditLedger :=
  ReturnToMailbox (res_producer_index_ r) (res_charge_bytes_ r)
    (SubLogical (res_producer_index_ r) (requested_bytes_ r) l).

Definition Abandon (r : Reservation) (l : CreditLedger) : Reservation * CreditLedger :=
  if res_ledger_ r then (null_reservation, AbandonReservation r l) else (r, l).

Definition CommitReservation (r : Reservation) (retained_bytes : Z) (l : CreditLedger)
    : Ownership * CreditLedger :=
  let retained_charge := AccountingCharge retained_bytes in
  if (requested_bytes_ r <? retained_bytes) || (retained_charge =? 0)
     || (res_charge_bytes_ r <? retained_charge)
  then (null_ownership, AbandonReservation r l)
  else
    let l := ReturnToMailbox (res_producer_index_ r)
               (res_charge_bytes_ r -w retained_charge) l in
    let l := SubLogical (res_producer_index_ r)
               (requested_bytes_ r -w retained_bytes) l in
    ({| own_ledger_ := true; own_producer_index_ := res_producer_index_ r;
        retained_bytes_ := retained_bytes; own_charge_bytes_ := retained_charge |}, l).

Definition Commit (r : Reservation) (retained_bytes : Z) (l : CreditLedger)
    : Ownership * CreditLedger :=
  if res_ledger_ r then CommitReservation r retained_bytes l else (null_ownership, l).

Definition ReleaseOwnership (o : Ownership) (l : CreditLedger) : CreditLedger :=
  ReturnToMailbox (own_producer_index_ o) (own_charge_bytes_ o)
    (SubLogical (own_producer_index_ o) (retained_bytes_ o) l).

Definition Release (o : Ownership) (l : CreditLedger) : Ownership * CreditLedger :=
  if own_ledger_ o then (null_ownership, ReleaseOwnership o l) else (o, l).

(** [operator=(Reservation&& other)] for two distinct objects: the target is
    abandoned first; the result is the new target, the new source and the ledger. *)
Definition AssignReservation (target other : Reservation) (l : CreditLedger)
    : Reservation * Reservation * CreditLedger :=
  let '(_, l) := Abandon target l in (other, null_reservation, l).

Definition AssignOwnership (target other : Ownership) (l : CreditLedger)
    : Ownership * Ownership * CreditLedger :=
  let '(_, l) := Release target l in (other, null_ownership, l).

(** ** The ledger and its live tokens *)

Record LedgerState := {
  ledger : CreditLedger;
  reservations : list Reservation;
  ownerships : list Ownership;
}.

(** A null token is not kept. *)
Definition keep_reservation (r : Reservation) (rs : list Reservation) : list Reservation :=
  if res_ledger_ r then r :: rs else rs.

Definition keep_ownership (o : Ownership) (os : list Ownership) : list Ownership :=
  if own_ledger_ o then o :: os else os.

Inductive ledger_step : LedgerState -> LedgerState -> Prop :=
| step_reserve n i w l rs os r l' :
    0 <= w <= size_max ->
    TryReserve n i w l = (r, l') ->
    ledger_step {| ledger := l; reservations := rs; ownerships := os |}
      {| ledger := l'; reservations := keep_reservation r rs; ownerships := os |}
| step_abandon l rs rs' r os r' l' :
    rs ≡ₚ r :: rs' ->
    Abandon r l = (r', l') ->
    ledger_step {| ledger := l; reservations := rs; ownerships := os |}
      {| ledger := l'; reservations := rs'; ownerships := os |}
| step_commit l rs rs' r os retained o l' :
    rs ≡ₚ r :: rs' ->
    0 <= retained <= size_max ->
    Commit r retained l = (o, l') ->
    ledger_step {| ledger := l; reservations := rs; ownerships := os |}
      {| ledger := l'; reservations := rs'; ownerships := keep_ownership o os |}
| step_release l rs os os' o o' l' :
    os ≡ₚ o :: os' ->
    Release o l = (o', l') ->
    ledger_step {| ledger := l; reservations := rs; ownerships := os |}
      {| ledger := l'; reservations := rs; ownerships := os' |}
| step_reconcile i l rs os b l' :
    TryReconcileProducer i l = (b, l') ->
    ledger_step {| ledger := l; reservations := rs; ownerships := os |}
      {| ledger := l'; reservations := rs; ownerships := os |}.

Definition start_state (config : Config) : LedgerState :=
  {| ledger := Reset config initial_ledger; reservations := []; ownerships := [] |}.

(** ** The invariant *)

Definition slot_credit (s : ProducerSlot) : Z := local_credit_bytes s + returned_credit_bytes s.

Definition reserved_by (i : nat) (r : Reservation) : Z :=
  if decide (res_producer_index_ r = i) then requested_bytes_ r else 0.

Definition retained_by (i : nat) (o : Ownership) : Z :=
  if decide (own_producer_index_ o = i) then retained_bytes_ o else 0.

Record reservation_ok (count : nat) (r : Reservation) : Prop := {
  ro_live : res_ledger_ r = true;
  ro_index : (res_producer_index_ r < count)%nat;
  ro_requested : 0 <= requested_bytes_ r;
  ro_charge : res_charge_bytes_ r = AccountingCharge (requested_bytes_ r);
  ro_nonzero : res_charge_bytes_ r <> 0;
}.

Record ownership_ok (count : nat) (o : Ownership) : Prop := {
  oo_live : own_ledger_ o = true;
  oo_index : (own_producer_index_ o < count)%nat;
  oo_retained : 0 <= retained_bytes_ o;
  oo_charge : own_charge_bytes_ o = AccountingCharge (retained_bytes_ o);
  oo_nonzero : own_charge_bytes_ o <> 0;
}.

(** Every byte of the capacity is in exactly one place: the central pool, a
    producer's local credit, a producer's mailbox, or a live token. *)
Record ledger_inv (s : LedgerState) : Prop := {
  li_slots : length (producer_slots_ (ledger s)) = kMaximumProducerSlots;
  li_count : (producer_count_ (ledger s) <= kMaximumProducerSlots)%nat;
  li_capacity : 0 <= capacity_bytes_ (ledger s) <= size_max;
  li_central : 0 <= central_available_bytes_ (ledger s);
  li_credit : forall slot, slot ∈ producer_slots_ (ledger s) ->
    0 <= local_credit_bytes slot /\ 0 <= returned_credit_bytes slot;
  li_reservations : forall r, r ∈ reservations s ->
    reservation_ok (producer_count_ (ledger s)) r;
  li_ownerships : forall o, o ∈ ownerships s ->
    ownership_ok (producer_count_ (ledger s)) o;
  li_conserved :
    central_available_bytes_ (ledger s) + sumZ slot_credit (producer_slots_ (ledger s))
    + sumZ res_charge_bytes_ (reservations s) + sumZ own_charge_bytes_ (ownerships s)
    = capacity_bytes_ (ledger s);
  li_logical : forall i slot, producer_slots_ (ledger s) !! i = Some slot ->
    logical_charge_bytes slot
    = sumZ (reserved_by i) (reservations s) + sumZ (retained_by i) (ownerships s);
  li_unused : forall i slot, producer_slots_ (ledger s) !! i = Some slot ->
    (producer_count_ (ledger s) <= i)%nat -> slot_credit slot = 0;
}.

(** ** Lemmas: one slot changes *)

Definition set_slot (l : CreditLedger) (i : nat) (slot : ProducerSlot) (central : Z)
    : CreditLedger :=
  {| producer_slots_ := <[i := slot]> (producer_slots_ l);
     capacity_bytes_ := capacity_bytes_ l;
     producer_count_ := producer_count_ l;
     central_available_bytes_ := central |}.

Lemma set_slot_id l i slot :
  producer_slots_ l !! i = Some slot -> l = set_slot l i slot (central_available_bytes_ l).
Proof. intros H. unfold set_slot. rewrite list_insert_id by done. by destruct l. Qed.

Lemma on_slot_set_slot f l i slot c :
  (i < length (producer_slots_ l))%nat ->
  on_slot f i (set_slot l i slot c) = set_slot l i (f slot) c.
Proof.
  intros Hi. unfold on_slot, set_slot. simpl. f_equal.
  rewrite (alter_as_insert _ _ _ slot) by (by apply list_lookup_insert_eq).
  by rewrite list_insert_insert_eq.
Qed.

Lemma on_slot_lookup f l i slot :
  producer_slots_ l !! i = Some slot ->
  on_slot f i l = set_slot l i (f slot) (central_available_bytes_ l).
Proof.
  intros Hs. rewrite (set_slot_id l i slot) at 1 by done.
  apply on_slot_set_slot. by eapply lookup_lt_Some.
Qed.

Lemma central_set_slot f l i slot c :
  set_slot l i slot c <| central_available_bytes_ ::= f |> = set_slot l i slot (f c).
Proof. done. Qed.

Lemma slot_at_set_slot l i slot c :
  (i < length (producer_slots_ l))%nat -> slot_at (set_slot l i slot c) i = slot.
Proof.
  intros Hi. unfold slot_at, set_slot. simpl. by rewrite list_lookup_insert_eq.
Qed.

Lemma RefillLoop_alone available deficit n :
  RefillLoop available deficit (replicate n available)
  = if deficit <=? available then Some available else None.
Proof. induction n as [|n IH]; simpl; [done|]. rewrite IH. by case_ifs. Qed.

(** ** Lemmas: bounds that follow from the invariant *)

Section Bounds.
Context (s : LedgerState) (Hinv : ledger_inv s).

Lemma inv_lookup i :
  (i < producer_count_ (ledger s))%nat ->
  exists slot, producer_slots_ (ledger s) !! i = Some slot /\ slot_at (ledger s) i = slot
    /\ (i < length (producer_slots_ (ledger s)))%nat.
Proof.
  intros Hi. destruct Hinv. destruct (lookup_lt_is_Some_2 (producer_slots_ (ledger s)) i) as [slot Hs]; [lia|].
  exists slot. unfold slot_at. rewrite Hs. split_and!; [done..|lia].
Qed.

Lemma inv_token_sums :
  0 <= sumZ res_charge_bytes_ (reservations s) /\ 0 <= sumZ own_charge_bytes_ (ownerships s)
  /\ forall i, 0 <= sumZ (reserved_by i) (reservations s) <= sumZ res_charge_bytes_ (reservations s)
       /\ 0 <= sumZ (retained_by i) (ownerships s) <= sumZ own_charge_bytes_ (ownerships s).
Proof.
  assert (forall r, r ∈ reservations s -> 0 <= requested_bytes_ r <= res_charge_bytes_ r) as Hr.
  { intros r [_ _ ? Hc Hn]%(li_reservations _ Hinv). rewrite Hc in *.
    destruct (AccountingCharge_nonzero _ ltac:(done) Hn).
    pose proof (AccountingCharge_bounds (requested_bytes_ r) ltac:(lia)). lia. }
  assert (forall o, o ∈ ownerships s -> 0 <= retained_bytes_ o <= own_charge_bytes_ o) as Ho.
  { intros o [_ _ ? Hc Hn]%(li_ownerships _ Hinv). rewrite Hc in *.
    destruct (AccountingCharge_nonzero _ ltac:(done) Hn).
    pose proof (AccountingCharge_bounds (retained_bytes_ o) ltac:(lia)). lia. }
  split_and!.
  - apply sumZ_nonneg. intros r ?%Hr. lia.
  - apply sumZ_nonneg. intros o ?%Ho. lia.
  - intros i. split_and!.
    + apply sumZ_nonneg. intros r ?%Hr. unfold reserved_by. case_decide; lia.
    + apply sumZ_le. intros r ?%Hr. unfold reserved_by. case_decide; lia.
    + apply sumZ_nonneg. intros o ?%Ho. unfold retained_by. case_decide; lia.
    + apply sumZ_le. intros o ?%Ho. unfold retained_by. case_decide; lia.
Qed.

Lemma inv_credit_nonneg : 0 <= sumZ slot_credit (producer_slots_ (ledger s)).
Proof.
  apply sumZ_nonneg. intros slot ?%(li_credit _ Hinv). unfold slot_credit. lia.
Qed.

(** The credit, the central pool and the live charges together fit the capacity. *)
Lemma inv_slot_bounds i slot :
  producer_slots_ (ledger s) !! i = Some slot ->
  0 <= local_credit_bytes slot /\ 0 <= returned_credit_bytes slot
  /\ 0 <= logical_charge_bytes slot
  /\ logical_charge_bytes slot <= sumZ res_charge_bytes_ (reservations s)
       + sumZ own_charge_bytes_ (ownerships s)
  /\ central_available_bytes_ (ledger s) + slot_credit slot
     + sumZ res_charge_bytes_ (reservations s) + sumZ own_charge_bytes_ (ownerships s)
     <= capacity_bytes_ (ledger s).
Proof.
  intros Hs. destruct inv_token_sums as (? & ? & Hi). specialize (Hi i).
  pose proof (li_credit _ Hinv slot (list_elem_of_lookup_2 _ _ _ Hs)).
  pose proof (li_logical _ Hinv _ _ Hs). pose proof (li_conserved _ Hinv).
  assert (slot_credit slot <= sumZ slot_credit (producer_slots_ (ledger s))).
  { eapply sumZ_lookup_le; [|done]. intros y ?%(li_credit _ Hinv). unfold slot_credit. lia. }
  lia.
Qed.
End Bounds.

(** ** The update lemma: how one step changes the invariant's quantities *)

Lemma inv_update l rs os i slot slot' central' rs' os' :
  ledger_inv {| ledger := l; reservations := rs; ownerships := os |} ->
  producer_slots_ l !! i = Some slot -> (i < producer_count_ l)%nat ->
  0 <= central' -> 0 <= local_credit_bytes slot' -> 0 <= returned_credit_bytes slot' ->
  (forall r, r ∈ rs' -> reservation_ok (producer_count_ l) r) ->
  (forall o, o ∈ os' -> ownership_ok (producer_count_ l) o) ->
  central' + slot_credit slot' + sumZ res_charge_bytes_ rs' + sumZ own_charge_bytes_ os'
  = central_available_bytes_ l + slot_credit slot + sumZ res_charge_bytes_ rs
    + sumZ own_charge_bytes_ os ->
  (forall j, j <> i -> sumZ (reserved_by j) rs' + sumZ (retained_by j) os'
                       = sumZ (reserved_by j) rs + sumZ (retained_by j) os) ->
  logical_charge_bytes slot' = sumZ (reserved_by i) rs' + sumZ (retained_by i) os' ->
  ledger_inv {| ledger := set_slot l i slot' central'; reservations := rs'; ownerships := os' |}.
Proof.
  intros [] Hi; simpl in *. intros Hcnt Hc Hl Hm Hrs Hos Hsum Hother Hlog. split; simpl; auto.
  - by rewrite length_insert.
  - intros y [j Hj]%list_elem_of_lookup.
    destruct (decide (i = j)) as [<-|Hne].
    + rewrite list_lookup_insert_eq in Hj by (by eapply lookup_lt_Some). by simplify_eq.
    + rewrite list_lookup_insert_ne in Hj by done. apply li_credit0.
      apply list_elem_of_lookup. eauto.
  - rewrite (sumZ_insert _ _ _ slot) by done. lia.
  - intros j y Hj. destruct (decide (i = j)) as [<-|Hne].
    + rewrite list_lookup_insert_eq in Hj by (by eapply lookup_lt_Some). by simplify_eq.
    + rewrite list_lookup_insert_ne in Hj by done.
      rewrite Hother by done. eauto.
  - intros j y Hj Hge. rewrite list_lookup_insert_ne in Hj by lia. eauto.
Qed.

(** Tokens of another producer do not count. *)
Lemma reserved_by_self r : reserved_by (res_producer_index_ r) r = requested_bytes_ r.
Proof. unfold reserved_by. by rewrite decide_True. Qed.
Lemma reserved_by_other j r : j <> res_producer_index_ r -> reserved_by j r = 0.
Proof. intros. unfold reserved_by. by rewrite decide_False by congruence. Qed.
Lemma retained_by_self o : retained_by (own_producer_index_ o) o = retained_bytes_ o.
Proof. unfold retained_by. by rewrite decide_True. Qed.
Lemma retained_by_other j o : j <> own_producer_index_ o -> retained_by j o = 0.
Proof. intros. unfold retained_by. by rewrite decide_False by congruence. Qed.

(** A permutation of the tokens does not matter. *)
Lemma inv_permutation l rs rs' os os' :
  rs ≡ₚ rs' -> os ≡ₚ os' ->
  ledger_inv {| ledger := l; reservations := rs; ownerships := os |} ->
  ledger_inv {| ledger := l; reservations := rs'; ownerships := os' |}.
Proof.
  intros Hr Ho []; split; simpl in *; auto.
  - intros r. rewrite <- Hr. auto.
  - intros o. rewrite <- Ho. auto.
  - by rewrite <- Hr, <- Ho.
  - intros i slot Hs. rewrite <- Hr, <- Ho. auto.
Qed.

(** ** Lemmas: what each operation computes *)

Section Operations.
Context (l : CreditLedger) (rs : list Reservation) (os : list Ownership).
Context (Hinv : ledger_inv {| ledger := l; reservations := rs; ownerships := os |}).

Abbreviation kept := (sumZ res_charge_bytes_ rs + sumZ own_charge_bytes_ os).

Lemma TryReserve_cases n i w :
  0 <= w <= size_max ->
  (TryReserve n i w l = (null_reservation, l) /\
     (~ (i < producer_count_ l)%nat \/ AccountingCharge w = 0
      \/ capacity_bytes_ l < AccountingCharge w)) \/
  exists slot, producer_slots_ l !! i = Some slot /\ (i < producer_count_ l)%nat
    /\ AccountingCharge w <> 0 /\ AccountingCharge w <= capacity_bytes_ l
    /\ let credit := slot_credit slot in
       let charge := AccountingCharge w in
       let central := central_available_bytes_ l in
       (central + credit < charge /\
        TryReserve n i w l =
          (null_reservation,
           set_slot l i {| local_credit_bytes := credit; returned_credit_bytes := 0;
                           logical_charge_bytes := logical_charge_bytes slot |} central)) \/
       (charge <= central + credit /\
        TryReserve n i w l =
          ({| res_ledger_ := true; res_producer_index_ := i; requested_bytes_ := w;
              res_charge_bytes_ := charge |},
           set_slot l i
             {| local_credit_bytes := Z.max 0 (credit - charge);
                returned_credit_bytes := 0;
                logical_charge_bytes := logical_charge_bytes slot + w |}
             (central - Z.max 0 (charge - credit)))).
Proof.
  intros Hw. unfold TryReserve.
  destruct (negb (IsValidProducer l i) || (AccountingCharge w =? 0)
            || (capacity_bytes_ l <? AccountingCharge w)) eqn:Hg.
  { left. split; [done|]. unfold IsValidProducer in Hg.
    b2p. destruct Hg as [Hg|Hg]; b2p; [|tauto]. destruct Hg; b2p; [left; lia|tauto]. }
  right. b2p. unfold IsValidProducer in *. b2p.
  destruct (inv_lookup _ Hinv i ltac:(simpl; lia)) as (slot & Hs & _ & Hlt). simpl in * |-.
  exists slot. split_and!; [done..|lia|].
  destruct (inv_slot_bounds _ Hinv i slot Hs) as (? & ? & ? & ? & ?). simpl in * |-.
  destruct (inv_token_sums _ Hinv) as (? & ? & _). simpl in * |-.
  pose proof (li_central _ Hinv). pose proof (li_capacity _ Hinv). simpl in * |-.
  destruct (AccountingCharge_nonzero w ltac:(lia) ltac:(done)).
  pose proof (AccountingCharge_bounds w ltac:(lia)).
  assert (DrainReturnedCredit i l =
    set_slot l i {| local_credit_bytes := slot_credit slot; returned_credit_bytes := 0;
                    logical_charge_bytes := logical_charge_bytes slot |}
      (central_available_bytes_ l)) as ->.
  { unfold DrainReturnedCredit. rewrite (on_slot_lookup _ l i slot) by done.
    f_equal. simpl. f_equal.
    unfold slot_credit, size_max in *. rewrite w64_small; lia. }
  rewrite slot_at_set_slot by done.
  assert (0 <= slot_credit slot) by (unfold slot_credit; lia).
  set (credit := slot_credit slot) in *. set (charge := AccountingCharge w) in *.
  cbn [local_credit_bytes central_available_bytes_ set_slot].
  unfold AddLogical, size_max in *.
  destruct (Z.ltb_spec credit charge).
  - rewrite RefillLoop_alone. rewrite (w64_small (charge - credit)) by lia.
    destruct (Z.leb_spec (charge - credit) (central_available_bytes_ l)).
    + right. split; [lia|].
      rewrite central_set_slot, !on_slot_set_slot by done. simpl.
      do 2 f_equal; [f_equal|]; solve_w64.
    + left. split; [lia|done].
  - right. split; [lia|]. rewrite !on_slot_set_slot by done. simpl.
    do 2 f_equal; [f_equal|]; solve_w64.
Qed.

(** Crediting the mailbox of one producer and lowering its logical charge, the
    pair of atomic operations behind abandon, release and commit. *)
Lemma mailbox_and_logical i slot bytes logical :
  producer_slots_ l !! i = Some slot ->
  0 <= bytes -> 0 <= returned_credit_bytes slot -> returned_credit_bytes slot + bytes <= size_max ->
  0 <= logical <= logical_charge_bytes slot -> logical_charge_bytes slot <= size_max ->
  let slot' := {| local_credit_bytes := local_credit_bytes slot;
                  returned_credit_bytes := returned_credit_bytes slot + bytes;
                  logical_charge_bytes := logical_charge_bytes slot - logical |} in
  ReturnToMailbox i bytes (SubLogical i logical l) = set_slot l i slot' (central_available_bytes_ l)
  /\ SubLogical i logical (ReturnToMailbox i bytes l)
     = set_slot l i slot' (central_available_bytes_ l).
Proof.
  intros Hs ? ? ? ? ?. pose proof (lookup_lt_Some _ _ _ Hs). unfold size_max in *.
  unfold ReturnToMailbox, SubLogical.
  destruct (Z.eqb_spec bytes 0) as [->|]; rewrite !(on_slot_lookup _ l i slot) by done;
    rewrite ?on_slot_set_slot by done; simpl; split; f_equal; f_equal; solve_w64.
Qed.

Lemma live_reservation r rs' :
  rs ≡ₚ r :: rs' ->
  reservation_ok (producer_count_ l) r /\
  exists slot, producer_slots_ l !! res_producer_index_ r = Some slot
    /\ requested_bytes_ r <= logical_charge_bytes slot
    /\ 0 <= requested_bytes_ r <= res_charge_bytes_ r
    /\ sumZ res_charge_bytes_ rs = res_charge_bytes_ r + sumZ res_charge_bytes_ rs'
    /\ forall i, sumZ (reserved_by i) rs = reserved_by i r + sumZ (reserved_by i) rs'.
Proof.
  intros Hp. assert (reservation_ok (producer_count_ l) r) as Hok.
  { apply (li_reservations _ Hinv). simpl. rewrite Hp. left. }
  split; [done|]. destruct Hok as [? Hi ? Hc Hn].
  destruct (inv_lookup _ Hinv _ Hi) as (slot & Hs & _ & _). exists slot. split; [done|].
  destruct (AccountingCharge_nonzero (requested_bytes_ r)) as [? ?]; [done|congruence|].
  pose proof (AccountingCharge_bounds (requested_bytes_ r) ltac:(lia)).
  assert (forall f, sumZ f rs = f r + sumZ f rs') as Hsum by (intros f; by rewrite Hp).
  split; [|split_and!; [lia|lia|apply Hsum|intros; apply Hsum]].
  rewrite (li_logical _ Hinv _ _ Hs). simpl. rewrite Hsum, reserved_by_self.
  assert (forall x, x ∈ rs' -> reservation_ok (producer_count_ l) x) as Hrest.
  { intros x Hx. apply (li_reservations _ Hinv). simpl. rewrite Hp. by right. }
  assert (0 <= sumZ (reserved_by (res_producer_index_ r)) rs').
  { apply sumZ_nonneg. intros x Hx. destruct (Hrest x Hx).
    unfold reserved_by. case_decide; lia. }
  destruct (inv_token_sums _ Hinv) as (_ & _ & Hts). specialize (Hts (res_producer_index_ r)).
  simpl in Hts. lia.
Qed.

Lemma live_ownership o os' :
  os ≡ₚ o :: os' ->
  ownership_ok (producer_count_ l) o /\
  exists slot, producer_slots_ l !! own_producer_index_ o = Some slot
    /\ retained_bytes_ o <= logical_charge_bytes slot
    /\ 0 <= retained_bytes_ o <= own_charge_bytes_ o
    /\ sumZ own_charge_bytes_ os = own_charge_bytes_ o + sumZ own_charge_bytes_ os'
    /\ forall i, sumZ (retained_by i) os = retained_by i o + sumZ (retained_by i) os'.
Proof.
  intros Hp. assert (ownership_ok (producer_count_ l) o) as Hok.
  { apply (li_ownerships _ Hinv). simpl. rewrite Hp. left. }
  split; [done|]. destruct Hok as [? Hi ? Hc Hn].
  destruct (inv_lookup _ Hinv _ Hi) as (slot & Hs & _ & _). exists slot. split; [done|].
  destruct (AccountingCharge_nonzero (retained_bytes_ o)) as [? ?]; [done|congruence|].
  pose proof (AccountingCharge_bounds (retained_bytes_ o) ltac:(lia)).
  assert (forall f, sumZ f os = f o + sumZ f os') as Hsum by (intros f; by rewrite Hp).
  split; [|split_and!; [lia|lia|apply Hsum|intros; apply Hsum]].
  rewrite (li_logical _ Hinv _ _ Hs). simpl. rewrite Hsum, retained_by_self.
  assert (forall x, x ∈ os' -> ownership_ok (producer_count_ l) x) as Hrest.
  { intros x Hx. apply (li_ownerships _ Hinv). simpl. rewrite Hp. by right. }
  assert (0 <= sumZ (retained_by (own_producer_index_ o)) os').
  { apply sumZ_nonneg. intros x Hx. destruct (Hrest x Hx).
    unfold retained_by. case_decide; lia. }
  destruct (inv_token_sums _ Hinv) as (_ & _ & Hts). specialize (Hts (own_producer_index_ o)).
  simpl in Hts. lia.
Qed.
End Operations.

(** ** Every operation preserves the invariant *)

Section Preservation.
Context (l : CreditLedger) (rs : list Reservation) (os : list Ownership).
Context (Hinv : ledger_inv {| ledger := l; reservations := rs; ownerships := os |}).

Lemma TryReserve_inv n i w r l' :
  0 <= w <= size_max -> TryReserve n i w l = (r, l') ->
  ledger_inv {| ledger := l'; reservations := keep_reservation r rs; ownerships := os |}.
Proof.
  intros Hw Heq. destruct (TryReserve_cases l rs os Hinv n i w Hw) as [[H _]|H].
  { rewrite H in Heq. by simplify_eq. }
  destruct H as (slot & Hs & Hi & Hn & Hc & Hcase).
  destruct (inv_slot_bounds _ Hinv i slot Hs) as (? & ? & ? & ? & ?).
  pose proof (li_central _ Hinv). simpl in * |-.
  destruct Hcase as [[Hlt Ht]|[Hge Ht]]; rewrite Ht in Heq; simplify_eq.
  - change (keep_reservation null_reservation rs) with rs.
    eapply inv_update; [done|done|done|simpl; unfold slot_credit; lia..| | | | |]; simpl.
    + apply (li_reservations _ Hinv).
    + apply (li_ownerships _ Hinv).
    + unfold slot_credit. simpl. lia.
    + done.
    + apply (li_logical _ Hinv _ _ Hs).
  - eapply inv_update; [done|done|done|simpl; lia..| | | | |]; simpl.
    + intros r [->|Hr]%elem_of_cons; [by split; simpl; try lia|]. by apply (li_reservations _ Hinv).
    + apply (li_ownerships _ Hinv).
    + unfold slot_credit in *. simpl. lia.
    + intros j Hj. unfold reserved_by at 1. simpl. rewrite decide_False by done. lia.
    + unfold reserved_by at 1. simpl. rewrite decide_True by done.
      rewrite (li_logical _ Hinv _ _ Hs). simpl. lia.
Qed.

Lemma AbandonReservation_inv r rs' :
  rs ≡ₚ r :: rs' ->
  ledger_inv {| ledger := AbandonReservation r l; reservations := rs'; ownerships := os |}.
Proof.
  intros Hp. destruct (live_reservation l rs os Hinv r rs' Hp)
    as ([? ? ? ? ?] & slot & Hs & ? & ? & Hsum & Hby).
  destruct (inv_slot_bounds _ Hinv _ slot Hs) as (? & ? & ? & ? & ?).
  destruct (inv_token_sums _ Hinv) as (? & ? & _). pose proof (li_capacity _ Hinv).
  assert (0 <= sumZ res_charge_bytes_ rs').
  { apply sumZ_nonneg. intros x Hx. destruct (li_reservations _ Hinv x) as [_ _ ? -> _].
    - simpl. rewrite Hp. by right.
    - auto with ulog. }
  pose proof (li_central _ Hinv). simpl in * |-. unfold slot_credit in *.
  unfold AbandonReservation.
  destruct (mailbox_and_logical l _ slot (res_charge_bytes_ r) (requested_bytes_ r) Hs)
    as [-> _]; [lia..|].
  eapply inv_update; [done|done|done|simpl; lia..| | | | |]; simpl.
  - intros x Hx. apply (li_reservations _ Hinv). simpl. rewrite Hp. by right.
  - apply (li_ownerships _ Hinv).
  - unfold slot_credit. simpl. lia.
  - intros j Hj. rewrite Hby, reserved_by_other by done. lia.
  - rewrite (li_logical _ Hinv _ _ Hs). simpl. rewrite Hby, reserved_by_self. lia.
Qed.

Lemma ReleaseOwnership_inv o os' :
  os ≡ₚ o :: os' ->
  ledger_inv {| ledger := ReleaseOwnership o l; reservations := rs; ownerships := os' |}.
Proof.
  intros Hp. destruct (live_ownership l rs os Hinv o os' Hp)
    as ([? ? ? ? ?] & slot & Hs & ? & ? & Hsum & Hby).
  destruct (inv_slot_bounds _ Hinv _ slot Hs) as (? & ? & ? & ? & ?).
  destruct (inv_token_sums _ Hinv) as (? & ? & _). pose proof (li_capacity _ Hinv).
  assert (0 <= sumZ own_charge_bytes_ os').
  { apply sumZ_nonneg. intros x Hx. destruct (li_ownerships _ Hinv x) as [_ _ ? -> _].
    - simpl. rewrite Hp. by right.
    - auto with ulog. }
  pose proof (li_central _ Hinv). simpl in * |-. unfold slot_credit in *.
  unfold ReleaseOwnership.
  destruct (mailbox_and_logical l _ slot (own_charge_bytes_ o) (retained_bytes_ o) Hs)
    as [-> _]; [lia..|].
  eapply inv_update; [done|done|done|simpl; lia..| | | | |]; simpl.
  - apply (li_reservations _ Hinv).
  - intros x Hx. apply (li_ownerships _ Hinv). simpl. rewrite Hp. by right.
  - unfold slot_credit. simpl. lia.
  - intros j Hj. rewrite Hby, retained_by_other by done. lia.
  - rewrite (li_logical _ Hinv _ _ Hs). simpl. rewrite Hby, retained_by_self. lia.
Qed.
Lemma keep_live_ownership o : own_ledger_ o = true -> keep_ownership o os = o :: os.
Proof. unfold keep_ownership. by intros ->. Qed.

Lemma CommitReservation_inv r rs' retained o l' :
  rs ≡ₚ r :: rs' -> 0 <= retained <= size_max ->
  CommitReservation r retained l = (o, l') ->
  ledger_inv {| ledger := l'; reservations := rs'; ownerships := keep_ownership o os |}.
Proof.
  intros Hp Hret. unfold CommitReservation.
  case_ifs; intros Heq; simplify_eq; [by apply (AbandonReservation_inv r)|]. b2p.
  destruct (live_reservation l rs os Hinv r rs' Hp)
    as ([? ? ? ? ?] & slot & Hs & ? & ? & Hsum & Hby).
  destruct (inv_slot_bounds _ Hinv _ slot Hs) as (? & ? & ? & ? & ?).
  destruct (inv_token_sums _ Hinv) as (? & ? & _). pose proof (li_capacity _ Hinv).
  assert (0 <= sumZ res_charge_bytes_ rs').
  { apply sumZ_nonneg. intros x Hx. destruct (li_reservations _ Hinv x) as [_ _ ? -> _].
    - simpl. rewrite Hp. by right.
    - auto with ulog. }
  pose proof (li_central _ Hinv). pose proof (AccountingCharge_nonneg retained).
  simpl in * |-. unfold slot_credit, size_max in *.
  rewrite (w64_small (res_charge_bytes_ r - _)), (w64_small (requested_bytes_ r - _)) by lia.
  destruct (mailbox_and_logical l _ slot (res_charge_bytes_ r - AccountingCharge retained)
              (requested_bytes_ r - retained) Hs) as [_ ->]; [unfold size_max; lia..|].
  eapply inv_update; [done|done|done|simpl; lia..| | | | |]; simpl.
  - intros x Hx. apply (li_reservations _ Hinv). simpl. rewrite Hp. by right.
  - intros x [->|Hx]%elem_of_cons; [by split; simpl; try lia|]. by apply (li_ownerships _ Hinv).
  - unfold slot_credit. simpl. lia.
  - intros j Hj. rewrite Hby, reserved_by_other by done.
    unfold retained_by at 1. simpl. rewrite decide_False by done. lia.
  - rewrite (li_logical _ Hinv _ _ Hs). simpl. rewrite Hby, reserved_by_self.
    unfold retained_by at 2. simpl. rewrite decide_True by done. lia.
Qed.

Lemma TryReconcileProducer_cases i :
  TryReconcileProducer i l = (false, l) \/
  exists slot, producer_slots_ l !! i = Some slot /\ logical_charge_bytes slot = 0
    /\ (i < producer_count_ l)%nat
    /\ TryReconcileProducer i l = (true, set_slot l i empty_slot
         (central_available_bytes_ l + slot_credit slot)).
Proof.
  unfold TryReconcileProducer. case_ifs; b2p; [by left| |].
  all: unfold IsValidProducer in *; b2p.
  all: destruct (inv_lookup _ Hinv i ltac:(simpl; lia)) as (slot & Hs & Hat & Hlt).
  all: destruct (inv_slot_bounds _ Hinv i slot Hs) as (? & ? & ? & ? & ?).
  all: pose proof (li_central _ Hinv); pose proof (li_capacity _ Hinv).
  all: destruct (inv_token_sums _ Hinv) as (? & ? & _); simpl in * |-.
  all: right; exists slot; rewrite Hat in *; split_and!; [done..|].
  all: unfold DrainReturnedCredit, size_max, slot_credit in *.
  all: rewrite (on_slot_lookup _ l i slot) in * by done.
  all: rewrite slot_at_set_slot in * by done.
  all: cbn [local_credit_bytes set_slot modify] in * |-.
  all: rewrite (w64_small (local_credit_bytes slot + _)) in * by lia.
  - f_equal. unfold set_slot. simpl. f_equal; [|lia]. f_equal.
    unfold empty_slot. f_equal; solve_w64.
  - rewrite central_set_slot, on_slot_set_slot by done. f_equal. unfold set_slot.
    simpl. f_equal; [|solve_w64]. f_equal. unfold empty_slot. by f_equal.
Qed.

Lemma TryReconcileProducer_inv i b l' :
  TryReconcileProducer i l = (b, l') ->
  ledger_inv {| ledger := l'; reservations := rs; ownerships := os |}.
Proof.
  intros Heq. destruct (TryReconcileProducer_cases i) as [H|(slot & Hs & Hlog & Hi & H)];
    rewrite H in Heq; simplify_eq; [done|].
  destruct (inv_slot_bounds _ Hinv i slot Hs) as (? & ? & ? & ? & ?).
  pose proof (li_central _ Hinv). simpl in * |-. unfold slot_credit in *.
  eapply inv_update; [done|done|done|simpl; lia..| | | | |]; simpl.
  - apply (li_reservations _ Hinv).
  - apply (li_ownerships _ Hinv).
  - unfold slot_credit. simpl. lia.
  - done.
  - pose proof (li_logical _ Hinv _ _ Hs) as Hl. simpl in Hl. lia.
Qed.
End Preservation.

#[export] Hint Resolve TryReserve_inv AbandonReservation_inv ReleaseOwnership_inv
  CommitReservation_inv TryReconcileProducer_inv : ulog.

Lemma ledger_step_inv s s' : ledger_step s s' -> ledger_inv s -> ledger_inv s'.
Proof.
  intros [n i w l rs os r l' Hw Heq|l rs rs' r os r' l' Hp Heq
         |l rs rs' r os ret o l' Hp Hret Heq|l rs os os' o o' l' Hp Heq
         |i l rs os b l' Heq] Hinv; eauto with ulog.
  - destruct (live_reservation _ _ _ Hinv _ _ Hp) as [[Hl _ _ _ _] _].
    unfold Abandon in Heq. rewrite Hl in Heq. simplify_eq. eauto with ulog.
  - destruct (live_reservation _ _ _ Hinv _ _ Hp) as [[Hl _ _ _ _] _].
    unfold Commit in Heq. rewrite Hl in Heq. eauto with ulog.
  - destruct (live_ownership _ _ _ Hinv _ _ Hp) as [[Hl _ _ _ _] _].
    unfold Release in Heq. rewrite Hl in Heq. simplify_eq. eauto with ulog.
Qed.

Definition config_ok (c : Config) : Prop :=
  (producer_count c <= kMaximumProducerSlots)%nat /\ 0 <= capacity_bytes c <= size_max.

Lemma start_state_slots c :
  producer_slots_ (ledger (start_state c)) = replicate kMaximumProducerSlots empty_slot.
Proof. reflexivity. Qed.

Lemma start_state_inv c : config_ok c -> ledger_inv (start_state c).
Proof.
  intros [Hn Hc]. split; rewrite ?start_state_slots.
  - done.
  - done.
  - done.
  - simpl. lia.
  - intros slot [j [-> _]%lookup_replicate]%list_elem_of_lookup. done.
  - intros r Hr. by apply elem_of_nil in Hr.
  - intros o Ho. by apply elem_of_nil in Ho.
  - rewrite (sumZ_zero slot_credit); [simpl; lia|].
    intros slot [j [-> _]%lookup_replicate]%list_elem_of_lookup. done.
  - by intros i slot [-> _]%lookup_replicate.
  - by intros i slot [-> _]%lookup_replicate _.
Qed.

Lemma reachable_inv c s : config_ok c -> rtc ledger_step (start_state c) s -> ledger_inv s.
Proof.
  intros Hc. revert s. refine (rtc_ind_r _ _ _ _); [by apply start_state_inv|].
  intros y z _ Hyz IH. by eapply ledger_step_inv.
Qed.

(** The counts of the configuration never change. *)
Lemma ledger_step_const s s' :
  ledger_step s s' -> ledger_inv s ->
  capacity_bytes_ (ledger s') = capacity_bytes_ (ledger s)
  /\ producer_count_ (ledger s') = producer_count_ (ledger s).
Proof.
  intros [n i w l rs os r l' Hw Heq|l rs rs' r os r' l' Hp Heq
         |l rs rs' r os ret o l' Hp Hret Heq|l rs os os' o o' l' Hp Heq
         |i l rs os b l' Heq] Hinv; simpl.
  - destruct (TryReserve_cases _ _ _ Hinv n i w Hw) as [[H _]|(slot & _ & _ & _ & _ & [[_ H]|[_ H]])];
      rewrite H in Heq; by simplify_eq.
  - unfold Abandon, AbandonReservation, ReturnToMailbox in Heq. repeat case_match; by simplify_eq.
  - unfold Commit, CommitReservation, AbandonReservation, ReturnToMailbox in Heq.
    repeat case_match; by simplify_eq.
  - unfold Release, ReleaseOwnership, ReturnToMailbox in Heq. repeat case_match; by simplify_eq.
  - destruct (TryReconcileProducer_cases _ _ _ Hinv i) as [H|(slot & _ & _ & _ & H)];
      rewrite H in Heq; by simplify_eq.
Qed.

Lemma reachable_const c s :
  config_ok c -> rtc ledger_step (start_state c) s ->
  capacity_bytes_ (ledger s) = capacity_bytes c
  /\ producer_count_ (ledger s) = producer_count c.
Proof.
  intros Hc. revert s. refine (rtc_ind_r _ _ _ _); [done|].
  intros y z Hy Hyz [Hcap Hcnt].
  destruct (ledger_step_const y z Hyz (reachable_inv _ _ Hc Hy)). split; congruence.
Qed.

(** The logical charge of all producers is the sum over the live tokens. *)
Lemma total_logical s :
  ledger_inv s ->
  sumZ logical_charge_bytes (take (producer_count_ (ledger s)) (producer_slots_ (ledger s)))
  = sumZ requested_bytes_ (reservations s) + sumZ retained_bytes_ (ownerships s).
Proof.
  intros Hinv. set (n := producer_count_ (ledger s)).
  assert (length (take n (producer_slots_ (ledger s))) = n) as Hlen.
  { rewrite length_take, (li_slots _ Hinv). pose proof (li_count _ Hinv). lia. }
  rewrite sumZ_by_index, Hlen.
  rewrite (sumZ_ext _ (fun i => sumZ (reserved_by i) (reservations s)
                                + sumZ (retained_by i) (ownerships s))).
  2:{ intros i Hi%elem_of_seq. destruct (inv_lookup _ Hinv i ltac:(lia)) as (slot & Hs & _).
      rewrite lookup_take_lt, Hs by lia. apply (li_logical _ Hinv _ _ Hs). }
  rewrite sumZ_add. f_equal; rewrite sumZ_swap; apply sumZ_ext.
  - intros r Hr%(li_reservations _ Hinv). apply sumZ_indicator. by destruct Hr.
  - intros o Ho%(li_ownerships _ Hinv). apply sumZ_indicator. by destruct Ho.
Qed.

Lemma logical_by_index l n :
  (n <= length (producer_slots_ l))%nat ->
  sumZ (fun i => logical_charge_bytes (slot_at l i)) (seq 0 n)
  = sumZ logical_charge_bytes (take n (producer_slots_ l)).
Proof.
  intros Hn. rewrite (sumZ_by_index _ (take _ _)), length_take_le by done. apply sumZ_ext.
  intros i Hi%elem_of_seq. rewrite lookup_take_lt by lia. unfold slot_at.
  by destruct (producer_slots_ l !! i).
Qed.

(** A snapshot that the ledger moves under is within its bounds. *)
Lemma snapshot_bounds (at_ : nat -> CreditLedger) c :
  0 <= c < 2 ^ 64 ->
  (forall n, capacity_bytes_ (at_ n) = c /\ 0 <= central_available_bytes_ (at_ n)) ->
  yields at_ (fun snap => snap_capacity_bytes snap = c
    /\ logical_retained_bytes snap <= physical_retained_bytes snap <= c) GetSnapshot.
Proof.
  intros Hc Hat. apply (yields_bind at_ (fun _ => True)); [by apply yields_load|]. intros count _.
  apply (yields_bind at_ (fun _ => True)); [done|]. intros logical _.
  apply (yields_bind at_ (fun x => 0 <= x)); [apply yields_load, Hat|]. intros central H0.
  apply (yields_bind at_ (fun x => x = c)); [apply yields_load, Hat|]. intros ? ->.
  apply yields_ret. cbn. rewrite w64_small by lia. lia.
Qed.

(** A snapshot that it does not move under is exact. *)
Lemma snapshot_exact s (at_ : nat -> CreditLedger) :
  ledger_inv s -> (forall n, at_ n = ledger s) ->
  yields at_ (fun snap =>
    sample_consistent snap = true
    /\ logical_retained_bytes snap
       = sumZ requested_bytes_ (reservations s) + sumZ retained_bytes_ (ownerships s)
    /\ physical_retained_bytes snap
       = capacity_bytes_ (ledger s) - central_available_bytes_ (ledger s)
    /\ logical_retained_bytes snap <= physical_retained_bytes snap
    /\ physical_retained_bytes snap <= capacity_bytes_ (ledger s)) GetSnapshot.
Proof.
  intros Hinv Hat. destruct (inv_token_sums _ Hinv) as (Hr & Ho & _).
  pose proof (inv_credit_nonneg _ Hinv). pose proof (li_conserved _ Hinv).
  pose proof (li_central _ Hinv). pose proof (li_capacity _ Hinv).
  assert (forall slot, slot ∈ producer_slots_ (ledger s) -> 0 <= logical_charge_bytes slot).
  { intros slot [i Hs]%list_elem_of_lookup.
    destruct (inv_slot_bounds _ Hinv _ _ Hs) as (? & ? & ? & _). done. }
  pose proof (total_logical _ Hinv) as Htot.
  assert (sumZ requested_bytes_ (reservations s) + sumZ retained_bytes_ (ownerships s)
          <= sumZ res_charge_bytes_ (reservations s) + sumZ own_charge_bytes_ (ownerships s)
          /\ sumZ logical_charge_bytes (producer_slots_ (ledger s))
             = sumZ requested_bytes_ (reservations s) + sumZ retained_bytes_ (ownerships s))
    as [Hle Hall].
  { split.
    - enough (sumZ requested_bytes_ (reservations s) <= sumZ res_charge_bytes_ (reservations s)
              /\ sumZ retained_bytes_ (ownerships s) <= sumZ own_charge_bytes_ (ownerships s)) by lia.
      split; apply sumZ_le.
      + intros r [_ _ ? Hc Hn]%(li_reservations _ Hinv). rewrite Hc in *.
        destruct (AccountingCharge_nonzero _ ltac:(done) Hn).
        pose proof (AccountingCharge_bounds (requested_bytes_ r)). lia.
      + intros r [_ _ ? Hc Hn]%(li_ownerships _ Hinv). rewrite Hc in *.
        destruct (AccountingCharge_nonzero _ ltac:(done) Hn).
        pose proof (AccountingCharge_bounds (retained_bytes_ r)). lia.
    - rewrite <- Htot. set (n := producer_count_ (ledger s)).
      rewrite <- (take_drop n (producer_slots_ (ledger s))) at 1. rewrite sumZ_app.
      rewrite (sumZ_zero _ (drop _ _)); [lia|].
      intros slot [i Hs]%list_elem_of_lookup. rewrite lookup_drop in Hs.
      rewrite (li_logical _ Hinv _ _ Hs), !sumZ_zero; [done|..].
      + intros o [_ ? _ _ _]%(li_ownerships _ Hinv). apply retained_by_other. lia.
      + intros r [_ ? _ _ _]%(li_reservations _ Hinv). apply reserved_by_other. lia. }
  apply (yields_bind at_ (fun x => x = producer_count_ (ledger s))).
  { apply yields_load. intros n. by rewrite Hat. }
  intros ? ->. set (logical := fun i => logical_charge_bytes (slot_at (ledger s) i)).
  pose proof (li_slots _ Hinv) as Hslots. pose proof (li_count _ Hinv) as Hcount.
  assert (sumZ logical (seq 0 (producer_count_ (ledger s)))
    = sumZ requested_bytes_ (reservations s) + sumZ retained_bytes_ (ownerships s)) as Hsum
    by (unfold logical; rewrite logical_by_index by lia; exact Htot).
  assert (forall i, i ∈ seq 0 (producer_count_ (ledger s)) -> 0 <= logical i) as Hnn.
  { intros i Hi%elem_of_seq. destruct (inv_lookup _ Hinv i ltac:(lia)) as (slot & Hs & Hsl & _).
    unfold logical. rewrite Hsl. apply H3. by eapply list_elem_of_lookup_2. }
  unfold size_max in *.
  eapply yields_bind; [apply (yields_sum at_ _ logical logical _ 0 0)|]; try done; try lia.
  { intros i n _. by rewrite Hat. }
  rewrite Hsum. intros sum Hx. cbn beta in Hx. assert (sum = sumZ requested_bytes_ (reservations s)
    + sumZ retained_bytes_ (ownerships s)) as -> by lia.
  apply (yields_bind at_ (fun x => x = central_available_bytes_ (ledger s))).
  { apply yields_load. intros n. by rewrite Hat. }
  intros ? ->. apply (yields_bind at_ (fun x => x = capacity_bytes_ (ledger s))).
  { apply yields_load. intros n. by rewrite Hat. }
  intros ? ->. apply yields_ret. cbn. rewrite Z.min_l by lia. rewrite !w64_small by lia.
  split_and!; [|lia..]. apply andb_true_iff. split; apply Z.leb_le; lia.
Qed.

(** Reconciling producers [0 .. k-1] one after the other. *)
Definition ReconcileAll (k : nat) (l : CreditLedger) : CreditLedger :=
  foldl (fun l i => (TryReconcileProducer i l).2) l (seq 0 k).

Lemma TryReconcileProducer_idle l i :
  ledger_inv {| ledger := l; reservations := []; ownerships := [] |} ->
  (i < producer_count_ l)%nat ->
  exists slot, producer_slots_ l !! i = Some slot
    /\ TryReconcileProducer i l
       = (true, set_slot l i empty_slot (central_available_bytes_ l + slot_credit slot)).
Proof.
  intros Hinv Hi. destruct (TryReconcileProducer_cases l [] [] Hinv i)
    as [H|(slot & Hs & _ & _ & H)]; [|eauto].
  exfalso. destruct (inv_lookup _ Hinv i Hi) as (slot & Hs & Hat & _).
  pose proof (li_logical _ Hinv _ _ Hs) as Hl. simpl in *.
  unfold TryReconcileProducer, IsValidProducer in H. rewrite Hat, Hl in H.
  destruct (Nat.ltb_spec i (producer_count_ l)); [|lia]. simpl in H.
  repeat case_match; by simplify_eq.
Qed.

Lemma ReconcileAll_idle l k :
  ledger_inv {| ledger := l; reservations := []; ownerships := [] |} ->
  (k <= producer_count_ l)%nat ->
  let l' := ReconcileAll k l in
  ledger_inv {| ledger := l'; reservations := []; ownerships := [] |}
  /\ producer_count_ l' = producer_count_ l /\ capacity_bytes_ l' = capacity_bytes_ l
  /\ forall i slot, (i < k)%nat -> producer_slots_ l' !! i = Some slot -> slot_credit slot = 0.
Proof.
  intros Hinv. unfold ReconcileAll. induction k as [|k IH]; intros Hk.
  { split_and!; [done..|]. intros; lia. }
  rewrite seq_S, foldl_app. destruct (IH ltac:(lia)) as (Hi & Hn & Hc & Hz).
  set (l1 := foldl _ l (seq 0 k)) in *. cbn [foldl Nat.add].
  destruct (TryReconcileProducer_idle l1 k Hi ltac:(lia)) as (slot & Hs & Heq).
  rewrite Heq. cbn [snd]. split_and!; [|done..|].
  - eapply TryReconcileProducer_inv; [exact Hi|exact Heq].
  - intros i y Hlt Hy. cbn [producer_slots_ set_slot] in Hy.
    destruct (decide (k = i)) as [->|].
    + rewrite list_lookup_insert_eq in Hy by (by eapply lookup_lt_Some). by simplify_eq.
    + rewrite list_lookup_insert_ne in Hy by done. apply (Hz i); [lia|done].
Qed.

(** ** Properties *)

(** C9: in every state a client can reach, each byte of the configured capacity
    is in exactly one place (central pool, a producer's local credit or mailbox,
    or a live token's charge), none of the parts is negative, so live reservations
    and retained records together never exceed the budget. *)
Theorem ledger_conserves_capacity c s :
  config_ok c -> rtc ledger_step (start_state c) s ->
  central_available_bytes_ (ledger s) + sumZ slot_credit (producer_slots_ (ledger s))
    + sumZ res_charge_bytes_ (reservations s) + sumZ own_charge_bytes_ (ownerships s)
    = capacity_bytes c
  /\ 0 <= central_available_bytes_ (ledger s)
  /\ (forall slot, slot ∈ producer_slots_ (ledger s) ->
        0 <= local_credit_bytes slot /\ 0 <= returned_credit_bytes slot)
  /\ sumZ res_charge_bytes_ (reservations s) + sumZ own_charge_bytes_ (ownerships s)
     <= capacity_bytes c.
Proof.
  intros Hc Hr. pose proof (reachable_inv _ _ Hc Hr) as Hinv.
  destruct (reachable_const _ _ Hc Hr) as [Hcap _].
  pose proof (li_conserved _ Hinv). pose proof (inv_credit_nonneg _ Hinv).
  pose proof (li_central _ Hinv). split_and!; [lia|lia|apply (li_credit _ Hinv)|lia].
Qed.

(** A snapshot of any reachable state, while nothing moves, is a consistent sample: the
    logical total is exactly the bytes the live tokens ask for or retain, the
    physical total is what left the central pool, and logical <= physical <=
    capacity. *)
Lemma ledger_snapshot_exact c s :
  config_ok c -> rtc ledger_step (start_state c) s ->
  let snap := still GetSnapshot (ledger s) in
  sample_consistent snap = true
  /\ logical_retained_bytes snap
     = sumZ requested_bytes_ (reservations s) + sumZ retained_bytes_ (ownerships s)
  /\ physical_retained_bytes snap = capacity_bytes c - central_available_bytes_ (ledger s)
  /\ logical_retained_bytes snap <= physical_retained_bytes snap <= capacity_bytes c.
Proof.
  intros Hc Hr. destruct (reachable_const _ _ Hc Hr) as [Hcap _].
  destruct (yields_sampled _ _ _ (snapshot_exact s _ (reachable_inv _ _ Hc Hr) (fun _ => eq_refl)))
    as (? & ? & ? & ? & ?).
  rewrite <- Hcap. split_and!; done.
Qed.

(** A reservation of a valid producer whose charge fits the capacity succeeds
    exactly when the charge fits the central pool plus the producer's own local
    and returned credit, whatever number of exchanges fail spuriously; it then
    charges [AccountingCharge] of the worst case, and a refusal takes nothing from
    the central pool. *)
Lemma TryReserve_succeeds_iff c s n i w r l' slot :
  config_ok c -> rtc ledger_step (start_state c) s ->
  (i < producer_count c)%nat -> 0 <= w <= size_max ->
  AccountingCharge w <> 0 -> AccountingCharge w <= capacity_bytes c ->
  producer_slots_ (ledger s) !! i = Some slot ->
  TryReserve n i w (ledger s) = (r, l') ->
  (res_ledger_ r = true <->
     AccountingCharge w <= central_available_bytes_ (ledger s) + slot_credit slot)
  /\ (res_ledger_ r = true ->
        res_charge_bytes_ r = AccountingCharge w /\ requested_bytes_ r = w
        /\ res_producer_index_ r = i)
  /\ (res_ledger_ r = false ->
        r = null_reservation /\ central_available_bytes_ l' = central_available_bytes_ (ledger s)).
Proof.
  intros Hc Hr Hi Hw Hn Hcap Hs Heq. destruct (reachable_const _ _ Hc Hr) as [Hcc Hcn].
  pose proof (reachable_inv _ _ Hc Hr) as Hinv. destruct s as [l rs os]; simpl in *.
  destruct (TryReserve_cases l rs os Hinv n i w Hw) as [[_ Hbad]|H].
  { rewrite Hcc, Hcn in Hbad. lia. }
  destruct H as (slot' & Hs' & _ & _ & _ & [[Hlt H]|[Hge H]]); rewrite Hs in Hs';
    rewrite H in Heq; simplify_eq; simpl; (split_and!; [split; [done|lia]|done|done]).
Qed.

(** C26: once every token has been released, reconciling the producers one by one
    returns the whole capacity to the central pool: no credit is ever lost. *)
Theorem idle_ledger_recovers_capacity c s :
  config_ok c -> rtc ledger_step (start_state c) s ->
  reservations s = [] -> ownerships s = [] ->
  central_available_bytes_ (ReconcileAll (producer_count c) (ledger s)) = capacity_bytes c.
Proof.
  intros Hc Hr Hrs Hos. destruct (reachable_const _ _ Hc Hr) as [Hcc Hcn].
  pose proof (reachable_inv _ _ Hc Hr) as Hinv. destruct s as [l rs os]; simpl in *; subst.
  destruct (ReconcileAll_idle l (producer_count c) Hinv ltac:(lia)) as (Hi & Hn & Hcap & Hz).
  pose proof (li_conserved _ Hi) as Hcons. simpl in Hcons.
  rewrite (sumZ_zero slot_credit) in Hcons; [lia|].
  intros slot [i Hs]%list_elem_of_lookup.
  destruct (decide (i < producer_count c)%nat); [by apply (Hz i)|].
  apply (li_unused _ Hi i); [done|]. simpl. lia.
Qed.

(** ** Witnesses: a ledger of 256 bytes and two producers *)

Definition demo_config : Config := {| capacity_bytes := 256; producer_count := 2 |}.

(** Producer 0 reserves 128 bytes and commits 70 of them; producer 1 is refused
    192 bytes; producer 0 releases. *)
Definition demo_reserved := TryReserve 3 0 128 (ledger (start_state demo_config)).
Definition demo_committed := Commit demo_reserved.1 70 demo_reserved.2.
Definition demo_refused := TryReserve 0 1 192 demo_committed.2.
Definition demo_released := Release demo_committed.1 demo_refused.2.

Definition demo_busy : LedgerState :=
  {| ledger := demo_refused.2; reservations := []; ownerships := [demo_committed.1] |}.
Definition demo_idle : LedgerState :=
  {| ledger := demo_released.2; reservations := []; ownerships := [] |}.

Lemma demo_config_ok : config_ok demo_config.
Proof. by_compute. Qed.

Lemma demo_busy_reachable : rtc ledger_step (start_state demo_config) demo_busy.
Proof.
  eapply rtc_l; [eapply (step_reserve 3 0 128); [by_compute|apply surjective_pairing]|].
  eapply rtc_l; [eapply (step_commit _ _ [] demo_reserved.1 _ 70);
    [done|by_compute|apply surjective_pairing]|].
  eapply rtc_l; [eapply (step_reserve 0 1 192); [by_compute|apply surjective_pairing]|].
  apply rtc_refl.
Qed.

Lemma demo_idle_reachable : rtc ledger_step (start_state demo_config) demo_idle.
Proof.
  eapply rtc_r; [apply demo_busy_reachable|].
  eapply (step_release _ _ _ [] demo_committed.1); [done|apply surjective_pairing].
Qed.

Lemma ledger_conserves_capacity_witness :
  central_available_bytes_ (ledger demo_busy) = 128
  /\ sumZ res_charge_bytes_ [] + sumZ own_charge_bytes_ [demo_committed.1] <= 256.
Proof.
  split; [by vm_compute|].
  apply (ledger_conserves_capacity demo_config demo_busy demo_config_ok demo_busy_reachable).
Defined.

Lemma ledger_snapshot_exact_witness :
  logical_retained_bytes (still GetSnapshot (ledger demo_busy)) = 70
  /\ sample_consistent (still GetSnapshot (ledger demo_busy)) = true.
Proof.
  split; [by vm_compute|].
  apply (ledger_snapshot_exact demo_config demo_busy demo_config_ok demo_busy_reachable).
Defined.

Lemma TryReserve_succeeds_iff_witness :
  res_ledger_ (TryReserve 5 0 128 (ledger demo_idle)).1 = true <-> 128 <= 128 + 128.
Proof.
  apply (TryReserve_succeeds_iff demo_config demo_idle 5 0 128
           (TryReserve 5 0 128 (ledger demo_idle)).1 (TryReserve 5 0 128 (ledger demo_idle)).2
           (slot_at (ledger demo_idle) 0)
           demo_config_ok demo_idle_reachable); by_compute.
Defined.

Lemma idle_ledger_recovers_capacity_witness :
  central_available_bytes_ (ledger demo_idle) = 128
  /\ central_available_bytes_ (ReconcileAll 2 (ledger demo_idle)) = 256.
Proof.
  split; [by vm_compute|].
  by apply (idle_ledger_recovers_capacity demo_config demo_idle demo_config_ok
              demo_idle_reachable).
Defined.
