(* ===== verification/ProducerLanes.v ===== *)
(** * Producer lanes ([src/producer/producer_lanes.hpp])

    The bounded ingress: one single-producer ring per producer slot inside one
    array of cells, a global admission counter, and a single consumer that takes
    records in admission order.  The member functions are the definitions of the
    first part.  [Publish] is split at its linearization point, the [fetch_add] on
    the admission counter, so that [lanes_step] can interleave a publication with
    every other operation. *)
From stdpp Require Import gmap relations.
From S2P Require Import Prelude KernelTypes.

(** ** Data *)

Record RecordHandle := {
  slot_index : nat;
  producer_index : nat;
  generation : Z;
  serialized_bytes : Z;
  accounting_charge_bytes : Z;
}.

Record Envelope := { record : RecordHandle; admission_sequence : Z }.

Definition null_handle : RecordHandle :=
  {| slot_index := 0; producer_index := 0; generation := 0; serialized_bytes := 0;
     accounting_charge_bytes := 0 |}.

Definition null_envelope : Envelope := {| record := null_handle; admission_sequence := 0 |}.

Inductive ClaimStatus := kClaimed | kFull | kContended | kInvalid.

Inductive ConsumptionStatus := kRecord | kEmpty | kPending.

#[export] Instance ClaimStatus_eq_dec : EqDecision ClaimStatus.
Proof. solve_decision. Defined.
#[export] Instance ConsumptionStatus_eq_dec : EqDecision ConsumptionStatus.
Proof. solve_decision. Defined.

Record PublicationClaim := {
  pub_owner_ : bool;
  pub_status_ : ClaimStatus;
  pub_producer_index_ : nat;
  write_position_ : Z;
  cell_index_ : nat;
}.

Record ConsumptionClaim := {
  con_owner_ : bool;
  con_status_ : ConsumptionStatus;
  con_producer_index_ : nat;
  read_position_ : Z;
  envelope_ : Envelope;
}.

Record Lane := {
  read_position : Z;
  published_position : Z;
  offset : nat;
  capacity : nat;
  write_position : Z;
  publishing : bool;
}.

#[export] Instance Lane_eta : Eta Lane := fun l =>
  {| read_position := read_position l; published_position := published_position l;
     offset := offset l; capacity := capacity l; write_position := write_position l;
     publishing := publishing l |}.

(** [next_admission_sequence_.value], and the two fields of [ConsumerState]. *)
Record ProducerLanes := {
  cells_ : list Envelope;
  lanes_ : list Lane;
  next_admission_sequence_ : Z;
  next_sequence : Z;
  claim_active : bool;
  producer_count_ : nat;
}.

#[export] Instance ProducerLanes_eta : Eta ProducerLanes := fun l =>
  {| cells_ := cells_ l; lanes_ := lanes_ l;
     next_admission_sequence_ := next_admission_sequence_ l;
     next_sequence := next_sequence l; claim_active := claim_active l;
     producer_count_ := producer_count_ l |}.

Definition empty_lane : Lane :=
  {| read_position := 0; published_position := 0; offset := 0; capacity := 0;
     write_position := 0; publishing := false |}.

Definition null_publication (status : ClaimStatus) : PublicationClaim :=
  {| pub_owner_ := false; pub_status_ := status; pub_producer_index_ := 0;
     write_position_ := 0; cell_index_ := 0 |}.

Definition null_consumption (status : ConsumptionStatus) : ConsumptionClaim :=
  {| con_owner_ := false; con_status_ := status; con_producer_index_ := 0;
     read_position_ := 0; envelope_ := null_envelope |}.

(** ** Construction

    The loop over the producers: [n] iterations are left, [producer] is the loop
    variable. *)
Fixpoint InitLanes (minimum_lane_capacity extra_capacity_lanes n producer next_offset : nat)
    (lanes : list Lane) : list Lane :=
  match n with
  | O => lanes
  | S n' =>
      let lane_capacity :=
        (minimum_lane_capacity
         + if (producer <? extra_capacity_lanes)%nat then 1 else 0)%nat in
      InitLanes minimum_lane_capacity extra_capacity_lanes n' (S producer)
        (next_offset + lane_capacity)
        (alter (fun lane => lane <| offset := next_offset |> <| capacity := lane_capacity |>)
           producer lanes)
  end.

Definition MakeProducerLanes (producer_count ingress_cells : nat) : ProducerLanes :=
  {| cells_ := replicate kMaximumIngressCells null_envelope;
     lanes_ := InitLanes (ingress_cells / producer_count) (ingress_cells mod producer_count)
                 producer_count 0 0 (replicate kMaximumProducerSlots empty_lane);
     next_admission_sequence_ := 0;
     next_sequence := 0;
     claim_active := false;
     producer_count_ := producer_count |}.

(** ** Access *)

Definition lane_at (l : ProducerLanes) (producer : nat) : Lane :=
  default empty_lane (lanes_ l !! producer).

Definition on_lane (f : Lane -> Lane) (producer : nat) (l : ProducerLanes) : ProducerLanes :=
  l <| lanes_ ::= alter f producer |>.

(** [lane.offset + position % lane.capacity]. *)
Definition lane_cell (lane : Lane) (position : Z) : nat :=
  (offset lane + Z.to_nat (position mod Z.of_nat (capacity lane)))%nat.

Definition cell_at (cells : list Envelope) (i : nat) : Envelope :=
  default null_envelope (cells !! i).

(** ** Publication *)

Definition IsValid (r : RecordHandle) : bool :=
  negb (serialized_bytes r =? 0)
  && (serialized_bytes r <=? accounting_charge_bytes r)
  && (slot_index r <? kMaximumIngressCells)%nat
  && (producer_index r <? kMaximumProducerSlots)%nat.

Definition TryClaimPublication (producer : nat) (l : ProducerLanes)
    : PublicationClaim * ProducerLanes :=
  if (producer_count_ l <=? producer)%nat then (null_publication kInvalid, l)
  else
    let lane := lane_at l producer in
    (* test_and_set *)
    let was_publishing := publishing lane in
    let l := on_lane (fun lane => lane <| publishing := true |>) producer l in
    if was_publishing then (null_publication kContended, l)
    else
      let write := write_position lane in
      let read := read_position lane in
      if Z.of_nat (capacity lane) <=? (write -w read) then
        (null_publication kFull, on_lane (fun lane => lane <| publishing := false |>) producer l)
      else
        ({| pub_owner_ := true; pub_status_ := kClaimed; pub_producer_index_ := producer;
            write_position_ := write; cell_index_ := lane_cell lane write |}, l).

(** The test at the head of [Publish]. *)
Definition PublishAllowed (claim : PublicationClaim) (r : RecordHandle) : bool :=
  pub_owner_ claim && IsValid r
  && (slot_index r =? cell_index_ claim)%nat
  && (producer_index r =? pub_producer_index_ claim)%nat.

(** The linearization point: [fetch_add(1)] on the admission counter. *)
Definition AllocateSequence (l : ProducerLanes) : Z * ProducerLanes :=
  (next_admission_sequence_ l, l <| next_admission_sequence_ ::= fun s => s +w 1 |>).

(** The rest of [Publish]: fill the cell, advance the lane, release the flag. *)
Definition StorePublication (claim : PublicationClaim) (r : RecordHandle) (sequence : Z)
    (l : ProducerLanes) : ProducerLanes :=
  let next := write_position_ claim +w 1 in
  on_lane (fun lane =>
      lane <| write_position := next |> <| published_position := next |>
           <| publishing := false |>)
    (pub_producer_index_ claim)
    (l <| cells_ ::= <[cell_index_ claim := {| record := r; admission_sequence := sequence |}]> |>).

(** The claim is nulled on success and left to its destructor otherwise. *)
Definition Publish (claim : PublicationClaim) (r : RecordHandle) (l : ProducerLanes)
    : option Z * PublicationClaim * ProducerLanes :=
  if negb (PublishAllowed claim r) then (None, claim, l)
  else
    let '(sequence, l) := AllocateSequence l in
    (Some sequence, null_publication (pub_status_ claim), StorePublication claim r sequence l).

Definition Abandon (claim : PublicationClaim) (l : ProducerLanes) : ProducerLanes :=
  if pub_owner_ claim then
    on_lane (fun lane => lane <| publishing := false |>) (pub_producer_index_ claim) l
  else l.

(** [cell_index()]. *)
Definition claim_cell_index (claim : PublicationClaim) : option nat :=
  if pub_owner_ claim then Some (cell_index_ claim) else None.

(** ** Consumption *)

(** The scan of [TryClaimConsumption] over the lanes from [producer] on; [inr] is
    the final value of [later_record_ready]. *)
Fixpoint ScanLanes (cells : list Envelope) (expected : Z) (lanes : list Lane)
    (producer count : nat) (later_record_ready : bool) : nat * Z * Envelope + bool :=
  match count, lanes with
  | S count', lane :: lanes' =>
      let read := read_position lane in
      if published_position lane =? read then
        ScanLanes cells expected lanes' (S producer) count' later_record_ready
      else
        let envelope := cell_at cells (lane_cell lane read) in
        if negb (admission_sequence envelope =? expected) then
          ScanLanes cells expected lanes' (S producer) count' true
        else inl (producer, read, envelope)
  | _, _ => inr later_record_ready
  end.

Definition TryClaimConsumption (l : ProducerLanes) : ConsumptionClaim * ProducerLanes :=
  if claim_active l then (null_consumption kPending, l)
  else
    match ScanLanes (cells_ l) (next_sequence l) (lanes_ l) 0 (producer_count_ l) false with
    | inl (producer, read, envelope) =>
        ({| con_owner_ := true; con_status_ := kRecord; con_producer_index_ := producer;
            read_position_ := read; envelope_ := envelope |},
         l <| claim_active := true |>)
    | inr later_record_ready =>
        let publication_in_progress :=
          negb (next_admission_sequence_ l =? next_sequence l) in
        (null_consumption
           (if later_record_ready || publication_in_progress then kPending else kEmpty), l)
    end.

Definition Acknowledge (claim : ConsumptionClaim) (l : ProducerLanes) : ProducerLanes :=
  if con_owner_ claim then
    on_lane (fun lane => lane <| read_position := read_position_ claim +w 1 |>)
      (con_producer_index_ claim) l
      <| next_sequence ::= fun s => s +w 1 |> <| claim_active := false |>
  else l.

Definition Cancel (claim : ConsumptionClaim) (l : ProducerLanes) : ProducerLanes :=
  if con_owner_ claim then l <| claim_active := false |> else l.

Definition IsProducerDrained (producer : nat) (l : ProducerLanes) : bool :=
  if (producer_count_ l <=? producer)%nat then false
  else
    let lane := lane_at l producer in
    negb (publishing lane) && (published_position lane =? read_position lane).

Definition AcceptedCount (l : ProducerLanes) : Z := next_admission_sequence_ l.

(** ** The system: lanes, live claims and the history of admissions

    [history] lists every admission in sequence order; an entry is visible once
    its publication was stored.  [delivered] is what the consumer acknowledged. *)

Record entry := { e_producer : nat; e_record : RecordHandle; e_visible : bool }.

Definition mark_visible (e : entry) : entry :=
  {| e_producer := e_producer e; e_record := e_record e; e_visible := true |}.

(** A live publication claim, before and after its sequence was allocated. *)
Inductive pub_phase :=
| Claimed (claim : PublicationClaim)
| Allocated (claim : PublicationClaim) (r : RecordHandle) (sequence : Z).

Record System := {
  lanes : ProducerLanes;
  history : list entry;
  publications : gmap nat pub_phase;
  consumption : option ConsumptionClaim;
  delivered : list Envelope;
}.

Inductive lanes_step : System -> System -> Prop :=
| st_claim p c l' l h pubs con dl :
    TryClaimPublication p l = (c, l') ->
    lanes_step {| lanes := l; history := h; publications := pubs; consumption := con; delivered := dl |}
      {| lanes := l'; history := h;
         publications := if pub_owner_ c then <[p := Claimed c]> pubs else pubs;
         consumption := con; delivered := dl |}
| st_allocate p c r q l' l h pubs con dl :
    pubs !! p = Some (Claimed c) -> PublishAllowed c r = true ->
    AllocateSequence l = (q, l') ->
    lanes_step {| lanes := l; history := h; publications := pubs; consumption := con; delivered := dl |}
      {| lanes := l'; history := h ++ [{| e_producer := p; e_record := r; e_visible := false |}];
         publications := <[p := Allocated c r q]> pubs; consumption := con; delivered := dl |}
| st_store p c r q l h pubs con dl :
    pubs !! p = Some (Allocated c r q) ->
    lanes_step {| lanes := l; history := h; publications := pubs; consumption := con; delivered := dl |}
      {| lanes := StorePublication c r q l; history := alter mark_visible (Z.to_nat q) h;
         publications := delete p pubs; consumption := con; delivered := dl |}
| st_abandon p c l h pubs con dl :
    pubs !! p = Some (Claimed c) ->
    lanes_step {| lanes := l; history := h; publications := pubs; consumption := con; delivered := dl |}
      {| lanes := Abandon c l; history := h; publications := delete p pubs; consumption := con;
         delivered := dl |}
| st_consume c l' l h pubs con dl :
    TryClaimConsumption l = (c, l') ->
    lanes_step {| lanes := l; history := h; publications := pubs; consumption := con; delivered := dl |}
      {| lanes := l'; history := h; publications := pubs;
         consumption := if con_owner_ c then Some c else con; delivered := dl |}
| st_acknowledge c l h pubs dl :
    lanes_step {| lanes := l; history := h; publications := pubs; consumption := Some c; delivered := dl |}
      {| lanes := Acknowledge c l; history := h; publications := pubs; consumption := None;
         delivered := dl ++ [envelope_ c] |}
| st_cancel c l h pubs dl :
    lanes_step {| lanes := l; history := h; publications := pubs; consumption := Some c; delivered := dl |}
      {| lanes := Cancel c l; history := h; publications := pubs; consumption := None;
         delivered := dl |}.

Definition lanes_start (producer_count ingress_cells : nat) : System :=
  {| lanes := MakeProducerLanes producer_count ingress_cells; history := []; publications := ∅;
     consumption := None; delivered := [] |}.

(** The envelope of the [k]-th admission, and the visible ones of a producer. *)
Definition envelope_of (k : nat) (e : entry) : Envelope :=
  {| record := e_record e; admission_sequence := Z.of_nat k |}.

Fixpoint visible_of (p k : nat) (h : list entry) : list Envelope :=
  match h with
  | [] => []
  | e :: h' =>
      if decide (e_producer e = p) then
        if e_visible e then envelope_of k e :: visible_of p (S k) h' else visible_of p (S k) h'
      else visible_of p (S k) h'
  end.

(** ** The invariant *)

Record geometry (l : ProducerLanes) : Prop := {
  geo_cells : length (cells_ l) = kMaximumIngressCells;
  geo_lanes : length (lanes_ l) = kMaximumProducerSlots;
  geo_count : (producer_count_ l <= kMaximumProducerSlots)%nat;
  geo_lane : forall p lane, (p < producer_count_ l)%nat -> lanes_ l !! p = Some lane ->
    (0 < capacity lane)%nat /\ (offset lane + capacity lane <= kMaximumIngressCells)%nat;
  geo_disjoint : forall p p' lane lane', (p < p' < producer_count_ l)%nat ->
    lanes_ l !! p = Some lane -> lanes_ l !! p' = Some lane' ->
    (offset lane + capacity lane <= offset lane')%nat;
}.

(** Lane [p] against the history: its positions count the visible records of the
    producer, and the cells between read and published hold them in order. *)
Record lane_holds (cells : list Envelope) (h : list entry) (consumed p : nat) (lane : Lane)
    : Prop := {
  lh_write : write_position lane = published_position lane;
  lh_published : published_position lane = zlen (visible_of p 0 h);
  lh_read : read_position lane = zlen (visible_of p 0 (take consumed h));
  lh_room : published_position lane <= read_position lane + Z.of_nat (capacity lane);
  lh_cells : forall k : nat, read_position lane <= Z.of_nat k < published_position lane ->
    visible_of p 0 h !! k = Some (cell_at cells (lane_cell lane (Z.of_nat k)));
  lh_slots : forall k : nat, read_position lane <= Z.of_nat k < published_position lane ->
    slot_index (record (cell_at cells (lane_cell lane (Z.of_nat k)))) = lane_cell lane (Z.of_nat k);
}.

Record claim_holds (c : PublicationClaim) (p : nat) (lane : Lane) : Prop := {
  ch_owner : pub_owner_ c = true;
  ch_producer : pub_producer_index_ c = p;
  ch_write : write_position_ c = write_position lane;
  ch_cell : cell_index_ c = lane_cell lane (write_position lane);
  ch_room : write_position lane < read_position lane + Z.of_nat (capacity lane);
}.

Definition phase_holds (h : list entry) (p : nat) (lane : Lane) (phase : pub_phase) : Prop :=
  match phase with
  | Claimed c => claim_holds c p lane
  | Allocated c r q =>
      claim_holds c p lane /\ PublishAllowed c r = true /\
      exists k : nat, q = Z.of_nat k /\
        h !! k = Some {| e_producer := p; e_record := r; e_visible := false |} /\
        (forall (j : nat) e, h !! j = Some e -> e_producer e = p -> (j <= k)%nat)
  end.

Definition consumption_holds (s : System) : Prop :=
  match consumption s with
  | None => claim_active (lanes s) = false
  | Some c =>
      claim_active (lanes s) = true /\ con_owner_ c = true /\
      exists e lane, history s !! length (delivered s) = Some e /\ e_visible e = true
        /\ lanes_ (lanes s) !! e_producer e = Some lane
        /\ con_producer_index_ c = e_producer e
        /\ envelope_ c = envelope_of (length (delivered s)) e
        /\ read_position_ c = read_position lane
  end.

Record lanes_inv (s : System) : Prop := {
  ln_geometry : geometry (lanes s);
  ln_admitted : next_admission_sequence_ (lanes s) = zlen (history s);
  ln_consumed : next_sequence (lanes s) = zlen (delivered s);
  ln_delivered : forall k env, delivered s !! k = Some env ->
    exists e, history s !! k = Some e /\ e_visible e = true /\ env = envelope_of k e;
  ln_lane : forall p lane, (p < producer_count_ (lanes s))%nat ->
    lanes_ (lanes s) !! p = Some lane ->
    lane_holds (cells_ (lanes s)) (history s) (length (delivered s)) p lane
    /\ (publishing lane = true <-> is_Some (publications s !! p));
  ln_phase : forall p phase, publications s !! p = Some phase ->
    (p < producer_count_ (lanes s))%nat
    /\ exists lane, lanes_ (lanes s) !! p = Some lane /\ phase_holds (history s) p lane phase;
  ln_history : forall (k : nat) e, history s !! k = Some e ->
    (e_producer e < producer_count_ (lanes s))%nat
    /\ (e_visible e = false ->
        exists c, publications s !! e_producer e = Some (Allocated c (e_record e) (Z.of_nat k)));
  ln_consumption : consumption_holds s;
}.

(** ** Lemmas: visible records of a history *)

Lemma visible_of_app p k h1 h2 :
  visible_of p k (h1 ++ h2) = visible_of p k h1 ++ visible_of p (k + length h1) h2.
Proof.
  revert k. induction h1 as [|e h1 IH]; intros k; simpl; [by rewrite Nat.add_0_r|].
  rewrite IH, Nat.add_succ_comm. by repeat case_match.
Qed.

Lemma visible_of_other p k h :
  (forall j e, h !! j = Some e -> e_producer e <> p) -> visible_of p k h = [].
Proof.
  revert k. induction h as [|e h IH]; intros k Hne; simpl; [done|].
  rewrite decide_False by (by apply (Hne 0%nat)). apply IH. intros j e' Hj. by apply (Hne (S j)).
Qed.

Lemma visible_of_mark p n h k e :
  h !! k = Some e -> e_producer e = p -> e_visible e = false ->
  (forall j e', h !! j = Some e' -> e_producer e' = p -> (j <= k)%nat) ->
  visible_of p n (alter mark_visible k h) = visible_of p n h ++ [envelope_of (n + k) e].
Proof.
  revert n k. induction h as [|x h IH]; intros n [|k] Hk Hp Hv Hlast; simplify_eq/=.
  - rewrite !decide_True, Hv by done. rewrite Nat.add_0_r.
    rewrite visible_of_other; [done|]. intros j e' Hj Hp. specialize (Hlast (S j) e' Hj Hp). lia.
  - assert (visible_of (e_producer e) (S n) (alter mark_visible k h)
            = visible_of (e_producer e) (S n) h ++ [envelope_of (n + S k) e]) as ->.
    { rewrite (IH (S n) k Hk eq_refl Hv).
      - do 3 f_equal. lia.
      - intros j e' Hj Hp. specialize (Hlast (S j) e' Hj Hp). lia. }
    by repeat case_match.
Qed.

Lemma visible_of_mark_other p n h k e :
  h !! k = Some e -> e_producer e <> p ->
  visible_of p n (alter mark_visible k h) = visible_of p n h.
Proof.
  revert n k. induction h as [|x h IH]; intros n [|k] Hk Hp; simplify_eq/=.
  - by rewrite !decide_False.
  - rewrite (IH (S n) k) by done. done.
Qed.

Lemma elem_of_visible_of p k h env :
  env ∈ visible_of p k h <->
  exists j e, h !! j = Some e /\ e_producer e = p /\ e_visible e = true
    /\ env = envelope_of (k + j) e.
Proof.
  revert k. induction h as [|x h IH]; intros k; simpl.
  { split; [by intros ?%elem_of_nil|intros (j & e & Hj & _); done]. }
  assert (env ∈ visible_of p (S k) h <->
          exists j e, (x :: h) !! S j = Some e /\ e_producer e = p /\ e_visible e = true
            /\ env = envelope_of (k + S j) e) as HI.
  { rewrite IH. by setoid_rewrite Nat.add_succ_comm. }
  split.
  - intros H. assert (env ∈ visible_of p (S k) h \/
      (e_producer x = p /\ e_visible x = true /\ env = envelope_of k x)) as [H'|H'].
    { repeat case_match; try by left. apply elem_of_cons in H as [->|H]; [by right|by left]. }
    + apply HI in H' as (j & e & ?). by exists (S j), e.
    + exists 0%nat, x. rewrite Nat.add_0_r. split; [done|]. naive_solver.
  - intros ([|j] & e & Hj & Hp & Hv & ->).
    + simplify_eq/=. rewrite decide_True, Hv, Nat.add_0_r by done. left.
    + assert (envelope_of (k + S j) e ∈ visible_of p (S k) h) by (apply HI; by exists j, e).
      repeat case_match; [by right|done..].
Qed.

Lemma visible_of_length p k h : (length (visible_of p k h) <= length h)%nat.
Proof.
  revert k. induction h as [|e h IH]; intros k; simpl; [done|].
  specialize (IH (S k)). repeat case_match; simpl; lia.
Qed.

Lemma visible_of_split p n h :
  visible_of p 0 h = visible_of p 0 (take n h) ++ visible_of p (Nat.min n (length h)) (drop n h).
Proof. rewrite <- (take_drop n h) at 1. by rewrite visible_of_app, length_take. Qed.

(** ** Lemmas: lanes and cells *)

Lemma lookup_on_lane f p l q :
  lanes_ (on_lane f p l) !! q = if decide (p = q) then f <$> lanes_ l !! q else lanes_ l !! q.
Proof. apply lookup_alter_at. Qed.

Lemma geometry_update f p l l' :
  (forall x, offset (f x) = offset x /\ capacity (f x) = capacity x) ->
  length (cells_ l') = length (cells_ l) -> lanes_ l' = alter f p (lanes_ l) ->
  producer_count_ l' = producer_count_ l ->
  geometry l -> geometry l'.
Proof.
  intros Hf Hc Hl Hn [].
  assert (forall q lane', lanes_ l' !! q = Some lane' -> exists lane, lanes_ l !! q = Some lane
    /\ offset lane' = offset lane /\ capacity lane' = capacity lane) as Hback.
  { intros q lane'. rewrite Hl, lookup_alter_at. case_decide; [|eauto].
    destruct (lanes_ l !! q) as [lane|]; [|done]. simpl. intros [= <-].
    exists lane. split; [done|]. apply Hf. }
  split; rewrite ?Hn; try done.
  - by rewrite Hc.
  - by rewrite Hl, length_alter.
  - intros q lane' Hq (lane & Hx & -> & ->)%Hback. eauto.
  - intros q q' lane1 lane2 Hq (x1 & H1 & -> & ->)%Hback (x2 & H2 & -> & _)%Hback. eauto.
Qed.

Lemma lane_cell_bound l p lane pos :
  geometry l -> (p < producer_count_ l)%nat -> lanes_ l !! p = Some lane ->
  (offset lane <= lane_cell lane pos < offset lane + capacity lane)%nat
  /\ (lane_cell lane pos < kMaximumIngressCells)%nat.
Proof.
  intros Hg Hp Hl. destruct (geo_lane _ Hg _ _ Hp Hl). unfold lane_cell.
  pose proof (Z.mod_pos_bound pos (Z.of_nat (capacity lane)) ltac:(lia)). lia.
Qed.

(** Two positions less than a capacity apart use different cells. *)
Lemma lane_cell_inj lane a b :
  a < b < a + Z.of_nat (capacity lane) -> lane_cell lane a <> lane_cell lane b.
Proof.
  intros Hab Heq. unfold lane_cell in Heq. set (c := Z.of_nat (capacity lane)) in *.
  pose proof (Z.mod_pos_bound a c ltac:(lia)). pose proof (Z.mod_pos_bound b c ltac:(lia)).
  assert (a mod c = b mod c) as Hm by lia.
  pose proof (Z.div_mod a c ltac:(lia)). pose proof (Z.div_mod b c ltac:(lia)).
  assert (b - a = c * (b / c - a / c)) by lia.
  destruct (Z.lt_trichotomy (b / c - a / c) 0) as [|[|]]; nia.
Qed.

Lemma lane_cell_disjoint l p p' lane lane' a b :
  geometry l -> (p < producer_count_ l)%nat -> (p' < producer_count_ l)%nat -> p <> p' ->
  lanes_ l !! p = Some lane -> lanes_ l !! p' = Some lane' ->
  lane_cell lane a <> lane_cell lane' b.
Proof.
  intros Hg Hp Hp' Hne Hl Hl'.
  destruct (lane_cell_bound l p lane a Hg Hp Hl) as [? _].
  destruct (lane_cell_bound l p' lane' b Hg Hp' Hl') as [? _].
  destruct (decide (p < p')%nat).
  - pose proof (geo_disjoint _ Hg p p' lane lane' ltac:(lia) Hl Hl'). lia.
  - pose proof (geo_disjoint _ Hg p' p lane' lane ltac:(lia) Hl' Hl). lia.
Qed.

Lemma cell_at_insert cells i j env :
  (i < length cells)%nat ->
  cell_at (<[i := env]> cells) j = if decide (i = j) then env else cell_at cells j.
Proof.
  intros Hi. unfold cell_at. case_decide.
  - subst. by rewrite list_lookup_insert_eq.
  - by rewrite list_lookup_insert_ne.
Qed.

(** ** Lemmas: the invariant *)

Lemma on_lane_id f p l lane :
  lanes_ l !! p = Some lane -> f lane = lane -> on_lane f p l = l.
Proof.
  intros Hl Hf. destruct l as [cs ls a b c d]. unfold on_lane. simpl in *. f_equal.
  rewrite (alter_as_insert _ _ _ lane Hl), Hf. by apply list_insert_id.
Qed.

Lemma on_lane_on_lane f g p l : on_lane f p (on_lane g p l) = on_lane (f ∘ g) p l.
Proof.
  unfold on_lane. destruct l as [cs ls a b c d]. simpl. f_equal.
  apply list_eq. intros i. rewrite !lookup_alter_at. case_decide; [|done].
  by destruct (ls !! i).
Qed.

Lemma geometry_on_lane f p l :
  (forall x, offset (f x) = offset x /\ capacity (f x) = capacity x) ->
  geometry l -> geometry (on_lane f p l).
Proof. intros Hf. by apply (geometry_update f p). Qed.

Lemma visible_of_prefix p n h :
  (length (visible_of p 0 (take n h)) <= length (visible_of p 0 h))%nat.
Proof. rewrite (visible_of_split p n h), length_app. lia. Qed.

Lemma geometry_lookup l p :
  geometry l -> (p < producer_count_ l)%nat ->
  exists lane, lanes_ l !! p = Some lane /\ lane_at l p = lane.
Proof.
  intros Hg Hp. destruct (lookup_lt_is_Some_2 (lanes_ l) p) as [lane Hl].
  { rewrite (geo_lanes _ Hg). pose proof (geo_count _ Hg). lia. }
  exists lane. unfold lane_at. by rewrite Hl.
Qed.

(** The positions of a lane are counts of records, so they do not wrap. *)
Lemma lane_positions cells h consumed p lane :
  lane_holds cells h consumed p lane -> zlen h < 2 ^ 64 ->
  0 <= read_position lane <= published_position lane
  /\ write_position lane = published_position lane
  /\ published_position lane <= zlen h.
Proof.
  intros [Hw Hp Hr _ _ _] Hlen. rewrite Hw, Hp, Hr. unfold zlen in *.
  pose proof (visible_of_prefix p consumed h). pose proof (visible_of_length p 0 h). lia.
Qed.

Definition new_claim (p : nat) (lane : Lane) : PublicationClaim :=
  {| pub_owner_ := true; pub_status_ := kClaimed; pub_producer_index_ := p;
     write_position_ := write_position lane;
     cell_index_ := lane_cell lane (write_position lane) |}.

Definition start_publishing (lane : Lane) : Lane := lane <| publishing := true |>.
Definition stop_publishing (lane : Lane) : Lane := lane <| publishing := false |>.

(** [TryClaimPublication] either changes nothing or takes a free lane with room. *)
Lemma TryClaimPublication_cases s p :
  lanes_inv s -> zlen (history s) < 2 ^ 64 ->
  let l := lanes s in
  ((producer_count_ l <= p)%nat /\ TryClaimPublication p l = (null_publication kInvalid, l))
  \/ exists lane, (p < producer_count_ l)%nat /\ lanes_ l !! p = Some lane
     /\ ((publishing lane = true
          /\ TryClaimPublication p l = (null_publication kContended, l))
         \/ (publishing lane = false
             /\ published_position lane = read_position lane + Z.of_nat (capacity lane)
             /\ TryClaimPublication p l = (null_publication kFull, l))
         \/ (publishing lane = false
             /\ published_position lane < read_position lane + Z.of_nat (capacity lane)
             /\ TryClaimPublication p l
                = (new_claim p lane, on_lane start_publishing p l))).
Proof.
  intros Hinv Hlen l. unfold TryClaimPublication.
  destruct (Nat.leb_spec (producer_count_ l) p) as [|Hp]; [by left|right].
  destruct (geometry_lookup l p (ln_geometry _ Hinv) Hp) as (lane & Hl & ->).
  exists lane. split_and!; [done..|].
  destruct (ln_lane _ Hinv p lane Hp Hl) as [Hh _].
  destruct (lane_positions _ _ _ _ _ Hh Hlen) as (? & Hw & ?).
  pose proof (lh_room _ _ _ _ _ Hh).
  destruct (publishing lane) eqn:Hpub.
  { left. split; [done|]. f_equal. apply (on_lane_id _ _ _ lane); [done|].
    destruct lane; simpl in *; by subst. }
  right. rewrite Hw, w64_small by lia.
  destruct (Z.leb_spec (Z.of_nat (capacity lane)) (published_position lane - read_position lane)).
  - left. split_and!; [done|lia|]. f_equal. rewrite on_lane_on_lane.
    apply (on_lane_id _ _ _ lane); [done|]. destruct lane; simpl in *; by subst.
  - right. split_and!; [done|lia|]. unfold new_claim. by rewrite Hw.
Qed.

Lemma lane_holds_publishing cells h n p lane b :
  lane_holds cells h n p lane -> lane_holds cells h n p (lane <| publishing := b |>).
Proof. intros []. by split. Qed.

Lemma phase_holds_publishing h p lane b phase :
  phase_holds h p lane phase -> phase_holds h p (lane <| publishing := b |>) phase.
Proof.
  assert (forall c, claim_holds c p lane -> claim_holds c p (lane <| publishing := b |>)) as Hc.
  { intros c []. by split. }
  destruct phase; simpl; [apply Hc|]. intros (H & ?). split; [by apply Hc|done].
Qed.

Lemma consumption_holds_frame s s' :
  consumption s' = consumption s -> claim_active (lanes s') = claim_active (lanes s) ->
  delivered s' = delivered s ->
  (forall k e, history s !! k = Some e -> e_visible e = true -> history s' !! k = Some e) ->
  (forall p lane, lanes_ (lanes s) !! p = Some lane ->
     exists lane', lanes_ (lanes s') !! p = Some lane' /\ read_position lane' = read_position lane) ->
  consumption_holds s -> consumption_holds s'.
Proof.
  unfold consumption_holds. intros -> -> -> Hh Hl. destruct (consumption s) as [c|]; [|done].
  intros (? & ? & e & lane & He & Hv & Hlane & ? & ? & Hr).
  destruct (Hl _ _ Hlane) as (lane' & ? & Hr'). split_and!; [done..|].
  exists e, lane'. split_and!; eauto. congruence.
Qed.

Lemma read_position_on_lane f p l q lane :
  (forall x, read_position (f x) = read_position x) -> lanes_ l !! q = Some lane ->
  exists lane', lanes_ (on_lane f p l) !! q = Some lane'
    /\ read_position lane' = read_position lane.
Proof.
  intros Hf Hq. rewrite lookup_on_lane, Hq. case_decide; simpl; eauto.
Qed.

(** Where a lane of [on_lane f p l] comes from. *)
Lemma lookup_on_lane_inv f p l q lane' :
  lanes_ (on_lane f p l) !! q = Some lane' ->
  exists lane, lanes_ l !! q = Some lane
    /\ ((q = p /\ lane' = f lane) \/ (q <> p /\ lane' = lane)).
Proof.
  rewrite lookup_on_lane. case_decide.
  - subst. destruct (lanes_ l !! q) as [lane|]; simpl; [|done]. intros [= <-]. eauto.
  - intros. exists lane'. eauto.
Qed.

Section Steps.
Context (l : ProducerLanes) (h : list entry) (pubs : gmap nat pub_phase)
  (con : option ConsumptionClaim) (dl : list Envelope).

Let s := {| lanes := l; history := h; publications := pubs; consumption := con; delivered := dl |}.

Context (Hinv : lanes_inv s).

Lemma claim_inv p lane :
  (p < producer_count_ l)%nat -> lanes_ l !! p = Some lane -> publishing lane = false ->
  zlen h < 2 ^ 64 ->
  published_position lane < read_position lane + Z.of_nat (capacity lane) ->
  lanes_inv {| lanes := on_lane start_publishing p l; history := h;
               publications := <[p := Claimed (new_claim p lane)]> pubs;
               consumption := con; delivered := dl |}.
Proof.
  intros Hp Hl Hpub Hlen Hroom. pose proof Hinv as [Hgeo Hadm Hcon Hdel Hlane Hphase Hhist Hc].
  simpl in * |-.
  destruct (Hlane p lane Hp Hl) as [Hh Hpublishing].
  destruct (lane_positions _ _ _ _ _ Hh Hlen) as (_ & Hw & _).
  split; cbn [lanes history publications consumption delivered]; [|done..| | | |].
  - by apply geometry_on_lane.
  - intros q lane' Hq (x & Hx & [[-> ->]|[Hne ->]])%lookup_on_lane_inv.
    + simplify_eq. split; [by apply lane_holds_publishing|].
      rewrite lookup_insert_eq. by split.
    + rewrite lookup_insert_ne by done. by apply Hlane.
  - intros q phase. rewrite lookup_insert. case_decide.
    + subst. intros [= <-]. split; [done|]. exists (start_publishing lane).
      rewrite lookup_on_lane, decide_True, Hl by done. split; [done|].
      split; simpl; try done. lia.
    + intros Hq. destruct (Hphase q phase Hq) as (? & x & Hx & ?). split; [done|].
      exists x. by rewrite lookup_on_lane, decide_False.
  - intros k e He. destruct (Hhist k e He) as [? Hinvis]. split; [done|]. intros Hv.
    destruct (Hinvis Hv) as [c Hc']. rewrite lookup_insert_ne; [eauto|]. intros Heq.
    rewrite <- Heq in Hc'. assert (publishing lane = true); [apply Hpublishing; eauto|congruence].
  - eapply consumption_holds_frame; [..|exact Hc]; try done.
    intros q x Hx. by apply read_position_on_lane.
Qed.

Lemma abandon_inv p c :
  pubs !! p = Some (Claimed c) ->
  lanes_inv {| lanes := Abandon c l; history := h; publications := delete p pubs;
               consumption := con; delivered := dl |}.
Proof.
  intros Hp. pose proof Hinv as [Hgeo Hadm Hcon Hdel Hlane Hphase Hhist Hc]. simpl in * |-.
  destruct (Hphase p _ Hp) as (_ & lane0 & _ & [Ho <- _ _ _]).
  unfold Abandon. rewrite Ho. set (p := pub_producer_index_ c) in *.
  split; cbn [lanes history publications consumption delivered]; [|done..| | | |].
  - by apply geometry_on_lane.
  - intros q lane' Hq (x & Hx & [[-> ->]|[Hne ->]])%lookup_on_lane_inv.
    + destruct (Hlane p x Hq Hx) as [? _]. split; [by apply lane_holds_publishing|].
      rewrite lookup_delete_eq. split; [done|]. by intros [].
    + rewrite lookup_delete_ne by done. by apply Hlane.
  - intros q phase. rewrite lookup_delete. case_decide; [done|]. intros Hq.
    destruct (Hphase q phase Hq) as (? & x & Hx & ?). split; [done|].
    exists x. by rewrite lookup_on_lane, decide_False.
  - intros k e He. destruct (Hhist k e He) as [? Hinvis]. split; [done|]. intros Hv.
    destruct (Hinvis Hv) as [c' Hc']. rewrite lookup_delete_ne; [eauto|]. intros Heq.
    rewrite Heq in Hp. congruence.
  - eapply consumption_holds_frame; [..|exact Hc]; try done.
    intros q x Hx. by apply read_position_on_lane.
Qed.

Lemma allocate_inv p c r :
  pubs !! p = Some (Claimed c) -> PublishAllowed c r = true -> zlen h + 1 < 2 ^ 64 ->
  lanes_inv {| lanes := (AllocateSequence l).2;
               history := h ++ [{| e_producer := p; e_record := r; e_visible := false |}];
               publications := <[p := Allocated c r (AllocateSequence l).1]> pubs;
               consumption := con; delivered := dl |}.
Proof.
  intros Hp Hallowed Hlen. pose proof Hinv as [Hgeo Hadm Hcon Hdel Hlane Hphase Hhist Hc].
  simpl in * |-. destruct (Hphase p _ Hp) as (Hpc & lane0 & Hl0 & Hclaim).
  assert (forall k e, h !! k = Some e -> e_producer e = p -> e_visible e = true) as Hvis.
  { intros k e He He'. apply not_false_is_true. intros Hv.
    destruct (Hhist k e He) as [_ [c' Hc']]; [done|]. rewrite He' in Hc'. congruence. }
  assert (length dl <= length h)%nat as Hdl.
  { destruct (decide (length dl <= length h)%nat); [done|].
    destruct (lookup_lt_is_Some_2 dl (length h)) as [env Henv]; [lia|].
    destruct (Hdel _ _ Henv) as (e & He & _). apply lookup_lt_Some in He. lia. }
  split; cbn [lanes history publications consumption delivered AllocateSequence fst snd].
  - destruct Hgeo. by split.
  - simpl. rewrite Hadm. unfold zlen in *. rewrite length_app, w64_small; simpl; lia.
  - done.
  - intros k env Henv. destruct (Hdel k env Henv) as (e & He & ?). exists e.
    split; [by apply lookup_app_l_Some|done].
  - intros q x Hq Hx. destruct (Hlane q x Hq Hx) as [[] Hpub].
    split.
    + split; rewrite ?take_app_le, ?visible_of_app by done; simpl; repeat case_decide; rewrite ?app_nil_r; done.
    + rewrite lookup_insert. case_decide; [|done]. subst. split; [by eauto|]. intros _. apply Hpub; eauto.
  - intros q phase. rewrite lookup_insert. case_decide.
    + subst. intros [= <-]. split; [done|]. exists lane0. split; [done|].
      split_and!; [done..|]. exists (length h). split; [done|].
      rewrite lookup_app_r, Nat.sub_diag by done. split; [done|].
      intros j e He _. apply lookup_lt_Some in He. rewrite length_app in He. simpl in He. lia.
    + intros Hq. destruct (Hphase q phase Hq) as (? & x & Hx & Hph). split; [done|].
      exists x. split; [done|]. destruct phase as [|c' r' q']; [done|].
      destruct Hph as (? & ? & k & ? & Hk & Hlast). split_and!; [done..|]. exists k.
      split_and!; [done|by apply lookup_app_l_Some|]. intros j e He He'.
      apply lookup_app_Some in He as [He|[_ He]]; [eauto|].
      apply list_lookup_singleton_Some in He as [_ <-]. simpl in He'. congruence.
  - intros k e [He|[Hge He]]%lookup_app_Some.
    + destruct (Hhist k e He) as [? Hinvis]. split; [done|]. intros Hv.
      rewrite lookup_insert_ne; [eauto|]. intros Heq. by rewrite (Hvis k e He) in Hv.
    + apply list_lookup_singleton_Some in He as [Hk <-]. split; [done|]. intros _. simpl.
      exists c. rewrite lookup_insert_eq. do 2 f_equal. unfold zlen in Hadm. rewrite Hadm. lia.
  - eapply consumption_holds_frame; [..|exact Hc]; try done.
    + intros k e He _. by apply lookup_app_l_Some.
    + eauto.
Qed.
End Steps.

(** ** Lemmas: storing a publication *)

Lemma take_mark n k h :
  (n <= k)%nat -> take n (alter mark_visible k h) = take n h.
Proof.
  intros Hn. apply list_eq. intros i. destruct (decide (i < n)%nat).
  - rewrite !lookup_take_lt by done. rewrite lookup_alter_at. case_decide; [lia|done].
  - by rewrite !lookup_take_ge by lia.
Qed.

Section Store.
Context (l : ProducerLanes) (h : list entry) (pubs : gmap nat pub_phase)
  (con : option ConsumptionClaim) (dl : list Envelope).

Let s := {| lanes := l; history := h; publications := pubs; consumption := con; delivered := dl |}.

Context (Hinv : lanes_inv s) (Hlen : zlen h < 2 ^ 64).
Context (p : nat) (c : PublicationClaim) (r : RecordHandle) (k : nat).
Context (Hp : pubs !! p = Some (Allocated c r (Z.of_nat k))).

Let e := {| e_producer := p; e_record := r; e_visible := false |}.
Let next := write_position_ c +w 1.
Let cells' := <[cell_index_ c := {| record := r; admission_sequence := Z.of_nat k |}]> (cells_ l).
Let store_lane (lane : Lane) :=
  lane <| write_position := next |> <| published_position := next |> <| publishing := false |>.

Lemma store_facts :
  exists lane, (p < producer_count_ l)%nat /\ lanes_ l !! p = Some lane /\ claim_holds c p lane
    /\ h !! k = Some e
    /\ (forall (j : nat) e, h !! j = Some e -> e_producer e = p -> (j <= k)%nat)
    /\ (length dl <= k)%nat /\ slot_index r = cell_index_ c.
Proof.
  destruct (ln_phase _ Hinv p _ Hp) as (Hpc & lane & Hl & Hclaim & Ha & k' & Hk & He & Hlast).
  apply Nat2Z.inj in Hk as <-. unfold PublishAllowed in Ha. b2p.
  exists lane. split_and!; try done.
  destruct (decide (length dl <= k)%nat); [done|].
  destruct (lookup_lt_is_Some_2 dl k) as [env Henv]; [lia|].
  destruct (ln_delivered _ Hinv _ _ Henv) as (e' & He' & Hv & _). simpl in *. by simplify_eq.
Qed.

(** The lane that publishes gains one visible record. *)
Lemma store_own_lane lane :
  lanes_ l !! p = Some lane ->
  lane_holds cells' (alter mark_visible k h) (length dl) p (store_lane lane).
Proof.
  intros Hl. destruct store_facts as (lane' & Hpc & Hl' & Hclaim & He & Hlast & Hdl & Hslot). simplify_eq.
  destruct (ln_lane _ Hinv p lane Hpc Hl) as [Hh _]. simpl in *.
  pose proof (lane_positions _ _ _ _ _ Hh Hlen) as (? & Hw & ?).
  destruct Hclaim as [_ _ Hcw Hcc Hroom].
  assert (visible_of p 0 (alter mark_visible k h) = visible_of p 0 h ++ [envelope_of k e]) as Hvis
    by (by rewrite (visible_of_mark p 0 h k e)).
  pose proof (visible_of_length p 0 (alter mark_visible k h)) as Hbound.
  rewrite Hvis, length_app, length_alter in Hbound. simpl in Hbound.
  assert (next = zlen (visible_of p 0 h) + 1) as Hnext.
  { unfold next. rewrite Hcw, Hw, (lh_published _ _ _ _ _ Hh). unfold zlen in *.
    rewrite w64_small; lia. }
  pose proof (lh_published _ _ _ _ _ Hh) as Hpub.
  pose proof (geo_cells _ (ln_geometry _ Hinv) : length (cells_ l) = _) as Hgc.
  destruct (lane_cell_bound l p lane (write_position lane) (ln_geometry _ Hinv) Hpc Hl) as [_ Hcb].
  split; cbn; [done|..].
  - rewrite Hvis. unfold zlen in *. rewrite length_app. simpl. lia.
  - rewrite take_mark by done. apply Hh.
  - lia.
  - intros i Hi. change (read_position lane <= Z.of_nat i < next) in Hi.
    rewrite Hvis. unfold cells'. rewrite cell_at_insert.
    2:{ rewrite Hcc, Hgc. done. }
    rewrite Hcc. destruct (decide (Z.of_nat i = write_position lane)) as [Heq|Hne].
    + rewrite decide_True by (by rewrite Heq). unfold zlen in *. rewrite lookup_app_r by lia.
      by replace (i - length (visible_of p 0 h))%nat with 0%nat by lia.
    + rewrite decide_False.
      2:{ intros Hx. apply (lane_cell_inj lane (Z.of_nat i) (write_position lane)); [lia|].
          symmetry. exact Hx. }
      unfold zlen in *. rewrite lookup_app_l by lia. apply (lh_cells _ _ _ _ _ Hh). lia.
  - intros i Hi. change (read_position lane <= Z.of_nat i < next) in Hi.
    change (slot_index (record (cell_at cells' (lane_cell lane (Z.of_nat i))))
            = lane_cell lane (Z.of_nat i)).
    unfold cells'. rewrite cell_at_insert by (by rewrite Hcc, Hgc). case_decide as Hcase.
    + simpl. congruence.
    + apply (lh_slots _ _ _ _ _ Hh). split; [lia|]. destruct (decide (Z.of_nat i = write_position lane)); [congruence|lia].
Qed.

(** The other lanes keep their records and their cells. *)
Lemma store_other_lane q lane :
  q <> p -> (q < producer_count_ l)%nat -> lanes_ l !! q = Some lane ->
  lane_holds cells' (alter mark_visible k h) (length dl) q lane.
Proof.
  intros Hne Hq Hl. destruct store_facts as (lane0 & Hpc & Hl0 & Hclaim & He & Hlast & Hdl & _).
  destruct (ln_lane _ Hinv q lane Hq Hl) as [Hh _]. simpl in *.
  assert (visible_of q 0 (alter mark_visible k h) = visible_of q 0 h) as Hvis
    by (by rewrite (visible_of_mark_other q 0 h k e)).
  pose proof (geo_cells _ (ln_geometry _ Hinv) : length (cells_ l) = _) as Hgc.
  destruct (lane_cell_bound l p lane0 (write_position lane0) (ln_geometry _ Hinv) Hpc Hl0) as [_ Hcb].
  assert (forall i, cell_at cells' (lane_cell lane i) = cell_at (cells_ l) (lane_cell lane i))
    as Hsame.
  { intros i. unfold cells'. rewrite (ch_cell _ _ _ Hclaim), cell_at_insert, decide_False; [done|..].
    - by apply (lane_cell_disjoint l p q); [apply (ln_geometry _ Hinv)|..].
    - by rewrite Hgc. }
  destruct Hh. split; rewrite ?Hvis, ?take_mark by done; [done..| |];
    intros i Hi; rewrite Hsame; auto.
Qed.

Lemma store_history j x :
  alter mark_visible k h !! j = Some x ->
  (j = k /\ x = mark_visible e) \/ (j <> k /\ h !! j = Some x).
Proof.
  destruct store_facts as (_ & _ & _ & _ & He & _). rewrite lookup_alter_at. case_decide.
  - subst. rewrite He. simpl. intros [= <-]. by left.
  - by right.
Qed.

Lemma store_phase q phase lane :
  q <> p -> phase_holds h q lane phase -> phase_holds (alter mark_visible k h) q lane phase.
Proof.
  intros Hne. destruct store_facts as (_ & _ & _ & _ & He & _).
  destruct phase as [|c' r' q']; [done|]. intros (? & ? & k' & ? & Hk' & Hlast').
  split_and!; [done..|]. exists k'. split_and!; [done|..].
  - rewrite lookup_alter_at. case_decide; [|done]. subst. rewrite He in Hk'. by simplify_eq/=.
  - intros j x [[-> ->]|[Hj Hx]]%store_history Hx'; [|eauto]. simpl in Hx'. congruence.
Qed.

Lemma store_inv :
  lanes_inv {| lanes := StorePublication c r (Z.of_nat k) l;
               history := alter mark_visible (Z.to_nat (Z.of_nat k)) h;
               publications := delete p pubs; consumption := con; delivered := dl |}.
Proof.
  destruct store_facts as (lane & Hpc & Hl & Hclaim & He & Hlast & Hdl & _). rewrite Nat2Z.id.
  pose proof Hinv as [Hgeo Hadm Hcon Hdel Hlane Hphase Hhist Hc]. simpl in * |-.
  unfold StorePublication. rewrite (ch_producer _ _ _ Hclaim).
  split; cbn [lanes history publications consumption delivered].
  - apply (geometry_update store_lane p l); try done. apply length_insert.
  - simpl. rewrite Hadm. unfold zlen. by rewrite length_alter.
  - done.
  - intros j env Henv. destruct (Hdel j env Henv) as (x & Hx & ?). exists x. split; [|done].
    rewrite lookup_alter_at. case_decide; [|done]. apply lookup_lt_Some in Henv. lia.
  - intros q lane' Hq (x & Hx & [[-> ->]|[Hne ->]])%lookup_on_lane_inv; simpl in Hx.
    + split; [by apply (store_own_lane x)|]. rewrite lookup_delete_eq. split; [done|by intros []].
    + split; [by apply store_other_lane|]. rewrite lookup_delete_ne by done. by apply Hlane.
  - intros q phase. rewrite lookup_delete. case_decide; [done|]. intros Hq.
    destruct (Hphase q phase Hq) as (? & x & Hx & ?). split; [done|].
    exists x. rewrite lookup_on_lane, decide_False by done. split; [done|]. by apply store_phase.
  - intros j x [[-> ->]|[Hj Hx]]%store_history; [done|].
    destruct (Hhist j x Hx) as [? Hinvis]. split; [done|]. intros Hv.
    destruct (Hinvis Hv) as [c' Hc']. rewrite lookup_delete_ne; [eauto|]. intros Heq.
    rewrite <- Heq, Hp in Hc'. injection Hc'. intros. lia.
  - eapply consumption_holds_frame; [..|exact Hc]; try done.
    + intros j x Hx Hv. simpl in *. rewrite lookup_alter_at. case_decide; [|done].
      subst. by simplify_eq.
    + intros q x Hx. apply (read_position_on_lane store_lane p _ q x); done.
Qed.
End Store.

(** ** Lemmas: consumption *)

(** The head of the queue: [inl] names a lane whose first record carries the
    expected sequence; [inr] says that no lane does, and whether one is occupied. *)
Lemma ScanLanes_spec cells expected lanes producer count flag :
  match ScanLanes cells expected lanes producer count flag with
  | inl (p, read, env) =>
      exists i lane, p = (producer + i)%nat /\ (i < count)%nat /\ lanes !! i = Some lane
        /\ read = read_position lane /\ published_position lane <> read_position lane
        /\ env = cell_at cells (lane_cell lane read) /\ admission_sequence env = expected
  | inr b =>
      (forall i lane, (i < count)%nat -> lanes !! i = Some lane ->
         published_position lane = read_position lane
         \/ admission_sequence (cell_at cells (lane_cell lane (read_position lane))) <> expected)
      /\ (b = true <-> flag = true
          \/ exists i lane, (i < count)%nat /\ lanes !! i = Some lane
             /\ published_position lane <> read_position lane)
  end.
Proof.
  revert producer count flag. induction lanes as [|lane lanes IH]; intros producer [|count] flag;
    cbn [ScanLanes].
  1-3: split; [intros i lane' Hi Hl; lia || done|]; split; [by left|];
    (intros [|(i & x & Hi & Hx & _)]; [done|lia || done]).
  destruct (Z.eqb_spec (published_position lane) (read_position lane)) as [He|Hne];
    [|destruct (Z.eqb_spec (admission_sequence (cell_at cells (lane_cell lane (read_position lane))))
                  expected) as [Hs|Hs]; cbn [negb]].
  2:{ exists 0%nat, lane. split_and!; [lia|lia|done..]. }
  1: specialize (IH (S producer) count flag). 2: specialize (IH (S producer) count true).
  all: destruct (ScanLanes _ _ _ _ _ _) as [[[p read] env]|b];
    [destruct IH as (i & x & -> & ? & ? & ? & ? & ? & ?); exists (S i), x;
     split_and!; [lia|lia|done..]|destruct IH as [Hall Hb]; split].
  1,3: intros [|i] x Hi Hx; simplify_eq/=; [by auto|apply (Hall i); [lia|done]].
  - rewrite Hb. split; (intros [|(i & x & Hi & Hx & Hn)]; [by left|right]).
    + exists (S i), x. split_and!; [lia|done..].
    + destruct i as [|i]; simplify_eq/=. exists i, x. split_and!; [lia|done..].
  - rewrite Hb. split; [intros _; right|by left]. exists 0%nat, lane. split_and!; [lia|done..].
Qed.

Section Consume.
Context (l : ProducerLanes) (h : list entry) (pubs : gmap nat pub_phase)
  (con : option ConsumptionClaim) (dl : list Envelope).

Let s := {| lanes := l; history := h; publications := pubs; consumption := con; delivered := dl |}.

Context (Hinv : lanes_inv s) (Hlen : zlen h < 2 ^ 64).

Lemma delivered_le : (length dl <= length h)%nat.
Proof.
  destruct (decide (length dl <= length h)%nat); [done|].
  destruct (lookup_lt_is_Some_2 dl (length h)) as [env Henv]; [lia|].
  destruct (ln_delivered _ Hinv _ _ Henv) as (e & He & _). apply lookup_lt_Some in He.
  simpl in He. lia.
Qed.

Lemma visible_of_drop p :
  visible_of p 0 h = visible_of p 0 (take (length dl) h) ++ visible_of p (length dl) (drop (length dl) h).
Proof.
  rewrite (visible_of_split p (length dl) h). do 2 f_equal. pose proof delivered_le. lia.
Qed.

(** The first unconsumed record of an occupied lane. *)
Lemma lane_head p lane :
  (p < producer_count_ l)%nat -> lanes_ l !! p = Some lane ->
  published_position lane <> read_position lane ->
  exists j e, (length dl <= j)%nat /\ h !! j = Some e /\ e_producer e = p /\ e_visible e = true
    /\ cell_at (cells_ l) (lane_cell lane (read_position lane)) = envelope_of j e.
Proof.
  intros Hp Hl Hne. destruct (ln_lane _ Hinv p lane Hp Hl) as [Hh _]. simpl in Hh.
  destruct (lane_positions _ _ _ _ _ Hh Hlen) as (? & _ & _).
  destruct Hh as [_ _ Hread _ Hcells _]. unfold zlen in Hread.
  assert (visible_of p 0 h !! Z.to_nat (read_position lane)
          = Some (cell_at (cells_ l) (lane_cell lane (read_position lane)))) as Hlk.
  { rewrite (Hcells (Z.to_nat (read_position lane))) by lia. by rewrite Z2Nat.id by lia. }
  rewrite visible_of_drop, lookup_app_r in Hlk by lia.
  apply list_elem_of_lookup_2, elem_of_visible_of in Hlk as (j & e & Hj & ? & ? & Henv).
  rewrite lookup_drop in Hj. exists (length dl + j)%nat, e. split_and!; [lia|done..].
Qed.

(** If the next admission is visible, its lane is occupied and starts with it. *)
Lemma visible_head e :
  h !! length dl = Some e -> e_visible e = true ->
  exists lane, lanes_ l !! e_producer e = Some lane
    /\ published_position lane <> read_position lane
    /\ cell_at (cells_ l) (lane_cell lane (read_position lane)) = envelope_of (length dl) e.
Proof.
  intros He Hv. destruct (ln_history _ Hinv _ _ He) as [Hp _]. simpl in Hp.
  destruct (geometry_lookup l (e_producer e) (ln_geometry _ Hinv) Hp) as (lane & Hl & _).
  exists lane. split; [done|]. destruct (ln_lane _ Hinv _ lane Hp Hl) as [Hh _]. simpl in Hh.
  pose proof (visible_of_drop (e_producer e)) as Hsplit.
  rewrite (drop_S _ _ _ He) in Hsplit. simpl in Hsplit.
  rewrite decide_True, Hv in Hsplit by done.
  destruct Hh as [_ Hpub Hread _ Hcells _].
  assert (read_position lane < published_position lane) as Hlt.
  { rewrite Hpub, Hread, Hsplit. unfold zlen. rewrite length_app. simpl. lia. }
  split; [lia|].
  assert (0 <= read_position lane) by (rewrite Hread; unfold zlen; lia).
  specialize (Hcells (Z.to_nat (read_position lane)) ltac:(lia)).
  rewrite Hsplit, lookup_app_r in Hcells by (unfold zlen in Hread; lia).
  replace (Z.to_nat (read_position lane) - _)%nat with 0%nat in Hcells by (unfold zlen in Hread; lia).
  simpl in Hcells. rewrite Z2Nat.id in Hcells by lia. by injection Hcells.
Qed.

Definition record_claim (p : nat) (lane : Lane) (env : Envelope) : ConsumptionClaim :=
  {| con_owner_ := true; con_status_ := kRecord; con_producer_index_ := p;
     read_position_ := read_position lane; envelope_ := env |}.

(** What a claim returns, by the state of the next admission. *)
Lemma TryClaimConsumption_cases :
  con = None ->
  match h !! length dl with
  | None => TryClaimConsumption l = (null_consumption kEmpty, l)
  | Some e =>
      if e_visible e then
        exists lane, lanes_ l !! e_producer e = Some lane
          /\ TryClaimConsumption l
             = (record_claim (e_producer e) lane (envelope_of (length dl) e),
                l <| claim_active := true |>)
      else TryClaimConsumption l = (null_consumption kPending, l)
  end.
Proof.
  intros Hcon. pose proof (ln_consumption _ Hinv) as Hc. unfold consumption_holds in Hc.
  cbn [consumption s] in Hc. rewrite Hcon in Hc. simpl in Hc.
  unfold TryClaimConsumption. rewrite Hc.
  pose proof (ln_admitted _ Hinv) as Hadm. pose proof (ln_consumed _ Hinv) as Hnext. simpl in Hadm, Hnext.
  pose proof (ScanLanes_spec (cells_ l) (next_sequence l) (lanes_ l) 0 (producer_count_ l) false)
    as Hscan.
  destruct (ScanLanes _ _ _ _ _ _) as [[[p read] env]|b].
  - destruct Hscan as (p' & lane & -> & Hp & Hl & -> & Hne & -> & Hseq).
    destruct (lane_head p' lane Hp Hl Hne) as (j & e & _ & He & Hep & Hv & Henv).
    rewrite Henv in *. simpl in Hseq. unfold zlen in Hnext.
    assert (j = length dl) as -> by lia. rewrite He, Hv. subst. exists lane. by split.
  - destruct Hscan as [Hall Hb]. destruct (h !! length dl) as [e|] eqn:He.
    + destruct (e_visible e) eqn:Hv.
      * exfalso. destruct (visible_head e He Hv) as (lane & Hl & Hne & Henv).
        destruct (ln_history _ Hinv _ _ He) as [Hp _].
        destruct (Hall _ lane Hp Hl) as [|Hx]; [done|]. rewrite Henv in Hx. simpl in Hx.
        by rewrite Hnext in Hx.
      * apply lookup_lt_Some in He. unfold zlen in *.
        destruct (Z.eqb_spec (next_admission_sequence_ l) (next_sequence l)); [lia|].
        by rewrite orb_true_r.
    + apply lookup_ge_None_1 in He. pose proof delivered_le. unfold zlen in *.
      destruct (Z.eqb_spec (next_admission_sequence_ l) (next_sequence l)); [|lia].
      destruct b; [|done]. exfalso.
      destruct (proj1 Hb eq_refl) as [|(p & lane & Hp & Hl & Hne)]; [done|].
      destruct (lane_head p lane Hp Hl Hne) as (j & e' & ? & Hj & _).
      apply lookup_lt_Some in Hj. lia.
Qed.

Lemma TryClaimConsumption_busy c :
  con = Some c -> TryClaimConsumption l = (null_consumption kPending, l).
Proof.
  intros Hcon. pose proof (ln_consumption _ Hinv) as Hc. unfold consumption_holds in Hc.
  cbn [consumption s] in Hc. rewrite Hcon in Hc. destruct Hc as [Hc _]. simpl in Hc.
  unfold TryClaimConsumption. by rewrite Hc.
Qed.
End Consume.

(** ** Lemmas: the consumer's steps *)

Section ConsumerSteps.
Context (l : ProducerLanes) (h : list entry) (pubs : gmap nat pub_phase) (dl : list Envelope).

Let s con := {| lanes := l; history := h; publications := pubs; consumption := con; delivered := dl |}.

(** Only the claim and its flag change. *)
Lemma claim_flag_inv con con' b :
  lanes_inv (s con) ->
  consumption_holds {| lanes := l <| claim_active := b |>; history := h; publications := pubs;
                       consumption := con'; delivered := dl |} ->
  lanes_inv {| lanes := l <| claim_active := b |>; history := h; publications := pubs;
               consumption := con'; delivered := dl |}.
Proof. intros [[] ? ? ? ? ? ? _] Hc. by split. Qed.

Lemma consume_inv con c l' :
  lanes_inv (s con) -> zlen h < 2 ^ 64 -> TryClaimConsumption l = (c, l') ->
  lanes_inv {| lanes := l'; history := h; publications := pubs;
               consumption := if con_owner_ c then Some c else con; delivered := dl |}.
Proof.
  intros Hinv Hlen. destruct con as [c0|].
  { rewrite (TryClaimConsumption_busy _ _ _ _ _ Hinv c0) by done. intros [= <- <-]. done. }
  pose proof (TryClaimConsumption_cases _ _ _ _ _ Hinv Hlen eq_refl) as H.
  destruct (h !! length dl) as [e|] eqn:He; [|rewrite H; by intros [= <- <-]].
  destruct (e_visible e) eqn:Hv; [|rewrite H; by intros [= <- <-]].
  destruct H as (lane & Hl & ->). intros [= <- <-]. cbn [con_owner_ record_claim].
  apply (claim_flag_inv None); [done|]. split_and!; [done..|]. exists e, lane. by split_and!.
Qed.

Lemma cancel_inv c :
  lanes_inv (s (Some c)) ->
  lanes_inv {| lanes := Cancel c l; history := h; publications := pubs;
               consumption := None; delivered := dl |}.
Proof.
  intros Hinv. destruct (ln_consumption _ Hinv) as (_ & Ho & _). unfold Cancel. rewrite Ho.
  by apply (claim_flag_inv (Some c)).
Qed.

Lemma acknowledge_inv c :
  lanes_inv (s (Some c)) -> zlen h < 2 ^ 64 ->
  lanes_inv {| lanes := Acknowledge c l; history := h; publications := pubs;
               consumption := None; delivered := dl ++ [envelope_ c] |}.
Proof.
  intros Hinv Hlen. destruct (ln_consumption _ Hinv)
    as (_ & Ho & e & lane & He & Hv & Hl & Hci & Henv & Hread). simpl in *.
  destruct (ln_history _ Hinv _ _ He) as [Hp _]. simpl in Hp.
  destruct (visible_head _ _ _ _ _ Hinv e He Hv) as (lane' & Hl' & Hne & _).
  rewrite Hl in Hl'. injection Hl' as <-.
  pose proof Hinv as [Hgeo Hadm Hcon Hdel Hlane Hphase Hhist _]. simpl in * |-.
  assert (length dl < length h)%nat as Hlt by (by eapply lookup_lt_Some).
  assert (length (dl ++ [envelope_ c]) = S (length dl)) as Hlen'
    by (rewrite length_app; simpl; lia).
  unfold Acknowledge. rewrite Ho, Hci.
  split; cbn [lanes history publications consumption delivered]; rewrite ?Hlen'.
  - by apply (geometry_update
      (fun lane => lane <| read_position := read_position_ c +w 1 |>) (e_producer e) l).
  - done.
  - simpl. rewrite Hcon. unfold zlen in *. rewrite Hlen', w64_small; lia.
  - intros k env [Hk|[Hge Hk]]%lookup_app_Some; [by apply Hdel|].
    apply list_lookup_singleton_Some in Hk as [Hk <-]. exists e.
    assert (k = length dl) as -> by lia. done.
  - intros q lane' Hq (x & Hx & Hq')%lookup_on_lane_inv. destruct (Hlane q x Hq Hx) as [Hh Hpub].
    split; [|by destruct Hq' as [[-> ->]|[_ ->]]].
    destruct (lane_positions _ _ _ _ _ Hh Hlen) as (? & _ & ?).
    destruct Hh as [Hw Hpu Hr Hroom Hcells Hslots].
    assert (visible_of q 0 (take (S (length dl)) h)
            = visible_of q 0 (take (length dl) h)
              ++ (if decide (e_producer e = q) then [envelope_of (length dl) e] else [])) as Hvis.
    { rewrite (take_S_r _ _ _ He), visible_of_app, length_take, Nat.min_l by lia. simpl.
      rewrite Hv. by case_decide. }
    destruct Hq' as [[-> ->]|[Hne' ->]].
    + simplify_eq. rewrite decide_True in Hvis by done.
      split; cbn; rewrite ?Hvis, ?Hread; unfold zlen in *; rewrite ?length_app, ?w64_small by lia;
        simpl; try done; try lia; intros k Hk; [apply Hcells|apply Hslots]; lia.
    + rewrite decide_False in Hvis by done. rewrite app_nil_r in Hvis. split; by rewrite ?Hvis.
  - intros q phase Hq. destruct (Hphase q phase Hq) as (? & x & Hx & Hph). split; [done|].
    simpl. rewrite lookup_alter_at, Hx. case_decide; simpl; [|eauto].
    eexists. split; [done|]. subst q. rewrite Hl in Hx. injection Hx as <-.
    destruct (Hlane _ lane Hp Hl) as [Hh _].
    destruct (lane_positions _ _ _ _ _ Hh Hlen) as (? & _ & ?).
    assert (forall c', claim_holds c' (e_producer e) lane -> claim_holds c' (e_producer e)
              (lane <| read_position := read_position_ c +w 1 |>)) as Hc'.
    { intros c' []. split; try done. cbn. rewrite Hread, w64_small; unfold zlen in *; lia. }
    destruct phase; simpl in *; [by apply Hc'|]. destruct Hph as (? & ?). split; [by apply Hc'|done].
  - done.
  - done.
Qed.
End ConsumerSteps.

(** ** Lemmas: construction *)

(** Offset of lane [i] when the first [extra] lanes hold one cell more. *)
Definition lane_offset (minimum extra i : nat) : nat := (i * minimum + Nat.min i extra)%nat.
Definition lane_capacity (minimum extra i : nat) : nat :=
  (minimum + if (i <? extra)%nat then 1 else 0)%nat.

Lemma lane_offset_S minimum extra i :
  lane_offset minimum extra (S i) = (lane_offset minimum extra i + lane_capacity minimum extra i)%nat.
Proof. unfold lane_offset, lane_capacity. destruct (Nat.ltb_spec i extra); lia. Qed.

Lemma lookup_InitLanes minimum extra n producer lanes i :
  InitLanes minimum extra n producer (lane_offset minimum extra producer) lanes !! i
  = if decide (producer <= i < producer + n)%nat
    then (fun lane => lane <| offset := lane_offset minimum extra i |>
                           <| capacity := lane_capacity minimum extra i |>) <$> lanes !! i
    else lanes !! i.
Proof.
  revert producer lanes. induction n as [|n IH]; intros producer lanes; cbn [InitLanes].
  { by rewrite decide_False by lia. }
  change (minimum + _)%nat with (lane_capacity minimum extra producer).
  rewrite <- lane_offset_S, IH, lookup_alter_at.
  repeat case_decide; try lia; try done. by subst.
Qed.

Record lanes_config_ok (count cells : nat) : Prop := {
  lc_count : (1 <= count <= kMaximumProducerSlots)%nat;
  lc_cells : (count <= cells <= kMaximumIngressCells)%nat;
}.

Lemma lookup_MakeProducerLanes count cells i :
  lanes_config_ok count cells -> (i < count)%nat ->
  lanes_ (MakeProducerLanes count cells) !! i
  = Some (empty_lane <| offset := lane_offset (cells / count) (cells mod count) i |>
                     <| capacity := lane_capacity (cells / count) (cells mod count) i |>).
Proof.
  intros [Hc _] Hi. cbn [lanes_ MakeProducerLanes].
  change 0%nat with (lane_offset (cells / count) (cells mod count) 0) at 2.
  rewrite lookup_InitLanes, decide_True by lia.
  by rewrite lookup_replicate_2 by lia.
Qed.

Lemma length_InitLanes minimum extra n producer off lanes :
  length (InitLanes minimum extra n producer off lanes) = length lanes.
Proof.
  revert producer off lanes. induction n; intros; simpl; [done|]. by rewrite IHn, length_alter.
Qed.

Lemma lane_offset_end count cells :
  (0 < count)%nat -> lane_offset (cells / count) (cells mod count) count = cells.
Proof.
  intros Hc. unfold lane_offset. pose proof (Nat.div_mod cells count ltac:(lia)).
  pose proof (Nat.mod_upper_bound cells count ltac:(lia)). nia.
Qed.

Lemma lane_offset_mono minimum extra i j :
  (i <= j)%nat -> (lane_offset minimum extra i <= lane_offset minimum extra j)%nat.
Proof. unfold lane_offset. intros. nia. Qed.

Lemma start_geometry count cells :
  lanes_config_ok count cells -> geometry (MakeProducerLanes count cells).
Proof.
  intros Hok. pose proof Hok as [Hc Hm].
  assert (forall i lane, (i < count)%nat -> lanes_ (MakeProducerLanes count cells) !! i = Some lane ->
    offset lane = lane_offset (cells / count) (cells mod count) i
    /\ (offset lane + capacity lane)%nat = lane_offset (cells / count) (cells mod count) (S i)
    /\ (0 < capacity lane)%nat) as Hlane.
  { intros i lane Hi Hl. rewrite lookup_MakeProducerLanes in Hl by done. simplify_eq.
    rewrite lane_offset_S. split_and!; [done..|].
    change (0 < lane_capacity (cells / count) (cells mod count) i)%nat. unfold lane_capacity.
    assert (1 <= cells / count)%nat by (apply Nat.div_le_lower_bound; lia). lia. }
  split; cbn [producer_count_ MakeProducerLanes].
  - apply length_replicate.
  - cbn [lanes_ MakeProducerLanes]. by rewrite length_InitLanes, length_replicate.
  - lia.
  - intros p lane Hp Hl. destruct (Hlane p lane Hp Hl) as (_ & -> & ?). split; [done|].
    pose proof (lane_offset_mono (cells / count) (cells mod count) (S p) count ltac:(lia)).
    rewrite lane_offset_end in * by lia. lia.
  - intros p p' lane lane' Hp Hl Hl'.
    destruct (Hlane p lane ltac:(lia) Hl) as (_ & -> & _).
    destruct (Hlane p' lane' ltac:(lia) Hl') as (-> & _ & _). apply lane_offset_mono. lia.
Qed.

Lemma start_inv count cells :
  lanes_config_ok count cells -> lanes_inv (lanes_start count cells).
Proof.
  intros Hok. split; try done; cbn [lanes history publications consumption delivered lanes_start].
  - by apply start_geometry.
  - intros p lane Hp Hl. rewrite lookup_MakeProducerLanes in Hl by done. injection Hl as <-.
    rewrite lookup_empty. split; [|split; [done|by intros []]].
    split; cbn; try done; try lia; intros k Hk; lia.
Qed.

(** ** Reachable states *)

Lemma lanes_step_history s s' :
  lanes_step s s' -> zlen (history s) <= zlen (history s').
Proof.
  unfold zlen. destruct 1; simpl; rewrite ?length_app, ?length_alter; lia.
Qed.

Lemma lanes_step_inv s s' :
  lanes_step s s' -> zlen (history s') < 2 ^ 64 -> lanes_inv s -> lanes_inv s'.
Proof.
  intros Hstep Hlen Hinv. destruct Hstep as [p c l' l h pubs con dl Heq|p c r q l' l h pubs con dl Hp Ha Heq
    |p c r q l h pubs con dl Hp|p c l h pubs con dl Hp|c l' l h pubs con dl Heq|c l h pubs dl|c l h pubs dl];
    cbn [history] in Hlen.
  - destruct (TryClaimPublication_cases _ p Hinv Hlen)
      as [[_ H]|(lane & Hp & Hl & [[_ H]|[(_ & _ & H)|(Hpub & Hroom & H)]])];
      cbn [lanes] in *; rewrite H in Heq; injection Heq as <- <-; [done..|].
    by apply (claim_inv _ _ _ _ _ Hinv).
  - pose proof (allocate_inv _ _ _ _ _ Hinv p c r Hp Ha) as H. rewrite Heq in H. apply H.
    unfold zlen in *. rewrite length_app in Hlen. simpl in Hlen. lia.
  - unfold zlen in Hlen. rewrite length_alter in Hlen.
    destruct (ln_phase _ Hinv p _ Hp) as (_ & lane & _ & _ & _ & k & -> & _).
    by apply (store_inv _ _ _ _ _ Hinv Hlen).
  - by apply (abandon_inv _ _ _ _ _ Hinv).
  - by eapply (consume_inv _ _ _ _ con).
  - by apply acknowledge_inv.
  - by apply cancel_inv.
Qed.

Lemma lanes_reachable count cells s :
  lanes_config_ok count cells -> rtc lanes_step (lanes_start count cells) s ->
  zlen (history s) < 2 ^ 64 -> lanes_inv s /\ producer_count_ (lanes s) = count.
Proof.
  intros Hok. revert s. refine (rtc_ind_r _ _ _ _).
  { intros _. split; [by apply start_inv|done]. }
  intros y z _ Hyz IH Hlen.
  destruct IH as [Hinv Hc]; [pose proof (lanes_step_history _ _ Hyz); lia|].
  split; [by eapply lanes_step_inv|]. rewrite <- Hc.
  clear -Hyz. destruct Hyz as [p c l' l ? ? ? ? Heq|p c r q l' l ? ? ? ? ? ? Heq| | |c l' l ? ? ? ? Heq| |];
    cbn [lanes]; try done.
  - unfold TryClaimPublication in Heq. repeat case_match; by simplify_eq.
  - unfold AllocateSequence in Heq. by simplify_eq.
  - unfold Abandon. by case_ifs.
  - unfold TryClaimConsumption in Heq. repeat case_match; by simplify_eq.
  - unfold Acknowledge. by case_ifs.
  - unfold Cancel. by case_ifs.
Qed.

(** An unconsumed visible record occupies the cell its handle names. *)
Lemma unconsumed_slot s k e lane :
  lanes_inv s -> zlen (history s) < 2 ^ 64 ->
  history s !! k = Some e -> (length (delivered s) <= k)%nat -> e_visible e = true ->
  lanes_ (lanes s) !! e_producer e = Some lane ->
  exists i : nat, read_position lane <= Z.of_nat i < published_position lane
    /\ slot_index (e_record e) = lane_cell lane (Z.of_nat i).
Proof.
  intros Hinv Hlen He Hk Hv Hl. destruct (ln_history _ Hinv _ _ He) as [Hp _].
  destruct (ln_lane _ Hinv _ lane Hp Hl) as [Hh _].
  assert (envelope_of k e ∈ visible_of (e_producer e) (length (delivered s))
                              (drop (length (delivered s)) (history s))) as Hin.
  { apply elem_of_visible_of. exists (k - length (delivered s))%nat, e. rewrite lookup_drop.
    replace (length (delivered s) + (k - length (delivered s)))%nat with k by lia. done. }
  apply list_elem_of_lookup in Hin as [j Hj].
  destruct s as [l h pubs con dl]; simpl in *.
  pose proof (visible_of_drop _ _ _ _ _ Hinv (e_producer e)) as Hsplit.
  set (pre := visible_of _ 0 (take _ _)) in *.
  assert (visible_of (e_producer e) 0 h !! (length pre + j)%nat = Some (envelope_of k e)) as Hlk.
  { rewrite Hsplit, lookup_app_r by lia. by replace (length pre + j - length pre)%nat with j by lia. }
  exists (length pre + j)%nat.
  assert (read_position lane <= Z.of_nat (length pre + j) < published_position lane) as Hrange.
  { rewrite (lh_read _ _ _ _ _ Hh), (lh_published _ _ _ _ _ Hh). apply lookup_lt_Some in Hlk.
    unfold zlen. fold pre. lia. }
  split; [done|]. rewrite <- (lh_slots _ _ _ _ _ Hh) by done.
  rewrite (lh_cells _ _ _ _ _ Hh) in Hlk by done. injection Hlk as ->. done.
Qed.

Definition phase_claim (phase : pub_phase) : PublicationClaim :=
  match phase with Claimed c => c | Allocated c _ _ => c end.

Lemma phase_claim_holds h p lane phase :
  phase_holds h p lane phase -> claim_holds (phase_claim phase) p lane.
Proof. destruct phase; simpl; [done|by intros []]. Qed.

(** The cell of a claim: an undelivered admission that uses it is the claim's own, not
    yet stored; and no other claim has it. *)
Lemma claimed_cell_unused s p phase :
  lanes_inv s -> zlen (history s) < 2 ^ 64 -> publications s !! p = Some phase ->
  (forall (k : nat) e, history s !! k = Some e -> (length (delivered s) <= k)%nat ->
     slot_index (e_record e) = cell_index_ (phase_claim phase) ->
     e_producer e = p /\ e_visible e = false)
  /\ (forall p' phase', p' <> p -> publications s !! p' = Some phase' ->
        cell_index_ (phase_claim phase') <> cell_index_ (phase_claim phase)).
Proof.
  intros Hinv Hlen Hp.
  destruct (ln_phase _ Hinv _ _ Hp) as (Hpc & lane & Hl & Hph%phase_claim_holds).
  pose proof (ln_geometry _ Hinv) as Hgeo. rewrite (ch_cell _ _ _ Hph).
  assert (forall p' phase', p' <> p -> publications s !! p' = Some phase' ->
            cell_index_ (phase_claim phase') <> lane_cell lane (write_position lane)) as Hother.
  { intros p' phase' Hne Hp'.
    destruct (ln_phase _ Hinv _ _ Hp') as (Hpc' & lane' & Hl' & Hph'%phase_claim_holds).
    rewrite (ch_cell _ _ _ Hph'). by apply (lane_cell_disjoint (lanes s) p' p). }
  split; [|done]. intros k e He Hk. destruct (ln_history _ Hinv _ _ He) as [Hq Hinvis].
  destruct (e_visible e) eqn:Hv.
  - destruct (geometry_lookup _ _ Hgeo Hq) as (lane' & Hl' & _).
    destruct (unconsumed_slot s k e lane' Hinv Hlen He Hk Hv Hl') as (i & Hi & ->).
    intros Heq. exfalso. revert Heq. destruct (decide (p = e_producer e)) as [->|Hne].
    + rewrite Hl in Hl'. injection Hl' as <-. apply lane_cell_inj.
      destruct (ln_lane _ Hinv _ lane Hpc Hl) as [Hh _].
      rewrite (lh_write _ _ _ _ _ Hh). pose proof (ch_room _ _ _ Hph).
      rewrite (lh_write _ _ _ _ _ Hh) in *. lia.
    + by apply (lane_cell_disjoint (lanes s) (e_producer e) p).
  - intros Heq. split; [|done]. destruct (Hinvis eq_refl) as [c Hc].
    destruct (decide (e_producer e = p)) as [|Hne]; [done|]. exfalso.
    apply (Hother _ _ Hne Hc). rewrite <- Heq. symmetry.
    destruct (ln_phase _ Hinv _ _ Hc) as (_ & ? & _ & _ & Hallowed & _). unfold PublishAllowed in Hallowed.
    b2p. done.
Qed.

(** Records of a producer that are stored and not yet acknowledged. *)
Definition outstanding (s : System) (p : nat) : Z :=
  zlen (visible_of p 0 (history s))
  - zlen (visible_of p 0 (take (length (delivered s)) (history s))).

(** ** Properties *)

(** C3: what the consumer has acknowledged is, in every reachable state, exactly
    the first admissions in admission order: no record is lost, duplicated or
    reordered, whatever the interleaving of publications, and the admission
    counter counts them. *)
Theorem lanes_deliver_in_admission_order count cells s :
  lanes_config_ok count cells -> rtc lanes_step (lanes_start count cells) s ->
  zlen (history s) < 2 ^ 64 ->
  delivered s = imap envelope_of (take (length (delivered s)) (history s))
  /\ (length (delivered s) <= length (history s))%nat
  /\ AcceptedCount (lanes s) = zlen (history s)
  /\ next_sequence (lanes s) = zlen (delivered s).
Proof.
  intros Hok Hr Hlen. destruct (lanes_reachable _ _ _ Hok Hr Hlen) as [Hinv _].
  pose proof (ln_delivered _ Hinv) as Hdel.
  pose proof (ln_admitted _ Hinv). pose proof (ln_consumed _ Hinv).
  destruct s as [l h pubs con dl]. pose proof (delivered_le _ _ _ _ _ Hinv). simpl in *.
  split_and!; try done. apply list_eq. intros k. rewrite list_lookup_imap.
  destruct (decide (k < length dl)%nat) as [Hk|].
  - rewrite lookup_take_lt by done. destruct (lookup_lt_is_Some_2 dl k Hk) as [env Henv].
    destruct (Hdel k env Henv) as (e & -> & _ & ->). by rewrite Henv.
  - rewrite lookup_take_ge, lookup_ge_None_2 by lia. done.
Qed.

(** When no claim is open, [TryClaimConsumption] hands out a record exactly
    when the next admission has been stored, with that record and its producer;
    it answers [kPending] when the next admission is still being stored, and
    [kEmpty] exactly when everything admitted was acknowledged. *)
Lemma TryClaimConsumption_exact count cells s :
  lanes_config_ok count cells -> rtc lanes_step (lanes_start count cells) s ->
  zlen (history s) < 2 ^ 64 -> consumption s = None ->
  let c := (TryClaimConsumption (lanes s)).1 in
  match history s !! length (delivered s) with
  | None => con_status_ c = kEmpty /\ con_owner_ c = false
  | Some e =>
      if e_visible e then
        con_status_ c = kRecord /\ con_owner_ c = true
        /\ envelope_ c = envelope_of (length (delivered s)) e
        /\ con_producer_index_ c = e_producer e
      else con_status_ c = kPending /\ con_owner_ c = false
  end.
Proof.
  intros Hok Hr Hlen Hcon. destruct (lanes_reachable _ _ _ Hok Hr Hlen) as [Hinv _].
  destruct s as [l h pubs con dl]. simpl in *.
  pose proof (TryClaimConsumption_cases _ _ _ _ _ Hinv Hlen Hcon) as H.
  destruct (h !! length dl) as [e|]; [destruct (e_visible e)|].
  - destruct H as (lane & _ & ->). done.
  - by rewrite H.
  - by rewrite H.
Qed.

(** C14: a cell handed to a publisher is free: no stored record that still awaits
    acknowledgement lives in it (so its record slot may be rewritten), and no
    other publisher holds it. *)
Theorem claimed_cell_is_free count cells s p phase :
  lanes_config_ok count cells -> rtc lanes_step (lanes_start count cells) s ->
  zlen (history s) < 2 ^ 64 -> publications s !! p = Some phase ->
  (forall (k : nat) e, history s !! k = Some e -> (length (delivered s) <= k)%nat ->
     e_visible e = true -> slot_index (e_record e) <> cell_index_ (phase_claim phase))
  /\ (forall p' phase', p' <> p -> publications s !! p' = Some phase' ->
        cell_index_ (phase_claim phase') <> cell_index_ (phase_claim phase)).
Proof.
  intros Hok Hr Hlen Hp. destruct (lanes_reachable _ _ _ Hok Hr Hlen) as [Hinv _].
  destruct (claimed_cell_unused s p phase Hinv Hlen Hp) as [Hused Hother].
  split; [|done]. intros k e He Hk Hv Heq.
  destruct (Hused k e He Hk Heq) as [_ Hv']. congruence.
Qed.

(** [TryClaimPublication] of a valid producer is contended exactly while the
    producer holds a claim, and otherwise full exactly when the producer's
    unacknowledged records fill its lane. *)
Lemma TryClaimPublication_exact count cells s p :
  lanes_config_ok count cells -> rtc lanes_step (lanes_start count cells) s ->
  zlen (history s) < 2 ^ 64 -> (p < count)%nat ->
  let c := (TryClaimPublication p (lanes s)).1 in
  pub_status_ c =
    (if decide (is_Some (publications s !! p)) then kContended
     else if outstanding s p =? Z.of_nat (capacity (lane_at (lanes s) p)) then kFull
     else kClaimed)
  /\ (pub_owner_ c = true <-> pub_status_ c = kClaimed)
  /\ outstanding s p <= Z.of_nat (capacity (lane_at (lanes s) p)).
Proof.
  intros Hok Hr Hlen Hp. destruct (lanes_reachable _ _ _ Hok Hr Hlen) as [Hinv Hcount].
  rewrite <- Hcount in Hp. destruct (geometry_lookup _ _ (ln_geometry _ Hinv) Hp) as (lane & Hl & ->).
  destruct (ln_lane _ Hinv p lane Hp Hl) as [Hh Hpub].
  assert (outstanding s p = published_position lane - read_position lane) as ->.
  { unfold outstanding. by rewrite (lh_published _ _ _ _ _ Hh), (lh_read _ _ _ _ _ Hh). }
  pose proof (lh_room _ _ _ _ _ Hh).
  destruct (TryClaimPublication_cases s p Hinv Hlen)
    as [[? _]|(lane' & _ & Hl' & [[Ht H']|[(Hf & Hfull & H')|(Hf & Hroom & H')]])]; [lia|..];
    rewrite Hl in Hl'; injection Hl' as <-; rewrite H'; cbn.
  - rewrite decide_True by (by apply Hpub). split_and!; [done|done|lia].
  - rewrite decide_False by (intros ?%Hpub; congruence).
    destruct (Z.eqb_spec (published_position lane - read_position lane) (Z.of_nat (capacity lane)));
      [|lia]. split_and!; [done|done|lia].
  - rewrite decide_False by (intros ?%Hpub; congruence).
    destruct (Z.eqb_spec (published_position lane - read_position lane) (Z.of_nat (capacity lane)));
      [lia|]. split_and!; [done|done|lia].
Qed.

(** The constructor cuts the cells into one contiguous lane per producer: lane
    sizes differ by at most one, the larger ones come first, every lane starts
    where the one before it ends, and together they cover every cell. *)
Lemma MakeProducerLanes_geometry count cells p :
  lanes_config_ok count cells -> (p < count)%nat ->
  let l := MakeProducerLanes count cells in
  let lane := lane_at l p in
  capacity lane = (cells / count + if (p <? cells mod count)%nat then 1 else 0)%nat
  /\ (0 < capacity lane)%nat
  /\ offset (lane_at l 0) = 0%nat
  /\ (offset lane + capacity lane)%nat
     = (if decide (S p = count) then cells else offset (lane_at l (S p))).
Proof.
  intros Hok Hp l lane. pose proof (start_geometry _ _ Hok) as Hgeo.
  assert (forall i, (i < count)%nat -> lane_at l i
      = empty_lane <| offset := lane_offset (cells / count) (cells mod count) i |>
                   <| capacity := lane_capacity (cells / count) (cells mod count) i |>) as Hat.
  { intros i Hi. unfold lane_at, l. by rewrite lookup_MakeProducerLanes. }
  destruct (geo_lane _ Hgeo p _ Hp (lookup_MakeProducerLanes _ _ _ Hok Hp)) as [Hpos _].
  unfold lane. rewrite (Hat p Hp), (Hat 0%nat) by lia.
  split_and!; [done|done|done|]. cbn [offset capacity modify]. rewrite <- lane_offset_S.
  case_decide as Hend; [|by rewrite Hat by lia].
  rewrite Hend. apply lane_offset_end. lia.
Qed.

(** [IsProducerDrained] is true exactly when the producer holds no claim and
    each of its admissions was acknowledged. *)
Lemma IsProducerDrained_exact count cells s p :
  lanes_config_ok count cells -> rtc lanes_step (lanes_start count cells) s ->
  zlen (history s) < 2 ^ 64 -> (p < count)%nat ->
  IsProducerDrained p (lanes s) = true <->
  publications s !! p = None
  /\ forall (k : nat) e, history s !! k = Some e -> e_producer e = p ->
       (k < length (delivered s))%nat.
Proof.
  intros Hok Hr Hlen Hp. destruct (lanes_reachable _ _ _ Hok Hr Hlen) as [Hinv Hcount].
  rewrite <- Hcount in Hp. unfold IsProducerDrained.
  destruct (Nat.leb_spec (producer_count_ (lanes s)) p); [lia|].
  destruct (geometry_lookup _ _ (ln_geometry _ Hinv) Hp) as (lane & Hl & ->).
  destruct (ln_lane _ Hinv p lane Hp Hl) as [Hh Hpub].
  rewrite andb_true_iff, negb_true_iff, Z.eqb_eq, eq_None_not_Some, <- Hpub, not_true_iff_false.
  split; intros [Hf H']; (split; [done|]).
  - intros k e He <-. apply Nat.nle_gt. intros Hk.
    assert (e_visible e = true) as Hv.
    { apply not_false_is_true. intros Hv. destruct (ln_history _ Hinv _ _ He) as [_ [c Hc]]; [done|].
      assert (publishing lane = true); [apply Hpub; eauto|congruence]. }
    destruct (unconsumed_slot s k e lane Hinv Hlen He Hk Hv Hl) as (i & Hi & _). lia.
  - destruct (decide (published_position lane = read_position lane)) as [|Hne]; [done|].
    destruct s as [l h pubs con dl]. simpl in *.
    destruct (lane_head _ _ _ _ _ Hinv Hlen p lane Hp Hl Hne) as (j & e & Hj & He & He' & _).
    specialize (H' j e He He'). lia.
Qed.

(** ** Witnesses: two producers, three cells *)

Definition demo_handle (slot producer : nat) : RecordHandle :=
  {| slot_index := slot; producer_index := producer; generation := 1; serialized_bytes := 70;
     accounting_charge_bytes := 128 |}.

Definition demo_start : System := lanes_start 2 3.

(** Producer 1 claims, producer 0 claims and is admitted first, producer 1 is
    admitted and stored; producer 0 is still storing. *)
Definition demo_claim1 := TryClaimPublication 1 (lanes demo_start).
Definition demo_claim0 := TryClaimPublication 0 demo_claim1.2.
Definition demo_alloc0 := AllocateSequence demo_claim0.2.
Definition demo_alloc1 := AllocateSequence demo_alloc0.2.
Definition demo_stored1 := StorePublication demo_claim1.1 (demo_handle 2 1) 1 demo_alloc1.2.
Definition demo_stored0 := StorePublication demo_claim0.1 (demo_handle 0 0) 0 demo_stored1.
Definition demo_taken := TryClaimConsumption demo_stored0.
Definition demo_acked := Acknowledge demo_taken.1 demo_taken.2.

Definition demo_history (v0 : bool) : list entry :=
  [{| e_producer := 0; e_record := demo_handle 0 0; e_visible := v0 |};
   {| e_producer := 1; e_record := demo_handle 2 1; e_visible := true |}].

Definition demo_pending : System :=
  {| lanes := demo_stored1; history := demo_history false;
     publications := {[ 0%nat := Allocated demo_claim0.1 (demo_handle 0 0) 0 ]};
     consumption := None; delivered := [] |}.

Definition demo_delivered : System :=
  {| lanes := demo_acked; history := demo_history true; publications := ∅;
     consumption := None;
     delivered := [{| record := demo_handle 0 0; admission_sequence := 0 |}] |}.

Lemma demo_lanes_ok : lanes_config_ok 2 3.
Proof. split; by_compute. Qed.

Lemma demo_pending_reachable : rtc lanes_step (lanes_start 2 3) demo_pending.
Proof.
  eapply rtc_l; [apply (st_claim 1); apply surjective_pairing|].
  eapply rtc_l; [apply (st_claim 0); apply surjective_pairing|].
  eapply rtc_l; [apply (st_allocate 0 demo_claim0.1 (demo_handle 0 0));
                 [reflexivity|reflexivity|apply surjective_pairing]|].
  eapply rtc_l; [apply (st_allocate 1 demo_claim1.1 (demo_handle 2 1));
                 [reflexivity|reflexivity|apply surjective_pairing]|].
  eapply rtc_l; [apply (st_store 1); reflexivity|].
  apply rtc_refl.
Qed.

Lemma demo_delivered_reachable : rtc lanes_step (lanes_start 2 3) demo_delivered.
Proof.
  etrans; [apply demo_pending_reachable|].
  eapply rtc_l; [apply (st_store 0); reflexivity|].
  eapply rtc_l; [apply st_consume; apply surjective_pairing|].
  eapply rtc_l; [apply st_acknowledge|]. apply rtc_refl.
Qed.

Lemma lanes_deliver_in_admission_order_witness :
  delivered demo_delivered = imap envelope_of (take 1 (demo_history true)).
Proof.
  apply (lanes_deliver_in_admission_order 2 3 demo_delivered demo_lanes_ok
           demo_delivered_reachable). by_compute.
Defined.

Lemma TryClaimConsumption_exact_witness :
  con_status_ (TryClaimConsumption (lanes demo_pending)).1 = kPending
  /\ con_status_ (TryClaimConsumption (lanes demo_delivered)).1 = kRecord.
Proof.
  split.
  - apply (TryClaimConsumption_exact 2 3 demo_pending demo_lanes_ok demo_pending_reachable);
      by_compute.
  - apply (TryClaimConsumption_exact 2 3 demo_delivered demo_lanes_ok demo_delivered_reachable);
      by_compute.
Defined.

Lemma claimed_cell_is_free_witness :
  slot_index (demo_handle 2 1) <> cell_index_ demo_claim0.1.
Proof.
  destruct (claimed_cell_is_free 2 3 demo_pending 0
              (Allocated demo_claim0.1 (demo_handle 0 0) 0) demo_lanes_ok demo_pending_reachable)
    as [Hfree _]; [by_compute|reflexivity|].
  apply (Hfree 1%nat {| e_producer := 1; e_record := demo_handle 2 1; e_visible := true |});
    by_compute.
Defined.

Lemma TryClaimPublication_exact_witness :
  pub_status_ (TryClaimPublication 0 (lanes demo_pending)).1 = kContended
  /\ pub_status_ (TryClaimPublication 1 (lanes demo_pending)).1 = kFull.
Proof.
  split.
  - apply (TryClaimPublication_exact 2 3 demo_pending 0 demo_lanes_ok demo_pending_reachable);
      by_compute.
  - apply (TryClaimPublication_exact 2 3 demo_pending 1 demo_lanes_ok demo_pending_reachable);
      by_compute.
Defined.

Lemma MakeProducerLanes_geometry_witness :
  capacity (lane_at (MakeProducerLanes 2 3) 0) = 2%nat
  /\ capacity (lane_at (MakeProducerLanes 2 3) 1) = 1%nat.
Proof.
  split.
  - apply (MakeProducerLanes_geometry 2 3 0 demo_lanes_ok). lia.
  - apply (MakeProducerLanes_geometry 2 3 1 demo_lanes_ok). lia.
Defined.

Lemma IsProducerDrained_exact_witness :
  IsProducerDrained 0 (lanes demo_delivered) = true.
Proof.
  apply (IsProducerDrained_exact 2 3 demo_delivered 0 demo_lanes_ok demo_delivered_reachable);
    [by_compute|lia|]. split; [reflexivity|].
  intros [|[|k]] e He Hp; [simpl; lia|..]; simpl in He; by simplify_eq.
Defined.
