(* ===== verification/Utf8.v ===== *)
(** * UTF-8 prefixes ([ValidUtf8PrefixLength] of [src/producer/record_storage.cpp])

    The scan that bounds what a message keeps, against the definition of
    well-formed UTF-8 (Unicode, Table 3-7): the result is the length of the
    longest well-formed prefix. *)
From S2P Require Import Prelude.

(** ** The scan *)

Definition IsContinuationByte (value : byte) : bool := Z.land value 0xC0 =? 0x80.

(** [value[index]]; the scan only reads below [value.size()]. *)
Definition byte_at (value : list byte) (index : Z) : byte := default 0 (value !! Z.to_nat index).

(** The [if] chain on the first byte; [None] is the [break]. *)
Definition Utf8SequenceSize (first : byte) : option Z :=
  if first <=? 0x7F then Some 1
  else if (0xC2 <=? first) && (first <=? 0xDF) then Some 2
  else if (0xE0 <=? first) && (first <=? 0xEF) then Some 3
  else if (0xF0 <=? first) && (first <=? 0xF4) then Some 4
  else None.

(** The loop over [index = 1 .. sequence_size - 1]; [n] iterations are left. *)
Fixpoint ContinuationsValid (value : list byte) (valid_size index : Z) (n : nat)
    (valid_sequence : bool) : bool :=
  match n with
  | O => valid_sequence
  | S n' =>
      ContinuationsValid value valid_size (index + 1) n'
        (valid_sequence && IsContinuationByte (byte_at value (valid_size + index)))
  end.

(** The second-byte restrictions of three- and four-byte sequences. *)
Definition SecondByteRejected (first second : byte) (sequence_size : Z) : bool :=
  if sequence_size =? 3 then
    ((first =? 0xE0) && (second <? 0xA0)) || ((first =? 0xED) && (0xA0 <=? second))
  else if sequence_size =? 4 then
    ((first =? 0xF0) && (second <? 0x90)) || ((first =? 0xF4) && (0x90 <=? second))
  else false.

(** Each iteration consumes at least one byte, so [length value] iterations and
    one test are enough. *)
Fixpoint Utf8Scan (fuel : nat) (value : list byte) (valid_size : Z) : Z :=
  match fuel with
  | O => valid_size
  | S fuel' =>
      if valid_size <? zlen value then
        let first := byte_at value valid_size in
        match Utf8SequenceSize first with
        | None => valid_size
        | Some sequence_size =>
            if zlen value -w valid_size <? sequence_size then valid_size
            else if negb (ContinuationsValid value valid_size 1
                            (Z.to_nat (sequence_size - 1)) true) then valid_size
            else if SecondByteRejected first (byte_at value (valid_size + 1)) sequence_size
            then valid_size
            else Utf8Scan fuel' value (valid_size +w sequence_size)
        end
      else valid_size
  end.

Definition ValidUtf8PrefixLength (value : list byte) : Z :=
  Utf8Scan (S (length value)) value 0.

(** ** Well-formed UTF-8 *)

Inductive utf8_char : list byte -> Prop :=
| utf8_1 a : 0 <= a <= 0x7F -> utf8_char [a]
| utf8_2 a b : 0xC2 <= a <= 0xDF -> 0x80 <= b <= 0xBF -> utf8_char [a; b]
| utf8_3 a b c : 0xE0 <= a <= 0xEF -> 0x80 <= b <= 0xBF -> 0x80 <= c <= 0xBF ->
    (a = 0xE0 -> 0xA0 <= b) -> (a = 0xED -> b <= 0x9F) -> utf8_char [a; b; c]
| utf8_4 a b c d : 0xF0 <= a <= 0xF4 -> 0x80 <= b <= 0xBF -> 0x80 <= c <= 0xBF ->
    0x80 <= d <= 0xBF -> (a = 0xF0 -> 0x90 <= b) -> (a = 0xF4 -> b <= 0x8F) ->
    utf8_char [a; b; c; d].

Inductive utf8 : list byte -> Prop :=
| utf8_nil : utf8 []
| utf8_cons c rest : utf8_char c -> utf8 rest -> utf8 (c ++ rest).

Definition bytes_ok (bs : list byte) : Prop := Forall (fun b => 0 <= b < 256) bs.

(** ** Lemmas *)

Lemma IsContinuationByte_spec b :
  0 <= b < 256 -> IsContinuationByte b = true <-> 0x80 <= b <= 0xBF.
Proof.
  intros Hb. unfold IsContinuationByte. rewrite Z.eqb_eq.
  assert (Z.land b 0xC0 = 64 * (b / 64)) as ->.
  2:{ Z.to_euclidean_division_equations. lia. }
  assert (Z.land b 0xC0 = Z.land b (Z.shiftl (Z.ones 2) 6)) as -> by done.
  assert (Z.land b (Z.shiftl (Z.ones 2) 6) = Z.shiftl (Z.land (Z.shiftr b 6) (Z.ones 2)) 6) as ->.
  { apply Z.bits_inj'. intros n Hn.
    rewrite Z.land_spec, !Z.shiftl_spec by done. destruct (decide (n < 6)).
    - rewrite !(Z.testbit_neg_r _ (n - 6)) by lia. by rewrite andb_false_r.
    - rewrite Z.land_spec, Z.shiftr_spec by lia. by replace (n - 6 + 6) with n by lia. }
  rewrite Z.land_ones, Z.shiftl_mul_pow2, Z.shiftr_div_pow2 by lia.
  change (2 ^ 6) with 64. change (2 ^ 2) with 4.
  rewrite Z.mod_small; [lia|]. split; [apply Z.div_pos; lia|apply Z.div_lt_upper_bound; lia].
Qed.

Lemma byte_at_ok value i : bytes_ok value -> 0 <= byte_at value i < 256.
Proof.
  intros H. unfold byte_at. destruct (value !! Z.to_nat i) as [b|] eqn:Hb; simpl; [|lia].
  by apply (Forall_lookup_1 _ _ _ _ H Hb).
Qed.

(** One iteration of the scan against one character of the specification. *)
Definition Utf8Step (value : list byte) (p : Z) : option Z :=
  if p <? zlen value then
    match Utf8SequenceSize (byte_at value p) with
    | None => None
    | Some n =>
        if zlen value - p <? n then None
        else if negb (ContinuationsValid value p 1 (Z.to_nat (n - 1)) true) then None
        else if SecondByteRejected (byte_at value p) (byte_at value (p + 1)) n then None
        else Some n
    end
  else None.

Lemma Utf8Scan_step fuel value p :
  0 <= p <= zlen value -> zlen value < 2 ^ 63 ->
  Utf8Scan (S fuel) value p =
    match Utf8Step value p with None => p | Some n => Utf8Scan fuel value (p + n) end.
Proof.
  intros Hp Hlen. cbn [Utf8Scan]. unfold Utf8Step.
  destruct (Z.ltb_spec p (zlen value)) as [Hlt|]; [|done].
  destruct (Utf8SequenceSize (byte_at value p)) as [n|] eqn:Hn; [|done].
  rewrite w64_small by lia. destruct (Z.ltb_spec (zlen value - p) n); [done|].
  assert (1 <= n <= 4) as Hr by (unfold Utf8SequenceSize in Hn; repeat case_match; simplify_eq; lia).
  by case_ifs; rewrite ?w64_small by lia.
Qed.

Lemma byte_at_drop value p i :
  0 <= p -> 0 <= i -> byte_at value (p + i) = byte_at (drop (Z.to_nat p) value) i.
Proof. intros. unfold byte_at. rewrite lookup_drop. do 2 f_equal. lia. Qed.

Lemma ContinuationsValid_drop value p i n b :
  0 <= p -> 0 <= i ->
  ContinuationsValid value p i n b = ContinuationsValid (drop (Z.to_nat p) value) 0 i n b.
Proof.
  intros Hp. revert i b. induction n as [|n IH]; intros i b Hi; simpl; [done|].
  rewrite IH by lia. by rewrite byte_at_drop.
Qed.

Lemma Utf8Step_drop value p :
  0 <= p <= zlen value -> Utf8Step value p = Utf8Step (drop (Z.to_nat p) value) 0.
Proof.
  intros Hp. unfold Utf8Step.
  assert (zlen (drop (Z.to_nat p) value) = zlen value - p) as ->
    by (unfold zlen in *; rewrite length_drop; lia).
  pose proof (byte_at_drop value p 0) as H0. rewrite Z.add_0_r in H0.
  rewrite H0, (byte_at_drop value p 1) by lia. rewrite Z.sub_0_r, Z.add_0_l.
  destruct (Z.ltb_spec p (zlen value)), (Z.ltb_spec 0 (zlen value - p)); try lia; [|done].
  destruct (Utf8SequenceSize _) as [n|]; [|done]. by rewrite ContinuationsValid_drop by lia.
Qed.

Lemma Utf8SequenceSize_spec a n :
  0 <= a -> Utf8SequenceSize a = Some n <->
  (n = 1 /\ a <= 0x7F) \/ (n = 2 /\ 0xC2 <= a <= 0xDF) \/ (n = 3 /\ 0xE0 <= a <= 0xEF)
  \/ (n = 4 /\ 0xF0 <= a <= 0xF4).
Proof.
  intros Ha. unfold Utf8SequenceSize. split.
  - intros H. repeat case_match; simplify_eq; b2p; lia.
  - intros H. case_ifs; b2p; first [f_equal; lia|lia].
Qed.

(** The step accepts exactly the characters of the specification. *)
Lemma Utf8Step_sound rest n :
  bytes_ok rest -> Utf8Step rest 0 = Some n ->
  utf8_char (take (Z.to_nat n) rest) /\ 0 < n <= zlen rest.
Proof.
  intros Hok. unfold Utf8Step. destruct rest as [|a rest]; [done|].
  rewrite Z.sub_0_r. change (byte_at (a :: rest) 0) with a.
  inversion_clear Hok as [|? ? Ha Hok']. destruct (0 <? _) eqn:Hpos; [|done].
  destruct (Utf8SequenceSize a) as [m|] eqn:Hm; [|done].
  apply Utf8SequenceSize_spec in Hm; [|lia].
  destruct (Z.ltb_spec (zlen (a :: rest)) m) as [|Hlen]; [done|].
  destruct (negb _) eqn:Hcont; [done|]. destruct (SecondByteRejected _ _ _) eqn:Hrej; [done|].
  intros [= <-]. split; [|lia]. apply negb_false_iff in Hcont.
  unfold zlen in Hlen. simpl in Hlen.
  destruct Hm as [[-> Hr]|[[-> Hr]|[[-> Hr]|[-> Hr]]]].
  - apply utf8_1. lia.
  - destruct rest as [|b rest]; [simpl in Hlen; lia|]. inversion_clear Hok' as [|? ? Hb _].
    cbn in Hcont. apply IsContinuationByte_spec in Hcont; [|done]. by apply utf8_2.
  - destruct rest as [|b [|c rest]]; [simpl in Hlen; lia..|].
    inversion_clear Hok' as [|? ? Hb Hok]. inversion_clear Hok as [|? ? Hc _].
    match type of Hrej with context [byte_at ?l (0 + 1)] => change (byte_at l (0 + 1)) with b in Hrej end.
    cbn in Hcont, Hrej. apply andb_true_iff in Hcont as [Hb' Hc'].
    apply IsContinuationByte_spec in Hb', Hc'; [|done..]. b2p.
    change (0x80 <= b <= 0xBF) in Hb'. change (0x80 <= c <= 0xBF) in Hc'.
    apply utf8_3; intros; destruct_or?; b2p; lia.
  - destruct rest as [|b [|c [|d rest]]]; [simpl in Hlen; lia..|].
    inversion_clear Hok' as [|? ? Hb Hok]. inversion_clear Hok as [|? ? Hc Hok'].
    inversion_clear Hok' as [|? ? Hd _].
    match type of Hrej with context [byte_at ?l (0 + 1)] => change (byte_at l (0 + 1)) with b in Hrej end.
    cbn in Hcont, Hrej. apply andb_true_iff in Hcont as [Hbc Hd'].
    apply andb_true_iff in Hbc as [Hb' Hc'].
    apply IsContinuationByte_spec in Hb', Hc', Hd'; [|done..]. b2p.
    change (0x80 <= b <= 0xBF) in Hb'. change (0x80 <= c <= 0xBF) in Hc'.
    change (0x80 <= d <= 0xBF) in Hd'.
    apply utf8_4; intros; destruct_or?; b2p; lia.
Qed.

Lemma Utf8Step_complete c rest :
  utf8_char c -> Utf8Step (c ++ rest) 0 = Some (zlen c).
Proof.
  intros Hc. unfold Utf8Step.
  assert (forall b, 0x80 <= b <= 0xBF -> IsContinuationByte b = true) as Hcont.
  { intros b Hb. apply IsContinuationByte_spec; lia. }
  assert (exists a c', c = a :: c' /\ 0 <= a) as (a & c' & Heq & Ha)
    by (destruct Hc; eexists _, _; (split; [done|lia])).
  assert (Utf8SequenceSize a = Some (zlen c)) as Hsize.
  { apply Utf8SequenceSize_spec; [done|]. destruct Hc; simplify_eq; unfold zlen; simpl; lia. }
  assert (0 < zlen c <= zlen (c ++ rest)) as Hlen
    by (subst; unfold zlen; rewrite length_app; simpl; lia).
  destruct (Z.ltb_spec 0 (zlen (c ++ rest))); [|lia]. rewrite Z.sub_0_r.
  assert (byte_at (c ++ rest) 0 = a) as -> by (by subst). rewrite Hsize.
  destruct (Z.ltb_spec (zlen (c ++ rest)) (zlen c)); [lia|].
  assert (ContinuationsValid (c ++ rest) 0 1 (Z.to_nat (zlen c - 1)) true = true) as ->.
  { destruct Hc as [x|x y|x y z|x y z t]; simplify_eq; [done|..].
    - by change (IsContinuationByte y = true); apply Hcont.
    - change (IsContinuationByte y && IsContinuationByte z = true). by rewrite !Hcont.
    - change (IsContinuationByte y && IsContinuationByte z && IsContinuationByte t = true).
      by rewrite !Hcont. }
  assert (SecondByteRejected a (byte_at (c ++ rest) (0 + 1)) (zlen c) = false) as ->; [|done].
  destruct Hc as [x|x y|x y z|x y z t]; simplify_eq; [done..| |].
  1: change (SecondByteRejected a y 3 = false). 2: change (SecondByteRejected a y 4 = false).
  all: unfold SecondByteRejected; simpl; apply orb_false_iff.
  all: split; apply andb_false_iff; rewrite Z.eqb_neq, ?Z.ltb_ge, ?Z.leb_gt; lia.
Qed.

Lemma Utf8Step_spec value p :
  bytes_ok value -> 0 <= p <= zlen value ->
  match Utf8Step value p with
  | Some n => utf8_char (slice p n value) /\ 0 < n /\ p + n <= zlen value
  | None => forall c rest, utf8_char c -> drop (Z.to_nat p) value <> c ++ rest
  end.
Proof.
  intros Hok Hp. rewrite Utf8Step_drop by done.
  assert (zlen (drop (Z.to_nat p) value) = zlen value - p) as Hlen
    by (unfold zlen in *; rewrite length_drop; lia).
  destruct (Utf8Step (drop (Z.to_nat p) value) 0) as [n|] eqn:Hs.
  - apply Utf8Step_sound in Hs; [|by apply Forall_drop]. rewrite Hlen in Hs.
    split; [apply Hs|lia].
  - intros c rest Hc Heq. rewrite Heq, Utf8Step_complete in Hs by done. done.
Qed.

Lemma utf8_char_nonempty c : utf8_char c -> 0 < zlen c.
Proof. unfold zlen. by destruct 1; simpl. Qed.

(** A character is no proper prefix of another. *)
Lemma utf8_char_prefix c c' r r' :
  utf8_char c -> utf8_char c' -> c ++ r = c' ++ r' -> c = c' /\ r = r'.
Proof.
  intros Hc Hc' Heq. apply app_inj_1; [|done].
  pose proof (Utf8Step_complete c r Hc) as H1. pose proof (Utf8Step_complete c' r' Hc') as H2.
  rewrite Heq, H2 in H1. injection H1. unfold zlen. lia.
Qed.

Lemma Utf8Scan_spec fuel value p :
  bytes_ok value -> zlen value < 2 ^ 63 -> 0 <= p <= zlen value ->
  (Z.to_nat (zlen value - p) < fuel)%nat ->
  let q := Utf8Scan fuel value p in
  p <= q <= zlen value /\ utf8 (slice p (q - p) value)
  /\ forall u rest, utf8 u -> drop (Z.to_nat p) value = u ++ rest -> p + zlen u <= q.
Proof.
  intros Hok Hlen. revert p. induction fuel as [|fuel IH]; intros p Hp Hf; [lia|].
  cbv zeta. rewrite Utf8Scan_step by done. pose proof (Utf8Step_spec value p Hok Hp) as Hs.
  destruct (Utf8Step value p) as [n|].
  - destruct Hs as (Hc & Hn & Hpn). destruct (IH (p + n) ltac:(lia) ltac:(lia)) as (Hq & Hu & Hmax).
    set (q := Utf8Scan fuel value (p + n)) in *. split_and!; [lia|lia|..].
    + replace (q - p) with (n + (q - (p + n))) by lia. rewrite slice_app by lia.
      by apply utf8_cons.
    + intros u rest Hu' Heq. destruct Hu' as [|c u Hc' Hu']; [unfold zlen; simpl; lia|].
      rewrite <- app_assoc in Heq.
      assert (drop (Z.to_nat p) value = slice p n value ++ drop (Z.to_nat (p + n)) value) as Hsplit.
      { unfold slice. rewrite Z2Nat.inj_add, <- drop_drop by lia. by rewrite take_drop. }
      rewrite Hsplit in Heq. destruct (utf8_char_prefix _ _ _ _ Hc Hc' Heq) as [<- Hrest].
      specialize (Hmax u rest Hu' Hrest). unfold zlen in *.
      rewrite length_app, length_slice by (unfold zlen; lia). lia.
  - rewrite Z.sub_diag, slice_nil. split_and!; [lia|lia|constructor|].
    intros u rest Hu Heq. destruct Hu as [|c u Hc Hu]; [unfold zlen; simpl; lia|].
    rewrite <- app_assoc in Heq. by apply Hs in Heq.
Qed.

Lemma ValidUtf8PrefixLength_spec value :
  bytes_ok value -> zlen value < 2 ^ 63 ->
  0 <= ValidUtf8PrefixLength value <= zlen value
  /\ utf8 (take (Z.to_nat (ValidUtf8PrefixLength value)) value)
  /\ forall u rest, utf8 u -> value = u ++ rest -> zlen u <= ValidUtf8PrefixLength value.
Proof.
  intros Hok Hlen. unfold ValidUtf8PrefixLength.
  destruct (Utf8Scan_spec (S (length value)) value 0) as (Hq & Hu & Hmax);
    [done|done|unfold zlen; lia|unfold zlen; lia|].
  rewrite Z.sub_0_r in Hu. split_and!; [lia|lia|done|]. intros u rest Hu' Heq.
  apply (Hmax u rest Hu'). by rewrite drop_0.
Qed.

(** A message that is well-formed is kept whole. *)
Lemma ValidUtf8PrefixLength_id value :
  bytes_ok value -> zlen value < 2 ^ 63 -> utf8 value -> ValidUtf8PrefixLength value = zlen value.
Proof.
  intros Hok Hlen Hu. destruct (ValidUtf8PrefixLength_spec value Hok Hlen) as (? & _ & Hmax).
  specialize (Hmax value [] Hu). rewrite app_nil_r in Hmax. specialize (Hmax eq_refl). lia.
Qed.

(** ** Properties *)

(** C27: the prefix [ValidUtf8PrefixLength] keeps is well-formed UTF-8, and every
    well-formed prefix of the input is a prefix of it: truncation never splits a
    character and never drops one that fits. *)
Theorem ValidUtf8PrefixLength_longest value :
  bytes_ok value -> zlen value < 2 ^ 63 ->
  let kept := take (Z.to_nat (ValidUtf8PrefixLength value)) value in
  utf8 kept /\ (forall u, utf8 u -> u `prefix_of` value -> u `prefix_of` kept)
  /\ (utf8 value -> kept = value).
Proof.
  intros Hok Hlen. destruct (ValidUtf8PrefixLength_spec value Hok Hlen) as (Hb & Hu & Hmax).
  unfold zlen in *. split_and!; [done|..].
  - intros u Hu' [rest Heq]. specialize (Hmax u rest Hu' Heq). rewrite Heq at 2.
    rewrite take_app_ge by lia. by apply prefix_app_r.
  - intros Hv. specialize (Hmax value [] Hv). rewrite app_nil_r in Hmax.
    specialize (Hmax eq_refl). apply take_ge. lia.
Qed.

(** A two-byte character, then a three-byte one that is cut after two bytes. *)
Lemma ValidUtf8PrefixLength_longest_witness :
  ValidUtf8PrefixLength [0xC3; 0xA9; 0xE2; 0x82] = 2 /\ utf8 [0xC3; 0xA9].
Proof.
  split; [reflexivity|].
  apply (ValidUtf8PrefixLength_longest [0xC3; 0xA9; 0xE2; 0x82]); [|by_compute].
  unfold bytes_ok. repeat constructor; lia.
Defined.
