(* ===== verification/Charconv.v ===== *)
(** * Decimal text ([std::to_chars] for 64-bit integers)

    The record writer and the raw encoder print integers with [std::to_chars] into
    a buffer; this file models what they use of it: the shortest decimal text,
    refused when the buffer is shorter. *)
From S2P Require Import Prelude.

(** ['0' + d]. *)
Definition digit (d : Z) : byte := 48 + d.

Fixpoint digits (fuel : nat) (n : Z) (acc : list byte) : list byte :=
  match fuel with
  | O => acc
  | S fuel' =>
      let acc' := digit (n mod 10) :: acc in
      if n <? 10 then acc' else digits fuel' (n / 10) acc'
  end.

(** Twenty digits hold every 64-bit magnitude. *)
Definition decimal (n : Z) : list byte := digits 20 n [].

(** The text of [value], or [None] for [std::errc::value_too_large]. *)
Definition to_chars (buffer_size : Z) (value : Z) : option (list byte) :=
  let text := if value <? 0 then 45 :: decimal (- value) else decimal value in
  if buffer_size <? zlen text then None else Some text.

(** ** Reading the text back *)

Fixpoint undigits (bs : list byte) (acc : Z) : option Z :=
  match bs with
  | [] => Some acc
  | b :: bs' => if (48 <=? b) && (b <=? 57) then undigits bs' (acc * 10 + (b - 48)) else None
  end.

Definition parse_decimal (bs : list byte) : option Z :=
  match bs with
  | [] => None
  | b :: bs' =>
      if b =? 45 then match bs' with [] => None | _ => Z.opp <$> undigits bs' 0 end
      else undigits bs 0
  end.

(** ** Lemmas *)

Definition digit_ok (b : byte) : Prop := 48 <= b <= 57.

Lemma digits_app fuel n acc : digits fuel n acc = digits fuel n [] ++ acc.
Proof.
  revert n acc. induction fuel as [|fuel IH]; intros n acc; simpl; [done|].
  destruct (n <? 10); [done|]. rewrite IH, (IH (n / 10) [_]), <- app_assoc. done.
Qed.

Lemma undigits_app a b acc :
  undigits (a ++ b) acc = match undigits a acc with Some v => undigits b v | None => None end.
Proof.
  revert acc. induction a as [|x a IH]; intros acc; simpl; [done|].
  destruct ((48 <=? x) && (x <=? 57)); [|done]. apply IH.
Qed.

Lemma digits_spec fuel k n :
  (0 < k <= fuel)%nat -> 0 <= n < 10 ^ Z.of_nat k ->
  undigits (digits fuel n []) 0 = Some n /\ Forall digit_ok (digits fuel n [])
  /\ (1 <= length (digits fuel n []) <= k)%nat.
Proof.
  revert k n. induction fuel as [|fuel IH]; intros k n Hf Hn; [lia|].
  pose proof (Z.mod_pos_bound n 10 ltac:(lia)) as Hm.
  assert (forall acc, undigits [digit (n mod 10)] acc = Some (acc * 10 + n mod 10)) as Hlast.
  { intros acc. unfold digit. cbn [undigits].
    destruct (Z.leb_spec 48 (48 + n mod 10)), (Z.leb_spec (48 + n mod 10) 57); try lia.
    cbn [andb]. f_equal. lia. }
  assert (digit_ok (digit (n mod 10))) as Hd by (unfold digit_ok, digit; lia).
  cbn [digits]. destruct (Z.ltb_spec n 10).
  - rewrite Hlast, Z.mod_small by lia. split_and!; [f_equal; lia| |simpl; lia..].
    constructor; [|constructor]. unfold digit_ok, digit. lia.
  - destruct k as [|[|k]]; [lia|simpl in Hn; lia|].
    rewrite Nat2Z.inj_succ, Z.pow_succ_r in Hn by lia.
    destruct (IH (S k) (n / 10)) as (Hu & Hall & Hlen); [lia| |].
    { split; [apply Z.div_pos; lia|apply Z.div_lt_upper_bound; lia]. }
    rewrite digits_app, undigits_app, Hu, Hlast, length_app. simpl.
    pose proof (Z.div_mod n 10 ltac:(lia)).
    split_and!; [f_equal; lia| |lia..]. apply Forall_app. split; [done|by constructor].
Qed.

Lemma parse_digits bs n :
  undigits bs 0 = Some n -> Forall digit_ok bs -> (1 <= length bs)%nat ->
  parse_decimal bs = Some n /\ parse_decimal (45 :: bs) = Some (- n).
Proof.
  intros Hu Hall Hlen. destruct bs as [|b bs]; [simpl in Hlen; lia|].
  inversion_clear Hall as [|? ? Hb _]. unfold digit_ok in Hb. split.
  - unfold parse_decimal. destruct (Z.eqb_spec b 45); [lia|done].
  - unfold parse_decimal. by rewrite Hu.
Qed.

(** Any 64-bit integer, signed or unsigned, fits 20 bytes and reads back. *)
Lemma to_chars_spec size v :
  20 <= size -> - 2 ^ 63 <= v < 2 ^ 64 ->
  exists text, to_chars size v = Some text /\ parse_decimal text = Some v
    /\ 1 <= zlen text <= 20 /\ Forall (fun b => 45 <= b <= 57) text.
Proof.
  intros Hs Hv. unfold to_chars, decimal, zlen.
  assert (forall bs, Forall digit_ok bs -> Forall (fun b => 45 <= b <= 57) bs) as Hw.
  { intros bs. apply Forall_impl. unfold digit_ok. lia. }
  destruct (Z.ltb_spec v 0).
  - destruct (digits_spec 20 19 (- v)) as (Hu & Hall & Hlen); [lia|lia|].
    destruct (parse_digits _ _ Hu Hall) as [_ Hp]; [lia|]. rewrite Z.opp_involutive in Hp.
    exists (45 :: digits 20 (- v) []). cbn [length].
    destruct (Z.ltb_spec size (Z.of_nat (S (length (digits 20 (- v) []))))); [lia|].
    split_and!; [done|done|lia|lia|]. constructor; [lia|by apply Hw].
  - destruct (digits_spec 20 20 v) as (Hu & Hall & Hlen); [lia|lia|].
    destruct (parse_digits _ _ Hu Hall) as [Hp _]; [lia|].
    exists (digits 20 v []).
    destruct (Z.ltb_spec size (Z.of_nat (length (digits 20 v [])))); [lia|].
    split_and!; [done|done|lia|lia|by apply Hw].
Qed.
