(* ===== verification/RecordLayout.v ===== *)
(** * Serialized objects ([src/producer/record_storage.hpp])

    The header and field metadata of a serialized record as bytes.  [Object] is
    the interface the storage code uses through [WriteObject] and [ReadObject]
    ([memcpy] of a trivially copyable struct): an encoding of fixed size that
    decodes back.  The struct layout is the natural one on a little-endian target
    (no padding: the sizes are asserted in the source); the code only observes the
    round trip. *)
From S2P Require Import Prelude.

Definition kSerializedRecordMetadataBytes : Z := 56.
Definition kSerializedFieldMetadataBytes : Z := 24.

Record SerializedRecordHeader := {
  event_timestamp : Z;
  source_path_offset : Z;
  source_path_size : Z;
  source_function_offset : Z;
  source_function_size : Z;
  message_offset : Z;
  message_size : Z;
  source_line : Z;
  source_column : Z;
  first_field_offset : Z;
  field_count : Z;
  flags : Z;
  level : Z;
  reserved : list byte;
}.

#[export] Instance SerializedRecordHeader_eta : Eta SerializedRecordHeader := fun h =>
  {| event_timestamp := event_timestamp h; source_path_offset := source_path_offset h;
     source_path_size := source_path_size h; source_function_offset := source_function_offset h;
     source_function_size := source_function_size h; message_offset := message_offset h;
     message_size := message_size h; source_line := source_line h;
     source_column := source_column h; first_field_offset := first_field_offset h;
     field_count := field_count h; flags := flags h; level := level h; reserved := reserved h |}.

Record SerializedField := {
  next_offset : Z;
  key_offset : Z;
  key_size : Z;
  value_low : Z;
  value_high : Z;
  kind : Z;
  field_flags : Z;
  field_reserved : Z;
}.

#[export] Instance SerializedField_eta : Eta SerializedField := fun f =>
  {| next_offset := next_offset f; key_offset := key_offset f; key_size := key_size f;
     value_low := value_low f; value_high := value_high f; kind := kind f;
     field_flags := field_flags f; field_reserved := field_reserved f |}.

(** ** The interface of stored objects *)

Class Object (V : Type) := {
  object_size : Z;
  encode : V -> list byte;
  decode : list byte -> V;
}.
Arguments object_size V {_}.

Class ObjectLaws (V : Type) `{Object V} (ok : V -> Prop) := {
  object_size_pos : 0 < object_size V;
  zlen_encode : forall v, ok v -> zlen (encode v) = object_size V;
  decode_encode : forall v, ok v -> decode (encode v) = v;
}.

Definition WriteObject {V} `{Object V} (offset : Z) (value : V) (storage : list byte)
    : list byte := blit offset (encode value) storage.

Definition ReadObject (V : Type) `{Object V} (storage : list byte) (offset : Z) : V :=
  decode (slice offset (object_size V) storage).

Section Laws.
Context {V : Type} {HO : Object V} {ok : V -> Prop} {HL : ObjectLaws V ok}.

Lemma ReadObject_slice mem off v :
  ok v -> slice off (object_size V) mem = encode v -> ReadObject V mem off = v.
Proof. intros Hv Hs. unfold ReadObject. rewrite Hs. by apply decode_encode. Qed.

Lemma ReadObject_WriteObject mem off v :
  ok v -> 0 <= off -> off + object_size V <= zlen mem ->
  ReadObject V (WriteObject off v mem) off = v.
Proof.
  intros Hv Ho Hl. apply ReadObject_slice; [done|].
  rewrite <- (zlen_encode v Hv) in *. by apply slice_blit_same.
Qed.
End Laws.

(** ** The two instances *)

#[export] Instance Header_object : Object SerializedRecordHeader := {|
  object_size := kSerializedRecordMetadataBytes;
  encode h :=
    le_bytes 8 (of_s64 (event_timestamp h))
    ++ le_bytes 4 (source_path_offset h) ++ le_bytes 4 (source_path_size h)
    ++ le_bytes 4 (source_function_offset h) ++ le_bytes 4 (source_function_size h)
    ++ le_bytes 4 (message_offset h) ++ le_bytes 4 (message_size h)
    ++ le_bytes 4 (source_line h) ++ le_bytes 4 (source_column h)
    ++ le_bytes 4 (first_field_offset h) ++ le_bytes 4 (field_count h)
    ++ le_bytes 4 (flags h) ++ le_bytes 1 (level h) ++ reserved h;
  decode bs :=
    let u32 (off : Z) := le_value (slice off 4 bs) in
    {| event_timestamp := to_s64 (le_value (slice 0 8 bs));
       source_path_offset := u32 8; source_path_size := u32 12;
       source_function_offset := u32 16; source_function_size := u32 20;
       message_offset := u32 24; message_size := u32 28;
       source_line := u32 32; source_column := u32 36;
       first_field_offset := u32 40; field_count := u32 44; flags := u32 48;
       level := le_value (slice 52 1 bs); reserved := slice 53 3 bs |};
|}.

#[export] Instance Field_object : Object SerializedField := {|
  object_size := kSerializedFieldMetadataBytes;
  encode f :=
    le_bytes 4 (next_offset f) ++ le_bytes 4 (key_offset f) ++ le_bytes 4 (key_size f)
    ++ le_bytes 4 (value_low f) ++ le_bytes 4 (value_high f) ++ le_bytes 1 (kind f)
    ++ le_bytes 1 (field_flags f) ++ le_bytes 2 (field_reserved f);
  decode bs :=
    let u32 (off : Z) := le_value (slice off 4 bs) in
    {| next_offset := u32 0; key_offset := u32 4; key_size := u32 8; value_low := u32 12;
       value_high := u32 16; kind := le_value (slice 20 1 bs);
       field_flags := le_value (slice 21 1 bs); field_reserved := le_value (slice 22 2 bs) |};
|}.

Definition is_u32 (x : Z) : Prop := 0 <= x < 2 ^ 32.
Definition is_s64 (x : Z) : Prop := - 2 ^ 63 <= x < 2 ^ 63.

Record header_ok (h : SerializedRecordHeader) : Prop := {
  ho_timestamp : is_s64 (event_timestamp h);
  ho_path_offset : is_u32 (source_path_offset h);
  ho_path_size : is_u32 (source_path_size h);
  ho_function_offset : is_u32 (source_function_offset h);
  ho_function_size : is_u32 (source_function_size h);
  ho_message_offset : is_u32 (message_offset h);
  ho_message_size : is_u32 (message_size h);
  ho_line : is_u32 (source_line h);
  ho_column : is_u32 (source_column h);
  ho_first : is_u32 (first_field_offset h);
  ho_count : is_u32 (field_count h);
  ho_flags : is_u32 (flags h);
  ho_level : 0 <= level h < 256;
  ho_reserved : length (reserved h) = 3%nat;
}.

Record field_ok (f : SerializedField) : Prop := {
  fo_next : is_u32 (next_offset f);
  fo_key_offset : is_u32 (key_offset f);
  fo_key_size : is_u32 (key_size f);
  fo_low : is_u32 (value_low f);
  fo_high : is_u32 (value_high f);
  fo_kind : 0 <= kind f < 256;
  fo_flags : 0 <= field_flags f < 256;
  fo_reserved : 0 <= field_reserved f < 2 ^ 16;
}.

#[export] Instance Header_laws : ObjectLaws SerializedRecordHeader header_ok.
Proof.
  split; [done|..]; intros [t a b c d e f g i j k l v r] Hok; destruct Hok; simpl in *;
    destruct r as [|r0 [|r1 [|r2 [|]]]]; try done.
  match goal with |- ?x = _ => change x with
    {| event_timestamp := to_s64 (le_value (le_bytes 8 (of_s64 t)));
       source_path_offset := le_value (le_bytes 4 a); source_path_size := le_value (le_bytes 4 b);
       source_function_offset := le_value (le_bytes 4 c);
       source_function_size := le_value (le_bytes 4 d);
       message_offset := le_value (le_bytes 4 e); message_size := le_value (le_bytes 4 f);
       source_line := le_value (le_bytes 4 g); source_column := le_value (le_bytes 4 i);
       first_field_offset := le_value (le_bytes 4 j); field_count := le_value (le_bytes 4 k);
       flags := le_value (le_bytes 4 l); level := le_value (le_bytes 1 v);
       reserved := [r0; r1; r2] |} end.
  unfold is_u32, is_s64 in *. rewrite !le_value_le_bytes by (first [done|apply w64_range]).
  by rewrite to_of_s64.
Qed.

#[export] Instance Field_laws : ObjectLaws SerializedField field_ok.
Proof.
  split; [done|..]; intros [a b c d e f g h] Hok; destruct Hok; simpl in *; [done|].
  match goal with |- ?x = _ => change x with
    {| next_offset := le_value (le_bytes 4 a); key_offset := le_value (le_bytes 4 b);
       key_size := le_value (le_bytes 4 c); value_low := le_value (le_bytes 4 d);
       value_high := le_value (le_bytes 4 e); kind := le_value (le_bytes 1 f);
       field_flags := le_value (le_bytes 1 g); field_reserved := le_value (le_bytes 2 h) |} end.
  unfold is_u32 in *. by rewrite !le_value_le_bytes.
Qed.
