(* ===== verification/RecordStorage.v ===== *)
(** * Record storage ([src/producer/record_storage.cpp], [.hpp])

    One serialized record in a fixed slot of bytes: the message grows from the
    front, fields are linked backwards from the end, and the header is completed by
    [Publish].  A [RecordWriter] and the [RecordSlot] it points to are passed
    together; a null [slot_] is [false].  The views that read a published record
    are the last definitions of the first part.  [Draft] is what a record means,
    and [represents] relates the bytes to it. *)
From S2P Require Import Prelude KernelTypes Charconv Utf8 RecordLayout.

(** ** Data *)

Definition kTruncatedFieldKey : list byte :=
  (* "ulog.truncated" *)
  [117; 108; 111; 103; 46; 116; 114; 117; 110; 99; 97; 116; 101; 100].

Inductive State := kReset | kBuilding | kPublished.

#[export] Instance State_eq_dec : EqDecision State.
Proof. solve_decision. Defined.

Record RecordSlot := { storage_ : list byte; state_ : State }.

#[export] Instance RecordSlot_eta : Eta RecordSlot := fun s =>
  {| storage_ := storage_ s; state_ := state_ s |}.

Definition initial_slot : RecordSlot :=
  {| storage_ := replicate (Z.to_nat kMaximumRecordBytes) 0; state_ := kReset |}.

Record RecordWriter := {
  slot_ : bool;
  front_end_ : Z;
  field_tail_ : Z;
  message_offset_ : Z;
  message_size_ : Z;
  requested_message_bytes_ : Z;
  source_payload_bytes_ : Z;
  field_payload_bytes_ : Z;
  field_count_ : Z;
  first_field_offset_ : Z;
  last_field_offset_ : Z;
}.

#[export] Instance RecordWriter_eta : Eta RecordWriter := fun w =>
  {| slot_ := slot_ w; front_end_ := front_end_ w; field_tail_ := field_tail_ w;
     message_offset_ := message_offset_ w; message_size_ := message_size_ w;
     requested_message_bytes_ := requested_message_bytes_ w;
     source_payload_bytes_ := source_payload_bytes_ w;
     field_payload_bytes_ := field_payload_bytes_ w; field_count_ := field_count_ w;
     first_field_offset_ := first_field_offset_ w; last_field_offset_ := last_field_offset_ w |}.

(** [RecordWriter() noexcept = default]. *)
Definition null_writer : RecordWriter :=
  {| slot_ := false; front_end_ := 0; field_tail_ := 0; message_offset_ := 0; message_size_ := 0;
     requested_message_bytes_ := 0; source_payload_bytes_ := 0; field_payload_bytes_ := 0;
     field_count_ := 0; first_field_offset_ := 0; last_field_offset_ := 0 |}.

Record InitialState := {
  is_serialized_limit : Z;
  is_message_offset : Z;
  is_source_payload_bytes : Z;
}.

(** [storage] is null exactly when no record was stored. *)
Record StoredRecord := {
  sr_storage : bool;
  sr_serialized_bytes : Z;
  sr_accounting_charge_bytes : Z;
  sr_truncated : bool;
}.

Definition no_record : StoredRecord :=
  {| sr_storage := false; sr_serialized_bytes := 0; sr_accounting_charge_bytes := 0;
     sr_truncated := false |}.

Definition SaturatingAdd (value increment : Z) : Z :=
  let converted := w64 increment in
  if u64_max - value <? converted then u64_max else value +w converted.

(** ** Slots *)

Definition Reset (s : RecordSlot) : RecordSlot := s <| state_ := kReset |>.

(** [RecordWriter(RecordSlot&, InitialState)]. *)
Definition MakeRecordWriter (initial_state : InitialState) : RecordWriter :=
  null_writer <| slot_ := true |>
    <| front_end_ := is_message_offset initial_state |>
    <| field_tail_ := is_serialized_limit initial_state |>
    <| message_offset_ := is_message_offset initial_state |>
    <| source_payload_bytes_ := is_source_payload_bytes initial_state |>.

Definition Begin (serialized_limit : Z) (level : Level) (source : SourceLocation)
    (timestamp : Z) (s : RecordSlot) : RecordWriter * RecordSlot :=
  let level_value := w8 level in
  let source_path := file_name_ source in
  let source_function := function_name_ source in
  if negb (bool_decide (state_ s = kReset))
     || (serialized_limit <? kSerializedRecordMetadataBytes)
     || (kMaximumRecordBytes <? serialized_limit)
     || (w8 kNone <=? level_value)
     || (u32_max <? zlen source_path)
     || (u32_max <? zlen source_function)
     || (u32_max <? line_ source)
     || (u32_max <? column_ source)
     || (serialized_limit -w kSerializedRecordMetadataBytes <? zlen source_path)
     || (serialized_limit -w kSerializedRecordMetadataBytes -w zlen source_path
           <? zlen source_function)
  then (null_writer, s)
  else
    let path_offset := kSerializedRecordMetadataBytes in
    let function_offset := path_offset +w zlen source_path in
    let text_offset := function_offset +w zlen source_function in
    let header :=
      {| event_timestamp := timestamp;
         source_path_offset := w32 path_offset;
         source_path_size := w32 (zlen source_path);
         source_function_offset := w32 function_offset;
         source_function_size := w32 (zlen source_function);
         message_offset := w32 text_offset;
         message_size := 0;
         source_line := w32 (line_ source);
         source_column := w32 (column_ source);
         first_field_offset := 0; field_count := 0; flags := 0;
         level := level_value;
         reserved := [0; 0; 0] |} in
    let mem := WriteObject 0 header (storage_ s) in
    let mem := match source_path with [] => mem | _ => blit path_offset source_path mem end in
    let mem :=
      match source_function with [] => mem | _ => blit function_offset source_function mem end in
    (MakeRecordWriter
       {| is_serialized_limit := serialized_limit; is_message_offset := text_offset;
          is_source_payload_bytes := zlen source_path +w zlen source_function |},
     {| storage_ := mem; state_ := kBuilding |}).

(** ** Writers *)

(** The slot is reset and the pointer dropped; nothing happens to a null writer. *)
Definition Abandon (w : RecordWriter) (s : RecordSlot) : RecordWriter * RecordSlot :=
  if slot_ w then (w <| slot_ := false |>, Reset s) else (w, s).

(** [MoveFrom(other)]: the new value of the target, and of [other]. *)
Definition MoveFrom (other : RecordWriter) : RecordWriter * RecordWriter :=
  (other, other <| slot_ := false |>).

Definition AppendBytes (value : list byte) (w : RecordWriter) (s : RecordSlot)
    : WriteResult * RecordWriter * RecordSlot :=
  let w := w <| requested_message_bytes_ ::= fun r => SaturatingAdd r (zlen value) |> in
  if negb (slot_ w) then
    ({| requested_bytes := zlen value; stored_bytes := 0;
        truncated := negb (zlen value =? 0) |}, w, s)
  else
    let stored := Z.min (zlen value) (field_tail_ w -w front_end_ w) in
    let s :=
      if stored =? 0 then s
      else s <| storage_ ::= blit (front_end_ w) (take (Z.to_nat stored) value) |> in
    let w := w <| front_end_ ::= fun e => e +w stored |>
               <| message_size_ ::= fun n => n +w stored |> in
    ({| requested_bytes := zlen value; stored_bytes := stored;
        truncated := negb (stored =? zlen value) |}, w, s).

Definition failed_write : WriteResult :=
  {| requested_bytes := 0; stored_bytes := 0; truncated := true |}.

(** [AppendNumber<Value>], whose buffer has [digits10 + 3] characters. *)
Definition AppendNumber (digits10 : Z) (value : Z) (w : RecordWriter) (s : RecordSlot)
    : WriteResult * RecordWriter * RecordSlot :=
  match to_chars (digits10 + 3) value with
  | None => (failed_write, w, s)
  | Some text => AppendBytes text w s
  end.

Definition AppendInt64 := AppendNumber 18.
Definition AppendUInt64 := AppendNumber 19.

Definition AppendBool (value : bool) : RecordWriter -> RecordSlot -> _ :=
  AppendBytes (if value then [116; 114; 117; 101] else [102; 97; 108; 115; 101]).

(** [std::to_chars] of a double in the general format, into 64 characters, is the
    parameter [general_to_chars], applied to the value's bits. *)
Definition AppendDouble (general_to_chars : Z -> option (list byte)) (bits : Z)
    (w : RecordWriter) (s : RecordSlot) : WriteResult * RecordWriter * RecordSlot :=
  match general_to_chars bits with
  | None => (failed_write, w, s)
  | Some text => AppendBytes text w s
  end.

(** The first test of [AddFieldBytes]. *)
Definition FieldRejected (key value : list byte) (w : RecordWriter) : bool :=
  negb (slot_ w)
  || (field_count_ w =? u32_max)
  || (u32_max <? zlen key)
  || (u32_max <? zlen value)
  || (size_max -w kSerializedFieldMetadataBytes <? zlen key)
  || (size_max -w kSerializedFieldMetadataBytes -w zlen key <? zlen value).

(** The [SerializedField] of a new field. *)
Definition NewFieldMetadata (key_off value_offset : Z) (key : list byte) (field_kind : FieldKind)
    (value : list byte) (scalar_bits : Z) (bool_value : bool) : SerializedField :=
  {| next_offset := 0;
     key_offset := key_off;
     key_size := w32 (zlen key);
     value_low := match value with [] => w32 scalar_bits | _ => value_offset end;
     value_high := match value with
                   | [] => w32 (Z.shiftr scalar_bits 32)
                   | _ => w32 (zlen value)
                   end;
     kind := FieldKind_value field_kind;
     field_flags := if bool_value then 1 else 0;
     field_reserved := 0 |}.

(** The [memcpy]s of a new field: its key, its value, its metadata. *)
Definition WriteNewField (field_off key_off value_offset : Z) (key value : list byte)
    (field : SerializedField) (mem : list byte) : list byte :=
  let mem := match key with [] => mem | _ => blit key_off key mem end in
  let mem := match value with [] => mem | _ => blit value_offset value mem end in
  WriteObject field_off field mem.

(** [if (last_field_offset_ == 0U) ... else ...]: the list's head, or the link of
    its last element, is set to the new field. *)
Definition LinkField (field_off : Z) (w : RecordWriter) (mem : list byte)
    : RecordWriter * list byte :=
  if last_field_offset_ w =? 0 then (w <| first_field_offset_ := field_off |>, mem)
  else
    let previous := ReadObject SerializedField mem (last_field_offset_ w) in
    let previous := previous <| next_offset := field_off |> in
    (w, WriteObject (last_field_offset_ w) previous mem).

Definition AddFieldBytes (key : list byte) (field_kind : FieldKind) (value : list byte)
    (scalar_bits : Z) (bool_value : bool) (w : RecordWriter) (s : RecordSlot)
    : bool * RecordWriter * RecordSlot :=
  if FieldRejected key value w then (false, w, s)
  else
    let field_size := kSerializedFieldMetadataBytes +w zlen key +w zlen value in
    if field_tail_ w -w front_end_ w <? field_size then (false, w, s)
    else
      let tail := field_tail_ w -w field_size in
      let field_off := w32 tail in
      let key_off := w32 (tail + kSerializedFieldMetadataBytes) in
      let value_offset := w32 (key_off + zlen key) in
      let field :=
        NewFieldMetadata key_off value_offset key field_kind value scalar_bits bool_value in
      let mem := WriteNewField field_off key_off value_offset key value field (storage_ s) in
      let '(w, mem) := LinkField field_off (w <| field_tail_ := tail |>) mem in
      (true,
       w <| last_field_offset_ := field_off |>
         <| field_count_ ::= fun c => w32 (c + 1) |>
         <| field_payload_bytes_ ::= fun b => b +w (zlen key +w zlen value) |>,
       s <| storage_ := mem |>).

Definition AddScalarField (key : list byte) (field_kind : FieldKind) (bits : Z)
    : RecordWriter -> RecordSlot -> bool * RecordWriter * RecordSlot :=
  AddFieldBytes key field_kind [] bits false.

(** The overloads of [AddField]; a double is its bit pattern. *)
Definition AddFieldString (key value : list byte) := AddFieldBytes key kString value 0 false.
Definition AddFieldInt64 (key : list byte) (value : Z) := AddScalarField key kInt64 (of_s64 value).
Definition AddFieldUInt64 (key : list byte) (value : Z) := AddScalarField key kUInt64 value.
Definition AddFieldDouble (key : list byte) (bits : Z) := AddScalarField key kDouble bits.
Definition AddFieldBool (key : list byte) (value : bool) := AddFieldBytes key kBool [] 0 value.
Definition AddFieldNull (key : list byte) := AddFieldBytes key kNull [] 0 false.

(** The bytes of the message so far. *)
Definition message_bytes (w : RecordWriter) (s : RecordSlot) : list byte :=
  slice (message_offset_ w) (message_size_ w) (storage_ s).

Definition AddTruncatedField (w : RecordWriter) (s : RecordSlot)
    : bool * RecordWriter * RecordSlot :=
  let required := kSerializedFieldMetadataBytes + zlen kTruncatedFieldKey in
  let available := field_tail_ w -w front_end_ w in
  if available <? required then
    let reclaimed := required -w available in
    if message_size_ w <? reclaimed then (false, w, s)
    else
      let w := w <| message_size_ ::= fun n => n -w reclaimed |> in
      let w := w <| message_size_ := ValidUtf8PrefixLength (message_bytes w s) |> in
      let w := w <| front_end_ := message_offset_ w +w message_size_ w |> in
      AddFieldBool kTruncatedFieldKey true w s
  else AddFieldBool kTruncatedFieldKey true w s.

(** The part of [Publish] after the truncation marker: complete the header, then
    check the accounting. *)
Definition FinishPublish (was_truncated : bool) (w : RecordWriter) (s : RecordSlot)
    : StoredRecord * RecordWriter * RecordSlot :=
  let header := ReadObject SerializedRecordHeader (storage_ s) 0 in
  let header := header <| message_size := w32 (message_size_ w) |>
                       <| first_field_offset := first_field_offset_ w |>
                       <| field_count := field_count_ w |>
                       <| flags := if was_truncated then 1 else 0 |> in
  let s := s <| storage_ ::= WriteObject 0 header |> in
  let owned_payload_bytes :=
    source_payload_bytes_ w +w message_size_ w +w field_payload_bytes_ w in
  let metadata_bytes :=
    kSerializedRecordMetadataBytes +w w64 (field_count_ w * kSerializedFieldMetadataBytes) in
  let serialized_bytes := owned_payload_bytes +w metadata_bytes in
  let accounting_charge_bytes := AccountingCharge serialized_bytes in
  let serialized_limit :=
    field_tail_ w +w w64 (kSerializedFieldMetadataBytes * field_count_ w)
      +w field_payload_bytes_ w in
  if (serialized_limit <? serialized_bytes) || (accounting_charge_bytes =? 0)
     || (serialized_limit <? accounting_charge_bytes)
  then let '(w, s) := Abandon w s in (no_record, w, s)
  else
    ({| sr_storage := true; sr_serialized_bytes := serialized_bytes;
        sr_accounting_charge_bytes := accounting_charge_bytes;
        sr_truncated := was_truncated |},
     w <| slot_ := false |>, s <| state_ := kPublished |>).

Definition Publish (w : RecordWriter) (s : RecordSlot)
    : StoredRecord * RecordWriter * RecordSlot :=
  if negb (slot_ w) || negb (bool_decide (state_ s = kBuilding)) then (no_record, w, s)
  else
    let w := w <| message_size_ := ValidUtf8PrefixLength (message_bytes w s) |> in
    let w := w <| front_end_ := message_offset_ w +w message_size_ w |> in
    let was_truncated := negb (requested_message_bytes_ w =? message_size_ w) in
    if was_truncated then
      let '(added, w, s) := AddTruncatedField w s in
      if negb added then let '(w, s) := Abandon w s in (no_record, w, s)
      else FinishPublish was_truncated w s
    else FinishPublish was_truncated w s.

(** ** Reading a stored record

    The views hold a [const void*] to the slot's storage; [None] is null. *)

Definition empty_header : SerializedRecordHeader :=
  {| event_timestamp := 0; source_path_offset := 0; source_path_size := 0;
     source_function_offset := 0; source_function_size := 0; message_offset := 0;
     message_size := 0; source_line := 0; source_column := 0; first_field_offset := 0;
     field_count := 0; flags := 0; level := 0; reserved := [0; 0; 0] |}.

Definition empty_field : SerializedField :=
  {| next_offset := 0; key_offset := 0; key_size := 0; value_low := 0; value_high := 0;
     kind := 0; field_flags := 0; field_reserved := 0 |}.

Definition Header (storage : option (list byte)) : SerializedRecordHeader :=
  match storage with
  | Some mem => ReadObject SerializedRecordHeader mem 0
  | None => empty_header
  end.

Definition Field (storage : option (list byte)) (offset : Z) : SerializedField :=
  match storage with
  | Some mem => ReadObject SerializedField mem offset
  | None => empty_field
  end.

Definition Text (storage : option (list byte)) (offset size : Z) : list byte :=
  match storage with
  | Some mem => slice offset size mem
  | None => []
  end.

Record FieldView := { fv_storage_ : option (list byte); fv_offset_ : Z }.

Record FieldCursor := {
  fc_storage_ : option (list byte);
  fc_offset_ : Z;
  fc_remaining_ : Z;
}.

Record RecordView := {
  rv_storage_ : option (list byte);
  rv_serialized_bytes_ : Z;
  rv_accounting_charge_bytes_ : Z;
}.

Section FieldViews.
Context (v : FieldView).

Let field : SerializedField := Field (fv_storage_ v) (fv_offset_ v).

Definition key : list byte := Text (fv_storage_ v) (key_offset field) (key_size field).

(** The cast of any byte to [FieldKind] is the byte. *)
Definition view_kind : Z := kind field.

Definition scalar_bits : Z := Z.lor (value_low field) (Z.shiftl (value_high field) 32).

Definition AsString : option (list byte) :=
  if negb (kind field =? FieldKind_value kString) then None
  else Some (Text (fv_storage_ v) (value_low field) (value_high field)).

Definition AsInt64 : option Z :=
  if negb (kind field =? FieldKind_value kInt64) then None else Some (to_s64 scalar_bits).

Definition AsUInt64 : option Z :=
  if negb (kind field =? FieldKind_value kUInt64) then None else Some scalar_bits.

(** The bits of the double. *)
Definition AsDouble : option Z :=
  if negb (kind field =? FieldKind_value kDouble) then None else Some scalar_bits.

Definition AsBool : option bool :=
  if negb (kind field =? FieldKind_value kBool) then None
  else Some (negb (field_flags field =? 0)).

Definition IsNull : bool := view_kind =? FieldKind_value kNull.
End FieldViews.

Definition Next (c : FieldCursor) : option FieldView * FieldCursor :=
  match fc_storage_ c with
  | Some mem =>
      if (fc_remaining_ c =? 0) || (fc_offset_ c =? 0) then
        (None, {| fc_storage_ := fc_storage_ c; fc_offset_ := fc_offset_ c; fc_remaining_ := 0 |})
      else
        let current_offset := fc_offset_ c in
        (Some {| fv_storage_ := fc_storage_ c; fv_offset_ := current_offset |},
         {| fc_storage_ := fc_storage_ c;
            fc_offset_ := next_offset (Field (fc_storage_ c) current_offset);
            fc_remaining_ := w32 (fc_remaining_ c - 1) |})
  | None =>
      (None, {| fc_storage_ := fc_storage_ c; fc_offset_ := fc_offset_ c; fc_remaining_ := 0 |})
  end.

Section RecordViews.
Context (v : RecordView).

Let header : SerializedRecordHeader := Header (rv_storage_ v).

Definition view_level : Level := level header.
Definition view_event_timestamp : Z := event_timestamp header.
Definition source_path : list byte :=
  Text (rv_storage_ v) (source_path_offset header) (source_path_size header).
Definition source_function : list byte :=
  Text (rv_storage_ v) (source_function_offset header) (source_function_size header).
Definition view_source_line : Z := source_line header.
Definition view_source_column : Z := source_column header.
Definition message : list byte :=
  Text (rv_storage_ v) (message_offset header) (message_size header).
Definition view_truncated : bool := negb (Z.land (flags header) 1 =? 0).
Definition view_field_count : Z := field_count header.
Definition Fields : FieldCursor :=
  {| fc_storage_ := rv_storage_ v; fc_offset_ := first_field_offset header;
     fc_remaining_ := field_count header |}.

(** [for (current = 0; current < index; ++current) fields.Next();]. *)
Fixpoint SkipFields (n : nat) (c : FieldCursor) : FieldCursor :=
  match n with
  | O => c
  | S n' => SkipFields n' (Next c).2
  end.

Definition FieldAt (index : Z) : option FieldView :=
  let fields := Fields in
  if view_field_count <=? index then None
  else (Next (SkipFields (Z.to_nat index) fields)).1.
End RecordViews.

(** ** [RecordAppender]: the builder's handle on a writer, which may be null *)

Definition Appender : Type := option (RecordWriter * RecordSlot).

Definition appender_write (f : RecordWriter -> RecordSlot -> WriteResult * RecordWriter * RecordSlot)
    (a : Appender) : WriteResult * Appender :=
  match a with
  | Some (w, s) => let '(r, w, s) := f w s in (r, Some (w, s))
  | None => (failed_write, None)
  end.

Definition AppenderAppend (value : list byte) (a : Appender) : WriteResult * Appender :=
  match a with
  | Some _ => appender_write (AppendBytes value) a
  | None =>
      ({| requested_bytes := zlen value; stored_bytes := 0;
          truncated := negb (zlen value =? 0) |}, None)
  end.

Definition AppenderAppendInt64 (value : Z) := appender_write (AppendInt64 value).
Definition AppenderAppendUInt64 (value : Z) := appender_write (AppendUInt64 value).
Definition AppenderAppendDouble general_to_chars (bits : Z) :=
  appender_write (AppendDouble general_to_chars bits).
Definition AppenderAppendBool (value : bool) := appender_write (AppendBool value).

Definition AppenderAddField (f : RecordWriter -> RecordSlot -> bool * RecordWriter * RecordSlot)
    (a : Appender) : bool * Appender :=
  match a with
  | Some (w, s) => let '(r, w, s) := f w s in (r, Some (w, s))
  | None => (false, None)
  end.

(** [FormatOutputIterator::operator=(char)]. *)
Definition AssignChar (value : byte) (a : Appender) : Appender := (AppenderAppend [value] a).2.

(** ** What a record means *)

Inductive FieldValue :=
| VString (bytes : list byte)
| VInt64 (v : Z)
| VUInt64 (v : Z)
| VDouble (bits : Z)
| VBool (b : bool)
| VNull.

Record DraftField := { df_key : list byte; df_value : FieldValue }.

Definition value_kind (v : FieldValue) : FieldKind :=
  match v with
  | VString _ => kString | VInt64 _ => kInt64 | VUInt64 _ => kUInt64 | VDouble _ => kDouble
  | VBool _ => kBool | VNull => kNull
  end.

Definition value_bytes (v : FieldValue) : list byte :=
  match v with VString bs => bs | _ => [] end.

Definition value_bits (v : FieldValue) : Z :=
  match v with VInt64 z => of_s64 z | VUInt64 z | VDouble z => z | _ => 0 end.

Definition value_flag (v : FieldValue) : bool := match v with VBool b => b | _ => false end.

Definition field_size (f : DraftField) : Z :=
  kSerializedFieldMetadataBytes + zlen (df_key f) + zlen (value_bytes (df_value f)).

Record Draft := {
  d_limit : Z;
  d_level : Level;
  d_timestamp : Z;
  d_source : SourceLocation;
  d_message : list byte;
  d_requested : Z;
  d_fields : list DraftField;
}.

#[export] Instance Draft_eta : Eta Draft := fun d =>
  {| d_limit := d_limit d; d_level := d_level d; d_timestamp := d_timestamp d;
     d_source := d_source d; d_message := d_message d; d_requested := d_requested d;
     d_fields := d_fields d |}.

(** Bytes before the message, bytes of the whole record, bytes still free. *)
Definition d_front (d : Draft) : Z :=
  kSerializedRecordMetadataBytes + zlen (file_name_ (d_source d))
  + zlen (function_name_ (d_source d)).
Definition d_size (d : Draft) : Z :=
  d_front d + zlen (d_message d) + sumZ field_size (d_fields d).
Definition d_room (d : Draft) : Z := d_limit d - d_size d.

(** The operations of a record builder. *)
Inductive build_op :=
| op_text (text : list byte)
| op_int64 (v : Z)
| op_uint64 (v : Z)
| op_double (bits : Z)
| op_bool (b : bool)
| op_field (f : DraftField).

Definition draft_append (text : list byte) (d : Draft) : Draft :=
  d <| d_message ::= fun m => m ++ take (Z.to_nat (d_room d)) text |>
    <| d_requested ::= fun r => SaturatingAdd r (zlen text) |>.

Definition add_field (f : DraftField) (d : Draft) : Draft :=
  d <| d_fields ::= fun fs => fs ++ [f] |>.

Definition draft_add (f : DraftField) (d : Draft) : option Draft :=
  if field_size f <=? d_room d then Some (add_field f d) else None.

Definition truncated_field : DraftField := {| df_key := kTruncatedFieldKey; df_value := VBool true |}.

Definition cut_utf8 (bs : list byte) : list byte := take (Z.to_nat (ValidUtf8PrefixLength bs)) bs.

(** Make room for the truncation field by dropping the end of the message. *)
Definition draft_truncate (d : Draft) : option Draft :=
  if d_room d <? field_size truncated_field then
    let reclaimed := field_size truncated_field - d_room d in
    if zlen (d_message d) <? reclaimed then None
    else
      let keep := zlen (d_message d) - reclaimed in
      draft_add truncated_field (d <| d_message ::= fun m => cut_utf8 (take (Z.to_nat keep) m) |>)
  else draft_add truncated_field d.

Definition draft_chargeable (d : Draft) : bool := AccountingCharge (d_size d) <=? d_limit d.

Definition draft_publish (d : Draft) : option (Draft * bool) :=
  let d := d <| d_message ::= cut_utf8 |> in
  if d_requested d =? zlen (d_message d) then
    if draft_chargeable d then Some (d, false) else None
  else
    match draft_truncate d with
    | None => None
    | Some d => if draft_chargeable d then Some (d, true) else None
    end.

(** ** The bytes of a draft *)

(** The metadata of field [f] stored at [off]. *)
Definition field_meta (f : DraftField) (off next : Z) : SerializedField :=
  let value := value_bytes (df_value f) in
  {| next_offset := next;
     key_offset := off + kSerializedFieldMetadataBytes;
     key_size := zlen (df_key f);
     value_low := match value with
                  | [] => w32 (value_bits (df_value f))
                  | _ => off + kSerializedFieldMetadataBytes + zlen (df_key f)
                  end;
     value_high := match value with
                   | [] => w32 (Z.shiftr (value_bits (df_value f)) 32)
                   | _ => zlen value
                   end;
     kind := FieldKind_value (value_kind (df_value f));
     field_flags := if value_flag (df_value f) then 1 else 0;
     field_reserved := 0 |}.

Definition field_bytes (f : DraftField) (off next : Z) : list byte :=
  encode (field_meta f off next) ++ df_key f ++ value_bytes (df_value f).

(** Field [i] lies below the fields before it, and links to the one after it. *)
Definition field_offset (d : Draft) (i : nat) : Z :=
  d_limit d - sumZ field_size (take (S i) (d_fields d)).

Definition field_next (d : Draft) (i : nat) : Z :=
  if decide (S i < length (d_fields d))%nat then field_offset d (S i) else 0.

Definition first_offset (d : Draft) : Z :=
  match d_fields d with [] => 0 | _ => field_offset d 0 end.

Definition last_offset (d : Draft) : Z :=
  match d_fields d with [] => 0 | _ => field_offset d (length (d_fields d) - 1) end.

Definition draft_header (d : Draft) (size first count : Z) (flag : bool)
    : SerializedRecordHeader :=
  let path := file_name_ (d_source d) in
  let function := function_name_ (d_source d) in
  {| event_timestamp := d_timestamp d;
     source_path_offset := kSerializedRecordMetadataBytes;
     source_path_size := zlen path;
     source_function_offset := kSerializedRecordMetadataBytes + zlen path;
     source_function_size := zlen function;
     message_offset := d_front d;
     message_size := size;
     source_line := line_ (d_source d);
     source_column := column_ (d_source d);
     first_field_offset := first; field_count := count; flags := if flag then 1 else 0;
     level := d_level d;
     reserved := [0; 0; 0] |}.

Record draft_ok (d : Draft) : Prop := {
  do_limit : d_limit d <= kMaximumRecordBytes;
  do_room : 0 <= d_room d;
  do_level : 0 <= d_level d < kNone;
  do_timestamp : is_s64 (d_timestamp d);
  do_line : is_u32 (line_ (d_source d));
  do_column : is_u32 (column_ (d_source d));
  do_message : bytes_ok (d_message d);
  do_requested : 0 <= d_requested d <= u64_max;
}.

(** The parts of the storage that do not move while a record is built. *)
Record stored (mem : list byte) (d : Draft) (header : SerializedRecordHeader) : Prop := {
  st_length : zlen mem = kMaximumRecordBytes;
  st_header : slice 0 kSerializedRecordMetadataBytes mem = encode header;
  st_path : slice kSerializedRecordMetadataBytes (zlen (file_name_ (d_source d))) mem
    = file_name_ (d_source d);
  st_function : slice (kSerializedRecordMetadataBytes + zlen (file_name_ (d_source d)))
    (zlen (function_name_ (d_source d))) mem = function_name_ (d_source d);
  st_message : slice (d_front d) (zlen (d_message d)) mem = d_message d;
  st_fields : forall i f, d_fields d !! i = Some f ->
    slice (field_offset d i) (field_size f) mem
    = field_bytes f (field_offset d i) (field_next d i);
}.

(** The writer's cursors, as functions of the draft. *)
Record cursors (w : RecordWriter) (d : Draft) : Prop := {
  cu_slot : slot_ w = true;
  cu_front : front_end_ w = d_front d + zlen (d_message d);
  cu_tail : field_tail_ w = d_limit d - sumZ field_size (d_fields d);
  cu_message_offset : message_offset_ w = d_front d;
  cu_message_size : message_size_ w = zlen (d_message d);
  cu_requested : requested_message_bytes_ w = d_requested d;
  cu_source : source_payload_bytes_ w = d_front d - kSerializedRecordMetadataBytes;
  cu_payload : field_payload_bytes_ w
    = sumZ field_size (d_fields d) - kSerializedFieldMetadataBytes * zlen (d_fields d);
  cu_count : field_count_ w = zlen (d_fields d);
  cu_first : first_field_offset_ w = first_offset d;
  cu_last : last_field_offset_ w = last_offset d;
}.

Record represents (w : RecordWriter) (s : RecordSlot) (d : Draft) : Prop := {
  rp_state : state_ s = kBuilding;
  rp_draft : draft_ok d;
  rp_cursors : cursors w d;
  rp_stored : stored (storage_ s) d (draft_header d 0 0 0 false);
}.

(** Arithmetic that needs the layout constants. *)
Ltac layout_lia :=
  unfold kSerializedRecordMetadataBytes, kSerializedFieldMetadataBytes, kMaximumRecordBytes in *;
  lia.

(** ** Lemmas: sizes *)

Lemma field_size_min f : kSerializedFieldMetadataBytes <= field_size f.
Proof.
  unfold field_size. pose proof (zlen_nonneg (df_key f)).
  pose proof (zlen_nonneg (value_bytes (df_value f))). lia.
Qed.

Lemma field_size_pos f : 0 < field_size f.
Proof. pose proof (field_size_min f). unfold kSerializedFieldMetadataBytes in *. lia. Qed.

Lemma fields_size fs : kSerializedFieldMetadataBytes * zlen fs <= sumZ field_size fs.
Proof.
  induction fs as [|f fs IH]; [done|]. pose proof (field_size_min f).
  unfold zlen in *. simpl sumZ. cbn [length]. lia.
Qed.

Lemma field_sizes_take fs i : 0 <= sumZ field_size (take i fs) <= sumZ field_size fs.
Proof.
  assert (forall l, 0 <= sumZ field_size l) as Hn.
  { intros l. apply sumZ_nonneg. intros f _. pose proof (field_size_pos f). lia. }
  rewrite <- (take_drop i fs) at 3. rewrite sumZ_app.
  pose proof (Hn (take i fs)). pose proof (Hn (drop i fs)). lia.
Qed.

Lemma field_offset_S d i f :
  d_fields d !! i = Some f ->
  field_offset d i + field_size f = d_limit d - sumZ field_size (take i (d_fields d)).
Proof.
  intros Hi. unfold field_offset. rewrite (take_S_r _ _ _ Hi), sumZ_app. simpl. lia.
Qed.

Lemma field_offset_next d i f g :
  d_fields d !! i = Some f -> d_fields d !! S i = Some g ->
  field_offset d (S i) + field_size g = field_offset d i.
Proof. intros _ Hg. by rewrite (field_offset_S _ _ _ Hg). Qed.

Lemma d_front_bounds d : kSerializedRecordMetadataBytes <= d_front d.
Proof.
  unfold d_front. pose proof (zlen_nonneg (file_name_ (d_source d))).
  pose proof (zlen_nonneg (function_name_ (d_source d))). lia.
Qed.

(** Everything lies inside the slot, the message below the fields. *)
Lemma draft_bounds d :
  draft_ok d ->
  kSerializedRecordMetadataBytes <= d_front d
  /\ d_front d + zlen (d_message d) <= d_limit d - sumZ field_size (d_fields d)
  /\ 0 <= zlen (d_message d) /\ 0 <= sumZ field_size (d_fields d)
  /\ d_limit d <= kMaximumRecordBytes
  /\ kSerializedFieldMetadataBytes * zlen (d_fields d) <= sumZ field_size (d_fields d)
  /\ 0 <= zlen (d_fields d).
Proof.
  intros [Hl Hr _ _ _ _ _ _]. pose proof (d_front_bounds d). pose proof (fields_size (d_fields d)).
  pose proof (zlen_nonneg (d_message d)). pose proof (zlen_nonneg (d_fields d)).
  pose proof (field_sizes_take (d_fields d) 0). unfold d_room, d_size in Hr. lia.
Qed.

Lemma field_offset_bounds d i f :
  draft_ok d -> d_fields d !! i = Some f ->
  d_front d + zlen (d_message d) <= field_offset d i
  /\ field_offset d i + field_size f <= d_limit d.
Proof.
  intros Hd Hi. pose proof (draft_bounds d Hd). rewrite (field_offset_S _ _ _ Hi).
  unfold field_offset. pose proof (field_sizes_take (d_fields d) (S i)).
  pose proof (field_sizes_take (d_fields d) i). lia.
Qed.

(** Distinct fields occupy disjoint bytes. *)
Lemma field_offset_disjoint d i j f g :
  d_fields d !! i = Some f -> d_fields d !! j = Some g -> (i < j)%nat ->
  field_offset d j + field_size g <= field_offset d i.
Proof.
  intros Hf Hg Hij. rewrite (field_offset_S _ _ _ Hg). unfold field_offset.
  replace (take (S i) (d_fields d)) with (take (S i) (take j (d_fields d)))
    by (rewrite take_take; f_equal; lia).
  pose proof (field_sizes_take (take j (d_fields d)) (S i)). lia.
Qed.

Lemma field_meta_ok f off next :
  is_u32 next -> 0 <= off -> off + field_size f <= kMaximumRecordBytes ->
  field_ok (field_meta f off next).
Proof.
  intros Hn Ho Hs. unfold field_size, kSerializedFieldMetadataBytes, kMaximumRecordBytes in *.
  pose proof (zlen_nonneg (df_key f)). pose proof (zlen_nonneg (value_bytes (df_value f))).
  pose proof (w32_range (value_bits (df_value f))).
  pose proof (w32_range (Z.shiftr (value_bits (df_value f)) 32)).
  assert (0 <= FieldKind_value (value_kind (df_value f)) < 256) by (destruct (df_value f); simpl; lia).
  unfold is_u32 in *. unfold field_meta. unfold kSerializedFieldMetadataBytes.
  destruct (value_bytes (df_value f)) as [|b bs]; destruct (value_flag (df_value f));
    split; unfold is_u32; cbn [next_offset key_offset key_size value_low value_high kind field_flags
      field_reserved]; lia.
Qed.

Lemma zlen_field_bytes f off next :
  field_ok (field_meta f off next) -> zlen (field_bytes f off next) = field_size f.
Proof.
  intros Hok. unfold field_bytes, field_size. rewrite !zlen_app, (zlen_encode _ Hok).
  cbn. lia.
Qed.

(** ** Lemmas: appending to the message *)

Lemma SaturatingAdd_bounds a b : 0 <= a <= u64_max -> 0 <= SaturatingAdd a b <= u64_max.
Proof.
  intros Ha. unfold SaturatingAdd. pose proof (w64_range b). unfold u64_max in *.
  destruct (Z.ltb_spec (2 ^ 64 - 1 - a) (w64 b)); [lia|]. rewrite w64_small by lia. lia.
Qed.

(** A write between the message and the fields leaves the rest alone. *)
Lemma stored_append mem d h text :
  stored mem d h -> draft_ok d ->
  stored (blit (d_front d + zlen (d_message d)) (take (Z.to_nat (d_room d)) text) mem)
    (draft_append text d) h.
Proof.
  intros [Hlen Hh Hp Hf Hm Hfs] Hd. set (bs := take _ text).
  assert (zlen bs <= d_room d) as Hb.
  { unfold bs. rewrite zlen_take by apply (do_room _ Hd). lia. }
  pose proof (draft_bounds d Hd) as Hbd.
  pose proof (zlen_nonneg bs). pose proof (zlen_nonneg (file_name_ (d_source d))).
  pose proof (zlen_nonneg (function_name_ (d_source d))).
  assert (d_room d = d_limit d - sumZ field_size (d_fields d) - (d_front d + zlen (d_message d)))
    as Hroom by (unfold d_room, d_size; lia).
  assert (forall off n, 0 <= off -> off + n <= d_front d + zlen (d_message d)
            \/ d_front d + zlen (d_message d) + zlen bs <= off ->
            slice off n (blit (d_front d + zlen (d_message d)) bs mem) = slice off n mem) as Hother.
  { intros off n Ho Hoff. apply slice_blit_other; layout_lia. }
  split; cbn [d_message d_source d_fields d_limit modify draft_append]; fold bs.
  - by rewrite zlen_blit by layout_lia.
  - rewrite Hother; [done|layout_lia..].
  - rewrite Hother; [done|unfold d_front in *; layout_lia..].
  - rewrite Hother; [done|unfold d_front in *; layout_lia..].
  - match goal with |- slice _ _ ?m = _ =>
      change (slice (d_front d) (zlen (d_message d ++ bs)) m = d_message d ++ bs) end.
    rewrite zlen_app, slice_app by layout_lia.
    rewrite slice_blit_same by layout_lia. by rewrite Hother, Hm by layout_lia.
  - intros i f Hi. match goal with |- slice _ _ ?m = _ =>
      change (slice (field_offset d i) (field_size f) m
              = field_bytes f (field_offset d i) (field_next d i)) end.
    destruct (field_offset_bounds d i f Hd Hi).
    assert (field_offset d i >= d_limit d - sumZ field_size (d_fields d)).
    { unfold field_offset. pose proof (field_sizes_take (d_fields d) (S i)). lia. }
    rewrite Hother; [by apply Hfs|layout_lia..].
Qed.

Lemma draft_append_ok d text : draft_ok d -> bytes_ok text -> draft_ok (draft_append text d).
Proof.
  intros Hd Ht. pose proof Hd as [Hl Hr Hlv Hts Hli Hc Hm Hrq].
  split; try done.
  - unfold d_room, d_size. cbn. rewrite zlen_app, zlen_take by done.
    change (d_front (draft_append text d)) with (d_front d). unfold d_room, d_size in *. lia.
  - apply Forall_app. split; [done|by apply Forall_take].
  - by apply SaturatingAdd_bounds.
Qed.

Lemma AppendBytes_refines w s d text :
  represents w s d -> bytes_ok text ->
  let '(r, w', s') := AppendBytes text w s in
  represents w' s' (draft_append text d)
  /\ r = {| requested_bytes := zlen text; stored_bytes := Z.min (zlen text) (d_room d);
            truncated := negb (Z.min (zlen text) (d_room d) =? zlen text) |}.
Proof.
  intros [Hst Hd Hc Hs] Ht. pose proof (draft_bounds d Hd) as Hb.
  pose proof Hc as [Hsl Hfe Hft Hmo Hms Hrq Hsrc Hpl Hcnt Hfirst Hlast].
  pose proof (zlen_nonneg text). pose proof (do_room _ Hd) as Hr.
  unfold AppendBytes. cbn. rewrite Hsl, Hft, Hfe. unfold kMaximumRecordBytes in *.
  assert (d_limit d - sumZ field_size (d_fields d) - (d_front d + zlen (d_message d)) = d_room d)
    as Hroom by (unfold d_room, d_size; lia).
  unfold kSerializedRecordMetadataBytes in *.
  rewrite w64_small by lia. rewrite Hroom. set (k := Z.min (zlen text) (d_room d)).
  assert (take (Z.to_nat k) text = take (Z.to_nat (d_room d)) text) as Htake.
  { unfold k, zlen. destruct (decide (zlen text <= d_room d)).
    - rewrite !take_ge; [done|unfold zlen in *; lia..].
    - f_equal. unfold zlen in *. lia. }
  set (bs := take (Z.to_nat (d_room d)) text) in *.
  assert (zlen bs = k) as Hbs by (unfold bs; rewrite zlen_take by lia; lia).
  split; [|done]. split.
  - by case_ifs.
  - by apply draft_append_ok.
  - assert (d_front (draft_append text d) = d_front d) as Hfront by done.
    split; try done; cbn; fold bs; rewrite ?Hfront, ?zlen_app, ?Hbs, ?Hfe, ?Hms, ?Hrq, ?w64_small; try lia; done.
  - pose proof (stored_append _ _ _ text Hs Hd) as Hs'. fold bs in Hs'. rewrite Htake.
    destruct (Z.eqb_spec k 0) as [Hk|]; [|done].
    assert (bs = []) as Hnil by (apply zlen_nil; lia). by rewrite Hnil, blit_nil in Hs'.
Qed.

(** ** Lemmas: adding a field *)

Lemma match_nonempty_blit off (bs mem : list byte) :
  match bs with [] => mem | _ => blit off bs mem end = blit off bs mem.
Proof. destruct bs; [by rewrite blit_nil|done]. Qed.

Lemma draft_add_Some f d :
  field_size f <= d_room d -> draft_add f d = Some (add_field f d).
Proof. intros. unfold draft_add. by rewrite (proj2 (Z.leb_le _ _)). Qed.

Lemma field_offset_app d f i :
  (i < length (d_fields d))%nat ->
  field_offset (add_field f d) i = field_offset d i.
Proof. intros Hi. unfold field_offset. cbn [d_limit d_fields modify add_field]. by rewrite take_app_le by lia. Qed.

Lemma field_offset_new d f :
  field_offset (add_field f d) (length (d_fields d))
  = d_limit d - sumZ field_size (d_fields d) - field_size f.
Proof.
  unfold field_offset. cbn [d_limit d_fields modify add_field].
  rewrite take_ge by (rewrite length_app; simpl; lia). rewrite sumZ_app. simpl. lia.
Qed.

(** The three writes of a new field are one write of its bytes. *)
Lemma write_field mem f off bs :
  0 <= off -> off + field_size f <= zlen mem -> zlen bs = kSerializedFieldMetadataBytes ->
  blit off bs
    (blit (off + kSerializedFieldMetadataBytes + zlen (df_key f)) (value_bytes (df_value f))
      (blit (off + kSerializedFieldMetadataBytes) (df_key f) mem))
  = blit off (bs ++ df_key f ++ value_bytes (df_value f)) mem.
Proof.
  intros Ho Hs Hbs. unfold field_size, kSerializedFieldMetadataBytes in *.
  pose proof (zlen_nonneg (df_key f)). pose proof (zlen_nonneg (value_bytes (df_value f))).
  rewrite blit_join_right by lia.
  replace (off + 24) with (off + zlen bs) by lia. apply blit_join_left; [done|].
  rewrite zlen_app. lia.
Qed.

(** A new field goes right below the others, and the last one links to it. *)
Definition relink (d : Draft) (off : Z) (mem : list byte) : list byte :=
  match d_fields d with
  | [] => mem
  | _ =>
      WriteObject (last_offset d)
        (ReadObject SerializedField mem (last_offset d) <| next_offset := off |>) mem
  end.

Lemma relink_bytes d f off mem :
  draft_ok d -> zlen mem = kMaximumRecordBytes -> is_u32 off ->
  d_fields d !! (length (d_fields d) - 1)%nat = Some f ->
  slice (last_offset d) (field_size f) mem = field_bytes f (last_offset d) 0 ->
  relink d off mem = blit (last_offset d) (encode (field_meta f (last_offset d) off)) mem
  /\ slice (last_offset d) (field_size f) (relink d off mem) = field_bytes f (last_offset d) off.
Proof.
  intros Hd Hlen Hoff Hf Hs.
  destruct (field_offset_bounds d _ f Hd Hf) as [Hlo Hhi].
  assert (last_offset d = field_offset d (length (d_fields d) - 1)) as Hlo'
    by (unfold last_offset; by destruct (d_fields d)).
  rewrite <- Hlo' in Hlo, Hhi. pose proof (draft_bounds d Hd) as Hb.
  assert (forall next, is_u32 next -> field_ok (field_meta f (last_offset d) next)) as Hok.
  { intros next Hn. apply field_meta_ok; [done|unfold kSerializedRecordMetadataBytes in *; lia..]. }
  pose proof (field_size_min f). unfold kSerializedRecordMetadataBytes in *.
  assert (forall next, is_u32 next ->
    zlen (encode (field_meta f (last_offset d) next)) = kSerializedFieldMetadataBytes) as Hlenc.
  { intros next Hn. by rewrite (zlen_encode _ (Hok _ Hn)). }
  assert (is_u32 0) as H0 by by_compute.
  assert (ReadObject SerializedField mem (last_offset d) = field_meta f (last_offset d) 0) as Hread.
  { apply (ReadObject_slice (ok := field_ok)); [by apply Hok|].
    change (object_size SerializedField) with kSerializedFieldMetadataBytes.
    rewrite <- (slice_prefix _ _ (field_size f)) by layout_lia. rewrite Hs. unfold field_bytes.
    apply take_app_length'. pose proof (Hlenc _ H0). unfold zlen in *. lia. }
  assert (relink d off mem = blit (last_offset d) (encode (field_meta f (last_offset d) off)) mem)
    as Heq.
  { unfold relink. destruct (d_fields d) as [|x fs]; [done|]. by rewrite Hread. }
  split; [done|]. rewrite Heq.
  rewrite slice_blit_head; [|lia|by rewrite Hlenc|lia].
  rewrite Hs. unfold field_bytes. f_equal.
Qed.

Section NewField.
Context (mem : list byte) (d : Draft) (h : SerializedRecordHeader) (f : DraftField).
Context (Hst : stored mem d h) (Hd : draft_ok d) (Hfit : field_size f <= d_room d).

Let d' : Draft := add_field f d.
Let off : Z := d_limit d - sumZ field_size (d_fields d) - field_size f.
Let mem1 : list byte := blit off (field_bytes f off 0) mem.
Let mem2 : list byte := relink d off mem1.

Lemma new_offset_bounds :
  d_front d + zlen (d_message d) <= off /\ off + field_size f <= d_limit d
  /\ off + field_size f = d_limit d - sumZ field_size (d_fields d)
  /\ 56 <= off /\ d_limit d <= 16384 /\ 24 <= field_size f /\ zlen mem = 16384 /\ is_u32 off
  /\ zlen (field_bytes f off 0) = field_size f.
Proof.
  pose proof (draft_bounds d Hd) as Hb. pose proof (field_size_min f) as Hmin.
  pose proof (st_length _ _ _ Hst) as Hlen. unfold d_room, d_size in Hfit.
  assert (is_u32 off) as Hu by (unfold is_u32, off; layout_lia).
  assert (zlen (field_bytes f off 0) = field_size f) as Hz.
  { apply zlen_field_bytes, field_meta_ok; [by_compute|unfold off; layout_lia..]. }
  unfold off in *. split_and!; try layout_lia; done.
Qed.

Lemma mem1_slice o n :
  0 <= o -> o + n <= off \/ off + field_size f <= o -> slice o n mem1 = slice o n mem.
Proof.
  intros Ho Hn. destruct new_offset_bounds as (? & ? & ? & ? & ? & ? & ? & _ & Hz).
  unfold mem1. apply slice_blit_other; lia.
Qed.

Lemma mem1_length : zlen mem1 = kMaximumRecordBytes.
Proof.
  destruct new_offset_bounds as (? & ? & ? & ? & ? & ? & ? & _ & Hz).
  unfold mem1. rewrite zlen_blit by lia. apply (st_length _ _ _ Hst).
Qed.

(** Where the fields lie after the writes. *)
Lemma mem2_spec :
  zlen mem2 = kMaximumRecordBytes
  /\ slice off (field_size f) mem2 = field_bytes f off 0
  /\ (forall o n, 0 <= o -> o + n <= off -> slice o n mem2 = slice o n mem)
  /\ (forall i g, d_fields d !! i = Some g ->
        slice (field_offset d i) (field_size g) mem2
        = field_bytes g (field_offset d i) (if decide (S i < length (d_fields d))%nat
                                            then field_next d i else off)).
Proof.
  destruct new_offset_bounds as (Hfo & Hfl & Hft & Ho & Hlim & Hmin & Hlen & Hu & Hz).
  pose proof (draft_bounds d Hd) as Hb. pose proof mem1_length as Hlen1.
  assert (slice off (field_size f) mem1 = field_bytes f off 0) as Hnew.
  { unfold mem1. rewrite <- Hz. apply slice_blit_same; lia. }
  assert (forall i g, d_fields d !! i = Some g -> off + field_size f <= field_offset d i) as Hup.
  { intros i g Hg. unfold field_offset. pose proof (field_sizes_take (d_fields d) (S i)). lia. }
  assert (forall i g, d_fields d !! i = Some g ->
    slice (field_offset d i) (field_size g) mem1 = field_bytes g (field_offset d i) (field_next d i))
    as Hold.
  { intros i g Hg. rewrite mem1_slice; [by apply Hst|..]; pose proof (Hup i g Hg); lia. }
  unfold mem2. destruct (decide (d_fields d = [])) as [Hnil|Hne].
  { unfold relink. rewrite Hnil. split_and!; try done.
    intros o n ? ?. apply mem1_slice; lia. }
  destruct (lookup_lt_is_Some_2 (d_fields d) (length (d_fields d) - 1)) as [g Hg].
  { destruct (d_fields d); [done|simpl; lia]. }
  assert (last_offset d = field_offset d (length (d_fields d) - 1)) as Hlast
    by (unfold last_offset; by destruct (d_fields d)).
  destruct (field_offset_bounds d _ g Hd Hg) as [Hglo Hghi]. pose proof (Hup _ _ Hg) as Hgup.
  assert (field_next d (length (d_fields d) - 1) = 0) as Hnext
    by (unfold field_next; by rewrite decide_False by lia).
  pose proof (Hold _ _ Hg) as Hgs. rewrite Hnext, <- Hlast in Hgs.
  destruct (relink_bytes d g off mem1 Hd Hlen1 Hu Hg Hgs) as [Heq Hrel].
  assert (zlen (encode (field_meta g (last_offset d) off)) = 24) as Hz24 by done.
  rewrite Heq in *. pose proof (field_size_min g) as Hgm.
  unfold kSerializedFieldMetadataBytes, kMaximumRecordBytes in *. rewrite Hlast in *.
  split_and!.
  - by rewrite zlen_blit by lia.
  - rewrite slice_blit_other by lia. done.
  - intros o n ? ?. rewrite slice_blit_other by lia. apply mem1_slice; lia.
  - intros i x Hx. destruct (decide (S i < length (d_fields d))%nat) as [Hi|Hi].
    + rewrite slice_blit_other; [by apply Hold|..]; pose proof (Hup i x Hx); try lia.
      pose proof (field_offset_disjoint d i _ x g Hx Hg ltac:(lia)). lia.
    + assert (i = (length (d_fields d) - 1)%nat) as -> by (apply lookup_lt_Some in Hx; lia).
      by simplify_eq.
Qed.

Lemma stored_add_field : stored mem2 d' h.
Proof.
  destruct new_offset_bounds as (Hfo & Hfl & Hft & Ho & Hlim & Hmin & Hlen & Hu & Hz).
  destruct mem2_spec as (Hlen2 & Hnew & Hlow & Hfields). destruct Hst as [_ Hh Hp Hf Hm _].
  pose proof (zlen_nonneg (file_name_ (d_source d))).
  pose proof (zlen_nonneg (function_name_ (d_source d))). pose proof (zlen_nonneg (d_message d)).
  unfold d_front in Hfo.
  split; cbn [d' d_source d_message d_fields modify add_field].
  - done.
  - rewrite Hlow; [done|layout_lia..].
  - rewrite Hlow; [done|layout_lia..].
  - rewrite Hlow; [done|layout_lia..].
  - change (d_front d') with (d_front d). rewrite Hlow; [done|unfold d_front; layout_lia..].
  - intros i x [Hx|[Hge Hx]]%lookup_app_Some.
    + pose proof (lookup_lt_Some _ _ _ Hx) as Hi. unfold d', field_next.
      change (d_fields (add_field f d)) with (d_fields d ++ [f]).
      rewrite !field_offset_app by done. rewrite (Hfields i x Hx), length_app. cbn [length].
      f_equal. rewrite (decide_True (P := (S i < length (d_fields d) + 1)%nat)) by lia.
      case_decide as Hi'.
      * unfold field_next. by rewrite decide_True, field_offset_app by done.
      * replace (S i) with (length (d_fields d)) by lia. by rewrite field_offset_new.
    + apply list_lookup_singleton_Some in Hx as [Hi <-].
      assert (i = length (d_fields d)) as -> by lia. unfold d'. rewrite field_offset_new.
      unfold field_next. rewrite decide_False; [done|]. cbn. rewrite length_app. simpl. lia.
Qed.
End NewField.

(** [AddFieldBytes] called with the encoding of a field. *)
Definition AddDraftField (f : DraftField) : RecordWriter -> RecordSlot -> bool * RecordWriter * RecordSlot :=
  let v := df_value f in
  AddFieldBytes (df_key f) (value_kind v) (value_bytes v) (value_bits v) (value_flag v).

(** The writer after a field was added at [off]. *)
Definition writer_with_field (f : DraftField) (d : Draft) (w : RecordWriter) : RecordWriter :=
  let off := d_limit d - sumZ field_size (d_fields d) - field_size f in
  w <| field_tail_ := off |>
    <| first_field_offset_ := match d_fields d with [] => off | _ => first_field_offset_ w end |>
    <| last_field_offset_ := off |>
    <| field_count_ := zlen (d_fields d) + 1 |>
    <| field_payload_bytes_ ::= fun b => b + field_size f - kSerializedFieldMetadataBytes |>.

Lemma cursors_with_field f d w :
  cursors w d -> cursors (writer_with_field f d w) (add_field f d).
Proof.
  intros [Hsl Hfe Hft Hmo Hms Hrq Hsrc Hpl Hcnt Hfirst Hlast].
  split; try done; cbn [writer_with_field modify field_tail_ field_count_ field_payload_bytes_
    first_field_offset_ last_field_offset_ d_fields add_field d_limit].
  - rewrite sumZ_app. simpl. lia.
  - rewrite Hpl, sumZ_app, zlen_app. change (zlen [f]) with 1. simpl. layout_lia.
  - by rewrite zlen_app.
  - unfold first_offset in *. change (d_fields (add_field f d)) with (d_fields d ++ [f]).
    destruct (d_fields d) as [|g fs] eqn:Hfs; cbn [app].
    + pose proof (field_offset_new d f) as Hn. by rewrite Hfs in Hn.
    + rewrite Hfirst. symmetry. apply field_offset_app. rewrite Hfs. simpl. lia.
  - unfold last_offset. change (d_fields (add_field f d)) with (d_fields d ++ [f]).
    rewrite length_app, Nat.add_sub, field_offset_new. by destruct (d_fields d).
Qed.

Lemma draft_ok_add f d : draft_ok d -> field_size f <= d_room d -> draft_ok (add_field f d).
Proof.
  intros [? ? ? ? ? ? ? ?] Hf. split; try done.
  unfold d_room, d_size in *. cbn [d_fields add_field modify d_limit d_message].
  rewrite sumZ_app. simpl. change (d_front (add_field f d)) with (d_front d). lia.
Qed.

Lemma LinkField_relink d off w mem :
  draft_ok d -> last_field_offset_ w = last_offset d ->
  LinkField off w mem
  = (match d_fields d with [] => w <| first_field_offset_ := off |> | _ => w end, relink d off mem).
Proof.
  intros Hd Hl. unfold LinkField, relink. rewrite Hl. unfold last_offset.
  destruct (d_fields d) as [|x fs] eqn:Hfs; [done|].
  destruct (lookup_lt_is_Some_2 (d_fields d) (length (x :: fs) - 1)) as [g Hg];
    [rewrite Hfs; simpl; lia|].
  destruct (field_offset_bounds d _ g Hd Hg). pose proof (draft_bounds d Hd).
  destruct (Z.eqb_spec (field_offset d (length (x :: fs) - 1)) 0); [layout_lia|done].
Qed.

Lemma WriteNewField_bytes f off mem :
  0 <= off -> off + field_size f <= zlen mem -> zlen mem <= kMaximumRecordBytes ->
  let v := df_value f in
  let key_off := w32 (off + kSerializedFieldMetadataBytes) in
  let value_offset := w32 (key_off + zlen (df_key f)) in
  WriteNewField (w32 off) key_off value_offset (df_key f) (value_bytes v)
    (NewFieldMetadata key_off value_offset (df_key f) (value_kind v) (value_bytes v)
       (value_bits v) (value_flag v)) mem
  = blit off (field_bytes f off 0) mem.
Proof.
  intros Ho Hs Hm v key_off value_offset.
  pose proof (zlen_nonneg (df_key f)). pose proof (zlen_nonneg (value_bytes v)).
  unfold field_size in Hs. fold v in Hs.
  assert (key_off = off + kSerializedFieldMetadataBytes) as Hk by (apply w32_small; layout_lia).
  assert (value_offset = off + kSerializedFieldMetadataBytes + zlen (df_key f)) as Hv.
  { unfold value_offset. rewrite Hk. apply w32_small. layout_lia. }
  assert (NewFieldMetadata key_off value_offset (df_key f) (value_kind v) (value_bytes v)
            (value_bits v) (value_flag v) = field_meta f off 0) as ->.
  { unfold NewFieldMetadata, field_meta. fold v.
    rewrite (w32_small (zlen (df_key f))), (w32_small (zlen (value_bytes v))) by layout_lia.
    by rewrite Hv, Hk. }
  unfold WriteNewField, WriteObject. rewrite !match_nonempty_blit, Hk, Hv, (w32_small off) by layout_lia.
  apply write_field; [done|done|]. done.
Qed.

Section AddField.
Context (w : RecordWriter) (s : RecordSlot) (d : Draft) (f : DraftField).
Context (Hrep : represents w s d).

Let K : Z := zlen (df_key f).
Let V : Z := zlen (value_bytes (df_value f)).

Lemma AddDraftField_refused :
  d_room d < field_size f -> AddDraftField f w s = (false, w, s).
Proof.
  intros Hbig. destruct Hrep as [_ Hd Hc _]. pose proof (draft_bounds d Hd) as Hb.
  pose proof (do_room _ Hd) as Hroom.
  unfold AddDraftField, AddFieldBytes. fold K V. case_match eqn:Hrej; [done|].
  unfold FieldRejected in Hrej. fold K V in Hrej. b2p.
  unfold field_size in Hbig. fold K V in Hbig.
  pose proof (zlen_nonneg (df_key f) : 0 <= K). pose proof (zlen_nonneg (value_bytes (df_value f)) : 0 <= V).
  unfold u32_max, kSerializedFieldMetadataBytes, kSerializedRecordMetadataBytes, kMaximumRecordBytes in *.
  rewrite (w64_small (24 + K)), (w64_small (24 + K + V)) by lia.
  rewrite (cu_tail _ _ Hc), (cu_front _ _ Hc), w64_small by lia.
  unfold d_room, d_size in *.
  destruct (Z.ltb_spec (d_limit d - sumZ field_size (d_fields d) - (d_front d + zlen (d_message d)))
              (24 + K + V)); [done|lia].
Qed.

Lemma AddDraftField_added :
  field_size f <= d_room d ->
  exists s', AddDraftField f w s = (true, writer_with_field f d w, s')
    /\ represents (writer_with_field f d w) s' (add_field f d).
Proof.
  intros Hfit. destruct Hrep as [Hst Hd Hc Hs]. pose proof (draft_bounds d Hd) as Hb.
  destruct (new_offset_bounds _ _ _ _ Hs Hd Hfit) as (Ho1 & Ho2 & Ho3 & Ho4 & Ho5 & Ho6 & Hlen & Hu & Hz).
  set (off := d_limit d - sumZ field_size (d_fields d) - field_size f) in *.
  pose proof (stored_add_field _ _ _ _ Hs Hd Hfit) as Hs'. fold off in Hs'.
  assert (field_size f = 24 + K + V) as HKV by done.
  pose proof (zlen_nonneg (df_key f) : 0 <= K).
  pose proof (zlen_nonneg (value_bytes (df_value f)) : 0 <= V).
  exists (s <| storage_ := relink d off (blit off (field_bytes f off 0) (storage_ s)) |>).
  split.
  2:{ split; [done|by apply draft_ok_add|by apply cursors_with_field|done]. }
  pose proof Hc as [Hsl Hfe Hft Hmo Hms Hrq Hsrc Hpl Hcnt Hfirst Hlast].
  assert (FieldRejected (df_key f) (value_bytes (df_value f)) w = false) as Hrej.
  { unfold FieldRejected. fold K V. rewrite Hsl, Hcnt. unfold u32_max, size_max.
    rewrite !w64_small by layout_lia.
    rewrite !orb_false_iff, !Z.ltb_ge, Z.eqb_neq. split_and!; layout_lia. }
  unfold AddDraftField, AddFieldBytes. rewrite Hrej. fold K V. rewrite Hft, Hfe.
  unfold d_room, d_size in Hfit.
  assert (kSerializedFieldMetadataBytes +w K +w V = field_size f) as ->
    by (rewrite HKV; unfold kSerializedFieldMetadataBytes; solve_w64).
  rewrite (w64_small (_ - (_ + _))), (w64_small (_ - field_size f)) by layout_lia.
  rewrite (proj2 (Z.ltb_ge _ _)) by lia. cbv zeta. fold off. unfold K, V in *.
  rewrite WriteNewField_bytes by layout_lia.
  rewrite (LinkField_relink d), (w32_small off) by (try done; layout_lia).
  f_equal. f_equal.
  assert (w32 (field_count_ w + 1) = zlen (d_fields d) + 1) as Hcnt'
    by (rewrite Hcnt; apply w32_small; layout_lia).
  assert (field_payload_bytes_ w +w (zlen (df_key f) +w zlen (value_bytes (df_value f)))
          = field_payload_bytes_ w + field_size f - kSerializedFieldMetadataBytes) as Hpl'
    by (rewrite HKV, Hpl, (w64_small (zlen (df_key f) + _)), w64_small by layout_lia; layout_lia).
  unfold writer_with_field. fold off. destruct w; cbn [modify field_count_ field_payload_bytes_] in *.
  by destruct (d_fields d); cbn; rewrite Hcnt', Hpl'.
Qed.
End AddField.

Lemma AddDraftField_refines w s d f :
  represents w s d ->
  let '(added, w', s') := AddDraftField f w s in
  match draft_add f d with
  | Some d' => added = true /\ represents w' s' d'
  | None => added = false /\ w' = w /\ s' = s
  end.
Proof.
  intros Hrep. unfold draft_add. destruct (Z.leb_spec (field_size f) (d_room d)) as [Hle|Hgt].
  - by destruct (AddDraftField_added w s d f Hrep Hle) as (s' & -> & Hrep').
  - by rewrite (AddDraftField_refused w s d f Hrep Hgt).
Qed.

(** ** Lemmas: cutting the message *)

Definition cut_message (k : Z) (d : Draft) : Draft := d <| d_message ::= take (Z.to_nat k) |>.

Lemma stored_cut mem d h k :
  stored mem d h -> 0 <= k <= zlen (d_message d) -> stored mem (cut_message k d) h.
Proof.
  intros [Hlen Hh Hp Hf Hm Hfs] Hk. split; try done.
  cbn [d_message cut_message modify]. change (d_front (cut_message k d)) with (d_front d).
  rewrite zlen_take, Z.min_l by lia. rewrite <- (slice_prefix _ k (zlen (d_message d))) by
    (pose proof (d_front_bounds d); layout_lia). by rewrite Hm.
Qed.

Lemma draft_ok_cut d k : draft_ok d -> 0 <= k <= zlen (d_message d) -> draft_ok (cut_message k d).
Proof.
  intros [? Hr ? ? ? ? Hm ?] Hk. split; try done.
  - unfold d_room, d_size in *. cbn [cut_message modify d_limit d_message d_fields].
    change (d_front (cut_message k d)) with (d_front d). rewrite zlen_take by lia. lia.
  - by apply Forall_take.
Qed.

Lemma represents_cut w s d k :
  represents w s d -> 0 <= k <= zlen (d_message d) ->
  represents (w <| message_size_ := k |> <| front_end_ := d_front d + k |>) s (cut_message k d).
Proof.
  intros [Hst Hd Hc Hs] Hk.
  split; [done|by apply draft_ok_cut| |by apply (stored_cut _ _ _ _ Hs)].
  destruct Hc. split; try done; cbn [modify front_end_ message_size_ cut_message d_message];
    change (d_front (cut_message k d)) with (d_front d); rewrite zlen_take, Z.min_l by lia; done.
Qed.

Lemma ValidUtf8PrefixLength_range bs :
  bytes_ok bs -> zlen bs <= kMaximumRecordBytes -> 0 <= ValidUtf8PrefixLength bs <= zlen bs.
Proof. intros Hb Hl. apply ValidUtf8PrefixLength_spec; [done|layout_lia]. Qed.

Lemma message_bytes_draft w s d : represents w s d -> message_bytes w s = d_message d.
Proof.
  intros [_ _ Hc Hs]. unfold message_bytes.
  rewrite (cu_message_offset _ _ Hc), (cu_message_size _ _ Hc). apply Hs.
Qed.

Lemma available_room w s d :
  represents w s d -> field_tail_ w -w front_end_ w = d_room d.
Proof.
  intros [_ Hd Hc _]. pose proof (draft_bounds d Hd). pose proof (do_room _ Hd).
  rewrite (cu_tail _ _ Hc), (cu_front _ _ Hc). unfold d_room, d_size in *.
  rewrite w64_small; layout_lia.
Qed.

(** The cut [Publish] and [AddTruncatedField] make: the front moves to the end of
    the longest well-formed prefix. *)
Lemma front_after_cut w s d k :
  represents w s d -> 0 <= k <= zlen (d_message d) -> message_offset_ w +w k = d_front d + k.
Proof.
  intros [_ Hd Hc _] Hk. pose proof (draft_bounds d Hd). rewrite (cu_message_offset _ _ Hc).
  apply w64_small. layout_lia.
Qed.

Lemma AddTruncatedField_refines w s d :
  represents w s d ->
  let '(added, w', s') := AddTruncatedField w s in
  match draft_truncate d with
  | Some d' => added = true /\ represents w' s' d'
  | None => added = false /\ slot_ w' = true /\ storage_ s' = storage_ s
  end.
Proof.
  intros Hrep. pose proof Hrep as [Hst Hd Hc Hs]. pose proof (draft_bounds d Hd) as Hb.
  unfold AddTruncatedField, draft_truncate. rewrite (available_room _ _ _ Hrep).
  change (kSerializedFieldMetadataBytes + zlen kTruncatedFieldKey)
    with (field_size truncated_field).
  change (AddFieldBool kTruncatedFieldKey true) with (AddDraftField truncated_field).
  assert (forall d' w', represents w' s d' ->
    let '(added, w', s') := AddDraftField truncated_field w' s in
    match draft_add truncated_field d' with
    | Some d' => added = true /\ represents w' s' d'
    | None => added = false /\ slot_ w' = true /\ storage_ s' = storage_ s
    end) as Hadd.
  { intros d' w' Hrep'. pose proof (AddDraftField_refines w' s d' truncated_field Hrep') as H.
    destruct (AddDraftField truncated_field w' s) as [[added w''] s''].
    destruct (draft_add truncated_field d'); [done|]. destruct H as (-> & -> & ->).
    split_and!; [done|apply (rp_cursors _ _ _ Hrep')|done]. }
  destruct (Z.ltb_spec (d_room d) (field_size truncated_field)) as [Hlt|]; [|by apply Hadd].
  assert (field_size truncated_field = 38) as Hsz by done.
  pose proof (do_room _ Hd) as Hroom.
  rewrite (w64_small (field_size truncated_field - _)) by lia. rewrite (cu_message_size _ _ Hc).
  set (reclaimed := field_size truncated_field - d_room d) in *.
  destruct (Z.ltb_spec (zlen (d_message d)) reclaimed) as [|Hge].
  { split_and!; [done|apply Hc|done]. }
  set (keep := zlen (d_message d) - reclaimed).
  set (msg := take (Z.to_nat keep) (d_message d)).
  assert (zlen msg = keep) as Hmsg by (unfold msg; rewrite zlen_take by lia; lia).
  assert (0 <= ValidUtf8PrefixLength msg <= keep) as Hv.
  { rewrite <- Hmsg. apply ValidUtf8PrefixLength_range; [by apply Forall_take, Hd|layout_lia]. }
  assert (message_bytes (w <| message_size_ ::= fun n => n -w reclaimed |>) s = msg) as Hbytes.
  { unfold message_bytes. cbn. rewrite (cu_message_offset _ _ Hc), (cu_message_size _ _ Hc).
    rewrite w64_small by layout_lia. unfold msg. rewrite <- (st_message _ _ _ Hs) at 2.
    symmetry. apply slice_prefix; layout_lia. }
  rewrite Hbytes. set (v := ValidUtf8PrefixLength msg) in *.
  assert (cut_message v d = d <| d_message ::= fun m => cut_utf8 (take (Z.to_nat keep) m) |>) as <-.
  { unfold cut_message, cut_utf8. cbn [modify]. fold msg. fold v. f_equal.
    unfold msg. rewrite take_take, Nat.min_l by lia. done. }
  cbn [modify message_size_ message_offset_]. rewrite (front_after_cut w s d v Hrep) by lia.
  apply Hadd. apply (represents_cut w s d v Hrep). lia.
Qed.

(** ** Lemmas: beginning a record *)

Definition draft_begin (limit : Z) (lvl : Level) (source : SourceLocation) (timestamp : Z)
    : Draft :=
  {| d_limit := limit; d_level := lvl; d_timestamp := timestamp; d_source := source;
     d_message := []; d_requested := 0; d_fields := [] |}.

(** The values the types of the parameters allow. *)
Record source_ok (source : SourceLocation) : Prop := {
  so_line : is_u32 (line_ source);
  so_column : is_u32 (column_ source);
}.

(** When a reset slot accepts a record. *)
Definition begin_accepts (limit : Z) (lvl : Level) (source : SourceLocation) : Prop :=
  limit <= kMaximumRecordBytes /\ lvl < kNone
  /\ kSerializedRecordMetadataBytes + zlen (file_name_ source) + zlen (function_name_ source)
     <= limit.

Lemma stored_header mem d h h' :
  stored mem d h -> header_ok h' -> draft_ok d -> stored (WriteObject 0 h' mem) d h'.
Proof.
  intros [Hlen Hh Hp Hf Hm Hfs] Hok Hd. pose proof (draft_bounds d Hd).
  assert (zlen (encode h') = kSerializedRecordMetadataBytes) as Henc by (by rewrite (zlen_encode _ Hok)).
  assert (forall o n, kSerializedRecordMetadataBytes <= o ->
            slice o n (WriteObject 0 h' mem) = slice o n mem) as Hother.
  { intros o n Ho. apply slice_blit_other; layout_lia. }
  pose proof (zlen_nonneg (file_name_ (d_source d))).
  split; try (rewrite Hother; [done|layout_lia]).
  - unfold WriteObject. rewrite zlen_blit by layout_lia. done.
  - rewrite <- Henc. apply slice_blit_same; layout_lia.
  - intros i f Hi. destruct (field_offset_bounds d i f Hd Hi).
    rewrite Hother; [by apply Hfs|layout_lia].
Qed.

Lemma draft_header_ok d size first count flag :
  draft_ok d -> is_u32 size -> is_u32 first -> is_u32 count ->
  header_ok (draft_header d size first count flag).
Proof.
  intros Hd Hs Hf Hc. pose proof (draft_bounds d Hd) as Hb. destruct Hd.
  pose proof (zlen_nonneg (file_name_ (d_source d))).
  pose proof (zlen_nonneg (function_name_ (d_source d))). unfold d_front in *.
  unfold kNone in *. split; cbn; try done; unfold is_u32, d_front in *; try layout_lia.
  by case_ifs.
Qed.

Lemma Begin_represents limit lvl source timestamp s :
  source_ok source -> is_s64 timestamp -> 0 <= lvl < 256 ->
  state_ s = kReset -> zlen (storage_ s) = kMaximumRecordBytes ->
  begin_accepts limit lvl source ->
  let '(w, s') := Begin limit lvl source timestamp s in
  represents w s' (draft_begin limit lvl source timestamp).
Proof.
  intros [Hline Hcol] Hts Hlvl Hstate Hlen (Hlim & Hnone & Hfit).
  pose proof (zlen_nonneg (file_name_ source)). pose proof (zlen_nonneg (function_name_ source)).
  set (P := file_name_ source) in *. set (F := function_name_ source) in *.
  assert (draft_ok (draft_begin limit lvl source timestamp)) as Hd.
  { split; try done.
    - unfold d_room, d_size, d_front. cbn. fold P F. change (zlen []) with 0. layout_lia.
    - simpl. lia.
    - constructor. }
  unfold Begin. rewrite Hstate. fold P F. unfold is_u32, u32_max, kNone in *.
  rewrite (w64_small (limit - _)), (w64_small (limit - _ - _)) by layout_lia.
  unfold w8. rewrite (Z.mod_small lvl), (Z.mod_small 6) by lia.
  rewrite !(proj2 (Z.ltb_ge _ _)), (proj2 (Z.leb_gt _ _)) by layout_lia. cbn [negb orb bool_decide].
  cbv zeta. rewrite !match_nonempty_blit.
  rewrite (w64_small (_ + zlen P)), (w64_small (zlen P + _)), (w64_small (_ + zlen F)) by layout_lia.
  rewrite !w32_small by layout_lia.
  match goal with |- context [WriteObject 0 ?x _] => set (h := x) end.
  assert (h = draft_header (draft_begin limit lvl source timestamp) 0 0 0 false) as Hh by done.
  assert (header_ok h) as Hok.
  { rewrite Hh. by apply draft_header_ok. }
  assert (zlen (encode h) = 56) as Henc by (by rewrite (zlen_encode _ Hok)).
  split; [done|done| |].
  - split; try done; cbn [MakeRecordWriter modify front_end_ field_tail_ source_payload_bytes_
      is_message_offset is_serialized_limit is_source_payload_bytes d_limit draft_begin d_fields sumZ].
    + unfold d_front. cbn. fold P F. change (zlen []) with 0. layout_lia.
    + lia.
    + unfold d_front. cbn. fold P F. layout_lia.
  - rewrite <- Hh. unfold WriteObject.
    unfold kSerializedRecordMetadataBytes, kMaximumRecordBytes in *.
    set (mem0 := blit 0 (encode h) (storage_ s)).
    assert (zlen mem0 = 16384) as Hl0 by (unfold mem0; rewrite zlen_blit by lia; done).
    set (mem1 := blit 56 P mem0).
    assert (zlen mem1 = 16384) as Hl1 by (unfold mem1; rewrite zlen_blit by lia; done).
    split; cbn [storage_ d_source draft_begin]; fold P F;
      unfold kSerializedRecordMetadataBytes, kMaximumRecordBytes; try done.
    + rewrite zlen_blit by lia. done.
    + rewrite slice_blit_other by lia. unfold mem1. rewrite slice_blit_other by lia.
      rewrite <- Henc at 1. apply slice_blit_same; lia.
    + rewrite slice_blit_other by lia. apply slice_blit_same; lia.
    + apply slice_blit_same; lia.
Qed.

Lemma Begin_refused limit lvl source timestamp s :
  0 <= lvl < 256 -> 0 <= limit <= size_max ->
  state_ s <> kReset \/ ~ begin_accepts limit lvl source ->
  Begin limit lvl source timestamp s = (null_writer, s).
Proof.
  intros Hlvl Hlim Hbad. unfold Begin. case_match eqn:H; [done|]. exfalso. b2p.
  unfold w8, kNone in *. rewrite (Z.mod_small lvl), (Z.mod_small 6) in * by lia.
  apply bool_decide_eq_true in H. destruct Hbad as [|Hbad]; [done|]. apply Hbad.
  pose proof (zlen_nonneg (file_name_ source)). pose proof (zlen_nonneg (function_name_ source)).
  unfold size_max in *.
  rewrite (w64_small (limit - _)) in * by layout_lia.
  rewrite (w64_small (limit - _ - _)) in * by layout_lia. split_and!; unfold kNone; layout_lia.
Qed.

(** ** Lemmas: publishing *)

(** The header of a published record. *)
Definition final_header (d : Draft) (truncated : bool) : SerializedRecordHeader :=
  draft_header d (zlen (d_message d)) (first_offset d) (zlen (d_fields d)) truncated.

Definition stored_record (d : Draft) (truncated : bool) : StoredRecord :=
  {| sr_storage := true; sr_serialized_bytes := d_size d;
     sr_accounting_charge_bytes := AccountingCharge (d_size d); sr_truncated := truncated |}.

Record published (s : RecordSlot) (d : Draft) (truncated : bool) : Prop := {
  pb_state : state_ s = kPublished;
  pb_draft : draft_ok d;
  pb_stored : stored (storage_ s) d (final_header d truncated);
  pb_charge : AccountingCharge (d_size d) <= d_limit d;
}.

Definition publish_outcome (d : option (Draft * bool)) (r : StoredRecord) (w : RecordWriter)
    (s : RecordSlot) : Prop :=
  slot_ w = false /\ zlen (storage_ s) = kMaximumRecordBytes /\
  match d with
  | Some (d', truncated) => r = stored_record d' truncated /\ published s d' truncated
  | None => r = no_record /\ state_ s = kReset
  end.

Lemma first_offset_u32 d : draft_ok d -> is_u32 (first_offset d).
Proof.
  intros Hd. pose proof (draft_bounds d Hd). unfold first_offset.
  destruct (d_fields d) as [|f fs] eqn:Hfs; [by_compute|].
  destruct (field_offset_bounds d 0 f Hd) as [? ?]; [by rewrite Hfs|].
  pose proof (field_size_min f). unfold is_u32. layout_lia.
Qed.

Lemma final_header_ok d truncated : draft_ok d -> header_ok (final_header d truncated).
Proof.
  intros Hd. pose proof (draft_bounds d Hd).
  apply draft_header_ok; [done|unfold is_u32; layout_lia|by apply first_offset_u32|
    unfold is_u32; layout_lia].
Qed.

Lemma ReadHeader mem d h :
  stored mem d h -> header_ok h -> ReadObject SerializedRecordHeader mem 0 = h.
Proof. intros Hs Hok. apply (ReadObject_slice (ok := header_ok)); [done|apply (st_header _ _ _ Hs)]. Qed.

Lemma FinishPublish_refines w s d truncated :
  represents w s d ->
  let '(r, w', s') := FinishPublish truncated w s in
  publish_outcome (if draft_chargeable d then Some (d, truncated) else None) r w' s'.
Proof.
  intros [Hst Hd Hc Hs]. pose proof (draft_bounds d Hd) as Hb.
  assert (header_ok (draft_header d 0 0 0 false)) as Hok by (by apply draft_header_ok).
  unfold FinishPublish. rewrite (ReadHeader _ _ _ Hs Hok).
  pose proof Hc as [Hsl Hfe Hft Hmo Hms Hrq Hsrc Hpl Hcnt Hfirst Hlast].
  rewrite Hms, Hfirst, Hcnt, Hsrc, Hpl, Hft. rewrite (w32_small (zlen (d_message d))) by layout_lia.
  match goal with |- context [WriteObject 0 ?h] =>
    change h with (final_header d truncated) end.
  assert (kSerializedRecordMetadataBytes +w w64 (zlen (d_fields d) * kSerializedFieldMetadataBytes)
          = kSerializedRecordMetadataBytes + 24 * zlen (d_fields d)) as ->.
  { unfold kSerializedRecordMetadataBytes, kSerializedFieldMetadataBytes in *.
    rewrite (w64_small (zlen _ * 24)), w64_small by layout_lia. lia. }
  rewrite (w64_small (kSerializedFieldMetadataBytes * _)) by layout_lia.
  rewrite (w64_small (_ + zlen (d_message d))) by layout_lia.
  rewrite (w64_small (_ + zlen (d_message d) + _)) by layout_lia.
  rewrite (w64_small (_ + _ + _ + (_ + _))) by layout_lia.
  rewrite (w64_small (d_limit d - _ + _)) by layout_lia.
  rewrite (w64_small (d_limit d - _ + _ + _)) by layout_lia.
  match goal with |- context [AccountingCharge ?n] =>
    replace n with (d_size d) by (unfold d_size; layout_lia) end.
  match goal with |- context [?n <? d_size d] =>
    replace n with (d_limit d) by layout_lia end.
  pose proof (do_room _ Hd) as Hroom. unfold d_room in Hroom.
  assert (0 <= d_size d) by (unfold d_size; layout_lia).
  pose proof (AccountingCharge_bounds (d_size d) ltac:(unfold size_max; layout_lia)) as [Hch _].
  pose proof (stored_header _ _ _ (final_header d truncated) Hs (final_header_ok d truncated Hd) Hd)
    as Hs'.
  unfold draft_chargeable. rewrite Z.leb_antisym.
  destruct (Z.ltb_spec (d_limit d) (d_size d)); [lia|].
  destruct (Z.eqb_spec (AccountingCharge (d_size d)) 0); [lia|]. cbn [orb].
  destruct (Z.ltb_spec (d_limit d) (AccountingCharge (d_size d))); cbn [negb].
  - unfold Abandon. rewrite Hsl. split_and!; [done|apply Hs'|done|done].
  - split_and!; [done|apply Hs'|done|by split].
Qed.

Lemma Publish_refines w s d :
  represents w s d ->
  let '(r, w', s') := Publish w s in publish_outcome (draft_publish d) r w' s'.
Proof.
  intros Hrep. pose proof Hrep as [Hst Hd Hc Hs]. pose proof (draft_bounds d Hd) as Hb.
  unfold Publish, draft_publish. rewrite (cu_slot _ _ Hc), Hst.
  rewrite bool_decide_eq_true_2 by done. cbn [negb orb].
  rewrite (message_bytes_draft _ _ _ Hrep).
  set (v := ValidUtf8PrefixLength (d_message d)).
  assert (0 <= v <= zlen (d_message d)) as Hv.
  { apply ValidUtf8PrefixLength_range; [apply Hd|layout_lia]. }
  pose proof (represents_cut w s d v Hrep Hv) as Hrep'.
  change (d <| d_message ::= cut_utf8 |>) with (cut_message v d).
  assert (d_requested (cut_message v d) = requested_message_bytes_ w) as ->
    by (symmetry; apply Hc).
  assert (zlen (d_message (cut_message v d)) = v) as ->.
  { cbn [cut_message d_message modify]. rewrite zlen_take by lia. lia. }
  cbn [message_offset_ message_size_ modify requested_message_bytes_].
  rewrite (front_after_cut w s d v Hrep Hv).
  cbn [modify] in Hrep'.
  destruct (requested_message_bytes_ w =? v); cbn [negb].
  - apply (FinishPublish_refines _ _ _ false Hrep').
  - pose proof (AddTruncatedField_refines _ _ _ Hrep') as Hadd. simpl in Hadd |- *.
    destruct (AddTruncatedField _ _) as [[added w''] s''].
    destruct (draft_truncate (cut_message v d)) as [d''|].
    + destruct Hadd as [-> Hrep'']. apply (FinishPublish_refines _ _ _ true Hrep'').
    + destruct Hadd as (-> & Hsl & Hsame). cbn [negb]. unfold Abandon. rewrite Hsl.
      split_and!; [done| |done|done]. simpl. rewrite Hsame. apply Hs.
Qed.

(** ** Lemmas: reading a published record *)

(** The view a consumer is given of a stored record. *)
Definition view_of (s : RecordSlot) (r : StoredRecord) : RecordView :=
  {| rv_storage_ := Some (storage_ s); rv_serialized_bytes_ := sr_serialized_bytes r;
     rv_accounting_charge_bytes_ := sr_accounting_charge_bytes r |}.

(** The values the types of the setters allow. *)
Definition value_ok (v : FieldValue) : Prop :=
  match v with
  | VInt64 z => is_s64 z
  | VUInt64 z | VDouble z => 0 <= z < 2 ^ 64
  | VString bs => bytes_ok bs
  | VBool _ | VNull => True
  end.

(** A view shows a field: its key, its kind, and its value through the accessor of
    that kind alone. *)
Definition shows_field (v : FieldView) (f : DraftField) : Prop :=
  key v = df_key f /\ view_kind v = FieldKind_value (value_kind (df_value f))
  /\ AsString v = (if df_value f is VString bs then Some bs else None)
  /\ AsInt64 v = (if df_value f is VInt64 z then Some z else None)
  /\ AsUInt64 v = (if df_value f is VUInt64 z then Some z else None)
  /\ AsDouble v = (if df_value f is VDouble z then Some z else None)
  /\ AsBool v = (if df_value f is VBool b then Some b else None)
  /\ IsNull v = (if df_value f is VNull then true else false).

Lemma join_bits bits :
  0 <= bits < 2 ^ 64 -> Z.lor (w32 bits) (Z.shiftl (w32 (Z.shiftr bits 32)) 32) = bits.
Proof.
  intros Hb. apply Z.bits_inj'. intros n Hn. unfold w32.
  rewrite Z.lor_spec, Z.shiftl_spec by done. destruct (decide (n < 32)).
  - rewrite Z.mod_pow2_bits_low by lia. rewrite (Z.testbit_neg_r _ (n - 32)) by lia.
    apply orb_false_r.
  - rewrite (Z.mod_pow2_bits_high _ _ n) by lia. cbn [orb]. destruct (decide (n < 64)).
    + rewrite Z.mod_pow2_bits_low, Z.shiftr_spec by lia. f_equal. lia.
    + rewrite Z.mod_pow2_bits_high by lia. symmetry.
      rewrite <- (Z.mod_small bits (2 ^ 64)) by lia. apply Z.mod_pow2_bits_high. lia.
Qed.

Section View.
Context (mem : list byte) (d : Draft) (h : SerializedRecordHeader).
Context (Hst : stored mem d h) (Hd : draft_ok d).

Lemma Field_read i f :
  d_fields d !! i = Some f ->
  Field (Some mem) (field_offset d i) = field_meta f (field_offset d i) (field_next d i)
  /\ slice (field_offset d i + kSerializedFieldMetadataBytes) (zlen (df_key f)) mem = df_key f
  /\ slice (field_offset d i + kSerializedFieldMetadataBytes + zlen (df_key f))
       (zlen (value_bytes (df_value f))) mem = value_bytes (df_value f).
Proof.
  intros Hi. pose proof (st_fields _ _ _ Hst i f Hi) as Hs.
  destruct (field_offset_bounds d i f Hd Hi) as [Hlo Hhi]. pose proof (draft_bounds d Hd) as Hb.
  pose proof (zlen_nonneg (df_key f)). pose proof (zlen_nonneg (value_bytes (df_value f))).
  assert (is_u32 (field_next d i)) as Hn.
  { unfold field_next. case_decide as Hlt; [|by_compute].
    destruct (lookup_lt_is_Some_2 (d_fields d) (S i) Hlt) as [g Hg].
    destruct (field_offset_bounds d (S i) g Hd Hg). pose proof (field_size_min g).
    unfold is_u32. layout_lia. }
  assert (field_ok (field_meta f (field_offset d i) (field_next d i))) as Hok
    by (apply field_meta_ok; [done|layout_lia..]).
  assert (zlen (encode (field_meta f (field_offset d i) (field_next d i)))
          = kSerializedFieldMetadataBytes) as Henc by (by rewrite (zlen_encode _ Hok)).
  unfold field_size in Hs. rewrite !slice_app in Hs by layout_lia. unfold field_bytes in Hs.
  rewrite <- app_assoc in Hs.
  assert (forall n, n <= field_size f -> field_offset d i + n <= zlen mem) as Hin.
  { intros n Hn'. rewrite (st_length _ _ _ Hst). layout_lia. }
  unfold field_size in Hin.
  apply app_inj_1 in Hs as [Hmeta Hs].
  2:{ rewrite length_slice by (try layout_lia; apply Hin; layout_lia). unfold zlen in Henc. lia. }
  apply app_inj_1 in Hs as [Hkey Hval].
  2:{ pose proof (Hin (kSerializedFieldMetadataBytes + zlen (df_key f)) ltac:(lia)).
      rewrite length_slice by layout_lia. unfold zlen. lia. }
  rewrite Z.add_assoc in Hval. split_and!; [|done|done].
  by apply (ReadObject_slice (ok := field_ok)).
Qed.

Lemma shows_field_at i f :
  d_fields d !! i = Some f -> value_ok (df_value f) ->
  shows_field {| fv_storage_ := Some mem; fv_offset_ := field_offset d i |} f.
Proof.
  intros Hi Hv. destruct (Field_read i f Hi) as (Hf & Hkey & Hval).
  unfold shows_field, key, view_kind, AsString, AsInt64, AsUInt64, AsDouble, AsBool, IsNull,
    view_kind, scalar_bits. cbn [fv_storage_ fv_offset_]. rewrite Hf. cbn [Text field_meta key_offset key_size
    kind value_low value_high field_flags].
  split; [exact Hkey|]. split; [done|].
  destruct (df_value f) as [bs|z|z|z|b|] eqn:Hdv; cbn [value_kind value_bytes value_bits value_flag
    FieldKind_value] in *; split_and!; try done.
  - change (negb (0 =? FieldKind_value kString)) with false. cbn match. f_equal.
    destruct bs as [|b bs]; [done|exact Hval].
  - change (negb (1 =? FieldKind_value kInt64)) with false. cbn match. f_equal.
    unfold of_s64. rewrite join_bits by apply w64_range. by apply to_of_s64.
  - change (negb (2 =? FieldKind_value kUInt64)) with false. cbn match. f_equal. by apply join_bits.
  - change (negb (3 =? FieldKind_value kDouble)) with false. cbn match. f_equal. by apply join_bits.
  - by destruct b.
Qed.
End View.

(** The cursor that has returned the first [i] fields. *)
Definition cursor_at (mem : list byte) (d : Draft) (i : nat) : FieldCursor :=
  {| fc_storage_ := Some mem;
     fc_offset_ := if decide (i < length (d_fields d))%nat then field_offset d i else 0;
     fc_remaining_ := Z.of_nat (length (d_fields d) - i) |}.

Lemma Next_at mem d h i f :
  stored mem d h -> draft_ok d -> d_fields d !! i = Some f ->
  Next (cursor_at mem d i)
  = (Some {| fv_storage_ := Some mem; fv_offset_ := field_offset d i |}, cursor_at mem d (S i)).
Proof.
  intros Hst Hd Hi. pose proof (lookup_lt_Some _ _ _ Hi) as Hlt.
  destruct (field_offset_bounds d i f Hd Hi) as [Hlo _]. pose proof (draft_bounds d Hd) as Hb.
  destruct (Field_read mem d h Hst Hd i f Hi) as (Hf & _ & _).
  unfold Next, cursor_at. cbn [fc_storage_ fc_remaining_ fc_offset_].
  rewrite (decide_True (P := (i < _)%nat)) by done.
  destruct (Z.eqb_spec (Z.of_nat (length (d_fields d) - i)) 0); [lia|].
  destruct (Z.eqb_spec (field_offset d i) 0); [layout_lia|]. cbn [orb].
  rewrite Hf. cbn [field_meta next_offset]. do 3 f_equal.
  unfold zlen in *. rewrite w32_small by layout_lia. lia.
Qed.

Lemma Next_end mem d i :
  (length (d_fields d) <= i)%nat -> (Next (cursor_at mem d i)).1 = None.
Proof.
  intros Hi. unfold Next, cursor_at. cbn [fc_storage_ fc_remaining_ fc_offset_].
  by replace (length (d_fields d) - i)%nat with 0%nat by lia.
Qed.

Lemma SkipFields_at mem d h n i :
  stored mem d h -> draft_ok d -> (i + n <= length (d_fields d))%nat ->
  SkipFields n (cursor_at mem d i) = cursor_at mem d (i + n).
Proof.
  intros Hst Hd. revert i. induction n as [|n IH]; intros i Hi; [by rewrite Nat.add_0_r|].
  destruct (lookup_lt_is_Some_2 (d_fields d) i) as [f Hf]; [lia|].
  cbn [SkipFields]. rewrite (Next_at mem d h i f Hst Hd Hf). cbn [snd].
  rewrite IH by lia. f_equal. lia.
Qed.

(** Everything a consumer can read from a published record. *)
Record shows_record (v : RecordView) (d : Draft) (truncated : bool) : Prop := {
  sh_level : view_level v = d_level d;
  sh_timestamp : view_event_timestamp v = d_timestamp d;
  sh_path : source_path v = file_name_ (d_source d);
  sh_function : source_function v = function_name_ (d_source d);
  sh_line : view_source_line v = line_ (d_source d);
  sh_column : view_source_column v = column_ (d_source d);
  sh_message : message v = d_message d;
  sh_truncated : view_truncated v = truncated;
  sh_count : view_field_count v = zlen (d_fields d);
  sh_fields : exists mem, rv_storage_ v = Some mem /\ Fields v = cursor_at mem d 0
    /\ forall i f, d_fields d !! i = Some f ->
         Next (cursor_at mem d i)
         = (Some {| fv_storage_ := Some mem; fv_offset_ := field_offset d i |},
            cursor_at mem d (S i))
         /\ (value_ok (df_value f) ->
             shows_field {| fv_storage_ := Some mem; fv_offset_ := field_offset d i |} f);
}.

Lemma published_shows s d truncated r :
  published s d truncated -> shows_record (view_of s r) d truncated.
Proof.
  intros [_ Hd Hs _]. pose proof (final_header_ok d truncated Hd) as Hok.
  assert (Header (Some (storage_ s)) = final_header d truncated) as Hh
    by (apply (ReadHeader _ _ _ Hs Hok)).
  split; unfold view_level, view_event_timestamp, source_path, source_function, view_source_line,
    view_source_column, message, view_truncated, view_field_count, Fields;
    cbn [rv_storage_ view_of]; rewrite ?Hh; try done.
  - apply (st_path _ _ _ Hs).
  - apply (st_function _ _ _ Hs).
  - apply (st_message _ _ _ Hs).
  - by destruct truncated.
  - exists (storage_ s). split_and!; [done| |].
    + unfold cursor_at. cbn [final_header draft_header first_field_offset field_count].
      rewrite Nat.sub_0_r. f_equal. unfold first_offset.
      destruct (d_fields d); [done|]. by rewrite decide_True by (simpl; lia).
    + intros i f Hi. split; [by eapply Next_at|]. intros Hv.
      by apply (shows_field_at _ d _ Hs Hd).
Qed.

(** [FieldAt] finds the fields in the order they were added. *)
Lemma FieldAt_published s d truncated r i :
  published s d truncated ->
  match d_fields d !! i with
  | Some f => exists v, FieldAt (view_of s r) (Z.of_nat i) = Some v
                /\ (value_ok (df_value f) -> shows_field v f)
  | None => FieldAt (view_of s r) (Z.of_nat i) = None
  end.
Proof.
  intros Hp. pose proof Hp as [_ Hd Hs _].
  destruct (published_shows s d truncated r Hp) as [? ? ? ? ? ? ? ? Hcount (mem & Hmem & Hf & Hnext)].
  injection Hmem as <-.
  unfold FieldAt. rewrite Hcount, Nat2Z.id. destruct (d_fields d !! i) as [f|] eqn:Hi.
  - pose proof (lookup_lt_Some _ _ _ Hi). unfold zlen.
    destruct (Z.leb_spec (Z.of_nat (length (d_fields d))) (Z.of_nat i)); [lia|].
    rewrite Hf, (SkipFields_at _ _ _ i 0 Hs Hd) by lia. cbn [Nat.add].
    destruct (Hnext i f Hi) as [-> Hv]. eexists. split; [done|exact Hv].
  - apply lookup_ge_None in Hi. unfold zlen.
    destruct (Z.leb_spec (Z.of_nat (length (d_fields d))) (Z.of_nat i)); [done|lia].
Qed.

(** ** Building a record *)

Section Build.
Context (general_to_chars : Z -> option (list byte)).

(** The text an operation appends, if it formats; and the operation itself. *)
Definition op_appends (op : build_op) : option (list byte) :=
  match op with
  | op_text text => Some text
  | op_int64 v => to_chars (18 + 3) v
  | op_uint64 v => to_chars (19 + 3) v
  | op_double bits => general_to_chars bits
  | op_bool b => Some (if b then [116; 114; 117; 101] else [102; 97; 108; 115; 101])
  | op_field _ => None
  end.

Definition run_field (f : DraftField) : RecordWriter -> RecordSlot -> bool * RecordWriter * RecordSlot :=
  match df_value f with
  | VString bs => AddFieldString (df_key f) bs
  | VInt64 z => AddFieldInt64 (df_key f) z
  | VUInt64 z => AddFieldUInt64 (df_key f) z
  | VDouble bits => AddFieldDouble (df_key f) bits
  | VBool b => AddFieldBool (df_key f) b
  | VNull => AddFieldNull (df_key f)
  end.

Definition run_op (op : build_op) (w : RecordWriter) (s : RecordSlot) : RecordWriter * RecordSlot :=
  match op with
  | op_text text => let '(_, w, s) := AppendBytes text w s in (w, s)
  | op_int64 v => let '(_, w, s) := AppendInt64 v w s in (w, s)
  | op_uint64 v => let '(_, w, s) := AppendUInt64 v w s in (w, s)
  | op_double bits => let '(_, w, s) := AppendDouble general_to_chars bits w s in (w, s)
  | op_bool b => let '(_, w, s) := AppendBool b w s in (w, s)
  | op_field f => let '(_, w, s) := run_field f w s in (w, s)
  end.

Fixpoint run_ops (ops : list build_op) (w : RecordWriter) (s : RecordSlot)
    : RecordWriter * RecordSlot :=
  match ops with
  | [] => (w, s)
  | op :: ops' => let '(w, s) := run_op op w s in run_ops ops' w s
  end.

Definition draft_op (op : build_op) (d : Draft) : Draft :=
  match op with
  | op_field f => default d (draft_add f d)
  | _ => match op_appends op with Some text => draft_append text d | None => d end
  end.

Definition draft_ops (ops : list build_op) (d : Draft) : Draft :=
  fold_left (fun d op => draft_op op d) ops d.

Definition op_ok (op : build_op) : Prop :=
  match op with
  | op_field f => value_ok (df_value f)
  | op_int64 v => is_s64 v
  | op_uint64 v => 0 <= v < 2 ^ 64
  | _ => forall text, op_appends op = Some text -> bytes_ok text
  end.

Lemma to_chars_bytes size v text :
  20 <= size -> - 2 ^ 63 <= v < 2 ^ 64 -> to_chars size v = Some text -> bytes_ok text.
Proof.
  intros Hs Hv Ht. destruct (to_chars_spec size v Hs Hv) as (t & Ht' & _ & _ & Hb).
  rewrite Ht in Ht'. injection Ht' as <-. revert Hb. apply Forall_impl. lia.
Qed.

Lemma op_appends_bytes op text : op_ok op -> op_appends op = Some text -> bytes_ok text.
Proof.
  unfold is_s64. destruct op; simpl; intros Hok Ht; try (by apply Hok); try done.
  - eapply (to_chars_bytes 21); [lia| |done]. unfold is_s64 in *. lia.
  - eapply (to_chars_bytes 22); [lia| |done]. lia.
Qed.

Lemma run_op_refines op w s d :
  represents w s d -> op_ok op ->
  let '(w', s') := run_op op w s in represents w' s' (draft_op op d).
Proof.
  intros Hrep Hok.
  assert (forall text, bytes_ok text ->
    let '(_, w', s') := AppendBytes text w s in represents w' s' (draft_append text d)) as Happ.
  { intros text Ht. pose proof (AppendBytes_refines w s d text Hrep Ht) as H.
    destruct (AppendBytes text w s) as [[? ?] ?]. apply H. }
  pose proof (fun text => op_appends_bytes op text Hok) as Hbytes.
  unfold run_op, draft_op.
  destruct op as [text|v|v|bits|b|f]; cbn [op_appends] in *.
  - specialize (Happ text (Hbytes _ eq_refl)). by destruct (AppendBytes text w s) as [[? ?] ?].
  - unfold AppendInt64, AppendNumber. destruct (to_chars (18 + 3) v) as [text|] eqn:Ht; [|done].
    specialize (Happ text (Hbytes _ eq_refl)). by destruct (AppendBytes text w s) as [[? ?] ?].
  - unfold AppendUInt64, AppendNumber. destruct (to_chars (19 + 3) v) as [text|] eqn:Ht; [|done].
    specialize (Happ text (Hbytes _ eq_refl)). by destruct (AppendBytes text w s) as [[? ?] ?].
  - unfold AppendDouble. destruct (general_to_chars bits) as [text|] eqn:Ht; [|done].
    specialize (Happ text (Hbytes _ eq_refl)). by destruct (AppendBytes text w s) as [[? ?] ?].
  - specialize (Happ _ (Hbytes _ eq_refl)). unfold AppendBool.
    by destruct (AppendBytes _ w s) as [[? ?] ?].
  - assert (run_field f = AddDraftField f) as ->.
    { unfold run_field, AddDraftField. by destruct (df_value f). }
    pose proof (AddDraftField_refines w s d f Hrep) as H.
    destruct (AddDraftField f w s) as [[? ?] ?].
    destruct (draft_add f d); [apply H|]. by destruct H as (_ & -> & ->).
Qed.

Lemma run_ops_refines ops w s d :
  represents w s d -> Forall op_ok ops ->
  let '(w', s') := run_ops ops w s in represents w' s' (draft_ops ops d).
Proof.
  intros Hrep Hok. revert w s d Hrep. induction Hok as [|op ops Hop _ IH]; intros w s d Hrep; [done|].
  cbn [run_ops draft_ops fold_left]. pose proof (run_op_refines op w s d Hrep Hop) as H.
  destruct (run_op op w s) as [w' s']. by apply IH.
Qed.

(** A whole record: begin, the builder's operations, publish. *)
Definition build (limit : Z) (lvl : Level) (source : SourceLocation) (timestamp : Z)
    (ops : list build_op) (s : RecordSlot) : StoredRecord * RecordSlot :=
  let '(w, s) := Begin limit lvl source timestamp s in
  let '(w, s) := run_ops ops w s in
  let '(r, _, s) := Publish w s in (r, s).

Definition drafted (limit : Z) (lvl : Level) (source : SourceLocation) (timestamp : Z)
    (ops : list build_op) : option (Draft * bool) :=
  draft_publish (draft_ops ops (draft_begin limit lvl source timestamp)).
End Build.

(** ** Lemmas: what a draft keeps *)

Section Drafts.
Context (general_to_chars : Z -> option (list byte)).

(** The text and the fields a sequence of operations asks for. *)
Definition op_text_of (op : build_op) : list byte :=
  default [] (op_appends general_to_chars op).

Definition text_of (ops : list build_op) : list byte := concat (op_text_of <$> ops).

Definition op_fields (op : build_op) : list DraftField :=
  match op with op_field f => [f] | _ => [] end.

Definition fields_of (ops : list build_op) : list DraftField := concat (op_fields <$> ops).

(** A draft that was asked for [text]: it kept a prefix, and the whole of it unless
    it is full; it counts what it was asked for. *)
Record keeps (d : Draft) (text : list byte) : Prop := {
  kp_room : 0 <= d_room d;
  kp_prefix : d_message d `prefix_of` text;
  kp_full : d_message d = text \/ d_room d = 0;
  kp_requested : d_requested d = zlen text;
}.

Lemma keeps_append d text t :
  keeps d text -> zlen (text ++ t) < 2 ^ 64 -> keeps (draft_append t d) (text ++ t).
Proof.
  intros [Hr [rest Hp] Hf Hq] Hlen. rewrite zlen_app in Hlen. pose proof (zlen_nonneg t).
  pose proof (zlen_nonneg text).
  assert (d_room (draft_append t d) = d_room d - Z.min (d_room d) (zlen t)) as Hroom.
  { unfold d_room, d_size. cbn [draft_append modify d_limit d_message d_fields].
    change (d_front (draft_append t d)) with (d_front d).
    rewrite zlen_app, zlen_take by done. unfold d_room, d_size. lia. }
  split.
  - lia.
  - cbn [draft_append modify d_message]. destruct Hf as [->|Hz].
    + apply prefix_app. rewrite <- (take_drop (Z.to_nat (d_room d)) t) at 2. by apply prefix_app_r.
    + rewrite Hz, take_0, app_nil_r, Hp, <- app_assoc. by apply prefix_app_r.
  - rewrite Hroom. cbn [draft_append modify d_message]. destruct Hf as [->|Hz]; [|right; lia].
    destruct (decide (zlen t <= d_room d)); [left|right; lia].
    f_equal. apply take_ge. unfold zlen in *. lia.
  - cbn [draft_append modify d_requested]. rewrite Hq, zlen_app. unfold SaturatingAdd, u64_max.
    rewrite (w64_small (zlen t)) by lia.
    destruct (Z.ltb_spec (2 ^ 64 - 1 - zlen text) (zlen t)); [lia|]. by rewrite w64_small by lia.
Qed.

Lemma keeps_op d text op :
  keeps d text -> zlen (text ++ op_text_of op) < 2 ^ 64 ->
  keeps (draft_op general_to_chars op d) (text ++ op_text_of op).
Proof.
  intros Hk Hlen. unfold draft_op, op_text_of in *.
  destruct op as [t|v|v|bits|b|f]; cbn [op_appends default] in *.
  1-5: repeat case_match; simpl in *; rewrite ?app_nil_r in *; simplify_eq;
    first [done|by apply keeps_append].
  simpl. rewrite app_nil_r. unfold draft_add. destruct (Z.leb_spec (field_size f) (d_room d)) as [Hle|]; [|done].
  change (default d (Some (add_field f d))) with (add_field f d). pose proof (field_size_pos f).
  assert (d_room (add_field f d) = d_room d - field_size f) as Hroom.
  { unfold d_room, d_size. cbn [add_field modify d_limit d_message d_fields].
    change (d_front (add_field f d)) with (d_front d). rewrite sumZ_app. simpl. lia. }
  destruct Hk as [? ? [Hf|?] ?]; [|lia]. split; try done; [lia|by left].
Qed.

Lemma keeps_ops ops d text :
  keeps d text -> zlen (text ++ text_of ops) < 2 ^ 64 ->
  keeps (draft_ops general_to_chars ops d) (text ++ text_of ops).
Proof.
  revert d text. induction ops as [|op ops IH]; intros d text Hk Hlen.
  { unfold text_of. simpl. by rewrite app_nil_r. }
  unfold text_of in *. cbn [fmap list_fmap concat] in *. rewrite app_assoc in *.
  cbn [draft_ops fold_left]. apply IH; [|done]. apply keeps_op; [done|].
  rewrite zlen_app in Hlen. pose proof (zlen_nonneg (concat (op_text_of <$> ops))). lia.
Qed.

(** When everything fits, everything is kept. *)
Lemma fits_ops ops d :
  zlen (text_of ops) + sumZ field_size (fields_of ops) <= d_room d ->
  let d' := draft_ops general_to_chars ops d in
  d_message d' = d_message d ++ text_of ops /\ d_fields d' = d_fields d ++ fields_of ops
  /\ d_limit d' = d_limit d /\ d_source d' = d_source d.
Proof.
  revert d. induction ops as [|op ops IH]; intros d Hfit.
  { unfold text_of, fields_of. simpl. by rewrite !app_nil_r. }
  unfold text_of, fields_of in *. cbn [fmap list_fmap concat] in *.
  rewrite zlen_app, sumZ_app in Hfit.
  set (T := concat (op_text_of <$> ops)) in *. set (F := concat (op_fields <$> ops)) in *.
  pose proof (zlen_nonneg T). pose proof (zlen_nonneg (op_text_of op)).
  assert (0 <= sumZ field_size F).
  { apply sumZ_nonneg. intros f _. pose proof (field_size_pos f). lia. }
  assert (let d' := draft_op general_to_chars op d in
    d_message d' = d_message d ++ op_text_of op /\ d_fields d' = d_fields d ++ op_fields op
    /\ d_limit d' = d_limit d /\ d_source d' = d_source d) as (Hm & Hf & Hl & Hs).
  { assert (forall t, zlen t <= d_room d -> let d' := draft_append t d in
      d_message d' = d_message d ++ t /\ d_fields d' = d_fields d ++ []
      /\ d_limit d' = d_limit d /\ d_source d' = d_source d) as Happ.
    { intros t Ht. cbn [draft_append modify d_message d_fields d_limit d_source].
      rewrite app_nil_r. split_and!; try done. f_equal. apply take_ge. unfold zlen in *. lia. }
    unfold draft_op, op_text_of in *. cbv zeta in *.
    destruct op as [t|v|v|bits|b|f]; cbn [op_appends default op_fields sumZ] in *.
    1-5: try (case_match); simpl in *; rewrite ?app_nil_r in *; first [done|apply Happ; lia].
    rewrite app_nil_r. unfold draft_add. rewrite (proj2 (Z.leb_le _ _)) by lia. done. }
  cbv zeta in *. cbn [draft_ops fold_left].
  destruct (IH (draft_op general_to_chars op d)) as (Hm' & Hf' & Hl' & Hs').
  { unfold d_room, d_size, d_front in *. rewrite Hm, Hf, Hl, Hs, zlen_app, sumZ_app. lia. }
  unfold draft_ops in *. rewrite Hm', Hf', Hl', Hs', Hm, Hf, Hl, Hs, <- !app_assoc. done.
Qed.
End Drafts.

(** What [draft_publish] keeps. *)
Lemma draft_truncate_spec d d' :
  bytes_ok (d_message d) -> zlen (d_message d) <= kMaximumRecordBytes -> utf8 (d_message d) ->
  draft_truncate d = Some d' ->
  d_fields d' = d_fields d ++ [truncated_field] /\ d_message d' `prefix_of` d_message d
  /\ utf8 (d_message d').
Proof.
  intros Hb Hl Hu. unfold draft_truncate, draft_add.
  destruct (Z.ltb_spec (d_room d) (field_size truncated_field)).
  - case_match; [done|]. case_match; [|done]. b2p. intros [= <-].
    cbn [add_field modify d_fields d_message]. split_and!; [done|..].
    + unfold cut_utf8. rewrite take_take.
      match goal with |- take ?n ?l `prefix_of` _ =>
        exists (drop n l); symmetry; apply take_drop end.
    + match goal with |- utf8 (cut_utf8 ?m) => apply (ValidUtf8PrefixLength_spec m) end.
      * by apply Forall_take.
      * pose proof (zlen_nonneg (d_message d)). rewrite zlen_take by lia. layout_lia.
  - case_match; [|done]. intros [= <-]. done.
Qed.

Lemma draft_publish_spec d d' truncated :
  draft_ok d -> draft_publish d = Some (d', truncated) ->
  utf8 (d_message d') /\ d_message d' `prefix_of` d_message d
  /\ (truncated = false -> d_message d' = cut_utf8 (d_message d)
        /\ d_requested d = zlen (d_message d') /\ d_fields d' = d_fields d)
  /\ (truncated = true -> d_requested d <> zlen (cut_utf8 (d_message d))
        /\ zlen (d_message d') <= zlen (cut_utf8 (d_message d))
        /\ d_fields d' = d_fields d ++ [truncated_field])
  /\ draft_chargeable d' = true.
Proof.
  intros Hd. unfold draft_publish. pose proof (draft_bounds d Hd) as Hb.
  pose proof (do_message _ Hd) as Hok.
  destruct (ValidUtf8PrefixLength_spec (d_message d) Hok) as (Hv & Hu & _); [layout_lia|].
  set (cut := cut_utf8 (d_message d)).
  assert (cut `prefix_of` d_message d) as Hpre.
  { unfold cut, cut_utf8. eexists. symmetry. apply take_drop. }
  assert (zlen cut <= kMaximumRecordBytes) as Hcl.
  { destruct Hpre as [rest Hr]. rewrite Hr, zlen_app in Hb. pose proof (zlen_nonneg rest). layout_lia. }
  cbn [modify d_requested d_message]. fold cut.
  destruct (Z.eqb_spec (d_requested d) (zlen cut)).
  - case_match eqn:Hc; [|done]. intros [= <- <-]. cbn [d_message d_fields]. by split_and!.
  - destruct (draft_truncate _) as [d2|] eqn:Ht; [|done].
    case_match eqn:Hc; [|done]. intros [= <- <-].
    apply draft_truncate_spec in Ht as (Hf & Hp & Hu'); [| |done|done].
    2:{ by apply Forall_take. }
    cbn [d_message d_fields] in *. split_and!; try done.
    + by etrans.
    + intros _. destruct Hp as [rest Hr]. split_and!; try done.
      rewrite Hr, zlen_app. pose proof (zlen_nonneg rest). lia.
Qed.

Record build_pre (gc : Z -> option (list byte)) (limit : Z) (lvl : Level)
    (source : SourceLocation) (timestamp : Z) (ops : list build_op) (s : RecordSlot) : Prop := {
  bp_source : source_ok source;
  bp_timestamp : is_s64 timestamp;
  bp_level : 0 <= lvl < 256;
  bp_reset : state_ s = kReset;
  bp_storage : zlen (storage_ s) = kMaximumRecordBytes;
  bp_accepts : begin_accepts limit lvl source;
  bp_ops : Forall (op_ok gc) ops;
}.

Lemma build_refines gc limit lvl source timestamp ops s :
  build_pre gc limit lvl source timestamp ops s ->
  let '(r, s') := build gc limit lvl source timestamp ops s in
  zlen (storage_ s') = kMaximumRecordBytes /\
  match drafted gc limit lvl source timestamp ops with
  | Some (d, truncated) => r = stored_record d truncated /\ published s' d truncated
  | None => r = no_record /\ state_ s' = kReset
  end.
Proof.
  intros [Hsrc Hts Hl Hst Hlen Hacc Hops]. unfold build, drafted.
  pose proof (Begin_represents limit lvl source timestamp s Hsrc Hts Hl Hst Hlen Hacc) as H.
  destruct (Begin limit lvl source timestamp s) as [w1 s1].
  pose proof (run_ops_refines gc ops w1 s1 _ H Hops) as H2.
  destruct (run_ops gc ops w1 s1) as [w2 s2].
  pose proof (Publish_refines w2 s2 _ H2) as H3.
  destruct (Publish w2 s2) as [[r w3] s3]. apply H3.
Qed.

(** The draft before [Publish]. *)
Lemma drafted_spec gc limit lvl source timestamp ops s :
  build_pre gc limit lvl source timestamp ops s -> zlen (text_of gc ops) < 2 ^ 64 ->
  let d := draft_ops gc ops (draft_begin limit lvl source timestamp) in
  draft_ok d /\ keeps d (text_of gc ops).
Proof.
  intros [Hsrc Hts Hl Hst Hlen Hacc Hops] Ht.
  pose proof (Begin_represents limit lvl source timestamp s Hsrc Hts Hl Hst Hlen Hacc) as H.
  destruct (Begin limit lvl source timestamp s) as [w1 s1].
  pose proof (run_ops_refines gc ops w1 s1 _ H Hops) as H2.
  destruct (run_ops gc ops w1 s1) as [w2 s2]. split; [apply H2|].
  apply (keeps_ops gc ops _ []); [|done].
  split; try done; [apply (do_room _ (rp_draft _ _ _ H))|by left].
Qed.

(** What every operation of a builder leaves alone. *)
Definition same_origin (d d' : Draft) : Prop :=
  d_limit d' = d_limit d /\ d_level d' = d_level d /\ d_timestamp d' = d_timestamp d
  /\ d_source d' = d_source d.

Lemma draft_op_origin gc op d : same_origin d (draft_op gc op d).
Proof.
  unfold draft_op, draft_add.
  destruct op; repeat case_match; try done; simpl; by case_match.
Qed.

Lemma draft_ops_origin gc ops d : same_origin d (draft_ops gc ops d).
Proof.
  revert d. induction ops as [|op ops IH]; intros d; [done|]. cbn [draft_ops fold_left].
  pose proof (draft_op_origin gc op d) as Hop. specialize (IH (draft_op gc op d)).
  unfold same_origin, draft_ops in *. split_hyps. split_and!; congruence.
Qed.

Lemma draft_publish_origin d d' t : draft_publish d = Some (d', t) -> same_origin d d'.
Proof.
  unfold draft_publish, draft_truncate, draft_add. intros H.
  repeat (case_match; simplify_eq); done.
Qed.

Lemma drafted_origin gc limit lvl source timestamp ops d t :
  drafted gc limit lvl source timestamp ops = Some (d, t) ->
  same_origin (draft_begin limit lvl source timestamp) d.
Proof.
  intros H%draft_publish_origin.
  destruct (draft_ops_origin gc ops (draft_begin limit lvl source timestamp)) as (? & ? & ? & ?).
  destruct H as (? & ? & ? & ?). unfold same_origin. split_and!; congruence.
Qed.

(** ** Properties *)

(** C7: building a record in a slot and reading it back through the views shows
    exactly what the builder's operations mean: level, timestamp, source, message,
    truncation flag and every field in order, with its kind and value; when the
    draft cannot be published nothing is stored and the slot is reset.  Every write
    stays inside the slot. *)
Theorem build_round_trip gc limit lvl source timestamp ops s i :
  build_pre gc limit lvl source timestamp ops s ->
  let '(r, s') := build gc limit lvl source timestamp ops s in
  zlen (storage_ s') = kMaximumRecordBytes /\
  match drafted gc limit lvl source timestamp ops with
  | None => sr_storage r = false /\ state_ s' = kReset
  | Some (d, truncated) =>
      let v := view_of s' r in
      sr_storage r = true /\ sr_truncated r = truncated /\ shows_record v d truncated
      /\ match d_fields d !! i with
         | Some f => exists fv, FieldAt v (Z.of_nat i) = Some fv
                       /\ (value_ok (df_value f) -> shows_field fv f)
         | None => FieldAt v (Z.of_nat i) = None
         end
  end.
Proof.
  intros Hpre. pose proof (build_refines gc limit lvl source timestamp ops s Hpre) as H.
  destruct (build gc limit lvl source timestamp ops s) as [r s']. destruct H as [Hlen H].
  split; [done|]. destruct (drafted gc limit lvl source timestamp ops) as [[d t]|].
  - destruct H as [-> Hp]. split_and!; [done..|by apply published_shows|].
    by eapply FieldAt_published.
  - by destruct H as [-> ->].
Qed.

(** C24: a stored message is well-formed UTF-8 and a prefix of the text that was
    appended; the record is flagged truncated exactly when it is not the whole
    text, and then its last field is ["ulog.truncated"], true. *)
Theorem build_truncation gc limit lvl source timestamp ops s d truncated :
  build_pre gc limit lvl source timestamp ops s ->
  zlen (text_of gc ops) < 2 ^ 64 ->
  drafted gc limit lvl source timestamp ops = Some (d, truncated) ->
  let '(r, s') := build gc limit lvl source timestamp ops s in
  let v := view_of s' r in
  utf8 (message v) /\ message v `prefix_of` text_of gc ops
  /\ view_truncated v = truncated
  /\ (truncated = false <-> message v = text_of gc ops)
  /\ (truncated = true ->
        exists fv, FieldAt v (view_field_count v - 1) = Some fv
          /\ key fv = kTruncatedFieldKey /\ AsBool fv = Some true).
Proof.
  intros Hpre Hlen Hdr. pose proof (build_refines gc limit lvl source timestamp ops s Hpre) as H.
  destruct (drafted_spec gc limit lvl source timestamp ops s Hpre Hlen) as [Hd [_ Hp Hf Hq]].
  destruct (build gc limit lvl source timestamp ops s) as [r s']. rewrite Hdr in H.
  destruct H as [_ [-> Hpub]]. cbv zeta.
  destruct (published_shows s' d truncated (stored_record d truncated) Hpub)
    as [_ _ _ _ _ _ -> -> Hcount _]. rewrite Hcount.
  unfold drafted in Hdr. set (d0 := draft_ops _ _ _) in *.
  destruct (draft_publish_spec d0 d truncated Hd Hdr) as (Hu & Hpre0 & Hfalse & Htrue & _).
  assert (forall a b : list byte, a `prefix_of` b -> zlen a = zlen b -> a = b) as Hsame.
  { intros a b [k ->]. rewrite zlen_app. intros Hz. assert (k = []) as -> by (apply zlen_nil; lia).
    by rewrite app_nil_r. }
  assert (d_message d `prefix_of` text_of gc ops) as Hpt by (by etrans).
  split_and!; [done|done|done| |].
  - split.
    + intros Ht. destruct (Hfalse Ht) as (_ & Hrq & _). apply Hsame; [done|congruence].
    + intros Ht. destruct truncated; [|done]. destruct (Htrue eq_refl) as (Hne & Hle & _).
      exfalso. apply Hne. rewrite Hq, <- Ht. apply Z.le_antisymm; [done|].
      assert (d_message d0 = d_message d) as Hm.
      { rewrite Ht in Hpre0 |- *. apply Hsame; [done|].
        destruct Hp as [a Ha], Hpre0 as [b Hb]. apply (f_equal zlen) in Ha, Hb.
        rewrite zlen_app in Ha, Hb. pose proof (zlen_nonneg a). pose proof (zlen_nonneg b). lia. }
      rewrite <- Hm. unfold cut_utf8, zlen. rewrite length_take. lia.
  - intros Ht. destruct (Htrue Ht) as (_ & _ & Hfields). subst truncated.
    pose proof (FieldAt_published s' d true (stored_record d true) (length (d_fields d0)) Hpub) as HF.
    assert (d_fields d !! length (d_fields d0) = Some truncated_field) as Hlast
      by (rewrite Hfields; apply list_lookup_middle; done).
    rewrite Hlast in HF. destruct HF as (fv & HF & Hs). exists fv.
    replace (zlen (d_fields d) - 1) with (Z.of_nat (length (d_fields d0))).
    2:{ rewrite Hfields, zlen_app. unfold zlen. simpl. lia. }
    destruct (Hs I) as (? & _ & _ & _ & _ & _ & ? & _). done.
Qed.

(** C25: under an aligned limit, well-formed text and fields that fit together are
    stored whole: the record is not truncated, the message is the text and the
    fields are the ones that were added, in order. *)
Theorem build_complete gc limit lvl source timestamp ops s :
  build_pre gc limit lvl source timestamp ops s ->
  limit mod kAccountingQuantumBytes = 0 -> utf8 (text_of gc ops) ->
  kSerializedRecordMetadataBytes + zlen (file_name_ source) + zlen (function_name_ source)
    + zlen (text_of gc ops) + sumZ field_size (fields_of ops) <= limit ->
  let '(r, s') := build gc limit lvl source timestamp ops s in
  let v := view_of s' r in
  sr_storage r = true /\ view_truncated v = false /\ message v = text_of gc ops
  /\ view_field_count v = zlen (fields_of ops)
  /\ (forall i f, fields_of ops !! i = Some f -> value_ok (df_value f) ->
        exists fv, FieldAt v (Z.of_nat i) = Some fv /\ shows_field fv f).
Proof.
  intros Hpre Hmod Hu Hfit. pose proof (build_refines gc limit lvl source timestamp ops s Hpre) as H.
  pose proof (bp_accepts _ _ _ _ _ _ _ Hpre) as (Hlim & _ & _).
  pose proof (zlen_nonneg (file_name_ source)). pose proof (zlen_nonneg (function_name_ source)).
  pose proof (zlen_nonneg (text_of gc ops)).
  assert (0 <= sumZ field_size (fields_of ops)) by (pose proof (field_sizes_take (fields_of ops) 0); lia).
  destruct (drafted_spec gc limit lvl source timestamp ops s Hpre) as [Hd [_ _ _ Hq]]; [layout_lia|].
  destruct (fits_ops gc ops (draft_begin limit lvl source timestamp)) as (Hm & Hf & Hdl & Hds).
  { unfold d_room, d_size, d_front. cbn [draft_begin d_source d_message d_fields d_limit sumZ].
    change (zlen []) with 0. lia. }
  unfold drafted in H. set (d0 := draft_ops _ _ _) in *. cbn [draft_begin d_message d_fields app] in Hm, Hf.
  assert (cut_utf8 (d_message d0) = d_message d0) as Hcut.
  { unfold cut_utf8. rewrite Hm, ValidUtf8PrefixLength_id; [apply take_ge; unfold zlen; lia| |layout_lia|done].
    rewrite <- Hm. apply Hd. }
  assert (draft_publish d0 = Some (d0, false)) as Hpub.
  { unfold draft_publish. assert (d0 <| d_message ::= cut_utf8 |> = d0) as ->.
    { destruct d0. cbn in *. by rewrite Hcut. }
    rewrite Hq, Hm, Z.eqb_refl. unfold draft_chargeable.
    rewrite (proj2 (Z.leb_le _ _)); [done|].
    assert (d_limit d0 = limit) as -> by done.
    assert (d_size d0 = kSerializedRecordMetadataBytes + zlen (file_name_ source)
              + zlen (function_name_ source) + zlen (text_of gc ops) + sumZ field_size (fields_of ops))
      as -> by (unfold d_size, d_front; rewrite Hm, Hf, Hds; done).
    unfold kAccountingQuantumBytes in *.
    pose proof (Z.div_mod limit 64 ltac:(lia)). unfold size_max.
    apply AccountingCharge_le_limit; try layout_lia; unfold size_max; layout_lia. }
  rewrite Hpub in H. destruct (build gc limit lvl source timestamp ops s) as [r s'].
  destruct H as [_ [-> Hp]]. cbv zeta.
  destruct (published_shows s' d0 false (stored_record d0 false) Hp) as [_ _ _ _ _ _ -> -> -> _].
  rewrite Hm, Hf. split_and!; try done. intros i f Hi Hv.
  pose proof (FieldAt_published s' d0 false (stored_record d0 false) i Hp) as HF.
  rewrite Hf, Hi in HF. destruct HF as (fv & HF & Hs). eauto.
Qed.

(** The accounting of a stored record: its size lies between the metadata and
    the limit, and its charge is a multiple of the quantum that covers the size and
    stays within the limit it was built under. *)
Lemma build_accounting gc limit lvl source timestamp ops s :
  build_pre gc limit lvl source timestamp ops s ->
  let '(r, _) := build gc limit lvl source timestamp ops s in
  sr_storage r = true ->
  kSerializedRecordMetadataBytes <= sr_serialized_bytes r <= sr_accounting_charge_bytes r
  /\ sr_accounting_charge_bytes r mod kAccountingQuantumBytes = 0
  /\ sr_accounting_charge_bytes r <= kMaximumRecordBytes.
Proof.
  intros Hpre. pose proof (build_refines gc limit lvl source timestamp ops s Hpre) as H.
  destruct (build gc limit lvl source timestamp ops s) as [r s'].
  destruct (drafted gc limit lvl source timestamp ops) as [[d t]|];
    [|destruct H as [_ [-> _]]; done].
  destruct H as [_ [-> [_ Hd _ Hch]]]. intros _. cbn [stored_record sr_serialized_bytes
    sr_accounting_charge_bytes]. pose proof (draft_bounds d Hd). pose proof (do_room _ Hd) as Hr.
  unfold d_room in Hr.
  assert (kSerializedRecordMetadataBytes <= d_size d) by (unfold d_size; lia).
  destruct (AccountingCharge_bounds (d_size d)); [unfold size_max; layout_lia|].
  unfold kAccountingQuantumBytes. split_and!; layout_lia.
Qed.

(** ** Witnesses: one record that fits and one that is truncated *)

Definition demo_source : SourceLocation :=
  {| file_name_ := [97]; function_name_ := [102]; line_ := 7; column_ := 1 |}.
Definition demo_field : DraftField := {| df_key := [107]; df_value := VInt64 (-5) |}.
(** ["h" U+00E9 "true"] and the field [k=-5]. *)
Definition demo_ops : list build_op := [op_text [104; 0xC3; 0xA9]; op_field demo_field; op_bool true].
(** Eighty bytes where seventy are free. *)
Definition demo_long : list build_op := [op_text (replicate 80 97)].
Definition no_double : Z -> option (list byte) := fun _ => None.

Definition demo_draft : Draft :=
  {| d_limit := 128; d_level := kInfo; d_timestamp := -3; d_source := demo_source;
     d_message := [104; 0xC3; 0xA9; 116; 114; 117; 101]; d_requested := 7;
     d_fields := [demo_field] |}.
Definition demo_cut : Draft :=
  {| d_limit := 128; d_level := kInfo; d_timestamp := -3; d_source := demo_source;
     d_message := replicate 32 97; d_requested := 80; d_fields := [truncated_field] |}.

Lemma demo_pre ops :
  Forall (op_ok no_double) ops ->
  build_pre no_double 128 kInfo demo_source (-3) ops initial_slot.
Proof. intros Hops. split; try done; by_compute. Qed.

Lemma demo_ops_ok : Forall (op_ok no_double) demo_ops.
Proof.
  repeat constructor; simpl; try (intros text [= <-]; repeat constructor); try lia.
  all: by_compute.
Qed.

Lemma demo_long_ok : Forall (op_ok no_double) demo_long.
Proof.
  repeat constructor. simpl. intros text [= <-]. repeat (constructor; [lia|]). constructor.
Qed.

Lemma demo_drafted : drafted no_double 128 kInfo demo_source (-3) demo_ops = Some (demo_draft, false).
Proof. by vm_compute. Qed.

Lemma demo_cut_drafted : drafted no_double 128 kInfo demo_source (-3) demo_long = Some (demo_cut, true).
Proof. by vm_compute. Qed.

Lemma build_round_trip_witness :
  let '(r, s') := build no_double 128 kInfo demo_source (-3) demo_ops initial_slot in
  message (view_of s' r) = [104; 0xC3; 0xA9; 116; 114; 117; 101]
  /\ exists fv, FieldAt (view_of s' r) 0 = Some fv /\ AsInt64 fv = Some (-5).
Proof.
  pose proof (build_round_trip no_double 128 kInfo demo_source (-3) demo_ops initial_slot 0
                (demo_pre _ demo_ops_ok)) as H.
  destruct (build no_double 128 kInfo demo_source (-3) demo_ops initial_slot) as [r s'].
  rewrite demo_drafted in H. destruct H as (_ & _ & _ & Hs & fv & Hf & Hv).
  split; [exact (sh_message _ _ _ Hs)|]. exists fv. split; [exact Hf|].
  apply Hv. vm_compute. split; [discriminate|reflexivity].
Defined.

Lemma build_truncation_witness :
  let '(r, s') := build no_double 128 kInfo demo_source (-3) demo_long initial_slot in
  view_truncated (view_of s' r) = true /\ message (view_of s' r) `prefix_of` replicate 80 97.
Proof.
  pose proof (build_truncation no_double 128 kInfo demo_source (-3) demo_long initial_slot
                demo_cut true (demo_pre _ demo_long_ok) ltac:(by_compute) demo_cut_drafted) as H.
  destruct (build no_double 128 kInfo demo_source (-3) demo_long initial_slot) as [r s'].
  destruct H as (_ & Hp & Ht & _). split; [exact Ht|exact Hp].
Defined.

Lemma build_complete_witness :
  let '(r, s') := build no_double 128 kInfo demo_source (-3) demo_ops initial_slot in
  sr_storage r = true /\ view_field_count (view_of s' r) = 1.
Proof.
  pose proof (build_complete no_double 128 kInfo demo_source (-3) demo_ops initial_slot
                (demo_pre _ demo_ops_ok)) as H.
  destruct (build no_double 128 kInfo demo_source (-3) demo_ops initial_slot) as [r s'].
  destruct H as (Hs & _ & _ & Hc & _); [reflexivity| |by_compute|split; [exact Hs|exact Hc]].
  apply (utf8_cons [104]); [apply utf8_1; lia|]. apply (utf8_cons [0xC3; 0xA9]); [apply utf8_2; lia|].
  repeat (apply (utf8_cons [_]); [apply utf8_1; lia|]). apply utf8_nil.
Defined.

Lemma build_accounting_witness :
  let '(r, _) := build no_double 128 kInfo demo_source (-3) demo_long initial_slot in
  sr_storage r = true -> sr_accounting_charge_bytes r mod 64 = 0.
Proof.
  pose proof (build_accounting no_double 128 kInfo demo_source (-3) demo_long initial_slot
                (demo_pre _ demo_long_ok)) as H.
  destruct (build no_double 128 kInfo demo_source (-3) demo_long initial_slot) as [r s'].
  intros Hr. apply H, Hr.
Defined.
