(* ===== verification/RawEncoder.v ===== *)
(** * The raw encoder ([src/encoding/raw_encoder.cpp])

    One line per record: ["tskv"], a tab and [key=value] per field, [text=message],
    a line feed, with backslash escapes.  The encoder sizes the line, then writes it
    at a cursor; [raw_frame] is the line it means, [parse_frame] reads a line back.
    The shortest text of a double ([std::to_chars]) is the argument [double_text]. *)
From S2P Require Import Prelude KernelTypes Charconv RecordLayout Utf8 RecordStorage.

(** ** Bytes *)

Definition kRawPrefix : list byte := [116; 115; 107; 118].
Definition kTextPrefix : list byte := [9; 116; 101; 120; 116; 61].
Definition kNullValue : list byte := [110; 117; 108; 108].
Definition kFieldSeparator : byte := 9.
Definition kKeyValueSeparator : byte := 61.
Definition kRecordTerminator : byte := 10.

(** The second character of an escape; [0] when the byte is written as it is. *)
Definition EscapeCode (value : byte) (is_key : bool) : byte :=
  if value =? 0 then 48
  else if value =? 9 then 116
  else if value =? 10 then 110
  else if value =? 13 then 114
  else if value =? 92 then 92
  else if value =? 61 then (if is_key then 61 else 0)
  else 0.

Definition NormalizeKeyByte (value : byte) : byte :=
  if (65 <=? value) && (value <=? 90) then value - 65 + 97 else value.

(** ** Sizing: [None] is the [false] of an overflow *)

Definition AddSize (total increment : Z) : option Z :=
  if size_max -w total <? increment then None else Some (total +w increment).

Fixpoint AddEscapedSize (total : Z) (value : list byte) (is_key : bool) : option Z :=
  match value with
  | [] => Some total
  | b :: value' =>
      total ← AddSize total (if EscapeCode b is_key =? 0 then 1 else 2);
      AddEscapedSize total value' is_key
  end.

(** [FormattedNumberSize], with its buffer of 64 characters. *)
Definition FormattedNumberSize (text : option (list byte)) : option Z := zlen <$> text.

Definition in_buffer (size : Z) (text : list byte) : option (list byte) :=
  if size <? zlen text then None else Some text.

Section Encoder.
Context (double_text : Z -> list byte).

(** [switch (field.kind())]: the kind is any byte, as the cast allows. *)
Definition AddFieldValueSize (total : Z) (field : FieldView) : option Z :=
  let k := view_kind field in
  if k =? FieldKind_value kString then
    value ← AsString field; AddEscapedSize total value false
  else if k =? FieldKind_value kInt64 then
    value ← AsInt64 field; size ← FormattedNumberSize (to_chars 64 value); AddSize total size
  else if k =? FieldKind_value kUInt64 then
    value ← AsUInt64 field; size ← FormattedNumberSize (to_chars 64 value); AddSize total size
  else if k =? FieldKind_value kDouble then
    value ← AsDouble field;
    size ← FormattedNumberSize (in_buffer 64 (double_text value)); AddSize total size
  else if k =? FieldKind_value kBool then
    _ ← AsBool field; AddSize total 1
  else if k =? FieldKind_value kNull then
    if IsNull field then AddSize total (zlen kNullValue) else None
  else None.

(** The field loop of [RequiredSize]; [n] iterations are left. *)
Fixpoint FieldsSize (n : nat) (fields : FieldCursor) (result : Z) : option Z :=
  match n with
  | O => Some result
  | S n' =>
      let '(field, fields) := Next fields in
      field ← field;
      result ← AddSize result 1;
      result ← AddEscapedSize result (key field) true;
      result ← AddSize result 1;
      result ← AddFieldValueSize result field;
      FieldsSize n' fields result
  end.

Definition RequiredSize (record : RecordView) : option Z :=
  result ← FieldsSize (Z.to_nat (view_field_count record)) (Fields record) (zlen kRawPrefix);
  result ← AddSize result (zlen kTextPrefix);
  result ← AddEscapedSize result (message record) false;
  AddSize result 1.

(** ** Writing: the output and the cursor *)

Definition Sink : Type := list byte * Z.

(** [output[cursor++] = value]. *)
Definition Put (value : byte) (o : Sink) : Sink := (blit o.2 [value] o.1, o.2 +w 1).

Definition WriteLiteral (value : list byte) (o : Sink) : Sink :=
  match value with
  | [] => o
  | _ => (blit o.2 value o.1, o.2 +w zlen value)
  end.

Fixpoint WriteEscaped (value : list byte) (is_key : bool) (o : Sink) : Sink :=
  match value with
  | [] => o
  | b :: value' =>
      let escape := EscapeCode b is_key in
      let o :=
        if negb (escape =? 0) then Put escape (Put 92 o)
        else Put (if is_key then NormalizeKeyByte b else b) o in
      WriteEscaped value' is_key o
  end.

(** [std::to_chars] into the rest of the output; on overflow it returns the end. *)
Definition WriteNumber (text : Z -> option (list byte)) (o : Sink) : Sink :=
  let size := zlen o.1 in
  match text (size -w o.2) with
  | Some text => (blit o.2 text o.1, o.2 +w zlen text)
  | None => (o.1, size)
  end.

(** The output so far, and whether the field could be written. *)
Definition WriteFieldValue (field : FieldView) (o : Sink) : Sink * bool :=
  let k := view_kind field in
  if k =? FieldKind_value kString then
    match AsString field with
    | Some value => (WriteEscaped value false o, true)
    | None => (o, false)
    end
  else if k =? FieldKind_value kInt64 then
    match AsInt64 field with
    | Some value => (WriteNumber (fun size => to_chars size value) o, true)
    | None => (o, false)
    end
  else if k =? FieldKind_value kUInt64 then
    match AsUInt64 field with
    | Some value => (WriteNumber (fun size => to_chars size value) o, true)
    | None => (o, false)
    end
  else if k =? FieldKind_value kDouble then
    match AsDouble field with
    | Some value => (WriteNumber (fun size => in_buffer size (double_text value)) o, true)
    | None => (o, false)
    end
  else if k =? FieldKind_value kBool then
    match AsBool field with
    | Some value => (Put (if value then 49 else 48) o, true)
    | None => (o, false)
    end
  else if k =? FieldKind_value kNull then
    if negb (IsNull field) then (o, false) else (WriteLiteral kNullValue o, true)
  else (o, false).

(** The field loop of [EncodeRawRecord]; [false] is its early return. *)
Fixpoint WriteFields (n : nat) (fields : FieldCursor) (o : Sink) : Sink * bool :=
  match n with
  | O => (o, true)
  | S n' =>
      let '(field, fields) := Next fields in
      match field with
      | None => (o, false)
      | Some field =>
          let o := Put kFieldSeparator o in
          let o := WriteEscaped (key field) true o in
          let o := Put kKeyValueSeparator o in
          let '(o, written) := WriteFieldValue field o in
          if negb written then (o, false) else WriteFields n' fields o
      end
  end.

Record RawEncodeResult := { encoded_bytes : Z; complete : bool }.

Definition not_encoded : RawEncodeResult := {| encoded_bytes := 0; complete := false |}.

(** The result, and the output when the encoder returns. *)
Definition EncodeRawRecord (record : RecordView) (output : list byte)
    : RawEncodeResult * list byte :=
  match RequiredSize record with
  | None => (not_encoded, output)
  | Some required_size =>
      if zlen output <? required_size then (not_encoded, output)
      else
        let o := WriteLiteral kRawPrefix (output, 0) in
        let '(o, written) :=
          WriteFields (Z.to_nat (view_field_count record)) (Fields record) o in
        if negb written then (not_encoded, o.1)
        else
          let o := WriteLiteral kTextPrefix o in
          let o := WriteEscaped (message record) false o in
          let o := Put kRecordTerminator o in
          ({| encoded_bytes := o.2; complete := true |}, o.1)
  end.
End Encoder.

Definition MaximumRawEncodedBytes (maximum_record_bytes : Z) : Z :=
  let kFixedBytes := zlen kRawPrefix + zlen kTextPrefix + 1 in
  if (size_max - kFixedBytes) / 2 <? maximum_record_bytes then 0
  else kFixedBytes +w (w64 (maximum_record_bytes * 2)).

(** ** The line of a record *)

Definition escape_byte (is_key : bool) (b : byte) : list byte :=
  if negb (EscapeCode b is_key =? 0) then [92; EscapeCode b is_key]
  else [if is_key then NormalizeKeyByte b else b].

Definition escape (is_key : bool) (s : list byte) : list byte := concat (escape_byte is_key <$> s).

(** The text of an integer, without a buffer. *)
Definition int_text (v : Z) : list byte := if v <? 0 then 45 :: decimal (- v) else decimal v.

Section Frame.
Context (double_text : Z -> list byte).

Definition value_text (v : FieldValue) : list byte :=
  match v with
  | VString s => escape false s
  | VInt64 z | VUInt64 z => int_text z
  | VDouble bits => double_text bits
  | VBool b => if b then [49] else [48]
  | VNull => kNullValue
  end.

Definition field_text (f : DraftField) : list byte :=
  kFieldSeparator :: escape true (df_key f) ++ kKeyValueSeparator :: value_text (df_value f).

Definition raw_frame (fields : list DraftField) (text : list byte) : list byte :=
  kRawPrefix ++ concat (field_text <$> fields) ++ kTextPrefix ++ escape false text
    ++ [kRecordTerminator].
End Frame.

(** ** Lemmas: sizes *)

Lemma AddSize_some total increment :
  0 <= total -> 0 <= increment -> total + increment <= size_max ->
  AddSize total increment = Some (total + increment).
Proof.
  intros. unfold AddSize, size_max in *. rewrite (w64_small (_ - total)) by lia.
  destruct (Z.ltb_spec (2 ^ 64 - 1 - total) increment); [lia|]. by rewrite w64_small by lia.
Qed.

Lemma zlen_cons {A} (x : A) l : zlen (x :: l) = 1 + zlen l.
Proof. unfold zlen. simpl. lia. Qed.

Lemma escape_cons is_key b s : escape is_key (b :: s) = escape_byte is_key b ++ escape is_key s.
Proof. done. Qed.

Lemma zlen_escape_byte is_key b :
  zlen (escape_byte is_key b) = if EscapeCode b is_key =? 0 then 1 else 2.
Proof. unfold escape_byte. by destruct (EscapeCode b is_key =? 0). Qed.

Lemma AddEscapedSize_some s is_key total :
  0 <= total -> total + zlen (escape is_key s) <= size_max ->
  AddEscapedSize total s is_key = Some (total + zlen (escape is_key s)).
Proof.
  revert total. induction s as [|b s IH]; intros total Ht Hl; cbn [AddEscapedSize].
  { f_equal. change (zlen (escape is_key [])) with 0. lia. }
  rewrite escape_cons, zlen_app, zlen_escape_byte in *. pose proof (zlen_nonneg (escape is_key s)).
  destruct (EscapeCode b is_key =? 0); rewrite AddSize_some by lia; cbn [mbind option_bind];
    rewrite IH by lia; f_equal; lia.
Qed.

Lemma zlen_escape is_key s : zlen s <= zlen (escape is_key s) <= 2 * zlen s.
Proof.
  induction s as [|b s IH]; [done|]. rewrite escape_cons, zlen_app, zlen_cons, zlen_escape_byte.
  destruct (EscapeCode b is_key =? 0); lia.
Qed.

Lemma to_chars_int_text size v :
  - 2 ^ 63 <= v < 2 ^ 64 -> zlen (int_text v) <= 20
  /\ (zlen (int_text v) <= size -> to_chars size v = Some (int_text v)).
Proof.
  intros Hv. destruct (to_chars_spec 20 v ltac:(lia) Hv) as (t & Ht & _ & Hl & _).
  unfold to_chars in *. fold (int_text v) in *. case_match; [done|]. injection Ht as ->.
  split; [lia|]. intros Hs. by destruct (Z.ltb_spec size (zlen t)); [lia|].
Qed.

(** ** Lemmas: writing *)

(** Everything the encoder writes is [emit] of some text. *)
Definition emit (text : list byte) (o : Sink) : Sink := (blit o.2 text o.1, o.2 + zlen text).

Definition fits (o : Sink) (text : list byte) : Prop :=
  0 <= o.2 /\ o.2 + zlen text <= zlen o.1 /\ zlen o.1 < 2 ^ 64.

Lemma emit_app a b o : fits o (a ++ b) -> emit b (emit a o) = emit (a ++ b) o.
Proof.
  destruct o as [out c]. intros (Hc & Hl & _). unfold emit. cbn in *. rewrite zlen_app in Hl.
  rewrite blit_join_right by lia. f_equal. rewrite zlen_app. lia.
Qed.

Lemma fits_emit a b o : fits o (a ++ b) -> fits (emit a o) b /\ fits o a.
Proof.
  destruct o as [out c]. intros (Hc & Hl & Hw). cbn in *. rewrite zlen_app in Hl.
  pose proof (zlen_nonneg a). pose proof (zlen_nonneg b).
  split; split_and!; cbn; rewrite ?zlen_blit by lia; lia.
Qed.

Lemma Put_emit b o : fits o [b] -> Put b o = emit [b] o.
Proof.
  destruct o as [out c]. intros (Hc & Hl & Hw). unfold Put, emit. cbn in *.
  change (zlen [b]) with 1 in *. by rewrite w64_small by lia.
Qed.

Lemma WriteLiteral_emit s o : fits o s -> WriteLiteral s o = emit s o.
Proof.
  destruct o as [out c]. intros (Hc & Hl & Hw). cbn in *. pose proof (zlen_nonneg s).
  unfold WriteLiteral, emit. cbn. destruct s as [|b s].
  - rewrite blit_nil. change (zlen []) with 0. by rewrite Z.add_0_r.
  - by rewrite w64_small by lia.
Qed.

Lemma WriteEscaped_emit s is_key o :
  fits o (escape is_key s) -> WriteEscaped s is_key o = emit (escape is_key s) o.
Proof.
  revert o. induction s as [|b s IH]; intros o Hf; cbn [WriteEscaped].
  { destruct o as [out c]. unfold emit, escape. cbn. rewrite blit_nil. by rewrite Z.add_0_r. }
  rewrite escape_cons in *. destruct (fits_emit _ _ _ Hf) as [Hr Hb].
  rewrite <- (emit_app _ _ _ Hf), <- IH by done. f_equal.
  unfold escape_byte in *. destruct (negb (EscapeCode b is_key =? 0)).
  - destruct (fits_emit [92] [EscapeCode b is_key] o Hb) as [H1 H2].
    rewrite (Put_emit 92) by done. rewrite Put_emit by done. by apply (emit_app [92] [_]).
  - by apply Put_emit.
Qed.

Lemma WriteNumber_emit text t o :
  fits o t -> (forall size, zlen t <= size -> text size = Some t) ->
  WriteNumber text o = emit t o.
Proof.
  destruct o as [out c]. intros (Hc & Hl & Hw) Ht. unfold WriteNumber, emit. cbn in *.
  pose proof (zlen_nonneg t). rewrite (w64_small (_ - _)) by lia. rewrite Ht by lia.
  by rewrite w64_small by lia.
Qed.

(** ** Lemmas: fields *)

Section Fields.
Context (double_text : Z -> list byte).

(** The field's double fits the formatting buffer. *)
Definition printable (v : FieldValue) : Prop :=
  match v with VDouble bits => zlen (double_text bits) <= 64 | _ => True end.

Lemma AddFieldValueSize_some fv f total :
  shows_field fv f -> value_ok (df_value f) -> printable (df_value f) -> 0 <= total ->
  total + zlen (value_text double_text (df_value f)) <= size_max ->
  AddFieldValueSize double_text total fv = Some (total + zlen (value_text double_text (df_value f))).
Proof.
  intros (_ & Hk & Hs & Hi & Hu & Hd & Hb & Hn) Hv Hp Ht Hl.
  unfold AddFieldValueSize. rewrite Hk, Hs, Hi, Hu, Hd, Hb, Hn.
  destruct (df_value f) as [bs|z|z|z|b|]; cbn [value_kind FieldKind_value Z.eqb Pos.eqb mbind
    option_bind value_text] in *.
  - by apply AddEscapedSize_some.
  - destruct (to_chars_int_text 64 z) as [? Hz]; [unfold value_ok, is_s64 in Hv; lia|].
    rewrite Hz by lia. cbn. apply AddSize_some; [done|apply zlen_nonneg|done].
  - destruct (to_chars_int_text 64 z) as [? Hz]; [simpl in Hv; lia|].
    rewrite Hz by lia. cbn. apply AddSize_some; [done|apply zlen_nonneg|done].
  - unfold in_buffer. simpl in Hp. destruct (Z.ltb_spec 64 (zlen (double_text z))); [lia|].
    cbn. apply AddSize_some; [done|apply zlen_nonneg|done].
  - destruct b; by apply AddSize_some.
  - by apply AddSize_some.
Qed.

Lemma WriteFieldValue_emit fv f o :
  shows_field fv f -> value_ok (df_value f) ->
  fits o (value_text double_text (df_value f)) ->
  WriteFieldValue double_text fv o = (emit (value_text double_text (df_value f)) o, true).
Proof.
  intros (_ & Hk & Hs & Hi & Hu & Hd & Hb & Hn) Hv Hf.
  unfold WriteFieldValue. rewrite Hk, Hs, Hi, Hu, Hd, Hb, Hn.
  destruct (df_value f) as [bs|z|z|z|b|]; cbn [value_kind FieldKind_value Z.eqb Pos.eqb
    value_text negb] in *; f_equal.
  - by apply WriteEscaped_emit.
  - apply WriteNumber_emit; [done|]. intros size. apply to_chars_int_text.
    unfold value_ok, is_s64 in Hv. lia.
  - apply WriteNumber_emit; [done|]. intros size. apply to_chars_int_text. simpl in Hv. lia.
  - apply WriteNumber_emit; [done|]. intros size Hsz. unfold in_buffer.
    by destruct (Z.ltb_spec size (zlen (double_text z))); [lia|].
  - destruct b; by apply Put_emit.
  - by apply WriteLiteral_emit.
Qed.

Context (mem : list byte) (d : Draft).
Context (Hnext : forall i f, d_fields d !! i = Some f ->
  Next (cursor_at mem d i)
  = (Some {| fv_storage_ := Some mem; fv_offset_ := field_offset d i |}, cursor_at mem d (S i))
  /\ (value_ok (df_value f) ->
      shows_field {| fv_storage_ := Some mem; fv_offset_ := field_offset d i |} f)).
Context (Hok : forall f, f ∈ d_fields d -> value_ok (df_value f) /\ printable (df_value f)).

Let tail (i : nat) : list byte := concat (field_text double_text <$> drop i (d_fields d)).

Lemma tail_S i f :
  d_fields d !! i = Some f -> tail i = field_text double_text f ++ tail (S i).
Proof. intros Hi. unfold tail. by rewrite (drop_S _ _ _ Hi). Qed.

Lemma zlen_field_text f :
  zlen (field_text double_text f)
  = 1 + zlen (escape true (df_key f)) + 1 + zlen (value_text double_text (df_value f)).
Proof. unfold field_text. rewrite zlen_cons, zlen_app, zlen_cons. lia. Qed.

Lemma FieldsSize_some n i total :
  (i + n = length (d_fields d))%nat -> 0 <= total -> total + zlen (tail i) <= size_max ->
  FieldsSize double_text n (cursor_at mem d i) total = Some (total + zlen (tail i)).
Proof.
  revert i total. induction n as [|n IH]; intros i total Hi Ht Hl; cbn [FieldsSize].
  { f_equal. unfold tail. rewrite drop_ge by lia. change (zlen (concat _)) with 0. lia. }
  destruct (lookup_lt_is_Some_2 (d_fields d) i) as [f Hf]; [lia|].
  destruct (Hnext i f Hf) as [-> Hshow].
  destruct (Hok f) as [Hv Hp]; [by eapply list_elem_of_lookup_2|]. specialize (Hshow Hv).
  rewrite (tail_S i f Hf), zlen_app, zlen_field_text in *.
  pose proof (zlen_nonneg (escape true (df_key f))). pose proof (zlen_nonneg (tail (S i))).
  pose proof (zlen_nonneg (value_text double_text (df_value f))).
  cbn [mbind option_bind]. rewrite AddSize_some by lia. cbn [mbind option_bind].
  destruct Hshow as (Hkey & Hrest). pose proof (conj Hkey Hrest) as Hshow. rewrite Hkey.
  rewrite AddEscapedSize_some by lia. cbn [mbind option_bind].
  rewrite AddSize_some by lia. cbn [mbind option_bind].
  rewrite (AddFieldValueSize_some _ f) by (done || lia). cbn [mbind option_bind].
  rewrite IH by lia. f_equal. lia.
Qed.

Lemma WriteFields_emit n i o :
  (i + n = length (d_fields d))%nat -> fits o (tail i) ->
  WriteFields double_text n (cursor_at mem d i) o = (emit (tail i) o, true).
Proof.
  revert i o. induction n as [|n IH]; intros i o Hi Hf; cbn [WriteFields].
  { unfold tail. rewrite drop_ge by lia. destruct o as [out c]. unfold emit. cbn.
    by rewrite blit_nil, Z.add_0_r. }
  destruct (lookup_lt_is_Some_2 (d_fields d) i) as [f Hfi]; [lia|].
  destruct (Hnext i f Hfi) as [-> Hshow].
  destruct (Hok f) as [Hv _]; [by eapply list_elem_of_lookup_2|]. specialize (Hshow Hv).
  rewrite (tail_S i f Hfi) in *. unfold field_text in *.
  change (kFieldSeparator :: ?l) with ([kFieldSeparator] ++ l) in *.
  change (kKeyValueSeparator :: ?l) with ([kKeyValueSeparator] ++ l) in *.
  rewrite <- !app_assoc in *.
  destruct (fits_emit _ _ _ Hf) as [Hf1 Ho1]. destruct (fits_emit _ _ _ Hf1) as [Hf2 Ho2].
  destruct (fits_emit _ _ _ Hf2) as [Hf3 Ho3]. destruct (fits_emit _ _ _ Hf3) as [Hf4 Ho4].
  rewrite (Put_emit kFieldSeparator) by done. rewrite (proj1 Hshow), WriteEscaped_emit by done.
  rewrite (Put_emit kKeyValueSeparator) by done. rewrite (WriteFieldValue_emit _ f) by done. cbn [negb].
  rewrite IH by (done || lia). f_equal.
  by rewrite (emit_app _ _ _ Hf3), (emit_app _ _ _ Hf2), (emit_app _ _ _ Hf1), (emit_app _ _ _ Hf).
Qed.
End Fields.

(** ** Lemmas: the whole line *)

Lemma raw_frame_size double_text d :
  draft_ok d ->
  (forall f, f ∈ d_fields d -> value_ok (df_value f)) ->
  (forall bits, zlen (double_text bits) <= 24) ->
  zlen (raw_frame double_text (d_fields d) (d_message d)) <= 11 + 2 * d_size d.
Proof.
  intros Hd Hok Hdt. unfold raw_frame. rewrite !zlen_app.
  assert (zlen (concat (field_text double_text <$> d_fields d)) <= 2 * sumZ field_size (d_fields d))
    as Hf.
  { induction (d_fields d) as [|f fs IH]; [done|].
    cbn [fmap list_fmap concat sumZ]. rewrite zlen_app.
    assert (zlen (field_text double_text f) <= 2 * field_size f).
    { unfold field_text, field_size. rewrite zlen_cons, zlen_app, zlen_cons.
      pose proof (zlen_escape true (df_key f)). pose proof (zlen_nonneg (df_key f)).
      assert (zlen (value_text double_text (df_value f))
              <= 24 + 2 * zlen (value_bytes (df_value f))).
      { assert (value_ok (df_value f)) as Hv by (apply Hok; left).
        destruct (df_value f) as [bs|z|z|z|b|]; cbn [value_text value_bytes].
        - pose proof (zlen_escape false bs). lia.
        - destruct (to_chars_int_text 20 z); [unfold value_ok, is_s64 in Hv; lia|]. change (zlen []) with 0. lia.
        - destruct (to_chars_int_text 20 z); [simpl in Hv; lia|]. change (zlen []) with 0. lia.
        - pose proof (Hdt z). change (zlen []) with 0. lia.
        - by destruct b.
        - done. }
      layout_lia. }
    assert (zlen (concat (field_text double_text <$> fs)) <= 2 * sumZ field_size fs); [|lia].
    apply IH. intros g Hg. apply Hok. by right. }
  pose proof (zlen_escape false (d_message d)). pose proof (d_front_bounds d).
  change (zlen kRawPrefix) with 4. change (zlen kTextPrefix) with 6.
  change (zlen [kRecordTerminator]) with 1. unfold d_size. layout_lia.
Qed.

Lemma RequiredSize_frame double_text v d truncated :
  shows_record v d truncated ->
  (forall f, f ∈ d_fields d -> value_ok (df_value f) /\ printable double_text (df_value f)) ->
  zlen (raw_frame double_text (d_fields d) (d_message d)) <= size_max ->
  RequiredSize double_text v = Some (zlen (raw_frame double_text (d_fields d) (d_message d))).
Proof.
  intros [_ _ _ _ _ _ Hm _ Hc (mem & _ & Hfields & Hnext)] Hok Hl.
  unfold RequiredSize. rewrite Hc, Hfields, Hm. unfold raw_frame in *. rewrite !zlen_app in *.
  pose proof (zlen_nonneg (escape false (d_message d))).
  pose proof (zlen_nonneg (concat (field_text double_text <$> d_fields d))).
  change (zlen kRawPrefix) with 4 in *. change (zlen kTextPrefix) with 6 in *.
  change (zlen [kRecordTerminator]) with 1 in *.
  unfold zlen at 1. rewrite Nat2Z.id.
  rewrite (FieldsSize_some double_text mem d Hnext Hok _ 0) by (rewrite ?drop_0; lia).
  rewrite drop_0. cbn [mbind option_bind]. rewrite AddSize_some by lia. cbn [mbind option_bind].
  rewrite AddEscapedSize_some by lia. cbn [mbind option_bind]. rewrite AddSize_some by lia.
  f_equal. lia.
Qed.

Lemma EncodeRawRecord_frame double_text v d truncated output :
  shows_record v d truncated ->
  (forall f, f ∈ d_fields d -> value_ok (df_value f) /\ printable double_text (df_value f)) ->
  zlen output < 2 ^ 64 ->
  let frame := raw_frame double_text (d_fields d) (d_message d) in
  zlen frame <= zlen output ->
  EncodeRawRecord double_text v output
  = ({| encoded_bytes := zlen frame; complete := true |}, blit 0 frame output).
Proof.
  intros Hshow Hok Hout frame Hl. unfold EncodeRawRecord.
  rewrite (RequiredSize_frame double_text v d truncated Hshow Hok)
    by (fold frame; unfold size_max; lia).
  fold frame. destruct (Z.ltb_spec (zlen output) (zlen frame)); [lia|].
  destruct Hshow as [_ _ _ _ _ _ Hm _ Hc (mem & _ & Hfields & Hnext)].
  rewrite Hc, Hfields, Hm. unfold zlen at 1. rewrite Nat2Z.id.
  assert (fits (output, 0) frame) as Hf by (unfold fits; cbn [fst snd]; lia).
  assert (frame = kRawPrefix ++ concat (field_text double_text <$> drop 0 (d_fields d))
            ++ kTextPrefix ++ escape false (d_message d) ++ [kRecordTerminator]) as Heq by done.
  rewrite Heq in Hf.
  destruct (fits_emit _ _ _ Hf) as [Hf1 Ho1]. destruct (fits_emit _ _ _ Hf1) as [Hf2 Ho2].
  destruct (fits_emit _ _ _ Hf2) as [Hf3 Ho3]. destruct (fits_emit _ _ _ Hf3) as [Hf4 Ho4].
  rewrite WriteLiteral_emit by done.
  rewrite (WriteFields_emit double_text mem d Hnext Hok _ 0) by (done || lia). cbn [negb].
  rewrite WriteLiteral_emit, WriteEscaped_emit, Put_emit by done.
  rewrite (emit_app _ _ _ Hf3), (emit_app _ _ _ Hf2), (emit_app _ _ _ Hf1), (emit_app _ _ _ Hf).
  rewrite <- Heq. done.
Qed.

(** ** Reading a line back *)

(** Undo the escapes. *)
Definition unescape_code (c : byte) : byte :=
  if c =? 48 then 0 else if c =? 116 then 9 else if c =? 110 then 10
  else if c =? 114 then 13 else c.

Fixpoint unescape (s : list byte) : list byte :=
  match s with
  | [] => []
  | b :: s' =>
      if b =? 92 then
        match s' with c :: s'' => unescape_code c :: unescape s'' | [] => [b] end
      else b :: unescape s'
  end.

(** The bytes before the first [stop], and the ones after it. *)
Fixpoint split_at (stop : byte) (s : list byte) : option (list byte * list byte) :=
  match s with
  | [] => None
  | b :: s' =>
      if b =? stop then Some ([], s')
      else match split_at stop s' with
           | Some (pre, post) => Some (b :: pre, post)
           | None => None
           end
  end.

(** The bytes before the first [=] that is not escaped, and the ones after it. *)
Fixpoint split_key (s : list byte) : option (list byte * list byte) :=
  match s with
  | [] => None
  | b :: s' =>
      if b =? 92 then
        match s' with
        | [] => None
        | c :: s'' =>
            match split_key s'' with
            | Some (pre, post) => Some (b :: c :: pre, post)
            | None => None
            end
        end
      else if b =? kKeyValueSeparator then Some ([], s')
      else match split_key s' with
           | Some (pre, post) => Some (b :: pre, post)
           | None => None
           end
  end.

(** A line is a prefix and tab-separated [key=value] parts, up to the line feed. *)
Fixpoint parse_parts (fuel : nat) (s : list byte) : option (list (list byte * list byte)) :=
  match fuel with
  | O => None
  | S fuel' =>
      match split_at kFieldSeparator s with
      | None => kv ← split_key s; Some [(unescape kv.1, unescape kv.2)]
      | Some (part, rest) =>
          kv ← split_key part; kvs ← parse_parts fuel' rest;
          Some ((unescape kv.1, unescape kv.2) :: kvs)
      end
  end.

Definition parse_frame (s : list byte) : option (list (list byte * list byte)) :=
  line ← split_at kRecordTerminator s;
  match line.2 with
  | [] =>
      parts ← split_at kFieldSeparator line.1;
      if bool_decide (parts.1 = kRawPrefix) then parse_parts (length s) parts.2 else None
  | _ => None
  end.

(** ** Lemmas: parsing *)

Definition no_separator (b : byte) : Prop := b <> 9 /\ b <> 10.

Lemma EscapeCode_cases b is_key :
  (EscapeCode b is_key = 0 /\ b <> 0 /\ b <> 9 /\ b <> 10 /\ b <> 13 /\ b <> 92
   /\ (is_key = true -> b <> 61))
  \/ (EscapeCode b is_key <> 0 /\ EscapeCode b is_key <> 9 /\ EscapeCode b is_key <> 10
      /\ unescape_code (EscapeCode b is_key) = b
      /\ NormalizeKeyByte b = b).
Proof.
  unfold EscapeCode.
  destruct (Z.eqb_spec b 0); [subst; by right|]. destruct (Z.eqb_spec b 9); [subst; by right|].
  destruct (Z.eqb_spec b 10); [subst; by right|]. destruct (Z.eqb_spec b 13); [subst; by right|].
  destruct (Z.eqb_spec b 92); [subst; by right|].
  destruct (Z.eqb_spec b 61); [subst; destruct is_key; [by right|left]|left]; split_and!; done.
Qed.

Definition written (is_key : bool) (b : byte) : byte := if is_key then NormalizeKeyByte b else b.

Lemma written_plain is_key b :
  b <> 0 -> b <> 9 -> b <> 10 -> b <> 13 -> b <> 92 -> (is_key = true -> b <> 61) ->
  written is_key b <> 9 /\ written is_key b <> 10 /\ written is_key b <> 92
  /\ (is_key = true -> written is_key b <> 61).
Proof.
  intros. unfold written, NormalizeKeyByte. destruct is_key; [|done].
  destruct ((65 <=? b) && (b <=? 90)) eqn:Hb; [b2p; split_and!; intros; lia|]. split_and!; auto.
Qed.

Lemma escape_byte_cases is_key b :
  (exists c, escape_byte is_key b = [92; c] /\ c <> 9 /\ c <> 10 /\ unescape_code c = b
     /\ written is_key b = b)
  \/ (exists w, escape_byte is_key b = [w] /\ w = written is_key b /\ w <> 9 /\ w <> 10 /\ w <> 92
      /\ (is_key = true -> w <> 61)).
Proof.
  unfold escape_byte. destruct (EscapeCode_cases b is_key)
    as [(He & H1 & H2 & H3 & H4 & H5 & H6)|(He & H1 & H2 & H3 & H4)].
  - right. rewrite He. exists (written is_key b). split; [done|]. split; [done|].
    by apply written_plain.
  - left. exists (EscapeCode b is_key). destruct (Z.eqb_spec (EscapeCode b is_key) 0); [done|].
    split_and!; try done. unfold written. by destruct is_key.
Qed.

Lemma escape_no_separator is_key s : Forall no_separator (escape is_key s).
Proof.
  induction s as [|b s IH]; [constructor|]. rewrite escape_cons. apply Forall_app. split; [|done].
  unfold no_separator.
  destruct (escape_byte_cases is_key b) as [(c & -> & ? & ? & _)|(w & -> & _ & ? & ? & _)].
  - constructor; [lia|]. by repeat constructor.
  - by repeat constructor.
Qed.

Lemma unescape_escape is_key s : unescape (escape is_key s) = written is_key <$> s.
Proof.
  induction s as [|b s IH]; [done|]. rewrite escape_cons.
  destruct (escape_byte_cases is_key b) as [(c & -> & _ & _ & Hc & Hw)|(w & -> & -> & _ & _ & Hw & _)].
  - cbn. by rewrite IH, Hc, Hw.
  - cbn [app unescape]. destruct (Z.eqb_spec (written is_key b) 92); [done|]. by rewrite IH.
Qed.

Lemma split_at_app stop a rest :
  stop ∉ a -> split_at stop (a ++ stop :: rest) = Some (a, rest).
Proof.
  induction a as [|b a IH]; intros Hn; cbn [app split_at].
  - by rewrite Z.eqb_refl.
  - apply not_elem_of_cons in Hn as [Hb Hn]. destruct (Z.eqb_spec b stop); [done|]. by rewrite IH.
Qed.

Lemma split_at_none stop a : stop ∉ a -> split_at stop a = None.
Proof.
  induction a as [|b a IH]; intros Hn; cbn [split_at]; [done|].
  apply not_elem_of_cons in Hn as [Hb Hn]. destruct (Z.eqb_spec b stop); [done|]. by rewrite IH.
Qed.

Lemma split_key_escape k rest :
  split_key (escape true k ++ kKeyValueSeparator :: rest) = Some (escape true k, rest).
Proof.
  induction k as [|b k IH]; [done|]. rewrite escape_cons, <- app_assoc.
  destruct (escape_byte_cases true b) as [(c & -> & _)|(w & -> & _ & _ & _ & Hw & Hk)].
  - cbn. by rewrite IH.
  - cbn [app split_key]. destruct (Z.eqb_spec w 92); [done|].
    destruct (Z.eqb_spec w kKeyValueSeparator); [by destruct (Hk eq_refl)|]. by rewrite IH.
Qed.

Lemma not_elem_of_separator stop s :
  Forall no_separator s -> stop = 9 \/ stop = 10 -> stop ∉ s.
Proof.
  intros Hs Hstop [i Hi]%list_elem_of_lookup. destruct (Forall_lookup_1 _ _ _ _ Hs Hi). lia.
Qed.

Section Parse.
Context (double_text : Z -> list byte).

(** A number's text needs no escape: digits, signs, letters, a point. *)
Definition plain_text (s : list byte) : Prop := Forall (fun b => 33 <= b < 127 /\ b <> 92) s.

Context (Hdouble : forall bits, plain_text (double_text bits)).

(** What a line says a field's value is. *)
Definition value_plain (v : FieldValue) : list byte :=
  match v with VString s => s | v => value_text double_text v end.

Definition field_pair (f : DraftField) : list byte * list byte :=
  (NormalizeKeyByte <$> df_key f, value_plain (df_value f)).

Lemma unescape_plain s : plain_text s -> unescape s = s.
Proof.
  induction 1 as [|b s [Hb Hne] _ IH]; [done|]. cbn [unescape].
  destruct (Z.eqb_spec b 92); [done|]. by rewrite IH.
Qed.

Lemma plain_no_separator s : plain_text s -> Forall no_separator s.
Proof. apply Forall_impl. unfold no_separator. lia. Qed.

Lemma value_text_plain v :
  value_ok v -> Forall no_separator (value_text double_text v)
  /\ unescape (value_text double_text v) = value_plain v.
Proof.
  intros Hv.
  assert (forall z, - 2 ^ 63 <= z < 2 ^ 64 -> plain_text (int_text z)) as Hint.
  { intros z Hz. destruct (to_chars_spec 20 z ltac:(lia) Hz) as (t & Ht & _ & _ & Hb).
    destruct (to_chars_int_text 20 z Hz) as [Hl Heq]. rewrite (Heq Hl) in Ht. injection Ht as <-.
    revert Hb. apply Forall_impl. lia. }
  assert (forall s, plain_text s -> Forall no_separator s /\ unescape s = s) as Hp.
  { intros s Hs. split; [by apply plain_no_separator|by apply unescape_plain]. }
  destruct v as [s|z|z|z|b|]; cbn [value_text value_plain].
  - split; [apply escape_no_separator|]. rewrite unescape_escape. apply list_fmap_id.
  - apply Hp, Hint. unfold value_ok, is_s64 in Hv. lia.
  - apply Hp, Hint. simpl in Hv. lia.
  - apply Hp, Hdouble.
  - apply Hp. destruct b; repeat constructor; lia.
  - apply Hp. repeat constructor; lia.
Qed.

Definition body (fields : list DraftField) (text : list byte) : list byte :=
  concat (field_text double_text <$> fields) ++ kTextPrefix ++ escape false text.

Lemma body_no_lf fields text :
  (forall f, f ∈ fields -> value_ok (df_value f)) -> 10 ∉ body fields text.
Proof.
  intros Hok. unfold body. rewrite !not_elem_of_app. split_and!.
  - induction fields as [|f fs IH]; [apply not_elem_of_nil|].
    cbn [fmap list_fmap concat]. apply not_elem_of_app. split.
    + unfold field_text. rewrite not_elem_of_cons, not_elem_of_app, not_elem_of_cons.
      split_and!; [done| |done|].
      * apply not_elem_of_separator; [apply escape_no_separator|by right].
      * apply not_elem_of_separator; [apply value_text_plain, Hok; left|by right].
    + apply IH. intros g Hg. apply Hok. by right.
  - by vm_compute; repeat (apply not_elem_of_cons; split; [done|]); apply not_elem_of_nil.
  - apply not_elem_of_separator; [apply escape_no_separator|by right].
Qed.

Lemma parse_parts_body fields text :
  (forall f, f ∈ fields -> value_ok (df_value f)) ->
  exists rest, body fields text = kFieldSeparator :: rest
    /\ forall fuel, (length rest < fuel)%nat ->
       parse_parts fuel rest = Some ((field_pair <$> fields) ++ [([116; 101; 120; 116], text)]).
Proof.
  induction fields as [|f fs IH]; intros Hok.
  - exists ([116; 101; 120; 116; 61] ++ escape false text). split; [done|]. intros [|fuel] Hf; [lia|].
    cbn [parse_parts]. rewrite split_at_none.
    + cbn -[unescape escape]. rewrite unescape_escape. do 3 f_equal. apply list_fmap_id.
    + apply not_elem_of_app. split.
      * repeat (apply not_elem_of_cons; split; [done|]). apply not_elem_of_nil.
      * apply not_elem_of_separator; [apply escape_no_separator|by left].
  - destruct IH as (rest & Hbody & Hparse); [intros g Hg; apply Hok; by right|].
    assert (value_ok (df_value f)) as Hv by (apply Hok; left).
    destruct (value_text_plain _ Hv) as [Hns Hun].
    exists ((escape true (df_key f) ++ kKeyValueSeparator :: value_text double_text (df_value f))
            ++ kFieldSeparator :: rest).
    split.
    { unfold body in *. cbn [fmap list_fmap concat]. rewrite <- app_assoc, Hbody.
      unfold field_text. cbn [app]. by rewrite <- !app_assoc. }
    intros [|fuel] Hf; [lia|]. cbn [parse_parts]. rewrite split_at_app.
    + rewrite split_key_escape. cbn [mbind option_bind fst snd]. rewrite Hparse.
      2:{ rewrite length_app in Hf. cbn [length] in Hf. lia. }
      cbn [mbind option_bind]. rewrite unescape_escape, Hun. done.
    + rewrite not_elem_of_app, not_elem_of_cons. split_and!; [|done|].
      * apply not_elem_of_separator; [apply escape_no_separator|by left].
      * apply not_elem_of_separator; [done|by left].
Qed.

Lemma parse_raw_frame fields text :
  (forall f, f ∈ fields -> value_ok (df_value f)) ->
  parse_frame (raw_frame double_text fields text)
  = Some ((field_pair <$> fields) ++ [([116; 101; 120; 116], text)]).
Proof.
  intros Hok. destruct (parse_parts_body fields text Hok) as (rest & Hbody & Hparse).
  assert (raw_frame double_text fields text
          = (kRawPrefix ++ kFieldSeparator :: rest) ++ [kRecordTerminator]) as ->.
  { rewrite <- Hbody. unfold raw_frame, body. by rewrite <- !app_assoc. }
  unfold parse_frame. rewrite split_at_app.
  2:{ rewrite <- Hbody, not_elem_of_app. split; [|by apply body_no_lf].
      repeat (apply not_elem_of_cons; split; [done|]). apply not_elem_of_nil. }
  cbn [mbind option_bind fst snd]. rewrite split_at_app.
  2:{ repeat (apply not_elem_of_cons; split; [done|]). apply not_elem_of_nil. }
  cbn [mbind option_bind fst snd]. rewrite bool_decide_eq_true_2 by done. apply Hparse.
  rewrite !length_app. simpl. lia.
Qed.
End Parse.

(** ** Properties *)

Section Properties.
Context (double_text : Z -> list byte).
(** The documented bound of the shortest text of a double. *)
Context (Hshort : forall bits, zlen (double_text bits) <= 24).
Context (s : RecordSlot) (d : Draft) (truncated : bool) (r : StoredRecord).
Context (Hpub : published s d truncated).
Context (Hvalues : forall f, f ∈ d_fields d -> value_ok (df_value f)).

Lemma published_encodes output :
  zlen output < 2 ^ 64 ->
  let frame := raw_frame double_text (d_fields d) (d_message d) in
  zlen frame <= 11 + 2 * d_size d
  /\ EncodeRawRecord double_text (view_of s r) output
     = if zlen frame <=? zlen output
       then ({| encoded_bytes := zlen frame; complete := true |},
             frame ++ drop (Z.to_nat (zlen frame)) output)
       else (not_encoded, output).
Proof.
  intros Hout frame. pose proof (published_shows s d truncated r Hpub) as Hshow.
  pose proof (pb_draft _ _ _ Hpub) as Hd. pose proof (do_room _ Hd) as Hr. unfold d_room in Hr.
  pose proof (do_limit _ Hd) as Hlim.
  pose proof (raw_frame_size double_text d Hd Hvalues Hshort) as Hsize. fold frame in Hsize.
  assert (forall f, f ∈ d_fields d -> value_ok (df_value f) /\ printable double_text (df_value f)) as Hok.
  { intros f Hf. split; [by apply Hvalues|]. destruct (df_value f); simpl; try done.
    pose proof (Hshort bits). lia. }
  split; [done|]. destruct (Z.leb_spec (zlen frame) (zlen output)) as [Hle|Hgt].
  - rewrite (EncodeRawRecord_frame double_text _ d truncated output Hshow Hok Hout Hle).
    fold frame. f_equal. unfold blit. change (Z.to_nat 0) with 0%nat. rewrite take_0.
    cbn [app Nat.add]. unfold zlen. by rewrite Nat2Z.id.
  - unfold EncodeRawRecord.
    rewrite (RequiredSize_frame double_text _ d truncated Hshow Hok)
      by (fold frame; unfold size_max; layout_lia).
    fold frame. by destruct (Z.ltb_spec (zlen output) (zlen frame)); [|lia].
Qed.

(** C19: encoding a published record into any buffer writes exactly the line of the
    record at the front of the buffer and leaves the rest, or, when the line does
    not fit, writes nothing and reports it; the size computed in advance is the
    size written. *)
Theorem EncodeRawRecord_exact output :
  zlen output < 2 ^ 64 ->
  let frame := raw_frame double_text (d_fields d) (d_message d) in
  EncodeRawRecord double_text (view_of s r) output
  = if zlen frame <=? zlen output
    then ({| encoded_bytes := zlen frame; complete := true |},
          frame ++ drop (Z.to_nat (zlen frame)) output)
    else (not_encoded, output).
Proof. intros Hout. by apply published_encodes. Qed.

(** C28: a buffer of [MaximumRawEncodedBytes] of the record limit always holds the
    line: escaping never outgrows the bound the sinks allocate. *)
Theorem MaximumRawEncodedBytes_suffices maximum output :
  d_limit d <= maximum -> maximum <= kMaximumRecordBytes ->
  zlen output = MaximumRawEncodedBytes maximum ->
  complete (EncodeRawRecord double_text (view_of s r) output).1 = true
  /\ encoded_bytes (EncodeRawRecord double_text (view_of s r) output).1
     <= MaximumRawEncodedBytes maximum.
Proof.
  intros Hm Hmax Hout. pose proof (pb_draft _ _ _ Hpub) as Hd. pose proof (draft_bounds d Hd).
  pose proof (do_room _ Hd) as Hr. unfold d_room in Hr.
  assert (MaximumRawEncodedBytes maximum = 11 + 2 * maximum) as Heq.
  { unfold MaximumRawEncodedBytes. change (zlen kRawPrefix + zlen kTextPrefix + 1) with 11.
    change ((size_max - 11) / 2) with (2 ^ 63 - 6). rewrite (proj2 (Z.ltb_ge _ _)) by layout_lia.
    rewrite (w64_small (maximum * 2)), w64_small by layout_lia. lia. }
  destruct (published_encodes output) as [Hsize ->]; [layout_lia|].
  rewrite (proj2 (Z.leb_le _ _)) by lia.
  cbn [fst complete encoded_bytes]. split; [done|lia].
Qed.

(** C29: a written line is one line (its only line feed is the last byte) and reads
    back as the record: every key in lower case with its value, in order, then the
    message under [text]; no content can forge a separator. *)
Theorem EncodeRawRecord_parses output :
  (forall bits, plain_text (double_text bits)) ->
  zlen output < 2 ^ 64 ->
  complete (EncodeRawRecord double_text (view_of s r) output).1 = true ->
  let '(result, out) := EncodeRawRecord double_text (view_of s r) output in
  parse_frame (take (Z.to_nat (encoded_bytes result)) out)
  = Some ((field_pair double_text <$> d_fields d) ++ [([116; 101; 120; 116], d_message d)]).
Proof.
  intros Hplain Hout. destruct (published_encodes output Hout) as [_ ->].
  destruct (_ <=? _); [|done]. intros _. cbn [encoded_bytes].
  rewrite take_app_length'; [|unfold zlen; lia].
  by apply parse_raw_frame.
Qed.
End Properties.

(** ** Witnesses *)

Definition demo_slot : RecordSlot :=
  (build no_double 128 kInfo demo_source (-3) demo_ops initial_slot).2.

Lemma demo_published : published demo_slot demo_draft false.
Proof.
  pose proof (build_refines no_double 128 kInfo demo_source (-3) demo_ops initial_slot
                (demo_pre _ demo_ops_ok)) as H.
  unfold demo_slot. destruct (build no_double 128 kInfo demo_source (-3) demo_ops initial_slot).
  rewrite demo_drafted in H. apply H.
Qed.

Lemma demo_values f : f ∈ d_fields demo_draft -> value_ok (df_value f).
Proof. intros [->|[]%elem_of_nil]%elem_of_cons. by_compute. Qed.

(** ["0"] for every double. *)
Definition demo_double : Z -> list byte := fun _ => [48].

Definition demo_view : RecordView := view_of demo_slot (stored_record demo_draft false).

Lemma EncodeRawRecord_exact_witness :
  (* "tskv<TAB>k=-5<TAB>text=h<C3><A9>true<LF>" in 32 bytes *)
  EncodeRawRecord demo_double demo_view (replicate 32 0)
  = ({| encoded_bytes := 23; complete := true |},
     [116; 115; 107; 118; 9; 107; 61; 45; 53; 9; 116; 101; 120; 116; 61; 104; 0xC3; 0xA9;
      116; 114; 117; 101; 10; 0; 0; 0; 0; 0; 0; 0; 0; 0]).
Proof.
  etransitivity.
  - apply (EncodeRawRecord_exact demo_double ltac:(by_compute) demo_slot demo_draft false
             (stored_record demo_draft false) demo_published demo_values). by_compute.
  - reflexivity.
Defined.

Lemma MaximumRawEncodedBytes_suffices_witness :
  complete (EncodeRawRecord demo_double demo_view (replicate 267 0)).1 = true.
Proof.
  apply (MaximumRawEncodedBytes_suffices demo_double ltac:(by_compute) demo_slot demo_draft false
           (stored_record demo_draft false) demo_published demo_values 128); by_compute.
Defined.

Lemma EncodeRawRecord_parses_witness :
  let '(result, out) := EncodeRawRecord demo_double demo_view (replicate 32 0) in
  parse_frame (take (Z.to_nat (encoded_bytes result)) out)
  = Some [([107], [45; 53]); ([116; 101; 120; 116], [104; 0xC3; 0xA9; 116; 114; 117; 101])].
Proof.
  apply (EncodeRawRecord_parses demo_double ltac:(by_compute) demo_slot demo_draft false
           (stored_record demo_draft false) demo_published demo_values).
  - intros bits. repeat constructor; lia.
  - by_compute.
  - by_compute.
Defined.
