(* ===== verification/RouteTypes.v ===== *)
(** * Delivery accounting ([src/route/delivery_accounting.hpp])

    The plain types every route exchanges with the Runtime worker, and the
    interface a raw-line sink offers it: claim a buffer, store a record, retire an
    outcome, summarise what is in flight, stop, discard. *)
From S2P Require Import Prelude RecordLayout RecordStorage RawEncoder.

Inductive DeliveryOutcome := kDelivered | kFailed.

#[export] Instance DeliveryOutcome_eq_dec : EqDecision DeliveryOutcome.
Proof. solve_decision. Defined.

Record DeliveryRetirement := { outcome : DeliveryOutcome; retired_bytes : Z }.

Record InFlightSummary := {
  records : Z;
  bytes : Z;
  delivered_records : Z;
  delivered_bytes : Z;
  failed_records : Z;
  failed_bytes : Z;
}.

#[export] Instance InFlightSummary_eta : Eta InFlightSummary := fun s =>
  {| records := records s; bytes := bytes s; delivered_records := delivered_records s;
     delivered_bytes := delivered_bytes s; failed_records := failed_records s;
     failed_bytes := failed_bytes s |}.

Definition empty_summary : InFlightSummary :=
  {| records := 0; bytes := 0; delivered_records := 0; delivered_bytes := 0;
     failed_records := 0; failed_bytes := 0 |}.

Record StoreResult := { stored_encoded_bytes : Z; submitted : bool }.

Definition not_stored : StoreResult := {| stored_encoded_bytes := 0; submitted := false |}.

(** [NextGeneration]: zero is never a live generation. *)
Definition NextGeneration (generation : Z) : Z :=
  let generation := generation +w 1 in if generation =? 0 then 1 else generation.

(** ** The interface *)

Class RawRoute (St Claim : Type) := {
  TryClaimWrite : St -> option Claim * St;
  StoreRaw : Claim -> Z -> RecordView -> St -> StoreResult * St;
  ReleaseClaim : Claim -> St -> St;
  TryRetire : Z -> St -> option DeliveryRetirement * St;
  SummarizeInFlight : Z -> St -> InFlightSummary;
  Stop : St -> St;
  DiscardInFlight : St -> St;
}.

(** ** Records and their lines *)

(** [view] shows a published record whose line is [frame]. *)
Definition line_of (double_text : Z -> list byte) (view : RecordView) (frame : list byte) : Prop :=
  exists s d truncated r,
    published s d truncated /\ view = view_of s r
    /\ (forall f, f ∈ d_fields d -> value_ok (df_value f))
    /\ frame = raw_frame double_text (d_fields d) (d_message d).

Lemma line_encodes double_text (Hshort : forall bits, zlen (double_text bits) <= 24)
    view frame output :
  line_of double_text view frame -> zlen output < 2 ^ 64 ->
  0 < zlen frame
  /\ EncodeRawRecord double_text view output
     = if zlen frame <=? zlen output
       then ({| RawEncoder.encoded_bytes := zlen frame; complete := true |},
             frame ++ drop (length frame) output)
       else (not_encoded, output).
Proof.
  intros (s & d & t & r & Hp & -> & Hv & ->) Ho. split.
  - unfold raw_frame. rewrite zlen_app. change (zlen kRawPrefix) with 4.
    match goal with |- 0 < 4 + zlen ?l => pose proof (zlen_nonneg l) end. lia.
  - destruct (published_encodes double_text Hshort s d t r Hp Hv output Ho) as [_ ->].
    unfold zlen at 4. by rewrite Nat2Z.id.
Qed.

Definition demo_frame : list byte :=
  raw_frame demo_double (d_fields demo_draft) (d_message demo_draft).

Lemma demo_line : line_of demo_double demo_view demo_frame.
Proof.
  exists demo_slot, demo_draft, false, (stored_record demo_draft false).
  split_and!; [exact demo_published|done|exact demo_values|done].
Qed.
