(* ===== verification/RawFileSink.v ===== *)
(** * The Raw file sink ([src/io/raw_file_sink.hpp], [src/io/raw_file_sink.cpp])

    One append at a time on a libuv loop thread: frame buffers claimed by the
    worker, the queue the loop thread pumps in admission order, partial writes,
    failure, stop and close.  The state is the code's [RawFileSinkState] with the
    libuv requests in flight as fields; [sink_step] interleaves the worker, the
    control thread and the loop callbacks, with the bytes that reach the file. *)
From S2P Require Import Prelude KernelTypes RecordLayout RecordStorage RawEncoder RouteTypes.
From stdpp Require Import relations.
#[local] Open Scope Z_scope.
#[local] Open Scope ulog_scope.

(** ** Slots, faults and the libuv environment *)

Inductive FileSlotState := kFree | kReserved | kQueued | kWriting.
Inductive FileDeliveryState := kRetired | kInFlight | kDelivered | kFailed | kCancelled.

#[export] Instance FileSlotState_eq_dec : EqDecision FileSlotState.
Proof. solve_decision. Defined.
#[export] Instance FileDeliveryState_eq_dec : EqDecision FileDeliveryState.
Proof. solve_decision. Defined.

Record FileSlot := {
  slot_state : FileSlotState;
  delivery : FileDeliveryState;
  generation : Z;
  admission_sequence : Z;
  encoded_bytes : Z;
  written_bytes : Z;
}.

#[export] Instance FileSlot_eta : Eta FileSlot := fun s =>
  {| slot_state := slot_state s; delivery := delivery s; generation := generation s;
     admission_sequence := admission_sequence s; encoded_bytes := encoded_bytes s;
     written_bytes := written_bytes s |}.

Definition empty_slot : FileSlot :=
  {| slot_state := kFree; delivery := kRetired; generation := 0; admission_sequence := 0;
     encoded_bytes := 0; written_bytes := 0 |}.

Definition kNoInjectedWriteFailure : Z := u64_max.

Record FileFaultPlan := {
  open_error : Z;
  maximum_write_bytes : Z;
  failing_write_call : Z;
  write_error : Z;
  close_error : Z;
}.

Definition no_faults : FileFaultPlan :=
  {| open_error := 0; maximum_write_bytes := 0; failing_write_call := kNoInjectedWriteFailure;
     write_error := 0; close_error := 0 |}.

Inductive FileSinkStartStatus := kStarted | kThreadFailed | kLoopFailed | kOpenFailed | kTimedOut.

Record FileSinkStartResult := { status : FileSinkStartStatus; io_error : Z }.

Record FileSlotIdentity := { index : nat; identity_generation : Z }.

#[export] Instance FileSlotIdentity_eq_dec : EqDecision FileSlotIdentity.
Proof. solve_decision. Defined.

(** What libuv answers: the result of each [uv_fs_write] submission by call
    number, of [uv_fs_close], of the calls that start the loop; its error codes. *)
Record Uv := {
  uv_loop_init : Z;
  uv_async_init : Z;
  uv_fs_open : Z;
  uv_fs_fstat : Z;
  st_mode : Z;
  uv_fs_write : Z -> Z;
  uv_fs_close : Z;
  UV_EIO : Z;
  UV_EISDIR : Z;
}.

Definition kFileTypeMask : Z := 61440. (* 0170000 *)
Definition kDirectoryType : Z := 16384. (* 0040000 *)

Record RawFileSinkState := {
  buffer_bytes : Z;
  faults : FileFaultPlan;
  buffers : list byte;
  slots : list FileSlot;
  (** [wake_async] signalled and not yet delivered; the bytes of the append in
      flight; whether a close is in flight. *)
  wake_pending : bool;
  write_request : option (list byte);
  close_request : bool;
  file : Z;
  (** [wake.notify != nullptr], and the notifications made. *)
  wake : bool;
  notifications : Z;
  start_result : FileSinkStartResult;
  write_calls : Z;
  writing_slot : nat;
  failure_error : Z;
  close_result : Z;
  start_reported : bool;
  loop_exited : bool;
  async_open : bool;
  stopping : bool;
  close_requested : bool;
  closing : bool;
  closed : bool;
  writing : bool;
  (** [*faults.loop_thread_operations] *)
  loop_thread_operations : Z;
}.

#[export] Instance RawFileSinkState_eta : Eta RawFileSinkState := fun s =>
  {| buffer_bytes := buffer_bytes s; faults := faults s; buffers := buffers s; slots := slots s;
     wake_pending := wake_pending s; write_request := write_request s;
     close_request := close_request s; file := file s; wake := wake s;
     notifications := notifications s; start_result := start_result s;
     write_calls := write_calls s; writing_slot := writing_slot s;
     failure_error := failure_error s; close_result := close_result s;
     start_reported := start_reported s; loop_exited := loop_exited s;
     async_open := async_open s; stopping := stopping s;
     close_requested := close_requested s; closing := closing s; closed := closed s;
     writing := writing s; loop_thread_operations := loop_thread_operations s |}.

(** [FileSinkConfig] less the path, which only libuv reads. *)
Record FileSinkConfig := {
  write_buffers : nat;
  maximum_record_bytes : Z;
  config_faults : FileFaultPlan;
}.

(** The constructor of [RawFileSinkState]. *)
Definition MakeRawFileSink (config : FileSinkConfig) : RawFileSinkState :=
  let bytes := MaximumRawEncodedBytes (maximum_record_bytes config) in
  {| buffer_bytes := bytes; faults := config_faults config;
     buffers := replicate (Z.to_nat (w64 (Z.of_nat (write_buffers config) * bytes))) 0%Z;
     slots := replicate (write_buffers config) empty_slot;
     wake_pending := false; write_request := None; close_request := false; file := -1;
     wake := false; notifications := 0;
     start_result := {| status := kThreadFailed; io_error := 0 |};
     write_calls := 0; writing_slot := 0; failure_error := 0; close_result := 0;
     start_reported := false; loop_exited := false; async_open := false; stopping := false;
     close_requested := false; closing := false; closed := false; writing := false;
     loop_thread_operations := 0 |}.

(** ** The loop thread *)

(** The offset of [Buffer(index)] in [buffers]. *)
Definition Buffer (state : RawFileSinkState) (index : nat) : Z :=
  Z.of_nat index * buffer_bytes state.

Definition slot_at (state : RawFileSinkState) (index : nat) : FileSlot :=
  default empty_slot (slots state !! index).

Definition on_slot (index : nat) (f : FileSlot -> FileSlot) (state : RawFileSinkState)
    : RawFileSinkState :=
  state <| slots ::= alter f index |>.

(** On the loop thread, the only one that pumps. *)
Definition ObserveOperation (state : RawFileSinkState) : RawFileSinkState :=
  state <| loop_thread_operations ::= fun n => n +w 1 |>.

Definition SendWakeLocked (state : RawFileSinkState) : RawFileSinkState :=
  if async_open state then state <| wake_pending := true |> else state.

(** [state.wake.Notify()] *)
Definition Notify (state : RawFileSinkState) : RawFileSinkState :=
  if wake state then state <| notifications ::= Z.succ |> else state.

Definition CancelSlot (slot : FileSlot) : FileSlot :=
  if decide (slot_state slot = kQueued)
  then slot <| slot_state := kFree |> <| delivery := kCancelled |> else slot.

Definition CancelQueuedLocked (state : RawFileSinkState) : RawFileSinkState :=
  state <| slots ::= fmap CancelSlot |>.

Definition FinishCloseLocked (result : Z) (state : RawFileSinkState) : RawFileSinkState :=
  Notify (state <| file := -1 |> <| closing := false |> <| closed := true |>
            <| close_result := if result <? 0 then to_s32 result else 0 |>
            <| async_open := false |>).

Definition OnCloseComplete (result : Z) (state : RawFileSinkState) : RawFileSinkState :=
  FinishCloseLocked result (state <| close_request := false |>).

Section Loop.
Context (uv : Uv).

Definition StartCloseLocked (state : RawFileSinkState) : RawFileSinkState :=
  let state := ObserveOperation (state <| closing := true |>) in
  if negb (close_error (faults state) =? 0)
  then FinishCloseLocked (close_error (faults state)) state
  else
    let error := uv_fs_close uv in
    if error <? 0 then FinishCloseLocked error state
    else state <| close_request := true |>.

Definition is_queued (slot : FileSlot) : bool := bool_decide (slot_state slot = kQueued).

(** The queued slot of the lowest admission sequence, while the route is usable. *)
Definition SelectQueued (state : RawFileSinkState) : option nat :=
  if (failure_error state =? 0) && negb (stopping state)
  then lowest_index is_queued admission_sequence (slots state)
  else None.

(** The bytes the next append submits. *)
Definition WriteLength (state : RawFileSinkState) (slot : FileSlot) : Z :=
  let length := encoded_bytes slot -w written_bytes slot in
  let maximum := maximum_write_bytes (faults state) in
  if negb (maximum =? 0) && (maximum <? length) then maximum else length.

(** Mutual recursion on fuel; [None] is out of fuel. *)
Fixpoint PumpLocked (fuel : nat) (state : RawFileSinkState) : option RawFileSinkState :=
  match fuel with
  | O => None
  | S fuel =>
      if writing state || closing state || closed state then Some state
      else
        match SelectQueued state with
        | Some selected => StartWriteLocked fuel selected state
        | None => Some (if close_requested state then StartCloseLocked state else state)
        end
  end
with StartWriteLocked (fuel : nat) (index : nat) (state : RawFileSinkState)
    : option RawFileSinkState :=
  match fuel with
  | O => None
  | S fuel =>
      let state := on_slot index (fun slot => slot <| slot_state := kWriting |>) state
                     <| writing := true |> <| writing_slot := index |> in
      let slot := slot_at state index in
      let length := WriteLength state slot in
      let call := write_calls state in
      let state := ObserveOperation (state <| write_calls := call +w 1 |>) in
      if call =? failing_write_call (faults state)
      then FinishWriteLocked fuel (write_error (faults state)) state
      else
        let buffer := slice (Buffer state index + written_bytes slot) (w32 length)
                        (buffers state) in
        let error := uv_fs_write uv call in
        if error <? 0 then FinishWriteLocked fuel error state
        else Some (state <| write_request := Some buffer |>)
  end
with FinishWriteLocked (fuel : nat) (result : Z) (state : RawFileSinkState)
    : option RawFileSinkState :=
  match fuel with
  | O => None
  | S fuel =>
      let current := writing_slot state in
      let slot := slot_at state current in
      let state := state <| writing := false |> in
      let remaining := encoded_bytes slot -w written_bytes slot in
      if (result <? 0) || ((result =? 0) && negb (remaining =? 0))
      then
        let state := on_slot current (fun slot => slot <| slot_state := kFree |>
                                                    <| delivery := kFailed |>) state in
        let state := state <| failure_error := if result <? 0 then to_s32 result
                                               else UV_EIO uv |> in
        PumpLocked fuel (Notify (CancelQueuedLocked state))
      else
        let written := result in
        let state := on_slot current (fun slot => slot <| written_bytes ::= fun n =>
                       n +w (if written <? remaining then written else remaining) |>) state in
        if written_bytes (slot_at state current) <? encoded_bytes (slot_at state current)
        then StartWriteLocked fuel (writing_slot state) state
        else
          let state := on_slot current (fun slot => slot <| slot_state := kFree |>
                                                      <| delivery := kDelivered |>) state in
          PumpLocked fuel (Notify state)
  end.

Definition OnWriteComplete (fuel : nat) (result : Z) (state : RawFileSinkState)
    : option RawFileSinkState :=
  FinishWriteLocked fuel result (state <| write_request := None |>).

Definition OnWake (fuel : nat) (state : RawFileSinkState) : option RawFileSinkState :=
  PumpLocked fuel (state <| wake_pending := false |>).

Definition ReportStart (result : FileSinkStartResult) (state : RawFileSinkState)
    : RawFileSinkState :=
  state <| start_result := result |> <| start_reported := true |>.

Definition MarkLoopExited (state : RawFileSinkState) : RawFileSinkState :=
  state <| loop_exited := true |>.

(** The descriptor, or the error, of opening the path. *)
Definition OpenFile (state : RawFileSinkState) : Z :=
  let opened := open_error (faults state) in
  let opened := if opened =? 0 then uv_fs_open uv else opened in
  if 0 <=? opened then
    let stat_error := uv_fs_fstat uv in
    let directory := (stat_error =? 0) && (Z.land (st_mode uv) kFileTypeMask =? kDirectoryType) in
    if (stat_error <? 0) || directory
    then if stat_error <? 0 then stat_error else UV_EISDIR uv
    else opened
  else opened.

(** [RunLoop] up to the first [uv_run] of a started loop, or to its return. *)
Definition RunLoop (state : RawFileSinkState) : RawFileSinkState :=
  if negb (uv_loop_init uv =? 0)
  then MarkLoopExited (ReportStart {| status := kLoopFailed; io_error := uv_loop_init uv |} state)
  else if negb (uv_async_init uv =? 0)
  then MarkLoopExited (ReportStart {| status := kLoopFailed; io_error := uv_async_init uv |} state)
  else
    let state := ObserveOperation state in
    let opened := OpenFile state in
    if opened <? 0
    then MarkLoopExited (ReportStart {| status := kOpenFailed; io_error := opened |} state)
    else
      let state := ReportStart {| status := kStarted; io_error := 0 |}
                     (state <| file := opened |> <| async_open := true |>) in
      if close_requested state then SendWakeLocked state else state.
End Loop.

(** ** The worker and the control thread *)

(** [FileWriteClaim::Reset] *)
Definition Reset (identity : FileSlotIdentity) (state : RawFileSinkState) : RawFileSinkState :=
  let slot := slot_at state (index identity) in
  if bool_decide (slot_state slot = kReserved)
     && (generation slot =? identity_generation identity)
  then on_slot (index identity) (fun slot => slot <| slot_state := kFree |>) state
  else state.

(** [FileWriteClaim::StoreRaw] on a claim that holds a buffer. *)
Definition StoreRaw (double_text : Z -> list byte) (identity : FileSlotIdentity)
    (sequence : Z) (record : RecordView) (state : RawFileSinkState)
    : StoreResult * RawFileSinkState :=
  let base := Buffer state (index identity) in
  let '(encoded, output) :=
    EncodeRawRecord double_text record (slice base (buffer_bytes state) (buffers state)) in
  let state := state <| buffers ::= blit base output |> in
  if negb (complete encoded) then (not_stored, Reset identity state)
  else
    let slot := slot_at state (index identity) in
    if negb (bool_decide (slot_state slot = kReserved))
       || negb (generation slot =? identity_generation identity)
    then (not_stored, state)
    else
      let state := on_slot (index identity) (fun slot =>
        slot <| admission_sequence := sequence |>
             <| encoded_bytes := RawEncoder.encoded_bytes encoded |>
             <| written_bytes := 0 |>) state in
      let state :=
        if stopping state || negb (failure_error state =? 0) || negb (async_open state)
        then on_slot (index identity) (fun slot =>
               slot <| slot_state := kFree |> <| delivery := kCancelled |>) state
        else SendWakeLocked (on_slot (index identity) (fun slot =>
               slot <| slot_state := kQueued |> <| delivery := kInFlight |>) state) in
      ({| stored_encoded_bytes := RawEncoder.encoded_bytes encoded; submitted := true |}, state).

Definition claimable (slot : FileSlot) : bool :=
  bool_decide (slot_state slot = kFree) && bool_decide (delivery slot = kRetired).

Definition TryClaimWrite (state : RawFileSinkState)
    : option FileSlotIdentity * RawFileSinkState :=
  if stopping state || close_requested state || negb (failure_error state =? 0)
     || negb (async_open state)
  then (None, state)
  else
    match first_index claimable (slots state) with
    | None => (None, state)
    | Some i =>
        let state := on_slot i (fun slot =>
          slot <| generation ::= NextGeneration |> <| slot_state := kReserved |>) state in
        (Some {| index := i; identity_generation := generation (slot_at state i) |}, state)
    end.

Definition completed (sequence : Z) (slot : FileSlot) : bool :=
  (bool_decide (delivery slot = kDelivered) || bool_decide (delivery slot = kFailed))
  && (admission_sequence slot =? sequence).

Definition TryRetire (sequence : Z) (state : RawFileSinkState)
    : option DeliveryRetirement * RawFileSinkState :=
  match first_index (completed sequence) (slots state) with
  | None => (None, state)
  | Some i =>
      let slot := slot_at state i in
      (Some {| outcome := if decide (delivery slot = kDelivered)
                          then RouteTypes.kDelivered else RouteTypes.kFailed;
               retired_bytes := encoded_bytes slot |},
       on_slot i (fun slot => slot <| delivery := kRetired |>) state)
  end.

(** One iteration of the loop of [SummarizeInFlight]. *)
Definition SummarizeSlot (watermark : Z) (summary : InFlightSummary) (slot : FileSlot)
    : InFlightSummary :=
  if bool_decide (delivery slot = kRetired) || (watermark <=? admission_sequence slot)
  then summary
  else
    let summary := summary <| records ::= fun n => n +w 1 |>
                     <| bytes ::= fun n => n +w encoded_bytes slot |> in
    if decide (delivery slot = kDelivered)
    then summary <| delivered_records ::= fun n => n +w 1 |>
           <| delivered_bytes ::= fun n => n +w encoded_bytes slot |>
    else if decide (delivery slot = kFailed)
    then summary <| failed_records ::= fun n => n +w 1 |>
           <| failed_bytes ::= fun n => n +w encoded_bytes slot |>
    else summary.

Definition SummarizeInFlight (watermark : Z) (state : RawFileSinkState) : InFlightSummary :=
  fold_left (SummarizeSlot watermark) (slots state) empty_summary.

Definition FailureError (state : RawFileSinkState) : Z := failure_error state.

Definition Stop (state : RawFileSinkState) : RawFileSinkState :=
  SendWakeLocked (CancelQueuedLocked (state <| stopping := true |> <| close_requested := true |>)).

Definition RequestClose (state : RawFileSinkState) : RawFileSinkState :=
  SendWakeLocked (state <| close_requested := true |>).

Definition CloseResult (state : RawFileSinkState) : option Z :=
  if closed state then Some (close_result state) else None.

Definition DiscardInFlight (state : RawFileSinkState) : RawFileSinkState :=
  state <| slots ::= fmap (fun slot => slot <| delivery := kRetired |>) |>.

Definition DetachWake (state : RawFileSinkState) : RawFileSinkState :=
  state <| wake := false |>.

(** [Start] stores the callback and creates the loop thread, which runs [RunLoop]
    when it is scheduled; then it waits for the report until its deadline. *)
Definition StartThread (notify : bool) (state : RawFileSinkState) : RawFileSinkState :=
  state <| wake := notify |>.

Definition StartWait (thread_created : bool) (state : RawFileSinkState) : FileSinkStartResult :=
  if negb thread_created then {| status := kThreadFailed; io_error := 0 |}
  else if negb (start_reported state) then {| status := kTimedOut; io_error := 0 |}
  else start_result state.

(** The Runtime's view of the sink. *)
#[export] Instance RawFileSink_route (double_text : Z -> list byte)
    : RawRoute RawFileSinkState FileSlotIdentity := {|
  RouteTypes.TryClaimWrite := TryClaimWrite;
  RouteTypes.StoreRaw := StoreRaw double_text;
  RouteTypes.ReleaseClaim := Reset;
  RouteTypes.TryRetire := TryRetire;
  RouteTypes.SummarizeInFlight := SummarizeInFlight;
  RouteTypes.Stop := Stop;
  RouteTypes.DiscardInFlight := DiscardInFlight;
|}.

(** ** The sink and the file

    [log] lists the frames the worker submitted, in admission order; [retired] the
    outcomes it took; [disk] the bytes the file gained. *)

Record World := {
  sink : RawFileSinkState;
  claims : list FileSlotIdentity;
  log : list (Z * list byte);
  retired : list (Z * DeliveryRetirement);
  disk : list byte;
}.

Definition initial_world (config : FileSinkConfig) : World :=
  {| sink := MakeRawFileSink config; claims := []; log := []; retired := []; disk := [] |}.

Section World.
Context (double_text : Z -> list byte).

(** The worker stores in admission order and holds its claims; libuv appends a
    prefix of a submitted buffer, all of the bytes it reports and, when it reports
    an error, any of them. *)
Inductive sink_step : World -> World -> Prop :=
  | step_start notify w :
      sink_step w {| sink := StartThread notify (sink w); claims := claims w; log := log w;
                     retired := retired w; disk := disk w |}
  | step_run uv w :
      start_reported (sink w) = false ->
      sink_step w {| sink := RunLoop uv (sink w); claims := claims w; log := log w;
                     retired := retired w; disk := disk w |}
  | step_claim w identity state :
      TryClaimWrite (sink w) = (Some identity, state) ->
      sink_step w {| sink := state; claims := claims w ++ [identity]; log := log w;
                     retired := retired w; disk := disk w |}
  | step_store w before identity after sequence view frame result state :
      claims w = before ++ identity :: after ->
      line_of double_text view frame ->
      Forall (fun entry => entry.1 < sequence) (log w) ->
      StoreRaw double_text identity sequence view (sink w) = (result, state) ->
      sink_step w {| sink := state; claims := before ++ after;
                     log := if submitted result then log w ++ [(sequence, frame)] else log w;
                     retired := retired w; disk := disk w |}
  | step_release w before identity after :
      claims w = before ++ identity :: after ->
      sink_step w {| sink := Reset identity (sink w); claims := before ++ after; log := log w;
                     retired := retired w; disk := disk w |}
  | step_retire w sequence d state :
      TryRetire sequence (sink w) = (Some d, state) ->
      sink_step w {| sink := state; claims := claims w; log := log w;
                     retired := retired w ++ [(sequence, d)]; disk := disk w |}
  | step_control w f :
      f ∈ [Stop; RequestClose; DiscardInFlight; DetachWake] ->
      sink_step w {| sink := f (sink w); claims := claims w; log := log w;
                     retired := retired w; disk := disk w |}
  | step_wake w uv fuel state :
      UV_EIO uv < 0 -> (forall call, - 2 ^ 31 <= uv_fs_write uv call) ->
      wake_pending (sink w) = true -> OnWake uv fuel (sink w) = Some state ->
      sink_step w {| sink := state; claims := claims w; log := log w;
                     retired := retired w; disk := disk w |}
  | step_write w uv fuel request result accepted state :
      UV_EIO uv < 0 -> (forall call, - 2 ^ 31 <= uv_fs_write uv call) ->
      write_request (sink w) = Some request ->
      - 2 ^ 31 <= result <= zlen request ->
      (accepted <= length request)%nat -> (0 <= result -> Z.of_nat accepted = result) ->
      OnWriteComplete uv fuel result (sink w) = Some state ->
      sink_step w {| sink := state; claims := claims w; log := log w;
                     retired := retired w; disk := disk w ++ take accepted request |}
  | step_closed w result :
      close_request (sink w) = true ->
      sink_step w {| sink := OnCloseComplete result (sink w); claims := claims w; log := log w;
                     retired := retired w; disk := disk w |}
  | step_exit w :
      closed (sink w) = true ->
      sink_step w {| sink := MarkLoopExited (sink w); claims := claims w; log := log w;
                     retired := retired w; disk := disk w |}.
End World.

(** ** The invariant *)

Definition frame_at (log : list (Z * list byte)) (k : nat) : list byte :=
  default [] (snd <$> log !! k).

(** The first [n] frames and [w] bytes of the next. *)
Definition frames (entries : list (Z * list byte)) : list byte := concat (snd <$> entries).

Definition file_bytes (log : list (Z * list byte)) (n w : nat) : list byte :=
  concat (snd <$> take n log) ++ take w (frame_at log n).

Definition active (slot : FileSlot) : Prop :=
  delivery slot <> kRetired \/ slot_state slot = kQueued \/ slot_state slot = kWriting.

Definition has_frame (log : list (Z * list byte)) (slot : FileSlot) (k : nat) (f : list byte)
    : Prop :=
  log !! k = Some (admission_sequence slot, f) /\ encoded_bytes slot = zlen f.

Definition pending_ok (state : RawFileSinkState) (log : list (Z * list byte)) (i : nat)
    (slot : FileSlot) (k : nat) : Prop :=
  (delivery slot = kInFlight \/ delivery slot = kRetired)
  /\ exists f, has_frame log slot k f
  /\ slice (Buffer state i) (zlen f) (buffers state) = f.

Definition slot_ok (state : RawFileSinkState) (log : list (Z * list byte)) (n i : nat)
    (slot : FileSlot) : Prop :=
  match slot_state slot with
  | kReserved => delivery slot = kRetired
  | kQueued => written_bytes slot = 0 /\ exists k, (n <= k)%nat /\ pending_ok state log i slot k
  | kWriting => pending_ok state log i slot n
  | kFree =>
      match delivery slot with
      | kRetired => True
      | kInFlight => False
      | kDelivered => exists k f, has_frame log slot k f /\ (k < n)%nat
      | kFailed => exists f, has_frame log slot n f /\ failure_error state <> 0
      | kCancelled => exists k f, has_frame log slot k f /\ (n <= k)%nat
      end
  end.

(** The loop runs or has closed. *)
Definition live (state : RawFileSinkState) : Prop :=
  async_open state = true \/ closed state = true.

Record core (state : RawFileSinkState) (claims : list FileSlotIdentity)
    (log : list (Z * list byte)) (disk : list byte) (n w : nat) : Prop := {
  co_disk : disk = file_bytes log n w;
  co_n : (n <= length log)%nat;
  co_w : (w <= length (frame_at log n))%nat;
  co_mem : 0 <= buffer_bytes state < 2 ^ 32
           /\ zlen (buffers state) = zlen (slots state) * buffer_bytes state;
  co_faults : 0 <= maximum_write_bytes (faults state)
              /\ - 2 ^ 31 <= write_error (faults state) <= 0;
  co_slots i slot : slots state !! i = Some slot -> slot_ok state log n i slot;
  co_distinct i j si sj :
    slots state !! i = Some si -> slots state !! j = Some sj -> i <> j ->
    active si -> active sj -> admission_sequence si <> admission_sequence sj;
  co_sorted j k a b : log !! j = Some a -> log !! k = Some b -> (j < k)%nat -> a.1 < b.1;
  co_frames k a : log !! k = Some a -> 0 < zlen a.2 <= buffer_bytes state;
  co_complete k a :
    failure_error state = 0 -> stopping state = false -> closed state = false ->
    (n <= k)%nat -> log !! k = Some a ->
    exists i slot, slots state !! i = Some slot /\ admission_sequence slot = a.1
      /\ (slot_state slot = kQueued \/ slot_state slot = kWriting);
  co_claims : NoDup (index <$> claims);
  co_claimed identity : identity ∈ claims -> exists slot,
    slots state !! index identity = Some slot /\ slot_state slot = kReserved
    /\ generation slot = identity_generation identity;
  co_close : closed state = true -> async_open state = false;
  co_start : start_reported state = false -> async_open state = false /\ closed state = false;
  co_unstarted : async_open state = false -> closed state = false -> log = [] /\ claims = [];
  co_closing : close_request state = true -> closing state = true /\ live state;
}.

Definition no_writer (state : RawFileSinkState) (but : option nat) : Prop :=
  forall i slot, slots state !! i = Some slot -> Some i <> but -> slot_state slot <> kWriting.

Definition idle (state : RawFileSinkState) (w : nat) : Prop :=
  writing state = false /\ write_request state = None /\ no_writer state None
  /\ (failure_error state = 0 -> w = 0%nat).

(** The slot [i] is being appended, [written] bytes of its frame are done. *)
Definition appending (state : RawFileSinkState) (log : list (Z * list byte)) (n written i : nat)
    : Prop :=
  failure_error state = 0 /\ closing state = false /\ closed state = false
  /\ no_writer state (Some i)
  /\ (written < length (frame_at log n))%nat
  /\ exists slot, slots state !! i = Some slot /\ written_bytes slot = Z.of_nat written
     /\ (slot_state slot = kWriting \/ slot_state slot = kQueued /\ written = 0%nat)
     /\ exists f, has_frame log slot n f /\ slice (Buffer state i) (zlen f) (buffers state) = f.

Definition busy (state : RawFileSinkState) (log : list (Z * list byte)) (n w : nat) : Prop :=
  writing state = true /\ appending state log n w (writing_slot state)
  /\ (exists slot, slots state !! writing_slot state = Some slot /\ slot_state slot = kWriting)
  /\ exists m, write_request state = Some (take m (drop w (frame_at log n))) /\ (0 < m)%nat.

(** Nothing is left to do without a wake. *)
Definition settled (state : RawFileSinkState) : Prop :=
  writing state = false -> closing state = false -> closed state = false ->
  close_requested state = false
  /\ (failure_error state = 0 -> stopping state = false ->
      forall i slot, slots state !! i = Some slot -> slot_state slot <> kQueued).

Definition retired_inv (state : RawFileSinkState) (log : list (Z * list byte)) (n : nat)
    (retired : list (Z * DeliveryRetirement)) : Prop :=
  NoDup (fst <$> retired)
  /\ (forall i slot, slots state !! i = Some slot -> active slot ->
        admission_sequence slot ∉ fst <$> retired)
  /\ forall sequence d, (sequence, d) ∈ retired -> exists k f,
       log !! k = Some (sequence, f) /\ retired_bytes d = zlen f
       /\ match outcome d with
          | RouteTypes.kDelivered => (k < n)%nat
          | RouteTypes.kFailed => k = n /\ failure_error state <> 0
          end.

(** ** Lemmas: slots *)

Lemma file_slot_at_lookup state i slot : slots state !! i = Some slot -> slot_at state i = slot.
Proof. unfold slot_at. by intros ->. Qed.

Lemma file_on_slot_slots state i slot f :
  slots state !! i = Some slot -> slots (on_slot i f state) = <[i := f slot]> (slots state).
Proof. intros H. apply (alter_as_insert f _ _ _ H). Qed.

Lemma frame_at_lookup log k a : log !! k = Some a -> frame_at log k = a.2.
Proof. unfold frame_at. by intros ->. Qed.

Lemma has_frame_at log slot k f : has_frame log slot k f -> frame_at log k = f.
Proof. intros [H _]. by rewrite (frame_at_lookup _ _ _ H). Qed.

Lemma has_frame_index log s t j k f g :
  has_frame log s k f -> has_frame log t j g ->
  admission_sequence s <> admission_sequence t -> k <> j.
Proof. intros [H _] [H' _] Hne ->. rewrite H in H'. congruence. Qed.

Lemma file_bytes_next log n w f :
  frame_at log n = f -> (n < length log)%nat -> w = length f ->
  file_bytes log n w = file_bytes log (S n) 0.
Proof.
  intros Hf Hn ->. unfold file_bytes. rewrite Hf, take_0, app_nil_r, firstn_all.
  destruct (lookup_lt_is_Some_2 log n Hn) as [a Ha]. rewrite (frame_at_lookup _ _ _ Ha) in Hf.
  rewrite (take_S_r _ _ _ Ha), fmap_app, concat_app. cbn [fmap list_fmap concat].
  by rewrite app_nil_r, Hf.
Qed.

Lemma file_bytes_more log n w m :
  file_bytes log n w ++ take m (drop w (frame_at log n)) = file_bytes log n (w + m).
Proof.
  unfold file_bytes. rewrite <- app_assoc. f_equal. revert m. generalize (frame_at log n).
  induction w as [|w IH]; intros [|x l] m; cbn; rewrite ?take_nil; try done.
  by rewrite <- IH.
Qed.

Lemma frame_at_snoc_app log ext k :
  (k < length log)%nat -> frame_at (log ++ ext) k = frame_at log k.
Proof. intros H. unfold frame_at. by rewrite lookup_app_l. Qed.

Lemma SelectQueued_Some state i :
  SelectQueued state = Some i ->
  failure_error state = 0 /\ stopping state = false
  /\ exists slot, slots state !! i = Some slot /\ slot_state slot = kQueued
     /\ forall j sj, slots state !! j = Some sj -> slot_state sj = kQueued ->
        admission_sequence slot <= admission_sequence sj.
Proof.
  unfold SelectQueued. destruct (_ && _) eqn:Hg; [|done]. b2p. intros Hi.
  apply lowest_index_Some in Hi as (slot & Hs & Hq & Hmin). apply bool_decide_eq_true in Hq.
  split_and!; [done..|]. exists slot. split_and!; [done..|]. intros j sj Hj Hqj.
  apply (Hmin j sj Hj). by apply bool_decide_eq_true.
Qed.

Lemma SelectQueued_None state :
  SelectQueued state = None -> failure_error state = 0 -> stopping state = false ->
  forall i slot, slots state !! i = Some slot -> slot_state slot <> kQueued.
Proof.
  unfold SelectQueued. intros Hn Hf Hst i slot Hs Hq. rewrite Hf, Hst in Hn. cbn in Hn.
  pose proof (lowest_index_None _ _ _ Hn i slot Hs) as H. by apply bool_decide_eq_false in H.
Qed.

(** Fields the invariant reads are unchanged. *)
Ltac keep_core H := destruct H; constructor; assumption.

Lemma core_update state state' claims claims' log disk disk' n n' w w' i s s' :
  core state claims log disk n w ->
  slots state !! i = Some s ->
  slots state' = <[i := s']> (slots state) ->
  buffers state' = buffers state -> buffer_bytes state' = buffer_bytes state ->
  faults state' = faults state -> stopping state' = stopping state ->
  closed state' = closed state -> async_open state' = async_open state ->
  start_reported state' = start_reported state ->
  close_request state' = close_request state -> closing state' = closing state ->
  disk' = file_bytes log n' w' -> (n <= n' <= length log)%nat ->
  (w' <= length (frame_at log n'))%nat ->
  (forall j sj, j <> i -> slots state !! j = Some sj -> slot_ok state log n j sj ->
     slot_ok state' log n' j sj) ->
  slot_ok state' log n' i s' ->
  (active s' -> active s /\ admission_sequence s' = admission_sequence s) ->
  (failure_error state' = 0 -> failure_error state = 0
     /\ forall k, (n' <= k)%nat -> (exists f, log !! k = Some (admission_sequence s, f)) ->
        slot_state s = kQueued \/ slot_state s = kWriting ->
        (slot_state s' = kQueued \/ slot_state s' = kWriting)
        /\ admission_sequence s' = admission_sequence s) ->
  NoDup (index <$> claims') ->
  (forall c, c ∈ claims' -> c ∈ claims
     /\ (index c = i -> slot_state s' = kReserved /\ generation s' = identity_generation c)) ->
  core state' claims' log disk' n' w'.
Proof.
  intros [] Hi Hs Hb Hbb Hf Hst Hc Ha Hsr Hcr Hcl Hd Hn Hw Hothers Hself Hact Hcomp Hnd Hcl'.
  constructor; unfold live; rewrite ?Hs, ?Hb, ?Hbb, ?Hf, ?Hst, ?Hc, ?Ha, ?Hsr, ?Hcr, ?Hcl; try done.
  - lia.
  - unfold zlen. by rewrite length_insert.
  - intros j sj Hj. apply list_lookup_insert_Some in Hj as [(<- & <- & _)|[Hne Hj]]; [done|].
    apply Hothers; auto.
  - assert (forall j x, <[i:=s']> (slots state) !! j = Some x -> active x ->
              exists z, slots state !! j = Some z /\ active z
                        /\ admission_sequence x = admission_sequence z) as Hlift.
    { intros j x Hj Hx. apply list_lookup_insert_Some in Hj as [(<- & <- & _)|[Hne Hj]]; [|by eauto].
      destruct (Hact Hx). by eauto. }
    intros j k sj sk Hj Hk Hne Hactj Hactk.
    destruct (Hlift j sj Hj Hactj) as (zj & Hzj & ? & ->).
    destruct (Hlift k sk Hk Hactk) as (zk & Hzk & ? & ->). by eapply co_distinct0.
  - intros k a Hf0 Hs0 Hc0 Hk Hlog. destruct (Hcomp Hf0) as [Hold Hkeep].
    destruct (co_complete0 k a Hold Hs0 Hc0 ltac:(lia) Hlog) as (j & sj & Hj & Hseq & Hq).
    destruct (decide (j = i)) as [->|Hne].
    + simplify_eq. exists i, s'. rewrite list_lookup_insert_eq by (by eapply lookup_lt_Some).
      destruct (Hkeep k Hk) as [? Hseq']; [|done|].
      { exists a.2. by destruct a; simplify_eq/=. }
      split_and!; [done|congruence|done].
    + exists j, sj. by rewrite list_lookup_insert_ne.
  - intros c Hcc. destruct (Hcl' c Hcc) as [Hin Hsame]. destruct (co_claimed0 c Hin) as (x & Hx & ? & ?).
    destruct (decide (index c = i)) as [He|Hne].
    + exists s'. rewrite He, list_lookup_insert_eq by (by eapply lookup_lt_Some). destruct (Hsame He). done.
    + exists x. by rewrite list_lookup_insert_ne.
  - intros H1 H2. destruct (co_unstarted0 H1 H2) as [? ->]. split; [done|].
    destruct claims' as [|c ?]; [done|]. destruct (Hcl' c) as [[]%elem_of_nil _]. left.
Qed.

Lemma not_claimed state claims log disk n w i s :
  core state claims log disk n w -> slots state !! i = Some s -> slot_state s <> kReserved ->
  forall c, c ∈ claims -> index c <> i.
Proof.
  intros [] Hi Hs c Hc <-. destruct (co_claimed0 c Hc) as (x & Hx & ? & _). simplify_eq.
Qed.

Lemma retired_update state state' log n n' retired :
  retired_inv state log n retired ->
  (forall i s, slots state' !! i = Some s -> active s -> exists j t,
     slots state !! j = Some t /\ active t /\ admission_sequence s = admission_sequence t) ->
  (n <= n')%nat ->
  (failure_error state <> 0 -> n' = n /\ failure_error state' <> 0) ->
  retired_inv state' log n' retired.
Proof.
  intros (Hnd & Hact & Hall) Hs Hn Hf. split_and!; [done|..].
  - intros i s Hi Ha. destruct (Hs i s Hi Ha) as (j & t & Hj & Ht & ->). eauto.
  - intros seq d Hd. destruct (Hall seq d Hd) as (k & f & Hk & Hb & Ho). exists k, f.
    split_and!; [done..|]. destruct (outcome d); [lia|]. destruct Ho as [-> Ho].
    destruct (Hf Ho) as [-> ?]. done.
Qed.

Lemma active_insert state state' i s s' :
  slots state !! i = Some s -> slots state' = <[i := s']> (slots state) ->
  (active s' -> active s /\ admission_sequence s' = admission_sequence s) ->
  forall j x, slots state' !! j = Some x -> active x -> exists k t,
    slots state !! k = Some t /\ active t /\ admission_sequence x = admission_sequence t.
Proof.
  intros Hi Hs Hact j x Hj Hx. rewrite Hs in Hj.
  apply list_lookup_insert_Some in Hj as [(<- & <- & _)|[Hne Hj]]; [|by eauto 10].
  destruct (Hact Hx). by eauto.
Qed.

(** ** Lemmas: the loop thread *)

Lemma WriteLength_bounds state slot len w :
  0 <= maximum_write_bytes (faults state) -> encoded_bytes slot = len ->
  written_bytes slot = w -> 0 <= w < len -> len < 2 ^ 32 ->
  0 < WriteLength state slot <= len - w.
Proof.
  intros Hm He Hw Hlt Hlen. unfold WriteLength. rewrite He, Hw, w64_small by lia.
  destruct (_ && _) eqn:Hc; b2p; lia.
Qed.

Section Pump.
Context (uv : Uv) (Heio : UV_EIO uv < 0).
Context (Hwrite : forall call, - 2 ^ 31 <= uv_fs_write uv call).
Context (claims : list FileSlotIdentity) (log : list (Z * list byte)).
Context (retired : list (Z * DeliveryRetirement)) (disk : list byte).

Definition pump_post (state : RawFileSinkState) : Prop :=
  exists n w, core state claims log disk n w /\ retired_inv state log n retired
    /\ (idle state w \/ busy state log n w) /\ settled state /\ live state.

Definition pump_inv (state : RawFileSinkState) (n w : nat) : Prop :=
  core state claims log disk n w /\ retired_inv state log n retired.

(** The slot being written, with [written] bytes accounted and [w] in the file. *)
Definition finishing (state : RawFileSinkState) (n written w : nat) (result : Z) : Prop :=
  appending state log n written (writing_slot state)
  /\ slot_state (slot_at state (writing_slot state)) = kWriting
  /\ write_request state = None
  /\ - 2 ^ 31 <= result /\ (0 < result -> Z.of_nat w = Z.of_nat written + result).

Lemma FinishCloseLocked_inv state result n w :
  pump_inv state n w -> idle state w -> close_request state = false ->
  live state ->
  pump_inv (FinishCloseLocked result state) n w /\ idle (FinishCloseLocked result state) w
  /\ settled (FinishCloseLocked result state) /\ live (FinishCloseLocked result state).
Proof.
  intros [Hc Hr] Hi Hcr Ha. unfold FinishCloseLocked, Notify. case_ifs.
  all: split_and!; [split|exact Hi|by intros ? ? ?|by right].
  all: try exact Hr; destruct Hc; constructor; try assumption; try done.
  all: intros H'; try (change (close_request state = true) in H'; congruence).
  all: destruct (co_start0 H') as [Hs1 Hs2]; destruct Ha; congruence.
Qed.

Lemma StartCloseLocked_inv state n w :
  pump_inv state n w -> idle state w -> closing state = false -> close_request state = false ->
  live state ->
  pump_inv (StartCloseLocked uv state) n w /\ idle (StartCloseLocked uv state) w
  /\ settled (StartCloseLocked uv state) /\ live (StartCloseLocked uv state).
Proof.
  intros [Hc Hr] Hi Hcl Hcr Ha. unfold StartCloseLocked.
  assert (pump_inv (ObserveOperation (state <| closing := true |>)) n w) as Hp.
  { split; [|exact Hr]. destruct Hc. constructor; try assumption; done. }
  case_ifs; [by apply FinishCloseLocked_inv..|].
  split_and!; [|exact Hi|by intros ? ?|exact Ha].
  split; [|exact Hr]. destruct Hp as [[] _]. constructor; try assumption; done.
Qed.

(** The fields [StartWriteLocked] sets first. *)
Definition start_writing (state : RawFileSinkState) (i : nat) : RawFileSinkState :=
  on_slot i (fun slot => slot <| slot_state := kWriting |>) state
    <| writing := true |> <| writing_slot := i |>.

Lemma start_writing_inv state n written w i :
  pump_inv state n w -> appending state log n written i ->
  pump_inv (start_writing state i) n w
  /\ appending (start_writing state i) log n written i
  /\ slot_state (slot_at (start_writing state i) i) = kWriting.
Proof.
  intros [Hc Hr] (Hf & Hcl & Hcd & Hno & Hlt & slot & Hi & Hw & Hst & f & Hframe & Hsl).
  pose (s' := slot <| slot_state := kWriting |>).
  assert (slots (start_writing state i) = <[i:=s']> (slots state)) as Hs
    by apply (file_on_slot_slots state i slot (fun slot => slot <| slot_state := kWriting |>) Hi).
  assert (i < length (slots state))%nat as Hlen by (by eapply lookup_lt_Some).
  pose proof (co_slots _ _ _ _ _ _ Hc i slot Hi) as Hok.
  assert (delivery slot = kInFlight \/ delivery slot = kRetired) as Hdel.
  { unfold slot_ok in Hok. destruct Hst as [Hq|[Hq _]]; rewrite Hq in Hok.
    - by destruct Hok.
    - by destruct Hok as (_ & k & _ & Hd & _). }
  assert (active s' -> active slot /\ admission_sequence s' = admission_sequence slot) as Hact.
  { intros _. split; [|done]. unfold active. destruct Hst as [Hq|[Hq _]]; rewrite Hq; tauto. }
  split_and!; [split| |].
  - eapply (core_update state _ claims claims log disk disk n n w w i slot s' Hc Hi Hs); try done.
    + apply Hc. + split; [lia|apply Hc]. + apply Hc.
    + split; [done|]. exists f. by split.
    + split; [done|]. intros k _ _ _. split; [by right|done].
    + apply Hc.
    + intros c Hcc. split; [done|]. intros He.
      destruct (not_claimed _ _ _ _ _ _ i slot Hc Hi) with c; [|done..].
      destruct Hst as [Hq|[Hq _]]; by rewrite Hq.
  - eapply retired_update; [exact Hr|by eapply active_insert|lia|done].
  - split_and!; [done..| |done|].
    + intros j sj Hj Hne. rewrite Hs in Hj.
      apply list_lookup_insert_Some in Hj as [(<- & _)|[_ Hj]]; [done|]. by eapply Hno.
    + exists s'. rewrite Hs, list_lookup_insert_eq by done.
      split_and!; [done..|by left|]. exists f. by split.
  - rewrite (file_slot_at_lookup _ _ s'); [done|]. by rewrite Hs, list_lookup_insert_eq.
Qed.

(** Fields that only count or record the request. *)
Lemma pump_inv_same state state' n w :
  slots state' = slots state -> buffers state' = buffers state ->
  buffer_bytes state' = buffer_bytes state -> faults state' = faults state ->
  failure_error state' = failure_error state -> stopping state' = stopping state ->
  closed state' = closed state -> async_open state' = async_open state ->
  start_reported state' = start_reported state ->
  close_request state' = close_request state -> closing state' = closing state ->
  pump_inv state n w -> pump_inv state' n w.
Proof.
  intros Hs Hb Hbb Hf Hfe Hst Hc Ha Hsr Hcr Hcl [H Hr].
  assert (forall i slot, slot_ok state log n i slot -> slot_ok state' log n i slot) as Hok.
  { intros i slot. unfold slot_ok, pending_ok, Buffer. by rewrite Hb, Hbb, Hfe. }
  split.
  - destruct H. constructor; unfold live; rewrite ?Hs, ?Hb, ?Hbb, ?Hf, ?Hfe, ?Hst, ?Hc, ?Ha, ?Hsr, ?Hcr, ?Hcl;
      try assumption. auto.
  - eapply retired_update; [exact Hr|rewrite Hs; eauto|lia|by rewrite Hfe].
Qed.

Lemma CancelSlot_ok state n i slot :
  slot_ok state log n i slot -> slot_ok state log n i (CancelSlot slot).
Proof.
  intros Hok. unfold CancelSlot. case_decide as Hq; [|done].
  unfold slot_ok in *. rewrite Hq in Hok. simpl.
  destruct Hok as (_ & k & Hk & _ & f & Hf & _). exists k, f. by split.
Qed.

Lemma CancelSlot_facts slot :
  (active (CancelSlot slot) -> active slot)
  /\ admission_sequence (CancelSlot slot) = admission_sequence slot
  /\ (slot_state slot = kReserved -> CancelSlot slot = slot)
  /\ slot_state (CancelSlot slot) <> kQueued
  /\ (slot_state (CancelSlot slot) = kWriting -> slot_state slot = kWriting).
Proof.
  unfold CancelSlot, active. case_decide as Hq; [|tauto].
  cbn. rewrite Hq. split_and!; try done. tauto.
Qed.

Lemma CancelQueuedLocked_inv state n w :
  failure_error state <> 0 \/ stopping state = true ->
  pump_inv state n w -> pump_inv (CancelQueuedLocked state) n w.
Proof.
  intros Hstop [Hc Hr].
  assert (forall i s, slots (CancelQueuedLocked state) !! i = Some s ->
            exists t, s = CancelSlot t /\ slots state !! i = Some t) as Hget.
  { intros i s Hi. apply list_lookup_fmap_Some in Hi as (t & -> & Hi). eauto. }
  split.
  - destruct Hc. constructor; try assumption.
    + unfold zlen in *. cbn. by rewrite length_fmap.
    + intros i s Hi. destruct (Hget i s Hi) as (t & -> & Ht). by apply CancelSlot_ok, co_slots0.
    + intros i j si sj Hi Hj Hne Hai Haj.
      destruct (Hget i si Hi) as (ti & -> & Hti). destruct (Hget j sj Hj) as (tj & -> & Htj).
      destruct (CancelSlot_facts ti) as (? & -> & _). destruct (CancelSlot_facts tj) as (? & -> & _).
      eapply co_distinct0; eauto.
    + intros k a Hf Hs. change (failure_error state = 0) in Hf.
      change (stopping state = false) in Hs. destruct Hstop; congruence.
    + intros c Hcc. destruct (co_claimed0 c Hcc) as (t & Ht & Hres & Hg).
      destruct (CancelSlot_facts t) as (_ & _ & Hsame & _). specialize (Hsame Hres).
      exists t. split; [|done]. apply list_lookup_fmap_Some. by exists t.
  - eapply retired_update; [exact Hr| |lia|done].
    intros i s Hi Ha. destruct (Hget i s Hi) as (t & -> & Ht).
    destruct (CancelSlot_facts t) as (? & -> & _). exists i, t. auto.
Qed.

Lemma CancelQueuedLocked_idle state w : idle state w -> idle (CancelQueuedLocked state) w.
Proof.
  intros (Hw & Hr & Hno & Hf). split_and!; [done..| |done].
  intros i s Hi _ Hwr. apply list_lookup_fmap_Some in Hi as (t & -> & Hi).
  eapply Hno; [exact Hi|done|]. by apply CancelSlot_facts.
Qed.

Definition fail_slot (slot : FileSlot) : FileSlot :=
  slot <| slot_state := kFree |> <| delivery := kFailed |>.

Definition deliver_slot (slot : FileSlot) : FileSlot :=
  slot <| slot_state := kFree |> <| delivery := kDelivered |>.

Lemma finish_failed_inv state n written w result e :
  e <> 0 -> pump_inv state n w -> finishing state n written w result ->
  let state' := on_slot (writing_slot state) fail_slot (state <| writing := false |>)
                  <| failure_error := e |> in
  pump_inv state' n w /\ idle state' w.
Proof.
  intros He [Hc Hr] ((Hf & Hcl & Hcd & Hno & Hlt & slot & Hi & Hw & _ & f & Hframe & Hsl)
    & Hst & Hreq & _) state'.
  rewrite (file_slot_at_lookup _ _ _ Hi) in Hst. set (i := writing_slot state) in *.
  assert (slots state' = <[i:=fail_slot slot]> (slots state)) as Hs
    by apply (file_on_slot_slots state i slot fail_slot Hi).
  assert (active (fail_slot slot) ->
          active slot /\ admission_sequence (fail_slot slot) = admission_sequence slot) as Hact.
  { intros _. split; [|done]. right. by right. }
  split; [split|].
  - eapply (core_update state _ claims claims log disk disk n n w w i slot _ Hc Hi Hs); try done.
    + apply Hc. + split; [lia|apply Hc]. + apply Hc.
    + intros j sj Hne Hj Hok. unfold slot_ok in *.
      destruct (slot_state sj), (delivery sj); try done.
      destruct Hok as (g & Hg & _). by exists g.
    + exists f. by split.
    + apply Hc.
    + intros c Hcc. split; [done|]. intros Heq.
      destruct (not_claimed _ _ _ _ _ _ i slot Hc Hi) with c; [|done..]. by rewrite Hst.
  - eapply retired_update; [exact Hr|by eapply active_insert|lia|]. done.
  - split_and!; [done..| |done].
    intros j sj Hj _. rewrite Hs in Hj.
    apply list_lookup_insert_Some in Hj as [(<- & <- & _)|[Hne Hj]]; [done|].
    eapply Hno; [done|congruence].
Qed.

(** The slot [i] is the one being written. *)
Definition writer (state : RawFileSinkState) (n i : nat) : Prop :=
  failure_error state = 0 /\ no_writer state (Some i)
  /\ exists slot f, slots state !! i = Some slot /\ slot_state slot = kWriting
     /\ has_frame log slot n f.

Lemma finish_delivered_inv state n w i :
  pump_inv state n w -> writer state n i -> w = length (frame_at log n) ->
  write_request state = None -> writing state = false ->
  let state' := on_slot i deliver_slot state in
  pump_inv state' (S n) 0 /\ idle state' 0.
Proof.
  intros [Hc Hr] (Hf & Hno & slot & f & Hi & Hst & Hframe) Hlen Hreq Hwr state'.
  assert (slots state' = <[i:=deliver_slot slot]> (slots state)) as Hs
    by apply (file_on_slot_slots state i slot deliver_slot Hi).
  assert (active slot) as Hactive by (right; by right).
  assert (n < length log)%nat as Hn by (destruct Hframe as [H _]; by eapply lookup_lt_Some).
  assert (active (deliver_slot slot) ->
          active slot /\ admission_sequence (deliver_slot slot) = admission_sequence slot) as Hact
    by done.
  split; [split|].
  - eapply (core_update state _ claims claims log disk disk n (S n) w 0 i slot _ Hc Hi Hs); try done.
    + rewrite (co_disk _ _ _ _ _ _ Hc). by apply (file_bytes_next log n w _ eq_refl).
    + lia. + lia.
    + intros j sj Hne Hj Hok.
      assert (forall k g, active sj -> has_frame log sj k g -> k <> n) as Hother.
      { intros k g Hj' Hg. eapply has_frame_index; [exact Hg|exact Hframe|].
        eapply (co_distinct _ _ _ _ _ _ Hc j i); done. }
      unfold slot_ok in *. destruct (slot_state sj) eqn:Hsj.
      * destruct (delivery sj) eqn:Hd; try done.
        -- destruct Hok as (k & g & Hg & Hk). exists k, g. split; [done|lia].
        -- destruct Hok as (g & Hg & []). done.
        -- destruct Hok as (k & g & Hg & Hk). exists k, g. split; [done|].
           assert (k <> n); [|lia]. eapply Hother; [|done]. left. congruence.
      * done.
      * destruct Hok as (Hz & k & Hk & Hd & g & Hg & Hgs). split; [done|]. exists k.
        split; [|split; [done|by exists g]].
        assert (k <> n); [|lia]. eapply Hother; [|done]. right. by left.
      * exfalso. eapply Hno; [exact Hj|congruence|done].
    + exists n, f. split; [done|lia].
    + intros Hf'. split; [done|]. intros k Hk [g Hg] _. exfalso. destruct Hframe as [Hlog _].
      pose proof (co_sorted _ _ _ _ _ _ Hc n k _ _ Hlog Hg ltac:(lia)). simpl in *. lia.
    + apply Hc.
    + intros c Hcc. split; [done|]. intros Heq.
      destruct (not_claimed _ _ _ _ _ _ i slot Hc Hi) with c; [|done..]. by rewrite Hst.
  - eapply retired_update; [exact Hr|by eapply active_insert|lia|]. done.
  - split_and!; [done..| |done].
    intros j sj Hj _. rewrite Hs in Hj.
    apply list_lookup_insert_Some in Hj as [(<- & <- & _)|[Hne Hj]]; [done|].
    eapply Hno; [done|congruence].
Qed.

Lemma finish_written_inv state n written w i :
  pump_inv state n w -> appending state log n written i -> (written <= w)%nat ->
  slot_state (slot_at state i) = kWriting ->
  let state' := on_slot i (fun slot => slot <| written_bytes := Z.of_nat w |>) state in
  pump_inv state' n w /\ slot_state (slot_at state' i) = kWriting
  /\ written_bytes (slot_at state' i) = Z.of_nat w
  /\ encoded_bytes (slot_at state' i) = zlen (frame_at log n)
  /\ ((w < length (frame_at log n))%nat -> appending state' log n w i)
  /\ writer state' n i.
Proof.
  intros [Hc Hr] (Hf & Hcl & Hcd & Hno & Hlt & slot & Hi & Hw & _ & f & Hframe & Hsl) Hle Hst state'.
  rewrite (file_slot_at_lookup _ _ _ Hi) in Hst.
  set (s' := slot <| written_bytes := Z.of_nat w |>).
  assert (slots state' = <[i:=s']> (slots state)) as Hs
    by apply (file_on_slot_slots state i slot (fun slot => slot <| written_bytes := Z.of_nat w |>) Hi).
  assert (slots state' !! i = Some s') as Hi'.
  { rewrite Hs, list_lookup_insert_eq; [done|by eapply lookup_lt_Some]. }
  assert (no_writer state' (Some i)) as Hno'.
  { intros j sj Hj Hne. rewrite Hs in Hj.
    apply list_lookup_insert_Some in Hj as [(<- & _)|[_ Hj]]; [done|]. by eapply Hno. }
  assert (active s' -> active slot /\ admission_sequence s' = admission_sequence slot) as Hact by done.
  pose proof (co_slots _ _ _ _ _ _ Hc i slot Hi) as Hok. unfold slot_ok in Hok.
  rewrite Hst in Hok. rewrite (file_slot_at_lookup _ _ _ Hi').
  split_and!; [split|done|done| | |].
  - eapply (core_update state _ claims claims log disk disk n n w w i slot s' Hc Hi Hs); try done.
    + apply Hc. + split; [lia|apply Hc]. + apply Hc.
    + unfold slot_ok. change (slot_state s') with (slot_state slot). by rewrite Hst.
    + apply Hc.
    + intros c Hcc. split; [done|]. intros Heq.
      destruct (not_claimed _ _ _ _ _ _ i slot Hc Hi) with c; [|done..]. by rewrite Hst.
  - eapply retired_update; [exact Hr|by eapply active_insert|lia|done].
  - change (encoded_bytes slot = zlen (frame_at log n)). rewrite (has_frame_at _ _ _ _ Hframe).
    by destruct Hframe.
  - intros Hw'. split_and!; [done..|]. exists s'. split_and!; [done..|by left|]. by exists f.
  - split_and!; [done..|]. exists s', f. by split_and!.
Qed.

Lemma on_slot_eq state i slot f g :
  slots state !! i = Some slot -> f slot = g slot -> on_slot i f state = on_slot i g state.
Proof.
  intros Hi Heq. unfold on_slot, modify. f_equal.
  by rewrite (alter_as_insert f _ _ _ Hi), (alter_as_insert g _ _ _ Hi), Heq.
Qed.

Lemma selected_appending state n w i :
  pump_inv state n w -> idle state w -> closing state = false -> closed state = false ->
  SelectQueued state = Some i -> appending state log n w i.
Proof.
  intros [Hc _] (Hwr & _ & Hno & Hw0) Hcl Hcd Hsel.
  destruct (SelectQueued_Some _ _ Hsel) as (Hf & Hst & slot & Hi & Hq & Hmin).
  pose proof (co_slots _ _ _ _ _ _ Hc i slot Hi) as Hok. unfold slot_ok in Hok. rewrite Hq in Hok.
  destruct Hok as (Hwb & k & Hk & _ & f & Hframe & Hsl). destruct Hframe as [Hlog Henc].
  assert (k = n) as ->.
  { destruct (lookup_lt_is_Some_2 log n) as [a Ha]; [apply lookup_lt_Some in Hlog; lia|].
    destruct (co_complete _ _ _ _ _ _ Hc n a Hf Hst Hcd (le_n _) Ha) as (j & sj & Hj & Hseq & Hqj).
    assert (slot_state sj = kQueued) as Hqj' by (destruct Hqj; [done|by edestruct Hno]).
    pose proof (Hmin j sj Hj Hqj'). destruct (decide (k = n)) as [|Hne]; [done|].
    pose proof (co_sorted _ _ _ _ _ _ Hc n k a _ Ha Hlog ltac:(lia)). simpl in *. lia. }
  rewrite (Hw0 Hf).
  pose proof (co_frames _ _ _ _ _ _ Hc n _ Hlog) as Hpos. rewrite <- (frame_at_lookup _ _ _ Hlog) in Hpos.
  split_and!; [done..| | |].
  - intros j sj Hj _. by eapply Hno.
  - unfold zlen in Hpos. lia.
  - exists slot. split_and!; [done|done|by right|]. exists f. by split.
Qed.

(** The request of an append: the next bytes of the frame. *)
Lemma request_bytes state n written i call :
  0 <= maximum_write_bytes (faults state) -> 0 <= buffer_bytes state ->
  appending state log n written i -> zlen (frame_at log n) < 2 ^ 32 ->
  let slot := slot_at state i in
  let state' := ObserveOperation (state <| write_calls := call |>) in
  exists m, slice (Buffer state' i + written_bytes slot) (w32 (WriteLength state slot))
              (buffers state') = take m (drop written (frame_at log n)) /\ (0 < m)%nat.
Proof.
  intros Hmax Hbb (_ & _ & _ & _ & Hlt & slot & Hi & Hw & _ & f & Hframe & Hsl) Hlen s st'.
  unfold s. rewrite (file_slot_at_lookup _ _ _ Hi), Hw.
  pose proof (has_frame_at _ _ _ _ Hframe) as Hf. destruct Hframe as [_ Henc].
  rewrite Hf in *.
  pose proof (WriteLength_bounds state slot (zlen f) (Z.of_nat written) Hmax Henc Hw) as HL.
  unfold zlen in *. specialize (HL ltac:(lia) ltac:(lia)).
  rewrite w32_small by lia. change (buffers st') with (buffers state).
  change (Buffer st' i) with (Buffer state i).
  rewrite (slice_inner _ _ _ (Z.of_nat (length f))) by (unfold Buffer; lia).
  rewrite Hsl, Nat2Z.id. eexists. split; [done|lia].
Qed.

Lemma Notify_inv state n w : pump_inv state n w -> pump_inv (Notify state) n w.
Proof. intros H. unfold Notify. case_ifs; [|done]. by apply (pump_inv_same state). Qed.

Lemma Notify_idle state w : idle state w -> idle (Notify state) w.
Proof. unfold Notify. by case_ifs. Qed.

Lemma Notify_live state : live state -> live (Notify state).
Proof. unfold Notify. by case_ifs. Qed.

(** The two recursive calls of the pump on [fuel]. *)
Definition pump_safe (fuel : nat) : Prop :=
  (forall state n w state', pump_inv state n w -> idle state w \/ busy state log n w ->
     live state -> PumpLocked uv fuel state = Some state' -> pump_post state')
  /\ (forall state n w i state', pump_inv state n w -> appending state log n w i ->
     write_request state = None -> live state ->
     StartWriteLocked uv fuel i state = Some state' -> pump_post state').

Lemma finish_step fuel state n written w result state' :
  pump_safe fuel -> pump_inv state n w -> finishing state n written w result -> live state ->
  (written <= w)%nat -> result <= zlen (frame_at log n) - Z.of_nat written ->
  FinishWriteLocked uv (S fuel) result state = Some state' -> pump_post state'.
Proof.
  intros [IHp IHs] Hinv Hfin Hlive Hle Hres. cbn [FinishWriteLocked].
  pose proof Hfin as (Happ & Hst & Hreq & Hmin & Hw).
  pose proof Happ as (Hf & Hcl & Hcd & _ & Hlt & slot & Hi & Hwb & _ & f & Hframe & _).
  set (i := writing_slot state) in *.
  rewrite (file_slot_at_lookup _ _ _ Hi) in *. pose proof (has_frame_at _ _ _ _ Hframe) as Hfr.
  assert (zlen f < 2 ^ 32) as Hflen.
  { destruct Hinv as [[] _]. destruct Hframe as [Hlog _].
    specialize (co_frames0 _ _ Hlog). cbn [snd] in *. lia. }
  destruct Hframe as [_ Henc]. rewrite Hfr in *. unfold zlen in *.
  rewrite Henc, Hwb, (w64_small (_ - _)) by lia.
  destruct (_ || _) eqn:Hcond.
  - destruct (finish_failed_inv state n written w result
      (if result <? 0 then to_s32 result else UV_EIO uv)) as [Hinv' Hidle'].
    { destruct (Z.ltb_spec result 0); [rewrite to_s32_small by lia|]; lia. }
    1-2: done.
    apply IHp with n w; [|left|].
    + apply Notify_inv, CancelQueuedLocked_inv, Hinv'. left. cbn.
      destruct (Z.ltb_spec result 0); [rewrite to_s32_small by lia|]; lia.
    + by apply Notify_idle, CancelQueuedLocked_idle.
    + by apply Notify_live.
  - b2p. assert (0 < result) as Hpos by (destruct_or?; b2p; lia).
    specialize (Hw Hpos).
    match goal with |- context [writing_slot (on_slot i ?g ?s)] =>
      replace (on_slot i g s) with
        (on_slot i (fun slot => slot <| written_bytes := Z.of_nat w |>) (state <| writing := false |>))
    end.
    2: { symmetry. apply (on_slot_eq (state <| writing := false |>) i slot); [exact Hi|].
         cbn. rewrite Hwb, w64_small by (case_ifs; b2p; lia). f_equal. case_ifs; b2p; lia. }
    destruct (finish_written_inv (state <| writing := false |>) n written w i)
      as (Hinv' & Hst' & -> & -> & Happ' & Hwriter); [by apply (pump_inv_same state)|done..| |].
    { rewrite (file_slot_at_lookup _ _ slot); [exact Hst|exact Hi]. }
    rewrite Hfr. unfold zlen. destruct (Z.ltb_spec (Z.of_nat w) (Z.of_nat (length f))).
    + apply IHs with n w; [done| |done..]. apply Happ'. rewrite Hfr. lia.
    + destruct (finish_delivered_inv _ n w i Hinv' Hwriter) as [Hd Hid]; [rewrite Hfr; lia|done..|].
      apply IHp with (S n) 0%nat; [by apply Notify_inv|left; by apply Notify_idle|by apply Notify_live].
Qed.

Lemma pump_all fuel :
  (forall state n w state', pump_inv state n w -> idle state w \/ busy state log n w ->
     live state -> PumpLocked uv fuel state = Some state' -> pump_post state')
  /\ (forall state n w i state', pump_inv state n w -> appending state log n w i ->
     write_request state = None -> live state ->
     StartWriteLocked uv fuel i state = Some state' -> pump_post state')
  /\ (forall state n written w result state', pump_inv state n w ->
     finishing state n written w result -> live state -> (written <= w)%nat ->
     result <= zlen (frame_at log n) - Z.of_nat written ->
     FinishWriteLocked uv fuel result state = Some state' -> pump_post state').
Proof.
  induction fuel as [|fuel (IHp & IHs & IHf)]; [done|]. split_and!.
  - intros state n w state' Hinv Hph Hlive. cbn [PumpLocked].
    destruct (_ || _) eqn:Hstop.
    { intros [= <-]. exists n, w. destruct Hinv. split_and!; [done..| |done].
      intros ? ? ?. rewrite !orb_true_iff in Hstop. destruct Hstop as [[]|]; congruence. }
    b2p. destruct Hph as [Hidle|[? _]]; [|congruence].
    assert (close_request state = false) as Hcr.
    { destruct (close_request state) eqn:E; [|done]. destruct Hinv as [[] _].
      destruct co_closing0; [done|congruence]. }
    destruct (SelectQueued state) as [i|] eqn:Hsel.
    + apply (IHs state n w); try done; [by apply selected_appending|apply Hidle].
    + intros [= <-]. destruct (close_requested state) eqn:Hreq.
      * destruct (StartCloseLocked_inv state n w) as ([? ?] & ? & ? & ?); [done..|].
        exists n, w. split_and!; try done. by left.
      * exists n, w. destruct Hinv. split_and!; try done; [by left|].
        intros _ _ _. split; [done|]. by apply SelectQueued_None.
  - intros state n w i state' Hinv Happ Hreq Hlive. cbn [StartWriteLocked].
    destruct (start_writing_inv state n w w i Hinv Happ) as (Hinv' & Happ' & Hst').
    change (on_slot i _ state <| writing := true |> <| writing_slot := i |>)
      with (start_writing state i).
    set (st1 := start_writing state i) in *. cbv zeta.
    set (st2 := ObserveOperation _).
    assert (pump_inv st2 n w) as Hinv2 by (by apply (pump_inv_same st1)).
    destruct Hinv' as [Hc' _]. pose proof (co_faults _ _ _ _ _ _ Hc') as [Hmax Herr].
    pose proof (co_mem _ _ _ _ _ _ Hc') as [Hbb _].
    assert (zlen (frame_at log n) < 2 ^ 32) as Hflen.
    { destruct Happ' as (_ & _ & _ & _ & _ & slot & _ & _ & _ & f & Hframe & _).
      rewrite (has_frame_at _ _ _ _ Hframe). destruct Hframe as [Hlog _].
      pose proof (co_frames _ _ _ _ _ _ Hc' n _ Hlog) as Hb. cbn [snd] in Hb. lia. }
    assert (Hwlt : (w < length (frame_at log n))%nat) by apply Happ'.
    assert (forall r, - 2 ^ 31 <= r <= 0 -> finishing st2 n w w r) as Hfin.
    { intros r Hr. split_and!; [exact Happ'|exact Hst'|exact Hreq|lia|lia]. }
    destruct (_ =? _).
    { apply (IHf st2 n w w); try done; [by apply Hfin|]. unfold zlen. change (faults st2) with (faults st1). lia. }
    destruct (uv_fs_write uv _ <? 0) eqn:Hneg; b2p.
    { apply (IHf st2 n w w); try done; [|unfold zlen; lia]. apply Hfin.
      split; [apply Hwrite|lia]. }
    intros [= <-].
    destruct (request_bytes st1 n w i (write_calls st1 +w 1) Hmax ltac:(lia) Happ' Hflen)
      as (m & Hm & Hpos). fold st2 in Hm.
    match goal with |- pump_post ?s =>
      assert (pump_inv s n w) as [? ?] by (by apply (pump_inv_same st2)) end.
    exists n, w. split_and!; try done.
    + right. split_and!; [done|exact Happ'| |exists m; split; [exact (f_equal Some Hm)|done]].
      destruct Happ' as (_ & _ & _ & _ & _ & slot & Hi & _). exists slot. split; [exact Hi|].
      by rewrite (file_slot_at_lookup _ _ _ Hi) in Hst'.
  - intros state n written w result state' Hinv Hfin Hlive Hle Hres. cbn [FinishWriteLocked].
    by apply (finish_step fuel state n written w result).
Qed.
End Pump.

(** ** Termination of the pump *)

Section Termination.
Context (uv : Uv) (Heio : UV_EIO uv <> 0).
Context (Hwrite : forall call, - 2 ^ 31 <= uv_fs_write uv call).

(** From fuel [k] on, [f] answers and its answer no longer changes. *)
Definition settles {A} (k : nat) (f : nat -> option A) : Prop :=
  exists a, forall fuel, (k <= fuel)%nat -> f fuel = Some a.

Lemma settles_now {A} k (f : nat -> option A) a :
  (forall fuel, f (S fuel) = Some a) -> (1 <= k)%nat -> settles k f.
Proof. intros H Hk. exists a. intros [|fuel] Hf; [lia|done]. Qed.

Lemma settles_later {A} k (f g : nat -> option A) :
  (forall fuel, f (S fuel) = g fuel) -> settles k g -> settles (S k) f.
Proof. intros H (a & Ha). exists a. intros [|fuel] Hf; [lia|]. rewrite H. apply Ha. lia. Qed.

Lemma settles_weaken {A} k k' (f : nat -> option A) : (k <= k')%nat -> settles k f -> settles k' f.
Proof. intros Hk (a & Ha). exists a. intros fuel Hf. apply Ha. lia. Qed.

Lemma Pump_failed state :
  failure_error state <> 0 -> settles 1 (fun fuel => PumpLocked uv fuel state).
Proof.
  intros Hf. assert (SelectQueued state = None) as Hsel.
  { unfold SelectQueued. by rewrite (proj2 (Z.eqb_neq _ _) Hf). }
  destruct (writing state || closing state || closed state) eqn:E1.
  - eapply settles_now; [|lia]. intros fuel. cbn [PumpLocked]. by rewrite E1.
  - eapply settles_now; [|lia]. intros fuel. cbn [PumpLocked]. by rewrite E1, Hsel.
Qed.

Lemma failure_error_Notify state : failure_error (Notify state) = failure_error state.
Proof. unfold Notify. by case_ifs. Qed.

Lemma write_calls_Notify state : write_calls (Notify state) = write_calls state.
Proof. unfold Notify. by case_ifs. Qed.

Lemma faults_Notify state : faults (Notify state) = faults state.
Proof. unfold Notify. by case_ifs. Qed.

(** One unfolding of each step. *)
Definition started (state : RawFileSinkState) (i : nat) : RawFileSinkState :=
  ObserveOperation (start_writing state i <| write_calls := write_calls state +w 1 |>).

Definition request_of (state : RawFileSinkState) (i : nat) : list byte :=
  let slot := slot_at (start_writing state i) i in
  slice (Buffer state i + written_bytes slot) (w32 (WriteLength state slot)) (buffers state).

Lemma StartWriteLocked_S fuel i state :
  StartWriteLocked uv (S fuel) i state =
  if write_calls state =? failing_write_call (faults state)
  then FinishWriteLocked uv fuel (write_error (faults state)) (started state i)
  else if uv_fs_write uv (write_calls state) <? 0
  then FinishWriteLocked uv fuel (uv_fs_write uv (write_calls state)) (started state i)
  else Some (started state i <| write_request := Some (request_of state i) |>).
Proof. reflexivity. Qed.

Definition failed_result (state : RawFileSinkState) (result : Z) : bool :=
  let slot := slot_at state (writing_slot state) in
  (result <? 0) || ((result =? 0) && negb (encoded_bytes slot -w written_bytes slot =? 0)).

Definition after_failure (state : RawFileSinkState) (result : Z) : RawFileSinkState :=
  Notify (CancelQueuedLocked
    (on_slot (writing_slot state) (fun slot => slot <| slot_state := kFree |>
                                                 <| delivery := kFailed |>)
       (state <| writing := false |>)
     <| failure_error := if result <? 0 then to_s32 result else UV_EIO uv |>)).

Definition after_write (state : RawFileSinkState) (result : Z) : RawFileSinkState :=
  let slot := slot_at state (writing_slot state) in
  let remaining := encoded_bytes slot -w written_bytes slot in
  on_slot (writing_slot state) (fun slot => slot <| written_bytes ::= fun n =>
    n +w (if result <? remaining then result else remaining) |>) (state <| writing := false |>).

Definition after_delivery (state : RawFileSinkState) (i : nat) : RawFileSinkState :=
  Notify (on_slot i (fun slot => slot <| slot_state := kFree |> <| delivery := kDelivered |>) state).

Lemma FinishWriteLocked_S fuel result state :
  let i := writing_slot state in
  let written := after_write state result in
  FinishWriteLocked uv (S fuel) result state =
  if failed_result state result then PumpLocked uv fuel (after_failure state result)
  else if written_bytes (slot_at written i) <? encoded_bytes (slot_at written i)
  then StartWriteLocked uv fuel i written
  else PumpLocked uv fuel (after_delivery written i).
Proof. reflexivity. Qed.

Lemma after_failure_error state result :
  - 2 ^ 31 <= result -> failed_result state result = true ->
  failure_error (after_failure state result) <> 0.
Proof.
  intros Hr Hf. unfold after_failure. rewrite failure_error_Notify. cbn.
  destruct (Z.ltb_spec result 0); [rewrite to_s32_small; lia|done].
Qed.

Lemma Finish_failed state result :
  - 2 ^ 31 <= result < 0 -> settles 2 (fun fuel => FinishWriteLocked uv fuel result state).
Proof.
  intros Hr. assert (failed_result state result = true) as Hf.
  { unfold failed_result. by rewrite (proj2 (Z.ltb_lt result 0)) by lia. }
  eapply settles_later; [|by apply Pump_failed, after_failure_error with (result := result); [lia|]].
  intros fuel. rewrite FinishWriteLocked_S, Hf. reflexivity.
Qed.

Definition spared (state : RawFileSinkState) : Prop :=
  write_calls state <> failing_write_call (faults state).

Lemma Start_spared state i :
  spared state -> settles 3 (fun fuel => StartWriteLocked uv fuel i state).
Proof.
  intros Hs. apply Z.eqb_neq in Hs.
  destruct (uv_fs_write uv (write_calls state) <? 0) eqn:Hneg.
  - eapply settles_later; [|apply Finish_failed; split; [apply Hwrite|by apply Z.ltb_lt]].
    intros fuel. rewrite StartWriteLocked_S, Hs, Hneg. reflexivity.
  - eapply settles_now; [|lia]. intros fuel. rewrite StartWriteLocked_S, Hs, Hneg. reflexivity.
Qed.

(** A pump costs one more than the start it makes. *)
Lemma Pump_of_Start k state :
  (forall i, settles k (fun fuel => StartWriteLocked uv fuel i state)) ->
  settles (S k) (fun fuel => PumpLocked uv fuel state).
Proof.
  intros Hs. destruct (writing state || closing state || closed state) eqn:E1.
  { eapply settles_now; [|lia]. intros fuel. cbn [PumpLocked]. by rewrite E1. }
  destruct (SelectQueued state) as [i|] eqn:E2.
  - eapply settles_later; [|apply (Hs i)]. intros fuel. cbn [PumpLocked]. by rewrite E1, E2.
  - eapply settles_now; [|lia]. intros fuel. cbn [PumpLocked]. by rewrite E1, E2.
Qed.

(** A completion costs one more than the start or the pump it makes. *)
Lemma Finish_of_Start k state result :
  - 2 ^ 31 <= result -> (0 < k)%nat ->
  (forall i, settles k (fun fuel => StartWriteLocked uv fuel i (after_write state result))) ->
  (forall i, settles k (fun fuel =>
     PumpLocked uv fuel (after_delivery (after_write state result) i))) ->
  settles (S k) (fun fuel => FinishWriteLocked uv fuel result state).
Proof.
  intros Hr Hk Hs Hp. destruct (failed_result state result) eqn:E1.
  { eapply settles_later; [intros fuel; rewrite FinishWriteLocked_S, E1; reflexivity|].
    eapply settles_weaken; [|by apply Pump_failed, after_failure_error]. lia. }
  destruct (written_bytes (slot_at (after_write state result) (writing_slot state))
    <? encoded_bytes (slot_at (after_write state result) (writing_slot state))) eqn:E2.
  all: eapply settles_later; [intros fuel; rewrite FinishWriteLocked_S, E1, E2; reflexivity|].
  - apply Hs.
  - apply Hp.
Qed.

Lemma spared_finish state result :
  - 2 ^ 31 <= result -> spared state ->
  settles 5 (fun fuel => FinishWriteLocked uv fuel result state).
Proof.
  intros Hr Hs. apply Finish_of_Start; [done|lia|..]; intros i.
  - eapply settles_weaken; [|apply Start_spared; exact Hs]. lia.
  - apply Pump_of_Start. intros j. apply Start_spared. unfold spared, after_delivery.
    by rewrite write_calls_Notify, faults_Notify.
Qed.

(** The injected failure hits one call; the next call is another one. *)
Lemma Start_settles state i :
  0 <= write_calls state < 2 ^ 64 -> - 2 ^ 31 <= write_error (faults state) ->
  settles 6 (fun fuel => StartWriteLocked uv fuel i state).
Proof.
  intros Hcalls Herr. destruct (decide (write_calls state = failing_write_call (faults state))) as [He|Hne].
  - eapply settles_later.
    { intros fuel. rewrite StartWriteLocked_S, He, Z.eqb_refl. reflexivity. }
    apply spared_finish; [done|]. unfold spared.
    change (write_calls state +w 1 <> failing_write_call (faults state)). rewrite <- He.
    generalize dependent (write_calls state). intros c Hc _. unfold w64.
    destruct (Z.eq_dec c (2 ^ 64 - 1)) as [->|]; [by vm_compute|]. rewrite Z.mod_small; lia.
  - eapply settles_weaken; [|by apply Start_spared]. lia.
Qed.

Definition calls_ok (state : RawFileSinkState) : Prop :=
  0 <= write_calls state < 2 ^ 64 /\ - 2 ^ 31 <= write_error (faults state).

Lemma Pump_settles state : calls_ok state -> settles 7 (fun fuel => PumpLocked uv fuel state).
Proof. intros [Hc He]. apply Pump_of_Start. intros i. by apply Start_settles. Qed.

(** C31: a loop callback always returns: whatever the slots hold, one pump, or one
    completion with any result, ends within eight nested calls and does not depend
    on the fuel past that, because at most one call meets the injected failure and a
    failed route starts no further append. *)
Theorem pump_terminates state result :
  calls_ok state -> - 2 ^ 31 <= result ->
  settles 8 (fun fuel => OnWake uv fuel state)
  /\ settles 8 (fun fuel => OnWriteComplete uv fuel result state).
Proof.
  intros Hok Hr. split; unfold OnWake, OnWriteComplete.
  - eapply settles_weaken; [|by apply Pump_settles]. lia.
  - apply Finish_of_Start; [done|lia|..]; intros i.
    + eapply settles_weaken; [|by apply Start_settles; apply Hok]. lia.
    + apply Pump_settles. unfold calls_ok, after_delivery.
      by rewrite write_calls_Notify, faults_Notify.
Qed.
End Termination.

(** ** The steps preserve the invariant *)

Definition phase (state : RawFileSinkState) (log : list (Z * list byte)) (n w : nat) : Prop :=
  idle state w \/ busy state log n w.

Definition waking (state : RawFileSinkState) : Prop :=
  (async_open state = true -> wake_pending state = false -> settled state)
  /\ (wake_pending state = true -> live state).

Definition world_inv (w : World) : Prop :=
  exists n k, pump_inv (claims w) (log w) (retired w) (disk w) (sink w) n k
    /\ phase (sink w) (log w) n k /\ waking (sink w).

(** A slot other than the one being written changed, the log may have grown. *)
Lemma phase_update state state' log ext n w i s s' :
  slots state !! i = Some s -> slots state' = <[i := s']> (slots state) ->
  slot_state s <> kWriting -> slot_state s' <> kWriting ->
  failure_error state' = failure_error state -> closing state' = closing state ->
  closed state' = closed state -> writing state' = writing state ->
  writing_slot state' = writing_slot state -> write_request state' = write_request state ->
  (forall j m, j <> i -> 0 <= m <= buffer_bytes state ->
     slice (Buffer state' j) m (buffers state') = slice (Buffer state j) m (buffers state)) ->
  (forall k a, log !! k = Some a -> 0 < zlen a.2 <= buffer_bytes state) ->
  phase state log n w -> phase state' (log ++ ext) n w.
Proof.
  intros Hi Hs Hns Hns' Hf Hcl Hc Hw Hws Hreq Hbuf Hfr.
  assert (forall but, no_writer state but -> no_writer state' but) as Hno.
  { intros but H j sj Hj Hne. rewrite Hs in Hj.
    apply list_lookup_insert_Some in Hj as [(_ & <- & _)|[_ Hj]]; [done|]. by eapply H. }
  intros [(H1 & H2 & H3 & H4)|(H1 & Happ & (slot & Hsl & Hst) & m & H2 & H3)].
  - left. unfold idle. rewrite Hw, Hreq, Hf. auto.
  - right. destruct Happ as (A1 & A2 & A3 & A4 & A5 & t & At & A6 & A7 & f & Af & A8).
    simplify_eq.
    assert (writing_slot state <> i) as Hne by (intros <-; simplify_eq).
    destruct Af as [Alog Aenc]. pose proof (lookup_lt_Some _ _ _ Alog) as Hlt.
    unfold busy, appending. rewrite Hw, Hreq, Hf, Hcl, Hc, Hws, frame_at_snoc_app by done.
    rewrite Hs, list_lookup_insert_ne by done.
    split_and!; [done..|by apply Hno|done| |by exists t|by exists m].
    exists t. split_and!; [done..|]. exists f. split; [split; [by apply lookup_app_l_Some|done]|].
    rewrite Hbuf; [done|done|]. specialize (Hfr _ _ Alog). simpl in Hfr. lia.
Qed.

Lemma phase_same state state' log n w :
  slots state' = slots state -> buffers state' = buffers state ->
  buffer_bytes state' = buffer_bytes state ->
  failure_error state' = failure_error state -> closing state' = closing state ->
  closed state' = closed state -> writing state' = writing state ->
  writing_slot state' = writing_slot state -> write_request state' = write_request state ->
  phase state log n w -> phase state' log n w.
Proof.
  intros Hs Hb Hbb Hf Hcl Hc Hw Hws Hreq. unfold phase, idle, busy, appending, no_writer, Buffer.
  by rewrite Hs, Hb, Hbb, Hf, Hcl, Hc, Hw, Hws, Hreq.
Qed.

Lemma SendWakeLocked_waking state :
  (wake_pending state = true -> live state) -> waking (SendWakeLocked state).
Proof.
  unfold SendWakeLocked, waking, live. destruct (async_open state) eqn:Ha; cbn; rewrite ?Ha; [|done].
  split; [done|by left].
Qed.

Lemma SendWakeLocked_inv claims log retired disk state n w :
  pump_inv claims log retired disk state n w ->
  pump_inv claims log retired disk (SendWakeLocked state) n w.
Proof. intros H. unfold SendWakeLocked. case_ifs; [|done]. by apply (pump_inv_same _ _ _ _ state). Qed.

Lemma SendWakeLocked_phase state log n w :
  phase state log n w -> phase (SendWakeLocked state) log n w.
Proof. intros H. unfold SendWakeLocked. case_ifs; [|done]. by apply (phase_same state). Qed.

Lemma start_preserves notify w :
  world_inv w ->
  world_inv {| sink := StartThread notify (sink w); claims := claims w; log := log w;
               retired := retired w; disk := disk w |}.
Proof.
  intros (n & k & Hi & Hp & Hwk). exists n, k.
  split_and!; [by apply (pump_inv_same _ _ _ _ (sink w))|by apply (phase_same (sink w))|exact Hwk].
Qed.

Lemma run_preserves uv w :
  start_reported (sink w) = false -> world_inv w ->
  world_inv {| sink := RunLoop uv (sink w); claims := claims w; log := log w;
               retired := retired w; disk := disk w |}.
Proof.
  intros Hst (n & k & [Hc Hr] & Hp & Hwk). destruct (co_start _ _ _ _ _ _ Hc Hst) as [Ha Hcd].
  destruct (co_unstarted _ _ _ _ _ _ Hc Ha Hcd) as [Hlog Hcl].
  assert (forall i slot, slots (sink w) !! i = Some slot -> slot_state slot <> kQueued) as Hnoq.
  { intros i slot Hi Hq. pose proof (co_slots _ _ _ _ _ _ Hc i slot Hi) as Hok.
    unfold slot_ok in Hok. rewrite Hq in Hok. destruct Hok as (_ & j & _ & _ & f & [Hj _] & _).
    by rewrite Hlog in Hj. }
  exists n, k. cbn [sink claims log retired disk].
  assert (forall r st, pump_inv (claims w) (log w) (retired w) (disk w) st n k ->
    pump_inv (claims w) (log w) (retired w) (disk w) (MarkLoopExited (ReportStart r st)) n k) as Hrep.
  { intros r st [[] Hr']. split; [|exact Hr']. constructor; try assumption; done. }
  assert (pump_inv (claims w) (log w) (retired w) (disk w) (sink w) n k) as Hi' by done.
  unfold RunLoop. case_ifs.
  1-2: split_and!; [by apply Hrep|by apply (phase_same (sink w))|exact Hwk].
  - split_and!; [|by apply (phase_same (sink w))|exact Hwk].
    apply Hrep. by apply (pump_inv_same _ _ _ _ (sink w)).
  - split_and!.
    + apply SendWakeLocked_inv. destruct Hi' as [[] Hr']. split; [|exact Hr'].
      constructor; try assumption; try done; cbn.
      * intros H. change (closed (sink w) = true) in H. congruence.
      * intros H. destruct (co_closing0 H). split; [done|by left].
    + apply SendWakeLocked_phase. by apply (phase_same (sink w)).
    + apply SendWakeLocked_waking. intros _. by left.
  - split_and!.
    + destruct Hi' as [[] Hr']. split; [|exact Hr'].
      constructor; try assumption; try done; cbn.
      * intros H. change (closed (sink w) = true) in H. congruence.
      * intros H. destruct (co_closing0 H). split; [done|by left].
    + by apply (phase_same (sink w)).
    + split; [|by left]. intros _ _ _ _ _. split; [assumption|]. intros _ _. exact Hnoq.
Qed.

Lemma Reset_claimed state identity slot :
  slots state !! index identity = Some slot -> slot_state slot = kReserved ->
  generation slot = identity_generation identity ->
  Reset identity state = on_slot (index identity) (fun slot => slot <| slot_state := kFree |>) state.
Proof.
  intros Hi Hs Hg. unfold Reset. rewrite (file_slot_at_lookup _ _ _ Hi), Hs, Hg, Z.eqb_refl. done.
Qed.

Lemma settled_update state state' i s s' :
  slots state !! i = Some s -> slots state' = <[i := s']> (slots state) ->
  slot_state s' <> kQueued ->
  failure_error state' = failure_error state -> closing state' = closing state ->
  closed state' = closed state -> writing state' = writing state ->
  stopping state' = stopping state -> close_requested state' = close_requested state ->
  settled state -> settled state'.
Proof.
  intros Hi Hs Hq Hf Hcl Hc Hw Hst Hreq H. unfold settled in *.
  rewrite Hf, Hcl, Hc, Hw, Hst, Hreq. intros H1 H2 H3. destruct (H H1 H2 H3) as [? Hno].
  split; [done|]. intros H4 H5 j sj Hj. rewrite Hs in Hj.
  apply list_lookup_insert_Some in Hj as [(_ & <- & _)|[_ Hj]]; [done|]. by eapply Hno.
Qed.

Lemma file_release_preserves w before identity after :
  claims w = before ++ identity :: after -> world_inv w ->
  world_inv {| sink := Reset identity (sink w); claims := before ++ after; log := log w;
               retired := retired w; disk := disk w |}.
Proof.
  intros Hcl (n & k & [Hc Hr] & Hp & Hwk).
  destruct (NoDup_fmap_split index _ _ _ _ Hcl (co_claims _ _ _ _ _ _ Hc)) as (Hnd & Hin & Hrest).
  destruct (co_claimed _ _ _ _ _ _ Hc _ Hin) as (slot & Hi & Hs & Hg).
  rewrite (Reset_claimed _ _ _ Hi Hs Hg).
  pose proof (co_slots _ _ _ _ _ _ Hc _ _ Hi) as Hok. unfold slot_ok in Hok. rewrite Hs in Hok.
  set (s' := slot <| slot_state := kFree |>).
  assert (slots (on_slot (index identity) (fun slot => slot <| slot_state := kFree |>) (sink w))
          = <[index identity := s']> (slots (sink w))) as Hset
    by apply (file_on_slot_slots _ _ slot (fun slot => slot <| slot_state := kFree |>) Hi).
  assert (~ active s') as Hna by (unfold active; cbn; rewrite Hok; intuition discriminate).
  assert (slot_state s' <> kWriting /\ slot_state s' <> kQueued) as [Hnw Hnq] by done.
  assert (slot_state slot <> kWriting) as Hnw' by (by rewrite Hs).
  exists n, k. cbn [sink claims log retired disk]. split_and!; [split| |split].
  - eapply (core_update (sink w) _ (claims w) _ (log w) (disk w) (disk w) n n k k _ slot s' Hc Hi Hset);
      try done.
    + apply Hc. + split; [lia|apply Hc]. + apply Hc.
    + unfold slot_ok. cbn. by rewrite Hok.
    + intros Hf. split; [exact Hf|]. rewrite Hs. intros j _ _ [|]; discriminate.
    + intros c Hcc. destruct (Hrest c Hcc). done.
  - eapply retired_update; [exact Hr|by eapply active_insert|lia|done].
  - rewrite <- (app_nil_r (log w)). apply (phase_update (sink w) _ (log w) [] n k (index identity) slot s');
      try done. apply Hc.
  - intros Ha Hwp. eapply settled_update; [done..|]. by apply Hwk.
  - apply Hwk.
Qed.

Lemma claim_preserves w identity state :
  TryClaimWrite (sink w) = (Some identity, state) -> world_inv w ->
  world_inv {| sink := state; claims := claims w ++ [identity]; log := log w;
               retired := retired w; disk := disk w |}.
Proof.
  intros Htry (n & k & [Hc Hr] & Hp & Hwk). unfold TryClaimWrite in Htry.
  destruct (_ || _) eqn:Hguard; [done|]. destruct (first_index _ _) as [i|] eqn:Hfirst; [|done].
  b2p. apply first_index_Some in Hfirst as (slot & Hi & Hfree & _). unfold claimable in Hfree.
  apply andb_true_iff in Hfree as [Hs%bool_decide_eq_true Hd%bool_decide_eq_true].
  revert Htry. set (claim_slot := fun slot : FileSlot =>
    slot <| generation ::= NextGeneration |> <| slot_state := kReserved |>).
  set (st := on_slot i claim_slot (sink w)). set (s' := claim_slot slot).
  assert (slots st = <[i := s']> (slots (sink w))) as Hset by (by apply file_on_slot_slots).
  assert (slots st !! i = Some s') as Hi'.
  { rewrite Hset, list_lookup_insert_eq; [done|by eapply lookup_lt_Some]. }
  rewrite (file_slot_at_lookup _ _ _ Hi'). intros [= <- <-].
  assert (~ active s') as Hna by (unfold active; cbn; rewrite Hd; intuition discriminate).
  assert (slot_state s' <> kWriting /\ slot_state s' <> kQueued) as [Hnw Hnq] by done.
  assert (slot_state slot <> kWriting) as Hnw' by (by rewrite Hs).
  assert (forall c, c ∈ claims w -> index c <> i) as Hfresh.
  { eapply not_claimed; [exact Hc|exact Hi|by rewrite Hs]. }
  assert (core st (claims w) (log w) (disk w) n k) as Hcore.
  { eapply (core_update (sink w) _ (claims w) _ (log w) (disk w) (disk w) n n k k i slot s' Hc Hi Hset);
      try done.
    + apply Hc. + split; [lia|apply Hc]. + apply Hc.
    + intros Hf. split; [exact Hf|]. rewrite Hs. intros j _ _ [|]; discriminate.
    + apply Hc.
    + intros c Hcc. split; [done|]. intros Heq. by edestruct Hfresh. }
  exists n, k. cbn [sink claims log retired disk]. split_and!; [split| |split].
  - destruct Hcore. constructor; try assumption.
    + rewrite fmap_app, NoDup_app. split_and!; [done| |apply NoDup_singleton].
      intros x (c & -> & Hin)%list_elem_of_fmap Hx. apply list_elem_of_singleton in Hx.
      by eapply Hfresh.
    + intros c Hin. apply elem_of_app in Hin as [Hin|Hin%list_elem_of_singleton]; [auto|].
      subst c. by exists s'.
    + intros Ha _. change (async_open (sink w) = false) in Ha. congruence.
  - eapply retired_update; [exact Hr|by eapply active_insert|lia|done].
  - rewrite <- (app_nil_r (log w)). apply (phase_update (sink w) _ (log w) [] n k i slot s');
      try done. apply Hc.
  - intros Ha Hwp. apply (settled_update (sink w) st i slot s'); try done. by apply Hwk.
  - apply Hwk.
Qed.

Lemma retire_preserves w sequence d state :
  TryRetire sequence (sink w) = (Some d, state) -> world_inv w ->
  world_inv {| sink := state; claims := claims w; log := log w;
               retired := retired w ++ [(sequence, d)]; disk := disk w |}.
Proof.
  intros Htry (n & k & [Hc Hr] & Hp & Hwk). unfold TryRetire in Htry.
  destruct (first_index _ _) as [i|] eqn:Hfirst; [|done].
  apply first_index_Some in Hfirst as (slot & Hi & Hdone & _). unfold completed in Hdone.
  apply andb_true_iff in Hdone as [Hdone H0%Z.eqb_eq].
  rewrite (file_slot_at_lookup _ _ _ Hi) in Htry. revert Htry.
  set (retire_slot := fun slot : FileSlot => slot <| delivery := kRetired |>).
  set (st := on_slot i retire_slot (sink w)). intros [= <- <-].
  set (s' := retire_slot slot).
  assert (slots st = <[i := s']> (slots (sink w))) as Hset by (by apply file_on_slot_slots).
  pose proof (co_slots _ _ _ _ _ _ Hc i slot Hi) as Hok.
  assert (delivery slot = kDelivered \/ delivery slot = kFailed) as Hdel.
  { apply orb_true_iff in Hdone as [H%bool_decide_eq_true|H%bool_decide_eq_true]; auto. }
  assert (active slot) as Hact by (left; destruct Hdel; congruence).
  assert (slot_state slot = kFree) as Hs.
  { unfold slot_ok, pending_ok in Hok. destruct (slot_state slot); [done|..].
    - destruct Hdel; congruence.
    - destruct Hok as (_ & ? & _ & [] & _), Hdel; congruence.
    - destruct Hok as ([] & _), Hdel; congruence. }
  assert (~ active s') as Hna by (unfold active; cbn; rewrite Hs; intuition discriminate).
  assert (slot_state s' <> kWriting /\ slot_state s' <> kQueued) as [Hnw Hnq] by (cbn; by rewrite Hs).
  assert (slot_state slot <> kWriting) as Hnw' by (by rewrite Hs).
  unfold slot_ok in Hok. rewrite Hs in Hok.
  exists n, k. cbn [sink claims log retired disk]. split_and!; [split| |split].
  - eapply (core_update (sink w) _ (claims w) _ (log w) (disk w) (disk w) n n k k i slot s' Hc Hi Hset);
      try done.
    + apply Hc. + split; [lia|apply Hc]. + apply Hc.
    + unfold slot_ok. cbn. by rewrite Hs.
    + apply Hc.
    + intros c Hcc. split; [done|]. intros Heq. exfalso.
      eapply (not_claimed _ _ _ _ _ _ i slot Hc Hi); [by rewrite Hs|done|done].
  - destruct Hr as (Hnd & Hold & Hall). split_and!.
    + rewrite fmap_app, NoDup_app. split_and!; [done| |apply NoDup_singleton].
      intros x Hx Hx'%list_elem_of_singleton. subst x. rewrite <- H0 in Hx. by eapply Hold.
    + intros j sj Hj Hactj. rewrite Hset in Hj.
      apply list_lookup_insert_Some in Hj as [(_ & <- & _)|[Hne Hj]]; [done|].
      rewrite fmap_app, elem_of_app. intros [Hx|Hx%list_elem_of_singleton].
      * by eapply Hold.
      * cbn in Hx. rewrite <- H0 in Hx. by eapply (co_distinct _ _ _ _ _ _ Hc i j).
    + intros seq r Hin. apply elem_of_app in Hin as [Hin|Hin%list_elem_of_singleton].
      { apply Hall in Hin as (j & f & Hj & Hb & Ho). exists j, f. split_and!; done. }
      injection Hin as -> ->. cbn [outcome retired_bytes].
      destruct Hdel as [Hd|Hd]; rewrite Hd in *.
      * destruct Hok as (j & f & [Hj He] & Hlt). exists j, f. rewrite H0 in Hj. done.
      * destruct Hok as (f & [Hj He] & Hf). exists n, f. rewrite H0 in Hj. done.
  - rewrite <- (app_nil_r (log w)). apply (phase_update (sink w) _ (log w) [] n k i slot s');
      try done. apply Hc.
  - intros Ha Hwp. apply (settled_update (sink w) st i slot s'); try done. by apply Hwk.
  - apply Hwk.
Qed.

Lemma stop_flags_inv claims log retired disk state n w :
  pump_inv claims log retired disk state n w ->
  pump_inv claims log retired disk
    (state <| stopping := true |> <| close_requested := true |>) n w.
Proof. intros [[] Hr]. split; [|exact Hr]. constructor; try assumption. done. Qed.

Lemma CancelQueuedLocked_busy state log n w :
  busy state log n w -> busy (CancelQueuedLocked state) log n w.
Proof.
  intros (Hw & (A1 & A2 & A3 & A4 & A5 & t & At & A6 & A7 & f & Af & A8) & (s & Hs & Hst) & Hm).
  simplify_eq. change (slots state !! writing_slot state = Some t) in At.
  assert (slots (CancelQueuedLocked state) !! writing_slot state = Some t) as Ht.
  { apply list_lookup_fmap_Some. exists t. split; [|done].
    unfold CancelSlot. by rewrite decide_False by congruence. }
  split_and!; [done| |by exists t|done].
  split_and!; [done..| |done|].
  - intros j sj Hj Hne Hwr. apply list_lookup_fmap_Some in Hj as (u & -> & Hj).
    eapply A4; [exact Hj|done|]. by apply CancelSlot_facts.
  - exists t. split_and!; [done..|by left|]. by exists f.
Qed.

Lemma file_discard_inv claims log retired disk state n w :
  pump_inv claims log retired disk state n w ->
  pump_inv claims log retired disk (DiscardInFlight state) n w.
Proof.
  intros [Hc Hr].
  assert (forall i s, slots (DiscardInFlight state) !! i = Some s -> exists t,
    s = t <| delivery := kRetired |> /\ slots state !! i = Some t) as Hget.
  { intros i s Hi. apply list_lookup_fmap_Some in Hi as (t & -> & Hi). by exists t. }
  assert (forall t : FileSlot, active (t <| delivery := kRetired |>) -> active t) as Hact.
  { intros t [Hd|Hst]; [done|by right]. }
  split.
  - destruct Hc. constructor; try assumption.
    + unfold zlen in *. cbn. by rewrite length_fmap.
    + intros i s Hi. destruct (Hget i s Hi) as (t & -> & Ht). specialize (co_slots0 i t Ht).
      unfold slot_ok, pending_ok in *. cbn. destruct (slot_state t); [done|done|..].
      * destruct co_slots0 as (? & k & ? & _ & ?). split; [done|]. exists k. auto.
      * destruct co_slots0 as (_ & ?). auto.
    + intros i j si sj Hi Hj Hne Hai Haj.
      destruct (Hget i si Hi) as (ti & -> & Hti). destruct (Hget j sj Hj) as (tj & -> & Htj).
      apply (co_distinct0 i j ti tj); auto.
    + intros k a H1 H2 H3 H4 H5. destruct (co_complete0 k a H1 H2 H3 H4 H5) as (i & t & Hi & Hq).
      exists i, (t <| delivery := kRetired |>). split; [|done].
      apply list_lookup_fmap_Some. by exists t.
    + intros c Hcc. destruct (co_claimed0 c Hcc) as (t & Ht & Hres).
      exists (t <| delivery := kRetired |>). split; [|done].
      apply list_lookup_fmap_Some. by exists t.
  - eapply retired_update; [exact Hr| |lia|done].
    intros i s Hi Ha. destruct (Hget i s Hi) as (t & -> & Ht). exists i, t. auto.
Qed.

Lemma discard_phase state log n w : phase state log n w -> phase (DiscardInFlight state) log n w.
Proof.
  assert (forall but, no_writer state but -> no_writer (DiscardInFlight state) but) as Hno.
  { intros but H i s Hi Hne. apply list_lookup_fmap_Some in Hi as (t & -> & Hi). exact (H i t Hi Hne). }
  intros [(H1 & H2 & H3 & H4)|
    (H1 & (A1 & A2 & A3 & A4 & A5 & t & At & A6 & A7 & f & Af & A8) & (s & Hs & Hst) & Hm)].
  { left. split_and!; auto. }
  simplify_eq. right.
  assert (slots (DiscardInFlight state) !! writing_slot state
          = Some (t <| delivery := kRetired |>)) as Ht.
  { apply list_lookup_fmap_Some. by exists t. }
  split_and!; [done| |by eexists|done].
  split_and!; [done..|by apply Hno|done|].
  exists (t <| delivery := kRetired |>). split_and!; [done..|]. by exists f.
Qed.

Lemma control_preserves w f :
  f ∈ [Stop; RequestClose; DiscardInFlight; DetachWake] -> world_inv w ->
  world_inv {| sink := f (sink w); claims := claims w; log := log w;
               retired := retired w; disk := disk w |}.
Proof.
  intros Hf (n & k & Hi & Hp & Hwk). exists n, k. cbn [sink claims log retired disk].
  repeat rewrite elem_of_cons in Hf. destruct Hf as [->|[->|[->|[->|[]%elem_of_nil]]]].
  - split_and!.
    + apply SendWakeLocked_inv, CancelQueuedLocked_inv; [by right|by apply stop_flags_inv].
    + apply SendWakeLocked_phase. destruct Hp as [Hid|Hb]; [left|right].
      * by apply CancelQueuedLocked_idle.
      * by apply CancelQueuedLocked_busy.
    + apply SendWakeLocked_waking, Hwk.
  - split_and!.
    + apply SendWakeLocked_inv. by apply (pump_inv_same _ _ _ _ (sink w)).
    + apply SendWakeLocked_phase. by apply (phase_same (sink w)).
    + apply SendWakeLocked_waking, Hwk.
  - split_and!; [by apply file_discard_inv|by apply discard_phase|split; [|apply Hwk]].
    intros Ha Hwp H1 H2 H3. destruct (proj1 Hwk Ha Hwp H1 H2 H3) as [? Hno]. split; [done|].
    intros H4 H5 i s Hs. apply list_lookup_fmap_Some in Hs as (t & -> & Hs). exact (Hno H4 H5 i t Hs).
  - split_and!; [by apply (pump_inv_same _ _ _ _ (sink w))|by apply (phase_same (sink w))|exact Hwk].
Qed.

Lemma wake_preserves w uv fuel state :
  UV_EIO uv < 0 -> (forall call, - 2 ^ 31 <= uv_fs_write uv call) ->
  wake_pending (sink w) = true -> OnWake uv fuel (sink w) = Some state -> world_inv w ->
  world_inv {| sink := state; claims := claims w; log := log w; retired := retired w;
               disk := disk w |}.
Proof.
  intros Heio Hwr Hpend Hwake (n & k & Hi & Hp & Hwk).
  edestruct (pump_all uv Heio Hwr (claims w) (log w) (retired w) (disk w) fuel) as [Hpump _].
  destruct (Hpump (sink w <| wake_pending := false |>) n k state) as (n' & k' & Hc & Hr & Hph & Hset & Hl).
  - by apply (pump_inv_same _ _ _ _ (sink w)).
  - by apply (phase_same (sink w)).
  - by apply Hwk.
  - done.
  - exists n', k'. by split_and!.
Qed.

Lemma write_preserves w uv fuel request result accepted state :
  UV_EIO uv < 0 -> (forall call, - 2 ^ 31 <= uv_fs_write uv call) ->
  write_request (sink w) = Some request -> - 2 ^ 31 <= result <= zlen request ->
  (accepted <= length request)%nat -> (0 <= result -> Z.of_nat accepted = result) ->
  OnWriteComplete uv fuel result (sink w) = Some state -> world_inv w ->
  world_inv {| sink := state; claims := claims w; log := log w; retired := retired w;
               disk := disk w ++ take accepted request |}.
Proof.
  intros Heio Hwr Hreq Hres Hacc Heq Hdone (n & k & [Hc Hr] & Hp & Hwk).
  destruct Hp as [(_ & Hnone & _)|(Hw & Happ & (slot & Hs & Hst) & m & Hm & Hpos)]; [congruence|].
  rewrite Hreq in Hm. injection Hm as ->.
  pose proof Happ as (Hfail & Hncl & Hncd & _ & Hlt & _).
  rewrite length_take, length_drop in Hacc. unfold zlen in Hres. rewrite length_take, length_drop in Hres.
  edestruct (pump_all uv Heio Hwr (claims w) (log w) (retired w)
    (disk w ++ take accepted (take m (drop k (frame_at (log w) n)))) fuel) as (_ & _ & Hfinish).
  destruct (Hfinish (sink w <| write_request := None |>) n k (k + accepted)%nat result state)
    as (n' & k' & Hc' & Hr' & Hph & Hset & Hl).
  - split; [|exact Hr]. destruct Hc. constructor; try assumption; [|lia].
    rewrite take_take, co_disk0, file_bytes_more. f_equal. lia.
  - split_and!; [exact Happ|..|done| |]; try lia.
    by rewrite (file_slot_at_lookup _ _ slot).
  - destruct (async_open (sink w)) eqn:Ha; [by left|]. right.
    destruct (co_unstarted _ _ _ _ _ _ Hc Ha Hncd) as [Hlog _]. exfalso.
    unfold frame_at in Hlt. rewrite Hlog, lookup_nil in Hlt. cbn in Hlt. lia.
  - lia.
  - unfold zlen. lia.
  - done.
  - exists n', k'. by split_and!.
Qed.

Lemma closed_preserves w result :
  close_request (sink w) = true -> world_inv w ->
  world_inv {| sink := OnCloseComplete result (sink w); claims := claims w; log := log w;
               retired := retired w; disk := disk w |}.
Proof.
  intros Hreq (n & k & Hi & Hp & Hwk). pose proof Hi as [Hc _].
  destruct (co_closing _ _ _ _ _ _ Hc Hreq) as [Hclosing Hlive].
  destruct Hp as [Hid|(_ & (_ & ? & _) & _)]; [|congruence].
  destruct (FinishCloseLocked_inv (claims w) (log w) (retired w) (disk w)
    (sink w <| close_request := false |>) result n k) as (Hi' & Hid' & Hs' & Hl'); [|done..|].
  - destruct Hi as [[] Hr]. split; [|exact Hr]. constructor; try assumption. done.
  - exists n, k. split_and!; [done|by left|done].
Qed.

Lemma file_bytes_app log ext n k :
  (n <= length log)%nat -> (k <= length (frame_at log n))%nat ->
  file_bytes (log ++ ext) n k = file_bytes log n k
  /\ (k <= length (frame_at (log ++ ext) n))%nat.
Proof.
  intros Hn Hk. unfold file_bytes. rewrite take_app_le by done.
  destruct (decide (n < length log)%nat) as [Hlt|Hge].
  - by rewrite !frame_at_snoc_app.
  - assert (k = 0)%nat as ->; [|split; [done|lia]].
    unfold frame_at in Hk. rewrite lookup_ge_None_2 in Hk by lia. cbn in Hk. lia.
Qed.

Lemma has_frame_grow log ext slot k f :
  has_frame log slot k f -> has_frame (log ++ ext) slot k f.
Proof. intros [H He]. split; [by apply lookup_app_l_Some|done]. Qed.

Lemma slot_ok_grow state state' log ext n j slot :
  failure_error state' = failure_error state ->
  (forall f, (exists k, has_frame log slot k f) ->
     slice (Buffer state' j) (zlen f) (buffers state') = slice (Buffer state j) (zlen f) (buffers state)) ->
  slot_ok state log n j slot -> slot_ok state' (log ++ ext) n j slot.
Proof.
  intros Hf Hbuf. unfold slot_ok, pending_ok. rewrite Hf.
  destruct (slot_state slot); [destruct (delivery slot)|..]; try done.
  - intros (k & f & H & ?). exists k, f. split; [by apply has_frame_grow|done].
  - intros (f & H & ?). exists f. split; [by apply has_frame_grow|done].
  - intros (k & f & H & ?). exists k, f. split; [by apply has_frame_grow|done].
  - intros (? & k & ? & ? & f & H & Hs). split; [done|]. exists k. split_and!; [done..|].
    exists f. split; [by apply has_frame_grow|]. rewrite Hbuf; eauto.
  - intros (? & f & H & Hs). split_and!; [done..|].
    exists f. split; [by apply has_frame_grow|]. rewrite Hbuf; eauto.
Qed.

Lemma active_has_frame state log n i slot :
  slot_ok state log n i slot -> active slot -> exists k f, has_frame log slot k f.
Proof.
  unfold slot_ok, pending_ok, active. destruct (slot_state slot) eqn:Hs.
  - destruct (delivery slot); intros Hok Ha; split_hyps; try done; eauto.
    intuition discriminate.
  - intros -> Ha. intuition discriminate.
  - intros (_ & k & _ & _ & f & H & _). eauto.
  - intros (_ & f & H & _). eauto.
Qed.

(** The world after a frame took the slot [i]. *)
Section Store.
Context (state state' : RawFileSinkState) (claims claims' : list FileSlotIdentity).
Context (log : list (Z * list byte)) (disk : list byte) (n k i : nat) (s s' : FileSlot).
Context (retired : list (Z * DeliveryRetirement)) (sequence : Z) (frame : list byte).
Context (Hc : core state claims log disk n k) (Hr : retired_inv state log n retired).
Context (Hi : slots state !! i = Some s) (Hres : slot_state s = kReserved).
Context (Hs : slots state' = <[i := s']> (slots state)).
Context (Hbb : buffer_bytes state' = buffer_bytes state).
Context (Hlen : zlen (buffers state') = zlen (buffers state)).
Context (Hbuf : forall j m, j <> i -> 0 <= m <= buffer_bytes state ->
  slice (Buffer state' j) m (buffers state') = slice (Buffer state j) m (buffers state)).
Context (Hf : faults state' = faults state) (Hfe : failure_error state' = failure_error state).
Context (Hst : stopping state' = stopping state) (Hcd : closed state' = closed state).
Context (Ha : async_open state' = async_open state).
Context (Hsr : start_reported state' = start_reported state).
Context (Hcr : close_request state' = close_request state) (Hcl : closing state' = closing state).
Context (Hclaim : exists c, c ∈ claims) (Hnd : NoDup (index <$> claims')).
Context (Hrest : forall c, c ∈ claims' -> c ∈ claims /\ index c <> i).
Context (Hseq : Forall (fun entry => entry.1 < sequence) log).
Context (Hframe : 0 < zlen frame <= buffer_bytes state).
Context (Hs' : admission_sequence s' = sequence /\ encoded_bytes s' = zlen frame
  /\ written_bytes s' = 0).
Context (Hhow : slot_state s' = kQueued /\ delivery s' = kInFlight
    /\ slice (Buffer state' i) (zlen frame) (buffers state') = frame
  \/ slot_state s' = kFree /\ delivery s' = kCancelled
    /\ (failure_error state <> 0 \/ stopping state = true \/ async_open state = false)).

Lemma log_below j a : log !! j = Some a -> a.1 < sequence.
Proof. intros H. exact (proj1 (Forall_lookup _ _) Hseq j a H). Qed.

Lemma stored_frame : has_frame (log ++ [(sequence, frame)]) s' (length log) frame.
Proof.
  unfold has_frame. destruct Hs' as (-> & He & _). split; [|done]. by rewrite lookup_app_r, Nat.sub_diag.
Qed.

Lemma other_frame j sj :
  slots state !! j = Some sj -> active sj -> admission_sequence sj < sequence.
Proof.
  intros Hj Hact. destruct (active_has_frame state log n j sj) as (q & f & [Hl _]); [|done|].
  - by apply Hc.
  - by apply (log_below q _ Hl).
Qed.

Lemma store_core :
  core state' claims' (log ++ [(sequence, frame)]) disk n k
  /\ retired_inv state' (log ++ [(sequence, frame)]) n retired.
Proof.
  destruct Hc as [c1 c2 c3 c4 c5 c6 c7 c8 c9 c10 c11 c12 c13 c14 c15 c16].
  pose proof (lookup_lt_Some _ _ _ Hi) as Hilt.
  assert (forall j sj, slots state' !! j = Some sj -> j = i /\ sj = s' \/ j <> i /\ slots state !! j = Some sj)
    as Hget.
  { intros j sj Hj. rewrite Hs in Hj.
    apply list_lookup_insert_Some in Hj as [(<- & <- & _)|[? Hj]]; auto. }
  destruct (file_bytes_app log [(sequence, frame)] n k c2 c3) as [Hfile Hk].
  assert (async_open state = false -> closed state = false -> False) as Hopen.
  { intros H1 H2. destruct (c15 H1 H2) as [_ ->], Hclaim as [c []%elem_of_nil]. }
  split.
  - constructor; unfold live; rewrite ?Hf, ?Hbb, ?Hlen, ?Hfe, ?Hst, ?Hcd, ?Ha, ?Hsr, ?Hcr, ?Hcl;
      try done.
    + by rewrite Hfile.
    + rewrite length_app. lia.
    + rewrite Hs. unfold zlen. by rewrite length_insert.
    + intros j sj Hj. destruct (Hget j sj Hj) as [[-> ->]|[Hne Hj']].
      * destruct Hs' as (_ & _ & Hw0). unfold slot_ok, pending_ok.
        destruct Hhow as [(-> & -> & Hsl)|(-> & -> & _)].
        -- split; [done|]. exists (length log). split; [done|]. split; [by left|].
           exists frame. split; [apply stored_frame|done].
        -- exists (length log), frame. split; [apply stored_frame|done].
      * apply (slot_ok_grow state); [done| |by apply c6].
        intros f [q [Hq _]]. apply Hbuf; [done|]. specialize (c9 q _ Hq). simpl in c9. lia.
    + intros j q sj sq Hj Hq Hne Haj Haq.
      destruct (Hget j sj Hj) as [[-> ->]|[Hjne Hj']], (Hget q sq Hq) as [[-> ->]|[Hqne Hq']].
      * done.
      * pose proof (other_frame q sq Hq' Haq). lia.
      * pose proof (other_frame j sj Hj' Haj). lia.
      * by apply (c7 j q).
    + intros j q a b Hj Hq Hlt. pose proof (lookup_lt_Some _ _ _ Hq) as Hq'.
      rewrite length_app in Hq'. cbn in Hq'. rewrite lookup_app_l in Hj by lia.
      apply lookup_app_Some in Hq as [Hq|[Hge Hq]]; [by eapply c8|].
      apply list_lookup_singleton_Some in Hq as [_ <-]. by apply (log_below j).
    + intros q a [Hq|[_ Hq]]%lookup_app_Some; [by eapply c9|].
      by apply list_lookup_singleton_Some in Hq as [_ <-].
    + intros q a H1 H2 H3 H4 [Hq|[_ Hq]]%lookup_app_Some.
      * destruct (c10 q a H1 H2 H3 H4 Hq) as (j & sj & Hj & Hsq & Hqq). exists j, sj.
        rewrite Hs, list_lookup_insert_ne; [done|].
        intros <-. rewrite Hi in Hj. injection Hj as <-. rewrite Hres in Hqq. by destruct Hqq.
      * apply list_lookup_singleton_Some in Hq as [_ <-]. exists i, s'.
        rewrite Hs, list_lookup_insert_eq by done. destruct Hs' as (-> & _).
        split_and!; [done..|]. destruct Hhow as [(? & _)|(_ & _ & [?|[?|?]])]; [by left|..].
        -- done. -- congruence. -- exfalso. auto.
    + intros c Hcc. destruct (Hrest c Hcc) as [Hin Hne].
      destruct (c12 c Hin) as (t & Ht & ?). exists t. by rewrite Hs, list_lookup_insert_ne.
    + intros H1 H2. exfalso. auto.
  - destruct Hr as (Hrnd & Hract & Hrall). split_and!; [done|..].
    + intros j sj Hj Haj. destruct (Hget j sj Hj) as [[-> ->]|[Hne Hj']]; [|by eapply Hract].
      intros ([q d] & Hq & Hin)%list_elem_of_fmap. cbn in Hq. destruct Hs' as (Hsq & _).
      destruct (Hrall q d Hin) as (p & f & Hp & _). pose proof (log_below _ _ Hp). simpl in *. lia.
    + intros q d Hin. destruct (Hrall q d Hin) as (p & f & Hp & Hb & Ho). exists p, f.
      rewrite Hfe. split_and!; [by apply lookup_app_l_Some|done..].
Qed.
End Store.

Section Sink.
Context (double_text : Z -> list byte).
Context (Hshort : forall bits, zlen (double_text bits) <= 24).

Lemma buffer_region state claims log disk n k i slot :
  core state claims log disk n k -> slots state !! i = Some slot ->
  0 <= Buffer state i /\ Buffer state i + buffer_bytes state <= zlen (buffers state)
  /\ forall j, j <> i -> 0 <= Buffer state j
       /\ (Buffer state j + buffer_bytes state <= Buffer state i
           \/ Buffer state i + buffer_bytes state <= Buffer state j).
Proof.
  intros Hc Hi. pose proof (co_mem _ _ _ _ _ _ Hc) as [Hb ->]. apply lookup_lt_Some in Hi.
  unfold Buffer, zlen. split_and!; [nia|nia|]. intros j Hj. nia.
Qed.

Lemma on_slot_twice state i slot f g :
  slots state !! i = Some slot ->
  on_slot i g (on_slot i f state) = state <| slots := <[i := g (f slot)]> (slots state) |>.
Proof.
  intros Hi. unfold on_slot, modify. cbn [slots]. f_equal.
  rewrite (alter_as_insert f _ _ _ Hi), (alter_as_insert g _ i (f slot)).
  - by rewrite list_insert_insert_eq.
  - by rewrite list_lookup_insert_eq by (by eapply lookup_lt_Some).
Qed.

(** The two ways [StoreRaw] leaves a claimed slot whose line fits. *)
Definition queue_slot (sequence size : Z) (slot : FileSlot) : FileSlot :=
  slot <| admission_sequence := sequence |> <| encoded_bytes := size |> <| written_bytes := 0 |>
       <| slot_state := kQueued |> <| delivery := kInFlight |>.

Definition cancel_slot (sequence size : Z) (slot : FileSlot) : FileSlot :=
  slot <| admission_sequence := sequence |> <| encoded_bytes := size |> <| written_bytes := 0 |>
       <| slot_state := kFree |> <| delivery := kCancelled |>.

Lemma file_StoreRaw_claimed state identity slot sequence view frame :
  slots state !! index identity = Some slot -> slot_state slot = kReserved ->
  generation slot = identity_generation identity ->
  0 <= buffer_bytes state < 2 ^ 32 -> 0 <= Buffer state (index identity) ->
  Buffer state (index identity) + buffer_bytes state <= zlen (buffers state) ->
  line_of double_text view frame ->
  let i := index identity in
  StoreRaw double_text identity sequence view state =
  if zlen frame <=? buffer_bytes state then
    let state' := state <| buffers ::= blit (Buffer state i)
      (frame ++ drop (length frame) (slice (Buffer state i) (buffer_bytes state) (buffers state))) |> in
    ({| stored_encoded_bytes := zlen frame; submitted := true |},
     if stopping state || negb (failure_error state =? 0) || negb (async_open state)
     then state' <| slots := <[i := cancel_slot sequence (zlen frame) slot]> (slots state) |>
     else SendWakeLocked
            (state' <| slots := <[i := queue_slot sequence (zlen frame) slot]> (slots state) |>))
  else (not_stored, on_slot i (fun slot => slot <| slot_state := kFree |>) state).
Proof.
  intros Hi Hs Hg Hbb Ho Hin Hline i. unfold StoreRaw. fold i.
  pose proof (zlen_slice (Buffer state i) (buffer_bytes state) (buffers state) Ho ltac:(lia) Hin) as Hlen.
  destruct (line_encodes double_text Hshort view frame (slice (Buffer state i) (buffer_bytes state) (buffers state)) Hline)
    as [_ ->]; [lia|]. rewrite Hlen.
  destruct (zlen frame <=? buffer_bytes state).
  2: { cbn [complete not_encoded negb]. f_equal.
       match goal with |- context [Reset identity ?st] =>
         rewrite (Reset_claimed st identity slot Hi Hs Hg) end.
       unfold on_slot, modify. cbn. fold i.
       by rewrite (blit_slice_self _ _ _ Ho (proj1 Hbb)). }
  cbn [complete negb RawEncoder.encoded_bytes].
  match goal with |- context [slot_at ?st i] => rewrite (file_slot_at_lookup st i slot Hi) end.
  rewrite Hs, Hg, Z.eqb_refl. cbn [bool_decide_eq_true negb orb].
  rewrite bool_decide_eq_true_2 by done. cbn [negb orb].
  repeat match goal with |- context [on_slot i ?g (on_slot i ?f ?st)] =>
    rewrite (on_slot_twice st i slot f g Hi) end.
  reflexivity.
Qed.

Lemma file_store_preserves w before identity after sequence view frame result state :
  claims w = before ++ identity :: after -> line_of double_text view frame ->
  Forall (fun entry => entry.1 < sequence) (log w) ->
  StoreRaw double_text identity sequence view (sink w) = (result, state) -> world_inv w ->
  world_inv {| sink := state; claims := before ++ after;
               log := if submitted result then log w ++ [(sequence, frame)] else log w;
               retired := retired w; disk := disk w |}.
Proof.
  intros Hcl Hline Hseq Hstore Hw. pose proof Hw as (n & k & [Hc Hr] & Hp & Hwk).
  destruct (NoDup_fmap_split index _ _ _ _ Hcl (co_claims _ _ _ _ _ _ Hc)) as (Hnd & Hin & Hrest).
  destruct (co_claimed _ _ _ _ _ _ Hc _ Hin) as (slot & Hi & Hs & Hg).
  pose proof (co_mem _ _ _ _ _ _ Hc) as [Hbb _].
  destruct (buffer_region _ _ _ _ _ _ _ _ Hc Hi) as (Hb0 & Hb1 & Hb2).
  rewrite (file_StoreRaw_claimed _ _ slot sequence view frame Hi Hs Hg Hbb Hb0 Hb1 Hline) in Hstore.
  set (i := index identity) in *.
  destruct (line_encodes double_text Hshort view frame [] Hline ltac:(done)) as [Hpos _].
  destruct (Z.leb_spec (zlen frame) (buffer_bytes (sink w))) as [Hle|Hgt].
  2: { injection Hstore as <- <-. pose proof (file_release_preserves w before identity after Hcl Hw) as H.
       by rewrite (Reset_claimed _ _ slot Hi Hs Hg) in H. }
  cbv zeta in Hstore.
  set (out := frame ++ drop (length frame) _) in Hstore.
  assert (zlen out = buffer_bytes (sink w)) as Hout.
  { unfold out. pose proof (zlen_slice (Buffer (sink w) i) (buffer_bytes (sink w)) (buffers (sink w))
      Hb0 (proj1 Hbb) Hb1).
    unfold zlen in *. rewrite length_app, length_drop. lia. }
  set (st1 := sink w <| buffers ::= blit (Buffer (sink w) i) out |>) in Hstore.
  assert (zlen (buffers st1) = zlen (buffers (sink w))) as Hlen by (apply zlen_blit; lia).
  assert (forall j m, j <> i -> 0 <= m <= buffer_bytes (sink w) ->
    slice (Buffer st1 j) m (buffers st1) = slice (Buffer (sink w) j) m (buffers (sink w))) as Hother.
  { intros j m Hj Hm. destruct (Hb2 j Hj) as [? ?]. apply slice_blit_other; lia. }
  assert (slice (Buffer st1 i) (zlen frame) (buffers st1) = frame) as Hself.
  { rewrite <- (slice_prefix _ _ (zlen out)) by (exact Hb0 || lia).
    change (take (Z.to_nat (zlen frame))
      (slice (Buffer (sink w) i) (zlen out) (blit (Buffer (sink w) i) out (buffers (sink w)))) = frame).
    rewrite slice_blit_same by lia. unfold out, zlen. rewrite Nat2Z.id. by rewrite take_app_length. }
  assert (slot_state slot <> kWriting) as Hnw by (by rewrite Hs).
  destruct (_ || _) eqn:Hguard; injection Hstore as <- <-; cbn [submitted].
  - set (s' := cancel_slot sequence (zlen frame) slot).
    set (st2 := st1 <| slots := <[i:=s']> (slots (sink w)) |>).
    exists n, k. split_and!.
    + eapply (store_core (sink w) st2 (claims w) (before ++ after) (log w) (disk w) n k i slot s');
        try done; [by exists identity|].
      right. split_and!; [done..|]. rewrite !orb_true_iff in Hguard.
      destruct Hguard as [[?|Hg1]|Hg2]; [by right; left|left|right; right].
      * by apply negb_true_iff, Z.eqb_neq in Hg1.
      * by apply negb_true_iff in Hg2.
    + apply (phase_update (sink w) _ _ _ n k i slot s'); try done. apply Hc.
    + split; [|apply Hwk]. intros Ha Hwp. apply (settled_update (sink w) st2 i slot s'); try done.
      by apply Hwk.
  - set (s' := queue_slot sequence (zlen frame) slot).
    set (st2 := st1 <| slots := <[i:=s']> (slots (sink w)) |>).
    exists n, k. cbn [sink claims log retired disk]. split_and!.
    + apply SendWakeLocked_inv.
      eapply (store_core (sink w) st2 (claims w) (before ++ after) (log w) (disk w) n k i slot s');
        try done; [by exists identity|]. left. split_and!; done.
    + apply SendWakeLocked_phase. apply (phase_update (sink w) _ _ _ n k i slot s'); try done. apply Hc.
    + apply SendWakeLocked_waking. apply Hwk.
Qed.

Lemma file_step_preserves w w' : sink_step double_text w w' -> world_inv w -> world_inv w'.
Proof.
  intros Hstep Hw. destruct Hstep.
  - by apply start_preserves.
  - by apply run_preserves.
  - by apply claim_preserves.
  - by eapply file_store_preserves.
  - by eapply file_release_preserves.
  - by eapply retire_preserves.
  - by apply control_preserves.
  - by eapply wake_preserves.
  - by eapply write_preserves.
  - by apply closed_preserves.
  - destruct Hw as (n & k & Hi & Hp & Hwk). exists n, k.
    split_and!; [by apply (pump_inv_same _ _ _ _ (sink w))|by apply (phase_same (sink w))|exact Hwk].
Qed.

(** Buffers that fit the address space, faults that report errors. *)
Definition config_ok (config : FileSinkConfig) : Prop :=
  let bytes := MaximumRawEncodedBytes (maximum_record_bytes config) in
  0 <= bytes < 2 ^ 32 /\ Z.of_nat (write_buffers config) * bytes < 2 ^ 64
  /\ 0 <= maximum_write_bytes (config_faults config)
  /\ - 2 ^ 31 <= write_error (config_faults config) <= 0.

Lemma file_initial_inv config : config_ok config -> world_inv (initial_world config).
Proof.
  intros (Hb & Hsize & Hm & He).
  assert (forall i slot, replicate (write_buffers config) empty_slot !! i = Some slot -> slot = empty_slot)
    as Hslots by (intros i slot H; by apply lookup_replicate in H as [-> _]).
  exists 0%nat, 0%nat. split_and!; [split| |].
  - constructor; try done.
    + cbn. split; [done|]. unfold zlen. rewrite !length_replicate, w64_small by lia. lia.
    + by intros i slot ->%Hslots.
    + intros i j si sj ->%Hslots _ _ Hact. exfalso. destruct Hact as [?|[?|?]]; done.
    + apply NoDup_nil_2.
    + intros c []%elem_of_nil.
  - split_and!; [apply NoDup_nil_2|by intros i slot _ _ []%elem_of_nil|by intros ? ? []%elem_of_nil].
  - left. split_and!; [done..| |done]. by intros i slot ->%Hslots.
  - by split.
Qed.

Lemma file_reachable_inv config w :
  config_ok config -> rtc (sink_step double_text) (initial_world config) w -> world_inv w.
Proof.
  intros Hc Hrtc. pose proof (file_initial_inv config Hc) as Hi.
  induction Hrtc as [|x y z Hxy _ IH]; [done|]. apply IH. by eapply file_step_preserves.
Qed.

Context (config : FileSinkConfig) (Hconfig : config_ok config).
Context (w : World) (Hreach : rtc (sink_step double_text) (initial_world config) w).

(** C6: whatever the interleaving, the file holds whole frames in admission order
    and at most one partial frame after them: the first [n] submitted frames and the
    first [k] bytes of the next, with no partial frame while the route is healthy and
    no append is active. Nothing is replayed, reordered or interleaved. *)
Theorem file_holds_a_prefix_of_the_frames :
  exists n k, (n <= length (log w))%nat /\ (k <= length (frame_at (log w) n))%nat
    /\ disk w = frames (take n (log w)) ++ take k (frame_at (log w) n)
    /\ (failure_error (sink w) = 0 -> writing (sink w) = false -> k = 0%nat)
    /\ forall i j a b, log w !! i = Some a -> log w !! j = Some b -> (i < j)%nat -> a.1 < b.1.
Proof.
  destruct (file_reachable_inv config w Hconfig Hreach) as (n & k & [Hc _] & Hp & _).
  exists n, k. destruct Hc. split_and!; try done.
  destruct Hp as [(_ & _ & _ & H)|(? & _)]; [auto|congruence].
Qed.

(** C8: an outcome is taken at most once per record and tells the truth about the
    file: a delivered record is there whole, after the frames before it, with the
    size reported; a failed one is the last thing there, possibly cut. *)
Theorem retired_outcomes_match_the_file :
  NoDup (fst <$> retired w)
  /\ forall sequence d, (sequence, d) ∈ retired w -> exists before frame after,
       log w = before ++ (sequence, frame) :: after /\ retired_bytes d = zlen frame
       /\ match outcome d with
          | RouteTypes.kDelivered => frames before ++ frame `prefix_of` disk w
          | RouteTypes.kFailed => failure_error (sink w) <> 0 /\ exists part,
              part `prefix_of` frame /\ disk w = frames before ++ part
          end.
Proof.
  destruct (file_reachable_inv config w Hconfig Hreach) as (n & k & [Hc (Hnd & _ & Hall)] & _).
  split; [done|]. intros sequence d Hin. destruct (Hall sequence d Hin) as (q & f & Hq & Hb & Ho).
  exists (take q (log w)), f, (drop (S q) (log w)).
  split_and!; [by rewrite take_drop_middle|done|]. rewrite (co_disk _ _ _ _ _ _ Hc).
  destruct (outcome d); unfold file_bytes, frames.
  - apply prefix_app_r.
    replace (take n (log w)) with (take (S q) (log w) ++ drop (S q) (take n (log w))).
    + rewrite (take_S_r _ _ _ Hq), !fmap_app, !concat_app. cbn [fmap list_fmap concat snd].
      rewrite app_nil_r, <- !app_assoc. by apply prefix_app, prefix_app_r.
    + replace (take (S q) (log w)) with (take (S q) (take n (log w)))
        by (rewrite take_take; f_equal; lia). apply take_drop.
  - destruct Ho as [-> Hf]. split; [done|]. rewrite (frame_at_lookup _ _ _ Hq). cbn [snd].
    exists (take k f). split; [|done]. exists (drop k f). by rewrite take_drop.
Qed.

(** C30: no wake-up is lost: once the loop has taken its wakes and no append is in
    flight, a usable open sink has written every submitted frame and has no close
    pending. *)
Theorem settled_sink_has_written_everything :
  async_open (sink w) = true -> closing (sink w) = false ->
  failure_error (sink w) = 0 -> stopping (sink w) = false ->
  wake_pending (sink w) = false -> write_request (sink w) = None ->
  disk w = frames (log w) /\ close_requested (sink w) = false.
Proof.
  intros Ha Hcl Hf Hst Hwp Hreq.
  destruct (file_reachable_inv config w Hconfig Hreach) as (n & k & [Hc _] & Hp & [Hset _]).
  destruct Hp as [(Hw & _ & Hno & Hk)|(_ & _ & _ & m & Hm & _)]; [|congruence].
  assert (closed (sink w) = false) as Hcd.
  { destruct (closed (sink w)) eqn:E; [|done]. pose proof (co_close _ _ _ _ _ _ Hc E). congruence. }
  destruct (Hset Ha Hwp Hw Hcl Hcd) as [Hcr Hq]. split; [|done].
  rewrite (co_disk _ _ _ _ _ _ Hc). unfold file_bytes. rewrite (Hk Hf), take_0, app_nil_r. unfold frames.
  pose proof (co_n _ _ _ _ _ _ Hc) as Hn.
  destruct (decide (n < length (log w))%nat) as [Hlt|Hge]; [|by rewrite take_ge by lia].
  destruct (lookup_lt_is_Some_2 _ _ Hlt) as [a Ha'].
  destruct (co_complete _ _ _ _ _ _ Hc n a Hf Hst Hcd (le_n _) Ha') as (i & slot & Hi & _ & [Hsq|Hsw]).
  - exfalso. by eapply Hq.
  - exfalso. by eapply Hno.
Qed.
End Sink.

(** ** A run *)

Definition demo_config : FileSinkConfig :=
  {| write_buffers := 2; maximum_record_bytes := 128;
     config_faults := {| open_error := 0; maximum_write_bytes := 20;
                         failing_write_call := kNoInjectedWriteFailure;
                         write_error := 0; close_error := 0 |} |}.

Definition demo_uv : Uv :=
  {| uv_loop_init := 0; uv_async_init := 0; uv_fs_open := 3; uv_fs_fstat := 0; st_mode := 33188;
     uv_fs_write := fun _ => 0; uv_fs_close := 0; UV_EIO := -5; UV_EISDIR := -21 |}.

Definition demo_claim : FileSlotIdentity := {| index := 0; identity_generation := 1 |}.

(** Open, claim, store, wake, 20 bytes, the other 3 bytes, retire. *)
Definition demo_open : RawFileSinkState := RunLoop demo_uv (StartThread true (MakeRawFileSink demo_config)).
Definition demo_claimed : RawFileSinkState := (TryClaimWrite demo_open).2.
Definition demo_stored : RawFileSinkState :=
  (StoreRaw demo_double demo_claim 0 demo_view demo_claimed).2.
Definition demo_woken : RawFileSinkState := default demo_stored (OnWake demo_uv 8 demo_stored).
Definition demo_partial : RawFileSinkState :=
  default demo_woken (OnWriteComplete demo_uv 8 20 demo_woken).
Definition demo_whole : RawFileSinkState :=
  default demo_partial (OnWriteComplete demo_uv 8 3 demo_partial).
Definition demo_retired : RawFileSinkState := (TryRetire 0 demo_whole).2.

Definition demo_world (state : RawFileSinkState) (bytes : nat)
    (outcomes : list (Z * DeliveryRetirement)) : World :=
  {| sink := state; claims := []; log := [(0, demo_frame)]; retired := outcomes;
     disk := take bytes demo_frame |}.

Lemma file_step_to w w' w'' :
  sink_step demo_double w w' -> w' = w'' -> sink_step demo_double w w''.
Proof. by intros H <-. Qed.

Definition demo_before (state : RawFileSinkState) (held : list FileSlotIdentity) : World :=
  {| sink := state; claims := held; log := []; retired := []; disk := [] |}.

Lemma demo_reach_woken :
  rtc (sink_step demo_double) (initial_world demo_config) (demo_world demo_woken 0 []).
Proof.
  eapply rtc_l; [apply (step_start _ true)|].
  apply (rtc_l _ _ (demo_before demo_open [])).
  { apply (step_run _ demo_uv (demo_before (StartThread true (MakeRawFileSink demo_config)) [])).
    done. }
  apply (rtc_l _ _ (demo_before demo_claimed [demo_claim])).
  { apply (step_claim _ (demo_before demo_open []) demo_claim). by vm_compute. }
  apply (rtc_l _ _ (demo_world demo_stored 0 [])).
  { eapply file_step_to.
    - eapply (step_store _ (demo_before demo_claimed [demo_claim]) [] demo_claim [] 0 demo_view demo_frame
        {| stored_encoded_bytes := 23; submitted := true |} demo_stored);
        [done|exact demo_line|constructor|by vm_compute].
    - by vm_compute. }
  apply rtc_once.
  apply (step_wake _ (demo_world demo_stored 0 []) demo_uv 8 demo_woken);
    [done|done|by vm_compute|by vm_compute].
Qed.

Lemma demo_reach_partial :
  rtc (sink_step demo_double) (initial_world demo_config) (demo_world demo_partial 20 []).
Proof.
  eapply rtc_r; [apply demo_reach_woken|].
  apply (step_write _ (demo_world demo_woken 0 []) demo_uv 8 (take 20 demo_frame) 20 20 demo_partial);
    by_compute.
Qed.

Lemma demo_reach_whole :
  rtc (sink_step demo_double) (initial_world demo_config) (demo_world demo_whole 23 []).
Proof.
  eapply rtc_r; [apply demo_reach_partial|].
  apply (step_write _ (demo_world demo_partial 20 []) demo_uv 8 (drop 20 demo_frame) 3 3 demo_whole);
    by_compute.
Qed.

Definition demo_outcome : DeliveryRetirement :=
  {| outcome := RouteTypes.kDelivered; retired_bytes := 23 |}.

Lemma file_demo_reach_retired :
  rtc (sink_step demo_double) (initial_world demo_config)
    (demo_world demo_retired 23 [(0, demo_outcome)]).
Proof.
  eapply rtc_r; [apply demo_reach_whole|].
  apply (step_retire _ (demo_world demo_whole 23 []) 0 demo_outcome demo_retired). by vm_compute.
Qed.

Lemma file_demo_config_ok : config_ok demo_config.
Proof. by_compute. Qed.

Lemma file_holds_a_prefix_of_the_frames_witness :
  exists n k, (n <= 1)%nat /\ take 20 demo_frame
    = concat (snd <$> take n [(0, demo_frame)]) ++ take k (frame_at [(0, demo_frame)] n).
Proof.
  destruct (file_holds_a_prefix_of_the_frames demo_double ltac:(by_compute) demo_config
    file_demo_config_ok _ demo_reach_partial) as (n & k & Hn & _ & Hd & _).
  exists n, k. by split.
Defined.

Lemma retired_outcomes_match_the_file_witness :
  exists before frame after, [(0, demo_frame)] = before ++ (0, frame) :: after
    /\ 23 = zlen frame /\ concat (snd <$> before) ++ frame `prefix_of` demo_frame.
Proof.
  destruct (retired_outcomes_match_the_file demo_double ltac:(by_compute) demo_config
    file_demo_config_ok _ file_demo_reach_retired) as [_ H].
  destruct (H 0 demo_outcome ltac:(by left)) as (before & frame & after & Hl & Hb & Hd).
  by exists before, frame, after.
Defined.

Lemma settled_sink_has_written_everything_witness :
  let w := demo_world demo_whole 23 [] in
  disk w = frames (log w) /\ close_requested (sink w) = false.
Proof.
  cbv zeta. apply (settled_sink_has_written_everything demo_double ltac:(by_compute) demo_config
    file_demo_config_ok _ demo_reach_whole).
  all: by vm_compute.
Defined.

Lemma pump_terminates_witness :
  settles 8 (fun fuel => OnWake demo_uv fuel demo_stored)
  /\ settles 8 (fun fuel => OnWriteComplete demo_uv fuel 3 demo_stored).
Proof. apply (pump_terminates demo_uv ltac:(done) ltac:(done)); by_compute. Defined.
