(* ===== verification/InMemoryEncodedDestination.v ===== *)
(** * The in-memory Raw destination ([src/testing/in_memory_encoded_destination.cpp])

    Bounded frame slots shared by the Runtime worker, which claims, stores and
    retires, and the application, which takes frames and completes held deliveries.
    The state is the code's [InMemoryEncodedDestinationState]; the handles the
    application holds are values of the system state, so that [dest_step] interleaves
    both sides under the destination's mutex. *)
From S2P Require Import Prelude KernelTypes RecordLayout RecordStorage RawEncoder RouteTypes.
From stdpp Require Import relations strings.
#[local] Open Scope Z_scope.
#[local] Open Scope ulog_scope.

(** ** Slots *)

Inductive EncodedSlotState := kFree | kReserved | kPending | kDelivering | kReady | kHeld.
Inductive EncodedDeliveryState := kRetired | kInFlight | kDelivered | kFailed | kCancelled.

#[export] Instance EncodedSlotState_eq_dec : EqDecision EncodedSlotState.
Proof. solve_decision. Defined.
#[export] Instance EncodedDeliveryState_eq_dec : EqDecision EncodedDeliveryState.
Proof. solve_decision. Defined.

Record EncodedSlotMetadata := {
  slot_state : EncodedSlotState;
  delivery : EncodedDeliveryState;
  generation : Z;
  admission_sequence : Z;
  encoded_bytes : Z;
}.

#[export] Instance EncodedSlotMetadata_eta : Eta EncodedSlotMetadata := fun s =>
  {| slot_state := slot_state s; delivery := delivery s; generation := generation s;
     admission_sequence := admission_sequence s; encoded_bytes := encoded_bytes s |}.

Definition empty_slot : EncodedSlotMetadata :=
  {| slot_state := kFree; delivery := kRetired; generation := 0; admission_sequence := 0;
     encoded_bytes := 0 |}.

Record EncodedDestinationSlotIdentity := { index : nat; identity_generation : Z }.

Record InMemoryEncodedDestinationConfig := {
  capacity_records : Z;
  maximum_record_bytes : Z;
  start_paused : bool;
}.

(** An enumeration value outside the enumerators is [kOtherMode]. *)
Inductive EncodedDeliveryMode := kCompleteInline | kHold | kFailInline | kOtherMode (value : Z).

Definition IsKnownDeliveryMode (mode : EncodedDeliveryMode) : bool :=
  match mode with kCompleteInline | kHold | kFailInline => true | kOtherMode _ => false end.

Inductive EncodedDeliveryCompletionStatus := kCompleted | kInvalidHandle | kDeliveryCancelled.

(** ** Configuration *)

(** [std::invalid_argument] with its message. *)
Definition ThrowInvalidConfiguration (detail correction : string) : string + Z :=
  inl ("Invalid in-memory encoded destination configuration: " +:+ detail +:+ " Set "
       +:+ correction +:+ ".")%string.

(** [sizeof_metadata] is [sizeof(EncodedSlotMetadata)]. *)
Definition ValidateAndGetFixedBackingBytes (sizeof_metadata : Z)
    (config : InMemoryEncodedDestinationConfig) : string + Z :=
  if capacity_records config =? 0
  then ThrowInvalidConfiguration "capacity_records must be greater than zero;"
         "capacity_records to at least 1"
  else
    let kMinimumRecordBytes := 128 in
    if (maximum_record_bytes config <? kMinimumRecordBytes)
       || (kMaximumRecordBytes <? maximum_record_bytes config)
       || negb (maximum_record_bytes config mod kAccountingQuantumBytes =? 0)
    then ThrowInvalidConfiguration
           "maximum_record_bytes must be a 64-byte multiple from 128 through 16384;"
           "maximum_record_bytes to the same supported bound used by Runtime"
    else
      let maximum_encoded_record_bytes := MaximumRawEncodedBytes (maximum_record_bytes config) in
      let maximum_size := size_max in
      if (maximum_encoded_record_bytes =? 0)
         || (maximum_size / maximum_encoded_record_bytes <? capacity_records config)
         || (maximum_size / sizeof_metadata <? capacity_records config)
      then ThrowInvalidConfiguration "the requested fixed backing size overflows size_t;"
             "capacity_records or maximum_record_bytes to a smaller value"
      else
        let frame_backing_bytes := w64 (capacity_records config * maximum_encoded_record_bytes) in
        let metadata_backing_bytes := w64 (capacity_records config * sizeof_metadata) in
        if (maximum_size -w frame_backing_bytes) <? metadata_backing_bytes
        then ThrowInvalidConfiguration "the requested fixed backing size overflows size_t;"
               "capacity_records or maximum_record_bytes to a smaller value"
        else inr (frame_backing_bytes +w metadata_backing_bytes).

(** ** The state *)

Record InMemoryEncodedDestinationState := {
  backing : list byte;
  slots : list EncodedSlotMetadata;
  state_maximum_record_bytes : Z;
  maximum_encoded_record_bytes : Z;
  fixed_backing_bytes : Z;
  (** [wake.notify != nullptr], and the notifications made. *)
  wake : bool;
  notifications : Z;
  delivery_mode : EncodedDeliveryMode;
  runtime_attached : bool;
  paused : bool;
  stopped : bool;
}.

#[export] Instance InMemoryEncodedDestinationState_eta : Eta InMemoryEncodedDestinationState :=
  fun s =>
  {| backing := backing s; slots := slots s;
     state_maximum_record_bytes := state_maximum_record_bytes s;
     maximum_encoded_record_bytes := maximum_encoded_record_bytes s;
     fixed_backing_bytes := fixed_backing_bytes s; wake := wake s;
     notifications := notifications s; delivery_mode := delivery_mode s;
     runtime_attached := runtime_attached s; paused := paused s; stopped := stopped s |}.

Definition MakeState (sizeof_metadata : Z) (config : InMemoryEncodedDestinationConfig)
    : string + InMemoryEncodedDestinationState :=
  match ValidateAndGetFixedBackingBytes sizeof_metadata config with
  | inl message => inl message
  | inr validated_fixed_backing_bytes =>
      let bytes := MaximumRawEncodedBytes (maximum_record_bytes config) in
      inr {| backing := replicate (Z.to_nat (w64 (capacity_records config * bytes))) 0%Z;
             slots := replicate (Z.to_nat (capacity_records config)) empty_slot;
             state_maximum_record_bytes := maximum_record_bytes config;
             maximum_encoded_record_bytes := bytes;
             fixed_backing_bytes := validated_fixed_backing_bytes;
             wake := false; notifications := 0; delivery_mode := kCompleteInline;
             runtime_attached := false; paused := start_paused config; stopped := false |}
  end.

(** The offset of [SlotBacking(slot_index)] in [backing]. *)
Definition SlotBacking (state : InMemoryEncodedDestinationState) (slot_index : nat) : Z :=
  Z.of_nat slot_index * maximum_encoded_record_bytes state.

Definition claimable (slot : EncodedSlotMetadata) : bool :=
  bool_decide (slot_state slot = kFree) && bool_decide (delivery slot = kRetired).

Definition FindClaimableSlot (state : InMemoryEncodedDestinationState) : option nat :=
  first_index claimable (slots state).

Definition FindLowestSequence (wanted : EncodedSlotState) (state : InMemoryEncodedDestinationState)
    : option nat :=
  lowest_index (fun slot => bool_decide (slot_state slot = wanted)) admission_sequence (slots state).

Definition WakeRuntimeLocked (state : InMemoryEncodedDestinationState)
    : InMemoryEncodedDestinationState :=
  if wake state then state <| notifications ::= Z.succ |> else state.

Definition slot_at (state : InMemoryEncodedDestinationState) (index : nat) : EncodedSlotMetadata :=
  default empty_slot (slots state !! index).

Definition on_slot (index : nat) (f : EncodedSlotMetadata -> EncodedSlotMetadata)
    (state : InMemoryEncodedDestinationState) : InMemoryEncodedDestinationState :=
  state <| slots ::= alter f index |>.

(** [identity.index < capacity_records] *)
Definition in_range (state : InMemoryEncodedDestinationState) (index : nat) : bool :=
  (index <? length (slots state))%nat.

(** The slot of [identity] is in [expected_state] and of its generation. *)
Definition slot_matches (state : InMemoryEncodedDestinationState)
    (identity : EncodedDestinationSlotIdentity) (expected_state : EncodedSlotState) : bool :=
  let slot := slot_at state (index identity) in
  bool_decide (slot_state slot = expected_state)
  && (generation slot =? identity_generation identity).

Definition ReleaseSlotHandle (identity : EncodedDestinationSlotIdentity)
    (expected_state : EncodedSlotState) (state : InMemoryEncodedDestinationState)
    : InMemoryEncodedDestinationState :=
  if in_range state (index identity) && slot_matches state identity expected_state
  then WakeRuntimeLocked (on_slot (index identity) (fun slot => slot <| slot_state := kFree |>) state)
  else state.

Definition FindHeldSlot (state : InMemoryEncodedDestinationState)
    (identity : EncodedDestinationSlotIdentity) : option EncodedSlotMetadata :=
  if in_range state (index identity) && slot_matches state identity kHeld
  then Some (slot_at state (index identity)) else None.

(** ** The Runtime worker *)

(** [EncodedDestinationWriteClaim::Reset] *)
Definition Reset (identity : EncodedDestinationSlotIdentity)
    (state : InMemoryEncodedDestinationState) : InMemoryEncodedDestinationState :=
  ReleaseSlotHandle identity kReserved state.

(** The slot of a stored frame: [admission_sequence], [encoded_bytes], then the
    cancellation or the delivery mode. *)
Definition SubmitSlot (sequence size : Z) (is_stopped : bool) (mode : EncodedDeliveryMode)
    (slot : EncodedSlotMetadata) : EncodedSlotMetadata :=
  let slot := slot <| admission_sequence := sequence |> <| encoded_bytes := size |> in
  if is_stopped then slot <| slot_state := kFree |> <| delivery := kCancelled |>
  else
    match mode with
    | kCompleteInline => slot <| slot_state := kReady |> <| delivery := kDelivered |>
    | kHold => slot <| slot_state := kPending |> <| delivery := kInFlight |>
    | kFailInline => slot <| slot_state := kFree |> <| delivery := kFailed |>
    | kOtherMode _ => slot
    end.

Definition StoreRaw (double_text : Z -> list byte) (identity : EncodedDestinationSlotIdentity)
    (sequence : Z) (record : RecordView) (state : InMemoryEncodedDestinationState)
    : StoreResult * InMemoryEncodedDestinationState :=
  if negb (in_range state (index identity)) then (not_stored, state)
  else
    let base := SlotBacking state (index identity) in
    let '(encoded, output) :=
      EncodeRawRecord double_text record
        (slice base (maximum_encoded_record_bytes state) (backing state)) in
    let state := state <| backing ::= blit base output |> in
    if negb (complete encoded) then (not_stored, Reset identity state)
    else if slot_matches state identity kReserved
    then
      ({| stored_encoded_bytes := RawEncoder.encoded_bytes encoded; submitted := true |},
       on_slot (index identity)
         (SubmitSlot sequence (RawEncoder.encoded_bytes encoded) (stopped state)
            (delivery_mode state)) state)
    else (not_stored, Reset identity state).

Definition TryAttachRuntime (notify : bool) (state : InMemoryEncodedDestinationState)
    : bool * InMemoryEncodedDestinationState :=
  if stopped state || runtime_attached state then (false, state)
  else (true, state <| runtime_attached := true |> <| wake := notify |>).

Definition DetachRuntime (state : InMemoryEncodedDestinationState)
    : InMemoryEncodedDestinationState :=
  state <| runtime_attached := false |> <| wake := false |>.

Definition TryClaimWrite (state : InMemoryEncodedDestinationState)
    : option EncodedDestinationSlotIdentity * InMemoryEncodedDestinationState :=
  if stopped state || paused state then (None, state)
  else
    match FindClaimableSlot state with
    | None => (None, state)
    | Some slot_index =>
        let state := on_slot slot_index (fun slot =>
          slot <| generation ::= NextGeneration |> <| slot_state := kReserved |>) state in
        (Some {| index := slot_index; identity_generation := generation (slot_at state slot_index) |},
         state)
    end.

Definition completed (sequence : Z) (slot : EncodedSlotMetadata) : bool :=
  (bool_decide (delivery slot = kDelivered) || bool_decide (delivery slot = kFailed))
  && (admission_sequence slot =? sequence).

Definition TryRetire (sequence : Z) (state : InMemoryEncodedDestinationState)
    : option DeliveryRetirement * InMemoryEncodedDestinationState :=
  match first_index (completed sequence) (slots state) with
  | None => (None, state)
  | Some i =>
      let slot := slot_at state i in
      (Some {| outcome := if decide (delivery slot = kDelivered)
                          then RouteTypes.kDelivered else RouteTypes.kFailed;
               retired_bytes := encoded_bytes slot |},
       on_slot i (fun slot => slot <| delivery := kRetired |>) state)
  end.

(** One iteration of the loop of [SummarizeInFlight]. *)
Definition SummarizeSlot (watermark : Z) (summary : InFlightSummary) (slot : EncodedSlotMetadata)
    : InFlightSummary :=
  if bool_decide (delivery slot = kRetired) || (watermark <=? admission_sequence slot)
  then summary
  else
    let summary := summary <| records ::= fun n => n +w 1 |>
                     <| bytes ::= fun n => n +w encoded_bytes slot |> in
    if decide (delivery slot = kDelivered)
    then summary <| delivered_records ::= fun n => n +w 1 |>
           <| delivered_bytes ::= fun n => n +w encoded_bytes slot |>
    else if decide (delivery slot = kFailed)
    then summary <| failed_records ::= fun n => n +w 1 |>
           <| failed_bytes ::= fun n => n +w encoded_bytes slot |>
    else summary.

Definition SummarizeInFlight (watermark : Z) (state : InMemoryEncodedDestinationState)
    : InFlightSummary :=
  fold_left (SummarizeSlot watermark) (slots state) empty_summary.

Definition StopSlot (slot : EncodedSlotMetadata) : EncodedSlotMetadata :=
  if decide (slot_state slot = kPending \/ slot_state slot = kDelivering)
  then slot <| slot_state := kFree |> <| delivery := kCancelled |> else slot.

Definition Stop (state : InMemoryEncodedDestinationState) : InMemoryEncodedDestinationState :=
  state <| stopped := true |> <| slots ::= fmap StopSlot |>.

Definition DiscardInFlight (state : InMemoryEncodedDestinationState)
    : InMemoryEncodedDestinationState :=
  state <| slots ::= fmap (fun slot => slot <| delivery := kRetired |>) |>.

#[export] Instance InMemoryEncodedDestination_route (double_text : Z -> list byte)
    : RawRoute InMemoryEncodedDestinationState EncodedDestinationSlotIdentity := {|
  RouteTypes.TryClaimWrite := TryClaimWrite;
  RouteTypes.StoreRaw := StoreRaw double_text;
  RouteTypes.ReleaseClaim := Reset;
  RouteTypes.TryRetire := TryRetire;
  RouteTypes.SummarizeInFlight := SummarizeInFlight;
  RouteTypes.Stop := Stop;
  RouteTypes.DiscardInFlight := DiscardInFlight;
|}.

(** ** The application *)

(** A held delivery: its slot, its sequence, and the view of its frame as an offset
    and a size in [backing]. *)
Record PendingEncodedDelivery := {
  pending_identity : EncodedDestinationSlotIdentity;
  pending_sequence : Z;
  pending_offset : Z;
  pending_size : Z;
}.

(** [PendingEncodedDelivery::Bytes] *)
Definition PendingBytes (delivery : PendingEncodedDelivery)
    (state : InMemoryEncodedDestinationState) : list byte :=
  slice (pending_offset delivery) (pending_size delivery) (backing state).

(** [PendingEncodedDelivery::Finish]; a moved-from handle is [None]. *)
Definition Finish (handle : option PendingEncodedDelivery) (delivered : bool)
    (state : InMemoryEncodedDestinationState)
    : EncodedDeliveryCompletionStatus * InMemoryEncodedDestinationState :=
  match handle with
  | None => (kInvalidHandle, state)
  | Some pending =>
      let identity := pending_identity pending in
      if negb (in_range state (index identity)) then (kDeliveryCancelled, state)
      else if negb (slot_matches state identity kDelivering) then (kDeliveryCancelled, state)
      else
        let state := on_slot (index identity) (fun slot =>
          if delivered then slot <| slot_state := kReady |> <| delivery := kDelivered |>
          else slot <| slot_state := kFree |> <| delivery := kFailed |>) state in
        (kCompleted, WakeRuntimeLocked state)
  end.

(** [ObservedEncodedRecord]: its identity. *)
Definition ResetObserved (identity : EncodedDestinationSlotIdentity)
    (state : InMemoryEncodedDestinationState) : InMemoryEncodedDestinationState :=
  ReleaseSlotHandle identity kHeld state.

Definition AdmissionSequence (identity : EncodedDestinationSlotIdentity)
    (state : InMemoryEncodedDestinationState) : Z :=
  match FindHeldSlot state identity with Some slot => admission_sequence slot | None => 0 end.

Definition Bytes (identity : EncodedDestinationSlotIdentity)
    (state : InMemoryEncodedDestinationState) : list byte :=
  match FindHeldSlot state identity with
  | Some slot => slice (SlotBacking state (index identity)) (encoded_bytes slot) (backing state)
  | None => []
  end.

Definition TryTake (state : InMemoryEncodedDestinationState)
    : option EncodedDestinationSlotIdentity * InMemoryEncodedDestinationState :=
  match FindLowestSequence kReady state with
  | None => (None, state)
  | Some selected =>
      let state := on_slot selected (fun slot => slot <| slot_state := kHeld |>) state in
      (Some {| index := selected; identity_generation := generation (slot_at state selected) |}, state)
  end.

Definition TryTakePendingDelivery (state : InMemoryEncodedDestinationState)
    : option PendingEncodedDelivery * InMemoryEncodedDestinationState :=
  match FindLowestSequence kPending state with
  | None => (None, state)
  | Some selected =>
      let state := on_slot selected (fun slot => slot <| slot_state := kDelivering |>) state in
      let slot := slot_at state selected in
      (Some {| pending_identity := {| index := selected; identity_generation := generation slot |};
               pending_sequence := admission_sequence slot;
               pending_offset := SlotBacking state selected;
               pending_size := encoded_bytes slot |}, state)
  end.

Definition SetDeliveryMode (mode : EncodedDeliveryMode) (state : InMemoryEncodedDestinationState)
    : InMemoryEncodedDestinationState :=
  if negb (IsKnownDeliveryMode mode) then state else state <| delivery_mode := mode |>.

Definition Resume (state : InMemoryEncodedDestinationState) : InMemoryEncodedDestinationState :=
  WakeRuntimeLocked (state <| paused := false |>).

Definition Capacity (state : InMemoryEncodedDestinationState) : Z := zlen (slots state).

Definition MaximumRecordBytes (state : InMemoryEncodedDestinationState) : Z :=
  state_maximum_record_bytes state.

Definition MaximumEncodedRecordBytes (state : InMemoryEncodedDestinationState) : Z :=
  maximum_encoded_record_bytes state.

(** ** The worker and the application *)

Record World := {
  dest : InMemoryEncodedDestinationState;
  claims : list EncodedDestinationSlotIdentity;
  pendings : list PendingEncodedDelivery;
  observed : list EncodedDestinationSlotIdentity;
  log : list (Z * list byte);
  taken : list Z;
  retired : list (Z * DeliveryRetirement);
}.

#[export] Instance World_eta : Eta World := fun w =>
  {| dest := dest w; claims := claims w; pendings := pendings w; observed := observed w;
     log := log w; taken := taken w; retired := retired w |}.

Definition initial_world (state : InMemoryEncodedDestinationState) : World :=
  {| dest := state; claims := []; pendings := []; observed := []; log := []; taken := [];
     retired := [] |}.

(** [log] lists the submitted frames, [taken] the sequences the application took,
    [retired] the outcomes the worker took. A destroyed pending handle fails. *)
Inductive dest_step (double_text : Z -> list byte) : World -> World -> Prop :=
  | step_attach w notify b state :
      TryAttachRuntime notify (dest w) = (b, state) ->
      dest_step double_text w (w <| dest := state |>)
  | step_plain w f :
      f ∈ [DetachRuntime; Stop; DiscardInFlight; Resume]
      \/ (exists mode, f = SetDeliveryMode mode) ->
      dest_step double_text w (w <| dest ::= f |>)
  | step_claim w identity state :
      TryClaimWrite (dest w) = (Some identity, state) ->
      dest_step double_text w (w <| dest := state |> <| claims ::= cons identity |>)
  | step_store w before identity after sequence view frame result state :
      claims w = before ++ identity :: after ->
      line_of double_text view frame ->
      Forall (fun entry => entry.1 < sequence) (log w) ->
      StoreRaw double_text identity sequence view (dest w) = (result, state) ->
      dest_step double_text w
        (w <| dest := state |> <| claims := before ++ after |>
           <| log := if submitted result then log w ++ [(sequence, frame)] else log w |>)
  | step_release w before identity after :
      claims w = before ++ identity :: after ->
      dest_step double_text w (w <| dest ::= Reset identity |> <| claims := before ++ after |>)
  | step_retire w sequence d state :
      TryRetire sequence (dest w) = (Some d, state) ->
      dest_step double_text w
        (w <| dest := state |> <| retired := retired w ++ [(sequence, d)] |>)
  | step_take_pending w pending state :
      TryTakePendingDelivery (dest w) = (Some pending, state) ->
      dest_step double_text w (w <| dest := state |> <| pendings ::= cons pending |>)
  | step_finish w before pending after delivered status state :
      pendings w = before ++ pending :: after ->
      Finish (Some pending) delivered (dest w) = (status, state) ->
      dest_step double_text w (w <| dest := state |> <| pendings := before ++ after |>)
  | step_take w identity state :
      TryTake (dest w) = (Some identity, state) ->
      dest_step double_text w
        (w <| dest := state |> <| observed ::= cons identity |>
           <| taken := taken w ++ [AdmissionSequence identity state] |>)
  | step_drop w before identity after :
      observed w = before ++ identity :: after ->
      dest_step double_text w
        (w <| dest ::= ResetObserved identity |> <| observed := before ++ after |>).

(** ** The invariant *)

Definition storing (slot : EncodedSlotMetadata) : Prop :=
  match slot_state slot with kPending | kDelivering | kReady | kHeld => True | _ => False end.

Definition undecided (slot : EncodedSlotMetadata) : Prop :=
  slot_state slot = kPending \/ slot_state slot = kDelivering.

Definition active (slot : EncodedSlotMetadata) : Prop := delivery slot <> kRetired \/ storing slot.

Definition has_frame (log : list (Z * list byte)) (slot : EncodedSlotMetadata) (f : list byte)
    : Prop :=
  (admission_sequence slot, f) ∈ log /\ encoded_bytes slot = zlen f.

(** The frame is in the slot's backing. *)
Definition shown (state : InMemoryEncodedDestinationState) (log : list (Z * list byte)) (i : nat)
    (slot : EncodedSlotMetadata) : Prop :=
  exists f, has_frame log slot f /\ slice (SlotBacking state i) (zlen f) (backing state) = f.

(** The deliveries each slot state allows. *)
Definition delivery_ok (slot : EncodedSlotMetadata) : Prop :=
  match slot_state slot with
  | kFree => delivery slot <> kInFlight
  | kReserved => delivery slot = kRetired
  | kPending | kDelivering => delivery slot = kInFlight \/ delivery slot = kRetired
  | kReady | kHeld => delivery slot = kDelivered \/ delivery slot = kRetired
  end.

(** Taken are the held records and the delivered ones whose slot is free. *)
Definition taken_ok (taken : list Z) (slot : EncodedSlotMetadata) : Prop :=
  active slot ->
  (admission_sequence slot ∈ taken <->
   slot_state slot = kHeld \/ slot_state slot = kFree /\ delivery slot = kDelivered).

Record slot_ok (state : InMemoryEncodedDestinationState) (log : list (Z * list byte))
    (taken retired : list Z) (i : nat) (slot : EncodedSlotMetadata) : Prop := {
  so_delivery : delivery_ok slot;
  so_frame : active slot -> exists f, has_frame log slot f;
  so_shown : storing slot -> shown state log i slot;
  so_taken : taken_ok taken slot;
  so_retired : delivery slot <> kRetired \/ undecided slot -> admission_sequence slot ∉ retired;
}.

Definition handles (w : World) : list nat :=
  (index <$> claims w) ++ (index ∘ pending_identity <$> pendings w) ++ (index <$> observed w).

Definition held_in (state : InMemoryEncodedDestinationState)
    (wanted : EncodedSlotState) (c : EncodedDestinationSlotIdentity) : Prop :=
  exists slot, slots state !! index c = Some slot /\ slot_state slot = wanted
    /\ generation slot = identity_generation c.

(** A held delivery is undecided, or was cancelled by [Stop]. *)
Definition pending_ok (state : InMemoryEncodedDestinationState) (log : list (Z * list byte))
    (p : PendingEncodedDelivery) : Prop :=
  exists slot f, slots state !! index (pending_identity p) = Some slot
    /\ (slot_state slot = kDelivering
          /\ generation slot = identity_generation (pending_identity p)
          /\ admission_sequence slot = pending_sequence p
        \/ slot_state slot = kFree /\ stopped state = true)
    /\ (pending_sequence p, f) ∈ log
    /\ pending_offset p = SlotBacking state (index (pending_identity p))
    /\ pending_size p = zlen f
    /\ slice (pending_offset p) (pending_size p) (backing state) = f.

Definition retired_ok (state : InMemoryEncodedDestinationState) (log : list (Z * list byte))
    (taken : list Z) (entry : Z * DeliveryRetirement) : Prop :=
  (exists f, (entry.1, f) ∈ log /\ retired_bytes entry.2 = zlen f)
  /\ match outcome entry.2 with
     | RouteTypes.kDelivered =>
         entry.1 ∈ taken \/ exists i slot, slots state !! i = Some slot
           /\ slot_state slot = kReady /\ admission_sequence slot = entry.1
     | RouteTypes.kFailed =>
         (entry.1 ∉ taken) /\ forall i slot, slots state !! i = Some slot -> storing slot ->
           admission_sequence slot <> entry.1
     end.

Record inv (w : World) : Prop := {
  i_mem : 0 <= maximum_encoded_record_bytes (dest w) < 2 ^ 64
    /\ zlen (backing (dest w)) = zlen (slots (dest w)) * maximum_encoded_record_bytes (dest w);
  i_log : NoDup (log w).*1;
  i_frames : forall entry, entry ∈ log w -> zlen entry.2 <= maximum_encoded_record_bytes (dest w);
  i_slots : forall i slot, slots (dest w) !! i = Some slot ->
    slot_ok (dest w) (log w) (taken w) (retired w).*1 i slot;
  i_distinct : forall i j si sj, slots (dest w) !! i = Some si -> slots (dest w) !! j = Some sj ->
    i <> j -> active si -> active sj -> admission_sequence si <> admission_sequence sj;
  i_handles : NoDup (handles w);
  i_claims : forall c, c ∈ claims w -> held_in (dest w) kReserved c;
  i_pendings : forall p, p ∈ pendings w -> pending_ok (dest w) (log w) p;
  i_observed : forall c, c ∈ observed w -> held_in (dest w) kHeld c;
  i_taken : NoDup (taken w) /\ forall q, q ∈ taken w -> q ∈ (log w).*1;
  i_retired : NoDup (retired w).*1
    /\ forall entry, entry ∈ retired w -> retired_ok (dest w) (log w) (taken w) entry;
  i_mode : IsKnownDeliveryMode (delivery_mode (dest w)) = true;
}.

(** ** Lemmas: one slot changes *)

Lemma dest_slot_at_lookup state i slot : slots state !! i = Some slot -> slot_at state i = slot.
Proof. unfold slot_at. by intros ->. Qed.

Lemma dest_on_slot_slots state i slot f :
  slots state !! i = Some slot -> slots (on_slot i f state) = <[i := f slot]> (slots state).
Proof. intros H. apply (alter_as_insert f _ _ _ H). Qed.

Lemma storing_active slot : storing slot -> active slot.
Proof. by right. Qed.

Lemma has_frame_size log slot f :
  has_frame log slot f -> forall g, has_frame log slot g -> zlen g = zlen f.
Proof. intros [_ H] g [_ H']. lia. Qed.

(** The worlds [w] and [w'] differ in the slot [i], in the handles on it, and in the
    histories by its sequence. *)
Section Update.
Context (w w' : World) (i : nat) (s s' : EncodedSlotMetadata).
Context (Hi : slots (dest w) !! i = Some s).
Context (Hs : slots (dest w') = <[i := s']> (slots (dest w))).
Context (Hback : backing (dest w') = backing (dest w)).
Context (Hbytes : maximum_encoded_record_bytes (dest w') = maximum_encoded_record_bytes (dest w)).
Context (Hstop : stopped (dest w') = stopped (dest w)).
Context (Hmode : delivery_mode (dest w') = delivery_mode (dest w)).
Context (Hlog : log w' = log w).
Context (Hslot : slot_ok (dest w') (log w) (taken w') (retired w').*1 i s').
Context (Hact : active s' -> active s /\ admission_sequence s' = admission_sequence s).
Context (Htaken : NoDup (taken w') /\ forall q, q ∈ taken w' <->
  q ∈ taken w \/ (q = admission_sequence s /\ active s /\ q ∈ taken w')).
Context (Hretired : NoDup (retired w').*1 /\ forall e, e ∈ retired w' <->
  e ∈ retired w \/ (e.1 = admission_sequence s /\ active s /\ e ∈ retired w')).
Context (Hnew : forall e, e ∈ retired w' -> e.1 = admission_sequence s -> active s ->
  retired_ok (dest w') (log w) (taken w') e).
Context (Hhandles : NoDup (handles w')).
Context (Hclaims : forall c, c ∈ claims w' ->
  c ∈ claims w /\ index c <> i \/ held_in (dest w') kReserved c).
Context (Hpendings : forall p, p ∈ pendings w' ->
  p ∈ pendings w /\ index (pending_identity p) <> i \/ pending_ok (dest w') (log w) p).
Context (Hobserved : forall c, c ∈ observed w' ->
  c ∈ observed w /\ index c <> i \/ held_in (dest w') kHeld c).

Lemma update_lookup j x :
  slots (dest w') !! j = Some x -> j = i /\ x = s' \/ j <> i /\ slots (dest w) !! j = Some x.
Proof.
  rewrite Hs. intros H. apply list_lookup_insert_Some in H as [(<- & <- & _)|[? H]]; auto.
Qed.

Lemma update_other j x : j <> i -> slots (dest w) !! j = Some x -> slots (dest w') !! j = Some x.
Proof. intros Hne H. by rewrite Hs, list_lookup_insert_ne. Qed.

Lemma update_active j x :
  slots (dest w') !! j = Some x -> active x -> exists z,
    slots (dest w) !! j = Some z /\ active z /\ admission_sequence x = admission_sequence z.
Proof.
  intros Hj Hx. destruct (update_lookup j x Hj) as [[-> ->]|[Hne Hj']]; [|by eauto].
  destruct (Hact Hx). eauto.
Qed.

Lemma taken_other q : q <> admission_sequence s \/ ~ active s -> q ∈ taken w' <-> q ∈ taken w.
Proof. destruct Htaken as [_ H]. rewrite H. intuition. Qed.

Lemma retired_other q : q <> admission_sequence s -> q ∈ (retired w').*1 <-> q ∈ (retired w).*1.
Proof.
  intros Hne. rewrite !list_elem_of_fmap. destruct Hretired as [_ H].
  split; intros (e & -> & He); exists e; (split; [done|]).
  - apply H in He as [?|(? & _)]; done.
  - apply H. by left.
Qed.

Lemma update_held wanted c : index c <> i -> held_in (dest w) wanted c -> held_in (dest w') wanted c.
Proof. intros Hne (x & Hx & ?). exists x. split; [by apply update_other|done]. Qed.

Lemma update_slot_ok j x :
  inv w -> j <> i -> slots (dest w) !! j = Some x ->
  slot_ok (dest w) (log w) (taken w) (retired w).*1 j x ->
  slot_ok (dest w') (log w) (taken w') (retired w').*1 j x.
Proof.
  intros Hinv Hne Hj [so1 so2 so3 so4 so5].
  assert (active x -> admission_sequence x <> admission_sequence s \/ ~ active s) as Hsep.
  { intros Hx. destruct (decide (admission_sequence x = admission_sequence s)) as [He|]; [right|by left].
    intros Ha. by apply (i_distinct _ Hinv j i x s). }
  constructor; try done.
  - unfold shown, SlotBacking. by rewrite Hback, Hbytes.
  - intros Ha. rewrite taken_other by auto. by apply so4.
  - intros Hu Hin. specialize (so5 Hu).
    assert (active x) as Ha.
    { destruct Hu as [?|Hu]; [by left|right]. unfold storing. destruct Hu as [Hst|Hst]; by rewrite Hst. }
    apply so5. apply list_elem_of_fmap in Hin as (e & He & Hin). apply list_elem_of_fmap.
    exists e. split; [done|]. destruct Hretired as [_ H]. apply H in Hin as [?|(? & ? & _)]; [done|].
    destruct (Hsep Ha); congruence.
Qed.

Lemma update_pending p :
  inv w -> p ∈ pendings w -> index (pending_identity p) <> i ->
  pending_ok (dest w') (log w) p.
Proof.
  intros Hinv Hp Hne. destruct (i_pendings _ Hinv p Hp) as (x & f & Hx & Hst & Hlg & Ho & Hz & Hsl).
  exists x, f. unfold SlotBacking in *. rewrite Hback, Hbytes, Hstop.
  split_and!; [by apply update_other|done..].
Qed.

Lemma update_retired e :
  inv w -> e ∈ retired w -> (slot_state s = kReady -> slot_state s' = kReady \/ admission_sequence s ∈ taken w') ->
  (storing s' -> storing s) ->
  (forall q, q = admission_sequence s -> active s -> q ∈ taken w' -> q ∉ taken w -> storing s) ->
  retired_ok (dest w') (log w) (taken w') e.
Proof.
  intros Hinv He Hready Hkeep Hgrow. destruct (i_retired _ Hinv) as [_ Hall].
  destruct (Hall e He) as [Hf Ho]. split; [done|]. destruct (outcome e.2).
  - destruct Ho as [Ht|(j & x & Hj & Hst & Hq)].
    + left. destruct Htaken as [_ ->]. by left.
    + destruct (decide (j = i)) as [->|Hne].
      * simplify_eq. destruct (Hready Hst) as [Hr|Ht]; [|left; by rewrite <- Hq].
        right. exists i, s'. split_and!; [|done|].
        -- rewrite Hs, list_lookup_insert_eq; [done|by eapply lookup_lt_Some].
        -- rewrite <- Hq. apply Hact. right. unfold storing. by rewrite Hr.
      * right. exists j, x. split_and!; [by apply update_other|done..].
  - destruct Ho as [Hnt Hno]. split.
    + destruct Htaken as [_ H]. intros [?|(Hq & Ha & Hin)]%H; [done|].
      apply (Hno i s Hi); [|done]. by eapply Hgrow.
    + intros j x Hj Hst. destruct (update_lookup j x Hj) as [[-> ->]|[Hne Hj']]; [|by eapply Hno].
      destruct (Hact (storing_active _ Hst)) as [Ha ->]. apply (Hno i s Hi). by apply Hkeep.
Qed.

Lemma update_inv :
  inv w -> (slot_state s = kReady -> slot_state s' = kReady \/ admission_sequence s ∈ taken w') ->
  (storing s' -> storing s) ->
  (forall q, q = admission_sequence s -> active s -> q ∈ taken w' -> q ∉ taken w -> storing s) ->
  inv w'.
Proof.
  intros Hinv Hready Hkeep Hgrow. constructor; rewrite ?Hlog, ?Hbytes, ?Hback, ?Hmode.
  - unfold zlen. rewrite Hs, length_insert. apply Hinv.
  - apply Hinv.
  - apply Hinv.
  - intros j x Hj. destruct (update_lookup j x Hj) as [[-> ->]|[Hne Hj']]; [done|].
    apply update_slot_ok; try done. by apply Hinv.
  - intros j k x y Hj Hk Hne Hx Hy.
    destruct (update_lookup j x Hj) as [[-> ->]|[Hnj Hj']], (update_lookup k y Hk) as [[-> ->]|[Hnk Hk']].
    + done.
    + destruct (Hact Hx) as [? ->]. by apply (i_distinct _ Hinv i k).
    + destruct (Hact Hy) as [? ->]. by apply (i_distinct _ Hinv j i).
    + by apply (i_distinct _ Hinv j k).
  - done.
  - intros c Hc. destruct (Hclaims c Hc) as [[Hin Hne]|?]; [|done].
    apply update_held; [done|]. by apply Hinv.
  - intros p Hp. destruct (Hpendings p Hp) as [[Hin Hne]|?]; [|done]. by apply update_pending.
  - intros c Hc. destruct (Hobserved c Hc) as [[Hin Hne]|?]; [|done].
    apply update_held; [done|]. by apply Hinv.
  - split; [apply Htaken|]. intros q Hq. apply Htaken in Hq as [Hq|(-> & Ha & Hq)].
    + by apply (i_taken _ Hinv).
    + destruct (so_frame _ _ _ _ _ _ (i_slots _ Hinv i s Hi) Ha) as (f & Hf & _).
      apply list_elem_of_fmap. by exists (admission_sequence s, f).
  - split; [apply Hretired|]. intros e He. apply Hretired in He as [He|(Hq & Ha & He)].
    + by apply update_retired.
    + by apply Hnew.
  - apply Hinv.
Qed.
End Update.

(** The destination changed in its flags and counters only. *)
Lemma flags_inv w w' :
  slots (dest w') = slots (dest w) -> backing (dest w') = backing (dest w) ->
  maximum_encoded_record_bytes (dest w') = maximum_encoded_record_bytes (dest w) ->
  (stopped (dest w) = true -> stopped (dest w') = true) ->
  IsKnownDeliveryMode (delivery_mode (dest w')) = true ->
  claims w' = claims w -> pendings w' = pendings w -> observed w' = observed w ->
  log w' = log w -> taken w' = taken w -> retired w' = retired w -> inv w -> inv w'.
Proof.
  intros Hs Hb Hbb Hst Hm H1 H2 H3 H4 H5 H6 [].
  assert (forall i slot, slot_ok (dest w) (log w) (taken w) (retired w).*1 i slot ->
    slot_ok (dest w') (log w) (taken w) (retired w).*1 i slot) as Hok.
  { intros i slot [so1 so2 so3 so4 so5]. constructor; try done. unfold shown, SlotBacking.
    by rewrite Hb, Hbb. }
  constructor; unfold handles, held_in; rewrite ?H1, ?H2, ?H3, ?H4, ?H5, ?H6, ?Hs, ?Hb, ?Hbb;
    try done; auto.
  - intros p Hp. destruct (i_pendings0 p Hp) as (x & f & Hx & Hor & ? & ? & ? & ?). exists x, f.
    unfold SlotBacking in *. rewrite Hs, Hb, Hbb. split_and!; try done.
    destruct Hor as [?|[? ?]]; auto.
  - split; [apply i_retired0|]. intros e He. destruct i_retired0 as [_ Hall].
    specialize (Hall e He). unfold retired_ok in *. by rewrite Hs.
Qed.

(** ** Lemmas: handles *)

Lemma handles_state w i s :
  inv w -> slots (dest w) !! i = Some s -> i ∈ handles w ->
  slot_state s = kReserved \/ slot_state s = kDelivering \/ slot_state s = kHeld
  \/ slot_state s = kFree /\ stopped (dest w) = true.
Proof.
  intros Hinv Hi. unfold handles. rewrite !elem_of_app, !list_elem_of_fmap.
  intros [(c & -> & Hc)|[(p & -> & Hp)|(c & -> & Hc)]].
  - destruct (i_claims _ Hinv c Hc) as (x & Hx & Hst & _). simplify_eq. by left.
  - destruct (i_pendings _ Hinv p Hp) as (x & f & Hx & [(Hst & _)|Hst] & _); cbn in Hi; simplify_eq.
    + right. by left.
    + by do 3 right.
  - destruct (i_observed _ Hinv c Hc) as (x & Hx & Hst & _). simplify_eq. right. right. by left.
Qed.

Lemma in_handles_claim w c : c ∈ claims w -> index c ∈ handles w.
Proof. intros H. apply elem_of_app. left. by apply list_elem_of_fmap_2. Qed.

Lemma in_handles_pending w p : p ∈ pendings w -> index (pending_identity p) ∈ handles w.
Proof.
  intros H. apply elem_of_app. right. apply elem_of_app. left.
  by apply (list_elem_of_fmap_2 (index ∘ pending_identity)).
Qed.

Lemma in_handles_observed w c : c ∈ observed w -> index c ∈ handles w.
Proof. intros H. apply elem_of_app. right. apply elem_of_app. right. by apply list_elem_of_fmap_2. Qed.

(** [handles] after dropping one handle. *)
Lemma drop_claim w w' before c after :
  claims w = before ++ c :: after -> claims w' = before ++ after ->
  pendings w' = pendings w -> observed w' = observed w ->
  handles w ≡ₚ index c :: handles w'.
Proof.
  intros H1 H2 H3 H4. unfold handles. rewrite H1, H2, H3, H4, !fmap_app, fmap_cons.
  by rewrite <- Permutation_middle.
Qed.

Lemma drop_pending w w' before p after :
  pendings w = before ++ p :: after -> pendings w' = before ++ after ->
  claims w' = claims w -> observed w' = observed w ->
  handles w ≡ₚ index (pending_identity p) :: handles w'.
Proof.
  intros H1 H2 H3 H4. unfold handles. rewrite H1, H2, H3, H4, !fmap_app, fmap_cons.
  rewrite Permutation_middle. f_equiv. rewrite <- !app_assoc. cbn. by rewrite <- Permutation_middle.
Qed.

Lemma drop_observed w w' before c after :
  observed w = before ++ c :: after -> observed w' = before ++ after ->
  claims w' = claims w -> pendings w' = pendings w ->
  handles w ≡ₚ index c :: handles w'.
Proof.
  intros H1 H2 H3 H4. unfold handles. rewrite H1, H2, H3, H4, !fmap_app, fmap_cons.
  rewrite Permutation_middle. f_equiv. rewrite Permutation_middle. f_equiv.
  by rewrite <- Permutation_middle.
Qed.

(** A world whose handles lost the index [i] keeps the others. *)
Lemma dropped_handles w w' i :
  handles w ≡ₚ i :: handles w' -> NoDup (handles w) -> NoDup (handles w') /\ i ∉ handles w'.
Proof. intros ->. rewrite NoDup_cons. by intros [? ?]. Qed.

Lemma added_handles w w' i :
  handles w' ≡ₚ i :: handles w -> i ∉ handles w -> NoDup (handles w) -> NoDup (handles w').
Proof. intros -> ? ?. by apply NoDup_cons. Qed.

(** ** The steps preserve the invariant *)

Ltac same_history Hinv := split; [apply Hinv|intros ?; tauto].

(** A handle outside the changed slot. *)
Lemma kept_claim w i c : i ∉ handles w -> c ∈ claims w -> index c <> i.
Proof. intros Hn Hc <-. by apply Hn, in_handles_claim. Qed.
Lemma kept_pending w i p : i ∉ handles w -> p ∈ pendings w -> index (pending_identity p) <> i.
Proof. intros Hn Hc <-. by apply Hn, in_handles_pending. Qed.
Lemma kept_observed w i c : i ∉ handles w -> c ∈ observed w -> index c <> i.
Proof. intros Hn Hc <-. by apply Hn, in_handles_observed. Qed.

Lemma dest_claim_inv w identity state :
  TryClaimWrite (dest w) = (Some identity, state) -> inv w ->
  inv (w <| dest := state |> <| claims ::= cons identity |>).
Proof.
  intros Htry Hinv. unfold TryClaimWrite, FindClaimableSlot in Htry.
  destruct (_ || _) eqn:Hguard; [done|]. apply orb_false_iff in Hguard as [Hstop _].
  destruct (first_index _ _) as [i|] eqn:Hfirst; [|done].
  apply first_index_Some in Hfirst as (slot & Hi & Hfree & _). unfold claimable in Hfree.
  apply andb_true_iff in Hfree as [Hs%bool_decide_eq_true Hd%bool_decide_eq_true].
  revert Htry. set (claim_slot := fun slot : EncodedSlotMetadata =>
    slot <| generation ::= NextGeneration |> <| slot_state := kReserved |>).
  set (st := on_slot i claim_slot (dest w)). set (s' := claim_slot slot).
  assert (slots st = <[i := s']> (slots (dest w))) as Hset by (by apply dest_on_slot_slots).
  assert (slots st !! i = Some s') as Hi'.
  { rewrite Hset, list_lookup_insert_eq; [done|by eapply lookup_lt_Some]. }
  rewrite (dest_slot_at_lookup _ _ _ Hi'). intros [= <- <-].
  assert (~ active s') as Hna by (intros [?|[]]; done).
  assert (i ∉ handles w) as Hfresh.
  { intros Hin. destruct (handles_state w i slot Hinv Hi Hin) as [?|[?|[?|[_ ?]]]]; congruence. }
  apply (update_inv w _ i slot s'); try done.
  - constructor; [done|by intros ?|done|by intros ?|by intros [?|[?|?]]].
  - same_history Hinv.
  - same_history Hinv.
  - intros e He _ [?|Hst]; [done|]. unfold storing in Hst. by rewrite Hs in Hst.
  - unfold handles. cbn [claims pendings observed]. apply NoDup_cons. split; [exact Hfresh|apply Hinv].
  - intros c [->|Hc]%elem_of_cons; [right; by exists s'|left].
    split; [done|by eapply kept_claim].
  - intros p Hp. left. split; [done|by eapply kept_pending].
  - intros c Hc. left. split; [done|by eapply kept_observed].
  - congruence.
Qed.

Lemma wake_inv w state : inv (w <| dest := state |>) -> inv (w <| dest := WakeRuntimeLocked state |>).
Proof.
  unfold WakeRuntimeLocked. destruct (wake state); [|done]. intros H.
  apply (flags_inv (w <| dest := state |>)); try done. apply H.
Qed.

Lemma ReleaseSlotHandle_held state c wanted :
  held_in state wanted c ->
  ReleaseSlotHandle c wanted state
  = WakeRuntimeLocked (on_slot (index c) (fun slot => slot <| slot_state := kFree |>) state).
Proof.
  intros (slot & Hi & Hs & Hg). unfold ReleaseSlotHandle, in_range, slot_matches.
  rewrite (proj2 (Nat.ltb_lt _ _)) by (by eapply lookup_lt_Some).
  rewrite (dest_slot_at_lookup _ _ _ Hi), Hg, Z.eqb_refl. by rewrite bool_decide_eq_true_2.
Qed.

(** A handle released while its slot is reserved or held. *)
Lemma release_inv w w' c wanted :
  inv w -> held_in (dest w) wanted c -> wanted = kReserved \/ wanted = kHeld ->
  handles w ≡ₚ index c :: handles w' ->
  dest w' = ReleaseSlotHandle c wanted (dest w) ->
  claims w' ⊆ claims w -> pendings w' ⊆ pendings w -> observed w' ⊆ observed w ->
  log w' = log w -> taken w' = taken w -> retired w' = retired w -> inv w'.
Proof.
  intros Hinv Hheld Hwanted Hperm Hdest Hc Hp Ho Hl Ht Hr.
  rewrite (ReleaseSlotHandle_held _ _ _ Hheld) in Hdest. destruct Hheld as (s & Hi & Hs & Hg).
  destruct (dropped_handles _ _ _ Hperm (i_handles _ Hinv)) as [Hnd Hni].
  set (free := fun slot : EncodedSlotMetadata => slot <| slot_state := kFree |>) in Hdest.
  set (st := on_slot (index c) free (dest w)) in Hdest. set (s' := free s).
  assert (slots st = <[index c := s']> (slots (dest w))) as Hset by (by apply dest_on_slot_slots).
  destruct w' as [d cl pe ob lo ta re]. cbn in *. subst d lo ta re.
  apply (wake_inv {| dest := st; claims := cl; pendings := pe; observed := ob; log := log w;
                     taken := taken w; retired := retired w |} st).
  pose proof (i_slots _ Hinv _ _ Hi) as [so1 so2 so3 so4 so5]. unfold delivery_ok in so1.
  assert (slot_state s' = kFree) as Hs' by done.
  assert (active s' -> active s) as Hact by (intros [?|[]]; by left).
  apply (update_inv w _ (index c) s s'); try done.
  - constructor; try done.
    + unfold delivery_ok. cbn. destruct Hwanted as [-> | ->]; rewrite Hs in so1; cbn.
      * by rewrite so1. * destruct so1 as [-> | ->]; done.
    + auto.
    + intros Ha. destruct (so4 (Hact Ha)) as [H1 H2].
      change (admission_sequence s') with (admission_sequence s). split.
      * intros Hin. right. split; [done|]. destruct (H1 Hin) as [Hh|[Hf _]]; [|destruct Hwanted; congruence].
        rewrite Hh in so1. destruct so1 as [?|Hd]; [done|]. destruct Ha as [Ha|[]]. done.
      * intros [?|[_ Hd]]; [done|]. apply H2. left. destruct Hwanted as [-> | ->]; [|done].
        rewrite Hs in so1. change (delivery s = kDelivered) in Hd. congruence.
    + intros [Hd|[?|?]]; [|done..]. apply so5. by left.
  - intros Ha. split; [auto|done].
  - same_history Hinv.
  - same_history Hinv.
  - intros e He Hq Ha. apply (update_retired w _ (index c) s s'); try done.
    + same_history Hinv.
    + intros Hr. destruct Hwanted; congruence.
  - intros x Hx. left. split; [auto|]. intros Heq. apply Hni. rewrite <- Heq.
    apply elem_of_app. left. by apply list_elem_of_fmap_2.
  - intros x Hx. left. split; [auto|]. intros Heq. apply Hni. rewrite <- Heq. apply elem_of_app.
    right. apply elem_of_app. left. by apply (list_elem_of_fmap_2 (index ∘ pending_identity)).
  - intros x Hx. left. split; [auto|]. intros Heq. apply Hni. rewrite <- Heq. apply elem_of_app.
    right. apply elem_of_app. right. by apply list_elem_of_fmap_2.
  - intros Hr. destruct Hwanted; congruence.
Qed.

Lemma retire_inv w sequence d state :
  TryRetire sequence (dest w) = (Some d, state) -> inv w ->
  inv (w <| dest := state |> <| retired := retired w ++ [(sequence, d)] |>).
Proof.
  intros Htry Hinv. unfold TryRetire in Htry.
  destruct (first_index _ _) as [i|] eqn:Hfirst; [|done].
  apply first_index_Some in Hfirst as (s & Hi & Hdone & _). unfold completed in Hdone.
  apply andb_true_iff in Hdone as [Hdone Hq%Z.eqb_eq].
  rewrite (dest_slot_at_lookup _ _ _ Hi) in Htry. revert Htry.
  set (retire_slot := fun slot : EncodedSlotMetadata => slot <| delivery := kRetired |>).
  set (st := on_slot i retire_slot (dest w)). intros [= <- <-]. set (s' := retire_slot s).
  assert (slots st = <[i := s']> (slots (dest w))) as Hset by (by apply dest_on_slot_slots).
  assert (slots st !! i = Some s') as Hi'.
  { rewrite Hset, list_lookup_insert_eq; [done|by eapply lookup_lt_Some]. }
  assert (forall j x, j <> i -> slots (dest w) !! j = Some x -> slots st !! j = Some x) as Hoth
    by (intros j x Hne Hx; by rewrite Hset, list_lookup_insert_ne).
  assert (delivery s = kDelivered \/ delivery s = kFailed) as Hdel.
  { apply orb_true_iff in Hdone as [H%bool_decide_eq_true|H%bool_decide_eq_true]; auto. }
  assert (active s) as Hact by (left; destruct Hdel; congruence).
  pose proof (i_slots _ Hinv _ _ Hi) as [so1 so2 so3 so4 so5].
  assert (~ undecided s) as Hdec.
  { unfold delivery_ok in so1. intros [Hs|Hs]; rewrite Hs in so1; destruct so1, Hdel; congruence. }
  assert (sequence ∉ (retired w).*1) as Hnew by (rewrite <- Hq; apply so5; left; destruct Hdel; congruence).
  set (entry := (sequence, {| outcome := if decide (delivery s = kDelivered) then RouteTypes.kDelivered
                              else RouteTypes.kFailed; retired_bytes := encoded_bytes s |})).
  apply (update_inv w _ i s s'); try done.
  - constructor.
    + unfold delivery_ok in *. cbn. destruct (slot_state s) eqn:Hs; try done; auto.
    + intros _. by apply so2. + exact so3.
    + intros [?|Hst]; [done|]. change (admission_sequence s') with (admission_sequence s).
      rewrite (so4 Hact). change (slot_state s') with (slot_state s). unfold storing in Hst. cbn in Hst.
      split; (intros [?|[? ?]]; [by left|]); exfalso;
        match goal with H : slot_state s = kFree |- _ => by rewrite H in Hst end.
    + intros [?|Hu]; [done|]. exfalso. by apply Hdec.
  - same_history Hinv.
  - split.
    + change (NoDup (retired w ++ [entry]).*1). rewrite fmap_app.
      apply NoDup_app. split_and!; [apply Hinv| |apply NoDup_singleton].
      intros q Hin Hq'%list_elem_of_singleton. cbn in Hq'. congruence.
    + intros e. change (e ∈ retired w ++ [entry] <-> e ∈ retired w \/ (e.1 = admission_sequence s
        /\ active s /\ e ∈ retired w ++ [entry])).
      rewrite elem_of_app, list_elem_of_singleton. split; [|tauto].
      intros [?|He]; [by left|right]. split_and!; [by rewrite He|done|by right].
  - intros e He Heq Ha. cbn in He. apply elem_of_app in He as [He|He%list_elem_of_singleton].
    { exfalso. apply Hnew. rewrite <- Hq, <- Heq. by apply list_elem_of_fmap_2. }
    subst e. split.
    { destruct (so2 Hact) as (f & Hf & Hsz). exists f. rewrite Hq in Hf. by split. }
    cbn. pose proof (so4 Hact) as Htk. unfold delivery_ok in so1.
    destruct (decide (delivery s = kDelivered)) as [Hd|Hd].
    + destruct (slot_state s) eqn:Hs; try (by destruct so1; congruence).
      * left. rewrite <- Hq. apply Htk. by right.
      * exfalso. congruence.
      * right. exists i, s'. split_and!; [exact Hi'|exact Hs|exact Hq].
      * left. rewrite <- Hq. apply Htk. by left.
    + assert (delivery s = kFailed) as Hf by (by destruct Hdel).
      assert (slot_state s = kFree) as Hs.
      { destruct (slot_state s); [done|congruence|..]; destruct so1; congruence. }
      split.
      * rewrite <- Hq, Htk. intros [?|[_ ?]]; congruence.
      * intros j x Hj Hst Hx. change (slots st !! j = Some x) in Hj. rewrite Hset in Hj.
        apply list_lookup_insert_Some in Hj as [(_ & <- & _)|[Hne Hj]].
        -- unfold storing in Hst. cbn in Hst. by rewrite Hs in Hst.
        -- apply (i_distinct _ Hinv j i x s); [done..|by right|done|congruence].
  - apply Hinv.
  - intros c Hc. right. destruct (i_claims _ Hinv c Hc) as (x & Hx & Hs & Hg).
    destruct (decide (index c = i)) as [He|Hne]; [|exists x; split; [exact (Hoth _ _ Hne Hx)|done]].
    exfalso. rewrite He in Hx. simplify_eq. unfold delivery_ok in so1. rewrite Hs in so1.
    destruct Hdel; congruence.
  - intros p Hp. right. destruct (i_pendings _ Hinv p Hp) as (x & f & Hx & Hst & Hrest).
    destruct (decide (index (pending_identity p) = i)) as [He|Hne].
    + rewrite He in Hx. simplify_eq. exists s', f. split; [exact Hi'|done].
    + exists x, f. split; [exact (Hoth _ _ Hne Hx)|done].
  - intros c Hc. right. destruct (i_observed _ Hinv c Hc) as (x & Hx & Hs & Hg).
    destruct (decide (index c = i)) as [He|Hne]; [|exists x; split; [exact (Hoth _ _ Hne Hx)|done]].
    rewrite He in Hx. simplify_eq. exists s'. split; [exact Hi'|done].
  - auto.
Qed.


Lemma FindLowestSequence_Some state wanted i :
  FindLowestSequence wanted state = Some i -> exists s,
    slots state !! i = Some s /\ slot_state s = wanted
    /\ forall j x, slots state !! j = Some x -> slot_state x = wanted ->
       admission_sequence s <= admission_sequence x.
Proof.
  intros H. apply lowest_index_Some in H as (s & Hi & Hs%bool_decide_eq_true & Hmin).
  exists s. split_and!; [done..|]. intros j x Hj Hx. apply (Hmin j x Hj). by apply bool_decide_eq_true.
Qed.

Lemma take_pending_inv w pending state :
  TryTakePendingDelivery (dest w) = (Some pending, state) -> inv w ->
  inv (w <| dest := state |> <| pendings ::= cons pending |>).
Proof.
  intros Htry Hinv. unfold TryTakePendingDelivery in Htry.
  destruct (FindLowestSequence _ _) as [i|] eqn:Hfind; [|done].
  destruct (FindLowestSequence_Some _ _ _ Hfind) as (s & Hi & Hs & _). revert Htry.
  set (deliver := fun slot : EncodedSlotMetadata => slot <| slot_state := kDelivering |>).
  set (st := on_slot i deliver (dest w)). set (s' := deliver s).
  assert (slots st = <[i := s']> (slots (dest w))) as Hset by (by apply dest_on_slot_slots).
  assert (slots st !! i = Some s') as Hi'.
  { rewrite Hset, list_lookup_insert_eq; [done|by eapply lookup_lt_Some]. }
  cbv zeta. rewrite (dest_slot_at_lookup _ _ _ Hi').
  match goal with |- (Some ?p, _) = _ -> _ => set (p0 := p) end. intros [= <- <-].
  pose proof (i_slots _ Hinv _ _ Hi) as [so1 so2 so3 so4 so5].
  assert (storing s) as Hst by (unfold storing; by rewrite Hs).
  assert (i ∉ handles w) as Hfresh.
  { intros Hin. destruct (handles_state w i s Hinv Hi Hin) as [?|[?|[?|[? _]]]]; congruence. }
  apply (update_inv w _ i s s'); try done.
  - unfold delivery_ok in so1. rewrite Hs in so1. constructor.
    + done. + intros _. apply so2. by right. + intros _. by apply so3.
    + intros _. change (admission_sequence s') with (admission_sequence s).
      rewrite (so4 (storing_active _ Hst)), Hs. split; intros [?|[? _]]; done.
    + intros _. apply so5. right. by left.
  - intros _. split; [by right|done].
  - same_history Hinv.
  - same_history Hinv.
  - intros e He _ _. apply (update_retired w _ i s s'); try done; [by intros _; split; [right|]|same_history Hinv|].
    by rewrite Hs.
  - apply (added_handles w _ i); [|exact Hfresh|apply Hinv]. by apply (drop_pending _ w [] p0 (pendings w)).
  - intros c Hc. left. split; [done|by eapply kept_claim].
  - intros p [->|Hp]%elem_of_cons; [right|left; split; [done|by eapply kept_pending]].
    destruct (so3 Hst) as (f & [Hf Hz] & Hsl). exists s', f. split_and!; [exact Hi'|by left|done..|].
    change (slice (SlotBacking (dest w) i) (encoded_bytes s) (backing (dest w)) = f). by rewrite Hz.
  - intros c Hc. left. split; [done|by eapply kept_observed].
  - congruence.
Qed.

Lemma take_inv w identity state :
  TryTake (dest w) = (Some identity, state) -> inv w ->
  inv (w <| dest := state |> <| observed ::= cons identity |>
         <| taken := taken w ++ [AdmissionSequence identity state] |>).
Proof.
  intros Htry Hinv. unfold TryTake in Htry.
  destruct (FindLowestSequence _ _) as [i|] eqn:Hfind; [|done].
  destruct (FindLowestSequence_Some _ _ _ Hfind) as (s & Hi & Hs & _). revert Htry.
  set (hold := fun slot : EncodedSlotMetadata => slot <| slot_state := kHeld |>).
  set (st := on_slot i hold (dest w)). set (s' := hold s).
  assert (slots st = <[i := s']> (slots (dest w))) as Hset by (by apply dest_on_slot_slots).
  assert (slots st !! i = Some s') as Hi'.
  { rewrite Hset, list_lookup_insert_eq; [done|by eapply lookup_lt_Some]. }
  cbv zeta. rewrite (dest_slot_at_lookup _ _ _ Hi').
  match goal with |- (Some ?c, _) = _ -> _ => set (c0 := c) end. intros [= <- <-].
  assert (AdmissionSequence c0 st = admission_sequence s) as ->.
  { unfold AdmissionSequence, FindHeldSlot, in_range, slot_matches. cbn [index c0].
    rewrite (proj2 (Nat.ltb_lt _ _)) by (by eapply lookup_lt_Some).
    rewrite (dest_slot_at_lookup _ _ _ Hi'). cbn [identity_generation c0].
    by rewrite Z.eqb_refl, bool_decide_eq_true_2. }
  pose proof (i_slots _ Hinv _ _ Hi) as [so1 so2 so3 so4 so5].
  assert (storing s) as Hst by (unfold storing; by rewrite Hs).
  assert (i ∉ handles w) as Hfresh.
  { intros Hin. destruct (handles_state w i s Hinv Hi Hin) as [?|[?|[?|[? _]]]]; congruence. }
  assert (admission_sequence s ∉ taken w) as Hnew.
  { rewrite (so4 (storing_active _ Hst)), Hs. by intros [?|[? _]]. }
  set (w' := w <| dest := st |> <| observed ::= cons c0 |>
               <| taken := taken w ++ [admission_sequence s] |>).
  assert (admission_sequence s ∈ taken w') as Hin.
  { change (admission_sequence s ∈ taken w ++ [admission_sequence s]). apply elem_of_app. right. left. }
  assert (forall q, q ∈ taken w' <-> q ∈ taken w \/ (q = admission_sequence s /\ active s /\ q ∈ taken w'))
    as Hgrow.
  { intros q. split.
    - intros Hq. pose proof Hq as [?|Hl%list_elem_of_singleton]%elem_of_app; [by left|].
      right. split_and!; [done|by right|done].
    - intros [Hq|(-> & _)]; [|done]. change (q ∈ taken w ++ [admission_sequence s]).
      apply elem_of_app. by left. }
  assert (NoDup (taken w')) as Hnd.
  { change (NoDup (taken w ++ [admission_sequence s])). apply NoDup_app.
    split_and!; [apply Hinv| |apply NoDup_singleton]. by intros q Hq ->%list_elem_of_singleton. }
  apply (update_inv w w' i s s'); try done.
  - unfold delivery_ok in so1. rewrite Hs in so1. constructor.
    + done. + intros _. apply so2. by right. + intros _. by apply so3.
    + intros _. split; [by left|done].
    + intros [?|[?|?]]; [|done..]. apply so5. by left.
  - intros _. split; [by right|done].
  - same_history Hinv.
  - intros e He _ _. apply (update_retired w w' i s s'); try done; [by intros _; split; [right|]|by right].
  - apply (added_handles w _ i); [|exact Hfresh|apply Hinv]. by apply (drop_observed w' w [] c0 (observed w)).
  - intros c Hc. left. split; [done|by eapply kept_claim].
  - intros p Hp. left. split; [done|by eapply kept_pending].
  - intros c [->|Hc]%elem_of_cons; [right; by exists s'|left; split; [done|by eapply kept_observed]].
  - by right.
Qed.

(** A handle whose slot no longer answers to it is dropped. *)
Lemma drop_inv w w' i :
  inv w -> handles w ≡ₚ i :: handles w' -> dest w' = dest w ->
  claims w' ⊆ claims w -> pendings w' ⊆ pendings w -> observed w' ⊆ observed w ->
  log w' = log w -> taken w' = taken w -> retired w' = retired w -> inv w'.
Proof.
  intros Hinv Hperm Hd Hc Hp Ho Hl Ht Hr.
  destruct (dropped_handles _ _ _ Hperm (i_handles _ Hinv)) as [Hnd _].
  destruct Hinv. constructor; rewrite ?Hd, ?Hl, ?Ht, ?Hr; auto.
Qed.

Lemma finish_inv w before pending after delivered status state :
  pendings w = before ++ pending :: after ->
  Finish (Some pending) delivered (dest w) = (status, state) -> inv w ->
  inv (w <| dest := state |> <| pendings := before ++ after |>).
Proof.
  intros Hp Hfin Hinv. set (i := index (pending_identity pending)).
  assert (before ++ after ⊆ pendings w) as Hsub.
  { rewrite Hp. intros x. rewrite !elem_of_app, elem_of_cons. tauto. }
  assert (pending ∈ pendings w) as Hin by (rewrite Hp; apply elem_of_app; right; left).
  unfold Finish in Hfin. fold i in Hfin.
  destruct (i_pendings _ Hinv _ Hin) as (s & f & Hi & Hor & _). fold i in Hi.
  unfold in_range in Hfin. rewrite (proj2 (Nat.ltb_lt _ _)) in Hfin by (by eapply lookup_lt_Some).
  cbn [negb] in Hfin. unfold slot_matches in Hfin. fold i in Hfin.
  rewrite (dest_slot_at_lookup _ _ _ Hi) in Hfin.
  destruct (bool_decide (slot_state s = kDelivering)
            && (generation s =? identity_generation (pending_identity pending))) eqn:Hm; cbn [negb] in Hfin.
  2: { injection Hfin as <- <-. apply (drop_inv w _ i); try done. by apply (drop_pending w _ before _ after). }
  apply andb_true_iff in Hm as [Hs%bool_decide_eq_true _].
  set (decided := fun slot : EncodedSlotMetadata =>
    if delivered then slot <| slot_state := kReady |> <| delivery := kDelivered |>
    else slot <| slot_state := kFree |> <| delivery := kFailed |>) in Hfin.
  set (st := on_slot i decided (dest w)) in Hfin. injection Hfin as <- <-.
  set (s' := decided s).
  assert (slots st = <[i := s']> (slots (dest w))) as Hset by (by apply dest_on_slot_slots).
  set (w' := w <| pendings := before ++ after |>).
  apply (wake_inv w' st).
  pose proof (i_slots _ Hinv _ _ Hi) as [so1 so2 so3 so4 so5].
  assert (storing s) as Hst by (unfold storing; by rewrite Hs).
  assert (active s) as Hact by (by right).
  assert (admission_sequence s' = admission_sequence s) as Hseq by (unfold s', decided; by destruct delivered).
  assert (handles w ≡ₚ i :: handles w') as Hperm by (by apply (drop_pending w w' before _ after)).
  destruct (dropped_handles _ _ _ Hperm (i_handles _ Hinv)) as [Hnd Hni].
  apply (update_inv w _ i s s'); try done.
  - constructor.
    + unfold delivery_ok, s', decided. destruct delivered; [by left|done].
    + intros _. destruct (so2 Hact) as (g & Hg). exists g. unfold has_frame.
      rewrite Hseq. unfold s', decided. by destruct delivered.
    + intros Hst'. destruct (so3 Hst) as (g & Hg & Hsl). exists g. unfold has_frame. rewrite Hseq.
      unfold s', decided in *. by destruct delivered.
    + intros _. rewrite Hseq. change (taken (w' <| dest := st |>)) with (taken w).
      rewrite (so4 Hact), Hs. unfold s', decided.
      destruct delivered; cbn; split; intros [?|[? ?]]; done.
    + intros _. rewrite Hseq. apply so5. right. by right.
  - same_history Hinv.
  - same_history Hinv.
  - intros e He _ _. apply (update_retired w _ i s s'); try done; [same_history Hinv|by rewrite Hs].
  - intros c Hc. left. split; [done|]. by apply (kept_claim w').
  - intros p Hp'. left. split; [by apply Hsub|]. by apply (kept_pending w').
  - intros c Hc. left. split; [done|]. by apply (kept_observed w').
  - by rewrite Hs.
Qed.

(** Every slot changed by the same function. *)
Lemma map_inv w st g :
  slots st = g <$> slots (dest w) -> backing st = backing (dest w) ->
  maximum_encoded_record_bytes st = maximum_encoded_record_bytes (dest w) ->
  delivery_mode st = delivery_mode (dest w) ->
  (stopped (dest w) = true -> stopped st = true) ->
  (forall s, admission_sequence (g s) = admission_sequence s /\ generation (g s) = generation s) ->
  (forall s, slot_state (g s) = slot_state s
     \/ undecided s /\ slot_state (g s) = kFree /\ stopped st = true) ->
  (forall s, active (g s) -> active s) ->
  (forall i s, slot_ok (dest w) (log w) (taken w) (retired w).*1 i s ->
     slot_ok st (log w) (taken w) (retired w).*1 i (g s)) ->
  inv w -> inv (w <| dest := st |>).
Proof.
  intros Hs Hb Hbb Hm Hstop Hsame Hstate Hactive Hok Hinv.
  assert (forall i x, slots st !! i = Some x -> exists s, x = g s /\ slots (dest w) !! i = Some s) as Hget.
  { intros i x Hx. rewrite Hs in Hx. by apply list_lookup_fmap_Some in Hx. }
  assert (forall i s, slots (dest w) !! i = Some s -> slots st !! i = Some (g s)) as Hput.
  { intros i s Hx. rewrite Hs. by rewrite list_lookup_fmap, Hx. }
  assert (forall s, storing (g s) -> storing s) as Hstoring.
  { intros s. unfold storing. destruct (Hstate s) as [H|(_ & H & _)]; by rewrite H. }
  assert (forall s wanted, slot_state s = wanted -> wanted <> kPending -> wanted <> kDelivering ->
    slot_state (g s) = wanted) as Hkeep.
  { intros s wanted <- H1 H2. destruct (Hstate s) as [H|[[?|?] _]]; done. }
  assert (forall wanted c, wanted <> kPending -> wanted <> kDelivering ->
    held_in (dest w) wanted c -> held_in st wanted c) as Hheld.
  { intros wanted c H1 H2 (s & Hi & Hst & Hg). exists (g s). destruct (Hsame s) as [_ ->].
    split_and!; [by apply Hput|by apply Hkeep|done]. }
  destruct Hinv. constructor; try done.
  - change (dest (w <| dest := st |>)) with st. rewrite Hbb, Hb, Hs. unfold zlen. by rewrite length_fmap.
  - change (dest (w <| dest := st |>)) with st. by rewrite Hbb.
  - intros i x Hx. destruct (Hget i x Hx) as (s & -> & Hi). by apply Hok, i_slots0.
  - intros i j x y Hx Hy Hne Hax Hay.
    destruct (Hget i x Hx) as (s & -> & Hi). destruct (Hget j y Hy) as (t & -> & Hj).
    destruct (Hsame s) as [-> _], (Hsame t) as [-> _]. by apply (i_distinct0 i j); auto.
  - intros c Hc. apply Hheld; [done..|]. by apply i_claims0.
  - intros p Hp. destruct (i_pendings0 p Hp) as (s & f & Hi & Hor & Hl & Ho & Hz & Hsl).
    exists (g s), f. unfold SlotBacking in *. change (dest (w <| dest := st |>)) with st.
    rewrite Hb, Hbb. destruct (Hsame s) as [-> ->]. split_and!; [by apply Hput| |done..].
    destruct Hor as [(Hd & Hg & Hq)|[Hfree Hst]].
    + destruct (Hstate s) as [Heq|(_ & Hf & Hstd)]; [left; by rewrite Heq|by right].
    + right. split; [by apply Hkeep|auto].
  - intros c Hc. apply Hheld; [done..|]. by apply i_observed0.
  - destruct i_retired0 as [Hnd Hall]. split; [done|]. intros e He. destruct (Hall e He) as [Hf Ho].
    split; [done|]. destruct (outcome e.2).
    + destruct Ho as [?|(i & s & Hi & Hst & Hq)]; [by left|right]. exists i, (g s).
      destruct (Hsame s) as [-> _]. split_and!; [by apply Hput|by apply Hkeep|done].
    + destruct Ho as [? Hno]. split; [done|]. intros i x Hx Hst.
      destruct (Hget i x Hx) as (s & -> & Hi). destruct (Hsame s) as [-> _]. apply (Hno i s Hi). auto.
  - change (IsKnownDeliveryMode (delivery_mode st) = true). by rewrite Hm.
Qed.

Lemma stop_inv w : inv w -> inv (w <| dest ::= Stop |>).
Proof.
  intros Hinv. apply (map_inv w (Stop (dest w)) StopSlot); try done.
  - intros s. unfold StopSlot. by case_decide.
  - intros s. unfold StopSlot. case_decide; [by right|by left].
  - intros s. unfold StopSlot. case_decide as Hu; [|done]. intros _. right. unfold storing.
    by destruct Hu as [Hu|Hu]; rewrite Hu.
  - intros i s [so1 so2 so3 so4 so5]. unfold StopSlot. case_decide as Hu; [|done].
    assert (active s) as Ha.
    { right. unfold storing. by destruct Hu as [Hu|Hu]; rewrite Hu. }
    constructor.
    + done. + intros _. by apply so2. + done.
    + intros _. change (admission_sequence s ∈ taken w <->
        kFree = kHeld \/ kFree = kFree /\ kCancelled = kDelivered). rewrite (so4 Ha).
      destruct Hu as [Hu|Hu]; rewrite Hu; split; intros [?|[? ?]]; done.
    + intros _. apply so5. by right.
Qed.

Lemma dest_discard_inv w : inv w -> inv (w <| dest ::= DiscardInFlight |>).
Proof.
  intros Hinv. apply (map_inv w (DiscardInFlight (dest w))
    (fun slot => slot <| delivery := kRetired |>)); try done.
  - intros s. by left.
  - intros s [?|?]; [done|by right].
  - intros i s [so1 so2 so3 so4 so5]. constructor.
    + unfold delivery_ok in *. cbn. destruct (slot_state s); auto.
    + intros [?|?]; [done|]. apply so2. by right.
    + done.
    + intros [?|Hst]; [done|]. change (admission_sequence s ∈ taken w <->
        slot_state s = kHeld \/ slot_state s = kFree /\ kRetired = kDelivered).
      rewrite (so4 (storing_active s Hst)). unfold storing in Hst. cbn in Hst.
      split; intros [?|[Hf ?]]; try (by left); exfalso; by rewrite Hf in Hst.
    + intros [?|?]; [done|]. apply so5. by right.
Qed.

(** ** Storing a frame *)

Lemma slot_region w i s :
  inv w -> slots (dest w) !! i = Some s ->
  0 <= SlotBacking (dest w) i
  /\ SlotBacking (dest w) i + maximum_encoded_record_bytes (dest w) <= zlen (backing (dest w))
  /\ forall j, j <> i -> 0 <= SlotBacking (dest w) j
       /\ (SlotBacking (dest w) j + maximum_encoded_record_bytes (dest w) <= SlotBacking (dest w) i
           \/ SlotBacking (dest w) i + maximum_encoded_record_bytes (dest w) <= SlotBacking (dest w) j).
Proof.
  intros Hinv Hi. destruct (i_mem _ Hinv) as [Hb ->]. apply lookup_lt_Some in Hi.
  unfold SlotBacking, zlen. split_and!; [nia|nia|]. intros j Hj. nia.
Qed.

Lemma slot_matches_held state c wanted :
  held_in state wanted c -> in_range state (index c) = true /\ slot_matches state c wanted = true.
Proof.
  intros (s & Hi & Hs & Hg). unfold in_range, slot_matches. split.
  - apply Nat.ltb_lt. by eapply lookup_lt_Some.
  - rewrite (dest_slot_at_lookup _ _ _ Hi), Hg, Z.eqb_refl. by rewrite bool_decide_eq_true_2.
Qed.

Lemma SubmitSlot_facts sequence size is_stopped mode slot :
  IsKnownDeliveryMode mode = true ->
  let s := SubmitSlot sequence size is_stopped mode slot in
  admission_sequence s = sequence /\ encoded_bytes s = size /\ delivery_ok s
  /\ slot_state s <> kHeld /\ slot_state s <> kReserved
  /\ ~ (slot_state s = kFree /\ delivery s = kDelivered).
Proof.
  intros Hm. unfold SubmitSlot, delivery_ok. destruct is_stopped, mode; cbn in *; try done.
  all: split_and!; try done; try (by left). all: by intros [? ?].
Qed.

Section Store.
Context (double_text : Z -> list byte) (Hshort : forall bits, zlen (double_text bits) <= 24).

(** What [StoreRaw] does on a claimed slot. *)
Lemma dest_StoreRaw_claimed w c s sequence view frame :
  inv w -> held_in (dest w) kReserved c -> slots (dest w) !! index c = Some s ->
  line_of double_text view frame ->
  let base := SlotBacking (dest w) (index c) in
  let out := frame ++ drop (length frame)
    (slice base (maximum_encoded_record_bytes (dest w)) (backing (dest w))) in
  StoreRaw double_text c sequence view (dest w) =
  if zlen frame <=? maximum_encoded_record_bytes (dest w) then
    ({| stored_encoded_bytes := zlen frame; submitted := true |},
     on_slot (index c) (SubmitSlot sequence (zlen frame) (stopped (dest w)) (delivery_mode (dest w)))
       (dest w <| backing ::= blit base out |>))
  else (not_stored, Reset c (dest w)).
Proof.
  intros Hinv Hheld Hi Hline base out. destruct (slot_matches_held _ _ _ Hheld) as [Hrange Hmatch].
  destruct (slot_region w (index c) s Hinv Hi) as (Hb0 & Hb1 & _). fold base in Hb0, Hb1.
  destruct (i_mem _ Hinv) as [Hb _]. unfold StoreRaw. rewrite Hrange. cbn [negb]. fold base.
  pose proof (zlen_slice base (maximum_encoded_record_bytes (dest w)) (backing (dest w)) Hb0 (proj1 Hb) Hb1) as Hlen.
  destruct (line_encodes double_text Hshort view frame
    (slice base (maximum_encoded_record_bytes (dest w)) (backing (dest w))) Hline) as [_ ->]; [lia|].
  rewrite Hlen. destruct (zlen frame <=? _).
  - cbn [complete negb RawEncoder.encoded_bytes].
    assert (forall g, slot_matches (dest w <| backing ::= g |>) c kReserved = true) as Hm
      by (intros; exact Hmatch).
    by rewrite Hm.
  - cbn [complete not_encoded negb]. unfold modify. rewrite (blit_slice_self _ _ _ Hb0 (proj1 Hb)).
    by destruct (dest w).
Qed.

Context (w : World) (before after : list EncodedDestinationSlotIdentity).
Context (c : EncodedDestinationSlotIdentity) (sequence : Z) (frame : list byte) (s : EncodedSlotMetadata).
Context (Hinv : inv w) (Hclaims : claims w = before ++ c :: after).
Context (Hi : slots (dest w) !! index c = Some s).
Context (Hseq : Forall (fun entry => entry.1 < sequence) (log w)).
Context (Hfit : zlen frame <= maximum_encoded_record_bytes (dest w)).
Let i := index c.
Let s' := SubmitSlot sequence (zlen frame) (stopped (dest w)) (delivery_mode (dest w)) s.
Let out := frame ++ drop (length frame)
  (slice (SlotBacking (dest w) i) (maximum_encoded_record_bytes (dest w)) (backing (dest w))).
Let st := on_slot i (SubmitSlot sequence (zlen frame) (stopped (dest w)) (delivery_mode (dest w)))
  (dest w <| backing ::= blit (SlotBacking (dest w) i) out |>).
Let w' := w <| dest := st |> <| claims := before ++ after |> <| log := log w ++ [(sequence, frame)] |>.

Lemma below q : q ∈ (log w).*1 -> q < sequence.
Proof.
  intros ([p f] & -> & Hin)%list_elem_of_fmap.
  apply list_elem_of_lookup in Hin as [j Hj]. exact (proj1 (Forall_lookup _ _) Hseq j _ Hj).
Qed.

Lemma active_below j x : slots (dest w) !! j = Some x -> active x -> admission_sequence x < sequence.
Proof.
  intros Hj Hx. destruct (so_frame _ _ _ _ _ _ (i_slots _ Hinv j x Hj) Hx) as (f & Hf & _).
  apply below. apply list_elem_of_fmap. by exists (admission_sequence x, f).
Qed.

Lemma submitted_slot :
  admission_sequence s' = sequence /\ encoded_bytes s' = zlen frame /\ delivery_ok s'
  /\ slot_state s' <> kHeld /\ slot_state s' <> kReserved
  /\ ~ (slot_state s' = kFree /\ delivery s' = kDelivered).
Proof. apply SubmitSlot_facts. apply Hinv. Qed.

Lemma out_size : zlen out = maximum_encoded_record_bytes (dest w).
Proof.
  destruct (slot_region w i s Hinv Hi) as (Hb0 & Hb1 & _). destruct (i_mem _ Hinv) as [[Hb _] _].
  pose proof (zlen_slice _ _ _ Hb0 Hb Hb1). unfold out, zlen in *. rewrite length_app, length_drop.
  lia.
Qed.

Lemma other_slice j m :
  j <> i -> 0 <= m <= maximum_encoded_record_bytes (dest w) ->
  slice (SlotBacking st j) m (backing st) = slice (SlotBacking (dest w) j) m (backing (dest w)).
Proof.
  intros Hj Hm. destruct (slot_region w i s Hinv Hi) as (Hb0 & Hb1 & Hb2). destruct (Hb2 j Hj).
  pose proof out_size. apply slice_blit_other; lia.
Qed.

Lemma own_slice : slice (SlotBacking st i) (zlen frame) (backing st) = frame.
Proof.
  destruct (slot_region w i s Hinv Hi) as (Hb0 & Hb1 & _). pose proof out_size as Ho.
  pose proof (zlen_nonneg frame).
  rewrite <- (slice_prefix _ _ (zlen out)) by (exact Hb0 || lia).
  change (take (Z.to_nat (zlen frame)) (slice (SlotBacking (dest w) i) (zlen out)
    (blit (SlotBacking (dest w) i) out (backing (dest w)))) = frame).
  rewrite slice_blit_same by lia. unfold out, zlen. rewrite Nat2Z.id. by rewrite take_app_length.
Qed.
Lemma dest_store_inv : slot_state s = kReserved -> inv w'.
Proof.
  intros Hres. destruct submitted_slot as (Hq & He & Hok & Hnh & Hnr & Hnd).
  assert (slots st = <[i := s']> (slots (dest w))) as Hset.
  { unfold st. by rewrite (dest_on_slot_slots _ _ s). }
  assert (slots st !! i = Some s') as Hi'.
  { rewrite Hset, list_lookup_insert_eq; [done|by eapply lookup_lt_Some]. }
  assert (forall j x, slots st !! j = Some x ->
    j = i /\ x = s' \/ j <> i /\ slots (dest w) !! j = Some x) as Hget.
  { intros j x Hj. rewrite Hset in Hj.
    apply list_lookup_insert_Some in Hj as [(<- & <- & _)|[? Hj]]; auto. }
  assert (forall j x, j <> i -> slots (dest w) !! j = Some x -> slots st !! j = Some x) as Hput.
  { intros j x Hne Hj. by rewrite Hset, list_lookup_insert_ne. }
  assert (c ∈ claims w) as Hin by (rewrite Hclaims; apply elem_of_app; right; left).
  assert (handles w ≡ₚ i :: handles w') as Hperm by (by apply (drop_claim w w' before c after)).
  destruct (dropped_handles _ _ _ Hperm (i_handles _ Hinv)) as [Hnd' Hni].
  pose proof Hinv as [m1 m2 m3 m4 m5 m6 m7 m8 m9 [m10 m11] [m12 m13] m14].
  assert (forall q f, (q, f) ∈ log w -> (q, f) ∈ log w ++ [(sequence, frame)]) as Hgrow
    by (intros; apply elem_of_app; by left).
  assert ((sequence, frame) ∈ log w ++ [(sequence, frame)]) as Hnew by (apply elem_of_app; right; left).
  assert (sequence ∉ (retired w).*1) as Hnret.
  { intros (e & Heq & Hie)%list_elem_of_fmap. destruct (m13 e Hie) as [(f & Hf & _) _].
    assert (e.1 < sequence); [|lia]. apply below. apply list_elem_of_fmap. by exists (e.1, f). }
  assert (sequence ∉ taken w) as Hntk by (intros Hx; pose proof (below _ (m11 _ Hx)); lia).
  constructor; try done.
  - cbn. unfold zlen in *. rewrite length_alter. rewrite <- (proj2 m1).
    destruct (slot_region w i s Hinv Hi) as (Hb0 & Hb1 & _). pose proof out_size as Ho.
    split; [lia|]. apply (zlen_blit (SlotBacking (dest w) i) out (backing (dest w))); unfold zlen in *; lia.
  - change (NoDup (log w ++ [(sequence, frame)]).*1). rewrite fmap_app. apply NoDup_app.
    split_and!; [done| |apply NoDup_singleton]. intros q Hx ->%list_elem_of_singleton.
    pose proof (below _ Hx). cbn in *. lia.
  - intros e [Hx|Hx%list_elem_of_singleton]%elem_of_app; [by apply m3|by subst e].
  - intros j x Hj. destruct (Hget j x Hj) as [[-> ->]|[Hne Hj']].
    + constructor.
      * done.
      * intros _. exists frame. unfold has_frame. by rewrite Hq.
      * intros _. exists frame. split; [unfold has_frame; by rewrite Hq|exact own_slice].
      * intros _. rewrite Hq. split; [done|]. intros [?|?]; [done|by destruct Hnd].
      * by rewrite Hq.
    + destruct (m4 j x Hj') as [so1 so2 so3 so4 so5]. constructor; try done.
      * intros Ha. destruct (so2 Ha) as (f & Hf & Hz). exists f. split; [by apply Hgrow|done].
      * intros Hst. destruct (so3 Hst) as (f & [Hf Hz] & Hsl). exists f. split; [split; [by apply Hgrow|done]|].
        change (slice (SlotBacking st j) (zlen f) (backing st) = f).
        rewrite other_slice; [done|done|]. specialize (m3 _ Hf). pose proof (zlen_nonneg f). cbn in m3. lia.
  - intros j k x y Hj Hk Hne Hx Hy.
    destruct (Hget j x Hj) as [[-> ->]|[Hnj Hj']], (Hget k y Hk) as [[-> ->]|[Hnk Hk']].
    + done.
    + pose proof (active_below k y Hk' Hy). lia.
    + pose proof (active_below j x Hj' Hx). lia.
    + by apply (m5 j k).
  - intros d Hd. assert (d ∈ claims w) as Hd'.
    { rewrite Hclaims. change (d ∈ before ++ after) in Hd. revert Hd. rewrite !elem_of_app, elem_of_cons. tauto. }
    destruct (m7 d Hd') as (x & Hx & ?). exists x. split; [|done]. apply Hput; [|done].
    by apply (kept_claim w').
  - intros p Hp. destruct (m8 p Hp) as (x & f & Hx & Hor & Hl & Ho & Hz & Hsl). exists x, f.
    assert (index (pending_identity p) <> i) as Hne by (by apply (kept_pending w')).
    split_and!; [by apply Hput|done|by apply Hgrow|exact Ho|done|].
    rewrite Ho, Hz in *. change (slice (SlotBacking st (index (pending_identity p))) (zlen f)
      (backing st) = f). rewrite other_slice; [done|done|]. specialize (m3 _ Hl). pose proof (zlen_nonneg f).
    cbn in m3. lia.
  - intros d Hd. destruct (m9 d Hd) as (x & Hx & ?). exists x. split; [|done]. apply Hput; [|done].
    by apply (kept_observed w').
  - split; [done|]. intros q Hx. change (q ∈ (log w ++ [(sequence, frame)]).*1). rewrite fmap_app.
    apply elem_of_app. left. by apply m11.
  - split; [done|]. intros e Hie. destruct (m13 e Hie) as [(f & Hf & Hb) Ho].
    split; [exists f; split; [by apply Hgrow|done]|]. destruct (outcome e.2).
    + destruct Ho as [?|(j & x & Hj & Hst & Hx)]; [by left|right]. exists j, x.
      split_and!; [|done..]. apply Hput; [|done]. intros ->. unfold i in Hj. congruence.
    + destruct Ho as [? Hno]. split; [done|]. intros j x Hj Hst.
      destruct (Hget j x Hj) as [[-> ->]|[Hne Hj']]; [|by apply (Hno j)].
      rewrite Hq. intros Heq. apply Hnret. rewrite Heq. by apply list_elem_of_fmap_2.
Qed.
End Store.

Section Destination.
Context (double_text : Z -> list byte) (Hshort : forall bits, zlen (double_text bits) <= 24).

Lemma dest_store_preserves w before c after sequence view frame result state :
  claims w = before ++ c :: after -> line_of double_text view frame ->
  Forall (fun entry => entry.1 < sequence) (log w) ->
  StoreRaw double_text c sequence view (dest w) = (result, state) -> inv w ->
  inv (w <| dest := state |> <| claims := before ++ after |>
         <| log := if submitted result then log w ++ [(sequence, frame)] else log w |>).
Proof.
  intros Hcl Hline Hseq Hstore Hinv.
  assert (c ∈ claims w) as Hin by (rewrite Hcl; apply elem_of_app; right; left).
  pose proof (i_claims _ Hinv c Hin) as Hheld. pose proof Hheld as (s & Hi & Hres & Hg).
  rewrite (dest_StoreRaw_claimed double_text Hshort w c s sequence view frame Hinv Hheld Hi Hline) in Hstore.
  destruct (Z.leb_spec (zlen frame) (maximum_encoded_record_bytes (dest w))) as [Hfit|_];
    injection Hstore as <- <-; cbn [submitted not_stored].
  - by apply (dest_store_inv w before after c sequence frame s).
  - apply (release_inv w _ c kReserved); try done.
    + by left.
    + by apply (drop_claim w _ before c after).
    + rewrite Hcl. intros x. cbn. rewrite !elem_of_app, elem_of_cons. tauto.
Qed.

Lemma dest_step_preserves w w' : dest_step double_text w w' -> inv w -> inv w'.
Proof.
  intros Hstep Hinv. destruct Hstep as [w notify b state Htry|w f Hf|w c state Htry|
    w before c after sequence view frame result state Hcl Hline Hseq Hstore|w before c after Hcl|
    w sequence d state Htry|w pending state Htry|w before p after delivered status state Hp Hfin|
    w c state Htry|w before c after Ho].
  - unfold TryAttachRuntime in Htry. destruct (_ || _); injection Htry as <- <-;
      apply (flags_inv w); try done; apply Hinv.
  - destruct Hf as [Hf|[mode ->]].
    + repeat rewrite elem_of_cons in Hf. destruct Hf as [->|[->|[->|[->|[]%elem_of_nil]]]].
      * apply (flags_inv w); try done; apply Hinv.
      * by apply stop_inv. * by apply dest_discard_inv.
      * apply (wake_inv w). apply (flags_inv w); try done; apply Hinv.
    + unfold modify, SetDeliveryMode. destruct (IsKnownDeliveryMode mode) eqn:Hm; cbn [negb];
        apply (flags_inv w); try done; apply Hinv.
  - by apply dest_claim_inv.
  - by eapply dest_store_preserves.
  - assert (c ∈ claims w) as Hin by (rewrite Hcl; apply elem_of_app; right; left).
    apply (release_inv w _ c kReserved); try done.
    + by apply i_claims. + by left. + by apply (drop_claim w _ before c after).
    + rewrite Hcl. intros x. cbn. rewrite !elem_of_app, elem_of_cons. tauto.
  - by apply retire_inv.
  - by apply take_pending_inv.
  - by eapply finish_inv.
  - by apply take_inv.
  - assert (c ∈ observed w) as Hin by (rewrite Ho; apply elem_of_app; right; left).
    apply (release_inv w _ c kHeld); try done.
    + by apply i_observed. + by right. + by apply (drop_observed w _ before c after).
    + rewrite Ho. intros x. cbn. rewrite !elem_of_app, elem_of_cons. tauto.
Qed.

Lemma steps_preserve w w' : rtc (dest_step double_text) w w' -> inv w -> inv w'.
Proof. induction 1 as [|x y z Hxy _ IH]; [done|]. intros H. apply IH. by eapply dest_step_preserves. Qed.
End Destination.

(** ** The configuration *)

(** The bounds the constructor accepts. *)
Definition config_accepted (sizeof_metadata : Z) (config : InMemoryEncodedDestinationConfig) : Prop :=
  0 < capacity_records config
  /\ 128 <= maximum_record_bytes config <= kMaximumRecordBytes
  /\ maximum_record_bytes config mod kAccountingQuantumBytes = 0
  /\ capacity_records config * (MaximumRawEncodedBytes (maximum_record_bytes config) + sizeof_metadata)
     <= size_max.

#[export] Instance config_accepted_dec sizeof_metadata config :
  Decision (config_accepted sizeof_metadata config).
Proof. unfold config_accepted. apply _. Defined.

Lemma MaximumRawEncodedBytes_value n : 0 <= n <= kMaximumRecordBytes -> MaximumRawEncodedBytes n = 11 + 2 * n.
Proof.
  intros Hn. unfold MaximumRawEncodedBytes, kMaximumRecordBytes in *.
  change (zlen kRawPrefix + zlen kTextPrefix + 1) with 11.
  change ((size_max - 11) / 2) with (2 ^ 63 - 6). rewrite (proj2 (Z.ltb_ge _ _)) by lia.
  rewrite (w64_small (n * 2)), w64_small by lia. lia.
Qed.

Section Config.
Context (sizeof_metadata : Z) (config : InMemoryEncodedDestinationConfig).
Context (Hsizeof : 0 < sizeof_metadata < 2 ^ 32).
Context (Hcapacity : 0 <= capacity_records config < 2 ^ 64).

(** The division guards are the overflow of the products. *)
Lemma div_guard n size :
  0 < size -> 0 <= n -> (size_max / size <? n) = false <-> n * size <= size_max.
Proof.
  intros Hs Hn. rewrite Z.ltb_ge. split; intros H.
  - etrans; [|apply (Z.mul_div_le size_max size Hs)]. nia.
  - apply Z.div_le_lower_bound; lia.
Qed.

Lemma validate_accepts :
  config_accepted sizeof_metadata config ->
  ValidateAndGetFixedBackingBytes sizeof_metadata config
  = inr (capacity_records config
         * (MaximumRawEncodedBytes (maximum_record_bytes config) + sizeof_metadata)).
Proof.
  intros (Hc & Hm & Hmod & Hsize). unfold ValidateAndGetFixedBackingBytes.
  rewrite (proj2 (Z.eqb_neq _ _)) by lia. rewrite Hmod.
  rewrite (proj2 (Z.ltb_ge _ 128)), (proj2 (Z.ltb_ge kMaximumRecordBytes _)) by lia. cbn [orb negb Z.eqb].
  rewrite MaximumRawEncodedBytes_value in * by lia.
  rewrite (proj2 (Z.eqb_neq _ _)) by lia.
  set (n := capacity_records config) in *. set (e := 11 + 2 * maximum_record_bytes config) in *.
  assert (0 < e) as He by lia.
  rewrite (proj2 (div_guard n e He ltac:(lia))),
    (proj2 (div_guard n sizeof_metadata (proj1 Hsizeof) ltac:(lia))) by nia. cbn [orb].
  assert (0 <= n * e <= size_max /\ 0 <= n * sizeof_metadata <= size_max) as [H1 H2] by nia.
  assert (n * e + n * sizeof_metadata <= size_max) as H3 by lia.
  unfold size_max in *. rewrite (w64_small (n * e)), (w64_small (n * sizeof_metadata)) by lia.
  rewrite (w64_small (_ - _)) by lia. rewrite (proj2 (Z.ltb_ge _ _)) by lia.
  rewrite w64_small by lia. f_equal. lia.
Qed.

Lemma validate_rejects :
  ~ config_accepted sizeof_metadata config ->
  exists message, ValidateAndGetFixedBackingBytes sizeof_metadata config = inl message.
Proof.
  intros Hno. unfold ValidateAndGetFixedBackingBytes, ThrowInvalidConfiguration.
  destruct (_ =? 0) eqn:H0; [by eexists|]. b2p.
  destruct (_ || _) eqn:H1; [by eexists|]. rewrite !orb_false_iff, negb_false_iff in H1.
  destruct H1 as [[H1 H2] H3]. b2p.
  rewrite MaximumRawEncodedBytes_value in * by lia. set (n := capacity_records config) in *.
  set (e := 11 + 2 * maximum_record_bytes config) in *.
  assert (0 < e) as He by lia.
  destruct (_ || _) eqn:H4; [by eexists|]. rewrite !orb_false_iff in H4.
  destruct H4 as [[_ H4] H5]. apply (div_guard n e He ltac:(lia)) in H4.
  apply (div_guard n _ (proj1 Hsizeof) ltac:(lia)) in H5. assert (0 <= n * e /\ 0 <= n * sizeof_metadata) as [H6 H7] by nia.
  unfold size_max in *. rewrite (w64_small (n * e)), (w64_small (n * sizeof_metadata)) by lia.
  rewrite (w64_small (_ - _)) by lia.
  destruct (_ <? _) eqn:H8; [by eexists|]. b2p. exfalso. apply Hno.
  split_and!; try done; [lia..|]. rewrite MaximumRawEncodedBytes_value by lia. fold n e.
  unfold size_max. lia.
Qed.

(** The constructor accepts exactly the configurations whose bounds are in range
    and whose backing fits [std::size_t], and then reports that size without
    overflow; every other configuration is refused before anything is allocated. *)
Lemma ValidateAndGetFixedBackingBytes_exact bytes :
  ValidateAndGetFixedBackingBytes sizeof_metadata config = inr bytes <->
  config_accepted sizeof_metadata config
  /\ bytes = capacity_records config
       * (MaximumRawEncodedBytes (maximum_record_bytes config) + sizeof_metadata).
Proof.
  destruct (decide (config_accepted sizeof_metadata config)) as [Ha|Hn].
  - rewrite (validate_accepts Ha). split; [intros [= <-]; done|by intros [_ ->]].
  - destruct (validate_rejects Hn) as [m ->]. split; [done|by intros [? _]].
Qed.

Lemma dest_initial_inv state : MakeState sizeof_metadata config = inr state -> inv (initial_world state).
Proof.
  unfold MakeState. intros Hmake.
  destruct (decide (config_accepted sizeof_metadata config)) as [Ha|Hn].
  2: { destruct (validate_rejects Hn) as [m Hm]. by rewrite Hm in Hmake. }
  rewrite (validate_accepts Ha) in Hmake. injection Hmake as <-.
  destruct Ha as (Hc & Hm & _ & Hsize). pose proof (MaximumRawEncodedBytes_value (maximum_record_bytes config) ltac:(lia)) as He.
  assert (forall i s, replicate (Z.to_nat (capacity_records config)) empty_slot !! i = Some s ->
    s = empty_slot) as Hslots by (intros i s H; by apply lookup_replicate in H as [-> _]).
  assert (~ active empty_slot) as Hna by (intros [?|[]]; done).
  constructor; try done.
  - cbn. unfold zlen. rewrite !length_replicate, He in *. unfold kMaximumRecordBytes, size_max in *.
    rewrite w64_small by nia. nia.
  - apply NoDup_nil_2.
  - intros e []%elem_of_nil.
  - intros i s ->%Hslots. constructor; [done|by intros ?|done|by intros ?|by intros [?|[?|?]]].
  - intros i j si sj ->%Hslots ->%Hslots _ Hact. done.
  - apply NoDup_nil_2.
  - intros c []%elem_of_nil.
  - intros c []%elem_of_nil.
  - intros c []%elem_of_nil.
  - split; [apply NoDup_nil_2|]. intros q []%elem_of_nil.
  - split; [apply NoDup_nil_2|]. intros q []%elem_of_nil.
Qed.
End Config.

(** ** What the two sides observe *)

Section Reachable.
Context (double_text : Z -> list byte) (Hshort : forall bits, zlen (double_text bits) <= 24).
Context (sizeof_metadata : Z) (config : InMemoryEncodedDestinationConfig).
Context (Hsizeof : 0 < sizeof_metadata < 2 ^ 32).
Context (Hcapacity : 0 <= capacity_records config < 2 ^ 64).
Context (state : InMemoryEncodedDestinationState).
Context (Hmake : MakeState sizeof_metadata config = inr state).
Context (w : World) (Hreach : rtc (dest_step double_text) (initial_world state) w).

Lemma dest_reachable_inv : inv w.
Proof.
  eapply steps_preserve; [exact Hshort|exact Hreach|]. by eapply dest_initial_inv.
Qed.

Lemma held_slot c :
  c ∈ observed w -> exists s, slots (dest w) !! index c = Some s /\ slot_state s = kHeld
    /\ FindHeldSlot (dest w) c = Some s.
Proof.
  intros Hc. pose proof (i_observed _ dest_reachable_inv c Hc) as Hheld.
  destruct (slot_matches_held _ _ _ Hheld) as [H1 H2]. destruct Hheld as (s & Hi & Hs & _).
  exists s. split_and!; [done..|]. unfold FindHeldSlot. rewrite H1, H2. by rewrite (dest_slot_at_lookup _ _ _ Hi).
Qed.

(** C20: every handle the application holds shows exactly a frame the worker submitted,
    under its admission sequence, for as long as it holds it: the slot is not reused
    under an observation or a held delivery, even one the Runtime cancelled; and no
    record is observed twice. *)
Theorem handles_show_submitted_frames :
  (forall p, p ∈ pendings w -> (pending_sequence p, PendingBytes p (dest w)) ∈ log w)
  /\ (forall c, c ∈ observed w -> (AdmissionSequence c (dest w), Bytes c (dest w)) ∈ log w
        /\ AdmissionSequence c (dest w) ∈ taken w)
  /\ NoDup (taken w) /\ NoDup (log w).*1.
Proof.
  pose proof dest_reachable_inv as Hinv. split_and!.
  - intros p Hp. destruct (i_pendings _ Hinv p Hp) as (s & f & _ & _ & Hl & _ & _ & Hsl).
    unfold PendingBytes. by rewrite Hsl.
  - intros c Hc. destruct (held_slot c Hc) as (s & Hi & Hs & Hfind).
    destruct (i_slots _ Hinv _ _ Hi) as [_ _ so3 so4 _].
    assert (storing s) as Hst by (unfold storing; by rewrite Hs).
    destruct (so3 Hst) as (f & [Hf Hz] & Hsl). unfold AdmissionSequence, Bytes. rewrite Hfind, Hz, Hsl.
    split; [done|]. apply (so4 (storing_active _ Hst)). by left.
  - apply Hinv.
  - apply Hinv.
Qed.

(** C32: the worker retires a record at most once, with the size of its frame, and its
    outcome agrees with what the application sees: a delivered frame was taken or is
    ready to take, a failed one was not taken and no slot holds it. *)
Theorem retirements_agree_with_observations :
  NoDup (retired w).*1
  /\ forall sequence d, (sequence, d) ∈ retired w ->
     (exists f, (sequence, f) ∈ log w /\ retired_bytes d = zlen f)
     /\ match outcome d with
        | RouteTypes.kDelivered => sequence ∈ taken w \/ exists i s,
            slots (dest w) !! i = Some s /\ slot_state s = kReady /\ admission_sequence s = sequence
        | RouteTypes.kFailed => (sequence ∉ taken w) /\ forall i s,
            slots (dest w) !! i = Some s -> storing s -> admission_sequence s <> sequence
        end.
Proof.
  destruct (i_retired _ dest_reachable_inv) as [Hnd Hall]. split; [done|].
  intros sequence d Hin. exact (Hall (sequence, d) Hin).
Qed.

Lemma retire_unique st i s :
  slots st !! i = Some s -> delivery s = kDelivered \/ delivery s = kFailed ->
  (forall j x, slots st !! j = Some x -> j <> i -> active x ->
     admission_sequence x <> admission_sequence s) ->
  (TryRetire (admission_sequence s) st).1
  = Some {| outcome := if decide (delivery s = kDelivered) then RouteTypes.kDelivered
                       else RouteTypes.kFailed; retired_bytes := encoded_bytes s |}.
Proof.
  intros Hi Hd Hother. unfold TryRetire.
  assert (first_index (completed (admission_sequence s)) (slots st) = Some i) as ->.
  { apply first_index_Some. exists s. split_and!; [done|..].
    - unfold completed. rewrite Z.eqb_refl, andb_true_r. by destruct Hd as [H|H]; rewrite H.
    - intros j y Hj Hlt. unfold completed. apply not_true_is_false.
      intros [Hc Hq%Z.eqb_eq]%andb_true_iff. apply (Hother j y Hj); [lia| |done].
      left. apply orb_true_iff in Hc as [Hc%bool_decide_eq_true|Hc%bool_decide_eq_true]; by rewrite Hc. }
  by rewrite (dest_slot_at_lookup _ _ _ Hi).
Qed.

(** C33: completing or failing a held delivery takes effect exactly once: either the
    Runtime cancelled it by stopping and nothing changes, or the worker is woken and
    can retire exactly this outcome with the frame's size. *)
Theorem Finish_exact p delivered :
  p ∈ pendings w ->
  let '(status, st) := Finish (Some p) delivered (dest w) in
  match status with
  | kInvalidHandle => False
  | kDeliveryCancelled => stopped (dest w) = true /\ st = dest w
  | kCompleted =>
      notifications st = notifications (dest w) + (if wake (dest w) then 1 else 0)
      /\ (TryRetire (pending_sequence p) st).1
         = Some {| outcome := if delivered then RouteTypes.kDelivered else RouteTypes.kFailed;
                   retired_bytes := pending_size p |}
  end.
Proof.
  intros Hp. pose proof dest_reachable_inv as Hinv. set (i := index (pending_identity p)).
  destruct (i_pendings _ Hinv p Hp) as (s & f & Hi & Hor & Hl & _ & Hz & _). fold i in Hi.
  unfold Finish. fold i. unfold in_range, slot_matches. fold i.
  rewrite (proj2 (Nat.ltb_lt _ _)) by (by eapply lookup_lt_Some). cbn [negb].
  rewrite (dest_slot_at_lookup _ _ _ Hi). destruct Hor as [(Hs & Hg & Hq)|[Hs Hstop]].
  2: { rewrite bool_decide_eq_false_2 by congruence. done. }
  rewrite Hg, Z.eqb_refl, bool_decide_eq_true_2 by done. cbn [negb andb].
  set (decided := fun slot : EncodedSlotMetadata =>
    if delivered then slot <| slot_state := kReady |> <| delivery := kDelivered |>
    else slot <| slot_state := kFree |> <| delivery := kFailed |>).
  set (st := on_slot i decided (dest w)).
  assert (slots st = <[i := decided s]> (slots (dest w))) as Hset by (by apply dest_on_slot_slots).
  assert (storing s) as Hst by (unfold storing; by rewrite Hs).
  split.
  - unfold WakeRuntimeLocked. change (wake st) with (wake (dest w)). destruct (wake (dest w)); cbn; lia.
  - assert (TryRetire (pending_sequence p) (WakeRuntimeLocked st)
            = ((TryRetire (pending_sequence p) st).1,
               (TryRetire (pending_sequence p) (WakeRuntimeLocked st)).2)) as ->.
    { unfold WakeRuntimeLocked. destruct (wake st); [|by destruct (TryRetire _ st)].
      unfold TryRetire. cbn [slots modify]. by destruct (first_index _ _). }
    cbn [fst].
    assert (admission_sequence (decided s) = pending_sequence p) as Heq
      by (rewrite <- Hq; unfold decided; by destruct delivered).
    rewrite <- Heq, (retire_unique st i (decided s)).
    + f_equal. unfold decided. assert (encoded_bytes s = pending_size p) as <-; [|by destruct delivered].
      destruct (so_frame _ _ _ _ _ _ (i_slots _ Hinv i s Hi) (storing_active _ Hst)) as (g & Hg' & ->).
      rewrite Hz. f_equal. rewrite Hq in Hg'. pose proof (i_log _ Hinv) as Hnd.
      by eapply NoDup_fst_unique.
    + rewrite Hset, list_lookup_insert_eq; [done|by eapply lookup_lt_Some].
    + unfold decided. destruct delivered; auto.
    + intros j x Hj Hne Hx. rewrite Heq. rewrite Hset, list_lookup_insert_ne in Hj by done.
      rewrite <- Hq. by apply (i_distinct _ Hinv j i x s); [..|by right].
Qed.
End Reachable.

(** ** A run *)

Definition demo_config : InMemoryEncodedDestinationConfig :=
  {| capacity_records := 2; maximum_record_bytes := 128; start_paused := false |}.

Definition demo_state : InMemoryEncodedDestinationState :=
  match MakeState 32 demo_config with
  | inr state => state
  | inl _ => {| backing := []; slots := []; state_maximum_record_bytes := 0;
                maximum_encoded_record_bytes := 0; fixed_backing_bytes := 0; wake := false;
                notifications := 0; delivery_mode := kHold; runtime_attached := false;
                paused := false; stopped := false |}
  end.

Definition demo_claim : EncodedDestinationSlotIdentity := {| index := 0; identity_generation := 1 |}.

Definition demo_pending : PendingEncodedDelivery :=
  {| pending_identity := demo_claim; pending_sequence := 7; pending_offset := 0; pending_size := 23 |}.

(** Hold mode, attach, claim, store, take the delivery, complete it, take the frame,
    retire it. *)
Definition demo_held : InMemoryEncodedDestinationState :=
  (TryAttachRuntime true (SetDeliveryMode kHold demo_state)).2.
Definition demo_claimed : InMemoryEncodedDestinationState := (TryClaimWrite demo_held).2.
Definition demo_stored : InMemoryEncodedDestinationState :=
  (StoreRaw demo_double demo_claim 7 demo_view demo_claimed).2.
Definition demo_delivering : InMemoryEncodedDestinationState := (TryTakePendingDelivery demo_stored).2.
Definition demo_completed : InMemoryEncodedDestinationState :=
  (Finish (Some demo_pending) true demo_delivering).2.
Definition demo_taken : InMemoryEncodedDestinationState := (TryTake demo_completed).2.
Definition demo_retired : InMemoryEncodedDestinationState := (TryRetire 7 demo_taken).2.

Definition demo_outcome : DeliveryRetirement :=
  {| outcome := RouteTypes.kDelivered; retired_bytes := 23 |}.

Definition demo_world (state : InMemoryEncodedDestinationState) : World :=
  {| dest := state; claims := []; pendings := []; observed := []; log := [(7, demo_frame)];
     taken := []; retired := [] |}.

Lemma dest_step_to w w' w'' : dest_step demo_double w w' -> w' = w'' -> dest_step demo_double w w''.
Proof. by intros H <-. Qed.

Lemma demo_reach_delivering :
  rtc (dest_step demo_double) (initial_world demo_state)
    (demo_world demo_delivering <| pendings := [demo_pending] |>).
Proof.
  apply (rtc_l _ _ (initial_world (SetDeliveryMode kHold demo_state))).
  { eapply dest_step_to; [apply (step_plain _ _ (SetDeliveryMode kHold)); right; by exists kHold|done]. }
  apply (rtc_l _ _ (initial_world demo_held)).
  { eapply dest_step_to; [by apply (step_attach _ _ true true demo_held)|done]. }
  apply (rtc_l _ _ (initial_world demo_claimed <| claims := [demo_claim] |>)).
  { eapply dest_step_to; [apply (step_claim _ _ demo_claim demo_claimed); by vm_compute|done]. }
  apply (rtc_l _ _ (demo_world demo_stored)).
  { eapply dest_step_to.
    - apply (step_store _ _ [] demo_claim [] 7 demo_view demo_frame
        {| stored_encoded_bytes := 23; submitted := true |} demo_stored);
        [done|exact demo_line|constructor|by vm_compute].
    - by vm_compute. }
  apply rtc_once. eapply dest_step_to;
    [apply (step_take_pending _ _ demo_pending demo_delivering); by vm_compute|by vm_compute].
Qed.

Lemma dest_demo_reach_retired :
  rtc (dest_step demo_double) (initial_world demo_state)
    (demo_world demo_retired <| observed := [demo_claim] |> <| taken := [7] |>
       <| retired := [(7, demo_outcome)] |>).
Proof.
  etrans; [exact demo_reach_delivering|].
  apply (rtc_l _ _ (demo_world demo_completed)).
  { eapply dest_step_to; [apply (step_finish _ _ [] demo_pending [] true kCompleted demo_completed);
      [done|by vm_compute]|done]. }
  apply (rtc_l _ _ (demo_world demo_taken <| observed := [demo_claim] |> <| taken := [7] |>)).
  { eapply dest_step_to; [apply (step_take _ _ demo_claim demo_taken); by vm_compute|by vm_compute]. }
  apply rtc_once. eapply dest_step_to; [apply (step_retire _ _ 7 demo_outcome demo_retired);
    by vm_compute|done].
Qed.

Lemma ValidateAndGetFixedBackingBytes_exact_witness :
  ValidateAndGetFixedBackingBytes 32 demo_config = inr 598.
Proof.
  apply (ValidateAndGetFixedBackingBytes_exact 32 demo_config ltac:(lia) ltac:(by_compute)).
  split; by_compute.
Defined.

Lemma handles_show_submitted_frames_witness :
  let w := demo_world demo_retired <| observed := [demo_claim] |> <| taken := [7] |>
             <| retired := [(7, demo_outcome)] |> in
  (AdmissionSequence demo_claim (dest w), Bytes demo_claim (dest w)) ∈ log w.
Proof.
  cbv zeta. destruct (handles_show_submitted_frames demo_double ltac:(by_compute) 32 demo_config ltac:(lia)
    ltac:(by_compute) demo_state ltac:(by vm_compute) _ dest_demo_reach_retired) as (_ & H & _).
  apply H. left.
Defined.

Lemma retirements_agree_with_observations_witness :
  exists f, (7, f) ∈ [(7, demo_frame)] /\ 23 = zlen f.
Proof.
  destruct (retirements_agree_with_observations demo_double ltac:(by_compute) 32 demo_config
    ltac:(lia) ltac:(by_compute) demo_state ltac:(by vm_compute) _ dest_demo_reach_retired) as [_ H].
  exact (proj1 (H 7 demo_outcome ltac:(by left))).
Defined.

Lemma Finish_exact_witness :
  let w := demo_world demo_delivering <| pendings := [demo_pending] |> in
  demo_pending ∈ pendings w /\
  let '(status, st) := Finish (Some demo_pending) true (dest w) in
  match status with
  | kInvalidHandle => False
  | kDeliveryCancelled => stopped (dest w) = true /\ st = dest w
  | kCompleted =>
      notifications st = notifications (dest w) + (if wake (dest w) then 1 else 0)
      /\ (TryRetire (pending_sequence demo_pending) st).1
         = Some {| outcome := RouteTypes.kDelivered; retired_bytes := pending_size demo_pending |}
  end.
Proof.
  assert (demo_pending ∈ pendings (demo_world demo_delivering <| pendings := [demo_pending] |>)) as Hp
    by (by left).
  split; [exact Hp|].
  exact (Finish_exact demo_double ltac:(by_compute) 32 demo_config ltac:(lia)
    ltac:(by_compute) demo_state ltac:(by vm_compute) _ demo_reach_delivering demo_pending true Hp).
Defined.
