(* ===== verification/InMemoryDestination.v ===== *)
(** * The in-memory record destination ([src/testing/in_memory_destination.cpp])

    Bounded record slots shared by the Runtime worker, which claims and stores, and
    the application, which takes records and holds them. The state is the code's
    [InMemoryDestinationState]; claims and observations are values of the system
    state, so that [mem_step] interleaves both sides. Everything but the copy of the
    texts runs under the destination's mutex; the copy writes only the backing of a
    slot that the claim owns, so [Store] is one step. A handle that was moved from
    (a null [state_]) is no handle of the system state. *)
From S2P Require Import Prelude KernelTypes Utf8 RecordStorage RouteTypes RawEncoder.
From stdpp Require Import relations strings sorting.
#[local] Open Scope Z_scope.
#[local] Open Scope ulog_scope.

(** ** Slots *)

Inductive SlotState := kFree | kReserved | kReady | kHeld.

#[export] Instance SlotState_eq_dec : EqDecision SlotState.
Proof. solve_decision. Defined.

Record TextRange := { offset : Z; size : Z }.

Definition empty_range : TextRange := {| offset := 0; size := 0 |}.

Record SlotMetadata := {
  slot_state : SlotState;
  generation : Z;
  admission_sequence : Z;
  event_timestamp : Z;
  serialized_bytes : Z;
  accounting_charge_bytes : Z;
  slot_path : TextRange;
  slot_function : TextRange;
  slot_message : TextRange;
  source_line : Z;
  source_column : Z;
  level : Level;
  truncated : bool;
}.

#[export] Instance SlotMetadata_eta : Eta SlotMetadata := fun s =>
  {| slot_state := slot_state s; generation := generation s;
     admission_sequence := admission_sequence s; event_timestamp := event_timestamp s;
     serialized_bytes := serialized_bytes s; accounting_charge_bytes := accounting_charge_bytes s;
     slot_path := slot_path s; slot_function := slot_function s; slot_message := slot_message s;
     source_line := source_line s; source_column := source_column s; level := level s;
     truncated := truncated s |}.

Definition empty_slot : SlotMetadata :=
  {| slot_state := kFree; generation := 0; admission_sequence := 0; event_timestamp := 0;
     serialized_bytes := 0; accounting_charge_bytes := 0; slot_path := empty_range;
     slot_function := empty_range; slot_message := empty_range; source_line := 0;
     source_column := 0; level := kNone; truncated := false |}.

Record DestinationSlotIdentity := { index : nat; identity_generation : Z }.

Record InMemoryDestinationConfig := {
  capacity_records : Z;
  maximum_record_bytes : Z;
  start_paused : bool;
}.

(** ** Configuration *)

(** [std::invalid_argument] with its message. *)
Definition ThrowInvalidConfiguration (detail correction : string) : string + Z :=
  inl ("Invalid in-memory destination configuration: " +:+ detail +:+ " Set "
       +:+ correction +:+ ".")%string.

(** [sizeof_metadata] is [sizeof(SlotMetadata)]. *)
Definition ValidateAndGetFixedBackingBytes (sizeof_metadata : Z)
    (config : InMemoryDestinationConfig) : string + Z :=
  if capacity_records config =? 0
  then ThrowInvalidConfiguration "capacity_records must be greater than zero;"
         "capacity_records to at least 1"
  else
    let kMinimumRecordBytes := 128 in
    if (maximum_record_bytes config <? kMinimumRecordBytes)
       || (kMaximumRecordBytes <? maximum_record_bytes config)
       || negb (maximum_record_bytes config mod kAccountingQuantumBytes =? 0)
    then ThrowInvalidConfiguration
           "maximum_record_bytes must be a 64-byte multiple from 128 through 16384;"
           "maximum_record_bytes to the same supported bound used by Runtime"
    else
      let maximum_size := size_max in
      if (maximum_size / maximum_record_bytes config <? capacity_records config)
         || (maximum_size / sizeof_metadata <? capacity_records config)
      then ThrowInvalidConfiguration "the requested fixed backing size overflows size_t;"
             "capacity_records or maximum_record_bytes to a smaller value"
      else
        let record_backing_bytes := w64 (capacity_records config * maximum_record_bytes config) in
        let metadata_backing_bytes := w64 (capacity_records config * sizeof_metadata) in
        if (maximum_size -w record_backing_bytes) <? metadata_backing_bytes
        then ThrowInvalidConfiguration "the requested fixed backing size overflows size_t;"
               "capacity_records or maximum_record_bytes to a smaller value"
        else inr (record_backing_bytes +w metadata_backing_bytes).

(** ** The state *)

Record InMemoryDestinationState := {
  backing : list byte;
  slots : list SlotMetadata;
  state_maximum_record_bytes : Z;
  fixed_backing_bytes : Z;
  runtime_attached : bool;
  paused : bool;
  stopped : bool;
}.

#[export] Instance InMemoryDestinationState_eta : Eta InMemoryDestinationState := fun s =>
  {| backing := backing s; slots := slots s;
     state_maximum_record_bytes := state_maximum_record_bytes s;
     fixed_backing_bytes := fixed_backing_bytes s; runtime_attached := runtime_attached s;
     paused := paused s; stopped := stopped s |}.

Definition MakeState (sizeof_metadata : Z) (config : InMemoryDestinationConfig)
    : string + InMemoryDestinationState :=
  match ValidateAndGetFixedBackingBytes sizeof_metadata config with
  | inl text => inl text
  | inr validated_fixed_backing_bytes =>
      inr {| backing := replicate
               (Z.to_nat (w64 (capacity_records config * maximum_record_bytes config))) 0%Z;
             slots := replicate (Z.to_nat (capacity_records config)) empty_slot;
             state_maximum_record_bytes := maximum_record_bytes config;
             fixed_backing_bytes := validated_fixed_backing_bytes;
             runtime_attached := false; paused := start_paused config; stopped := false |}
  end.

(** The offset of [SlotBacking(slot_index)] in [backing]. *)
Definition SlotBacking (state : InMemoryDestinationState) (slot_index : nat) : Z :=
  Z.of_nat slot_index * state_maximum_record_bytes state.

Definition is_free (slot : SlotMetadata) : bool := bool_decide (slot_state slot = kFree).

Definition FindFreeSlot (state : InMemoryDestinationState) : option nat :=
  first_index is_free (slots state).

Definition slot_at (state : InMemoryDestinationState) (index : nat) : SlotMetadata :=
  default empty_slot (slots state !! index).

Definition on_slot (index : nat) (f : SlotMetadata -> SlotMetadata)
    (state : InMemoryDestinationState) : InMemoryDestinationState :=
  state <| slots ::= alter f index |>.

(** [identity.index < capacity_records] *)
Definition in_range (state : InMemoryDestinationState) (index : nat) : bool :=
  (index <? length (slots state))%nat.

Definition slot_matches (state : InMemoryDestinationState) (identity : DestinationSlotIdentity)
    (expected_state : SlotState) : bool :=
  let slot := slot_at state (index identity) in
  bool_decide (slot_state slot = expected_state)
  && (generation slot =? identity_generation identity).

Definition ReleaseSlotHandle (identity : DestinationSlotIdentity) (expected_state : SlotState)
    (state : InMemoryDestinationState) : InMemoryDestinationState :=
  if in_range state (index identity) && slot_matches state identity expected_state
  then on_slot (index identity) (fun slot => slot <| slot_state := kFree |>) state
  else state.

Definition FindHeldSlot (state : InMemoryDestinationState) (identity : DestinationSlotIdentity)
    : option SlotMetadata :=
  if in_range state (index identity) && slot_matches state identity kHeld
  then Some (slot_at state (index identity)) else None.

Definition StoredText (state : InMemoryDestinationState) (slot_index : nat) (range : TextRange)
    : list byte :=
  if negb (in_range state slot_index)
     || (state_maximum_record_bytes state <? offset range)
     || ((state_maximum_record_bytes state -w offset range) <? size range)
  then []
  else slice (SlotBacking state slot_index + offset range) (size range) (backing state).

(** ** Copying a record's texts *)

Record StoredTextLocation := { range : TextRange; complete : bool }.

(** The location, the new cursor, and the destination's bytes. *)
Definition CopyText (destination : list byte) (capacity cursor : Z) (source : list byte)
    : StoredTextLocation * Z * list byte :=
  let available := if cursor <=? capacity then capacity -w cursor else 0 in
  let stored_size := Z.min available (zlen source) in
  let destination :=
    if negb (stored_size =? 0)
    then blit cursor (take (Z.to_nat stored_size) source) destination else destination in
  ({| range := {| offset := w32 cursor; size := w32 stored_size |};
      complete := stored_size =? zlen source |},
   cursor +w stored_size, destination).

Definition IsUtf8Continuation (value : byte) : bool := Z.land value 0xC0 =? 0x80.

(** [while (prefix_size != 0U && IsUtf8Continuation(source[prefix_size])) --prefix_size;] *)
Fixpoint BackUp (source : list byte) (prefix_size : nat) : nat :=
  match prefix_size with
  | O => O
  | S n => if IsUtf8Continuation (nth prefix_size source 0) then BackUp source n else prefix_size
  end.

Definition CopyUtf8Text (destination : list byte) (capacity cursor : Z) (source : list byte)
    : StoredTextLocation * Z * list byte :=
  let available := if cursor <=? capacity then capacity -w cursor else 0 in
  let prefix_size := Z.min available (zlen source) in
  let prefix_size :=
    if prefix_size <? zlen source then Z.of_nat (BackUp source (Z.to_nat prefix_size))
    else prefix_size in
  let '(location, cursor, destination) :=
    CopyText destination capacity cursor (take (Z.to_nat prefix_size) source) in
  ({| range := range location; complete := prefix_size =? zlen source |}, cursor, destination).

(** ** The Runtime worker *)

(** [DestinationWriteClaim::Reset] *)
Definition Reset (identity : DestinationSlotIdentity) (state : InMemoryDestinationState)
    : InMemoryDestinationState := ReleaseSlotHandle identity kReserved state.

(** The assignments to the slot of a stored record. *)
Definition FillSlot (sequence : Z) (record : RecordView)
    (source_path_ source_function_ message_ : StoredTextLocation) (slot : SlotMetadata)
    : SlotMetadata :=
  {| slot_state := kReady;
     generation := generation slot;
     admission_sequence := sequence;
     event_timestamp := view_event_timestamp record;
     serialized_bytes := rv_serialized_bytes_ record;
     accounting_charge_bytes := rv_accounting_charge_bytes_ record;
     slot_path := range source_path_;
     slot_function := range source_function_;
     slot_message := range message_;
     source_line := view_source_line record;
     source_column := view_source_column record;
     level := view_level record;
     truncated := view_truncated record || negb (complete source_path_)
       || negb (complete source_function_) || negb (complete message_) |}.

(** [DestinationWriteClaim::Store] *)
Definition Store (identity : DestinationSlotIdentity) (sequence : Z) (record : RecordView)
    (state : InMemoryDestinationState) : InMemoryDestinationState :=
  if negb (in_range state (index identity)) then state
  else
    let base := SlotBacking state (index identity) in
    let maximum := state_maximum_record_bytes state in
    let destination := slice base maximum (backing state) in
    let '(source_path_, cursor, destination) :=
      CopyText destination maximum 0 (source_path record) in
    let '(source_function_, cursor, destination) :=
      CopyText destination maximum cursor (source_function record) in
    let '(message_, cursor, destination) :=
      CopyUtf8Text destination maximum cursor (message record) in
    let state := state <| backing ::= blit base destination |> in
    if slot_matches state identity kReserved
    then on_slot (index identity)
           (FillSlot sequence record source_path_ source_function_ message_) state
    else Reset identity state.

Definition TryAttachRuntime (state : InMemoryDestinationState) : bool * InMemoryDestinationState :=
  if stopped state then (false, state)
  else if runtime_attached state then (false, state)
  else
    let state := state <| runtime_attached := true |> in
    if stopped state then (false, state <| runtime_attached := false |>)
    else (true, state).

Definition DetachRuntime (state : InMemoryDestinationState) : InMemoryDestinationState :=
  state <| runtime_attached := false |>.

(** What [WaitForWrite] does when its bounded wait ends, with the predicate true or
    at the timeout. *)
Definition WaitForWrite (state : InMemoryDestinationState)
    : option DestinationSlotIdentity * InMemoryDestinationState :=
  if stopped state || paused state then (None, state)
  else
    match FindFreeSlot state with
    | None => (None, state)
    | Some slot_index =>
        let state := on_slot slot_index (fun slot =>
          slot <| generation ::= NextGeneration |> <| slot_state := kReserved |>) state in
        (Some {| index := slot_index; identity_generation := generation (slot_at state slot_index) |},
         state)
    end.

Definition Stop (state : InMemoryDestinationState) : InMemoryDestinationState :=
  state <| stopped := true |>.

Definition FixedBackingBytes (state : InMemoryDestinationState) : Z := fixed_backing_bytes state.

(** ** The application *)

(** [ObservedRecord]: its identity. *)
Definition ResetObserved (identity : DestinationSlotIdentity) (state : InMemoryDestinationState)
    : InMemoryDestinationState := ReleaseSlotHandle identity kHeld state.

Section Observation.
Context (identity : DestinationSlotIdentity) (state : InMemoryDestinationState).

(** [slot != nullptr ? read(slot) : absent] *)
Definition held_value {A} (read : SlotMetadata -> A) (absent : A) : A :=
  match FindHeldSlot state identity with Some slot => read slot | None => absent end.

Definition AdmissionSequence : Z := held_value admission_sequence 0.
Definition GetLevel : Level := held_value level kNone.
Definition EventTimestamp : Z := held_value event_timestamp 0.
Definition SourcePath : list byte :=
  held_value (fun slot => StoredText state (index identity) (slot_path slot)) [].
Definition SourceFunction : list byte :=
  held_value (fun slot => StoredText state (index identity) (slot_function slot)) [].
Definition SourceLine : Z := held_value source_line 0.
Definition SourceColumn : Z := held_value source_column 0.
Definition Message : list byte :=
  held_value (fun slot => StoredText state (index identity) (slot_message slot)) [].
Definition Truncated : bool := held_value truncated false.
Definition SerializedBytes : Z := held_value serialized_bytes 0.
Definition AccountingChargeBytes : Z := held_value accounting_charge_bytes 0.
End Observation.

(** The lowest admission sequence among the ready slots. *)
Definition is_ready (slot : SlotMetadata) : bool := bool_decide (slot_state slot = kReady).

Definition TryTake (state : InMemoryDestinationState)
    : option DestinationSlotIdentity * InMemoryDestinationState :=
  match lowest_index is_ready admission_sequence (slots state) with
  | None => (None, state)
  | Some selected =>
      let state := on_slot selected (fun slot => slot <| slot_state := kHeld |>) state in
      (Some {| index := selected; identity_generation := generation (slot_at state selected) |}, state)
  end.

Definition Resume (state : InMemoryDestinationState) : InMemoryDestinationState :=
  state <| paused := false |>.

Definition Capacity (state : InMemoryDestinationState) : Z := zlen (slots state).

Definition MaximumRecordBytes (state : InMemoryDestinationState) : Z :=
  state_maximum_record_bytes state.

(** ** The worker and the application *)

(** [log] lists the stored records in store order, [taken] the sequences the
    application took in the order it took them. *)
Record World := {
  dest : InMemoryDestinationState;
  claims : list DestinationSlotIdentity;
  observed : list DestinationSlotIdentity;
  log : list (Z * RecordView);
  taken : list Z;
}.

#[export] Instance World_eta : Eta World := fun w =>
  {| dest := dest w; claims := claims w; observed := observed w; log := log w; taken := taken w |}.

Definition initial_world (state : InMemoryDestinationState) : World :=
  {| dest := state; claims := []; observed := []; log := []; taken := [] |}.

(** The worker stores in the order of the admission sequences. *)
Inductive mem_step : World -> World -> Prop :=
  | step_attach w b state :
      TryAttachRuntime (dest w) = (b, state) -> mem_step w (w <| dest := state |>)
  | step_plain w f :
      f ∈ [DetachRuntime; Stop; Resume] -> mem_step w (w <| dest ::= f |>)
  | step_claim w identity state :
      WaitForWrite (dest w) = (Some identity, state) ->
      mem_step w (w <| dest := state |> <| claims ::= cons identity |>)
  | step_store w before identity after sequence view :
      claims w = before ++ identity :: after ->
      Forall (fun entry => entry.1 < sequence) (log w) ->
      mem_step w
        (w <| dest ::= Store identity sequence view |> <| claims := before ++ after |>
           <| log ::= fun l => l ++ [(sequence, view)] |>)
  | step_release w before identity after :
      claims w = before ++ identity :: after ->
      mem_step w (w <| dest ::= Reset identity |> <| claims := before ++ after |>)
  | step_take w identity state :
      TryTake (dest w) = (Some identity, state) ->
      mem_step w
        (w <| dest := state |> <| observed ::= cons identity |>
           <| taken := taken w ++ [AdmissionSequence identity state] |>)
  | step_drop w before identity after :
      observed w = before ++ identity :: after ->
      mem_step w (w <| dest ::= ResetObserved identity |> <| observed := before ++ after |>).

(** ** Cutting a text at a character boundary *)

Lemma continuation_byte b : 0 <= b < 256 -> IsUtf8Continuation b = true <-> 0x80 <= b <= 0xBF.
Proof. apply IsContinuationByte_spec. Qed.

(** The first byte of a character is no continuation, the others are. *)
Lemma char_continuations c k b :
  utf8_char c -> c !! k = Some b -> IsUtf8Continuation b = bool_decide (0 < k)%nat.
Proof.
  intros Hc Hk.
  assert (0 <= b < 256 /\ (0x80 <= b <= 0xBF <-> (0 < k)%nat)) as [Hb Hiff].
  { destruct Hc; destruct k as [|[|[|[|k]]]]; simplify_eq/=; lia. }
  pose proof (continuation_byte b Hb) as Hi.
  case_bool_decide; destruct (IsUtf8Continuation b); [done|..|done].
  - by apply Hi, Hiff.
  - exfalso. apply H. apply Hiff. by apply Hi.
Qed.

Lemma utf8_cons_inv c rest : utf8_char c -> utf8 (c ++ rest) <-> utf8 rest.
Proof.
  intros Hc. split; [|by constructor]. intros Hu. inversion Hu as [Hnil|c' rest' Hc' Hrest Heq].
  - apply utf8_char_nonempty in Hc. symmetry in Hnil. apply app_eq_nil in Hnil as [-> _]. done.
  - by destruct (utf8_char_prefix _ _ _ _ Hc' Hc Heq) as [_ <-].
Qed.

(** A prefix is well formed exactly when it ends where a character starts. *)
Lemma utf8_boundary text k :
  utf8 text -> (k <= length text)%nat ->
  utf8 (take k text) <-> k = length text \/ IsUtf8Continuation (nth k text 0) = false.
Proof.
  intros Hu. revert k. induction Hu as [|c rest Hc Hu IH]; intros k Hk.
  { simpl in Hk. assert (k = 0%nat) as -> by lia. split; [by left|constructor]. }
  pose proof (utf8_char_nonempty c Hc) as Hne. unfold zlen in Hne.
  rewrite length_app in Hk |- *. destruct (decide (k < length c)%nat) as [Hlt|Hge].
  - rewrite take_app_le, app_nth1 by lia.
    destruct (lookup_lt_is_Some_2 c k Hlt) as [b Hb].
    rewrite (nth_lookup_Some _ _ _ _ Hb), (char_continuations c k b Hc Hb).
    destruct k as [|k]; [split; [by right|intros _; constructor]|].
    rewrite bool_decide_eq_true_2 by lia. split; [|intros [?|?]; [lia|done]].
    intros Hut. exfalso. inversion Hut as [Hnil|c' rest' Hc' _ Heq].
    + destruct c; [simpl in Hlt; lia|done].
    + assert (c' ++ (rest' ++ drop (S k) c) = c ++ []) as Hsame
        by (by rewrite app_assoc, Heq, take_drop, app_nil_r).
      destruct (utf8_char_prefix _ _ _ _ Hc' Hc Hsame) as [-> _].
      apply (f_equal length) in Heq. rewrite length_app, length_take in Heq. lia.
  - rewrite take_app_ge, app_nth2 by lia. rewrite utf8_cons_inv by done.
    rewrite IH by lia. split; (intros [?|?]; [left; lia|by right]).
Qed.

Lemma BackUp_spec source n :
  let k := BackUp source n in
  (k <= n)%nat /\ (k = 0%nat \/ IsUtf8Continuation (nth k source 0) = false)
  /\ forall j, (k < j <= n)%nat -> IsUtf8Continuation (nth j source 0) = true.
Proof.
  cbv zeta. induction n as [|n (IH1 & IH2 & IH3)]; [split_and!; [done|by left|lia]|].
  cbn [BackUp]. destruct (IsUtf8Continuation (nth (S n) source 0)) eqn:Hc.
  - split_and!; [lia|done|]. intros j Hj. destruct (decide (j = S n)) as [->|]; [done|].
    apply IH3. lia.
  - split_and!; [lia|by right|lia].
Qed.

(** The number of bytes of [source] that [CopyUtf8Text] keeps in [room] bytes. *)
Definition utf8_cut (room : Z) (source : list byte) : Z :=
  let prefix_size := Z.min room (zlen source) in
  if prefix_size <? zlen source then Z.of_nat (BackUp source (Z.to_nat prefix_size))
  else prefix_size.

Lemma utf8_cut_bounds room source :
  0 <= room -> 0 <= utf8_cut room source <= Z.min room (zlen source).
Proof.
  intros Hr. unfold utf8_cut. pose proof (zlen_nonneg source).
  destruct (Z.ltb_spec (Z.min room (zlen source)) (zlen source)); [|lia].
  destruct (BackUp_spec source (Z.to_nat (Z.min room (zlen source)))) as (? & _). lia.
Qed.

Lemma prefix_of_take {A} (u l : list A) k :
  u `prefix_of` l -> (length u <= k)%nat -> u `prefix_of` take k l.
Proof. intros [rest ->] Hk. rewrite take_app_ge by done. by apply prefix_app_r. Qed.

(** What is kept of a well-formed text is its longest well-formed prefix in the room. *)
Lemma utf8_cut_longest room source :
  utf8 source -> 0 <= room ->
  let kept := take (Z.to_nat (utf8_cut room source)) source in
  utf8 kept /\ forall u, utf8 u -> u `prefix_of` source -> zlen u <= room -> u `prefix_of` kept.
Proof.
  intros Hu Hr. cbv zeta. unfold utf8_cut. pose proof (zlen_nonneg source).
  destruct (Z.ltb_spec (Z.min room (zlen source)) (zlen source)) as [Hlt|Hge].
  - set (n := Z.to_nat (Z.min room (zlen source))).
    destruct (BackUp_spec source n) as (Hle & Hb & Hmax). rewrite Nat2Z.id.
    assert (n < length source)%nat as Hn by (unfold n, zlen in *; lia).
    split; [destruct Hb as [->|Hb]; [constructor|apply utf8_boundary; [done|lia|by right]]|].
    intros u Hut Hp Hfit. apply prefix_of_take; [done|].
    destruct (decide (length u <= BackUp source n)%nat); [done|]. exfalso.
    pose proof (prefix_length _ _ Hp).
    assert (IsUtf8Continuation (nth (length u) source 0) = true) as Hc
      by (apply Hmax; unfold n, zlen in *; lia).
    assert (utf8 (take (length u) source)) as Htake.
    { destruct Hp as [rest ->]. by rewrite take_app_length. }
    apply utf8_boundary in Htake as [?|?]; [unfold n, zlen in *; lia|congruence|done|lia].
  - assert (take (Z.to_nat (Z.min room (zlen source))) source = source) as ->
      by (apply take_ge; unfold zlen in *; lia).
    split; [done|]. intros u _ Hp _. done.
Qed.

(** ** The texts a slot keeps *)

Section Kept.
Context (capacity : Z) (view : RecordView).

Definition kept_path : list byte := take (Z.to_nat capacity) (source_path view).
Definition kept_function : list byte :=
  take (Z.to_nat (capacity - zlen kept_path)) (source_function view).
Definition kept_message : list byte :=
  take (Z.to_nat (utf8_cut (capacity - zlen kept_path - zlen kept_function) (message view)))
    (message view).
Definition kept_bytes : list byte := kept_path ++ kept_function ++ kept_message.
(** The mark of the record, or of a text that was cut here. *)
Definition kept_truncated : bool :=
  view_truncated view || negb (zlen kept_path =? zlen (source_path view))
  || negb (zlen kept_function =? zlen (source_function view))
  || negb (zlen kept_message =? zlen (message view)).
End Kept.

Lemma CopyText_eq mem capacity cursor source :
  0 <= cursor <= capacity -> capacity <= kMaximumRecordBytes ->
  let kept := take (Z.to_nat (capacity - cursor)) source in
  CopyText mem capacity cursor source
  = ({| range := {| offset := cursor; size := zlen kept |}; complete := zlen kept =? zlen source |},
     cursor + zlen kept, blit cursor kept mem).
Proof.
  intros Hc Hm. cbv zeta. unfold kMaximumRecordBytes in Hm. unfold CopyText.
  pose proof (zlen_nonneg source). rewrite (proj2 (Z.leb_le _ _)) by lia. rewrite w64_small by lia.
  assert (zlen (take (Z.to_nat (capacity - cursor)) source) = Z.min (capacity - cursor) (zlen source)) as ->
    by (unfold zlen; rewrite length_take; lia).
  assert (take (Z.to_nat (Z.min (capacity - cursor) (zlen source))) source
          = take (Z.to_nat (capacity - cursor)) source) as Htake.
  { destruct (Z.min_spec (capacity - cursor) (zlen source)) as [[_ ->]|[? ->]]; [done|].
    rewrite !take_ge by (unfold zlen in *; lia). done. }
  rewrite Htake, !w32_small, w64_small by lia.
  destruct (Z.eqb_spec (Z.min (capacity - cursor) (zlen source)) 0) as [Hz|Hz]; cbn [negb]; [|done].
  assert (take (Z.to_nat (capacity - cursor)) source = []) as ->.
  { apply zlen_nil. unfold zlen in *. rewrite length_take. lia. }
  by rewrite blit_nil.
Qed.

Lemma zlen_cut room source : 0 <= room -> zlen (take (Z.to_nat (utf8_cut room source)) source) = utf8_cut room source.
Proof.
  intros Hr. pose proof (utf8_cut_bounds room source Hr). unfold zlen in *. rewrite length_take. lia.
Qed.

Lemma CopyUtf8Text_eq mem capacity cursor source :
  0 <= cursor <= capacity -> capacity <= kMaximumRecordBytes ->
  let kept := take (Z.to_nat (utf8_cut (capacity - cursor) source)) source in
  CopyUtf8Text mem capacity cursor source
  = ({| range := {| offset := cursor; size := zlen kept |}; complete := zlen kept =? zlen source |},
     cursor + zlen kept, blit cursor kept mem).
Proof.
  intros Hc Hm. cbv zeta. unfold CopyUtf8Text.
  rewrite (proj2 (Z.leb_le _ _)), w64_small by (unfold kMaximumRecordBytes in *; lia).
  change (if Z.min (capacity - cursor) (zlen source) <? zlen source then _ else _)
    with (utf8_cut (capacity - cursor) source).
  pose proof (utf8_cut_bounds (capacity - cursor) source ltac:(lia)).
  rewrite CopyText_eq by done. rewrite zlen_cut by lia.
  assert (take (Z.to_nat (capacity - cursor)) (take (Z.to_nat (utf8_cut (capacity - cursor) source)) source)
    = take (Z.to_nat (utf8_cut (capacity - cursor) source)) source) as ->.
  { apply take_ge. rewrite length_take. lia. }
  by rewrite zlen_cut by lia.
Qed.

Lemma kept_sizes capacity view :
  0 <= capacity ->
  zlen (kept_path capacity view) <= capacity
  /\ zlen (kept_path capacity view) + zlen (kept_function capacity view) <= capacity
  /\ zlen (kept_bytes capacity view) <= capacity.
Proof.
  intros Hc. unfold kept_bytes. rewrite !zlen_app.
  assert (zlen (kept_path capacity view) <= capacity) as H1
    by (unfold kept_path, zlen; rewrite length_take; lia).
  assert (zlen (kept_path capacity view) + zlen (kept_function capacity view) <= capacity) as H2
    by (unfold kept_function, zlen in *; rewrite length_take; lia).
  split_and!; [done..|]. unfold kept_message. rewrite zlen_cut by lia.
  match goal with |- context [utf8_cut ?r ?s] => pose proof (utf8_cut_bounds r s ltac:(lia)) end. lia.
Qed.

(** Writing a region back after changing its head changes the head. *)
Lemma blit_region_head base n k mem :
  0 <= base -> base + n <= zlen mem -> zlen k <= n ->
  blit base (blit 0 k (slice base n mem)) mem = blit base k mem.
Proof.
  intros Hb Hn Hk. pose proof (zlen_nonneg k).
  assert (blit 0 k (slice base n mem) = k ++ slice (base + zlen k) (n - zlen k) mem) as ->.
  { unfold blit. change (Z.to_nat 0) with 0%nat. rewrite take_0. cbn [app Nat.add]. f_equal.
    unfold slice.
    rewrite skipn_firstn_comm, drop_drop. unfold zlen in *. f_equal; [lia|]. f_equal. lia. }
  rewrite <- blit_join_right by (rewrite ?zlen_slice by lia; lia).
  rewrite <- (slice_blit_other base k mem) by lia. apply blit_slice_self; lia.
Qed.

Lemma blit_join_start a b mem :
  zlen a + zlen b <= zlen mem -> blit (zlen a) b (blit 0 a mem) = blit 0 (a ++ b) mem.
Proof. intros H. apply (blit_join_right 0 a b mem); lia. Qed.

(** The slot of a stored record. *)
Definition filled (capacity sequence : Z) (view : RecordView) (slot : SlotMetadata) : SlotMetadata :=
  let location (at_ : Z) (kept text : list byte) :=
    {| range := {| offset := at_; size := zlen kept |}; complete := zlen kept =? zlen text |} in
  FillSlot sequence view (location 0 (kept_path capacity view) (source_path view))
    (location (zlen (kept_path capacity view)) (kept_function capacity view) (source_function view))
    (location (zlen (kept_path capacity view) + zlen (kept_function capacity view))
       (kept_message capacity view) (message view)) slot.

Lemma FillSlot_again sequence view a b c slot :
  let slot' := FillSlot sequence view a b c slot in
  FillSlot (admission_sequence slot') view a b c slot' = slot' <| slot_state := kReady |>.
Proof. reflexivity. Qed.

Lemma Store_eq state c sequence view :
  in_range state (index c) = true -> slot_matches state c kReserved = true ->
  let base := SlotBacking state (index c) in
  let maximum := state_maximum_record_bytes state in
  0 <= base -> base + maximum <= zlen (backing state) -> 0 <= maximum <= kMaximumRecordBytes ->
  Store c sequence view state
  = on_slot (index c) (filled maximum sequence view)
      (state <| backing ::= blit base (kept_bytes maximum view) |>).
Proof.
  intros Hr Hm base maximum Hb Hbm Hmax. unfold Store. rewrite Hr. cbn [negb].
  fold base maximum. destruct (kept_sizes maximum view ltac:(lia)) as (H1 & H2 & H3).
  pose proof (zlen_nonneg (kept_path maximum view)). pose proof (zlen_nonneg (kept_function maximum view)).
  rewrite CopyText_eq by lia. rewrite Z.sub_0_r. fold (kept_path maximum view).
  rewrite CopyText_eq by lia. rewrite Z.add_0_l. fold (kept_function maximum view).
  rewrite CopyUtf8Text_eq by lia. rewrite Z.sub_add_distr. fold (kept_message maximum view).
  assert (forall g, slot_matches (state <| backing ::= g |>) c kReserved = true) as Hm' by (intros; exact Hm).
  rewrite Hm'. unfold kept_bytes in *. rewrite !zlen_app in H3.
  pose proof (zlen_nonneg (kept_message maximum view)).
  pose proof (zlen_slice base maximum (backing state) ltac:(lia) ltac:(lia) ltac:(lia)) as Hz.
  rewrite blit_join_start by lia. rewrite <- zlen_app.
  rewrite blit_join_start by (rewrite zlen_app; lia). rewrite <- app_assoc.
  unfold modify. rewrite blit_region_head by (rewrite ?zlen_app; lia).
  unfold filled. by rewrite zlen_app.
Qed.

(** ** The invariant *)

Definition storing (slot : SlotMetadata) : Prop :=
  slot_state slot = kReady \/ slot_state slot = kHeld.

(** [slot] describes [view], and the slot's backing starts with the texts kept of it. *)
Definition shows (state : InMemoryDestinationState) (i : nat) (slot : SlotMetadata)
    (view : RecordView) : Prop :=
  let maximum := state_maximum_record_bytes state in
  filled maximum (admission_sequence slot) view slot = slot <| slot_state := kReady |>
  /\ slice (SlotBacking state i) (zlen (kept_bytes maximum view)) (backing state)
     = kept_bytes maximum view.

Definition held_in (state : InMemoryDestinationState) (wanted : SlotState)
    (c : DestinationSlotIdentity) : Prop :=
  exists slot, slots state !! index c = Some slot /\ slot_state slot = wanted
    /\ generation slot = identity_generation c.

(** [q] waits in a ready slot. *)
Definition waiting (state : InMemoryDestinationState) (q : Z) : Prop :=
  exists i slot, slots state !! i = Some slot /\ slot_state slot = kReady
    /\ admission_sequence slot = q.

Definition handles (w : World) : list nat := index <$> claims w ++ observed w.

(** The stored sequences are the taken ones followed by the waiting ones. *)
Definition queue_ok (w : World) : Prop :=
  exists remaining, (log w).*1 = taken w ++ remaining
    /\ forall q, q ∈ remaining <-> waiting (dest w) q.

Record inv (w : World) : Prop := {
  i_mem : 0 <= state_maximum_record_bytes (dest w) <= kMaximumRecordBytes
    /\ zlen (backing (dest w)) = zlen (slots (dest w)) * state_maximum_record_bytes (dest w);
  i_slots : forall i slot, slots (dest w) !! i = Some slot -> storing slot ->
    exists view, (admission_sequence slot, view) ∈ log w /\ shows (dest w) i slot view;
  i_distinct : forall i j si sj, slots (dest w) !! i = Some si -> slots (dest w) !! j = Some sj ->
    slot_state si = kReady -> slot_state sj = kReady ->
    admission_sequence si = admission_sequence sj -> i = j;
  i_held : forall i slot, slots (dest w) !! i = Some slot -> slot_state slot = kHeld ->
    admission_sequence slot ∈ taken w;
  i_handles : NoDup (handles w);
  i_claims : forall c, c ∈ claims w -> held_in (dest w) kReserved c;
  i_observed : forall c, c ∈ observed w -> held_in (dest w) kHeld c;
  i_sorted : StronglySorted Z.lt (log w).*1;
  i_queue : queue_ok w;
}.

(** ** Lemmas: one slot changes *)

Lemma mem_slot_at_lookup state i slot : slots state !! i = Some slot -> slot_at state i = slot.
Proof. unfold slot_at. by intros ->. Qed.

Lemma mem_on_slot_slots state i slot f :
  slots state !! i = Some slot -> slots (on_slot i f state) = <[i := f slot]> (slots state).
Proof. intros H. apply (alter_as_insert f _ _ _ H). Qed.

Section SlotChange.
Context (w w' : World) (i : nat) (s s' : SlotMetadata).
Context (Hinv : inv w) (Hi : slots (dest w) !! i = Some s).
Context (Hs : slots (dest w') = <[i := s']> (slots (dest w))).
Context (Hback : backing (dest w') = backing (dest w)).
Context (Hmax : state_maximum_record_bytes (dest w') = state_maximum_record_bytes (dest w)).
Context (Hlog : log w' = log w).
Context (Hready : slot_state s' <> kReady).
Context (Hstoring : storing s' -> storing s /\ s' = s <| slot_state := slot_state s' |>).
Context (Hheld : slot_state s' = kHeld -> admission_sequence s' ∈ taken w').
Context (Htaken : taken w ⊆ taken w').
Context (Hhandles : NoDup (handles w')).
Context (Hclaims : forall c, c ∈ claims w' ->
  c ∈ claims w /\ index c <> i \/ held_in (dest w') kReserved c).
Context (Hobserved : forall c, c ∈ observed w' ->
  c ∈ observed w /\ index c <> i \/ held_in (dest w') kHeld c).
Context (Hqueue : queue_ok w').

Lemma mem_update_lookup j x :
  slots (dest w') !! j = Some x -> j = i /\ x = s' \/ j <> i /\ slots (dest w) !! j = Some x.
Proof.
  rewrite Hs. intros H. apply list_lookup_insert_Some in H as [(<- & <- & _)|[? H]]; auto.
Qed.

Lemma mem_update_held wanted c :
  index c <> i -> held_in (dest w) wanted c -> held_in (dest w') wanted c.
Proof. intros Hne (x & Hx & ?). exists x. split; [by rewrite Hs, list_lookup_insert_ne|done]. Qed.

Lemma mem_update_shows j x view : shows (dest w) j x view -> shows (dest w') j x view.
Proof. unfold shows, SlotBacking. by rewrite Hback, Hmax. Qed.

Lemma slot_change_inv : inv w'.
Proof.
  constructor; rewrite ?Hback, ?Hmax, ?Hlog; try done.
  - unfold zlen. rewrite Hs, length_insert. apply Hinv.
  - intros j x Hj Hx. destruct (mem_update_lookup j x Hj) as [[-> ->]|[_ Hj']].
    + destruct (Hstoring Hx) as [Hst Heq].
      destruct (i_slots _ Hinv i s Hi Hst) as (view & Hl & Hsh1 & Hsh2). exists view.
      rewrite Heq. split; [exact Hl|]. apply mem_update_shows. split; [|exact Hsh2].
      apply (f_equal (fun x => x <| slot_state := kReady |>)) in Hsh1. exact Hsh1.
    + destruct (i_slots _ Hinv j x Hj' Hx) as (view & ? & ?). exists view.
      split; [done|by apply mem_update_shows].
  - intros j k x y Hj Hk Hx Hy.
    destruct (mem_update_lookup j x Hj) as [[-> ->]|[_ Hj']]; [done|].
    destruct (mem_update_lookup k y Hk) as [[-> ->]|[_ Hk']]; [done|].
    by apply (i_distinct _ Hinv j k).
  - intros j x Hj Hx. destruct (mem_update_lookup j x Hj) as [[-> ->]|[_ Hj']]; [auto|].
    by eapply Htaken, i_held.
  - intros c Hc. destruct (Hclaims c Hc) as [[Hin Hne]|?]; [|done].
    apply mem_update_held; [done|]. by apply Hinv.
  - intros c Hc. destruct (Hobserved c Hc) as [[Hin Hne]|?]; [|done].
    apply mem_update_held; [done|]. by apply Hinv.
  - apply Hinv.
Qed.

(** Nothing is taken, and the slot was not ready. *)
Lemma queue_same : slot_state s <> kReady -> taken w' = taken w -> queue_ok w'.
Proof.
  intros Hns Ht. destruct (i_queue _ Hinv) as (rem & Heq & Hrem). exists rem.
  rewrite Hlog, Ht. split; [done|]. intros q. rewrite Hrem. split.
  - intros (j & x & Hj & Hx & Hq). exists j, x. split; [|done].
    rewrite Hs, list_lookup_insert_ne; [done|]. intros <-. congruence.
  - intros (j & x & Hj & Hx & Hq).
    destruct (mem_update_lookup j x Hj) as [[-> ->]|[_ Hj']]; [done|by exists j, x].
Qed.
End SlotChange.

Lemma mem_flags_inv w w' :
  slots (dest w') = slots (dest w) -> backing (dest w') = backing (dest w) ->
  state_maximum_record_bytes (dest w') = state_maximum_record_bytes (dest w) ->
  claims w' = claims w -> observed w' = observed w -> log w' = log w -> taken w' = taken w ->
  inv w -> inv w'.
Proof.
  intros Hs Hb Hm H1 H2 H3 H4 [].
  constructor; unfold handles, held_in, queue_ok, waiting, shows, SlotBacking in *;
    rewrite ?H1, ?H2, ?H3, ?H4, ?Hs, ?Hb, ?Hm; done.
Qed.

(** ** Lemmas: handles *)

Lemma handle_state w i s :
  inv w -> slots (dest w) !! i = Some s -> i ∈ handles w ->
  slot_state s = kReserved \/ slot_state s = kHeld.
Proof.
  intros Hinv Hi. unfold handles. rewrite fmap_app, elem_of_app, !list_elem_of_fmap.
  intros [(c & -> & Hc)|(c & -> & Hc)].
  - destruct (i_claims _ Hinv c Hc) as (x & Hx & Hst & _). simplify_eq. by left.
  - destruct (i_observed _ Hinv c Hc) as (x & Hx & Hst & _). simplify_eq. by right.
Qed.

Lemma mem_in_handles w c : c ∈ claims w \/ c ∈ observed w -> index c ∈ handles w.
Proof.
  intros H. unfold handles. rewrite fmap_app, elem_of_app.
  destruct H; [left|right]; by apply list_elem_of_fmap_2.
Qed.

(** A handle that leaves the system keeps the others apart from its slot. *)
Lemma dropped_handle w w' i :
  handles w ≡ₚ i :: handles w' -> NoDup (handles w) -> NoDup (handles w') /\ i ∉ handles w'.
Proof. intros ->. rewrite list.NoDup_cons. by intros [? ?]. Qed.

Lemma dropped_claim w w' before c after :
  claims w = before ++ c :: after -> claims w' = before ++ after -> observed w' = observed w ->
  handles w ≡ₚ index c :: handles w'.
Proof.
  intros H1 H2 H3. unfold handles. rewrite H1, H2, H3, !fmap_app, fmap_cons.
  by rewrite <- Permutation_middle.
Qed.

Lemma dropped_observed w w' before c after :
  observed w = before ++ c :: after -> observed w' = before ++ after -> claims w' = claims w ->
  handles w ≡ₚ index c :: handles w'.
Proof.
  intros H1 H2 H3. unfold handles. rewrite H1, H2, H3, !fmap_app, fmap_cons.
  rewrite !app_assoc. by rewrite <- Permutation_middle.
Qed.

Lemma held_matches state wanted c :
  held_in state wanted c -> in_range state (index c) = true /\ slot_matches state c wanted = true.
Proof.
  intros (slot & Hi & Hs & Hg). unfold in_range, slot_matches.
  rewrite (proj2 (Nat.ltb_lt _ _)) by (by eapply lookup_lt_Some).
  rewrite (mem_slot_at_lookup _ _ _ Hi), Hg, Z.eqb_refl. by rewrite bool_decide_eq_true_2.
Qed.

(** ** The steps preserve the invariant *)

Lemma mem_claim_inv w identity state :
  WaitForWrite (dest w) = (Some identity, state) -> inv w ->
  inv (w <| dest := state |> <| claims ::= cons identity |>).
Proof.
  intros Htry Hinv. unfold WaitForWrite, FindFreeSlot in Htry.
  destruct (_ || _); [done|].
  destruct (first_index _ _) as [i|] eqn:Hfirst; [|done].
  apply first_index_Some in Hfirst as (s & Hi & Hfree%bool_decide_eq_true & _). revert Htry.
  set (claim_slot := fun slot : SlotMetadata =>
    slot <| generation ::= NextGeneration |> <| slot_state := kReserved |>).
  set (st := on_slot i claim_slot (dest w)). set (s' := claim_slot s).
  assert (slots st = <[i := s']> (slots (dest w))) as Hset by (by apply mem_on_slot_slots).
  assert (slots st !! i = Some s') as Hi'.
  { rewrite Hset, list_lookup_insert_eq; [done|by eapply lookup_lt_Some]. }
  rewrite (mem_slot_at_lookup _ _ _ Hi'). intros [= <- <-].
  assert (i ∉ handles w) as Hfresh.
  { intros Hin. destruct (handle_state w i s Hinv Hi Hin); congruence. }
  assert (forall c, c ∈ claims w \/ c ∈ observed w -> index c <> i) as Hkeep
    by (intros c Hc <-; by apply Hfresh, mem_in_handles).
  apply (slot_change_inv w _ i s s'); try done.
  - intros [?|?]; done.
  - unfold handles. cbn [claims observed app]. apply list.NoDup_cons. split; [exact Hfresh|apply Hinv].
  - intros c [->|Hc]%elem_of_cons; [right; by exists s'|left; auto].
  - intros c Hc. left. auto.
  - apply (queue_same w _ i s s'); try done. congruence.
Qed.

(** A claim or an observation is dropped. *)
Lemma mem_release_inv w w' c wanted :
  inv w -> held_in (dest w) wanted c -> wanted <> kReady ->
  handles w ≡ₚ index c :: handles w' ->
  dest w' = ReleaseSlotHandle c wanted (dest w) ->
  claims w' ⊆ claims w -> observed w' ⊆ observed w -> log w' = log w -> taken w' = taken w ->
  inv w'.
Proof.
  intros Hinv Hheld Hw Hperm Hdest Hc Ho Hl Ht.
  destruct (held_matches _ _ _ Hheld) as [Hr Hm]. unfold ReleaseSlotHandle in Hdest.
  rewrite Hr, Hm in Hdest. cbn [andb] in Hdest. destruct Hheld as (s & Hi & Hs & Hg).
  destruct (dropped_handle _ _ _ Hperm (i_handles _ Hinv)) as [Hnd Hni].
  set (free := fun slot : SlotMetadata => slot <| slot_state := kFree |>) in Hdest.
  set (s' := free s).
  assert (slots (dest w') = <[index c := s']> (slots (dest w))) as Hset
    by (rewrite Hdest; by apply mem_on_slot_slots).
  assert (backing (dest w') = backing (dest w)) as Hb by (by rewrite Hdest).
  assert (state_maximum_record_bytes (dest w') = state_maximum_record_bytes (dest w)) as Hmx
    by (by rewrite Hdest).
  assert (forall x, x ∈ claims w' \/ x ∈ observed w' -> index x <> index c) as Hne
    by (intros x Hx Heq; apply Hni; rewrite <- Heq; by apply mem_in_handles).
  apply (slot_change_inv w _ (index c) s s'); try done.
  - intros [?|?]; done.
  - by rewrite Ht.
  - intros x Hx. left. auto.
  - intros x Hx. left. auto.
  - apply (queue_same w _ (index c) s s'); try done. congruence.
Qed.

Lemma sorted_head_least (l : list Z) q m :
  StronglySorted Z.lt (q :: l) -> m ∈ q :: l -> (forall x, x ∈ q :: l -> m <= x) -> m = q.
Proof.
  intros Hs Hm Hle. apply StronglySorted_inv in Hs as [_ Hs].
  apply elem_of_cons in Hm as [?|Hm]; [done|].
  apply list_elem_of_lookup in Hm as [k Hk]. rewrite Forall_lookup in Hs.
  specialize (Hs k m Hk). specialize (Hle q ltac:(left)). lia.
Qed.

(** The lowest ready sequence is the head of the queue. *)
Lemma mem_take_inv w identity state :
  TryTake (dest w) = (Some identity, state) -> inv w ->
  inv (w <| dest := state |> <| observed ::= cons identity |>
         <| taken := taken w ++ [AdmissionSequence identity state] |>).
Proof.
  intros Htry Hinv. unfold TryTake in Htry.
  destruct (lowest_index _ _ _) as [i|] eqn:Hlow; [|done].
  apply lowest_index_Some in Hlow as (s & Hi & Hs%bool_decide_eq_true & Hmin). revert Htry.
  set (hold := fun slot : SlotMetadata => slot <| slot_state := kHeld |>).
  set (st := on_slot i hold (dest w)). set (s' := hold s).
  assert (slots st = <[i := s']> (slots (dest w))) as Hset by (by apply mem_on_slot_slots).
  assert (slots st !! i = Some s') as Hi'.
  { rewrite Hset, list_lookup_insert_eq; [done|by eapply lookup_lt_Some]. }
  rewrite (mem_slot_at_lookup _ _ _ Hi'). intros [= <- <-]. set (c := {| index := i; identity_generation := _ |}).
  assert (held_in st kHeld c) as Hheld by (by exists s').
  assert (AdmissionSequence c st = admission_sequence s) as ->.
  { destruct (held_matches _ _ _ Hheld) as [Hr Hm]. unfold AdmissionSequence, held_value, FindHeldSlot.
    rewrite Hr, Hm. cbn [andb]. change (index c) with i. by rewrite (mem_slot_at_lookup _ _ _ Hi'). }
  destruct (i_queue _ Hinv) as (rem & Heq & Hrem).
  assert (admission_sequence s ∈ rem) as Hin by (apply Hrem; by exists i, s).
  destruct rem as [|q rem]; [by apply elem_of_nil in Hin|].
  pose proof (i_sorted _ Hinv) as Hsort. rewrite Heq in Hsort.
  pose proof (StronglySorted_app_1_r _ _ _ Hsort) as Hsort'.
  assert (admission_sequence s = q) as Hq.
  { apply (sorted_head_least rem); [done..|]. intros x (j & y & Hj & Hy & <-)%Hrem.
    apply (Hmin j y Hj). by apply bool_decide_eq_true. }
  apply StronglySorted_inv in Hsort' as [_ Hlt]. rewrite Forall_lookup in Hlt.
  assert (i ∉ handles w) as Hfresh.
  { intros Hh. destruct (handle_state w i s Hinv Hi Hh); congruence. }
  assert (forall c, c ∈ claims w \/ c ∈ observed w -> index c <> i) as Hkeep
    by (intros x Hx <-; by apply Hfresh, mem_in_handles).
  apply (slot_change_inv w _ i s s'); try done.
  - intros _. split; [by left|done].
  - intros _. apply elem_of_app. right. by apply list_elem_of_singleton.
  - intros x Hx. apply elem_of_app. by left.
  - change (NoDup (index <$> claims w ++ c :: observed w)).
    rewrite <- Permutation_middle. apply list.NoDup_cons. split; [exact Hfresh|apply Hinv].
  - intros x Hx. left. auto.
  - intros x [->|Hx]%elem_of_cons; [by right|left; auto].
  - exists rem. split; [cbn; rewrite <- app_assoc, Hq; exact Heq|]. intros x. split.
    + intros Hx. destruct (proj1 (Hrem x) ltac:(by right)) as (j & y & Hj & Hy & Hxy).
      exists j, y. split_and!; [|done..]. change (slots st !! j = Some y). rewrite Hset.
      rewrite list_lookup_insert_ne; [done|]. intros <-. simplify_eq.
      apply list_elem_of_lookup in Hx as [k Hk]. specialize (Hlt k _ Hk). lia.
    + intros (j & y & Hj & Hy & Hxy). change (slots st !! j = Some y) in Hj. rewrite Hset in Hj.
      apply list_lookup_insert_Some in Hj as [(<- & <- & _)|[Hne Hj]]; [done|].
      assert (x ∈ q :: rem) as [->|?]%elem_of_cons by (apply Hrem; by exists j, y); [|done].
      exfalso. apply Hne. apply (i_distinct _ Hinv i j s y); [done..|congruence].
Qed.

Lemma mem_slot_region w i s :
  inv w -> slots (dest w) !! i = Some s ->
  let maximum := state_maximum_record_bytes (dest w) in
  0 <= SlotBacking (dest w) i /\ SlotBacking (dest w) i + maximum <= zlen (backing (dest w))
  /\ forall j, j <> i -> 0 <= SlotBacking (dest w) j
       /\ (SlotBacking (dest w) j + maximum <= SlotBacking (dest w) i
           \/ SlotBacking (dest w) i + maximum <= SlotBacking (dest w) j).
Proof.
  intros Hinv Hi maximum. destruct (i_mem _ Hinv) as [Hb ->]. apply lookup_lt_Some in Hi.
  unfold maximum, SlotBacking, zlen. split_and!; [nia|nia|]. intros j Hj. nia.
Qed.

Section StoreStep.
Context (w : World) (before after : list DestinationSlotIdentity) (c : DestinationSlotIdentity).
Context (sequence : Z) (view : RecordView) (s : SlotMetadata).
Context (Hinv : inv w) (Hclaims : claims w = before ++ c :: after).
Context (Hnew : Forall (fun entry => entry.1 < sequence) (log w)).
Context (Hi : slots (dest w) !! index c = Some s).

Let maximum := state_maximum_record_bytes (dest w).
Let kept := kept_bytes maximum view.
Let written : InMemoryDestinationState :=
  dest w <| backing ::= blit (SlotBacking (dest w) (index c)) kept |>.
Let st := on_slot (index c) (filled maximum sequence view) written.
Let s' := filled maximum sequence view s.

Lemma mem_below q : q ∈ (log w).*1 -> q < sequence.
Proof.
  intros (e & -> & He)%list_elem_of_fmap. apply list_elem_of_lookup in He as [k Hk].
  rewrite Forall_lookup in Hnew. exact (Hnew k e Hk).
Qed.

Lemma mem_log_of_ready i x :
  slots (dest w) !! i = Some x -> storing x -> admission_sequence x < sequence.
Proof.
  intros Hx Hst. destruct (i_slots _ Hinv i x Hx Hst) as (v & Hv & _). apply mem_below.
  apply list_elem_of_fmap. by exists (admission_sequence x, v).
Qed.

Lemma kept_fits : zlen kept <= maximum.
Proof. destruct (i_mem _ Hinv) as [? _]. apply kept_sizes. unfold maximum. lia. Qed.

Lemma stored_backing j n :
  0 <= n <= maximum ->
  (j <> index c -> slice (SlotBacking (dest w) j) n (blit (SlotBacking (dest w) (index c)) kept (backing (dest w)))
    = slice (SlotBacking (dest w) j) n (backing (dest w))).
Proof.
  intros Hn Hj. destruct (mem_slot_region w _ _ Hinv Hi) as (H1 & H2 & H3). destruct (H3 j Hj) as [? ?].
  pose proof kept_fits. apply slice_blit_other; unfold maximum in *; lia.
Qed.

Lemma mem_store_inv :
  inv (w <| dest := st |> <| claims := before ++ after |> <| log ::= fun l => l ++ [(sequence, view)] |>).
Proof.
  set (w' := w <| dest := st |> <| claims := before ++ after |> <| log ::= _ |>).
  destruct (mem_slot_region w _ _ Hinv Hi) as (Hb0 & Hb1 & _). destruct (i_mem _ Hinv) as [Hm Hlen].
  assert (c ∈ claims w) as Hc by (rewrite Hclaims; apply elem_of_app; right; by left).
  destruct (i_claims _ Hinv c Hc) as (s0 & Hi0 & Hres & _). rewrite Hi in Hi0. injection Hi0 as <-.
  assert (slots (dest w') = <[index c := s']> (slots (dest w))) as Hset.
  { exact (mem_on_slot_slots written (index c) s (filled maximum sequence view) Hi). }
  assert (forall j x, slots (dest w') !! j = Some x ->
    j = index c /\ x = s' \/ j <> index c /\ slots (dest w) !! j = Some x) as Hget.
  { intros j x. rewrite Hset. intros [(<- & <- & _)|[? ?]]%list_lookup_insert_Some; auto. }
  assert (handles w ≡ₚ index c :: handles w') as Hperm by (by eapply dropped_claim).
  destruct (dropped_handle _ _ _ Hperm (i_handles _ Hinv)) as [Hnd Hni].
  assert (forall x, x ∈ claims w' \/ x ∈ observed w' -> index x <> index c) as Hne
    by (intros x Hx Heq; apply Hni; rewrite <- Heq; by apply mem_in_handles).
  assert (forall wanted x, index x <> index c -> held_in (dest w) wanted x -> held_in (dest w') wanted x)
    as Hkeep.
  { intros wanted x Hx (y & Hy & ?). exists y. split; [by rewrite Hset, list_lookup_insert_ne|done]. }
  constructor; try done.
  - split; [exact Hm|]. change (zlen (blit (SlotBacking (dest w) (index c)) kept (backing (dest w)))
      = zlen (slots (dest w')) * maximum). pose proof kept_fits.
    rewrite zlen_blit by (unfold maximum in *; lia). rewrite Hlen, Hset. unfold zlen. by rewrite length_insert.
  - intros j x Hj Hx. destruct (Hget j x Hj) as [[-> ->]|[Hnj Hj']].
    + exists view. split; [apply elem_of_app; right; by apply list_elem_of_singleton|].
      split; [exact (FillSlot_again sequence view _ _ _ s)|]. apply (slice_blit_same (SlotBacking (dest w) (index c)) kept); [done|].
      pose proof kept_fits. unfold maximum in *. lia.
    + destruct (i_slots _ Hinv j x Hj' Hx) as (v & Hv & Hsh1 & Hsh2). exists v.
      split; [apply elem_of_app; by left|]. split; [exact Hsh1|].
      etrans; [|exact Hsh2]. apply stored_backing; [|done].
      split; [apply zlen_nonneg|]. apply kept_sizes. apply Hm.
  - intros j k x y Hj Hk Hx Hy Hxy.
    destruct (Hget j x Hj) as [[-> ->]|[Hnj Hj']], (Hget k y Hk) as [[-> ->]|[Hnk Hk']]; [done|..].
    + pose proof (mem_log_of_ready k y Hk' ltac:(by left)). change (sequence = admission_sequence y) in Hxy. lia.
    + pose proof (mem_log_of_ready j x Hj' ltac:(by left)). change (admission_sequence x = sequence) in Hxy. lia.
    + by apply (i_distinct _ Hinv j k x y).
  - intros j x Hj Hx. destruct (Hget j x Hj) as [[-> ->]|[Hnj Hj']]; [done|].
    by apply (i_held _ Hinv j).
  - intros x Hx. apply Hkeep; [auto|]. apply Hinv. rewrite Hclaims. change (x ∈ before ++ after) in Hx.
    apply elem_of_app in Hx as [?|?]; apply elem_of_app; [by left|right; by right].
  - intros x Hx. apply Hkeep; [auto|]. by apply Hinv.
  - change (StronglySorted Z.lt (log w ++ [(sequence, view)]).*1). rewrite fmap_app.
    apply StronglySorted_app_2; [|apply Hinv|by repeat constructor].
    intros x y Hx ->%list_elem_of_singleton. by apply mem_below.
  - destruct (i_queue _ Hinv) as (rem & Heq & Hrem). exists (rem ++ [sequence]).
    split; [change ((log w ++ [(sequence, view)]).*1 = taken w ++ rem ++ [sequence]);
            by rewrite fmap_app, Heq, app_assoc|].
    intros q. rewrite elem_of_app, list_elem_of_singleton, Hrem. split.
    + intros [(j & x & Hj & Hx & Hq)| ->].
      * exists j, x. split; [|done]. rewrite Hset, list_lookup_insert_ne; [done|]. intros <-. congruence.
      * exists (index c), s'. split; [|done]. rewrite Hset, list_lookup_insert_eq; [done|by eapply lookup_lt_Some].
    + intros (j & x & Hj & Hx & Hq). destruct (Hget j x Hj) as [[-> ->]|[Hnj Hj']].
      * by right. * left. by exists j, x.
Qed.
End StoreStep.

Lemma mem_store_preserves w before after c sequence view :
  inv w -> claims w = before ++ c :: after ->
  Forall (fun entry => entry.1 < sequence) (log w) ->
  inv (w <| dest ::= Store c sequence view |> <| claims := before ++ after |>
         <| log ::= fun l => l ++ [(sequence, view)] |>).
Proof.
  intros Hinv Hc Hnew.
  assert (held_in (dest w) kReserved c) as Hheld.
  { apply (i_claims _ Hinv). rewrite Hc. apply elem_of_app. right. by left. }
  destruct (held_matches _ _ _ Hheld) as [Hr Hm]. destruct Hheld as (s & Hi & _).
  destruct (mem_slot_region w _ _ Hinv Hi) as (H1 & H2 & _). destruct (i_mem _ Hinv) as [H3 _].
  pose proof (Store_eq (dest w) c sequence view Hr Hm H1 H2 H3) as Heq.
  unfold modify at 3. rewrite Heq. by apply (mem_store_inv w before after c sequence view s).
Qed.

Lemma mem_step_preserves w w' : mem_step w w' -> inv w -> inv w'.
Proof.
  destruct 1 as [w b state Htry|w f Hf|w c state Htry|w before c after q view Hc Hnew
    |w before c after Hc|w c state Htry|w before c after Hc]; intros Hinv.
  - unfold TryAttachRuntime in Htry.
    destruct (stopped (dest w)); [|destruct (runtime_attached (dest w)); [|destruct (stopped _)]];
      injection Htry as <- <-; by apply (mem_flags_inv w).
  - rewrite !elem_of_cons, elem_of_nil in Hf. destruct Hf as [->|[->|[->|[]]]];
      by apply (mem_flags_inv w).
  - by eapply mem_claim_inv.
  - by apply mem_store_preserves.
  - apply (mem_release_inv w _ c kReserved); try done.
    + apply (i_claims _ Hinv). rewrite Hc. apply elem_of_app. right. by left.
    + by apply (dropped_claim _ _ before c after).
    + rewrite Hc. intros x. cbn. rewrite !elem_of_app, elem_of_cons. tauto.
  - by eapply mem_take_inv.
  - apply (mem_release_inv w _ c kHeld); try done.
    + apply (i_observed _ Hinv). rewrite Hc. apply elem_of_app. right. by left.
    + by apply (dropped_observed _ _ before c after).
    + rewrite Hc. intros x. cbn. rewrite !elem_of_app, elem_of_cons. tauto.
Qed.

(** ** The start *)

Section Reachable.
Context (sizeof_metadata : Z) (config : InMemoryDestinationConfig) (start : InMemoryDestinationState).
Context (Hcapacity : 0 <= capacity_records config).
Context (Hmake : MakeState sizeof_metadata config = inr start).

Lemma mem_initial_inv : inv (initial_world start).
Proof.
  unfold MakeState, ValidateAndGetFixedBackingBytes, ThrowInvalidConfiguration in Hmake.
  destruct (capacity_records config =? 0) eqn:H0; [done|].
  destruct (_ || _) eqn:H1 in Hmake; [done|]. destruct (_ || _) eqn:H2 in Hmake; [done|].
  destruct (_ <? _) eqn:H3 in Hmake; [done|]. injection Hmake as <-. b2p.
  unfold kMaximumRecordBytes in *.
  assert (capacity_records config * maximum_record_bytes config <= size_max) as Hfit.
  { transitivity (size_max / maximum_record_bytes config * maximum_record_bytes config);
      [nia|]. rewrite Z.mul_comm. apply Z.mul_div_le. lia. }
  constructor; cbn [initial_world dest claims observed log taken].
  - cbn [state_maximum_record_bytes backing slots]. unfold kMaximumRecordBytes. split; [lia|].
    unfold zlen. rewrite !length_replicate, w64_small by (unfold size_max in *; nia). nia.
  - intros i slot Hi [?|?]; cbn [slots] in Hi; apply lookup_replicate in Hi as [-> _]; done.
  - intros i j si sj Hi _ Hs. cbn [slots] in Hi. by apply lookup_replicate in Hi as [-> _].
  - intros i slot Hi Hs. cbn [slots] in Hi. by apply lookup_replicate in Hi as [-> _].
  - apply list.NoDup_nil. done.
  - by intros c Hc%elem_of_nil.
  - by intros c Hc%elem_of_nil.
  - constructor.
  - exists []. split; [done|]. intros q. split; [by intros Hnil%elem_of_nil|].
    intros (i & slot & Hi & Hs & _). cbn [slots initial_world dest] in Hi.
    by apply lookup_replicate in Hi as [-> _].
Qed.

Context (w : World) (Hreach : rtc mem_step (initial_world start) w).

Lemma mem_reachable_inv : inv w.
Proof.
  pose proof mem_initial_inv as H. induction Hreach as [|x y z Hstep Hrest IH]; [done|].
  apply IH; [done|]. by eapply mem_step_preserves.
Qed.

Lemma observe_text i range a b c :
  in_range (dest w) i = true ->
  range = {| offset := zlen a; size := zlen b |} ->
  slice (SlotBacking (dest w) i) (zlen (a ++ b ++ c)) (backing (dest w)) = a ++ b ++ c ->
  0 <= SlotBacking (dest w) i -> zlen (a ++ b ++ c) <= state_maximum_record_bytes (dest w) ->
  StoredText (dest w) i range = b.
Proof.
  intros Hr -> Hsl Hb Hle. destruct (i_mem _ mem_reachable_inv) as [Hm _].
  unfold kMaximumRecordBytes in Hm. rewrite !zlen_app in Hle.
  pose proof (zlen_nonneg a). pose proof (zlen_nonneg b). pose proof (zlen_nonneg c).
  unfold StoredText. cbn [offset size]. rewrite Hr, w64_small by lia. cbn [negb orb].
  rewrite !(proj2 (Z.ltb_ge _ _)) by lia. cbn [orb].
  rewrite (slice_inner _ _ _ (zlen (a ++ b ++ c))) by (rewrite ?zlen_app; lia).
  rewrite Hsl. apply slice_middle.
Qed.

(** Everything [ObservedRecord] returns for the record [view] with its sequence. *)
Record observes (c : DestinationSlotIdentity) (sequence : Z) (view : RecordView)
    (path function text : list byte) (cut : bool) : Prop := {
  ob_sequence : AdmissionSequence c (dest w) = sequence;
  ob_level : GetLevel c (dest w) = view_level view;
  ob_timestamp : EventTimestamp c (dest w) = view_event_timestamp view;
  ob_line : SourceLine c (dest w) = view_source_line view;
  ob_column : SourceColumn c (dest w) = view_source_column view;
  ob_serialized : SerializedBytes c (dest w) = rv_serialized_bytes_ view;
  ob_charge : AccountingChargeBytes c (dest w) = rv_accounting_charge_bytes_ view;
  ob_path : SourcePath c (dest w) = path;
  ob_function : SourceFunction c (dest w) = function;
  ob_message : Message c (dest w) = text;
  ob_truncated : Truncated c (dest w) = cut;
}.

Lemma observed_kept c :
  c ∈ observed w -> exists sequence view, (sequence, view) ∈ log w /\ sequence ∈ taken w
    /\ let maximum := state_maximum_record_bytes (dest w) in
       observes c sequence view (kept_path maximum view) (kept_function maximum view)
         (kept_message maximum view) (kept_truncated maximum view).
Proof.
  intros Hc. pose proof mem_reachable_inv as Hinv. pose proof (i_observed _ Hinv c Hc) as Hheld.
  destruct (held_matches _ _ _ Hheld) as [Hr Hm]. destruct Hheld as (s & Hi & Hs & _).
  destruct (i_slots _ Hinv _ _ Hi ltac:(by right)) as (view & Hlog & Hfill & Hsl).
  exists (admission_sequence s), view. split; [done|]. split; [by apply (i_held _ Hinv (index c))|].
  cbv zeta in *. set (m := state_maximum_record_bytes (dest w)) in *.
  destruct (mem_slot_region w _ _ Hinv Hi) as (Hb & _). destruct (i_mem _ Hinv) as [Hmax _].
  destruct (kept_sizes m view ltac:(unfold m; lia)) as (_ & _ & Hk).
  assert (forall A (read : SlotMetadata -> A) absent, held_value c (dest w) read absent = read s) as Hread.
  { intros. unfold held_value, FindHeldSlot. rewrite Hr, Hm. cbn [andb].
    by rewrite (mem_slot_at_lookup _ _ _ Hi). }
  unfold kept_bytes in Hsl, Hk. unfold filled, FillSlot in Hfill. injection Hfill as Hv1 Hv2 Hv3 Hp Hf Ht Hv4 Hv5 Hv6 Hv7.
  constructor; try (etrans; [apply Hread|done]).
  - unfold SourcePath. rewrite Hread. by apply (observe_text _ _ [] _ (kept_function m view ++ kept_message m view)).
  - unfold SourceFunction. rewrite Hread. by apply (observe_text _ _ (kept_path m view) _ (kept_message m view)).
  - unfold Message. rewrite Hread.
    rewrite <- (app_nil_r (kept_message m view)), app_assoc in Hsl, Hk.
    apply (observe_text _ _ (kept_path m view ++ kept_function m view) _ []); [done| |done..].
    by rewrite zlen_app.
Qed.

Lemma kept_whole capacity view :
  zlen (source_path view) + zlen (source_function view) + zlen (message view) <= capacity ->
  kept_path capacity view = source_path view /\ kept_function capacity view = source_function view
  /\ kept_message capacity view = message view /\ kept_truncated capacity view = view_truncated view.
Proof.
  intros Hfit. pose proof (zlen_nonneg (source_path view)).
  pose proof (zlen_nonneg (source_function view)). pose proof (zlen_nonneg (message view)).
  assert (kept_path capacity view = source_path view) as Hp
    by (apply take_ge; unfold zlen in *; lia).
  assert (kept_function capacity view = source_function view) as Hf
    by (unfold kept_function; rewrite Hp; apply take_ge; unfold zlen in *; lia).
  assert (kept_message capacity view = message view) as Hm.
  { unfold kept_message, utf8_cut. rewrite Hp, Hf, Z.min_r, Z.ltb_irrefl by lia.
    apply take_ge. unfold zlen. lia. }
  split_and!; [done..|]. unfold kept_truncated. rewrite Hp, Hf, Hm, !Z.eqb_refl.
  cbn [negb]. by rewrite !orb_false_r.
Qed.

(** C21: the destination loses no record and keeps their order: whatever the worker and
    the application do, the stored sequences are those the application took, in the
    order it took them, followed by those that wait in a ready slot. *)
Theorem destination_is_a_lossless_queue :
  exists remaining, (log w).*1 = taken w ++ remaining
    /\ forall q, q ∈ remaining <-> waiting (dest w) q.
Proof. exact (i_queue _ mem_reachable_inv). Qed.

(** C34: a held observation returns, through every accessor, a record that was stored,
    under its sequence: its metadata, and its texts as far as the slot has room. A
    published record whose limit is within the destination's is returned whole. *)
Theorem observations_show_stored_records c :
  c ∈ observed w ->
  exists sequence view, (sequence, view) ∈ log w /\ sequence ∈ taken w
    /\ let maximum := state_maximum_record_bytes (dest w) in
       observes c sequence view (kept_path maximum view) (kept_function maximum view)
         (kept_message maximum view) (kept_truncated maximum view)
       /\ forall s r d cut, view = view_of s r -> published s d cut -> d_limit d <= maximum ->
          observes c sequence view (file_name_ (d_source d)) (function_name_ (d_source d))
            (d_message d) cut.
Proof.
  intros Hc. destruct (observed_kept c Hc) as (q & view & Hl & Ht & Hob). exists q, view.
  split_and!; [done..|]. cbv zeta in *. split; [done|]. intros s r d cut -> Hpub Hlim.
  destruct (published_shows s d cut r Hpub) as [_ _ Hp Hf _ _ Hm Hcut _ _].
  destruct (draft_bounds d (pb_draft _ _ _ Hpub)) as (_ & Hroom & _ & Hfields & _).
  destruct (kept_whole (state_maximum_record_bytes (dest w)) (view_of s r)) as (H1 & H2 & H3 & H4).
  { rewrite Hp, Hf, Hm. unfold d_front, RecordLayout.kSerializedRecordMetadataBytes in *. lia. }
  by rewrite H1, H2, H3, H4, Hp, Hf, Hm, Hcut in Hob.
Qed.
End Reachable.

(** [CopyUtf8Text] copies the longest well-formed prefix of a well-formed text that
    fits behind the cursor, touches no other byte, advances the cursor by it, and
    reports the text complete exactly when all of it was copied. *)
Lemma CopyUtf8Text_exact destination capacity cursor source :
  utf8 source -> zlen destination = capacity -> 0 <= cursor <= capacity ->
  capacity <= kMaximumRecordBytes ->
  exists kept,
    CopyUtf8Text destination capacity cursor source
    = ({| range := {| offset := cursor; size := zlen kept |}; complete := bool_decide (kept = source) |},
       cursor + zlen kept, blit cursor kept destination)
    /\ utf8 kept /\ kept `prefix_of` source /\ zlen kept <= capacity - cursor
    /\ forall u, utf8 u -> u `prefix_of` source -> zlen u <= capacity - cursor -> u `prefix_of` kept.
Proof.
  intros Hu Hd Hc Hm. destruct (utf8_cut_longest (capacity - cursor) source Hu ltac:(lia)) as [Hk Hl].
  pose proof (utf8_cut_bounds (capacity - cursor) source ltac:(lia)) as Hb.
  exists (take (Z.to_nat (utf8_cut (capacity - cursor) source)) source).
  rewrite CopyUtf8Text_eq by done. rewrite !zlen_cut by lia. split_and!; [|done|apply prefix_take|lia|done].
  do 4 f_equal. case_bool_decide as Heq; [apply (f_equal zlen) in Heq; rewrite zlen_cut in Heq by lia; lia|].
  apply Z.eqb_neq. intros He. apply Heq, take_ge. unfold zlen in *. lia.
Qed.

(** ** A run *)

Definition demo_config : InMemoryDestinationConfig :=
  {| capacity_records := 2; maximum_record_bytes := 128; start_paused := false |}.

Definition demo_state : InMemoryDestinationState :=
  match MakeState 104 demo_config with
  | inr state => state
  | inl _ => {| backing := []; slots := []; state_maximum_record_bytes := 0; fixed_backing_bytes := 0;
                runtime_attached := false; paused := false; stopped := false |}
  end.

Definition demo_claim (i : nat) : DestinationSlotIdentity := {| index := i; identity_generation := 1 |}.

Definition demo_first : InMemoryDestinationState :=
  Store (demo_claim 0) 7 demo_view (WaitForWrite demo_state).2.
Definition demo_second : InMemoryDestinationState :=
  Store (demo_claim 1) 9 demo_view (WaitForWrite demo_first).2.
Definition demo_taken : InMemoryDestinationState := (TryTake demo_second).2.

Definition demo_world : World :=
  {| dest := demo_taken; claims := []; observed := [demo_claim 0];
     log := [(7, demo_view); (9, demo_view)]; taken := [7] |}.

Lemma mem_step_to w w' w'' : mem_step w w' -> w' = w'' -> mem_step w w''.
Proof. by intros H <-. Qed.

Definition demo_before : World :=
  {| dest := demo_second; claims := []; observed := []; log := [(7, demo_view); (9, demo_view)];
     taken := [] |}.

Lemma demo_claims_first : WaitForWrite demo_state = (Some (demo_claim 0), (WaitForWrite demo_state).2).
Proof. by vm_compute. Qed.

Lemma demo_claims_second : WaitForWrite demo_first = (Some (demo_claim 1), (WaitForWrite demo_first).2).
Proof. by vm_compute. Qed.

Lemma demo_takes : TryTake demo_second = (Some (demo_claim 0), demo_taken).
Proof. by vm_compute. Qed.

Lemma demo_sequence : AdmissionSequence (demo_claim 0) demo_taken = 7.
Proof. by vm_compute. Qed.

(** The states of the run are compared by name before they are computed. *)
#[local] Strategy 100 [Store WaitForWrite TryTake].

Lemma demo_reach_taken : rtc mem_step (initial_world demo_state) demo_world.
Proof.
  apply (rtc_l _ _ {| dest := (WaitForWrite demo_state).2; claims := [demo_claim 0]; observed := [];
                      log := []; taken := [] |}).
  { exact (step_claim (initial_world demo_state) _ _ demo_claims_first). }
  apply (rtc_l _ _ {| dest := demo_first; claims := []; observed := []; log := [(7, demo_view)];
                      taken := [] |}).
  { eapply mem_step_to; [apply (step_store _ [] (demo_claim 0) [] 7 demo_view); [done|constructor]|done]. }
  apply (rtc_l _ _ {| dest := (WaitForWrite demo_first).2; claims := [demo_claim 1]; observed := [];
                      log := [(7, demo_view)]; taken := [] |}).
  { exact (step_claim {| dest := demo_first; claims := []; observed := []; log := [(7, demo_view)];
                      taken := [] |} _ _ demo_claims_second). }
  apply (rtc_l _ _ demo_before).
  { unfold demo_before, demo_second.
    apply (step_store {| dest := (WaitForWrite demo_first).2; claims := [demo_claim 1]; observed := [];
             log := [(7, demo_view)]; taken := [] |} [] (demo_claim 1) [] 9 demo_view);
      [done|by repeat constructor]. }
  apply rtc_once. eapply mem_step_to; [exact (step_take demo_before _ _ demo_takes)|].
  by rewrite demo_sequence.
Qed.

Lemma destination_is_a_lossless_queue_witness :
  exists remaining, (log demo_world).*1 = taken demo_world ++ remaining
    /\ forall q, q ∈ remaining <-> waiting (dest demo_world) q.
Proof.
  exact (destination_is_a_lossless_queue 104 demo_config demo_state ltac:(by_compute)
    ltac:(by vm_compute) demo_world demo_reach_taken).
Defined.

Lemma observations_show_stored_records_witness :
  demo_claim 0 ∈ observed demo_world /\
  exists sequence view, (sequence, view) ∈ log demo_world /\ sequence ∈ taken demo_world
    /\ observes demo_world (demo_claim 0) sequence view (kept_path 128 view) (kept_function 128 view)
         (kept_message 128 view) (kept_truncated 128 view).
Proof.
  assert (demo_claim 0 ∈ observed demo_world) as Hin by (by left). split; [exact Hin|].
  destruct (observations_show_stored_records 104 demo_config demo_state ltac:(by_compute)
    ltac:(by vm_compute) demo_world demo_reach_taken (demo_claim 0) Hin) as (q & v & H1 & H2 & H3 & _).
  exists q, v. split_and!; [exact H1|exact H2|exact H3].
Defined.

Lemma CopyUtf8Text_exact_witness :
  (* "h<C3><A9><C3><A9>" behind a cursor at 1 in five bytes *)
  let text := [104; 0xC3; 0xA9; 0xC3; 0xA9] in
  utf8 text /\ exists kept,
    CopyUtf8Text (replicate 5 0%Z) 5 1 text
    = ({| range := {| offset := 1; size := zlen kept |}; complete := bool_decide (kept = text) |},
       1 + zlen kept, blit 1 kept (replicate 5 0%Z)) /\ utf8 kept /\ zlen kept <= 4.
Proof.
  cbv zeta. assert (utf8 [104; 0xC3; 0xA9; 0xC3; 0xA9]) as Hu.
  { apply (utf8_cons [104]); [constructor; lia|]. apply (utf8_cons [0xC3; 0xA9]); [constructor; lia|].
    apply (utf8_cons [0xC3; 0xA9] []); [constructor; lia|constructor]. }
  split; [exact Hu|].
  destruct (CopyUtf8Text_exact (replicate 5 0%Z) 5 1 [104; 0xC3; 0xA9; 0xC3; 0xA9] Hu
    ltac:(by_compute) ltac:(lia) ltac:(by_compute)) as (kept & H1 & H2 & _ & H3 & _).
  exists kept. split_and!; [exact H1|exact H2|lia].
Defined.
