(* ===== verification/Operation.v ===== *)
(** * Operation handles ([src/operation.cpp], [include/ulog/operation.hpp])

    The terminal result of an ordered action, the statuses a handle answers with and
    their diagnostics, the move-only callback, and the handle: a null state or a
    reference into a provider ([detail::OperationVTable], a class here) that the
    handle forwards every call to. *)
From S2P Require Import Prelude.
From stdpp Require Import strings.
#[local] Open Scope Z_scope.
#[local] Open Scope ulog_scope.

(** ** Results *)

Inductive OperationOutcome := kSucceeded | kCancelled | kFailed.

Record OperationReport := {
  watermark_records : Z;
  processed_records : Z;
  processed_bytes : Z;
  delivered_records : Z;
  delivered_bytes : Z;
  failed_records : Z;
  failed_bytes : Z;
  unfinished_records : Z;
  unfinished_bytes : Z;
}.

Definition empty_report : OperationReport :=
  {| watermark_records := 0; processed_records := 0; processed_bytes := 0; delivered_records := 0;
     delivered_bytes := 0; failed_records := 0; failed_bytes := 0; unfinished_records := 0;
     unfinished_bytes := 0 |}.

Record OperationResult := { outcome_ : OperationOutcome; report_ : OperationReport }.

(** [OperationResult{}] *)
Definition empty_result : OperationResult := {| outcome_ := kFailed; report_ := empty_report |}.

(** [OperationResultAccess::Make] *)
Definition MakeResult (outcome : OperationOutcome) (report : OperationReport) : OperationResult :=
  {| outcome_ := outcome; report_ := report |}.

(** ** Statuses *)

Inductive OperationPollStatus := kPollInvalidOperation | kPending | kPollCompleted.

Record OperationPollResult := {
  poll_status : OperationPollStatus;
  poll_completion : option OperationResult;
}.

Definition empty_poll : OperationPollResult :=
  {| poll_status := kPollInvalidOperation; poll_completion := None |}.

Inductive OperationWaitStatus :=
  | kWaitInvalidOperation | kDeadlineExceeded | kForbiddenThread | kWaitFailed | kWaitCompleted.

Record OperationWaitResult := {
  wait_status : OperationWaitStatus;
  wait_completion : option OperationResult;
}.

Definition empty_wait : OperationWaitResult :=
  {| wait_status := kWaitInvalidOperation; wait_completion := None |}.

Inductive OperationCallbackStatus :=
  | kRegistered | kAlreadyRegistered | kInvalidOperation | kInvalidCallback.

Record OperationStartFailure := { control_capacity : Z; controls_in_use : Z }.

(** ** Diagnostics *)

Definition kEmptyOperationMessage : string :=
  "The Operation handle is empty and cannot be waited on.".
Definition kEmptyOperationHint : string :=
  "Keep the Operation returned when the ordered action starts and do not reuse a moved-from handle.".
Definition kDeadlineMessage : string :=
  "The Operation did not complete before the requested deadline.".
Definition kDeadlineHint : string :=
  "The Operation is still active; poll it or wait again with a later deadline.".
Definition kForbiddenThreadMessage : string :=
  "WaitUntil cannot block a Ulog-owned worker, I/O, or callback thread.".
Definition kForbiddenThreadHint : string :=
  "Use Poll or register the completion callback from Ulog-owned threads.".
Definition kWaitFailedMessage : string :=
  "The operating system wait primitive failed before the Operation completed.".
Definition kWaitFailedHint : string :=
  "Poll the Operation and retry WaitUntil; report repeated failures with the platform and deadline.".
Definition kCompletedMessage : string := "The Operation completed.".
Definition kNoActionNeeded : string := "No corrective action is required.".
Definition kReserveExhaustedMessage : string :=
  "The Operation could not start because every bounded control-reserve slot is in use.".
Definition kReserveExhaustedHint : string :=
  "Release completed Operation handles, wait for in-flight control actions, or increase the Runtime control-operation capacity.".
Definition kCallbackRegisteredMessage : string :=
  "The Operation completion callback was registered.".
Definition kCallbackAlreadyRegisteredMessage : string :=
  "This Operation already has a completion callback.".
Definition kCallbackAlreadyRegisteredHint : string :=
  "Register at most one callback and fan out from that callback if multiple consumers need notification.".
Definition kInvalidCallbackMessage : string := "The completion callback is empty.".
Definition kInvalidCallbackHint : string :=
  "Pass a non-empty OperationCallback or a small noexcept callable.".

(** The message and how to fix it. *)
Definition OperationDiagnostic : Type := string * string.

Definition GetWaitDiagnostic (status : OperationWaitStatus) : OperationDiagnostic :=
  match status with
  | kWaitInvalidOperation => (kEmptyOperationMessage, kEmptyOperationHint)
  | kDeadlineExceeded => (kDeadlineMessage, kDeadlineHint)
  | kForbiddenThread => (kForbiddenThreadMessage, kForbiddenThreadHint)
  | kWaitFailed => (kWaitFailedMessage, kWaitFailedHint)
  | kWaitCompleted => (kCompletedMessage, kNoActionNeeded)
  end.

Definition GetCallbackDiagnostic (status : OperationCallbackStatus) : OperationDiagnostic :=
  match status with
  | kRegistered => (kCallbackRegisteredMessage, kNoActionNeeded)
  | kAlreadyRegistered => (kCallbackAlreadyRegisteredMessage, kCallbackAlreadyRegisteredHint)
  | kInvalidOperation => (kEmptyOperationMessage, kEmptyOperationHint)
  | kInvalidCallback => (kInvalidCallbackMessage, kInvalidCallbackHint)
  end.

Definition WaitMessage (result : OperationWaitResult) : string :=
  (GetWaitDiagnostic (wait_status result)).1.
Definition WaitHowToFix (result : OperationWaitResult) : string :=
  (GetWaitDiagnostic (wait_status result)).2.
Definition StartMessage (failure : OperationStartFailure) : string := kReserveExhaustedMessage.
Definition StartHowToFix (failure : OperationStartFailure) : string := kReserveExhaustedHint.
Definition CallbackMessage (status : OperationCallbackStatus) : string :=
  (GetCallbackDiagnostic status).1.
Definition CallbackHowToFix (status : OperationCallbackStatus) : string :=
  (GetCallbackDiagnostic status).2.

(** ** Callbacks

    A callback object is the callable it owns, or empty; [C] is the type of callables. *)

Definition OperationCallback (C : Type) : Type := option C.

(** The constructor: a null function pointer gives an empty callback. *)
Definition MakeCallback {C} (is_null_pointer : bool) (callback : C) : OperationCallback C :=
  if is_null_pointer then None else Some callback.

(** [MoveFrom(other)] into an empty callback: the target and [other] afterwards. *)
Definition MoveFrom {C} (target other : OperationCallback C)
    : OperationCallback C * OperationCallback C :=
  match other with
  | None => (target, other)
  | Some _ => (other, None)
  end.

(** [callback = std::move(other)] for two objects: [Reset] then [MoveFrom]. *)
Definition MoveAssign {C} (target other : OperationCallback C)
    : OperationCallback C * OperationCallback C := MoveFrom None other.

(** [Reset] *)
Definition ResetCallback {C} (callback : OperationCallback C) : OperationCallback C := None.

(** ** Handles *)

(** What a provider with states [St] offers for its references [Ref]. [Ambient] is what
    a wait depends on besides: the thread that waits and how the wait ends. *)
Class OperationVTable (St Ref C Ambient : Type) := {
  poll : Ref -> St -> OperationPollResult;
  wait_until : Ref -> Ambient -> St -> OperationWaitResult;
  on_complete : Ref -> OperationCallback C -> St -> OperationCallbackStatus * St;
  release : Ref -> St -> St;
}.

(** A null [state_] is [None]. *)
Definition Operation (Ref : Type) : Type := option Ref.

Section Handles.
Context {St Ref C Ambient : Type} `{OperationVTable St Ref C Ambient}.

Definition Poll (operation : Operation Ref) (st : St) : OperationPollResult :=
  match operation with None => empty_poll | Some r => poll r st end.

Definition WaitUntil (operation : Operation Ref) (ambient : Ambient) (st : St)
    : OperationWaitResult :=
  match operation with None => empty_wait | Some r => wait_until r ambient st end.

Definition OnComplete (operation : Operation Ref) (callback : OperationCallback C) (st : St)
    : OperationCallbackStatus * St :=
  match operation with
  | None => (kInvalidOperation, st)
  | Some r => on_complete r callback st
  end.

Definition Reset (operation : Operation Ref) (st : St) : Operation Ref * St :=
  match operation with None => (None, st) | Some r => (None, release r st) end.

(** [operation = std::move(other)] for two handles: both handles and the state after. *)
Definition MoveOperation (operation other : Operation Ref) (st : St)
    : Operation Ref * Operation Ref * St :=
  let '(_, st) := Reset operation st in (other, None, st).
End Handles.
