(* ===== verification/ControlReserve.v ===== *)
(** * The control reserve ([src/control/control_reserve.cpp], [src/control/thread_role.cpp])

    A fixed pool of control nodes. A node serves one operation at a time: its handle
    polls and waits, its completion publishes the result once, and one callback may be
    registered and is run by a dispatcher. The last owner returns the node to the pool.

    The code's critical sections are the definitions here, and the functions are their
    compositions; [control_step] interleaves the critical sections of any number of
    threads. Both intrusive lists, the free nodes and the dispatcher's tasks, are kept
    as the links the code stores in the nodes. *)
From S2P Require Import Prelude Operation.
From stdpp Require Import relations strings.
#[local] Open Scope Z_scope.
#[local] Open Scope ulog_scope.

(** ** Thread roles *)

Inductive UlogThreadRole := kExternal | kWorker | kIo | kCallback.

#[export] Instance UlogThreadRole_eq_dec : EqDecision UlogThreadRole.
Proof. solve_decision. Defined.

(** [ScopedUlogThreadRole]: the role inside the scope, and the one restored after it. *)
Definition ScopedRole (role current : UlogThreadRole) : UlogThreadRole * UlogThreadRole :=
  (role, current).

(** ** Nodes *)

Inductive CallbackState := kEmpty | kInstalling | kArmed | kQueued | kRunning | kDone.

#[export] Instance CallbackState_eq_dec : EqDecision CallbackState.
Proof. solve_decision. Defined.

(** [next_free] and [task_next] are the links of the two lists, [None] their end. *)
Record ControlNode (C : Type) := {
  ready : bool;
  result : OperationResult;
  owner : bool;
  generation : Z;
  owners : Z;
  next_free : option nat;
  task_next : option nat;
  callback : OperationCallback C;
  callback_state : CallbackState;
  completed : bool;
}.
Arguments ready {C}. Arguments result {C}. Arguments owner {C}. Arguments generation {C}.
Arguments owners {C}. Arguments next_free {C}. Arguments task_next {C}. Arguments callback {C}.
Arguments callback_state {C}. Arguments completed {C}.

#[export] Instance ControlNode_eta C : Eta (ControlNode C) := fun n =>
  {| ready := ready n; result := result n; owner := owner n; generation := generation n;
     owners := owners n; next_free := next_free n; task_next := task_next n;
     callback := callback n; callback_state := callback_state n; completed := completed n |}.

Definition empty_node {C} : ControlNode C :=
  {| ready := false; result := empty_result; owner := false; generation := 0; owners := 0;
     next_free := None; task_next := None; callback := None; callback_state := kEmpty;
     completed := false |}.

(** The domain, with the queue of its dispatcher. *)
Record ControlDomain (C : Type) := {
  nodes : list (ControlNode C);
  free_head : option nat;
  in_use : Z;
  queue_head : option nat;
  queue_tail : option nat;
  dispatcher_state_bytes : Z;
}.
Arguments nodes {C}. Arguments free_head {C}. Arguments in_use {C}. Arguments queue_head {C}.
Arguments queue_tail {C}. Arguments dispatcher_state_bytes {C}.

#[export] Instance ControlDomain_eta C : Eta (ControlDomain C) := fun d =>
  {| nodes := nodes d; free_head := free_head d; in_use := in_use d; queue_head := queue_head d;
     queue_tail := queue_tail d; dispatcher_state_bytes := dispatcher_state_bytes d |}.

(** What an [Operation] and an [OperationCompletion] hold. [serial] numbers the started
    operations; the code does not store it. *)
Record NodeRef := { node : nat; node_generation : Z; serial : nat }.

Record ControlReserveSnapshot := {
  snapshot_capacity : Z;
  snapshot_in_use : Z;
  node_backing_bytes : Z;
  snapshot_dispatcher_bytes : Z;
}.

Section Reserve.
Context {C : Type}.

Definition node_at (i : nat) (d : ControlDomain C) : ControlNode C :=
  default empty_node (nodes d !! i).

Definition on_node (i : nat) (f : ControlNode C -> ControlNode C) (d : ControlDomain C)
    : ControlDomain C := d <| nodes ::= alter f i |>.

(** ** Construction *)

Definition InitialNode (capacity index : nat) : ControlNode C :=
  empty_node <| next_free := if (index + 1 <? capacity)%nat then Some (index + 1)%nat else None |>.

Definition MakeDomain (requested_capacity : nat) (state_bytes : Z) : ControlDomain C :=
  {| nodes := InitialNode requested_capacity <$> seq 0 requested_capacity;
     free_head := Some 0%nat; in_use := 0; queue_head := None; queue_tail := None;
     dispatcher_state_bytes := state_bytes |}.

(** [ControlReserve::ControlReserve]; the error is [std::invalid_argument]. The
    dispatcher is its validity and its fixed state. *)
Definition MakeReserve (capacity : nat) (dispatcher_valid : bool) (state_bytes : Z)
    : string + ControlDomain C :=
  if (capacity =? 0)%nat
  then inl "control reserve capacity must be at least 1; configure a positive control-operation capacity"%string
  else if negb dispatcher_valid
  then inl "control reserve callback dispatcher is empty; provide an owned non-blocking dispatcher"%string
  else inr (MakeDomain capacity state_bytes).

(** ** The dispatcher's queue *)

(** [CallbackTaskQueue::Push] *)
Definition Push (task : nat) (d : ControlDomain C) : ControlDomain C :=
  let d := on_node task (fun n => n <| task_next := None |>) d in
  let d := match queue_tail d with
           | None => d <| queue_head := Some task |>
           | Some tail => on_node tail (fun n => n <| task_next := Some task |>) d
           end in
  d <| queue_tail := Some task |>.

(** [CallbackTaskQueue::Pop] *)
Definition Pop (d : ControlDomain C) : option nat * ControlDomain C :=
  match queue_head d with
  | None => (None, d)
  | Some task =>
      let d := d <| queue_head := task_next (node_at task d) |> in
      let d := match queue_head d with None => d <| queue_tail := None |> | Some _ => d end in
      (Some task, on_node task (fun n => n <| task_next := None |>) d)
  end.

Definition QueueEmpty (d : ControlDomain C) : bool := bool_decide (queue_head d = None).

(** ** Starting *)

Definition TryStart (d : ControlDomain C) : OperationStartFailure + (nat * Z * ControlDomain C) :=
  match free_head d with
  | None => inl {| control_capacity := zlen (nodes d); controls_in_use := in_use d |}
  | Some i =>
      let n := node_at i d in
      let d := d <| free_head := next_free n |> <| in_use ::= fun u => u +w 1 |> in
      let n := n <| generation ::= fun g => g +w 1 |> <| owners := 2 |> <| completed := false |>
                 <| ready := false |> <| result := empty_result |> <| callback := None |>
                 <| callback_state := kEmpty |> <| task_next := None |> <| owner := true |>
                 <| next_free := None |> in
      inr (i, generation n, on_node i (fun _ => n) d)
  end.

Definition GetSnapshot (sizeof_node : Z) (d : ControlDomain C) : ControlReserveSnapshot :=
  {| snapshot_capacity := zlen (nodes d); snapshot_in_use := in_use d;
     node_backing_bytes := w64 (zlen (nodes d) * sizeof_node);
     snapshot_dispatcher_bytes := dispatcher_state_bytes d |}.

(** ** Releasing *)

(** The critical section of [ReleaseOwner]: whether the node must be recycled. *)
Definition ReleaseLocked (ref : NodeRef) (d : ControlDomain C) : bool * ControlDomain C :=
  let n := node_at (node ref) d in
  if negb (generation n =? node_generation ref) || (owners n =? 0) then (false, d)
  else
    let d := on_node (node ref) (fun n => n <| owners ::= fun o => o -w 1 |>) d in
    (owners (node_at (node ref) d) =? 0, d).

(** [ControlDomain::Recycle]: under the node's mutex, then under the domain's. *)
Definition RecycleNode (i : nat) (d : ControlDomain C) : ControlDomain C :=
  on_node i (fun n =>
    n <| completed := false |> <| ready := false |> <| result := empty_result |>
      <| owners := 0 |> <| task_next := None |> <| callback := None |>
      <| callback_state := kEmpty |> <| owner := false |>) d.

Definition RecycleFree (i : nat) (d : ControlDomain C) : ControlDomain C :=
  let d := on_node i (fun n => n <| next_free := free_head d |>) d in
  d <| free_head := Some i |> <| in_use ::= fun u => u -w 1 |>.

Definition Recycle (i : nat) (d : ControlDomain C) : ControlDomain C :=
  RecycleFree i (RecycleNode i d).

Definition ReleaseOwner (ref : NodeRef) (d : ControlDomain C) : ControlDomain C :=
  let '(last, d) := ReleaseLocked ref d in if last then Recycle (node ref) d else d.

(** ** Completing *)

(** The critical section of [TryComplete]: [completed] and [enqueue_callback]. *)
Definition CompleteLocked (ref : NodeRef) (outcome : OperationOutcome) (report : OperationReport)
    (d : ControlDomain C) : bool * bool * ControlDomain C :=
  let n := node_at (node ref) d in
  if (generation n =? node_generation ref) && negb (completed n) then
    let n := n <| result := MakeResult outcome report |> <| completed := true |>
               <| ready := true |> in
    if decide (callback_state n = kArmed)
    then (true, true, on_node (node ref) (fun _ =>
            n <| callback_state := kQueued |> <| owners ::= fun o => o +w 1 |>) d)
    else (true, false, on_node (node ref) (fun _ => n) d)
  else (false, false, d).

(** [OperationCompletion::TryComplete]; the completion is empty afterwards. *)
Definition TryComplete (completion : option NodeRef) (outcome : OperationOutcome)
    (report : OperationReport) (d : ControlDomain C) : bool * ControlDomain C :=
  match completion with
  | None => (false, d)
  | Some ref =>
      let '(did_complete, enqueue_callback, d) := CompleteLocked ref outcome report d in
      let d := if enqueue_callback then Push (node ref) d else d in
      (did_complete, ReleaseOwner ref d)
  end.

(** [OperationCompletion::~OperationCompletion] *)
Definition DropCompletion (completion : option NodeRef) (d : ControlDomain C) : ControlDomain C :=
  match completion with
  | None => d
  | Some _ => (TryComplete completion kCancelled empty_report d).2
  end.

(** [completion = std::move(other)] for two completions. *)
Definition MoveCompletion (completion other : option NodeRef) (d : ControlDomain C)
    : option NodeRef * option NodeRef * ControlDomain C :=
  (other, None, DropCompletion completion d).

(** ** Callbacks *)

(** The first critical section of [RegisterCallback]: the status of an early return, or
    [None] when the node is pinned. *)
Definition RegisterBegin (ref : NodeRef) (d : ControlDomain C)
    : option OperationCallbackStatus * ControlDomain C :=
  let n := node_at (node ref) d in
  if negb (generation n =? node_generation ref) then (Some kInvalidOperation, d)
  else if negb (bool_decide (callback_state n = kEmpty)) then (Some kAlreadyRegistered, d)
  else (None, on_node (node ref) (fun n =>
          n <| callback_state := kInstalling |> <| owners ::= fun o => o +w 1 |>) d).

(** The callback moves in, then the second critical section: whether to enqueue. *)
Definition RegisterInstall (i : nat) (cb : OperationCallback C) (d : ControlDomain C)
    : bool * ControlDomain C :=
  let n := node_at i d in
  let n := n <| callback := cb |> <| callback_state := kArmed |> in
  if completed n
  then (true, on_node i (fun _ => n <| callback_state := kQueued |> <| owners ::= fun o => o +w 1 |>) d)
  else (false, on_node i (fun _ => n) d).

Definition RegisterCallback (ref : NodeRef) (cb : OperationCallback C) (d : ControlDomain C)
    : OperationCallbackStatus * ControlDomain C :=
  match cb with
  | None => (kInvalidCallback, d)
  | Some _ =>
      match RegisterBegin ref d with
      | (Some status, d) => (status, d)
      | (None, d) =>
          let '(enqueue, d) := RegisterInstall (node ref) cb d in
          let d := if enqueue then Push (node ref) d else d in
          (kRegistered, ReleaseOwner ref d)
      end
  end.

(** The first critical section of [RunCallback]: the result and the generation. *)
Definition RunBegin (i : nat) (d : ControlDomain C)
    : option (OperationResult * Z) * ControlDomain C :=
  let n := node_at i d in
  if negb (bool_decide (callback_state n = kQueued)) then (None, d)
  else (Some (result n, generation n), on_node i (fun n => n <| callback_state := kRunning |>) d).

(** After the callback ran: it is destroyed, and the second critical section. *)
Definition RunEnd (i : nat) (d : ControlDomain C) : ControlDomain C :=
  on_node i (fun n => n <| callback := ResetCallback (callback n) |> <| callback_state := kDone |>) d.

(** The callable that ran and its argument, if one ran. *)
Definition RunCallback (i : nat) (d : ControlDomain C)
    : option (OperationCallback C * OperationResult) * ControlDomain C :=
  match RunBegin i d with
  | (None, d) => (None, d)
  | (Some (res, gen), d) =>
      let ran := callback (node_at i d) in
      let d := RunEnd i d in
      (Some (ran, res), ReleaseOwner {| node := i; node_generation := gen; serial := 0 |} d)
  end.

(** [ManualCallbackDispatcher::RunOne] *)
Definition RunOne (d : ControlDomain C)
    : bool * option (OperationCallback C * OperationResult) * ControlDomain C :=
  if QueueEmpty d then (false, None, d)
  else match Pop d with
       | (Some task, d) => let '(ran, d) := RunCallback task d in (true, ran, d)
       | (None, d) => (true, None, d)
       end.

(** One round of [ThreadedCallbackDispatcher::Run]: the condition wait goes on, the thread
    returns, or a task was popped and runs. A stopping dispatcher runs what is queued. *)
Inductive DispatcherRound := kKeepsWaiting | kReturns | kRunsTask (task : nat) (d : ControlDomain C).

Definition Run (stopping : bool) (d : ControlDomain C) : DispatcherRound :=
  if negb (stopping || negb (QueueEmpty d)) then kKeepsWaiting
  else if QueueEmpty d then kReturns
  else match Pop d with (Some task, d) => kRunsTask task d | (None, _) => kReturns end.

(** ** Observing *)

Definition PollNode (ref : NodeRef) (d : ControlDomain C) : OperationPollResult :=
  let n := node_at (node ref) d in
  if negb (generation n =? node_generation ref) then empty_poll
  else if negb (ready n) then {| poll_status := kPending; poll_completion := None |}
  else {| poll_status := kPollCompleted; poll_completion := Some (result n) |}.

(** A wait sees the state when it starts, when it has the node's mutex ([None] when
    taking it throws), and when the condition wait ends ([None] when that throws). *)
Record WaitSchedule := {
  waiting_role : UlogThreadRole;
  at_lock : option (ControlDomain C);
  at_end : option (ControlDomain C);
}.

Definition WaitForNode (ref : NodeRef) (schedule : WaitSchedule) (d : ControlDomain C)
    : OperationWaitResult :=
  let n := node_at (node ref) d in
  let failed := {| wait_status := kWaitFailed; wait_completion := None |} in
  if ready n then {| wait_status := kWaitCompleted; wait_completion := Some (result n) |}
  else if negb (bool_decide (waiting_role schedule = kExternal))
  then {| wait_status := kForbiddenThread; wait_completion := None |}
  else
    match at_lock schedule with
    | None => failed
    | Some d =>
        if negb (generation (node_at (node ref) d) =? node_generation ref) then empty_wait
        else
          match at_end schedule with
          | None => failed
          | Some d =>
              let n := node_at (node ref) d in
              if negb (completed n)
              then {| wait_status := kDeadlineExceeded; wait_completion := None |}
              else {| wait_status := kWaitCompleted; wait_completion := Some (result n) |}
          end
    end.

(** [kOperationVTable] *)
#[export] Instance kOperationVTable
    : OperationVTable (ControlDomain C) NodeRef C WaitSchedule := {|
  poll := PollNode;
  wait_until := WaitForNode;
  on_complete := RegisterCallback;
  release := ReleaseOwner;
|}.
End Reserve.
Arguments WaitSchedule : clear implicits.

(** ** Interleavings *)

(** What the threads hold: handles, and calls between two critical sections.
    [tEnqueueing] and [tReleasing] are independent here, although [TryComplete] and
    [RegisterCallback] enqueue before they release: every order is allowed. *)
Inductive Token (C : Type) :=
  | tOperation (ref : NodeRef)
  | tCompletion (ref : NodeRef)
  | tInstalling (ref : NodeRef) (cb : C)
  | tEnqueueing (i : nat)
  | tPopped (i : nat)
  | tRunning (i : nat) (gen : Z) (res : OperationResult)
  | tReleasing (ref : NodeRef)
  | tRecycling (i : nat)
  | tFreeing (i : nat).
Arguments tOperation {C}. Arguments tCompletion {C}. Arguments tInstalling {C}.
Arguments tEnqueueing {C}. Arguments tPopped {C}. Arguments tRunning {C}.
Arguments tReleasing {C}. Arguments tRecycling {C}. Arguments tFreeing {C}.

(** [serials] numbers the operation each node serves, [started] counts the operations;
    the histories list the callbacks that were registered, the results that were
    published, and the callbacks that ran with their argument, by operation. *)
Record World (C : Type) := {
  domain : ControlDomain C;
  tokens : list (Token C);
  serials : list nat;
  started : nat;
  registered : list (nat * C);
  outcomes : list (nat * OperationResult);
  invoked : list (nat * (OperationCallback C * OperationResult));
}.
Arguments domain {C}. Arguments tokens {C}. Arguments serials {C}. Arguments started {C}.
Arguments registered {C}. Arguments outcomes {C}. Arguments invoked {C}.

#[export] Instance World_eta C : Eta (World C) := fun w =>
  {| domain := domain w; tokens := tokens w; serials := serials w; started := started w;
     registered := registered w; outcomes := outcomes w; invoked := invoked w |}.

Definition initial_world {C} (d : ControlDomain C) : World C :=
  {| domain := d; tokens := []; serials := replicate (length (nodes d)) 0%nat; started := 0;
     registered := []; outcomes := []; invoked := [] |}.

Definition serial_of {C} (i : nat) (w : World C) : nat := default 0%nat (serials w !! i).

Inductive control_step {C} : World C -> World C -> Prop :=
  | step_start w i gen d :
      TryStart (domain w) = inr (i, gen, d) ->
      let ref := {| node := i; node_generation := gen; serial := started w |} in
      control_step w
        (w <| domain := d |> <| tokens := tOperation ref :: tCompletion ref :: tokens w |>
           <| serials ::= <[i := started w]> |> <| started ::= S |>)
  | step_drop w before ref after :
      tokens w = before ++ tOperation ref :: after ->
      control_step w (w <| tokens := tReleasing ref :: before ++ after |>)
  | step_complete w before ref after outcome report did_complete enqueue d :
      tokens w = before ++ tCompletion ref :: after ->
      CompleteLocked ref outcome report (domain w) = (did_complete, enqueue, d) ->
      control_step w
        (w <| domain := d |>
           <| tokens := (if enqueue then [tEnqueueing (node ref)] else [])
                          ++ tReleasing ref :: before ++ after |>
           <| outcomes := outcomes w ++
                (if did_complete then [(serial ref, MakeResult outcome report)] else []) |>)
  | step_register w before ref after cb d :
      tokens w = before ++ tOperation ref :: after ->
      RegisterBegin ref (domain w) = (None, d) ->
      control_step w
        (w <| domain := d |> <| tokens := tInstalling ref cb :: tOperation ref :: before ++ after |>
           <| registered := registered w ++ [(serial ref, cb)] |>)
  | step_install w before ref cb after enqueue d :
      tokens w = before ++ tInstalling ref cb :: after ->
      RegisterInstall (node ref) (Some cb) (domain w) = (enqueue, d) ->
      control_step w
        (w <| domain := d |>
           <| tokens := (if enqueue then [tEnqueueing (node ref)] else [])
                          ++ tReleasing ref :: before ++ after |>)
  | step_enqueue w before i after :
      tokens w = before ++ tEnqueueing i :: after ->
      control_step w (w <| domain ::= Push i |> <| tokens := before ++ after |>)
  | step_pop w i d :
      Pop (domain w) = (Some i, d) ->
      control_step w (w <| domain := d |> <| tokens := tPopped i :: tokens w |>)
  | step_run w before i after found d :
      tokens w = before ++ tPopped i :: after ->
      RunBegin i (domain w) = (found, d) ->
      control_step w
        (w <| domain := d |>
           <| tokens := match found with
                        | Some (res, gen) => tRunning i gen res :: before ++ after
                        | None => before ++ after
                        end |>)
  | step_ran w before i gen res after :
      tokens w = before ++ tRunning i gen res :: after ->
      control_step w
        (w <| domain ::= RunEnd i |>
           <| tokens := tReleasing {| node := i; node_generation := gen; serial := serial_of i w |}
                          :: before ++ after |>
           <| invoked := invoked w ++
                [(serial_of i w, (callback (node_at i (domain w)), res))] |>)
  | step_release w before ref after last d :
      tokens w = before ++ tReleasing ref :: after ->
      ReleaseLocked ref (domain w) = (last, d) ->
      control_step w
        (w <| domain := d |>
           <| tokens := (if last then [tRecycling (node ref)] else []) ++ before ++ after |>)
  | step_recycle w before i after :
      tokens w = before ++ tRecycling i :: after ->
      control_step w (w <| domain ::= RecycleNode i |> <| tokens := tFreeing i :: before ++ after |>)
  | step_free w before i after :
      tokens w = before ++ tFreeing i :: after ->
      control_step w (w <| domain ::= RecycleFree i |> <| tokens := before ++ after |>).

(** ** The invariant *)

Section Invariant.
Context {C : Type}.
Implicit Types (w : World C) (n : ControlNode C) (t : Token C).

Definition tok_node t : nat :=
  match t with
  | tOperation ref | tCompletion ref | tInstalling ref _ | tReleasing ref => node ref
  | tEnqueueing i | tPopped i | tRunning i _ _ | tRecycling i | tFreeing i => i
  end.

Definition tokens_of (i : nat) w : list (Token C) := filter (fun t => tok_node t = i) (tokens w).

(** The owner counts, completions and callback activities a token stands for. *)
Definition holds t : Z := match t with tRecycling _ | tFreeing _ => 0 | _ => 1 end.
Definition completing t : Z := match t with tCompletion _ => 1 | _ => 0 end.
Definition acting t : Z :=
  match t with tInstalling _ _ | tEnqueueing _ | tPopped _ | tRunning _ _ _ => 1 | _ => 0 end.

Definition busy (s : CallbackState) : Z :=
  match s with kInstalling | kQueued | kRunning => 1 | _ => 0 end.
Definition budget (s : CallbackState) : Z :=
  match s with kEmpty => 2 | kInstalling | kArmed => 3 | _ => 4 end.

Definition waits (queued : list nat) (i : nat) : Z := if decide (i ∈ queued) then 1 else 0.

Definition tok_ok w (id : nat) n t : Prop :=
  match t with
  | tOperation ref | tCompletion ref | tReleasing ref =>
      node_generation ref = generation n /\ serial ref = id
  | tInstalling ref cb =>
      node_generation ref = generation n /\ serial ref = id
      /\ callback_state n = kInstalling /\ (id, cb) ∈ registered w
  | tEnqueueing _ | tPopped _ => callback_state n = kQueued
  | tRunning _ gen res => gen = generation n /\ callback_state n = kRunning /\ res = result n
  | tRecycling _ | tFreeing _ => False
  end.

(** A node that serves the operation [id]. *)
Record live w (queued : list nat) (i : nat) n (id : nat) : Prop := {
  lv_owners : owners n = sumZ holds (tokens_of i w) + waits queued i;
  lv_bounds : 0 < owners n <= budget (callback_state n);
  lv_completing : sumZ completing (tokens_of i w) = if completed n then 0 else 1;
  lv_acting : sumZ acting (tokens_of i w) + waits queued i = busy (callback_state n);
  lv_tokens : forall t, t ∈ tokens_of i w -> tok_ok w id n t;
  lv_queued : i ∈ queued -> callback_state n = kQueued;
  lv_ready : ready n = completed n;
  lv_outcome : if completed n then (id, result n) ∈ outcomes w else id ∉ (outcomes w).*1;
  lv_callback : match callback_state n with
    | kEmpty => id ∉ (registered w).*1
    | kArmed | kQueued | kRunning => exists cb, callback n = Some cb /\ (id, cb) ∈ registered w
    | _ => True end;
  lv_phase : match callback_state n with
    | kArmed => completed n = false
    | kQueued | kRunning | kDone => completed n = true
    | _ => True end;
  lv_invoked : (id ∈ (invoked w).*1) <-> (callback_state n = kDone);
  lv_serial : (id < started w)%nat;
}.

(** A node of the pool, or on its way back to it. *)
Definition idle w (queued free : list nat) (i : nat) : Prop :=
  (i ∉ queued)
  /\ ((i ∈ free) /\ tokens_of i w = []
      \/ (i ∉ free) /\ (tokens_of i w = [tRecycling i] \/ tokens_of i w = [tFreeing i])).

Definition node_ok w (queued free : list nat) (i : nat) n (id : nat) : Prop :=
  (i ∉ free) /\ live w queued i n id \/ idle w queued free i.

(** [start] and the links of [get] list [l]. *)
Fixpoint chain (ns : list (ControlNode C)) (get : ControlNode C -> option nat) (start : option nat)
    (l : list nat) : Prop :=
  match l with
  | [] => start = None
  | i :: l => start = Some i /\ exists n, ns !! i = Some n /\ chain ns get (get n) l
  end.

Definition serves w (queued : list nat) (i id : nat) : Prop :=
  exists n, nodes (domain w) !! i = Some n /\ serials w !! i = Some id /\ live w queued i n id.

(** The histories. *)
Record history_ok w : Prop := {
  hs_registered : NoDup (registered w).*1 /\ forall id, id ∈ (registered w).*1 -> (id < started w)%nat;
  hs_outcomes : NoDup (outcomes w).*1 /\ forall id, id ∈ (outcomes w).*1 -> (id < started w)%nat;
  hs_invoked : NoDup (invoked w).*1 /\ forall id cb res, (id, (cb, res)) ∈ invoked w ->
    (id, res) ∈ outcomes w /\ exists c, cb = Some c /\ (id, c) ∈ registered w;
}.

(** The operation was completed, and a registered callback ran. *)
Definition finished w (id : nat) : Prop :=
  (id ∈ (outcomes w).*1) /\ ((id ∈ (registered w).*1) -> (id ∈ (invoked w).*1)).

Record inv w (queued free : list nat) : Prop := {
  v_nodes : forall i n id, nodes (domain w) !! i = Some n -> serials w !! i = Some id ->
    node_ok w queued free i n id;
  v_range : forall t, t ∈ tokens w -> (tok_node t < length (nodes (domain w)))%nat;
  v_serials : length (serials w) = length (nodes (domain w));
  v_free : chain (nodes (domain w)) next_free (free_head (domain w)) free;
  v_queue : chain (nodes (domain w)) task_next (queue_head (domain w)) queued
    /\ queue_tail (domain w) = last queued;
  v_nodup : NoDup free /\ NoDup queued;
  v_count : in_use (domain w) = zlen (nodes (domain w)) - zlen free
    /\ zlen (nodes (domain w)) < 2 ^ 64;
  v_distinct : forall i j id, serves w queued i id -> serves w queued j id -> i = j;
  v_history : history_ok w;
  (** An operation was completed, and its callback ran, before its node is free. *)
  v_finished : forall id, (id < started w)%nat -> (exists i, serves w queued i id)
    \/ finished w id;
}.

(** ** Lemmas: tokens and histories *)

Lemma tokens_of_split w before t after :
  tokens w = before ++ t :: after ->
  tokens_of (tok_node t) w
  = filter (fun x => tok_node x = tok_node t) before ++ t :: filter (fun x => tok_node x = tok_node t) after.
Proof.
  intros Ht. unfold tokens_of. rewrite Ht, filter_app, filter_cons. by rewrite decide_True by done.
Qed.

Lemma filter_other (l : list (Token C)) i j :
  (forall t, t ∈ l -> tok_node t = i) -> j <> i -> filter (fun t => tok_node t = j) l = [].
Proof.
  intros Hl Hj. induction l as [|t l IH]; [done|]. rewrite filter_cons.
  rewrite decide_False by (rewrite (Hl t) by (by left); congruence).
  apply IH. intros x Hx. apply Hl. by right.
Qed.

Lemma filter_own (l : list (Token C)) i :
  (forall t, t ∈ l -> tok_node t = i) -> filter (fun t => tok_node t = i) l = l.
Proof.
  intros Hl. induction l as [|t l IH]; [done|]. rewrite filter_cons, decide_True by (apply Hl; by left).
  f_equal. apply IH. intros x Hx. apply Hl. by right.
Qed.

Definition extends {A} (id : nat) (l l' : list (nat * A)) : Prop :=
  exists k, l' = l ++ k /\ forall e, e ∈ k -> e.1 = id.

Lemma extends_refl {A} id (l : list (nat * A)) : extends id l l.
Proof. exists []. rewrite app_nil_r. split; [done|]. by intros e He%elem_of_nil. Qed.

Lemma extends_one {A} id (l : list (nat * A)) a : extends id l (l ++ [(id, a)]).
Proof. exists [(id, a)]. split; [done|]. by intros e ->%list_elem_of_singleton. Qed.

Lemma extends_elem {A} id (l l' : list (nat * A)) e : extends id l l' -> e ∈ l -> e ∈ l'.
Proof. intros (k & -> & _) He. apply elem_of_app. by left. Qed.

Lemma extends_key {A} id (l l' : list (nat * A)) x : extends id l l' -> x ∈ l.*1 -> x ∈ l'.*1.
Proof. intros (k & -> & _) Hx. rewrite fmap_app. apply elem_of_app. by left. Qed.

Lemma extends_other {A} id (l l' : list (nat * A)) x :
  extends id l l' -> x <> id -> x ∈ l'.*1 <-> x ∈ l.*1.
Proof.
  intros (k & -> & Hk) Hx. rewrite fmap_app, elem_of_app. split; [|by left].
  intros [?|(e & -> & He)%list_elem_of_fmap]; [done|]. by rewrite (Hk e He) in Hx.
Qed.

Lemma NoDup_snoc_key {A} (l : list (nat * A)) id a :
  NoDup l.*1 -> id ∉ l.*1 -> NoDup (l ++ [(id, a)]).*1.
Proof.
  intros Hl Hid. rewrite fmap_app. apply list.NoDup_app. split_and!; [done| |apply NoDup_singleton].
  by intros x Hx ->%list_elem_of_singleton.
Qed.

Lemma sum_nonneg (f : Token C -> Z) l : (forall t, 0 <= f t) -> 0 <= sumZ f l.
Proof. intros Hf. by apply sumZ_nonneg. Qed.
Lemma holds_nonneg t : 0 <= holds t. Proof. by destruct t. Qed.
Lemma acting_nonneg t : 0 <= acting t. Proof. by destruct t. Qed.
Lemma completing_nonneg t : 0 <= completing t. Proof. by destruct t. Qed.
Lemma waits_nonneg queued i : 0 <= waits queued i.
Proof. unfold waits. by destruct (decide _). Qed.

(** No token but one acts on a busy node. *)
Lemma passive_others l t : sumZ acting l = 0 -> t ∈ l -> acting t = 0.
Proof.
  intros Hs Ht. apply list_elem_of_lookup in Ht as [k Hk].
  pose proof (sumZ_lookup_le acting l k t (fun y _ => acting_nonneg y) Hk).
  pose proof (acting_nonneg t). lia.
Qed.

Lemma tok_ok_passive w w' id n n' t :
  acting t = 0 -> generation n' = generation n -> tok_ok w id n t -> tok_ok w' id n' t.
Proof. intros Ha Hg. by destruct t; cbn in *; rewrite ?Hg. Qed.

Lemma tok_ok_same w w' id id0 n n' t :
  generation n' = generation n -> callback_state n' = callback_state n -> result n' = result n ->
  extends id0 (registered w) (registered w') -> tok_ok w id n t -> tok_ok w' id n' t.
Proof.
  intros Hg Hc Hr Hext. destruct t; cbn; rewrite ?Hg, ?Hc, ?Hr; try done.
  intros (? & ? & ? & ?). split_and!; [done..|by eapply extends_elem].
Qed.

(** ** Lemmas: the other nodes *)

(** [n'] differs from [n] in its links only. *)
Record links n n' : Prop := {
  lk_ready : ready n' = ready n;
  lk_result : result n' = result n;
  lk_generation : generation n' = generation n;
  lk_owners : owners n' = owners n;
  lk_callback : callback n' = callback n;
  lk_state : callback_state n' = callback_state n;
  lk_completed : completed n' = completed n;
}.

Lemma links_refl n : links n n.
Proof. done. Qed.

Section Others.
Context (w w' : World C) (queued queued' free free' : list nat) (i id0 : nat).
Context (Htok : forall j, j <> i -> tokens_of j w' = tokens_of j w).
Context (Hq : forall j, j <> i -> j ∈ queued' <-> j ∈ queued).
Context (Hf : forall j, j <> i -> j ∈ free' <-> j ∈ free).
Context (Hstarted : (started w <= started w')%nat).
Context (Hreg : extends id0 (registered w) (registered w')).
Context (Hout : extends id0 (outcomes w) (outcomes w')).
Context (Hinv : extends id0 (invoked w) (invoked w')).

Lemma others_waits j : j <> i -> waits queued' j = waits queued j.
Proof. intros Hj. unfold waits. by rewrite (decide_ext _ _ _ _ (Hq j Hj)). Qed.

Lemma others_idle j : j <> i -> idle w queued free j -> idle w' queued' free' j.
Proof. intros Hj. unfold idle. by rewrite Hq, Hf, Htok by done. Qed.

Lemma others_live j n n' id :
  j <> i -> id <> id0 -> links n n' -> live w queued j n id -> live w' queued' j n' id.
Proof.
  intros Hj Hid [H1 H2 H3 H4 H5 H6 H7] [].
  constructor; rewrite ?H1, ?H2, ?H4, ?H5, ?H6, ?H7, ?(Htok j Hj), ?(others_waits j Hj); try done.
  - intros t Ht. apply (tok_ok_same w _ id id0 n); [done..|by apply lv_tokens0].
  - by rewrite Hq.
  - destruct (completed n); [by eapply extends_elem|]. by rewrite extends_other.
  - destruct (callback_state n); try done; [by rewrite extends_other|..];
      destruct lv_callback0 as (cb & ? & ?); exists cb; (split; [done|by eapply extends_elem]).
  - by rewrite extends_other.
  - lia.
Qed.
End Others.

Lemma live_not_idle w queued free i n id : live w queued i n id -> ~ idle w queued free i.
Proof.
  intros [Ho Hb] [Hq Hi]. revert Ho Hb. unfold waits. rewrite decide_False by done.
  destruct Hi as [[_ ->]|[_ [->| ->]]]; cbn; lia.
Qed.

(** The step changes the node [i] and the tokens and histories of its operation. *)
Section NodeStep.
Context (w w' : World C) (queued queued' free : list nat) (i : nat) (n n' : ControlNode C) (id : nat).
Context (Hinv : inv w queued free).
Context (Hi : nodes (domain w) !! i = Some n) (Hid : serials w !! i = Some id) (Hnf : i ∉ free).
Context (Hn' : nodes (domain w') !! i = Some n').
Context (Hothers : forall j x', j <> i -> nodes (domain w') !! j = Some x' ->
  exists x, nodes (domain w) !! j = Some x /\ links x x').
Context (Hothers' : forall j x, j <> i -> nodes (domain w) !! j = Some x ->
  exists x', nodes (domain w') !! j = Some x' /\ links x x').
Context (Hlength : length (nodes (domain w')) = length (nodes (domain w))).
Context (Htok : forall j, j <> i -> tokens_of j w' = tokens_of j w).
Context (Hrange : forall t, t ∈ tokens w' -> tok_node t = i \/ t ∈ tokens w).
Context (Hserials : serials w' = serials w) (Hstarted : started w' = started w).
Context (Hreg : extends id (registered w) (registered w')).
Context (Hout : extends id (outcomes w) (outcomes w')).
Context (Hran : extends id (invoked w) (invoked w')).
Context (Hq : forall j, j <> i -> j ∈ queued' <-> j ∈ queued).
Context (Hqueue : chain (nodes (domain w')) task_next (queue_head (domain w')) queued'
  /\ queue_tail (domain w') = last queued').
Context (Hqnodup : NoDup queued').
Context (Hfree : chain (nodes (domain w')) next_free (free_head (domain w')) free).
Context (Hcount : in_use (domain w') = in_use (domain w)).
Context (Hhist : history_ok w').
Context (Hown : node_ok w' queued' free i n' id).
Context (Hback : live w' queued' i n' id -> live w queued i n id).
Context (Hfin : live w queued i n id -> live w' queued' i n' id \/ finished w' id).
Context (Hkey : live w queued i n id
  \/ registered w' = registered w /\ outcomes w' = outcomes w /\ invoked w' = invoked w).

Lemma step_keys x :
  (live w queued i n id -> x <> id) -> exists key, x <> key
    /\ extends key (registered w) (registered w') /\ extends key (outcomes w) (outcomes w')
    /\ extends key (invoked w) (invoked w').
Proof.
  intros Hx. destruct Hkey as [Hl|(-> & -> & ->)]; [exists id; auto|].
  exists (S x). split_and!; [lia|apply extends_refl..].
Qed.

Lemma step_serves j x : j <> i -> serves w queued j x -> serves w' queued' j x.
Proof.
  intros Hj Hs. destruct (step_keys x) as (key & Hx & H1 & H2 & H3).
  { intros Hl ->. apply Hj. apply (v_distinct _ _ _ Hinv j i id Hs). by exists n. }
  destruct Hs as (y & Hy & Hs & Hl). destruct (Hothers' j y Hj Hy) as (y' & Hy' & Hlinks).
  exists y'. rewrite Hserials. split_and!; [done..|].
  apply (others_live w w' queued queued' i key Htok Hq ltac:(lia) H1 H2 H3 j y); done.
Qed.

Lemma step_serves_back j x : j <> i -> serves w' queued' j x -> serves w queued j x.
Proof.
  intros Hj (y' & Hy' & Hs & Hl). destruct (Hothers j y' Hj Hy') as (y & Hy & Hlinks).
  rewrite Hserials in Hs. exists y. split_and!; [done..|].
  destruct (v_nodes _ _ _ Hinv j y x Hy Hs) as [[_ ?]|Hidle]; [done|].
  exfalso. apply (live_not_idle _ _ free _ _ _ Hl).
  by apply (others_idle w w' queued queued' free free i Htok Hq).
Qed.

Lemma node_step_inv : inv w' queued' free.
Proof.
  constructor; try done.
  - intros j x id' Hx Hs. destruct (decide (j = i)) as [->|Hj].
    { rewrite Hserials in Hs. simplify_eq. done. }
    destruct (Hothers j x Hj Hx) as (y & Hy & Hlinks). rewrite Hserials in Hs.
    destruct (v_nodes _ _ _ Hinv j y id' Hy Hs) as [[Hnfree Hl]|Hidle].
    + left. split; [done|]. destruct (step_serves j id' Hj) as (z & Hz & _ & Hlz); [by exists y|].
      by simplify_eq.
    + right. by apply (others_idle w w' queued queued' free free i Htok Hq).
  - intros t Ht. rewrite Hlength. destruct (Hrange t Ht) as [->|Hold]; [by eapply lookup_lt_Some|].
    by apply (v_range _ _ _ Hinv).
  - rewrite Hserials, Hlength. apply Hinv.
  - split; [apply (v_nodup _ _ _ Hinv)|done].
  - rewrite Hcount. unfold zlen. rewrite Hlength. apply (v_count _ _ _ Hinv).
  - intros j k x Hjs Hks. destruct (decide (j = i)) as [->|Hj], (decide (k = i)) as [->|Hk]; [done|..].
    + apply (v_distinct _ _ _ Hinv i k x); [|by apply step_serves_back].
      destruct Hjs as (y & Hy & Hs & Hl). rewrite Hserials in Hs. simplify_eq. exists n. auto.
    + apply (v_distinct _ _ _ Hinv j i x); [by apply step_serves_back|].
      destruct Hks as (y & Hy & Hs & Hl). rewrite Hserials in Hs. simplify_eq. exists n. auto.
    + by apply (v_distinct _ _ _ Hinv j k x); apply step_serves_back.
  - intros x Hx. rewrite Hstarted in Hx. destruct (v_finished _ _ _ Hinv x Hx) as [[j Hs]|[Ho Hr]].
    + destruct (decide (j = i)) as [->|Hj]; [|left; exists j; by apply step_serves].
      destruct Hs as (y & Hy & Hs & Hl). simplify_eq. destruct (Hfin Hl) as [?|?]; [left|by right].
      exists i, n'. by rewrite Hserials.
    + destruct (decide (x = id)) as [->|Hne].
      * destruct Hkey as [Hl|(Hr1 & Hr2 & Hr3)];
          [|right; unfold finished; by rewrite Hr1, Hr2, Hr3].
        destruct (Hfin Hl) as [?|?]; [left|by right]. exists i, n'. by rewrite Hserials.
      * right. destruct (step_keys x) as (key & Hxk & H1 & H2 & H3); [done|].
        split; [by eapply extends_key|]. rewrite (extends_other _ _ _ _ H1), (extends_other _ _ _ _ H3); done.
Qed.
End NodeStep.

Lemma chain_map ns ns' (get : ControlNode C -> option nat) start l :
  (forall j x, j ∈ l -> ns !! j = Some x -> exists x', ns' !! j = Some x' /\ get x' = get x) ->
  chain ns get start l -> chain ns' get start l.
Proof.
  revert start. induction l as [|j l IH]; [done|]. intros start Hl [-> (x & Hx & Hch)].
  split; [done|]. destruct (Hl j x ltac:(by left) Hx) as (x' & Hx' & Hget). exists x'.
  split; [done|]. rewrite Hget. apply IH; [|done]. intros m y Hm. apply Hl. by right.
Qed.

Lemma chain_insert ns (get : ControlNode C -> option nat) start l i n n' :
  ns !! i = Some n -> get n' = get n -> chain ns get start l -> chain (<[i := n']> ns) get start l.
Proof.
  intros Hi Hg. apply chain_map. intros j x _ Hx. destruct (decide (j = i)) as [->|Hne].
  - simplify_eq. exists n'. rewrite list_lookup_insert_eq by (by eapply lookup_lt_Some). done.
  - exists x. by rewrite list_lookup_insert_ne.
Qed.

Lemma chain_skip ns (get : ControlNode C -> option nat) start l i n' :
  i ∉ l -> chain ns get start l -> chain (<[i := n']> ns) get start l.
Proof.
  intros Hl. apply chain_map. intros j x Hj Hx. exists x.
  rewrite list_lookup_insert_ne; [done|]. by intros <-.
Qed.

Lemma node_at_lookup (d : ControlDomain C) i n : nodes d !! i = Some n -> node_at i d = n.
Proof. unfold node_at. by intros ->. Qed.

Lemma on_node_nodes (d : ControlDomain C) i n f :
  nodes d !! i = Some n -> nodes (on_node i f d) = <[i := f n]> (nodes d).
Proof. intros H. apply (alter_as_insert f _ _ _ H). Qed.

Lemma on_node_length (d : ControlDomain C) i f : length (nodes (on_node i f d)) = length (nodes d).
Proof. apply (length_alter f). Qed.

(** The node of a token that owns it. *)
Lemma token_live w queued free t :
  inv w queued free -> t ∈ tokens w -> holds t = 1 -> exists n id,
    nodes (domain w) !! tok_node t = Some n /\ serials w !! tok_node t = Some id
    /\ (tok_node t ∉ free) /\ live w queued (tok_node t) n id /\ tok_ok w id n t.
Proof.
  intros Hinv Ht Hh. pose proof (v_range _ _ _ Hinv t Ht) as Hr.
  destruct (lookup_lt_is_Some_2 _ _ Hr) as [n Hn].
  rewrite <- (v_serials _ _ _ Hinv) in Hr. destruct (lookup_lt_is_Some_2 _ _ Hr) as [id Hid].
  exists n, id. assert (t ∈ tokens_of (tok_node t) w) as Hin by (by apply list_elem_of_filter).
  destruct (v_nodes _ _ _ Hinv _ n id Hn Hid) as [[Hf Hl]|[_ Hidle]].
  - split_and!; try done. by apply (lv_tokens _ _ _ _ _ Hl).
  - exfalso. destruct Hidle as [[_ Hnil]|[_ Hone]]; [rewrite Hnil in Hin; by apply elem_of_nil in Hin|].
    destruct Hone as [Hone|Hone]; rewrite Hone in Hin; apply list_elem_of_singleton in Hin;
      rewrite Hin in Hh; done.
Qed.

Section TokenStep.
Context (w w' : World C) (queued free : list nat) (before after new : list (Token C)) (t : Token C).
Context (n n' : ControlNode C) (id : nat).
Let i := tok_node t.
Context (Hinv : inv w queued free).
Context (Ht : tokens w = before ++ t :: after) (Ht' : tokens w' = new ++ before ++ after).
Context (Hnew : forall x, x ∈ new -> tok_node x = i).
Context (Hi : nodes (domain w) !! i = Some n) (Hid : serials w !! i = Some id) (Hnf : i ∉ free).
Context (Hl : live w queued i n id).
Context (Hnodes : nodes (domain w') = <[i := n']> (nodes (domain w))).
Context (Hlinks : next_free n' = next_free n /\ task_next n' = task_next n).
Context (Hdomain : free_head (domain w') = free_head (domain w)
  /\ queue_head (domain w') = queue_head (domain w) /\ queue_tail (domain w') = queue_tail (domain w)
  /\ in_use (domain w') = in_use (domain w)).
Context (Hserials : serials w' = serials w) (Hstarted : started w' = started w).
Context (Hreg : extends id (registered w) (registered w')).
Context (Hout : extends id (outcomes w) (outcomes w')).
Context (Hran : extends id (invoked w) (invoked w')).
Context (Hhist : history_ok w').
Context (Hown : live w' queued i n' id
  \/ idle w' queued free i /\ finished w' id /\ registered w' = registered w).

Lemma tokens_of_before :
  tokens_of i w = filter (fun x => tok_node x = i) before ++ t :: filter (fun x => tok_node x = i) after.
Proof. by apply tokens_of_split. Qed.

Lemma tokens_of_after :
  tokens_of i w' = new ++ filter (fun x => tok_node x = i) before ++ filter (fun x => tok_node x = i) after.
Proof. unfold tokens_of. rewrite Ht', !filter_app. by rewrite (filter_own new i Hnew). Qed.

Lemma token_step_inv : inv w' queued free.
Proof.
  destruct Hdomain as (D1 & D2 & D3 & D4). destruct Hlinks as [L1 L2].
  assert (forall j, j <> i -> nodes (domain w') !! j = nodes (domain w) !! j) as Hsame
    by (intros j Hj; rewrite Hnodes; by apply list_lookup_insert_ne).
  apply (node_step_inv w w' queued queued free i n n' id); try done.
  - rewrite Hnodes. apply list_lookup_insert_eq. by eapply lookup_lt_Some.
  - intros j x Hj Hx. rewrite Hsame in Hx by done. exists x. auto using links_refl.
  - intros j x Hj Hx. rewrite Hsame by done. exists x. auto using links_refl.
  - by rewrite Hnodes, length_insert.
  - intros j Hj. unfold tokens_of. rewrite Ht, Ht', !filter_app, filter_cons.
    rewrite decide_False by (intros ?; by apply Hj). by rewrite (filter_other new i j Hnew Hj).
  - intros x. rewrite Ht, Ht', !elem_of_app, elem_of_cons. intros [?|?]; [left; auto|right; tauto].
  - rewrite Hnodes, D2, D3. split; [|apply Hinv]. apply (chain_insert _ _ _ _ _ n); [done..|].
    apply (v_queue _ _ _ Hinv).
  - apply (v_nodup _ _ _ Hinv).
  - rewrite Hnodes, D1. apply (chain_insert _ _ _ _ _ n); [done..|]. apply (v_free _ _ _ Hinv).
  - destruct Hown as [?|(? & _)]; [by left|by right].
  - destruct Hown as [?|(? & ? & _)]; auto.
  - by left.
Qed.
End TokenStep.

(** The part of [live] that is not about tokens. *)
Record phase_ok w (queued : list nat) (i : nat) n (id : nat) : Prop := {
  ph_bounds : 0 < owners n <= budget (callback_state n);
  ph_queued : i ∈ queued -> callback_state n = kQueued;
  ph_ready : ready n = completed n;
  ph_outcome : if completed n then (id, result n) ∈ outcomes w else id ∉ (outcomes w).*1;
  ph_callback : match callback_state n with
    | kEmpty => id ∉ (registered w).*1
    | kArmed | kQueued | kRunning => exists cb, callback n = Some cb /\ (id, cb) ∈ registered w
    | _ => True end;
  ph_phase : match callback_state n with
    | kArmed => completed n = false
    | kQueued | kRunning | kDone => completed n = true
    | _ => True end;
  ph_invoked : (id ∈ (invoked w).*1) <-> (callback_state n = kDone);
  ph_serial : (id < started w)%nat;
}.

Lemma live_phase w queued i n id : live w queued i n id -> phase_ok w queued i n id.
Proof. by intros []. Qed.

(** One token is replaced and the node still serves its operation. *)
Lemma token_step_live w w' queued free before after new t n n' id :
  inv w queued free ->
  tokens w = before ++ t :: after -> tokens w' = new ++ before ++ after ->
  (forall x, x ∈ new -> tok_node x = tok_node t) ->
  nodes (domain w) !! tok_node t = Some n -> serials w !! tok_node t = Some id ->
  (tok_node t ∉ free) -> live w queued (tok_node t) n id ->
  nodes (domain w') = <[tok_node t := n']> (nodes (domain w)) ->
  next_free n' = next_free n /\ task_next n' = task_next n ->
  free_head (domain w') = free_head (domain w)
  /\ queue_head (domain w') = queue_head (domain w) /\ queue_tail (domain w') = queue_tail (domain w)
  /\ in_use (domain w') = in_use (domain w) ->
  serials w' = serials w -> started w' = started w ->
  extends id (registered w) (registered w') -> extends id (outcomes w) (outcomes w') ->
  extends id (invoked w) (invoked w') -> history_ok w' ->
  owners n' = owners n - holds t + sumZ holds new ->
  (if completed n' then 0 else 1) = (if completed n then 0 else 1) - completing t + sumZ completing new ->
  busy (callback_state n') = busy (callback_state n) - acting t + sumZ acting new ->
  (forall x, x ∈ new -> tok_ok w' id n' x) ->
  (acting t <> 0 \/ forall x, tok_ok w id n x -> tok_ok w' id n' x) ->
  generation n' = generation n -> phase_ok w' queued (tok_node t) n' id ->
  inv w' queued free.
Proof.
  intros Hinv Ht Ht' Hnew Hn Hid Hf Hl Hset Hlinks Hd Hs Hst H1 H2 H3 Hh Ho Hc Hb Hok Hold Hg [].
  apply (token_step_inv w w' queued free before after new t n n' id); try done. left.
  pose proof (tokens_of_split w before t after Ht) as Hb0.
  pose proof (tokens_of_after w' before after new t Ht' Hnew) as Ha0.
  destruct Hl as [lv1 lv2 lv3 lv4 lv5]. rewrite Hb0 in lv1, lv3, lv4, lv5.
  rewrite !sumZ_app in lv1, lv3, lv4. cbn [sumZ] in lv1, lv3, lv4.
  constructor; try done; rewrite ?Ha0, ?sumZ_app; try lia.
  intros x. rewrite elem_of_app. intros [?|Hx]; [auto|].
  assert (tok_ok w id n x) as Hxok.
  { apply lv5. apply elem_of_app in Hx. rewrite elem_of_app, elem_of_cons. tauto. }
  destruct Hold as [Hact|Hold]; [|auto].
  apply (tok_ok_passive w w' id n); [|done..].
  revert Hx. apply passive_others. rewrite sumZ_app.
  match goal with |- sumZ acting ?a + sumZ acting ?b = 0 =>
    pose proof (sum_nonneg acting a acting_nonneg); pose proof (sum_nonneg acting b acting_nonneg) end.
  pose proof (waits_nonneg queued (tok_node t)). pose proof (acting_nonneg t).
  assert (busy (callback_state n) <= 1) by (by destruct (callback_state n)). lia.
Qed.

(** ** The steps preserve the invariant *)

Lemma history_same w w' :
  registered w' = registered w -> outcomes w' = outcomes w -> invoked w' = invoked w ->
  started w' = started w -> history_ok w -> history_ok w'.
Proof. intros H1 H2 H3 H4 []. by constructor; rewrite ?H1, ?H2, ?H3, ?H4. Qed.

Lemma in_middle {A} (before after : list A) x : x ∈ before ++ x :: after.
Proof. apply elem_of_app. right. by left. Qed.

Lemma node_drop_inv w queued free before ref after :
  inv w queued free -> tokens w = before ++ tOperation ref :: after ->
  inv (w <| tokens := tReleasing ref :: before ++ after |>) queued free.
Proof.
  intros Hinv Ht. set (w' := w <| tokens := _ |>).
  destruct (token_live w queued free (tOperation ref) Hinv) as (n & id & Hn & Hid & Hf & Hl & Hok);
    [rewrite Ht; apply in_middle|done|].
  apply (token_step_live w w' queued free before after [tReleasing ref] (tOperation ref) n n id);
    try done; try apply extends_refl.
  - by intros x ->%list_elem_of_singleton.
  - symmetry. by apply list_insert_id.
  - apply (history_same w); [done..|apply Hinv].
  - cbn. lia.
  - cbn. lia.
  - cbn. lia.
  - by intros x ->%list_elem_of_singleton.
  - right. by intros [] Hx.
  - destruct (live_phase _ _ _ _ _ Hl). by constructor.
Qed.

(** The owner count of a live node does not wrap. *)
Lemma owners_small w queued i n id : live w queued i n id -> 0 < owners n <= 4.
Proof. intros [_ [? Hb] _]. split; [done|]. by destruct (callback_state n); cbn in Hb; lia. Qed.

Lemma completion_pending w queued t before after n id :
  tokens w = before ++ t :: after -> completing t = 1 -> live w queued (tok_node t) n id ->
  completed n = false.
Proof.
  intros Ht Hc Hl. pose proof (lv_completing _ _ _ _ _ Hl) as Hsum.
  rewrite (tokens_of_split w before t after Ht), sumZ_app in Hsum. cbn [sumZ] in Hsum.
  match type of Hsum with ?a + (_ + ?b) = _ => assert (0 <= a /\ 0 <= b) by
    (split; apply sum_nonneg, completing_nonneg) end.
  destruct (completed n); [lia|done].
Qed.

(** A callback that is due: an owner and a task more. *)
Definition armed n : bool := bool_decide (callback_state n = kArmed).

(** The node after it was completed, or after its callback was installed. *)
Definition queued_if (due : bool) n n' : Prop :=
  owners n' = owners n + (if due then 1 else 0)
  /\ callback_state n' = (if due then kQueued else callback_state n)
  /\ ready n' = ready n /\ result n' = result n /\ generation n' = generation n
  /\ callback n' = callback n /\ completed n' = completed n
  /\ next_free n' = next_free n /\ task_next n' = task_next n.

Lemma queued_if_new (due : bool) n :
  0 < owners n <= 4 ->
  queued_if due n (if due then n <| callback_state := kQueued |> <| owners ::= fun o => o +w 1 |> else n).
Proof.
  intros Ho. destruct due; cbn; split_and!; try done; [|lia]. apply w64_small. lia.
Qed.

Lemma CompleteLocked_spec (d : ControlDomain C) ref outcome report n :
  nodes d !! node ref = Some n -> generation n = node_generation ref -> completed n = false ->
  0 < owners n <= 4 -> exists n',
    CompleteLocked ref outcome report d = (true, armed n, on_node (node ref) (fun _ => n') d)
    /\ queued_if (armed n)
         (n <| result := MakeResult outcome report |> <| completed := true |> <| ready := true |>) n'.
Proof.
  intros Hn Hg Hc Ho. unfold CompleteLocked. rewrite (node_at_lookup _ _ _ Hn), Hg, Z.eqb_refl, Hc.
  cbn [andb negb].
  set (n1 := n <| result := _ |> <| completed := true |> <| ready := true |>).
  pose proof (queued_if_new (armed n) n1 Ho) as Hq. change (armed n) with (armed n1) in *.
  unfold armed in *. destruct (decide (callback_state n1 = kArmed)) as [Ha|Ha].
  - rewrite bool_decide_eq_true_2 in * by done. by eexists.
  - rewrite bool_decide_eq_false_2 in * by done. by eexists.
Qed.

Lemma tok_ok_due w w' id n n' (due : bool) x :
  (due = true -> callback_state n = kArmed) ->
  callback_state n' = (if due then kQueued else callback_state n) ->
  generation n' = generation n -> extends id (registered w) (registered w') ->
  (callback_state n = kRunning -> result n' = result n) ->
  tok_ok w id n x -> tok_ok w' id n' x.
Proof.
  intros Hdue Hs Hg Hr Hres. destruct due.
  - specialize (Hdue eq_refl). destruct x; cbn; rewrite ?Hg, ?Hdue; try done; by intros ?; destruct_and?.
  - destruct x; cbn; rewrite ?Hg, ?Hs; try done.
    + intros (? & ? & ? & ?). split_and!; [done..|by eapply extends_elem].
    + intros (? & H & ->). by rewrite (Hres H).
Qed.

Lemma complete_inv w queued free before ref after outcome report did_complete enqueue d :
  inv w queued free -> tokens w = before ++ tCompletion ref :: after ->
  CompleteLocked ref outcome report (domain w) = (did_complete, enqueue, d) ->
  inv (w <| domain := d |>
         <| tokens := (if enqueue then [tEnqueueing (node ref)] else [])
                        ++ tReleasing ref :: before ++ after |>
         <| outcomes := outcomes w ++
              (if did_complete then [(serial ref, MakeResult outcome report)] else []) |>) queued free.
Proof.
  intros Hinv Ht Hc.
  destruct (token_live w queued free (tCompletion ref) Hinv) as (n & id & Hn & Hid & Hf & Hl & Hok);
    [rewrite Ht; apply in_middle|done|].
  cbn [tok_node] in Hn, Hid, Hf, Hl. destruct Hok as [Hg Hser].
  assert (completed n = false) as Hcn
    by (by apply (completion_pending w queued (tCompletion ref) before after n id)).
  destruct (CompleteLocked_spec (domain w) ref outcome report n Hn (eq_sym Hg) Hcn (owners_small _ _ _ _ _ Hl))
    as (n' & Heq & q1 & q2 & q3 & q4 & q5 & q6 & q7 & q8 & q9).
  rewrite Heq in Hc. injection Hc as <- <- <-. cbn in q1, q2, q3, q4, q5, q6, q7, q8, q9.
  pose proof (live_phase _ _ _ _ _ Hl) as [ph1 ph2 ph3 ph4 ph5 ph6 ph7 ph8]. rewrite Hcn in ph4, ph6.
  set (f := fun _ : ControlNode C => n').
  change ((if armed n then [tEnqueueing (node ref)] else []) ++ tReleasing ref :: before ++ after)
    with ((if armed n then [tEnqueueing (node ref)] else []) ++ [tReleasing ref] ++ before ++ after).
  rewrite app_assoc. set (new := (if armed n then _ else _) ++ _).
  assert (forall x, x ∈ new -> x = tReleasing ref \/ armed n = true /\ x = tEnqueueing (node ref)) as Hnew.
  { unfold new. destruct (armed n); cbn; intros x; rewrite ?elem_of_cons, elem_of_nil; tauto. }
  apply (token_step_live w _ queued free before after new (tCompletion ref) n n' id); try done;
    try apply extends_refl.
  - by intros x [->|[_ ->]]%Hnew.
  - exact (on_node_nodes (domain w) (node ref) n f Hn).
  - rewrite <- Hser. apply extends_one.
  - pose proof (v_history _ _ _ Hinv) as [h1 [h2 h2'] [h3 h3']].
    constructor; [exact h1|..]; cbn; rewrite Hser.
    + split; [by apply NoDup_snoc_key|]. intros x. rewrite fmap_app, elem_of_app.
      intros [?| ->%list_elem_of_singleton]; [by apply h2'|exact ph8].
    + split; [exact h3|]. intros x cb res Hx. destruct (h3' x cb res Hx) as [? ?].
      split; [apply elem_of_app; by left|done].
  - rewrite q1. unfold new. destruct (armed n); cbn; lia.
  - rewrite Hcn, q7. unfold new. by destruct (armed n).
  - rewrite q2. unfold new, armed. case_bool_decide as Ha; [by rewrite Ha|cbn; lia].
  - intros x [->|[Ha ->]]%Hnew; [split; [congruence|done]|]. cbn. by rewrite q2, Ha.
  - right. intros x. apply (tok_ok_due w _ id n n' (armed n)); try done; [|apply extends_refl|].
    + unfold armed. by case_bool_decide.
    + intros Hr. by rewrite Hr in ph6.
  - constructor; rewrite ?q1, ?q2, ?q3, ?q4, ?q6, ?q7; try done.
    + unfold armed. case_bool_decide as Ha; [rewrite Ha in ph1; cbn in *; lia|by rewrite Z.add_0_r].
    + intros Hq. rewrite (ph2 Hq). by destruct (armed n).
    + cbn. rewrite Hser. apply elem_of_app. right. by apply list_elem_of_singleton.
    + unfold armed. case_bool_decide as Ha; [by rewrite Ha in ph5|exact ph5].
    + unfold armed. case_bool_decide as Ha; [done|by destruct (callback_state n)].
    + cbn. rewrite ph7. unfold armed. case_bool_decide as Ha; [by rewrite Ha|done].
Qed.

Lemma register_inv w queued free before ref after cb d :
  inv w queued free -> tokens w = before ++ tOperation ref :: after ->
  RegisterBegin ref (domain w) = (None, d) ->
  inv (w <| domain := d |> <| tokens := tInstalling ref cb :: tOperation ref :: before ++ after |>
         <| registered := registered w ++ [(serial ref, cb)] |>) queued free.
Proof.
  intros Hinv Ht Hc. unfold RegisterBegin in Hc.
  destruct (token_live w queued free (tOperation ref) Hinv) as (n & id & Hn & Hid & Hf & Hl & Hok);
    [rewrite Ht; apply in_middle|done|].
  cbn [tok_node] in Hn, Hid, Hf, Hl. destruct Hok as [Hg Hser].
  rewrite (node_at_lookup _ _ _ Hn), Hg, Z.eqb_refl in Hc. cbn [negb] in Hc.
  case_bool_decide as Hs; [|done]. cbn [negb] in Hc. revert Hc.
  set (f := fun n : ControlNode C =>
    n <| callback_state := kInstalling |> <| owners ::= fun o => o +w 1 |>). intros [= <-].
  pose proof (live_phase _ _ _ _ _ Hl) as [ph1 ph2 ph3 ph4 ph5 ph6 ph7 ph8].
  rewrite Hs in ph1, ph2, ph5, ph7. cbn [budget] in ph1.
  assert (owners (f n) = owners n + 1) as Ho by (apply w64_small; lia).
  apply (token_step_live w _ queued free before after [tInstalling ref cb; tOperation ref]
    (tOperation ref) n (f n) id); try done; try apply extends_refl.
  - by intros x [->| ->%list_elem_of_singleton]%elem_of_cons.
  - exact (on_node_nodes (domain w) (node ref) n f Hn).
  - cbn. rewrite Hser. apply extends_one.
  - pose proof (v_history _ _ _ Hinv) as [[h1 h1'] h2 [h3 h3']].
    constructor; [|exact h2|]; cbn; rewrite Hser.
    + split; [by apply NoDup_snoc_key|]. intros x. rewrite fmap_app, elem_of_app.
      intros [?| ->%list_elem_of_singleton]; [by apply h1'|exact ph8].
    + split; [exact h3|]. intros x c res Hx. destruct (h3' x c res Hx) as (? & c' & ? & ?).
      split; [done|]. exists c'. split; [done|]. apply elem_of_app. by left.
  - rewrite Ho. cbn. lia.
  - change (completed (f n)) with (completed n). cbn. lia.
  - rewrite Hs. done.
  - intros x [->| ->%list_elem_of_singleton]%elem_of_cons; [|done]. cbn. split_and!; try done.
    rewrite Hser. apply elem_of_app. right. by apply list_elem_of_singleton.
  - right. intros x. destruct x; cbn; rewrite ?Hs; try done; intros ?; by destruct_and?.
  - constructor; try done.
    + rewrite Ho. cbn. lia.
    + intros Hq. by specialize (ph2 Hq).
    + cbn. rewrite ph7. done.
Qed.

Lemma install_inv w queued free before ref cb after enqueue d :
  inv w queued free -> tokens w = before ++ tInstalling ref cb :: after ->
  RegisterInstall (node ref) (Some cb) (domain w) = (enqueue, d) ->
  inv (w <| domain := d |>
         <| tokens := (if enqueue then [tEnqueueing (node ref)] else [])
                        ++ tReleasing ref :: before ++ after |>) queued free.
Proof.
  intros Hinv Ht Hc. unfold RegisterInstall in Hc.
  destruct (token_live w queued free (tInstalling ref cb) Hinv) as (n & id & Hn & Hid & Hf & Hl & Hok);
    [rewrite Ht; apply in_middle|done|].
  cbn [tok_node] in Hn, Hid, Hf, Hl. destruct Hok as (Hg & Hser & Hs & Hcb).
  pose proof (live_phase _ _ _ _ _ Hl) as [ph1 ph2 ph3 ph4 ph5 ph6 ph7 ph8].
  rewrite Hs in ph1, ph2, ph7. cbn [budget] in ph1.
  rewrite (node_at_lookup _ _ _ Hn) in Hc. revert Hc.
  set (n1 := n <| callback := Some cb |> <| callback_state := kArmed |>).
  pose proof (queued_if_new (completed n1) n1 ltac:(cbn; lia)) as Hq.
  intros Hc. assert (exists n', enqueue = completed n1 /\ d = on_node (node ref) (fun _ => n') (domain w)
    /\ queued_if (completed n1) n1 n') as (n' & -> & -> & q1 & q2 & q3 & q4 & q5 & q6 & q7 & q8 & q9).
  { destruct (completed n1); injection Hc as <- <-; by eexists. }
  clear Hc Hq. change (completed n1) with (completed n) in *. cbn in q1, q3, q4, q5, q6, q7, q8, q9.
  change (callback_state n1) with kArmed in q2. set (f := fun _ : ControlNode C => n').
  change ((if completed n then [tEnqueueing (node ref)] else []) ++ tReleasing ref :: before ++ after)
    with ((if completed n then [tEnqueueing (node ref)] else []) ++ [tReleasing ref] ++ before ++ after).
  rewrite app_assoc. set (new := (if completed n then _ else _) ++ _).
  assert (forall x, x ∈ new -> x = tReleasing ref \/ completed n = true /\ x = tEnqueueing (node ref)) as Hnew.
  { unfold new. destruct (completed n); cbn; intros x; rewrite ?elem_of_cons, elem_of_nil; tauto. }
  apply (token_step_live w _ queued free before after new (tInstalling ref cb) n n' id); try done;
    try apply extends_refl.
  - by intros x [->|[_ ->]]%Hnew.
  - exact (on_node_nodes (domain w) (node ref) n f Hn).
  - apply (history_same w); [done..|apply Hinv].
  - rewrite q1. unfold new. destruct (completed n); cbn; lia.
  - rewrite q7. unfold new. by destruct (completed n).
  - rewrite q2, Hs. unfold new. by destruct (completed n).
  - intros x [->|[Ha ->]]%Hnew; [split; [congruence|done]|]. cbn. by rewrite q2, Ha.
  - by left.
  - constructor; rewrite ?q1, ?q2, ?q3, ?q4, ?q6, ?q7; try done.
    + destruct (completed n); cbn; lia.
    + intros Hq. by specialize (ph2 Hq).
    + destruct (completed n); by exists cb.
    + by destruct (completed n).
    + cbn. rewrite ph7. by destruct (completed n).
Qed.

Lemma run_inv w queued free before i after found d :
  inv w queued free -> tokens w = before ++ tPopped i :: after ->
  RunBegin i (domain w) = (found, d) ->
  inv (w <| domain := d |>
         <| tokens := match found with
                      | Some (res, gen) => tRunning i gen res :: before ++ after
                      | None => before ++ after
                      end |>) queued free.
Proof.
  intros Hinv Ht Hc. unfold RunBegin in Hc.
  destruct (token_live w queued free (tPopped i) Hinv) as (n & id & Hn & Hid & Hf & Hl & Hok);
    [rewrite Ht; apply in_middle|done|].
  cbn [tok_node] in Hn, Hid, Hf, Hl. change (callback_state n = kQueued) in Hok.
  rewrite (node_at_lookup _ _ _ Hn), bool_decide_eq_true_2 in Hc by done. cbn [negb] in Hc. revert Hc.
  set (f := fun n : ControlNode C => n <| callback_state := kRunning |>). intros [= <- <-].
  pose proof (live_phase _ _ _ _ _ Hl) as [ph1 ph2 ph3 ph4 ph5 ph6 ph7 ph8].
  rewrite Hok in ph1, ph5, ph6, ph7.
  assert (i ∉ queued) as Hnq.
  { intros Hq. pose proof (lv_acting _ _ _ _ _ Hl) as Hact.
    pose proof (tokens_of_split w before (tPopped i) after Ht) as Hsp. cbn [tok_node] in Hsp.
    rewrite Hsp, Hok, sumZ_app in Hact. unfold waits in Hact. rewrite decide_True in Hact by done.
    cbn [sumZ acting busy] in Hact.
    match type of Hact with ?a + (1 + ?b) + _ = _ => assert (0 <= a /\ 0 <= b) by
      (split; apply sum_nonneg, acting_nonneg) end. lia. }
  apply (token_step_live w _ queued free before after [tRunning i (generation n) (result n)]
    (tPopped i) n (f n) id); try done; try apply extends_refl.
  - by intros x ->%list_elem_of_singleton.
  - exact (on_node_nodes (domain w) i n f Hn).
  - apply (history_same w); [done..|apply Hinv].
  - change (owners (f n)) with (owners n). cbn. lia.
  - change (completed (f n)) with (completed n). cbn. lia.
  - rewrite Hok. done.
  - by intros x ->%list_elem_of_singleton.
  - by left.
  - constructor; try done. cbn. rewrite ph7. done.
Qed.

Lemma ran_inv w queued free before i gen res after :
  inv w queued free -> tokens w = before ++ tRunning i gen res :: after ->
  inv (w <| domain ::= RunEnd i |>
         <| tokens := tReleasing {| node := i; node_generation := gen; serial := serial_of i w |}
                        :: before ++ after |>
         <| invoked := invoked w ++ [(serial_of i w, (callback (node_at i (domain w)), res))] |>)
      queued free.
Proof.
  intros Hinv Ht.
  destruct (token_live w queued free (tRunning i gen res) Hinv) as (n & id & Hn & Hid & Hf & Hl & Hok);
    [rewrite Ht; apply in_middle|done|].
  cbn [tok_node] in Hn, Hid, Hf, Hl. destruct Hok as (-> & Hs & ->).
  unfold serial_of. rewrite Hid, (node_at_lookup _ _ _ Hn). cbn.
  pose proof (live_phase _ _ _ _ _ Hl) as [ph1 ph2 ph3 ph4 ph5 ph6 ph7 ph8].
  rewrite Hs in ph1, ph2, ph5, ph6, ph7. destruct ph5 as (cb & Hcb & Hreg). rewrite ph6 in ph4.
  set (f := fun n : ControlNode C =>
    n <| callback := ResetCallback (callback n) |> <| callback_state := kDone |>).
  set (ref := {| node := i; node_generation := generation n; serial := id |}).
  assert (id ∉ (invoked w).*1) as Hnew by (by rewrite ph7).
  apply (token_step_live w _ queued free before after [tReleasing ref]
    (tRunning i (generation n) (result n)) n (f n) id); try done; try apply extends_refl.
  - by intros x ->%list_elem_of_singleton.
  - exact (on_node_nodes (domain w) i n f Hn).
  - apply extends_one.
  - pose proof (v_history _ _ _ Hinv) as [h1 h2 [h3 h3']].
    constructor; [exact h1|exact h2|]. cbn. split; [by apply NoDup_snoc_key|].
    intros x c r. rewrite elem_of_app. intros [?|Hx%list_elem_of_singleton]; [by apply h3'|].
    injection Hx as -> -> ->. split; [done|]. by exists cb.
  - change (owners (f n)) with (owners n). cbn. lia.
  - change (completed (f n)) with (completed n). cbn. lia.
  - rewrite Hs. done.
  - by intros x ->%list_elem_of_singleton.
  - by left.
  - constructor; try done.
    + intros Hq. by specialize (ph2 Hq).
    + change (if completed n then (id, result n) ∈ outcomes w else id ∉ (outcomes w).*1). by rewrite ph6.
    + cbn. split; [done|]. intros _. rewrite fmap_app. apply elem_of_app. right.
      by apply list_elem_of_singleton.
Qed.

(** The last owner has completed the operation, and its callback ran. *)
Lemma last_owner w queued i n id t before after :
  live w queued i n id -> tokens_of i w = before ++ t :: after -> completing t = 0 -> acting t = 0 ->
  holds t = 1 -> owners n = 1 -> before = [] /\ after = [] /\ (i ∉ queued) /\ finished w id.
Proof.
  intros [] Hts Hc Ha Hh Ho. rewrite Hts in *. rewrite sumZ_app in *. cbn [sumZ] in *.
  assert (forall l, (forall x, x ∈ l -> x ∈ before ++ t :: after) -> sumZ holds l = 0 -> l = []) as Hnil.
  { intros [|x l] Hsub Hz; [done|]. cbn [sumZ] in Hz.
    pose proof (sum_nonneg holds l holds_nonneg). pose proof (holds_nonneg x).
    assert (holds x = 0) as Hx by lia.
    pose proof (lv_tokens0 x (Hsub x ltac:(by left))) as Hok. by destruct x. }
  pose proof (sum_nonneg holds before holds_nonneg). pose proof (sum_nonneg holds after holds_nonneg).
  pose proof (waits_nonneg queued i).
  assert (before = []) as ->.
  { apply Hnil; [|lia]. intros x Hx. apply elem_of_app. by left. }
  assert (after = []) as ->.
  { apply Hnil; [|lia]. intros x Hx. apply elem_of_app. right. by right. }
  assert (waits queued i = 0) as Hw by lia. cbn [sumZ] in *.
  assert (i ∉ queued) as Hnq by (intros Hq; unfold waits in Hw; by rewrite decide_True in Hw).
  assert (completed n = true) as Hcn by (destruct (completed n); [done|lia]).
  rewrite Hcn in lv_outcome0, lv_phase0.
  split_and!; try done. split.
  - apply list_elem_of_fmap. by eexists (id, result n).
  - intros Hreg. assert (busy (callback_state n) = 0) as Hb by lia.
    destruct (callback_state n); try done. by apply lv_invoked0.
Qed.

Lemma release_step_inv w queued free before ref after last d :
  inv w queued free -> tokens w = before ++ tReleasing ref :: after ->
  ReleaseLocked ref (domain w) = (last, d) ->
  inv (w <| domain := d |>
         <| tokens := (if last then [tRecycling (node ref)] else []) ++ before ++ after |>) queued free.
Proof.
  intros Hinv Ht Hc. unfold ReleaseLocked in Hc.
  destruct (token_live w queued free (tReleasing ref) Hinv) as (n & id & Hn & Hid & Hf & Hl & Hok);
    [rewrite Ht; apply in_middle|done|].
  cbn [tok_node] in Hn, Hid, Hf, Hl. destruct Hok as [Hg Hser].
  pose proof (live_phase _ _ _ _ _ Hl) as [ph1 ph2 ph3 ph4 ph5 ph6 ph7 ph8].
  rewrite (node_at_lookup _ _ _ Hn), Hg, Z.eqb_refl in Hc. cbn [negb orb] in Hc.
  pose proof (owners_small _ _ _ _ _ Hl) as Hsmall.
  destruct (Z.eqb_spec (owners n) 0); [lia|]. revert Hc.
  set (f := fun n : ControlNode C => n <| owners ::= fun o => o -w 1 |>).
  assert (owners (f n) = owners n - 1) as Ho by (apply w64_small; lia).
  pose proof (on_node_nodes (domain w) (node ref) n f Hn) as Hset.
  assert (nodes (on_node (node ref) f (domain w)) !! node ref = Some (f n)) as Hn'
    by (rewrite Hset; apply list_lookup_insert_eq; by eapply lookup_lt_Some).
  rewrite (node_at_lookup _ _ _ Hn'), Ho. intros [= <- <-].
  destruct (Z.eqb_spec (owners n - 1) 0) as [Hz|Hz].
  - pose proof (tokens_of_split w before (tReleasing ref) after Ht) as Hsp. cbn [tok_node] in Hsp.
    destruct (last_owner w queued (node ref) n id _ _ _ Hl Hsp) as (Hb & Ha & Hnq & Hfin); [done..|lia|].
    apply (token_step_inv w _ queued free before after [tRecycling (node ref)] (tReleasing ref) n (f n) id);
      try done; try apply extends_refl.
    + by intros x ->%list_elem_of_singleton.
    + apply (history_same w); [done..|apply Hinv].
    + right. split_and!; [|done..]. split; [done|]. right. split; [done|left]. unfold tokens_of.
      change (filter (fun x => tok_node x = node ref) ([tRecycling (node ref)] ++ before ++ after)
        = [tRecycling (node ref)]).
      rewrite !filter_app, Hb, Ha. by rewrite (filter_own _ (node ref)) by (by intros x ->%list_elem_of_singleton).
  - apply (token_step_live w _ queued free before after [] (tReleasing ref) n (f n) id);
      try done; try apply extends_refl.
    + by intros x Hx%elem_of_nil.
    + apply (history_same w); [done..|apply Hinv].
    + rewrite Ho. cbn. lia.
    + change (completed (f n)) with (completed n). cbn. lia.
    + change (callback_state (f n)) with (callback_state n). cbn. lia.
    + by intros x Hx%elem_of_nil.
    + right. by intros [] Hx.
    + constructor; try done. rewrite Ho. cbn. lia.
Qed.

(** Emptying a node that is on its way back. *)
Lemma recycling_idle w queued free i t :
  inv w queued free -> t ∈ tokens w -> t = tRecycling i \/ t = tFreeing i -> exists n id,
    nodes (domain w) !! i = Some n /\ serials w !! i = Some id /\ (i ∉ queued) /\ (i ∉ free)
    /\ tokens_of i w = [t].
Proof.
  intros Hinv Ht Hor. assert (tok_node t = i) as Hi by (by destruct Hor as [->| ->]).
  pose proof (v_range _ _ _ Hinv t Ht) as Hr. rewrite Hi in Hr.
  destruct (lookup_lt_is_Some_2 _ _ Hr) as [n Hn].
  rewrite <- (v_serials _ _ _ Hinv) in Hr. destruct (lookup_lt_is_Some_2 _ _ Hr) as [id Hid].
  exists n, id. assert (t ∈ tokens_of i w) as Hin by (by apply list_elem_of_filter).
  destruct (v_nodes _ _ _ Hinv _ n id Hn Hid) as [[Hf Hl]|[Hq Hidle]].
  - pose proof (lv_tokens _ _ _ _ _ Hl t Hin) as Hok. by destruct Hor as [->| ->].
  - destruct Hidle as [[_ Hnil]|[Hf Hone]]; [rewrite Hnil in Hin; by apply elem_of_nil in Hin|].
    split_and!; try done.
    destruct Hone as [Hone|Hone]; rewrite Hone in *; apply list_elem_of_singleton in Hin; congruence.
Qed.

Lemma recycle_inv w queued free before i after :
  inv w queued free -> tokens w = before ++ tRecycling i :: after ->
  inv (w <| domain ::= RecycleNode i |> <| tokens := tFreeing i :: before ++ after |>) queued free.
Proof.
  intros Hinv Ht.
  destruct (recycling_idle w queued free i (tRecycling i) Hinv) as (n & id & Hn & Hid & Hnq & Hf & Hone);
    [rewrite Ht; apply in_middle|by left|].
  pose proof (tokens_of_split w before (tRecycling i) after Ht) as Hsp. cbn [tok_node] in Hsp.
  rewrite Hone in Hsp. apply (f_equal length) in Hsp as Hlen. rewrite length_app in Hlen. cbn in Hlen.
  assert (filter (fun x => tok_node x = i) before = []) as Hb by (apply nil_length_inv; lia).
  assert (filter (fun x => tok_node x = i) after = []) as Ha by (apply nil_length_inv; lia).
  set (w' := w <| domain ::= RecycleNode i |> <| tokens := _ |>).
  set (f := fun n : ControlNode C =>
    n <| completed := false |> <| ready := false |> <| result := empty_result |>
      <| owners := 0 |> <| task_next := None |> <| callback := None |>
      <| callback_state := kEmpty |> <| owner := false |>).
  assert (nodes (domain w') = <[i := f n]> (nodes (domain w))) as Hset
    by (exact (on_node_nodes (domain w) i n f Hn)).
  assert (forall j, j <> i -> nodes (domain w') !! j = nodes (domain w) !! j) as Hsame
    by (intros j Hj; rewrite Hset; by apply list_lookup_insert_ne).
  assert (tokens_of i w' = [tFreeing i]) as Hone'.
  { change (filter (fun x => tok_node x = i) ([tFreeing i] ++ before ++ after) = [tFreeing i]).
    rewrite !filter_app, Hb, Ha. by rewrite (filter_own _ i) by (by intros x ->%list_elem_of_singleton). }
  assert (idle w' queued free i) as Hidle by (split; [done|]; right; split; [done|by right]).
  assert (forall m id', ~ live w' queued i m id') as Hnl by (intros m id' Hl; by apply (live_not_idle _ _ free _ _ _ Hl)).
  assert (forall m id', ~ live w queued i m id') as Hnl0.
  { intros m id' Hl. apply (live_not_idle _ _ free _ _ _ Hl). split; [done|]. right. split; [done|by left]. }
  apply (node_step_inv w w' queued queued free i n (f n) id); try done; try apply extends_refl.
  - rewrite Hset. apply list_lookup_insert_eq. by eapply lookup_lt_Some.
  - intros j x Hj Hx. rewrite Hsame in Hx by done. exists x. auto using links_refl.
  - intros j x Hj Hx. rewrite Hsame by done. exists x. auto using links_refl.
  - by rewrite Hset, length_insert.
  - intros j Hj. change (filter (fun x => tok_node x = j) ([tFreeing i] ++ before ++ after) = tokens_of j w).
    unfold tokens_of. rewrite Ht, !filter_app.
    rewrite (filter_other [tFreeing i] i j) by (done || by intros x ->%list_elem_of_singleton).
    rewrite filter_cons. by rewrite decide_False by (intros ?; by apply Hj).
  - intros x. rewrite Ht. cbn. rewrite !elem_of_cons, !elem_of_app, elem_of_cons.
    intros [->|?]; [by left|right; tauto].
  - split; [|apply Hinv]. rewrite Hset. destruct (v_queue _ _ _ Hinv) as [Hch _].
    change (queue_head (domain w')) with (queue_head (domain w)).
    by apply chain_skip.
  - apply (v_nodup _ _ _ Hinv).
  - rewrite Hset. apply (chain_insert _ _ _ _ _ n); [done..|]. apply (v_free _ _ _ Hinv).
  - apply (history_same w); [done..|apply Hinv].
  - by right.
  - intros Hl. by apply Hnl in Hl.
  - intros Hl. by apply Hnl0 in Hl.
  - by right.
Qed.

(** ** The dispatcher's queue is first in, first out *)

Lemma live_moved w w' queued queued' i n n' id :
  live w queued i n id -> links n n' ->
  registered w' = registered w -> outcomes w' = outcomes w -> invoked w' = invoked w ->
  started w' = started w ->
  sumZ holds (tokens_of i w') + waits queued' i = sumZ holds (tokens_of i w) + waits queued i ->
  sumZ acting (tokens_of i w') + waits queued' i = sumZ acting (tokens_of i w) + waits queued i ->
  sumZ completing (tokens_of i w') = sumZ completing (tokens_of i w) ->
  (forall t, t ∈ tokens_of i w' -> t ∈ tokens_of i w \/ tok_ok w' id n' t) ->
  (i ∈ queued' -> callback_state n = kQueued) -> live w' queued' i n' id.
Proof.
  intros [] [k1 k2 k3 k4 k5 k6 k7] H1 H2 H3 H4 Ho Ha Hc Ht Hq.
  constructor; rewrite ?k1, ?k2, ?k4, ?k5, ?k6, ?k7, ?H1, ?H2, ?H3, ?H4; try done; try lia.
  intros t Hin. destruct (Ht t Hin) as [Hold|?]; [|done].
  apply (tok_ok_same w _ id 0%nat n); [done..|rewrite H1; apply extends_refl|by apply lv_tokens0].
Qed.

Lemma chain_snoc ns ns' (get : ControlNode C -> option nat) start l i :
  l <> [] ->
  (forall j x, j ∈ l -> ns !! j = Some x -> exists x', ns' !! j = Some x'
     /\ get x' = if decide (last l = Some j) then Some i else get x) ->
  (exists x, ns' !! i = Some x /\ get x = None) -> NoDup l ->
  chain ns get start l -> chain ns' get start (l ++ [i]).
Proof.
  revert start. induction l as [|j l IH]; [done|].
  intros start _ Hl Hi [Hnj Hnd]%list.NoDup_cons [-> (x & Hx & Hch)]. split; [done|].
  destruct (Hl j x ltac:(by left) Hx) as (x' & Hx' & Hget). exists x'. split; [done|].
  destruct l as [|k l].
  - rewrite decide_True in Hget by done. rewrite Hget. by split.
  - rewrite decide_False in Hget.
    2: { change (last (j :: k :: l)) with (last (k :: l)). intros Hlast.
         apply Hnj. by apply last_Some_elem_of. }
    rewrite Hget. apply IH; try done. intros m y Hm. apply Hl. by right.
Qed.

Lemma chain_member ns (get : ControlNode C -> option nat) start l i :
  chain ns get start l -> i ∈ l -> exists n, ns !! i = Some n.
Proof.
  revert start. induction l as [|j l IH]; [by intros ? _ Hi%elem_of_nil|].
  intros start [_ (x & Hx & Hch)] [->|Hi]%elem_of_cons; [by exists x|by eapply IH].
Qed.

(** The nodes after [Push]. *)
Lemma Push_lookup (d : ControlDomain C) i n queued :
  nodes d !! i = Some n -> i ∉ queued -> queue_tail d = last queued ->
  chain (nodes d) task_next (queue_head d) queued ->
  let d' := Push i d in
  nodes d' !! i = Some (n <| task_next := None |>)
  /\ (forall j, j <> i -> nodes d' !! j
      = (fun x : ControlNode C => if decide (last queued = Some j) then x <| task_next := Some i |> else x)
          <$> nodes d !! j)
  /\ length (nodes d') = length (nodes d)
  /\ queue_tail d' = Some i
  /\ queue_head d' = (if queued is [] then Some i else queue_head d)
  /\ free_head d' = free_head d /\ in_use d' = in_use d.
Proof.
  intros Hi Hq Htail Hch. cbv zeta. unfold Push. set (f := fun n : ControlNode C => n <| task_next := None |>).
  pose proof (on_node_nodes d i n f Hi) as Hset.
  change (queue_tail (on_node i f d)) with (queue_tail d). rewrite Htail.
  assert (nodes (on_node i f d) !! i = Some (f n)) as Hi'
    by (rewrite Hset; apply list_lookup_insert_eq; by eapply lookup_lt_Some).
  assert (forall j, j <> i -> nodes (on_node i f d) !! j = nodes d !! j) as Hj'
    by (intros j Hj; rewrite Hset; by apply list_lookup_insert_ne).
  assert (length (nodes (on_node i f d)) = length (nodes d)) as Hlen by (by rewrite Hset, length_insert).
  destruct (last queued) as [tl|] eqn:Hlast.
  - assert (tl ∈ queued) as Hin by (by apply last_Some_elem_of).
    assert (tl <> i) as Hne by (intros ->; done).
    destruct (chain_member _ _ _ _ _ Hch Hin) as [y Hy].
    set (g := fun n : ControlNode C => n <| task_next := Some i |>).
    assert (nodes (on_node i f d) !! tl = Some y) as Hy' by (by rewrite Hj').
    pose proof (on_node_nodes (on_node i f d) tl y g Hy') as Hset2. cbn [nodes modify].
    split_and!; [|intros j Hj| |done| |done|done].
    + change (nodes (on_node tl g (on_node i f d)) !! i = Some (f n)).
      rewrite Hset2, list_lookup_insert_ne by done. exact Hi'.
    + change (nodes (on_node tl g (on_node i f d)) !! j = (fun x : ControlNode C =>
        if decide (Some tl = Some j) then g x else x) <$> nodes d !! j).
      rewrite Hset2. destruct (decide (j = tl)) as [->|Hjt].
      * rewrite list_lookup_insert_eq by (by eapply lookup_lt_Some). rewrite Hy. cbn.
        by rewrite decide_True.
      * rewrite list_lookup_insert_ne, Hj' by done. destruct (nodes d !! j); [|done]. cbn.
        by rewrite decide_False by congruence.
    + change (length (nodes (on_node tl g (on_node i f d))) = length (nodes d)).
      by rewrite Hset2, length_insert.
    + by destruct queued.
  - apply last_None in Hlast as ->. split_and!; [exact Hi'|intros j Hj|exact Hlen|done..].
    change (nodes (on_node i f d) !! j = (fun x : ControlNode C =>
        if decide (None = Some j) then x <| task_next := Some i |> else x) <$> nodes d !! j).
    rewrite Hj' by done. destruct (nodes d !! j); [|done]. cbn. by rewrite decide_False.
Qed.

Lemma queued_once w queued i n id t before after :
  live w queued i n id -> tokens_of i w = before ++ t :: after -> acting t = 1 -> i ∉ queued.
Proof.
  intros Hl Hts Ha Hq. pose proof (lv_acting _ _ _ _ _ Hl) as Hact.
  rewrite Hts, sumZ_app in Hact. cbn [sumZ] in Hact. unfold waits in Hact. rewrite decide_True in Hact by done.
  pose proof (sum_nonneg acting before acting_nonneg). pose proof (sum_nonneg acting after acting_nonneg).
  assert (busy (callback_state n) <= 1) by (by destruct (callback_state n)). lia.
Qed.

Lemma waits_in queued i : i ∈ queued -> waits queued i = 1.
Proof. intros H. unfold waits. by rewrite decide_True. Qed.
Lemma waits_out queued i : i ∉ queued -> waits queued i = 0.
Proof. intros H. unfold waits. by rewrite decide_False. Qed.

Lemma enqueue_inv w queued free before i after :
  inv w queued free -> tokens w = before ++ tEnqueueing i :: after ->
  inv (w <| domain ::= Push i |> <| tokens := before ++ after |>) (queued ++ [i]) free.
Proof.
  intros Hinv Ht.
  destruct (token_live w queued free (tEnqueueing i) Hinv) as (n & id & Hn & Hid & Hf & Hl & Hok);
    [rewrite Ht; apply in_middle|done|].
  cbn [tok_node] in Hn, Hid, Hf, Hl. change (callback_state n = kQueued) in Hok.
  pose proof (tokens_of_split w before (tEnqueueing i) after Ht) as Hsp. cbn [tok_node] in Hsp.
  pose proof (queued_once w queued i n id _ _ _ Hl Hsp eq_refl) as Hnq.
  destruct (v_queue _ _ _ Hinv) as [Hch Htail]. destruct (v_nodup _ _ _ Hinv) as [Hndf Hndq].
  destruct (Push_lookup (domain w) i n queued Hn Hnq Htail Hch) as (P1 & P2 & P3 & P4 & P5 & P6 & P7).
  set (w' := w <| domain ::= Push i |> <| tokens := before ++ after |>).
  change (Push i (domain w)) with (domain w') in *. set (n' := n <| task_next := None |>) in *.
  assert (forall j x, j <> i -> nodes (domain w) !! j = Some x -> exists x',
    nodes (domain w') !! j = Some x' /\ links x x' /\ next_free x' = next_free x
    /\ task_next x' = if decide (last queued = Some j) then Some i else task_next x) as Hfw.
  { intros j x Hj Hx. rewrite P2, Hx by done. cbn. eexists. split; [done|]. by case_decide. }
  assert (tokens_of i w' = filter (fun x => tok_node x = i) before ++ filter (fun x => tok_node x = i) after)
    as Hsp' by apply filter_app.
  assert (live w' (queued ++ [i]) i n' id) as Hl'.
  { apply (live_moved w w' queued (queued ++ [i]) i n n' id Hl); try done;
      rewrite ?(waits_out _ _ Hnq), ?(waits_in (queued ++ [i]) i) by (apply in_middle);
      rewrite ?Hsp, ?Hsp', ?sumZ_app; cbn [sumZ holds acting completing]; try lia.
    intros x Hx. left. apply elem_of_app in Hx. rewrite elem_of_app, elem_of_cons. tauto. }
  apply (node_step_inv w w' queued (queued ++ [i]) free i n n' id); try done; try apply extends_refl.
  - intros j x' Hj Hx'. rewrite P2 in Hx' by done. destruct (nodes (domain w) !! j) as [x|] eqn:Hx; [|done].
    exists x. split; [done|]. injection Hx' as <-. by case_decide.
  - intros j x Hj Hx. destruct (Hfw j x Hj Hx) as (x' & ? & ? & _). by exists x'.
  - intros j Hj. unfold tokens_of. rewrite Ht. cbn. rewrite !filter_app, filter_cons.
    by rewrite decide_False by (intros ?; by apply Hj).
  - intros x. rewrite Ht. cbn. rewrite !elem_of_app, elem_of_cons. tauto.
  - intros j Hj. rewrite elem_of_app, list_elem_of_singleton. split; [intros [?|?]; done|by left].
  - split; [|by rewrite P4, last_snoc]. rewrite P5. destruct queued as [|q queued'].
    + cbn. split; [done|]. exists n'. by split.
    + apply (chain_snoc (nodes (domain w)) _ task_next (queue_head (domain w)) (q :: queued') i);
        try done; [|by exists n'].
      intros j x Hj Hx. destruct (Hfw j x) as (x' & ? & _ & _ & ?); [congruence|done|]. by exists x'.
  - apply list.NoDup_app. split_and!; [done| |apply NoDup_singleton].
    by intros x Hx ->%list_elem_of_singleton.
  - rewrite P6. apply (chain_map (nodes (domain w))); [|apply (v_free _ _ _ Hinv)].
    intros j x Hj Hx. destruct (Hfw j x) as (x' & ? & _ & ? & _); [congruence|done|]. by exists x'.
  - apply (history_same w); [done..|apply Hinv].
  - left. by split.
  - by left.
  - by left.
Qed.

Lemma pop_inv w queued free i d :
  inv w queued free -> Pop (domain w) = (Some i, d) -> exists rest, queued = i :: rest
    /\ inv (w <| domain := d |> <| tokens := tPopped i :: tokens w |>) rest free.
Proof.
  intros Hinv Hpop. destruct (v_queue _ _ _ Hinv) as [Hch Htail]. destruct (v_nodup _ _ _ Hinv) as [Hndf Hndq].
  unfold Pop in Hpop. destruct queued as [|q rest]; [cbn in Hch; by rewrite Hch in Hpop|].
  destruct Hch as [Hh (n & Hn & Hch)]. rewrite Hh in Hpop. revert Hpop.
  rewrite (node_at_lookup _ _ _ Hn). set (d1 := domain w <| queue_head := task_next n |>).
  change (queue_head d1) with (task_next n).
  set (d2 := match task_next n with None => _ | Some _ => _ end). intros [= -> <-].
  exists rest. split; [done|]. apply list.NoDup_cons in Hndq as [Hnr Hndr].
  assert (nodes d2 = nodes (domain w)) as Hd2 by (unfold d2; by destruct (task_next n)).
  set (f := fun n : ControlNode C => n <| task_next := None |>).
  assert (nodes (on_node i f d2) = <[i := f n]> (nodes (domain w))) as Hset.
  { rewrite <- Hd2. apply on_node_nodes. by rewrite Hd2. }
  assert (serials w !! i = Some (serial_of i w)) as Hid.
  { unfold serial_of. destruct (lookup_lt_is_Some_2 (serials w) i) as [id Hid].
    - rewrite (v_serials _ _ _ Hinv). by eapply lookup_lt_Some.
    - by rewrite Hid. }
  destruct (v_nodes _ _ _ Hinv i n _ Hn Hid) as [[Hf Hl]|[Hq _]]; [|exfalso; apply Hq; by left].
  set (w' := w <| domain := _ |> <| tokens := _ |>).
  assert (forall j, j <> i -> nodes (domain w') !! j = nodes (domain w) !! j) as Hsame
    by (intros j Hj; change (nodes (on_node i f d2) !! j = nodes (domain w) !! j); rewrite Hset;
        by apply list_lookup_insert_ne).
  assert (tokens_of i w' = tPopped i :: tokens_of i w) as Hown.
  { change (filter (fun t => tok_node t = i) (tPopped i :: tokens w) = tPopped i :: tokens_of i w).
    by rewrite filter_cons, decide_True. }
  assert (callback_state n = kQueued) as Hs by (apply (lv_queued _ _ _ _ _ Hl); by left).
  assert (live w' rest i (f n) (serial_of i w)) as Hl'.
  { apply (live_moved w w' (i :: rest) rest i n (f n) _ Hl); try done;
      rewrite ?Hown, ?(waits_out rest i Hnr), ?(waits_in (i :: rest) i) by (by left);
      cbn [sumZ holds acting completing]; try lia.
    intros x [->|?]%elem_of_cons; [right; exact Hs|by left]. }
  apply (node_step_inv w w' (i :: rest) rest free i n (f n) (serial_of i w)); try done;
    try apply extends_refl.
  - change (nodes (on_node i f d2) !! i = Some (f n)). rewrite Hset.
    apply list_lookup_insert_eq. by eapply lookup_lt_Some.
  - intros j x Hj Hx. rewrite Hsame in Hx by done. exists x. auto using links_refl.
  - intros j x Hj Hx. rewrite Hsame by done. exists x. auto using links_refl.
  - change (length (nodes (on_node i f d2)) = length (nodes (domain w))). by rewrite Hset, length_insert.
  - intros j Hj. change (filter (fun t => tok_node t = j) (tPopped i :: tokens w) = tokens_of j w).
    by rewrite filter_cons, decide_False by (intros ?; by apply Hj).
  - intros x. cbn. rewrite elem_of_cons. intros [->|?]; [by left|by right].
  - intros j Hj. rewrite elem_of_cons. split; [by right|intros [?|?]; done].
  - assert (queue_head d2 = task_next n) as Hhd by (unfold d2; by destruct (task_next n) eqn:E).
    change (chain (nodes (on_node i f d2)) task_next (queue_head d2) rest /\ queue_tail d2 = last rest).
    rewrite Hhd, Hset. split; [by apply chain_skip|]. unfold d2.
    destruct rest as [|r rest]; [cbn in Hch; by rewrite Hch|].
    destruct Hch as [-> _]. exact Htail.
  - change (chain (nodes (on_node i f d2)) next_free (free_head d2) free). rewrite Hset.
    assert (free_head d2 = free_head (domain w)) as -> by (unfold d2; by destruct (task_next n)).
    apply (chain_insert _ _ _ _ _ n); [done..|]. apply (v_free _ _ _ Hinv).
  - change (in_use d2 = in_use (domain w)). unfold d2. by destruct (task_next n).
  - apply (history_same w); [done..|apply Hinv].
  - left. by split.
  - by left.
  - by left.
Qed.

(** ** Taking a node from the pool and putting it back *)

Lemma free_length w queued free :
  inv w queued free -> forall i, NoDup (i :: free) -> (i < length (nodes (domain w)))%nat ->
  zlen free + 1 <= zlen (nodes (domain w)).
Proof.
  intros Hinv i Hnd Hi.
  assert (i :: free ⊆+ seq 0 (length (nodes (domain w)))) as Hsub.
  { apply NoDup_submseteq; [done|]. intros x [->|Hx]%elem_of_cons; [apply elem_of_seq; lia|].
    destruct (chain_member _ _ _ _ _ (v_free _ _ _ Hinv) Hx) as [y Hy].
    apply elem_of_seq. apply lookup_lt_Some in Hy. lia. }
  apply submseteq_length in Hsub. rewrite length_seq in Hsub. cbn in Hsub. unfold zlen. lia.
Qed.

(** The pool changes by the node [i], which is live in one of the worlds at most. *)
Section PoolStep.
Context (w w' : World C) (queued free free' : list nat) (i : nat).
Context (Hinv : inv w queued free).
Context (Hsame : forall j, j <> i -> nodes (domain w') !! j = nodes (domain w) !! j).
Context (Hser : forall j, j <> i -> serials w' !! j = serials w !! j).
Context (Htok : forall j, j <> i -> tokens_of j w' = tokens_of j w).
Context (Hf : forall j, j <> i -> j ∈ free' <-> j ∈ free).
Context (Hstarted : (started w <= started w')%nat).
Context (H1 : registered w' = registered w) (H2 : outcomes w' = outcomes w).
Context (H3 : invoked w' = invoked w).
Context (Hdead : idle w queued free i).

Lemma pool_serves j id : serves w queued j id -> j <> i /\ serves w' queued j id.
Proof.
  intros (n & Hn & Hid & Hl).
  assert (j <> i) as Hj by (intros ->; by apply (live_not_idle _ _ free _ _ _ Hl)).
  split; [done|]. exists n. rewrite Hsame, Hser by done. split_and!; [done..|].
  apply (others_live w w' queued queued i (S id) Htok ltac:(done) Hstarted
    ltac:(rewrite H1; apply extends_refl) ltac:(rewrite H2; apply extends_refl)
    ltac:(rewrite H3; apply extends_refl) j n); try done.
Qed.

Lemma pool_serves_back j id : j <> i -> serves w' queued j id -> serves w queued j id.
Proof.
  intros Hj (n & Hn & Hid & Hl). rewrite Hsame, Hser in * by done. exists n. split_and!; [done..|].
  destruct (v_nodes _ _ _ Hinv j n id Hn Hid) as [[_ ?]|Hidle]; [done|].
  exfalso. apply (live_not_idle _ _ free' _ _ _ Hl).
  by apply (others_idle w w' queued queued free free' i Htok ltac:(done) Hf).
Qed.

Lemma pool_node_ok j n id :
  j <> i -> nodes (domain w') !! j = Some n -> serials w' !! j = Some id ->
  node_ok w' queued free' j n id.
Proof.
  intros Hj Hn Hid. rewrite Hsame, Hser in * by done.
  destruct (v_nodes _ _ _ Hinv j n id Hn Hid) as [[Hnf Hl]|Hidle].
  - left. rewrite Hf by done. split; [done|].
    destruct (pool_serves j id) as [_ (m & Hm & _ & ?)]; [by exists n|]. rewrite Hsame in Hm by done. by simplify_eq.
  - right. by apply (others_idle w w' queued queued free free' i Htok ltac:(done) Hf).
Qed.

Lemma pool_history : history_ok w'.
Proof.
  pose proof (v_history _ _ _ Hinv) as [[h1 h1'] [h2 h2'] h3]. constructor; rewrite ?H1, ?H2, ?H3.
  - split; [done|]. intros x Hx. specialize (h1' x Hx). lia.
  - split; [done|]. intros x Hx. specialize (h2' x Hx). lia.
  - done.
Qed.
End PoolStep.

Lemma free_inv w queued free before i after :
  inv w queued free -> tokens w = before ++ tFreeing i :: after ->
  inv (w <| domain ::= RecycleFree i |> <| tokens := before ++ after |>) queued (i :: free).
Proof.
  intros Hinv Ht.
  destruct (recycling_idle w queued free i (tFreeing i) Hinv) as (n & id & Hn & Hid & Hnq & Hf & Hone);
    [rewrite Ht; apply in_middle|by right|].
  pose proof (tokens_of_split w before (tFreeing i) after Ht) as Hsp. cbn [tok_node] in Hsp.
  rewrite Hone in Hsp. apply (f_equal length) in Hsp. rewrite length_app in Hsp. cbn in Hsp.
  assert (filter (fun x => tok_node x = i) before = []) as Hb by (apply nil_length_inv; lia).
  assert (filter (fun x => tok_node x = i) after = []) as Ha by (apply nil_length_inv; lia).
  set (w' := w <| domain ::= RecycleFree i |> <| tokens := _ |>).
  set (f := fun n : ControlNode C => n <| next_free := free_head (domain w) |>).
  assert (nodes (domain w') = <[i := f n]> (nodes (domain w))) as Hset
    by (exact (on_node_nodes (domain w) i n f Hn)).
  assert (forall j, j <> i -> nodes (domain w') !! j = nodes (domain w) !! j) as Hsame
    by (intros j Hj; rewrite Hset; by apply list_lookup_insert_ne).
  assert (tokens_of i w' = []) as Hnone.
  { change (filter (fun x => tok_node x = i) (before ++ after) = []). by rewrite filter_app, Hb, Ha. }
  assert (forall j, j <> i -> tokens_of j w' = tokens_of j w) as Htok.
  { intros j Hj. change (filter (fun x => tok_node x = j) (before ++ after) = tokens_of j w).
    unfold tokens_of. rewrite Ht, !filter_app, filter_cons.
    by rewrite decide_False by (intros ?; by apply Hj). }
  assert (idle w queued free i) as Hidle by (split; [done|]; right; split; [done|by right]).
  assert (idle w' queued (i :: free) i) as Hidle' by (split; [done|]; left; split; [by left|done]).
  assert (forall j, j <> i -> j ∈ i :: free <-> j ∈ free) as Hfree
    by (intros j Hj; rewrite elem_of_cons; split; [by intros [?|?]|by right]).
  destruct (v_nodup _ _ _ Hinv) as [Hndf Hndq].
  assert (NoDup (i :: free)) as Hnd by (by apply list.NoDup_cons).
  constructor; try done.
  - intros j x id' Hx Hs. destruct (decide (j = i)) as [->|Hj]; [by right|].
    by apply (pool_node_ok w w' queued free (i :: free) i).
  - intros t Hin. rewrite Hset, length_insert. apply (v_range _ _ _ Hinv). rewrite Ht.
    cbn in Hin. apply elem_of_app in Hin. rewrite elem_of_app, elem_of_cons. tauto.
  - rewrite Hset, length_insert. apply Hinv.
  - split; [done|]. exists (f n). rewrite Hset, list_lookup_insert_eq by (by eapply lookup_lt_Some).
    split; [done|]. apply chain_skip; [done|apply (v_free _ _ _ Hinv)].
  - rewrite Hset. split; [|apply Hinv].
    apply (chain_insert _ _ _ _ _ n); [done..|]. apply (v_queue _ _ _ Hinv).
  - destruct (v_count _ _ _ Hinv) as [Hc Hlim].
    pose proof (free_length w queued free Hinv i Hnd ltac:(by eapply lookup_lt_Some)).
    change (in_use (domain w')) with (in_use (domain w) -w 1).
    rewrite Hset. unfold zlen in *. rewrite length_insert. cbn [length]. split; [|done].
    rewrite w64_small by lia. lia.
  - intros j k x Hj Hk.
    assert (forall j x, serves w' queued j x -> j <> i) as Hne.
    { intros m y (z & _ & _ & Hl) ->. by apply (live_not_idle _ _ (i :: free) _ _ _ Hl). }
    apply (v_distinct _ _ _ Hinv j k x);
      apply (pool_serves_back w w' queued free (i :: free) i); try done; by eapply Hne.
  - by apply (pool_history w w' queued free).
  - intros x Hx. destruct (v_finished _ _ _ Hinv x Hx) as [[j Hs]|?]; [left|by right].
    exists j. by apply (pool_serves w w' queued free i).
Qed.

(** Tokens that all belong to one node are added. *)
Lemma tokens_added l i w w' :
  tokens w' = l ++ tokens w -> (forall x, x ∈ l -> tok_node x = i) ->
  (tokens_of i w = [] -> tokens_of i w' = l) /\ forall j, j <> i -> tokens_of j w' = tokens_of j w.
Proof.
  intros Ht Hl. unfold tokens_of. rewrite Ht. split.
  - intros Hnone. by rewrite filter_app, Hnone, app_nil_r, filter_own.
  - intros j Hj. by rewrite filter_app, (filter_other l i j).
Qed.

(** The free nodes are nodes. *)
Lemma free_fits w queued free : inv w queued free -> (length free <= length (nodes (domain w)))%nat.
Proof.
  intros Hinv. assert (free ⊆+ seq 0 (length (nodes (domain w)))) as Hsub.
  { apply NoDup_submseteq; [apply (v_nodup _ _ _ Hinv)|]. intros x Hx.
    destruct (chain_member _ _ _ _ _ (v_free _ _ _ Hinv) Hx) as [y Hy].
    apply elem_of_seq. apply lookup_lt_Some in Hy. lia. }
  apply submseteq_length in Hsub. by rewrite length_seq in Hsub.
Qed.

(** The node of an operation that was just started. *)
Lemma started_live w w' queued i n ref :
  history_ok w -> i ∉ queued -> tokens_of i w' = [tOperation ref; tCompletion ref] ->
  node_generation ref = generation n -> serial ref = started w ->
  owners n = 2 -> completed n = false -> ready n = false -> callback_state n = kEmpty ->
  started w' = S (started w) -> registered w' = registered w -> outcomes w' = outcomes w ->
  invoked w' = invoked w -> live w' queued i n (started w).
Proof.
  intros [[_ h1] [_ h2] [_ h3]] Hnq Hown Hg Hser Ho Hc Hr Hcb Hst Hreg Hout Hinv.
  assert (forall (l : list nat), (forall x, x ∈ l -> (x < started w)%nat) -> started w ∉ l) as Hfresh
    by (intros l Hl Hin; specialize (Hl _ Hin); lia).
  constructor; rewrite ?Hown, ?(waits_out _ _ Hnq), ?Ho, ?Hc, ?Hr, ?Hcb, ?Hout, ?Hreg, ?Hinv, ?Hst; try done.
  - by intros x [->| ->%list_elem_of_singleton]%elem_of_cons.
  - by apply Hfresh.
  - by apply Hfresh.
  - split; [|done]. intros ((x & cb & res) & Heq & Hin)%list_elem_of_fmap. cbn in Heq. subst x.
    exfalso. destruct (h3 _ _ _ Hin) as [Hin' _].
    apply (Hfresh _ h2). apply list_elem_of_fmap. by exists (started w, res).
  - lia.
Qed.

Lemma operation_start_inv w queued free i gen d :
  inv w queued free -> TryStart (domain w) = inr (i, gen, d) -> exists rest, free = i :: rest /\
  let ref := {| node := i; node_generation := gen; serial := started w |} in
  inv (w <| domain := d |> <| tokens := tOperation ref :: tCompletion ref :: tokens w |>
         <| serials ::= <[i := started w]> |> <| started ::= S |>) queued rest.
Proof.
  intros Hinv Htry. pose proof (v_free _ _ _ Hinv) as Hch. destruct (v_nodup _ _ _ Hinv) as [Hndf Hndq].
  unfold TryStart in Htry. destruct free as [|k rest]; [cbn in Hch; by rewrite Hch in Htry|].
  destruct Hch as [Hh (n & Hn & Hch)]. rewrite Hh in Htry. revert Htry.
  rewrite (node_at_lookup _ _ _ Hn).
  set (d1 := domain w <| free_head := next_free n |> <| in_use ::= _ |>).
  set (n' := n <| generation ::= _ |> <| owners := 2 |> <| completed := false |> <| ready := false |>
    <| result := _ |> <| callback := _ |> <| callback_state := _ |> <| task_next := _ |>
    <| owner := _ |> <| next_free := _ |>).
  set (f := fun _ : ControlNode C => n'). intros [= -> <- <-]. exists rest. split; [done|]. cbv zeta.
  set (ref := {| node := i; node_generation := generation n'; serial := started w |}).
  set (w' := w <| domain := _ |> <| tokens := _ |> <| serials ::= _ |> <| started ::= S |>).
  assert (nodes (domain w') = <[i := n']> (nodes (domain w))) as Hset
    by (exact (on_node_nodes d1 i n f Hn)).
  assert (forall j, j <> i -> nodes (domain w') !! j = nodes (domain w) !! j) as Hsame
    by (intros j Hj; rewrite Hset; by apply list_lookup_insert_ne).
  pose proof (lookup_lt_Some _ _ _ Hn) as Hlt.
  assert (serials w' = <[i := started w]> (serials w)) as Hserials by done.
  assert (forall j, j <> i -> serials w' !! j = serials w !! j) as Hser
    by (intros j Hj; rewrite Hserials; by apply list_lookup_insert_ne).
  assert (serials w' !! i = Some (started w)) as Hid'
    by (rewrite Hserials; apply list_lookup_insert_eq; by rewrite (v_serials _ _ _ Hinv)).
  apply list.NoDup_cons in Hndf as [Hnr Hndr].
  destruct (lookup_lt_is_Some_2 (serials w) i) as [id Hid]; [by rewrite (v_serials _ _ _ Hinv)|].
  destruct (v_nodes _ _ _ Hinv i n id Hn Hid) as [[Hnf _]|Hidle]; [exfalso; apply Hnf; by left|].
  pose proof Hidle as [Hnq [[_ Hnone]|[Hnf _]]]; [|exfalso; apply Hnf; by left].
  destruct (tokens_added [tOperation ref; tCompletion ref] i w w') as [Hown Htok]; [done| |].
  { by intros x [->| ->%list_elem_of_singleton]%elem_of_cons. }
  specialize (Hown Hnone).
  assert (live w' queued i n' (started w)) as Hl'
    by (apply started_live with ref; try done; apply (v_history _ _ _ Hinv)).
  assert (forall j, j <> i -> j ∈ rest <-> j ∈ i :: rest) as Hfree
    by (intros j Hj; rewrite elem_of_cons; split; [by right|by intros [?|?]]).
  assert (started w <= started w')%nat as Hst by (cbn; lia).
  constructor; try done.
  - intros j x id' Hx Hs. destruct (decide (j = i)) as [->|Hj].
    + left. split; [done|]. rewrite Hset, list_lookup_insert_eq in Hx by done. congruence.
    + by apply (pool_node_ok w w' queued (i :: rest) rest i).
  - intros t Hin. rewrite Hset, length_insert. cbn in Hin.
    rewrite !elem_of_cons in Hin. destruct Hin as [->|[->|Hin]]; [done..|]. by apply (v_range _ _ _ Hinv).
  - rewrite Hset, Hserials, !length_insert. apply Hinv.
  - change (free_head (domain w')) with (next_free n). rewrite Hset. by apply chain_skip.
  - rewrite Hset. split; [|apply Hinv]. apply chain_skip; [done|]. apply (v_queue _ _ _ Hinv).
  - destruct (v_count _ _ _ Hinv) as [Hc Hlim].
    change (in_use (domain w')) with (in_use (domain w) +w 1). rewrite Hset.
    pose proof (free_length w queued (i :: rest) Hinv) as Hfl. unfold zlen in *. rewrite length_insert.
    cbn [length] in *.
    pose proof (free_fits w queued (i :: rest) Hinv) as Hle. cbn [length] in Hle.
    split; [|done]. rewrite w64_small by lia. lia.
  - assert (forall j x, serves w' queued j x -> j = i /\ x = started w \/ j <> i /\ serves w queued j x) as Hcase.
    { intros j x Hs. destruct (decide (j = i)) as [->|Hj].
      - left. split; [done|]. destruct Hs as (? & _ & Hs & _). congruence.
      - right. split; [done|]. by apply (pool_serves_back w w' queued (i :: rest) rest i). }
    intros j k x Hj Hk.
    destruct (Hcase j x Hj) as [[-> Hx]|[Hnj Hj']], (Hcase k x Hk) as [[-> Hx']|[Hnk Hk']]; [done|..].
    + destruct Hk' as (? & _ & _ & Hl). pose proof (lv_serial _ _ _ _ _ Hl). lia.
    + destruct Hj' as (? & _ & _ & Hl). pose proof (lv_serial _ _ _ _ _ Hl). lia.
    + by apply (v_distinct _ _ _ Hinv j k x).
  - by apply (pool_history w w' queued (i :: rest)).
  - intros x Hx. destruct (decide (x = started w)) as [->|Hne].
    + left. exists i, n'. split_and!; [|done..]. rewrite Hset. by apply list_lookup_insert_eq.
    + assert (x < started w)%nat as Hlt' by (cbn in Hx; lia).
      destruct (v_finished _ _ _ Hinv x Hlt') as [[j Hs]|?]; [left|by right].
      exists j. by apply (pool_serves w w' queued (i :: rest) i).
Qed.

(** ** Reachable worlds *)

Definition good w : Prop := exists queued free, inv w queued free.

Lemma control_step_good w w' : control_step w w' -> good w -> good w'.
Proof.
  intros Hstep (queued & free & Hinv).
  destruct Hstep as [w i gen d Htry|w b ref a Ht|w b ref a o r c e d Ht Hc|w b ref a cb d Ht Hc
    |w b ref cb a e d Ht Hc|w b i a Ht|w i d Hpop|w b i a found d Ht Hc|w b i gen res a Ht
    |w b ref a last d Ht Hc|w b i a Ht|w b i a Ht].
  - destruct (operation_start_inv w queued free i gen d Hinv Htry) as (rest & _ & H). by exists queued, rest.
  - exists queued, free. by apply node_drop_inv.
  - exists queued, free. by eapply complete_inv.
  - exists queued, free. by apply register_inv.
  - exists queued, free. by eapply install_inv.
  - exists (queued ++ [i]), free. by apply enqueue_inv.
  - destruct (pop_inv w queued free i d Hinv Hpop) as (rest & _ & H). by exists rest, free.
  - exists queued, free. by eapply run_inv.
  - exists queued, free. by apply ran_inv.
  - exists queued, free. by eapply release_step_inv.
  - exists queued, free. by apply recycle_inv.
  - exists queued, (i :: free). by apply free_inv.
Qed.

Lemma steps_good w w' : rtc control_step w w' -> good w -> good w'.
Proof. induction 1 as [|x y z Hs _ IH]; [done|]. intros H. apply IH. by eapply control_step_good. Qed.

Lemma outcomes_grow w w' : rtc control_step w w' -> outcomes w ⊆ outcomes w'.
Proof.
  induction 1 as [|x y z Hs _ IH]; [done|]. etrans; [|exact IH].
  destruct Hs; try done. intros e He. cbn. apply elem_of_app. by left.
Qed.

Lemma initial_chain cap k :
  (k <= cap)%nat ->
  chain (InitialNode cap <$> seq 0 cap : list (ControlNode C)) next_free
    (if (k <? cap)%nat then Some k else None) (seq k (cap - k)).
Proof.
  intros Hk. remember (cap - k)%nat as m eqn:Hm. revert k Hk Hm.
  induction m as [|m IH]; intros k Hk Hm; cbn [seq chain].
  - destruct (Nat.ltb_spec k cap); [lia|done].
  - destruct (Nat.ltb_spec k cap); [|lia]. split; [done|]. exists (InitialNode cap k).
    rewrite list_lookup_fmap, lookup_seq_lt by lia. split; [done|].
    change (next_free (InitialNode cap k)) with (if (k + 1 <? cap)%nat then Some (k + 1)%nat else None).
    rewrite Nat.add_1_r. apply IH; lia.
Qed.

Context (capacity : nat) (valid : bool) (state_bytes : Z) (d0 : ControlDomain C).
Context (Hcapacity : Z.of_nat capacity < 2 ^ 64).
Context (Hmake : MakeReserve capacity valid state_bytes = inr d0).

Lemma control_initial_good : good (initial_world d0).
Proof.
  unfold MakeReserve in Hmake. destruct (Nat.eqb_spec capacity 0) as [|Hne]; [done|].
  destruct (negb valid); [done|]. injection Hmake as <-.
  assert (length (nodes (MakeDomain capacity state_bytes : ControlDomain C)) = capacity) as Hlen
    by (cbn; by rewrite length_fmap, length_seq).
  exists [], (seq 0 capacity). constructor; cbn [initial_world domain tokens serials started registered outcomes invoked].
  - intros i n id Hn _. right. split; [by intros Hx%elem_of_nil|]. left. split; [|done].
    apply elem_of_seq. apply lookup_lt_Some in Hn. lia.
  - by intros t Ht%elem_of_nil.
  - by rewrite length_replicate.
  - pose proof (initial_chain capacity 0 ltac:(lia)) as Hc. rewrite Nat.sub_0_r in Hc.
    destruct (Nat.ltb_spec 0 capacity); [exact Hc|lia].
  - done.
  - split; [apply NoDup_seq|apply list.NoDup_nil; done].
  - unfold zlen. rewrite Hlen, length_seq. cbn. lia.
  - intros i j id (n & _ & _ & Hl). pose proof (lv_serial _ _ _ _ _ Hl) as Hs. cbn in Hs. lia.
  - constructor; cbn; (split; [apply list.NoDup_nil; done|]); try (by intros ? Hx%elem_of_nil).
    by intros ? ? ? Hx%elem_of_nil.
  - intros id Hid. lia.
Qed.

Lemma control_reachable_good w : rtc control_step (initial_world d0) w -> good w.
Proof. intros H. eapply steps_good; [exact H|exact control_initial_good]. Qed.

(** ** Properties *)

(** The node of a live handle. *)
Lemma handle_node w ref :
  rtc control_step (initial_world d0) w -> tOperation ref ∈ tokens w -> exists n,
    node_at (node ref) (domain w) = n /\ generation n = node_generation ref
    /\ ready n = completed n
    /\ if completed n then (serial ref, result n) ∈ outcomes w else serial ref ∉ (outcomes w).*1.
Proof.
  intros Hr Ht. destruct (control_reachable_good w Hr) as (queued & free & Hinv).
  destruct (token_live w queued free _ Hinv Ht eq_refl) as (n & id & Hn & Hid & _ & Hl & Hg & Hs).
  exists n. split; [by apply node_at_lookup|]. rewrite Hs.
  split_and!; [done|apply (lv_ready _ _ _ _ _ Hl)|apply (lv_outcome _ _ _ _ _ Hl)].
Qed.

Lemma outcome_unique w id r r' :
  rtc control_step (initial_world d0) w -> (id, r) ∈ outcomes w -> (id, r') ∈ outcomes w -> r = r'.
Proof.
  intros Hr H1 H2. destruct (control_reachable_good w Hr) as (queued & free & Hinv).
  destruct (hs_outcomes _ (v_history _ _ _ Hinv)) as [Hnd _]. by eapply NoDup_fst_unique.
Qed.

(** C11: an operation is completed at most once, and its handle polls pending until then
    and the published result from then on, whatever else the threads do and however
    often nodes are reused. *)
Theorem poll_reports_the_outcome w w' ref :
  rtc control_step (initial_world d0) w -> tOperation ref ∈ tokens w ->
  rtc control_step w w' -> tOperation ref ∈ tokens w' ->
  NoDup (outcomes w').*1
  /\ (forall r, (serial ref, r) ∈ outcomes w ->
        Poll (Some ref) (domain w') = {| poll_status := kPollCompleted; poll_completion := Some r |})
  /\ ((serial ref ∉ (outcomes w').*1) ->
        Poll (Some ref) (domain w') = {| poll_status := kPending; poll_completion := None |}).
Proof.
  intros Hr Ht Hw Ht'. assert (rtc control_step (initial_world d0) w') as Hr' by (by etrans).
  destruct (handle_node w' ref Hr' Ht') as (n & Hn & Hg & Hrd & Ho).
  destruct (control_reachable_good w' Hr') as (queued & free & Hinv).
  destruct (hs_outcomes _ (v_history _ _ _ Hinv)) as [Hnd _]. split; [done|].
  cbn [Poll poll kOperationVTable]. unfold PollNode. rewrite Hn, Hg, Z.eqb_refl, Hrd. cbn [negb].
  split.
  - intros r Hin. apply (outcomes_grow _ _ Hw) in Hin. destruct (completed n); cbn [negb].
    + by rewrite (outcome_unique w' _ _ _ Hr' Ho Hin).
    + exfalso. apply Ho. by apply (list_elem_of_fmap_2 fst) in Hin.
  - intros Hno. destruct (completed n); [|done]. exfalso. apply Hno.
    by apply (list_elem_of_fmap_2 fst) in Ho.
Qed.

(** The dispatcher has nothing to do and no thread is inside a callback call. *)
Definition callbacks_settled w : Prop :=
  QueueEmpty (domain w) = true /\ forall t, t ∈ tokens w -> acting t = 0.

(** C12: a registered callback runs at most once, with the operation's published result,
    and no registration is lost: once the dispatcher is idle every callback of a completed
    operation has run, registered before or after the completion. *)
Theorem callbacks_run_exactly_once w :
  rtc control_step (initial_world d0) w ->
  NoDup (registered w).*1 /\ NoDup (invoked w).*1
  /\ (forall id cb r, (id, (cb, r)) ∈ invoked w ->
        (id, r) ∈ outcomes w /\ exists c, cb = Some c /\ (id, c) ∈ registered w)
  /\ (callbacks_settled w -> forall id c r, (id, c) ∈ registered w -> (id, r) ∈ outcomes w ->
        (id, (Some c, r)) ∈ invoked w).
Proof.
  intros Hr. destruct (control_reachable_good w Hr) as (queued & free & Hinv).
  destruct (v_history _ _ _ Hinv) as [[Hnr Hlr] _ [Hni Hi]]. split_and!; [done..|].
  intros [Hq Hpassive] id c r Hreg Hout. apply bool_decide_eq_true in Hq.
  assert (id ∈ (registered w).*1) as Hid by (by apply (list_elem_of_fmap_2 fst) in Hreg).
  assert (id ∈ (invoked w).*1) as Hran.
  { destruct (v_finished _ _ _ Hinv id (Hlr id Hid)) as [[i (n & Hn & Hs & Hl)]|[_ Hf]]; [|auto].
    destruct Hl. assert (queued = []) as ->.
    { destruct (v_queue _ _ _ Hinv) as [Hch _]. destruct queued; [done|]. destruct Hch as [Hh _]. congruence. }
    assert (sumZ acting (tokens_of i w) = 0) as Hz.
    { apply sumZ_zero. intros t [_ Ht]%list_elem_of_filter. auto. }
    rewrite Hz in lv_acting0. cbn in lv_acting0. apply lv_invoked0.
    destruct (completed n) eqn:Hc; [|by apply (list_elem_of_fmap_2 fst) in Hout].
    by destruct (callback_state n). }
  apply list_elem_of_fmap in Hran as ((x & cb & res) & Heq & Hin). cbn in Heq. subst x.
  destruct (Hi _ _ _ Hin) as [Ho (c' & -> & Hc')].
  rewrite (outcome_unique w id r res Hr Hout Ho).
  by rewrite (NoDup_fst_unique _ _ _ _ Hnr Hreg Hc').
Qed.

(** C35: the reserve never hands out more nodes than it has, refuses exactly when all
    are in use and says so, and gets every node back: when no handle and no call is left
    and the dispatcher is idle, none is in use. *)
Theorem reserve_recovers_every_node w :
  rtc control_step (initial_world d0) w ->
  0 <= in_use (domain w) <= zlen (nodes (domain w))
  /\ match TryStart (domain w) with
     | inl failure =>
         in_use (domain w) = zlen (nodes (domain w))
         /\ failure = {| control_capacity := zlen (nodes (domain w)); controls_in_use := in_use (domain w) |}
     | inr (_, d) => in_use d = in_use (domain w) + 1 /\ zlen (nodes d) = zlen (nodes (domain w))
     end
  /\ (tokens w = [] -> QueueEmpty (domain w) = true -> in_use (domain w) = 0).
Proof.
  intros Hr. destruct (control_reachable_good w Hr) as (queued & free & Hinv).
  destruct (v_count _ _ _ Hinv) as [Hc Hlim]. destruct (v_nodup _ _ _ Hinv) as [Hnd _].
  assert (free ⊆+ seq 0 (length (nodes (domain w)))) as Hsub.
  { apply NoDup_submseteq; [done|]. intros x Hx.
    destruct (chain_member _ _ _ _ _ (v_free _ _ _ Hinv) Hx) as [y Hy].
    apply elem_of_seq. apply lookup_lt_Some in Hy. lia. }
  pose proof (submseteq_length _ _ Hsub) as Hlen. rewrite length_seq in Hlen.
  split; [unfold zlen in *; lia|]. split.
  - pose proof (v_free _ _ _ Hinv) as Hch. unfold TryStart.
    destruct free as [|i rest]; cbn [chain] in Hch.
    + rewrite Hch. unfold zlen in *. cbn in Hc. split; [lia|done].
    + destruct Hch as [-> _]. unfold zlen in *. cbn [length] in *.
      match goal with |- in_use ?d = _ /\ _ =>
        change (in_use d) with (in_use (domain w) +w 1) end.
      rewrite w64_small by lia. split; [done|].
      by rewrite on_node_length.
  - intros Hnil Hq. apply bool_decide_eq_true in Hq.
    assert (queued = []) as ->.
    { destruct (v_queue _ _ _ Hinv) as [Hch _]. destruct queued; [done|]. destruct Hch as [Hh _]. congruence. }
    assert (seq 0 (length (nodes (domain w))) ⊆ free) as Hall.
    { intros i Hi. apply elem_of_seq in Hi. destruct (lookup_lt_is_Some_2 (nodes (domain w)) i) as [n Hn]; [lia|].
      destruct (lookup_lt_is_Some_2 (serials w) i) as [id Hid]; [rewrite (v_serials _ _ _ Hinv); lia|].
      assert (tokens_of i w = []) as Hnone by (unfold tokens_of; by rewrite Hnil).
      destruct (v_nodes _ _ _ Hinv i n id Hn Hid) as [[_ Hl]|[_ [[? _]|[_ [?|?]]]]]; [|done|congruence..].
      destruct Hl. rewrite Hnone, waits_out in lv_owners0 by (by intros ?%elem_of_nil).
      cbn in lv_owners0. lia. }
    pose proof (NoDup_submseteq _ _ (NoDup_seq 0 (length (nodes (domain w)))) Hall) as Hsub'.
    apply submseteq_length in Hsub'. rewrite length_seq in Hsub'. unfold zlen in *. lia.
Qed.

(** A wait returns the published result if there is one when it starts, refuses to
    block the library's own threads otherwise, and then reports the result exactly when
    the operation was completed before the wait ended; an empty handle and a failing wait
    primitive are reported as such. *)
Lemma WaitUntil_exact w wl we ref role :
  rtc control_step (initial_world d0) w -> rtc control_step w wl -> rtc control_step wl we ->
  tOperation ref ∈ tokens w -> tOperation ref ∈ tokens wl -> tOperation ref ∈ tokens we ->
  let wait at_lock at_end := WaitUntil (Some ref)
    {| waiting_role := role; at_lock := at_lock; at_end := at_end |} (domain w) in
  let completed_with r := {| wait_status := kWaitCompleted; wait_completion := Some r |} in
  let failed s := {| wait_status := s; wait_completion := None |} in
  (forall r, (serial ref, r) ∈ outcomes w -> forall l e, wait l e = completed_with r)
  /\ ((serial ref ∉ (outcomes w).*1) ->
      (role <> kExternal -> forall l e, wait l e = failed kForbiddenThread)
      /\ (role = kExternal ->
          (forall r, (serial ref, r) ∈ outcomes we ->
             wait (Some (domain wl)) (Some (domain we)) = completed_with r)
          /\ ((serial ref ∉ (outcomes we).*1) ->
             wait (Some (domain wl)) (Some (domain we)) = failed kDeadlineExceeded)
          /\ (forall e, wait None e = failed kWaitFailed)
          /\ wait (Some (domain wl)) None = failed kWaitFailed))
  /\ forall schedule, WaitUntil None schedule (domain w) = failed kWaitInvalidOperation.
Proof.
  intros Hr Hl He Ht Htl Hte wait completed_with failed.
  assert (rtc control_step (initial_world d0) wl) as Hrl by (by etrans).
  assert (rtc control_step (initial_world d0) we) as Hre by (by etrans).
  destruct (handle_node w ref Hr Ht) as (n & Hn & _ & Hrd & Ho).
  destruct (handle_node wl ref Hrl Htl) as (nl & Hnl & Hgl & _ & _).
  destruct (handle_node we ref Hre Hte) as (ne & Hne & _ & _ & Hoe).
  assert (forall l e, wait l e = WaitForNode ref
    {| waiting_role := role; at_lock := l; at_end := e |} (domain w)) as Hw by done.
  unfold WaitForNode in Hw. rewrite Hn, Hrd in Hw. cbn [waiting_role at_lock at_end] in Hw.
  assert (forall (x : World C) r, (serial ref, r) ∈ outcomes x -> serial ref ∈ (outcomes x).*1) as Hkey
    by (intros x r Hin; by apply (list_elem_of_fmap_2 fst) in Hin).
  split_and!; [| |done].
  - intros r Hin l e. rewrite Hw. destruct (completed n).
    + by rewrite (outcome_unique w _ _ _ Hr Ho Hin).
    + exfalso. by apply Hkey, Ho in Hin.
  - intros Hno. destruct (completed n); [exfalso; by apply Hkey, Hno in Ho|].
    split; [intros Hrole l e; by rewrite Hw, bool_decide_eq_false_2|].
    intros Hrole. rewrite bool_decide_eq_true_2 in Hw by done. cbn [negb] in Hw.
    split_and!; [| |intros e; by rewrite Hw|by rewrite Hw, Hnl, Hgl, Z.eqb_refl].
    + intros r Hin. rewrite Hw, Hnl, Hgl, Z.eqb_refl, Hne. cbn [negb].
      destruct (completed ne); [by rewrite (outcome_unique we _ _ _ Hre Hoe Hin)|].
      exfalso. by apply Hkey, Hoe in Hin.
    + intros Hnoe. rewrite Hw, Hnl, Hgl, Z.eqb_refl, Hne. cbn [negb].
      destruct (completed ne); [|done]. exfalso. by apply Hkey, Hnoe in Hoe.
Qed.
End Invariant.

(** ** A run

    One operation on a reserve of two nodes: a callback is registered, the operation is
    completed, the dispatcher runs the callback, and the node returns to the pool. *)

Definition demo_domain : ControlDomain nat := MakeDomain 2 64.
Definition demo_ref : NodeRef := {| node := 0; node_generation := 1; serial := 0 |}.
Definition demo_result : OperationResult := MakeResult kSucceeded empty_report.

Definition with_tokens (d : ControlDomain nat) (ts : list (Token nat)) (w : World nat) : World nat :=
  w <| domain := d |> <| tokens := ts |>.

Definition demo_fresh : World nat := Eval vm_compute in initial_world demo_domain.
Definition demo_started : World nat := Eval vm_compute in
  match TryStart (domain demo_fresh) with
  | inr (_, _, d) => with_tokens d [tOperation demo_ref; tCompletion demo_ref] demo_fresh
                       <| serials := [0%nat; 0%nat] |> <| started := 1%nat |>
  | inl _ => demo_fresh
  end.
Definition demo_registering : World nat := Eval vm_compute in
  with_tokens (RegisterBegin demo_ref (domain demo_started)).2
    [tInstalling demo_ref 7%nat; tOperation demo_ref; tCompletion demo_ref] demo_started
    <| registered := [(0%nat, 7%nat)] |>.
Definition demo_armed : World nat := Eval vm_compute in
  with_tokens (RegisterInstall 0 (Some 7%nat) (domain demo_registering)).2
    [tReleasing demo_ref; tOperation demo_ref; tCompletion demo_ref] demo_registering.
Definition demo_registered : World nat := Eval vm_compute in
  with_tokens (ReleaseLocked demo_ref (domain demo_armed)).2
    [tOperation demo_ref; tCompletion demo_ref] demo_armed.
Definition demo_completed : World nat := Eval vm_compute in
  with_tokens (CompleteLocked demo_ref kSucceeded empty_report (domain demo_registered)).2
    [tEnqueueing 0; tReleasing demo_ref; tOperation demo_ref] demo_registered
    <| outcomes := [(0%nat, demo_result)] |>.
Definition demo_queued : World nat := Eval vm_compute in
  with_tokens (Push 0 (domain demo_completed)) [tReleasing demo_ref; tOperation demo_ref] demo_completed.
Definition demo_popped : World nat := Eval vm_compute in
  with_tokens (Pop (domain demo_queued)).2
    [tPopped 0; tReleasing demo_ref; tOperation demo_ref] demo_queued.
Definition demo_running : World nat := Eval vm_compute in
  with_tokens (RunBegin 0 (domain demo_popped)).2
    [tRunning 0 1 demo_result; tReleasing demo_ref; tOperation demo_ref] demo_popped.
Definition demo_ran : World nat := Eval vm_compute in
  with_tokens (RunEnd 0 (domain demo_running))
    [tReleasing demo_ref; tReleasing demo_ref; tOperation demo_ref] demo_running
    <| invoked := [(0%nat, (Some 7%nat, demo_result))] |>.
Definition demo_dropped : World nat := Eval vm_compute in
  with_tokens (domain demo_ran) [tReleasing demo_ref; tReleasing demo_ref; tReleasing demo_ref] demo_ran.
Definition demo_one_left : World nat := Eval vm_compute in
  with_tokens (ReleaseLocked demo_ref (ReleaseLocked demo_ref (domain demo_dropped)).2).2
    [tReleasing demo_ref] demo_dropped.
Definition demo_recycling : World nat := Eval vm_compute in
  with_tokens (ReleaseLocked demo_ref (domain demo_one_left)).2 [tRecycling 0] demo_one_left.
Definition demo_idle : World nat := Eval vm_compute in
  with_tokens (Recycle 0 (domain demo_recycling)) [] demo_recycling.

Lemma control_step_to {C} (w w' w'' : World C) : control_step w w' -> w' = w'' -> control_step w w''.
Proof. by intros H <-. Qed.

Lemma demo_reach_started : rtc control_step (initial_world demo_domain) demo_started.
Proof.
  apply (rtc_l _ _ demo_started); [|done].
  eapply control_step_to; [eapply (step_start _ 0%nat 1); by vm_compute|by vm_compute].
Qed.

Lemma demo_reach_completed : rtc control_step demo_started demo_completed.
Proof.
  apply (rtc_l _ _ demo_registering).
  { eapply control_step_to; [apply (step_register _ [] demo_ref [tCompletion demo_ref] 7%nat); by vm_compute|by vm_compute]. }
  apply (rtc_l _ _ demo_armed).
  { eapply control_step_to;
      [apply (step_install _ [] demo_ref 7%nat [tOperation demo_ref; tCompletion demo_ref]); by vm_compute|by vm_compute]. }
  apply (rtc_l _ _ demo_registered).
  { eapply control_step_to;
      [apply (step_release _ [] demo_ref [tOperation demo_ref; tCompletion demo_ref]); by vm_compute|by vm_compute]. }
  apply rtc_once. eapply control_step_to;
    [apply (step_complete _ [tOperation demo_ref] demo_ref [] kSucceeded empty_report); by vm_compute|by vm_compute].
Qed.

Lemma demo_reach_ran : rtc control_step demo_completed demo_ran.
Proof.
  apply (rtc_l _ _ demo_queued).
  { eapply control_step_to;
      [apply (step_enqueue _ [] 0%nat [tReleasing demo_ref; tOperation demo_ref]); by vm_compute|by vm_compute]. }
  apply (rtc_l _ _ demo_popped).
  { eapply control_step_to; [apply (step_pop _ 0%nat); by vm_compute|by vm_compute]. }
  apply (rtc_l _ _ demo_running).
  { eapply control_step_to;
      [apply (step_run _ [] 0%nat [tReleasing demo_ref; tOperation demo_ref]); by vm_compute|by vm_compute]. }
  apply rtc_once. eapply control_step_to;
    [apply (step_ran _ [] 0%nat 1 demo_result [tReleasing demo_ref; tOperation demo_ref]); by vm_compute|by vm_compute].
Qed.

Lemma demo_reach_idle : rtc control_step demo_ran demo_idle.
Proof.
  apply (rtc_l _ _ demo_dropped).
  { eapply control_step_to;
      [apply (step_drop _ [tReleasing demo_ref; tReleasing demo_ref] demo_ref []); by vm_compute|by vm_compute]. }
  eapply rtc_l.
  { apply (step_release _ [] demo_ref [tReleasing demo_ref; tReleasing demo_ref] false
      (ReleaseLocked demo_ref (domain demo_dropped)).2); by vm_compute. }
  apply (rtc_l _ _ demo_one_left).
  { eapply control_step_to;
      [apply (step_release _ [] demo_ref [tReleasing demo_ref]); by vm_compute|by vm_compute]. }
  apply (rtc_l _ _ demo_recycling).
  { eapply control_step_to; [apply (step_release _ [] demo_ref []); by vm_compute|by vm_compute]. }
  eapply rtc_l; [apply (step_recycle _ [] 0%nat []); by vm_compute|].
  apply rtc_once. eapply control_step_to; [apply (step_free _ [] 0%nat []); by vm_compute|by vm_compute].
Qed.

Lemma poll_reports_the_outcome_witness :
  Poll (Some demo_ref) (domain demo_started) = {| poll_status := kPending; poll_completion := None |}
  /\ Poll (Some demo_ref) (domain demo_ran)
     = {| poll_status := kPollCompleted; poll_completion := Some demo_result |}.
Proof.
  assert (tOperation demo_ref ∈ tokens demo_started) as H1 by (by left).
  assert (tOperation demo_ref ∈ tokens demo_completed) as H2 by (right; right; by left).
  assert (tOperation demo_ref ∈ tokens demo_ran) as H3 by (right; right; by left).
  assert (rtc control_step (initial_world demo_domain) demo_completed) as Hr
    by (etrans; [exact demo_reach_started|exact demo_reach_completed]).
  destruct (poll_reports_the_outcome 2 true 64 demo_domain ltac:(by_compute) eq_refl demo_started demo_started
    demo_ref demo_reach_started H1 (rtc_refl _ _) H1) as (_ & _ & Hp).
  destruct (poll_reports_the_outcome 2 true 64 demo_domain ltac:(by_compute) eq_refl demo_completed demo_ran
    demo_ref Hr H2 demo_reach_ran H3) as (_ & Hc & _).
  split; [apply Hp; by intros ?%elem_of_nil|apply (Hc demo_result); by left].
Defined.

Lemma callbacks_run_exactly_once_witness :
  (0%nat, (Some 7%nat, demo_result)) ∈ invoked demo_ran.
Proof.
  assert (rtc control_step (initial_world demo_domain) demo_ran) as Hr
    by (etrans; [exact demo_reach_started|]; etrans; [exact demo_reach_completed|exact demo_reach_ran]).
  destruct (callbacks_run_exactly_once 2 true 64 demo_domain ltac:(by_compute) eq_refl demo_ran Hr)
    as (_ & _ & _ & H).
  apply H; [|by left|by left]. split; [by vm_compute|].
  intros t [->|[->|[->|Ht%elem_of_nil]%elem_of_cons]%elem_of_cons]%elem_of_cons; done.
Defined.

Lemma reserve_recovers_every_node_witness :
  0 <= in_use (domain demo_started) <= 2 /\ in_use (domain demo_idle) = 0.
Proof.
  assert (rtc control_step (initial_world demo_domain) demo_idle) as Hr
    by (etrans; [exact demo_reach_started|]; etrans; [exact demo_reach_completed|];
        etrans; [exact demo_reach_ran|exact demo_reach_idle]).
  split.
  - exact (proj1 (reserve_recovers_every_node 2 true 64 demo_domain ltac:(by_compute) eq_refl
      demo_started demo_reach_started)).
  - apply (reserve_recovers_every_node 2 true 64 demo_domain ltac:(by_compute) eq_refl demo_idle Hr);
      by vm_compute.
Defined.

Lemma WaitUntil_exact_witness :
  WaitUntil (Some demo_ref) {| waiting_role := kExternal; at_lock := Some (domain demo_started);
      at_end := Some (domain demo_completed) |} (domain demo_started)
  = {| wait_status := kWaitCompleted; wait_completion := Some demo_result |}.
Proof.
  assert (tOperation demo_ref ∈ tokens demo_started) as H1 by (by left).
  assert (tOperation demo_ref ∈ tokens demo_completed) as H2 by (right; right; by left).
  destruct (WaitUntil_exact 2 true 64 demo_domain ltac:(by_compute) eq_refl demo_started demo_started
    demo_completed demo_ref kExternal demo_reach_started (rtc_refl _ _) demo_reach_completed H1 H1 H2)
    as (_ & H & _).
  apply H; [by intros ?%elem_of_nil|done|by left].
Defined.
