(* ===== verification/ThreadRegistry.v ===== *)
(** * Thread registrations ([src/producer/producer_kernel.cpp], the first part)

    Each thread keeps a registry of the kernels it produces for. An entry names the
    kernel, the producer slot and the generation it was given, and refers to the
    kernel's lifetime block, which outlives the kernel and tells whether the
    registration is still current. A thread-local registry is a [ThreadRegistry]
    passed in and out; addresses of kernels and of lifetime blocks are numbers, and
    [blocks] is what the latter point to. *)
From S2P Require Import Prelude KernelTypes.

(** ** Lifetime blocks *)

Record KernelLifetimeState := {
  admission_open : bool;
  registered_generation : list Z;
}.

#[export] Instance KernelLifetimeState_eta : Eta KernelLifetimeState := fun s =>
  {| admission_open := admission_open s; registered_generation := registered_generation s |}.

Definition initial_lifetime : KernelLifetimeState :=
  {| admission_open := true; registered_generation := replicate kMaximumProducerSlots 0 |}.

Definition IsRegistrationCurrent (slot_index : nat) (generation : Z) (s : KernelLifetimeState)
    : bool :=
  admission_open s
  && match registered_generation s !! slot_index with
     | Some registered => registered =? generation
     | None => false
     end.

Definition ActivateRegistration (slot_index : nat) (generation : Z) (s : KernelLifetimeState)
    : KernelLifetimeState := s <| registered_generation ::= <[slot_index := generation]> |>.

(** [compare_exchange_strong(generation, 0)]. *)
Definition RetireRegistration (slot_index : nat) (generation : Z) (s : KernelLifetimeState)
    : KernelLifetimeState :=
  s <| registered_generation ::=
         alter (fun registered => if registered =? generation then 0 else registered) slot_index |>.

Definition CloseLifetime (s : KernelLifetimeState) : KernelLifetimeState :=
  s <| admission_open := false |>.

(** ** The registry of a thread *)

Record ThreadRegistration := {
  owner : option nat;
  lifetime_block : option nat;
  kernel_identity : Z;
  slot_index : nat;
  generation : Z;
}.

Definition empty_registration : ThreadRegistration :=
  {| owner := None; lifetime_block := None; kernel_identity := 0; slot_index := 0;
     generation := 0 |}.

Record ThreadRegistry := {
  entries : list ThreadRegistration;
  last_hit : nat;
  missing_producer_shard : nat;
}.

#[export] Instance ThreadRegistry_eta : Eta ThreadRegistry := fun r =>
  {| entries := entries r; last_hit := last_hit r;
     missing_producer_shard := missing_producer_shard r |}.

Definition initial_registry : ThreadRegistry :=
  {| entries := replicate kMaximumProducerSlots empty_registration;
     last_hit := kMaximumProducerSlots; missing_producer_shard := kMaximumProducerSlots |}.

(** The shard of a thread is drawn from a process-wide counter at its first use: the
    shard, the registry and the counter after it. *)
Definition MissingProducerShard (r : ThreadRegistry) (next_missing_producer_shard : Z)
    : nat * ThreadRegistry * Z :=
  if (missing_producer_shard r =? kMaximumProducerSlots)%nat then
    let shard := Z.to_nat (next_missing_producer_shard mod Z.of_nat kMaximumProducerSlots) in
    (shard, r <| missing_producer_shard := shard |>, next_missing_producer_shard +w 1)
  else (missing_producer_shard r, r, next_missing_producer_shard).

(** [entry.owner == &owner && entry.kernel_identity == kernel_identity]. *)
Definition names_kernel (self : nat) (identity : Z) (e : ThreadRegistration) : bool :=
  bool_decide (owner e = Some self) && (kernel_identity e =? identity).

Definition FindThreadRegistration (self : nat) (identity : Z) (r : ThreadRegistry)
    : option nat * ThreadRegistry :=
  let cached :=
    match entries r !! last_hit r with
    | Some e => names_kernel self identity e
    | None => false
    end in
  if cached then (Some (last_hit r), r)
  else
    match first_index (names_kernel self identity) (entries r) with
    | Some index => (Some index, r <| last_hit := index |>)
    | None => (None, r)
    end.

(** [entry = {}], and the cached index forgotten when it named the entry. *)
Definition ClearEntry (index : nat) (r : ThreadRegistry) : ThreadRegistry :=
  let r := r <| entries ::= <[index := empty_registration]> |> in
  if (last_hit r =? index)%nat then r <| last_hit := kMaximumProducerSlots |> else r.

Section Blocks.
Context (blocks : nat -> option KernelLifetimeState).

(** A null reference is never current. *)
Definition entry_current (e : ThreadRegistration) : bool :=
  match lifetime_block e with
  | Some address =>
      match blocks address with
      | Some s => IsRegistrationCurrent (slot_index e) (generation e) s
      | None => false
      end
  | None => false
  end.

Definition entry_reusable (e : ThreadRegistration) : bool :=
  bool_decide (owner e = None) || negb (entry_current e).

Definition FindFreeThreadRegistration (r : ThreadRegistry) : option nat * ThreadRegistry :=
  match first_index entry_reusable (entries r) with
  | Some index =>
      match entries r !! index with
      | Some e =>
          if bool_decide (owner e = None) then (Some index, r)
          else (Some index, ClearEntry index r)
      | None => (None, r)
      end
  | None => (None, r)
  end.
End Blocks.

(** The entry [RemoveThreadRegistration] looks for. *)
Definition names_registration (self : nat) (identity : Z) (slot : nat) (gen : Z)
    (e : ThreadRegistration) : bool :=
  names_kernel self identity e && (slot_index e =? slot)%nat && (generation e =? gen).

Definition RemoveThreadRegistration (self : nat) (identity : Z) (slot : nat) (gen : Z)
    (r : ThreadRegistry) : ThreadRegistry :=
  match first_index (names_registration self identity slot gen) (entries r) with
  | Some index => ClearEntry index r
  | None => r
  end.
