(* ===== verification/Lifetime.v ===== *)
(** * Lifetime blocks are freed once, after their last reference

    [KernelLifetimeRef] of [src/producer/producer_kernel.cpp] counts the references to the
    block that outlives a kernel. The kernel and the registries of all threads hold
    references, so they are copied, moved, assigned and dropped concurrently. Each member
    function is a program ([Prog]) of the atomic accesses it makes to a block, and
    [lifetime_step] interleaves the programs of all calls that are under way. *)
From stdpp Require Import gmap relations.
From S2P Require Import Prelude KernelTypes ThreadRegistry.
#[local] Open Scope Z_scope.
#[local] Open Scope ulog_scope.

(** ** Blocks and the accesses to them *)

Record Block := { references : Z; block_state : KernelLifetimeState }.

#[export] Instance Block_eta : Eta Block := fun b =>
  {| references := references b; block_state := block_state b |}.

(** [new KernelLifetimeState]. *)
Definition new_block : Block := {| references := 1; block_state := initial_lifetime |}.

Inductive Access :=
| FetchAdd
| FetchSub
| Delete
| Load (read : KernelLifetimeState -> Z)
| Store (update : KernelLifetimeState -> KernelLifetimeState).

(** The answer of an access at an address, and the heap after it; [None] where the address is
    not one of a block: the access would be to freed memory. *)
Definition Perform (op : Access) (a : nat) (h : gmap nat Block) : option (Z * gmap nat Block) :=
  b ← h !! a;
  Some match op with
       | FetchAdd => (references b, <[a := b <| references ::= fun n => n +w 1 |>]> h)
       | FetchSub => (references b, <[a := b <| references ::= fun n => n -w 1 |>]> h)
       | Delete => (0, delete a h)
       | Load read => (read (block_state b), h)
       | Store update => (0, <[a := b <| block_state ::= update |>]> h)
       end.

(** A program that ends, allocates a block and goes on with its address, or accesses one and
    goes on with the answer. *)
Inductive Prog (A : Type) :=
| Ret (x : A)
| New (next : nat -> Prog A)
| Do (op : Access) (a : nat) (next : Z -> Prog A).
Arguments Ret {A} x.
Arguments New {A} next.
Arguments Do {A} op a next.

Fixpoint bind {A B} (p : Prog A) (f : A -> Prog B) : Prog B :=
  match p with
  | Ret x => f x
  | New next => New (fun a => bind (next a) f)
  | Do op a next => Do op a (fun n => bind (next n) f)
  end.

#[export] Instance prog_ret : MRet Prog := fun _ => Ret.
#[export] Instance prog_bind : MBind Prog := fun _ _ f p => bind p f.

Definition perform (op : Access) (a : nat) : Prog Z := Do op a Ret.

(** ** References *)

(** [state_] of a [KernelLifetimeRef]: null or the address of a block. *)
Definition KernelLifetimeRef : Type := option nat.

(** [std::exchange]: the value that is returned, and the object. *)
Definition exchange (state_ new_value : KernelLifetimeRef) : KernelLifetimeRef * KernelLifetimeRef :=
  (state_, new_value).

Definition Create : Prog KernelLifetimeRef := New (fun a => Ret (Some a)).

Definition Retain (state_ : KernelLifetimeRef) : Prog unit :=
  match state_ with
  | Some a => _ ← perform FetchAdd a; mret tt
  | None => mret tt
  end.

(** The object after it. *)
Definition Reset (state_ : KernelLifetimeRef) : Prog KernelLifetimeRef :=
  let '(state, state_) := exchange state_ None in
  match state with
  | Some a =>
      n ← perform FetchSub a;
      if n =? 1 then _ ← perform Delete a; mret state_ else mret state_
  | None => mret state_
  end.

(** The destructor. *)
Definition Destroy (state_ : KernelLifetimeRef) : Prog unit :=
  _ ← Reset state_; mret tt.

(** The copy and the move: the new object, after the move also the source. *)
Definition CopyConstruct (other : KernelLifetimeRef) : Prog KernelLifetimeRef :=
  let state_ := other in
  _ ← Retain state_; mret state_.

Definition MoveConstruct (other : KernelLifetimeRef) : Prog (KernelLifetimeRef * KernelLifetimeRef) :=
  mret (exchange other None).

(** The assignments when [this != &other]: the object, after the move also the source. *)
Definition CopyAssign (state_ other : KernelLifetimeRef) : Prog KernelLifetimeRef :=
  _ ← Reset state_;
  let state_ := other in
  _ ← Retain state_; mret state_.

Definition MoveAssign (state_ other : KernelLifetimeRef) : Prog (KernelLifetimeRef * KernelLifetimeRef) :=
  _ ← Reset state_;
  mret (exchange other None).

(** What else a reference is used for. *)
Inductive LifetimeUse :=
| UIsAdmissionOpen
| UIsRegistrationCurrent (slot_index : nat) (generation : Z)
| UActivateRegistration (slot_index : nat) (generation : Z)
| URetireRegistration (slot_index : nat) (generation : Z)
| UCloseAdmission.

Definition UseThrough (u : LifetimeUse) (state_ : KernelLifetimeRef) : Prog bool :=
  match state_ with
  | None => mret false
  | Some a =>
      let is_open := perform (Load (fun s => if admission_open s then 1 else 0)) a in
      match u with
      | UIsAdmissionOpen => n ← is_open; mret (n =? 1)
      | UIsRegistrationCurrent slot_index generation =>
          n ← is_open;
          if (n =? 1) && (slot_index <? kMaximumProducerSlots)%nat then
            registered ← perform (Load (fun s => default 0 (registered_generation s !! slot_index))) a;
            mret (registered =? generation)
          else mret false
      | UActivateRegistration slot_index generation =>
          if (slot_index <? kMaximumProducerSlots)%nat then
            _ ← perform (Store (ActivateRegistration slot_index generation)) a; mret false
          else mret false
      | URetireRegistration slot_index generation =>
          if (slot_index <? kMaximumProducerSlots)%nat then
            _ ← perform (Store (RetireRegistration slot_index generation)) a; mret false
          else mret false
      | UCloseAdmission => _ ← perform (Store CloseLifetime) a; mret false
      end
  end.

(** ** Calls *)

(** The objects are named by their addresses. *)
Inductive Call :=
| CDefaultConstruct (this : nat)
| CCreate (this : nat)
| CCopyConstruct (this other : nat)
| CMoveConstruct (this other : nat)
| CCopyAssign (this other : nat)
| CMoveAssign (this other : nat)
| CDestroy (this : nat)
| CUse (u : LifetimeUse) (this : nat).

(** The objects that a call changes, those that it only reads, and the one it constructs. *)
Definition writes (c : Call) : list nat :=
  match c with
  | CDefaultConstruct this | CCreate this | CCopyConstruct this _ | CCopyAssign this _ | CDestroy this => [this]
  | CMoveConstruct this other => [this; other]
  | CMoveAssign this other => if decide (this = other) then [this] else [this; other]
  | CUse _ _ => []
  end.

Definition reads (c : Call) : list nat :=
  match c with
  | CCopyConstruct _ other => [other]
  | CCopyAssign this other => if decide (this = other) then [] else [other]
  | CUse _ this => [this]
  | _ => []
  end.

Definition constructs (c : Call) : option nat :=
  match c with
  | CDefaultConstruct this | CCreate this | CCopyConstruct this _ | CMoveConstruct this _ => Some this
  | _ => None
  end.

(** The objects that a call leaves, of those that it changes. *)
Definition Effects : Type := list (nat * KernelLifetimeRef).

(** The call can begin, with the program. *)
Definition starts (p : Prog Effects) : option (Prog Effects) := Some p.

(** The program of a call on the objects it finds. *)
Definition Body (c : Call) (o : gmap nat KernelLifetimeRef) : option (Prog Effects) :=
  match c with
  | CDefaultConstruct this => starts (mret [(this, None)])
  | CCreate this => starts (r ← Create; mret [(this, r)])
  | CCopyConstruct this other => x ← o !! other; starts (r ← CopyConstruct x; mret [(this, r)])
  | CMoveConstruct this other =>
      x ← o !! other; starts ('(r, x) ← MoveConstruct x; mret [(this, r); (other, x)])
  | CCopyAssign this other =>
      r ← o !! this;
      if decide (this = other) then starts (mret [(this, r)])
      else x ← o !! other; starts (r ← CopyAssign r x; mret [(this, r)])
  | CMoveAssign this other =>
      r ← o !! this;
      if decide (this = other) then starts (mret [(this, r)])
      else x ← o !! other; starts ('(r, x) ← MoveAssign r x; mret [(this, r); (other, x)])
  | CDestroy this => r ← o !! this; starts (_ ← Destroy r; mret [])
  | CUse u this => r ← o !! this; starts (_ ← UseThrough u r; mret [])
  end.

(** ** Interleaving *)

Record Thread := { call : Call; prog : Prog Effects }.

(** A call that is under way has the objects it changes to itself; the others are in
    [objects]. *)
Record World := {
  heap : gmap nat Block;
  objects : gmap nat KernelLifetimeRef;
  calls : list Thread;
  created : nat;
  deleted : nat;
}.

#[export] Instance World_eta : Eta World := fun w =>
  {| heap := heap w; objects := objects w; calls := calls w; created := created w; deleted := deleted w |}.

Definition empty_world : World :=
  {| heap := ∅; objects := ∅; calls := []; created := 0; deleted := 0 |}.

Definition take_objects (l : list nat) (o : gmap nat KernelLifetimeRef)
    : gmap nat KernelLifetimeRef := foldr delete o l.
Definition leave_objects (e : Effects) (o : gmap nat KernelLifetimeRef)
    : gmap nat KernelLifetimeRef := foldr (fun x => <[x.1 := x.2]>) o e.

(** No call changes an object that another one changes or reads, and an object is constructed
    where there is none: otherwise the program would have a data race. *)
Definition race_free (c : Call) (w : World) : Prop :=
  (forall i t, i ∈ writes c -> t ∈ calls w -> i ∉ writes (call t) ++ reads (call t))
  /\ (forall i, constructs c = Some i -> objects w !! i = None).

Inductive lifetime_step : World -> World -> Prop :=
| ls_begin c p w :
    race_free c w -> Body c (objects w) = Some p ->
    lifetime_step w (w <| objects ::= take_objects (writes c) |> <| calls ::= cons {| call := c; prog := p |} |>)
| ls_new c next a others w :
    calls w ≡ₚ {| call := c; prog := New next |} :: others -> heap w !! a = None ->
    lifetime_step w (w <| heap ::= <[a := new_block]> |> <| created ::= S |>
                       <| calls := {| call := c; prog := next a |} :: others |>)
| ls_access c op a next n h others w :
    calls w ≡ₚ {| call := c; prog := Do op a next |} :: others -> Perform op a (heap w) = Some (n, h) ->
    lifetime_step w (w <| heap := h |> <| deleted ::= fun d => match op with Delete => S d | _ => d end |>
                       <| calls := {| call := c; prog := next n |} :: others |>)
| ls_return c e others w :
    calls w ≡ₚ {| call := c; prog := Ret e |} :: others ->
    lifetime_step w (w <| objects ::= leave_objects e |> <| calls := others |>).

(** There are never [2^64] references: they would not fit in memory. *)
Definition room (w : World) : Z :=
  Z.of_nat (size (objects w)) + zlen (calls w ≫= fun t => writes (call t)).

Definition bounded_step (w w' : World) : Prop := lifetime_step w w' /\ room w' < 2 ^ 64.

(** ** Lemmas: counts *)

Definition held (a : nat) (refs : list nat) : Z := zlen (filter (fun r => r = a) refs).

Lemma held_cons a r l : held a (r :: l) = (if decide (r = a) then 1 else 0) + held a l.
Proof.
  unfold held. rewrite filter_cons. unfold zlen. repeat case_decide; try done; rewrite ?length_cons; lia.
Qed.

Lemma held_app a l l' : held a (l ++ l') = held a l + held a l'.
Proof. unfold held. by rewrite list.filter_app, zlen_app. Qed.

Lemma held_nonneg a l : 0 <= held a l.
Proof. unfold held. apply zlen_nonneg. Qed.

Lemma held_le a l : held a l <= zlen l.
Proof. unfold held, zlen. apply inj_le, length_filter. Qed.

#[export] Instance held_proper a : Proper ((≡ₚ) ==> (=)) (held a).
Proof. intros l l' Hl. unfold held, zlen. by rewrite Hl. Qed.

Lemma held_in a l : a ∈ l -> 1 <= held a l.
Proof.
  intros [rest Hl]%elem_of_Permutation. rewrite Hl, held_cons, decide_True by done.
  pose proof (held_nonneg a rest). lia.
Qed.

Lemma held_out a l : a ∉ l -> held a l = 0.
Proof.
  induction l as [|r l IH]; [done|]. intros [H1 H2]%not_elem_of_cons. rewrite held_cons, decide_False by congruence.
  by rewrite IH.
Qed.

(** The count of a block is the number of references to it; a block without references is
    about to be deleted by one call, and every reference is to a block. *)
Record counted (h : gmap nat Block) (refs deleting : list nat) (cr dl : nat) : Prop := {
  cn_count : forall a b, h !! a = Some b -> references b = held a refs;
  cn_alive : forall a, a ∈ refs -> is_Some (h !! a);
  cn_deleting : forall a, a ∈ deleting <-> (exists b, h !! a = Some b /\ references b = 0);
  cn_once : NoDup deleting;
  cn_size : (dl + size h)%nat = cr;
}.

Lemma empty_counted : counted ∅ [] [] 0 0.
Proof.
  constructor; try done.
  - by intros a Ha%elem_of_nil.
  - intros a. split; [by intros Ha%elem_of_nil|]. by intros (b & Hb & _).
  - constructor.
Qed.

#[export] Instance counted_proper h : Proper ((≡ₚ) ==> (≡ₚ) ==> (=) ==> (=) ==> iff) (counted h).
Proof.
  enough (forall refs refs' del del' cr dl, refs ≡ₚ refs' -> del ≡ₚ del' ->
    counted h refs del cr dl -> counted h refs' del' cr dl) as H.
  { intros refs refs' Hr del del' Hd cr ? <- dl ? <-. split; by apply H. }
  intros refs refs' del del' cr dl Hr Hd [Hc Ha Hdl Ho Hs]. constructor; [..|done].
  - intros a b Hb. rewrite <- Hr. by apply Hc.
  - intros a. rewrite <- Hr. apply Ha.
  - intros a. by rewrite <- Hd.
  - by rewrite <- Hd.
Qed.

Lemma insert_size (h : gmap nat Block) a b b' : h !! a = Some b -> size (<[a := b']> h) = size h.
Proof. intros Hb. apply map_size_insert_Some. by exists b. Qed.

Section Counted.
Context {h : gmap nat Block} {refs deleting : list nat} {cr dl : nat} (Hinv : counted h refs deleting cr dl).

Lemma copy_counted a b : h !! a = Some b -> a ∈ refs -> zlen (a :: refs) < 2 ^ 64 ->
  counted (<[a := b <| references ::= fun n => n +w 1 |>]> h) (a :: refs) deleting cr dl.
Proof using Hinv.
  intros Hb Ha Hlen. destruct Hinv as [Hc Hal Hd Ho Hs].
  pose proof (Hc a b Hb) as Hn. pose proof (held_in a refs Ha). pose proof (held_le a refs).
  assert (references b +w 1 = references b + 1) as Hadd by (unfold zlen in *; cbn [length] in Hlen; apply w64_small; lia).
  constructor; [..|done|by rewrite (insert_size h a b)].
  - intros a' b' Hb'. rewrite held_cons. destruct (decide (a = a')) as [<-|Hne].
    + rewrite lookup_insert_eq in Hb'. injection Hb' as <-. cbn [references modify]. rewrite Hadd. lia.
    + rewrite lookup_insert_ne in Hb' by done. by rewrite (Hc a' b' Hb').
  - intros a' [->|Hin]%elem_of_cons; apply lookup_insert_is_Some'; [by left|right; by apply Hal].
  - intros a'. rewrite Hd. destruct (decide (a = a')) as [<-|Hne]; [|by rewrite lookup_insert_ne].
    rewrite lookup_insert_eq, Hb. split; intros (b' & [= <-] & Hz); cbn [references modify] in *; lia.
Qed.

Lemma new_counted a : h !! a = None -> counted (<[a := new_block]> h) (a :: refs) deleting (S cr) dl.
Proof using Hinv.
  intros Hnew. destruct Hinv as [Hc Hal Hd Ho Hs].
  constructor; [..|done|rewrite map_size_insert_None by done; lia].
  - intros a' b' Hb'. rewrite held_cons. destruct (decide (a = a')) as [<-|Hne].
    + rewrite lookup_insert_eq in Hb'. injection Hb' as <-. rewrite (held_out a refs); [done|].
      intros Hin%Hal. rewrite Hnew in Hin. by destruct Hin.
    + rewrite lookup_insert_ne in Hb' by done. by rewrite (Hc a' b' Hb').
  - intros a' [->|Hin]%elem_of_cons; apply lookup_insert_is_Some'; [by left|right; by apply Hal].
  - intros a'. rewrite Hd. destruct (decide (a = a')) as [<-|Hne]; [|by rewrite lookup_insert_ne].
    rewrite lookup_insert_eq, Hnew. by split; intros (b' & [= <-] & Hz).
Qed.

Lemma store_counted a b update : h !! a = Some b ->
  counted (<[a := b <| block_state ::= update |>]> h) refs deleting cr dl.
Proof using Hinv.
  intros Hb. destruct Hinv as [Hc Hal Hd Ho Hs]. constructor; [..|done|by rewrite (insert_size h a b)].
  - intros a' b' Hb'. destruct (decide (a = a')) as [<-|Hne].
    + rewrite lookup_insert_eq in Hb'. injection Hb' as <-. by apply (Hc a b).
    + rewrite lookup_insert_ne in Hb' by done. by apply Hc.
  - intros a' Hin. apply lookup_insert_is_Some'. right. by apply Hal.
  - intros a'. rewrite Hd. destruct (decide (a = a')) as [<-|Hne]; [|by rewrite lookup_insert_ne].
    rewrite lookup_insert_eq, Hb. by split; intros (b' & [= <-] & Hz); eexists.
Qed.

Lemma delete_counted a others : deleting ≡ₚ a :: others -> counted (delete a h) refs others cr (S dl).
Proof using Hinv.
  intros Hp. destruct Hinv as [Hc Hal Hd Ho Hs].
  destruct (proj1 (Hd a) ltac:(rewrite Hp; left)) as (b & Hb & Hz).
  rewrite Hp in Ho. apply list.NoDup_cons in Ho as [Hnot Ho]. constructor; [..|done|].
  - intros a' b' [_ Hb']%lookup_delete_Some. by apply Hc.
  - intros a' Hin. apply lookup_delete_is_Some. split; [|by apply Hal].
    intros <-. apply held_in in Hin. rewrite <- (Hc a b Hb) in Hin. lia.
  - intros a'. destruct (decide (a' = a)) as [->|Hne].
    + split; [done|]. by intros (b' & [? _]%lookup_delete_Some & _).
    + rewrite lookup_delete_ne by done. rewrite <- Hd, Hp, elem_of_cons. intuition.
  - rewrite <- Hs. rewrite <- (insert_delete_id h a b Hb) at 2.
    rewrite map_size_insert_None by apply lookup_delete_eq. lia.
Qed.
End Counted.

Lemma release_counted h a b refs deleting cr dl :
  counted h (a :: refs) deleting cr dl -> zlen (a :: refs) < 2 ^ 64 -> h !! a = Some b ->
  counted (<[a := b <| references ::= fun n => n -w 1 |>]> h) refs
    (if references b =? 1 then a :: deleting else deleting) cr dl.
Proof.
  intros [Hc Hal Hd Ho Hs] Hlen Hb. pose proof (Hc a b Hb) as Hn. pose proof (held_le a (a :: refs)).
  rewrite held_cons, decide_True in * by done. pose proof (held_nonneg a refs).
  assert (references b -w 1 = references b - 1) as Hsub by (apply w64_small; lia).
  assert (a ∉ deleting) as Hnot by (intros (b' & Hb' & Hz)%Hd; simplify_eq; lia).
  assert (forall a', a' ∈ (if references b =? 1 then a :: deleting else deleting)
    <-> a' ∈ deleting \/ a' = a /\ references b = 1) as Hlast.
  { intros a'. destruct (Z.eqb_spec (references b) 1); rewrite ?elem_of_cons; intuition. }
  constructor; [..|by rewrite (insert_size h a b)].
  - intros a' b' Hb'. destruct (decide (a = a')) as [<-|Hne].
    + rewrite lookup_insert_eq in Hb'. injection Hb' as <-. cbn [references modify]. lia.
    + rewrite lookup_insert_ne in Hb' by done. rewrite (Hc a' b' Hb'), held_cons, decide_False by done. lia.
  - intros a' Hin. apply lookup_insert_is_Some'. right. apply Hal. by right.
  - intros a'. rewrite Hlast, Hd. destruct (decide (a = a')) as [<-|Hne].
    + rewrite lookup_insert_eq, Hb. split.
      * intros [(b' & [= <-] & Hz)|[_ H1]]; [lia|]. eexists. split; [done|]. cbn [references modify]. lia.
      * intros (b' & [= <-] & Hz). right. split; [done|]. cbn [references modify] in Hz. lia.
    + rewrite lookup_insert_ne by done. split; [intros [H1|[-> _]]; [done|by destruct Hne]|by left].
  - destruct (_ =? 1); [by apply list.NoDup_cons|done].
Qed.

(** ** Lemmas: what a program owns *)

(** [owns W B l d p]: a program that writes the objects [W], reads references to the blocks
    [B] in other objects, holds one reference to each block of [l] and has to delete those of
    [d], uses no block it has no reference to, and passes all of them on. *)
Inductive owns (W : list nat) (B : list nat) : list nat -> list nat -> Prog Effects -> Prop :=
| own_ret e l : omap snd e ≡ₚ l -> e.*1 ⊆+ W -> owns W B l [] (Ret e)
| own_new l next :
    (length l < length W)%nat -> (forall a, owns W B (a :: l) [] (next a)) -> owns W B l [] (New next)
| own_add a l next :
    a ∈ l ++ B -> (length l < length W)%nat -> (forall n, owns W B (a :: l) [] (next n)) ->
    owns W B l [] (Do FetchAdd a next)
| own_sub a l next :
    (forall n, n <> 1 -> owns W B l [] (next n)) -> owns W B l [a] (next 1) ->
    owns W B (a :: l) [] (Do FetchSub a next)
| own_delete a l next :
    (forall n, owns W B l [] (next n)) -> owns W B l [a] (Do Delete a next)
| own_load a l read next :
    a ∈ l ++ B -> (forall n, owns W B l [] (next n)) -> owns W B l [] (Do (Load read) a next)
| own_store a l update next :
    a ∈ l ++ B -> (forall n, owns W B l [] (next n)) -> owns W B l [] (Do (Store update) a next).

(** The blocks that the objects [l] refer to. *)
Definition referent (o : gmap nat KernelLifetimeRef) (i : nat) : KernelLifetimeRef :=
  match o !! i with Some r => r | None => None end.

Definition referred (o : gmap nat KernelLifetimeRef) (l : list nat) : list nat := omap (referent o) l.

Section Owns.
Context (W B : list nat).

(** [Reset] and what the same call goes on with. *)
Lemma reset_owns (r : KernelLifetimeRef) l {A} (g : KernelLifetimeRef -> Prog A) (f : A -> Prog Effects) :
  owns W B l [] (bind (g None) f) -> owns W B (option_list r ++ l) [] (bind (bind (Reset r) g) f).
Proof.
  intros Hf. destruct r as [a|]; [|exact Hf]. cbn. constructor.
  - intros n Hn. by rewrite (proj2 (Z.eqb_neq n 1) Hn).
  - by constructor.
Qed.

Lemma copy_owns (x : KernelLifetimeRef) (f : KernelLifetimeRef -> Prog Effects) :
  (0 < length W)%nat -> (forall a, x = Some a -> a ∈ B) ->
  owns W B (option_list x) [] (f x) -> owns W B [] [] (bind (CopyConstruct x) f).
Proof.
  intros HW HB Hf. destruct x as [a|]; [|done]. cbn. constructor; [by apply HB|done|]. by intros _.
Qed.

Lemma ret_owns e l : omap snd e = l -> e.*1 ⊆+ W -> owns W B l [] (mret e : Prog Effects).
Proof. intros <- HW. by constructor. Qed.
End Owns.

Lemma use_owns W u (r : KernelLifetimeRef) :
  owns W (option_list r) [] [] (_ ← UseThrough u r; mret []).
Proof.
  assert (owns W (option_list r) [] [] (Ret [])) as Hret by (constructor; [done|apply submseteq_nil_l]).
  destruct r as [a|]; [|exact Hret].
  destruct u; cbn; repeat (case_match; cbn); try exact Hret; constructor; try set_solver; intros n;
    repeat (case_match; cbn); try exact Hret; constructor; [set_solver|done].
Qed.

Lemma referred_cons o i l : referred o (i :: l) = option_list (referent o i) ++ referred o l.
Proof. unfold referred. cbn. by destruct (referent o i). Qed.

Lemma referred_nil o : referred o [] = [].
Proof. done. Qed.

(** Every member function passes on what it is given. *)
Lemma body_owns c o p :
  Body c o = Some p -> (forall i, constructs c = Some i -> o !! i = None) ->
  NoDup (writes c) /\ owns (writes c) (referred o (reads c)) (referred o (writes c)) [] p.
Proof.
  assert (forall r : KernelLifetimeRef, option_list r ++ [] = option_list r) as Happ by (intros r; apply app_nil_r).
  assert (forall x y : nat, x <> y -> NoDup [x; y]) as Htwo.
  { intros x y Hne. apply list.NoDup_cons. split; [|apply NoDup_singleton]. by rewrite list_elem_of_singleton. }
  intros Hb Hfresh.
  destruct c as [this|this|this other|this other|this other|this other|this|u this];
    cbn [Body writes reads constructs] in *; try specialize (Hfresh this eq_refl);
    try destruct (decide (this = other)) as [<-|Hne];
    try (destruct (o !! this) as [r|] eqn:Hr; try done);
    try (destruct (o !! other) as [x|] eqn:Hx; [|done]); cbn [mbind option_bind] in Hb;
    injection Hb as <-; rewrite ?referred_cons, ?referred_nil; unfold referent; rewrite ?Hx, ?Hr;
    rewrite ?Happ; cbn [option_list app]; rewrite ?Happ;
    (split; [solve [apply NoDup_singleton|apply Htwo; congruence|apply NoDup_nil_2]|]).
  - by apply ret_owns.
  - constructor; [cbn; lia|]. intros a. by apply ret_owns.
  - apply (copy_owns _ _ x); [cbn; lia|intros a ->; left|]. apply ret_owns; [by destruct x|done].
  - apply ret_owns; [by destruct x|done].
  - apply ret_owns; [by destruct r|done].
  - rewrite <- (Happ r). apply (reset_owns _ _ r []). apply (copy_owns _ _ x); [cbn; lia|intros a ->; left|].
    apply ret_owns; [by destruct x|done].
  - apply ret_owns; [by destruct r|done].
  - apply (reset_owns _ _ r). apply ret_owns; [by destruct x|done].
  - rewrite <- (Happ r). apply (reset_owns _ _ r [] (fun _ => mret tt)). apply ret_owns; [done|apply submseteq_nil_l].
  - apply use_owns.
Qed.

(** ** Lemmas: objects *)

(** The blocks that all objects refer to. *)
Definition addresses (o : gmap nat KernelLifetimeRef) : list nat := omap snd (map_to_list o).

Lemma addresses_insert i (r : KernelLifetimeRef) o :
  o !! i = None -> addresses (<[i := r]> o) ≡ₚ option_list r ++ addresses o.
Proof. intros Hi. unfold addresses. rewrite map_to_list_insert by done. cbn. by destruct r. Qed.

Lemma take_lookup l o i : take_objects l o !! i = if decide (i ∈ l) then None else o !! i.
Proof.
  induction l as [|j l IH]; [done|]. cbn. destruct (decide (i = j)) as [->|Hne].
  - rewrite lookup_delete_eq, decide_True; [done|left].
  - rewrite lookup_delete_ne by done. fold (take_objects l o). rewrite IH.
    destruct (decide (i ∈ l)), (decide (i ∈ j :: l)) as [H|H]; try done; rewrite elem_of_cons in H; intuition congruence.
Qed.

Lemma addresses_take l o : NoDup l -> addresses o ≡ₚ referred o l ++ addresses (take_objects l o).
Proof.
  induction l as [|i l IH]; [done|]. intros [Hi Hl]%list.NoDup_cons. rewrite referred_cons, (IH Hl). cbn [take_objects foldr].
  fold (take_objects l o). unfold referent. pose proof (take_lookup l o i) as Hlook. rewrite decide_False in Hlook by done.
  destruct (o !! i) as [r|].
  - rewrite <- (insert_delete_id _ _ _ Hlook) at 1. rewrite addresses_insert by apply lookup_delete_eq. solve_Permutation.
  - by rewrite delete_id.
Qed.

Lemma leave_lookup e o i : i ∉ e.*1 -> leave_objects e o !! i = o !! i.
Proof.
  induction e as [|x e IH]; [done|]. cbn. intros [H1 H2]%not_elem_of_cons.
  rewrite lookup_insert_ne by congruence. by apply IH.
Qed.

Lemma addresses_leave e o : NoDup e.*1 -> (forall i, i ∈ e.*1 -> o !! i = None) ->
  addresses (leave_objects e o) ≡ₚ omap snd e ++ addresses o.
Proof.
  induction e as [|[i r] e IH]; [done|]. intros [Hi He]%list.NoDup_cons Ho.
  cbn [leave_objects foldr fst snd]. fold (leave_objects e o).
  rewrite addresses_insert, IH; [cbn; by destruct r|done|intros j Hj; apply Ho; by right|]. 
  rewrite leave_lookup by done. apply Ho. left.
Qed.

Lemma addresses_size o : (length (addresses o) <= size o)%nat.
Proof.
  unfold addresses. rewrite <- length_map_to_list. induction (map_to_list o) as [|[i [a|]] l IH]; cbn; lia.
Qed.

Lemma addresses_elem o i a : o !! i = Some (Some a) -> a ∈ addresses o.
Proof. intros H. apply list_elem_of_omap. exists (i, Some a). by rewrite elem_of_map_to_list. Qed.

Lemma referred_ext o o' l : (forall i, i ∈ l -> o !! i = o' !! i) -> referred o l = referred o' l.
Proof.
  induction l as [|i l IH]; [done|]. intros H. rewrite !referred_cons, IH by set_solver.
  unfold referent. by rewrite (H i) by left.
Qed.

Lemma referred_addresses o l a : a ∈ referred o l -> a ∈ addresses o.
Proof.
  intros (i & _ & Hi)%list_elem_of_omap. unfold referent in Hi.
  destruct (o !! i) as [r|] eqn:Hr; [subst r|done]. by eapply addresses_elem.
Qed.

Lemma body_reads c o p i :
  Body c o = Some p -> (forall j, constructs c = Some j -> o !! j = None) -> i ∈ reads c ->
  is_Some (o !! i) /\ i ∉ writes c.
Proof.
  intros Hb Hfresh Hi. destruct c as [this|this|this other|this other|this other|this other|this|u this];
    cbn [Body writes reads constructs] in *; try specialize (Hfresh this eq_refl);
    try destruct (decide (this = other)) as [<-|Hne]; try (by apply elem_of_nil in Hi);
    apply list_elem_of_singleton in Hi as ->.
  - by rewrite Hfresh in Hb.
  - destruct (o !! other); [|done]. split; [done|]. rewrite list_elem_of_singleton. congruence.
  - destruct (o !! this), (o !! other); try done. split; [done|]. rewrite list_elem_of_singleton. congruence.
  - destruct (o !! this); [|done]. split; [done|]. apply not_elem_of_nil.
Qed.

(** ** Lemmas: the invariant *)

(** For every call under way, the references it holds and the blocks it has to delete. *)
Record lifetime_inv (w : World) (g : list (Thread * (list nat * list nat))) : Prop := {
  li_calls : g.*1 ≡ₚ calls w;
  li_owns : forall t l d, (t, (l, d)) ∈ g ->
    owns (writes (call t)) (referred (objects w) (reads (call t))) l d (prog t)
    /\ (length l <= length (writes (call t)))%nat;
  li_reads : forall t i, t ∈ calls w -> i ∈ reads (call t) -> is_Some (objects w !! i);
  li_writes : forall t i, t ∈ calls w -> i ∈ writes (call t) -> objects w !! i = None;
  li_once : NoDup (calls w ≫= fun t => writes (call t));
  li_counted : counted (heap w) (addresses (objects w) ++ (g ≫= fun x => x.2.1)) (g ≫= fun x => x.2.2)
    (created w) (deleted w);
}.

Lemma empty_inv : lifetime_inv empty_world [].
Proof.
  constructor; cbn; try done; try (by intros ? ? H; apply elem_of_nil in H);
    try (by intros ? ? ? H; apply elem_of_nil in H); [constructor|apply empty_counted].
Qed.

#[local] Instance bind_proper {A B} (f : A -> list B) : Proper ((≡ₚ) ==> (≡ₚ)) (mbind f).
Proof. intros l l' Hl. by apply bind_Permutation. Qed.

#[local] Instance zlen_proper {A} : Proper ((≡ₚ) ==> (=)) (@zlen A).
Proof. intros l l' Hl. unfold zlen. by rewrite Hl. Qed.

(** No call holds more references than there are objects that it changes. *)
Lemma ledger_fits (g : list (Thread * (list nat * list nat))) :
  (forall t l d, (t, (l, d)) ∈ g -> (length l <= length (writes (call t)))%nat) ->
  zlen (g ≫= fun x => x.2.1) <= zlen (g.*1 ≫= fun t => writes (call t)).
Proof.
  induction g as [|[t [l d]] g IH]; [done|]. intros Hl.
  cbn [mbind list_bind fmap list_fmap fst snd]. rewrite !zlen_app. pose proof (Hl t l d ltac:(left)).
  specialize (IH ltac:(intros t' l' d' Hin; apply (Hl t' l' d'); by right)).
  cbn [mbind list_bind fmap list_fmap] in IH. unfold zlen in *. lia.
Qed.

(** The references and the rest of a call under way. *)
Lemma ledger_entry w g t others : lifetime_inv w g -> calls w ≡ₚ t :: others ->
  exists l d g', g ≡ₚ (t, (l, d)) :: g' /\ g'.*1 ≡ₚ others.
Proof.
  intros Hinv Hp. rewrite <- (li_calls w g Hinv) in Hp. symmetry in Hp. unfold fmap in Hp.
  apply Permutation_map_inv in Hp as (g0 & Heq & Hg). destruct g0 as [|[t' [l d]] g']; [done|].
  injection Heq as -> Ho. exists l, d, g'. by rewrite Ho.
Qed.

(** A call that goes on: what it holds and what it has to delete change with its program. *)
Lemma call_goes_on w g c p p' others l l' d d' g' h cr dl :
  lifetime_inv w g -> calls w ≡ₚ {| call := c; prog := p |} :: others ->
  g ≡ₚ ({| call := c; prog := p |}, (l, d)) :: g' -> g'.*1 ≡ₚ others ->
  owns (writes c) (referred (objects w) (reads c)) l' d' p' -> (length l' <= length (writes c))%nat ->
  counted h (l' ++ addresses (objects w) ++ (g' ≫= fun x => x.2.1)) (d' ++ (g' ≫= fun x => x.2.2)) cr dl ->
  lifetime_inv (w <| heap := h |> <| calls := {| call := c; prog := p' |} :: others |> <| created := cr |>
                  <| deleted := dl |>)
    (({| call := c; prog := p' |}, (l', d')) :: g').
Proof.
  intros [Hc Ho Hr Hw Hn Hcn] Hp Hg Hg' Howns Hlen Hcounted.
  assert (forall t, t ∈ {| call := c; prog := p' |} :: others -> exists t', t' ∈ calls w /\ call t' = call t) as Hcall.
  { intros t [->|Ht]%elem_of_cons.
    - exists {| call := c; prog := p |}. split; [|done]. rewrite Hp. by left.
    - exists t. split; [|done]. rewrite Hp. by right. }
  constructor; cbn [heap objects calls created deleted modify fmap list_fmap fst].
  - by rewrite <- Hg'.
  - intros t l0 d0 [[= -> -> ->]|Hin]%elem_of_cons; [done|]. apply Ho. rewrite Hg. by right.
  - intros t i (t' & Ht' & <-)%Hcall. by apply Hr.
  - intros t i (t' & Ht' & <-)%Hcall. by apply Hw.
  - rewrite Hp in Hn. exact Hn.
  - cbn [mbind list_bind snd fst]. revert Hcounted. apply counted_proper; [|done..]. solve_Permutation.
Qed.

Lemma call_begin_inv w g c p : lifetime_inv w g -> race_free c w -> Body c (objects w) = Some p ->
  exists g', lifetime_inv
    (w <| objects ::= take_objects (writes c) |> <| calls ::= cons {| call := c; prog := p |} |>) g'.
Proof.
  intros Hinv [Hrace Hfresh] Hb. pose proof Hinv as [Hc Ho Hr Hw Hn Hcn].
  destruct (body_owns c (objects w) p Hb Hfresh) as [Hnd Howns].
  assert (forall i, i ∉ writes c -> take_objects (writes c) (objects w) !! i = objects w !! i) as Hkeep.
  { intros i Hi. by rewrite take_lookup, decide_False. }
  assert (forall i, i ∈ reads c -> is_Some (objects w !! i) /\ i ∉ writes c) as Hreads
    by (intros i; by apply (body_reads c (objects w) p)).
  exists (({| call := c; prog := p |}, (referred (objects w) (writes c), [])) :: g).
  constructor; cbn [heap objects calls created deleted modify fmap list_fmap fst].
  - by rewrite <- Hc.
  - intros t l d [[= -> -> ->]|Hin]%elem_of_cons.
    + split; [|cbn; unfold referred; clear; induction (writes c) as [|i l IH]; cbn; [lia|case_match; cbn; lia]].
      cbn [call prog]. rewrite (referred_ext _ (objects w)); [done|]. intros i Hi. apply Hkeep, Hreads, Hi.
    + destruct (Ho t l d Hin) as [H1 H2]. split; [|done].
      rewrite (referred_ext _ (objects w)); [done|]. intros i Hi. apply Hkeep. intros Hic.
      apply (Hrace i t Hic); [|rewrite elem_of_app; by right].
      rewrite <- Hc. by apply (list_elem_of_fmap_2 fst _ (t, (l, d))).
  - intros t i [->|Ht]%elem_of_cons Hi.
    + cbn [call] in Hi. rewrite Hkeep by apply Hreads, Hi. by apply Hreads.
    + rewrite Hkeep; [by eapply Hr|]. intros Hic. apply (Hrace i t Hic Ht). rewrite elem_of_app. by right.
  - intros t i [->|Ht]%elem_of_cons Hi; rewrite take_lookup; cbn [call] in Hi; [by rewrite decide_True|].
    case_decide; [done|]. by eapply Hw.
  - cbn [mbind list_bind call]. apply list.NoDup_app. split_and!; [done| |done].
    intros i Hi (t & Hit & Ht)%list_elem_of_bind. apply (Hrace i t Hi Ht). rewrite elem_of_app. by left.
  - cbn [mbind list_bind snd fst app]. rewrite (addresses_take (writes c)) in Hcn by done. revert Hcn.
    apply counted_proper; [|done..]. solve_Permutation.
Qed.

(** The references of one call, apart from all others. *)
Lemma entry_counted w g c p l d g' : lifetime_inv w g ->
  g ≡ₚ ({| call := c; prog := p |}, (l, d)) :: g' ->
  owns (writes c) (referred (objects w) (reads c)) l d p
  /\ (length l <= length (writes c))%nat
  /\ counted (heap w) (l ++ addresses (objects w) ++ (g' ≫= fun x => x.2.1)) (d ++ (g' ≫= fun x => x.2.2))
       (created w) (deleted w)
  /\ zlen (addresses (objects w) ++ (g' ≫= fun x => x.2.1)) + zlen (writes c) <= room w.
Proof.
  intros Hinv Hg. destruct (li_owns w g Hinv {| call := c; prog := p |} l d ltac:(rewrite Hg; left)) as [Ho Hl].
  split_and!; [done|done| |].
  - pose proof (li_counted w g Hinv) as Hc. rewrite Hg in Hc. cbn [mbind list_bind snd fst] in Hc. revert Hc.
    apply counted_proper; [|done..]. solve_Permutation.
  - unfold room. rewrite <- (li_calls w g Hinv), Hg, zlen_app.
    cbn [fmap list_fmap fst mbind list_bind call]. rewrite zlen_app. pose proof (addresses_size (objects w)) as H1.
    assert (zlen (g' ≫= fun x => x.2.1) <= zlen (g'.*1 ≫= fun t => writes (call t))) as H2.
    { apply ledger_fits. intros t l' d' Hin. apply (li_owns w g Hinv t l' d'). rewrite Hg. by right. }
    cbn [mbind list_bind fmap list_fmap] in H2 |- *. unfold zlen in *. lia.
Qed.

Lemma call_new_inv w g c next a others : lifetime_inv w g ->
  calls w ≡ₚ {| call := c; prog := New next |} :: others -> heap w !! a = None ->
  exists g', lifetime_inv
    (w <| heap ::= <[a := new_block]> |> <| created ::= S |> <| calls := {| call := c; prog := next a |} :: others |>) g'.
Proof.
  intros Hinv Hp Ha. destruct (ledger_entry w g _ _ Hinv Hp) as (l & d & g' & Hg & Hg').
  destruct (entry_counted w g c _ l d g' Hinv Hg) as (Ho & Hl & Hc & _).
  inversion Ho as [|? ? Hlt Hnext| | | | |]; subst. eexists.
  apply (call_goes_on w g c (New next) (next a) others l (a :: l) [] [] g'); try done. by apply new_counted.
Qed.

(** A block that a call can use has a reference. *)
Lemma usable w c l rest a :
  a ∈ l ++ referred (objects w) (reads c) -> a ∈ l ++ addresses (objects w) ++ rest.
Proof. rewrite !elem_of_app. intros [Ha|Ha%referred_addresses]; tauto. Qed.

Lemma call_access_inv w g c op a next n h others : lifetime_inv w g -> room w < 2 ^ 64 ->
  calls w ≡ₚ {| call := c; prog := Do op a next |} :: others -> Perform op a (heap w) = Some (n, h) ->
  exists g', lifetime_inv
    (w <| heap := h |> <| deleted ::= fun d => match op with Delete => S d | _ => d end |>
       <| calls := {| call := c; prog := next n |} :: others |>) g'.
Proof.
  intros Hinv Hroom Hp Hx. destruct (ledger_entry w g _ _ Hinv Hp) as (l & d & g' & Hg & Hg').
  destruct (entry_counted w g c _ l d g' Hinv Hg) as (Ho & Hl & Hc & Hfit).
  unfold Perform in Hx. destruct (heap w !! a) as [b|] eqn:Hb; [|done]. cbn [mbind option_bind] in Hx.
  inversion Ho as [| |? ? ? Hin Hlt Hnext|? ? ? Hno Hyes|? ? ? Hnext|? ? ? ? Hin Hnext|? ? ? ? Hin Hnext]; subst;
    injection Hx as <- <-.
  - eexists. apply (call_goes_on w g c (Do FetchAdd a next) (next (references b)) others l (a :: l) [] [] g'); try done.
    apply (copy_counted Hc a b Hb); [by apply (usable w c)|].
    unfold zlen in *. cbn [length]. rewrite length_app. lia.
  - pose proof (release_counted _ a b _ _ _ _ Hc
      ltac:(cbn in Hl; unfold zlen in *; cbn [length]; rewrite length_app; lia) Hb) as Hc'.
    destruct (Z.eqb_spec (references b) 1) as [H1|H1]; eexists.
    + apply (call_goes_on w g c (Do FetchSub a next) (next (references b)) others (a :: l0) l0 [] [a] g'); try done;
        [by rewrite H1|cbn in Hl; lia].
    + apply (call_goes_on w g c (Do FetchSub a next) (next (references b)) others (a :: l0) l0 [] [] g'); try done;
        [by apply Hno|cbn in Hl; lia].
  - eexists. apply (call_goes_on w g c (Do Delete a next) (next 0) others l l [a] [] g'); try done.
    by apply (delete_counted Hc a).
  - eexists. by apply (call_goes_on w g c (Do (Load read) a next) (next _) others l l [] [] g').
  - eexists. apply (call_goes_on w g c (Do (Store update) a next) (next 0) others l l [] [] g'); try done.
    by apply store_counted.
Qed.

Lemma call_return_inv w g c e others : lifetime_inv w g ->
  calls w ≡ₚ {| call := c; prog := Ret e |} :: others ->
  exists g', lifetime_inv (w <| objects ::= leave_objects e |> <| calls := others |>) g'.
Proof.
  intros Hinv Hp. destruct (ledger_entry w g _ _ Hinv Hp) as (l & d & g' & Hg & Hg').
  destruct (entry_counted w g c _ l d g' Hinv Hg) as (Hown & _ & Hcn & _).
  pose proof Hinv as [Hc Ho Hr Hw Hn _]. inversion Hown as [? ? He HeW| | | | | |]; subst. exists g'.
  rewrite Hp in Hn. cbn [mbind list_bind call] in Hn. apply list.NoDup_app in Hn as (Hnd & Hdisj & Hn).
  assert (forall i, i ∈ e.*1 -> i ∈ writes c) as Hsub by (intros i Hi; by eapply elem_of_submseteq).
  assert (forall i, i ∈ e.*1 -> objects w !! i = None) as Hnone.
  { intros i Hi. apply (Hw {| call := c; prog := Ret e |}); [rewrite Hp; by left|by apply Hsub]. }
  assert (forall t i, t ∈ others -> i ∈ reads (call t) -> i ∉ e.*1) as Hreads.
  { intros t i Ht Hi Hie%Hnone. destruct (Hr t i ltac:(rewrite Hp; by right) Hi) as [r Hs]. congruence. }
  assert (NoDup e.*1) as Hnde 
    by (apply submseteq_Permutation in HeW as [k Hk]; rewrite Hk in Hnd; by apply list.NoDup_app in Hnd as [? _]).
  constructor; cbn [heap objects calls created deleted modify]; [done|..|done|].
  - intros t l0 d0 Hin. assert (t ∈ others) as Ht
      by (rewrite <- Hg'; by apply (list_elem_of_fmap_2 fst _ (t, (l0, d0)))).
    rewrite (referred_ext _ (objects w)).
    + apply Ho. rewrite Hg. by right.
    + intros i Hi. apply leave_lookup. by apply (Hreads t).
  - intros t i Ht Hi. rewrite leave_lookup by by apply (Hreads t). apply (Hr t); [rewrite Hp; by right|done].
  - intros t i Ht Hi. rewrite leave_lookup; [apply (Hw t); [rewrite Hp; by right|done]|].
    intros Hie%Hsub. apply (Hdisj i Hie). apply list_elem_of_bind. by exists t.
  - rewrite addresses_leave, He by done. revert Hcn. cbn [app]. apply counted_proper; [|done..]. solve_Permutation.
Qed.

Lemma lifetime_run_inv w : rtc bounded_step empty_world w -> (exists g, lifetime_inv w g) /\ room w < 2 ^ 64.
Proof.
  revert w. apply rtc_ind_r; [split; [exists []; apply empty_inv|done]|].
  intros w w' _ [Hstep Hroom'] [[g Hinv] Hroom]. split; [|done].
  destruct Hstep as [c p w Hrace Hb|c next a others w Hp Ha|c op a next n h others w Hp Hx|c e others w Hp].
  - by eapply call_begin_inv.
  - by eapply call_new_inv.
  - by eapply call_access_inv.
  - by eapply call_return_inv.
Qed.

(** ** Theorem *)

(** C40: a lifetime block is used only while it exists, and is freed exactly once. Whatever
    calls of the member functions are interleaved, access by access, no call is ever about
    to access a block that was freed, so none is used or deleted again after its [delete];
    an object that is not null refers to a block that exists, whose count is at least the
    number of the objects that refer to it; every block that was created either exists or
    was deleted once; and when no call is under way, the count of every block is the number
    of the objects that refer to it, and is not zero: none leaks. *)
Theorem lifetime_blocks_are_freed_once w :
  rtc bounded_step empty_world w ->
  (forall t op a next, t ∈ calls w -> prog t = Do op a next -> is_Some (heap w !! a))
  /\ (forall i a, objects w !! i = Some (Some a) ->
      exists b, heap w !! a = Some b /\ held a (addresses (objects w)) <= references b)
  /\ (deleted w + size (heap w))%nat = created w
  /\ (calls w = [] -> forall a b, heap w !! a = Some b ->
      references b = held a (addresses (objects w)) /\ 0 < references b).
Proof.
  intros Hrun. destruct (lifetime_run_inv w Hrun) as [[g Hinv] _]. pose proof Hinv as [Hc Ho Hr Hw Hn Hcn].
  split_and!; [| |apply (cn_size _ _ _ _ _ Hcn)|].
  - intros [c p] op a next Ht Hprog. cbn [prog] in Hprog. subst p.
    apply elem_of_Permutation in Ht as [others Hp]. destruct (ledger_entry w g _ _ Hinv Hp) as (l & d & g' & Hg & _).
    destruct (entry_counted w g c _ l d g' Hinv Hg) as (Hown & _ & Hcn' & _).
    inversion Hown; subst; [apply (cn_alive _ _ _ _ _ Hcn'); by apply (usable w c)|apply (cn_alive _ _ _ _ _ Hcn'); left
      | |apply (cn_alive _ _ _ _ _ Hcn'); by apply (usable w c)..].
    destruct (proj1 (cn_deleting _ _ _ _ _ Hcn' a) ltac:(left)) as (b & Hb & _). by exists b.
  - intros i a Hi%addresses_elem. destruct (cn_alive _ _ _ _ _ Hcn a) as [b Hb]; [rewrite elem_of_app; by left|].
    exists b. split; [done|]. rewrite (cn_count _ _ _ _ _ Hcn a b Hb), held_app.
    pose proof (held_nonneg a (g ≫= fun x => x.2.1)). lia.
  - intros Hnone a b Hb. rewrite Hnone in Hc. apply Permutation_nil_r, fmap_nil_inv in Hc as ->.
    pose proof (cn_count _ _ _ _ _ Hcn a b Hb) as H. cbn [mbind list_bind] in H. rewrite app_nil_r in H.
    split; [done|]. destruct (decide (references b = 0)) as [Hz|Hz]; [|pose proof (held_nonneg a (addresses (objects w))); lia].
    assert (a ∈ @nil nat) as Hin by (apply (cn_deleting _ _ _ _ _ Hcn); by exists b). by apply elem_of_nil in Hin.
Qed.

(** The witness's run: a block is created in object 1; two calls copy it to 2 and 3 at the
    same time; 3 is assigned to 2 by a move; then all references are dropped. *)
Definition lifetime_demo : World :=
  {| heap := ∅; objects := {[3%nat := None]}; calls := []; created := 1; deleted := 1 |}.

Lemma race_free_checked c w :
  forallb (fun i => forallb (fun t => negb (bool_decide (i ∈ writes (call t) ++ reads (call t)))) (calls w)) (writes c)
    = true ->
  (forall i, constructs c = Some i -> objects w !! i = None) -> race_free c w.
Proof.
  intros H Hfresh. split; [|done]. intros i t Hi Ht. rewrite forallb_forall in H.
  specialize (H i (proj1 (list_elem_of_In _ _) Hi)). rewrite forallb_forall in H.
  specialize (H t (proj1 (list_elem_of_In _ _) Ht)). by apply negb_true_iff, bool_decide_eq_false in H.
Qed.

Ltac here := match goal with |- rtc _ ?w _ => let v := eval vm_compute in w in change w with v end.
Ltac begins c :=
  eapply rtc_l; [split; [eapply (ls_begin c); [|reflexivity]|done]|];
  [apply race_free_checked; [reflexivity|by intros ? [= <-]]|]; here.
Ltac accesses c rest :=
  eapply rtc_l; [split; [eapply (ls_access c _ _ _ _ _ rest); cbn; [reflexivity|reflexivity]|done]|]; here.
Ltac returns c rest :=
  eapply rtc_l; [split; [eapply (ls_return c _ rest); cbn; reflexivity|done]|]; here.

Lemma lifetime_demo_run : rtc bounded_step empty_world lifetime_demo.
Proof.
  begins (CCreate 1).
  eapply rtc_l; [split; [eapply (ls_new (CCreate 1) _ 5 []); cbn; reflexivity|done]|]; here.
  returns (CCreate 1) (@nil Thread).
  begins (CCopyConstruct 2 1). begins (CCopyConstruct 3 1).
  match goal with |- rtc _ (Build_World _ _ [_; ?t] _ _) _ => accesses (CCopyConstruct 3 1) [t] end.
  match goal with |- rtc _ (Build_World _ _ [?t; _] _ _) _ =>
    eapply rtc_l; [split; [eapply (ls_access (CCopyConstruct 2 1) _ _ _ _ _ [t]); cbn; [apply Permutation_swap|reflexivity]
                          |done]|];
    here
  end.
  match goal with |- rtc _ (Build_World _ _ [_; ?t] _ _) _ => returns (CCopyConstruct 2 1) [t] end.
  returns (CCopyConstruct 3 1) (@nil Thread).
  begins (CMoveAssign 2 3). accesses (CMoveAssign 2 3) (@nil Thread). returns (CMoveAssign 2 3) (@nil Thread).
  begins (CDestroy 1). accesses (CDestroy 1) (@nil Thread). returns (CDestroy 1) (@nil Thread).
  begins (CDestroy 2). accesses (CDestroy 2) (@nil Thread). accesses (CDestroy 2) (@nil Thread).
  returns (CDestroy 2) (@nil Thread).
  apply rtc_refl.
Qed.

Lemma lifetime_blocks_are_freed_once_witness :
  (deleted lifetime_demo + size (heap lifetime_demo))%nat = created lifetime_demo
  /\ forall a b, heap lifetime_demo !! a = Some b -> 0 < references b.
Proof.
  destruct (lifetime_blocks_are_freed_once lifetime_demo lifetime_demo_run) as (_ & _ & H1 & H2).
  split; [exact H1|]. intros a b Hb. by destruct (H2 eq_refl a b Hb).
Defined.
