(* ===== verification/ProducerKernel.v ===== *)
(** * The producer kernel ([src/producer/producer_kernel.cpp], [.hpp])

    Composes the lanes, the credit ledger and the record slots: a publication claims a
    cell of its producer's lane, reserves its worst case, builds the record in the
    cell's slot, commits what it really takes and is admitted; the consumer takes the
    records in admission order and gives everything back. Producer slots are registered
    by threads and retired when they have drained.

    [TryPublishSlot] and [TryConsume] are cut where the code touches state it shares with
    other threads. Each piece is a definition of its own and the member functions are
    their compositions; [KernelWorld.v] interleaves the pieces. *)
From S2P Require Import Prelude Sampling KernelTypes ThreadRegistry.
From S2P Require CreditLedger ProducerLanes RecordLayout RecordStorage.

(** ** Data *)

Inductive ProducerSlotState := kFree | kActive | kRetiring | kReconciling.

#[export] Instance ProducerSlotState_eq_dec : EqDecision ProducerSlotState.
Proof. solve_decision. Defined.

(** The notification is a callback that may be null. *)
Record KernelConfig := {
  threshold : Level;
  payload_capacity_bytes : Z;
  maximum_record_bytes : Z;
  producer_slots : nat;
  ingress_cells : nat;
  consumer_notification : bool;
}.

Inductive BuildStatus := kComplete | kInvalid.

#[export] Instance BuildStatus_eq_dec : EqDecision BuildStatus.
Proof. solve_decision. Defined.

(** What a builder does with the appender it is given: the calls it makes, then how it
    ends. *)
Inductive BuildEnd := BuildReturns (status : BuildStatus) | BuildThrows.

Record BuildBehaviour := {
  build_calls : list RecordStorage.build_op;
  build_end : BuildEnd;
}.

(** [BuildOperation]: its [invoke] may be null. *)
Definition BuildOperation : Type := option BuildBehaviour.

Inductive PublishOutcome :=
| kAccepted | kFiltered | kNoProducerSlot | kLaneFull | kBudgetExhausted | kInvalidRecord.

#[export] Instance PublishOutcome_eq_dec : EqDecision PublishOutcome.
Proof. solve_decision. Defined.

Record PublishResult := {
  outcome : PublishOutcome;
  admission_sequence : option Z;
  result_truncated : bool;
}.

(** How a publication ends: a result, or the builder's exception. *)
Inductive PublishReturn := Returned (result : PublishResult) | Threw.

Definition refused (o : PublishOutcome) : PublishReturn :=
  Returned {| outcome := o; admission_sequence := None; result_truncated := false |}.

Inductive ConsumeStatus := kRecord | kEmpty | kPending.

#[export] Instance ConsumeStatus_eq_dec : EqDecision ConsumeStatus.
Proof. solve_decision. Defined.

Record ProducerControl := { control_generation : Z; control_state : ProducerSlotState }.

#[export] Instance ProducerControl_eta : Eta ProducerControl := fun c =>
  {| control_generation := control_generation c; control_state := control_state c |}.

Definition initial_control : ProducerControl :=
  {| control_generation := 1; control_state := kFree |}.

Record ProducerCounters := {
  rejected_lane_full : Z;
  rejected_budget : Z;
  abandoned_builds : Z;
  invalid_records : Z;
  truncated_records : Z;
}.

#[export] Instance ProducerCounters_eta : Eta ProducerCounters := fun c =>
  {| rejected_lane_full := rejected_lane_full c; rejected_budget := rejected_budget c;
     abandoned_builds := abandoned_builds c; invalid_records := invalid_records c;
     truncated_records := truncated_records c |}.

Definition zero_counters : ProducerCounters :=
  {| rejected_lane_full := 0; rejected_budget := 0; abandoned_builds := 0;
     invalid_records := 0; truncated_records := 0 |}.

(** [ProducerKernel::Impl]. [lifetime] is the block its reference points to, [level] the
    threshold of its [logger_state], and [notified] counts the calls of the consumer
    notification. *)
Record Impl := {
  controls : list ProducerControl;
  counters : list ProducerCounters;
  missing_producer_counters : list Z;
  ledger : CreditLedger.CreditLedger;
  lanes : ProducerLanes.ProducerLanes;
  lifetime : KernelLifetimeState;
  record_slots : list RecordStorage.RecordSlot;
  consumed_records : Z;
  consumer_validation_errors : Z;
  level : Level;
  config : KernelConfig;
  record_generations : list Z;
  records : list RecordStorage.StoredRecord;
  ownerships : list (option CreditLedger.Ownership);
  notified : nat;
}.

#[export] Instance Impl_eta : Eta Impl := fun k =>
  {| controls := controls k; counters := counters k;
     missing_producer_counters := missing_producer_counters k; ledger := ledger k;
     lanes := lanes k; lifetime := lifetime k; record_slots := record_slots k;
     consumed_records := consumed_records k;
     consumer_validation_errors := consumer_validation_errors k; level := level k;
     config := config k; record_generations := record_generations k; records := records k;
     ownerships := ownerships k; notified := notified k |}.

(** ** Construction *)

Inductive ConfigField :=
| field_threshold | field_maximum_record_bytes | field_payload_capacity_bytes
| field_producer_slots | field_ingress_cells | field_event_clock.

Definition kMinimumRecordBytes : Z := 128.

(** [ValidateConfiguration]: the field the exception names, or none. A level is any byte. *)
Definition ValidateConfiguration (c : KernelConfig) (clock_is_null : bool) : option ConfigField :=
  if kNone <? threshold c then Some field_threshold
  else if (maximum_record_bytes c <? kMinimumRecordBytes)
          || (kMaximumRecordBytes <? maximum_record_bytes c)
          || negb (maximum_record_bytes c mod kAccountingQuantumBytes =? 0)
  then Some field_maximum_record_bytes
  else if (payload_capacity_bytes c <? maximum_record_bytes c)
          || negb (payload_capacity_bytes c mod kAccountingQuantumBytes =? 0)
  then Some field_payload_capacity_bytes
  else if (producer_slots c =? 0)%nat || (kMaximumProducerSlots <? producer_slots c)%nat
  then Some field_producer_slots
  else if (ingress_cells c <? producer_slots c)%nat || (kMaximumIngressCells <? ingress_cells c)%nat
  then Some field_ingress_cells
  else if clock_is_null then Some field_event_clock
  else None.

Definition MakeImpl (c : KernelConfig) : Impl :=
  {| controls := replicate kMaximumProducerSlots initial_control;
     counters := replicate kMaximumProducerSlots zero_counters;
     missing_producer_counters := replicate kMaximumProducerSlots 0;
     ledger := CreditLedger.Reset
       {| CreditLedger.capacity_bytes := payload_capacity_bytes c;
          CreditLedger.producer_count := producer_slots c |} CreditLedger.initial_ledger;
     lanes := ProducerLanes.MakeProducerLanes (producer_slots c) (ingress_cells c);
     lifetime := initial_lifetime;
     record_slots := replicate (ingress_cells c) RecordStorage.initial_slot;
     consumed_records := 0;
     consumer_validation_errors := 0;
     level := threshold c;
     config := c;
     record_generations := replicate kMaximumIngressCells 0;
     records := replicate kMaximumIngressCells RecordStorage.no_record;
     ownerships := replicate kMaximumIngressCells None;
     notified := 0 |}.

(** The constructor: the invalid field it throws for, or the kernel. *)
Definition MakeProducerKernel (c : KernelConfig) (clock_is_null : bool) : ConfigField + Impl :=
  match ValidateConfiguration c clock_is_null with
  | Some field => inl field
  | None => inr (MakeImpl c)
  end.

(** ** Access *)

Definition control_at (k : Impl) (slot : nat) : ProducerControl :=
  default initial_control (controls k !! slot).

Definition on_control (f : ProducerControl -> ProducerControl) (slot : nat) (k : Impl) : Impl :=
  k <| controls ::= alter f slot |>.

Definition on_counters (f : ProducerCounters -> ProducerCounters) (slot : nat) (k : Impl) : Impl :=
  k <| counters ::= alter f slot |>.

Definition record_slot_at (k : Impl) (cell : nat) : RecordStorage.RecordSlot :=
  default RecordStorage.initial_slot (record_slots k !! cell).

Definition set_record_slot (cell : nat) (s : RecordStorage.RecordSlot) (k : Impl) : Impl :=
  k <| record_slots ::= <[cell := s]> |>.

Definition ownership_at (k : Impl) (cell : nat) : option CreditLedger.Ownership :=
  default None (ownerships k !! cell).

Definition record_at (k : Impl) (cell : nat) : RecordStorage.StoredRecord :=
  default RecordStorage.no_record (records k !! cell).

Definition generation_at (k : Impl) (cell : nat) : Z :=
  default 0 (record_generations k !! cell).

Definition IsActive (slot : nat) (generation : Z) (k : Impl) : bool :=
  (slot <? producer_slots (config k))%nat
  && bool_decide (control_state (control_at k slot) = kActive)
  && (control_generation (control_at k slot) =? generation).

(** The calling thread's shard is given. *)
Definition CountMissingProducer (shard : nat) (k : Impl) : Impl :=
  k <| missing_producer_counters ::= alter (fun n => n +w 1) shard |>.

Definition CountLaneFull := on_counters (fun c => c <| rejected_lane_full ::= fun n => n +w 1 |>).
Definition CountBudget := on_counters (fun c => c <| rejected_budget ::= fun n => n +w 1 |>).
Definition CountAbandoned := on_counters (fun c => c <| abandoned_builds ::= fun n => n +w 1 |>).
Definition CountInvalid := on_counters (fun c => c <| invalid_records ::= fun n => n +w 1 |>).
Definition CountTruncated := on_counters (fun c => c <| truncated_records ::= fun n => n +w 1 |>).

Definition Notify (k : Impl) : Impl :=
  if consumer_notification (config k) then k <| notified ::= S |> else k.

(** [ownerships[cell].reset()]. *)
Definition ResetOwnership (cell : nat) (k : Impl) : Impl :=
  match ownership_at k cell with
  | Some o =>
      k <| ledger ::= fun l => (CreditLedger.Release o l).2 |>
        <| ownerships ::= <[cell := None]> |>
  | None => k
  end.

(** [ownerships[cell].emplace(o)]. *)
Definition EmplaceOwnership (cell : nat) (o : CreditLedger.Ownership) (k : Impl) : Impl :=
  ResetOwnership cell k <| ownerships ::= <[cell := Some o]> |>.

Definition SetRecord (cell : nat) (r : RecordStorage.StoredRecord) (k : Impl) : Impl :=
  k <| records ::= <[cell := r]> |>.

Definition ResetRecordSlot (cell : nat) (k : Impl) : Impl :=
  set_record_slot cell (RecordStorage.Reset (record_slot_at k cell)) k.

(** The three statements that empty a cell. *)
Definition ClearCell (cell : nat) (k : Impl) : Impl :=
  ResetRecordSlot cell (SetRecord cell RecordStorage.no_record (ResetOwnership cell k)).

(** ** Producer slots *)

(** The two halves of [TryFinishRetirement]: the first test, and the rest, from the
    compare-exchange on. Another thread can run between them. *)
Definition RetirementReady (slot : nat) (k : Impl) : bool :=
  (slot <? producer_slots (config k))%nat && ProducerLanes.IsProducerDrained slot (lanes k).

Definition FinishRetirement (slot : nat) (k : Impl) : Impl :=
  if bool_decide (control_state (control_at k slot) = kRetiring) then
    let k := on_control (fun c => c <| control_state := kReconciling |>) slot k in
    let '(reconciled, l) := CreditLedger.TryReconcileProducer slot (ledger k) in
    let k := k <| ledger := l |> in
    if reconciled then
      on_control (fun c => c <| control_generation ::= fun g => g +w 1 |>
                             <| control_state := kFree |>) slot k
    else on_control (fun c => c <| control_state := kRetiring |>) slot k
  else k.

Definition TryFinishRetirement (slot : nat) (k : Impl) : Impl :=
  if RetirementReady slot k then FinishRetirement slot k else k.

(** One iteration of the loop of [TryRegisterProducer]: the slot was not free, or it was
    taken but admission had closed ([inr None]), or it is registered. *)
Definition AcquireSlot (slot : nat) (k : Impl) : Impl * (unit + option Z) :=
  if negb (bool_decide (control_state (control_at k slot) = kFree)) then (k, inl ())
  else
    let k := on_control (fun c => c <| control_state := kActive |>) slot k in
    if negb (admission_open (lifetime k)) then
      let k := on_control (fun c => c <| control_state := kRetiring |>) slot k in
      (TryFinishRetirement slot k, inr None)
    else
      let generation := control_generation (control_at k slot) in
      (k <| lifetime ::= ActivateRegistration slot generation |>, inr (Some generation)).

(** The two halves of [RetireProducer] after the thread's entry is removed. *)
Definition RetireLifetime (slot : nat) (generation : Z) (k : Impl) : Impl :=
  k <| lifetime ::= RetireRegistration slot generation |>.

Definition RetireSlot (slot : nat) (generation : Z) (k : Impl) : Impl * bool :=
  if (slot <? producer_slots (config k))%nat
     && (control_generation (control_at k slot) =? generation)
     && bool_decide (control_state (control_at k slot) = kActive)
  then (on_control (fun c => c <| control_state := kRetiring |>) slot k, true)
  else (k, false).

Definition SetLevel (value : Level) (k : Impl) : Impl :=
  k <| level := if value <=? kNone then value else kNone |>.

Definition CloseAdmission (k : Impl) : Impl :=
  Notify (SetLevel kNone (k <| lifetime ::= CloseLifetime |>)).

Definition IsAdmissionOpen (k : Impl) : bool := admission_open (lifetime k).

(** The loop over the producer slots; [n] are left. *)
Fixpoint QuiescentLoop (n slot : nat) (quiescent : bool) (k : Impl) : bool * Impl :=
  match n with
  | O => (quiescent, k)
  | S n' =>
      let k := TryFinishRetirement slot k in
      QuiescentLoop n' (S slot)
        (quiescent && ProducerLanes.IsProducerDrained slot (lanes k)
         && bool_decide (control_state (control_at k slot) = kFree)) k
  end.

Definition IsQuiescent (k : Impl) : bool * Impl :=
  QuiescentLoop (producer_slots (config k)) 0 true k.

(** ** Publication *)

(** The arguments of a call of [TryPublishSlot]. *)
Record PublishCall := {
  call_slot : nat;
  call_generation : Z;
  call_level : Level;
  call_source : SourceLocation;
  call_operation : BuildOperation;
}.

Definition PublishClaim (call : PublishCall) (k : Impl)
    : Impl * (ProducerLanes.PublicationClaim + PublishReturn) :=
  let '(claim, l) := ProducerLanes.TryClaimPublication (call_slot call) (lanes k) in
  let k := k <| lanes := l |> in
  if ProducerLanes.pub_owner_ claim then (k, inl claim)
  else
    match ProducerLanes.pub_status_ claim with
    | ProducerLanes.kFull | ProducerLanes.kContended =>
        (CountLaneFull (call_slot call) k, inr (refused kLaneFull))
    | _ => (CountInvalid (call_slot call) k, inr (refused kInvalidRecord))
    end.

(** The tests after the claim; [inl] is the cell. *)
Definition PublishRecheck (shard : nat) (call : PublishCall) (claim : ProducerLanes.PublicationClaim)
    (k : Impl) : Impl * (nat + PublishReturn) :=
  if negb (IsAdmissionOpen k) || negb (IsActive (call_slot call) (call_generation call) k)
  then (CountMissingProducer shard k, inr (refused kNoProducerSlot))
  else
    match ProducerLanes.claim_cell_index claim with
    | Some cell =>
        if (ingress_cells (config k) <=? cell)%nat
        then (CountInvalid (call_slot call) k, inr (refused kInvalidRecord))
        else (k, inl cell)
    | None => (CountInvalid (call_slot call) k, inr (refused kInvalidRecord))
    end.

Definition PublishReserve (spurious_failures : nat) (call : PublishCall) (k : Impl)
    : Impl * (CreditLedger.Reservation + PublishReturn) :=
  let '(reservation, l) :=
    CreditLedger.TryReserve spurious_failures (call_slot call)
      (maximum_record_bytes (config k)) (ledger k) in
  let k := k <| ledger := l |> in
  if CreditLedger.res_ledger_ reservation then (k, inl reservation)
  else (CountBudget (call_slot call) k, inr (refused kBudgetExhausted)).

(** [~Reservation]. *)
Definition AbandonReservation (reservation : CreditLedger.Reservation) (k : Impl) : Impl :=
  k <| ledger ::= fun l => (CreditLedger.Abandon reservation l).2 |>.

(** The destructors of [notify_consumer] and of the claim. *)
Definition PublishLeave (claim : ProducerLanes.PublicationClaim) (k : Impl) : Impl :=
  Notify k <| lanes ::= ProducerLanes.Abandon claim |>.

Section Builder.
Context (general_to_chars : Z -> option (list byte)).

(** The record is built in the cell's slot, which only the claim's holder touches; on
    every failure the writer and the reservation are destroyed. *)
Definition PublishBuild (timestamp : Z) (call : PublishCall) (cell : nat)
    (reservation : CreditLedger.Reservation) (k : Impl)
    : Impl * (RecordStorage.StoredRecord + PublishReturn) :=
  let maximum := maximum_record_bytes (config k) in
  let fail w s count ret :=
    let k := set_record_slot cell (RecordStorage.Abandon w s).2 (count (call_slot call) k) in
    (AbandonReservation reservation k, inr ret) in
  let '(writer, s) :=
    RecordStorage.Begin maximum (call_level call) (call_source call) timestamp
      (record_slot_at k cell) in
  match call_operation call with
  | Some builder =>
      if negb (RecordStorage.slot_ writer) then fail writer s CountInvalid (refused kInvalidRecord)
      else
        let '(writer, s) :=
          RecordStorage.run_ops general_to_chars (build_calls builder) writer s in
        match build_end builder with
        | BuildThrows => fail writer s CountAbandoned Threw
        | BuildReturns kInvalid => fail writer s CountAbandoned (refused kInvalidRecord)
        | BuildReturns kComplete =>
            let '(stored, writer, s) := RecordStorage.Publish writer s in
            if negb (RecordStorage.sr_storage stored)
               || (maximum <? RecordStorage.sr_serialized_bytes stored)
               || (maximum <? RecordStorage.sr_accounting_charge_bytes stored)
            then fail writer s CountInvalid (refused kInvalidRecord)
            else (set_record_slot cell (RecordStorage.Abandon writer s).2 k, inl stored)
        end
  | None => fail writer s CountInvalid (refused kInvalidRecord)
  end.
End Builder.

(** The reservation becomes an ownership, and the cell is filled. *)
Definition PublishCommit (call : PublishCall) (cell : nat)
    (reservation : CreditLedger.Reservation) (stored : RecordStorage.StoredRecord) (k : Impl)
    : Impl * (ProducerLanes.RecordHandle + PublishReturn) :=
  let '(ownership, l) :=
    CreditLedger.Commit reservation (RecordStorage.sr_serialized_bytes stored) (ledger k) in
  let k := k <| ledger := l |> in
  if negb (CreditLedger.own_ledger_ ownership)
     || negb (CreditLedger.retained_bytes_ ownership =? RecordStorage.sr_serialized_bytes stored)
     || negb (CreditLedger.own_charge_bytes_ ownership
              =? RecordStorage.sr_accounting_charge_bytes stored)
  then
    let k := CountInvalid (call_slot call) (ResetRecordSlot cell k) in
    (k <| ledger ::= fun l => (CreditLedger.Release ownership l).2 |>, inr (refused kInvalidRecord))
  else
    let k := k <| record_generations ::= alter (fun g => g +w 1) cell |> in
    let record_generation := generation_at k cell in
    let k := EmplaceOwnership cell ownership (SetRecord cell stored k) in
    (k, inl {| ProducerLanes.slot_index := u32_of_index cell;
               ProducerLanes.producer_index := u32_of_index (call_slot call);
               ProducerLanes.generation := record_generation;
               ProducerLanes.serialized_bytes := RecordStorage.sr_serialized_bytes stored;
               ProducerLanes.accounting_charge_bytes :=
                 RecordStorage.sr_accounting_charge_bytes stored |}).

(** The head of [ProducerLanes::Publish], up to the sequence it allocates. *)
Definition PublishAllocate (call : PublishCall) (claim : ProducerLanes.PublicationClaim)
    (handle : ProducerLanes.RecordHandle) (cell : nat) (k : Impl) : Impl * (Z + PublishReturn) :=
  if ProducerLanes.PublishAllowed claim handle then
    let '(sequence, l) := ProducerLanes.AllocateSequence (lanes k) in
    (k <| lanes := l |>, inl sequence)
  else (CountInvalid (call_slot call) (ClearCell cell k), inr (refused kInvalidRecord)).

(** The rest of it, and the end of [TryPublishSlot]: the claim is nulled. *)
Definition PublishFinish (call : PublishCall) (claim : ProducerLanes.PublicationClaim)
    (handle : ProducerLanes.RecordHandle) (sequence : Z) (was_truncated : bool) (k : Impl)
    : Impl * PublishReturn :=
  let k := k <| lanes ::= ProducerLanes.StorePublication claim handle sequence |> in
  let k := if was_truncated then CountTruncated (call_slot call) k else k in
  (PublishLeave (ProducerLanes.null_publication (ProducerLanes.pub_status_ claim)) k,
   Returned {| outcome := kAccepted; admission_sequence := Some sequence;
               result_truncated := was_truncated |}).

(** What the environment decides during a publication: the shard of the thread, the
    spurious failures of an exchange and the time. *)
Record PublishEnv := { env_shard : nat; env_spurious : nat; env_timestamp : Z }.

Notation "'let?' x := e1 'in' e2" :=
  (match e1 with (k_, inl x) => e2 k_ | (k_, inr ret_) => (k_, ret_) end)
  (at level 10, x name, e1 at level 100, e2 at level 200).
Notation "'let!' x := e1 'leaving' c 'in' e2" :=
  (match e1 with (k_, inl x) => e2 k_ | (k_, inr ret_) => (PublishLeave c k_, ret_) end)
  (at level 10, x name, e1 at level 100, c at level 100, e2 at level 200).

Definition TryPublishSlot (general_to_chars : Z -> option (list byte)) (env : PublishEnv)
    (call : PublishCall) (k : Impl) : Impl * PublishReturn :=
  if negb (IsActive (call_slot call) (call_generation call) k)
  then (CountMissingProducer (env_shard env) k, refused kNoProducerSlot)
  else
    let? claim := PublishClaim call k in fun k =>
    let! cell := PublishRecheck (env_shard env) call claim k leaving claim in fun k =>
    let! reservation := PublishReserve (env_spurious env) call k leaving claim in fun k =>
    let! stored := PublishBuild general_to_chars (env_timestamp env) call cell reservation k
      leaving claim in fun k =>
    let! handle := PublishCommit call cell reservation stored k leaving claim in fun k =>
    let! sequence := PublishAllocate call claim handle cell k leaving claim in fun k =>
    PublishFinish call claim handle sequence (RecordStorage.sr_truncated stored) k.

(** ** Registrations *)

(** A move-only [ProducerRegistration]; [reg_owner] is [false] for a null owner. *)
Record ProducerRegistration := {
  reg_owner : bool;
  reg_slot_index : nat;
  reg_generation : Z;
}.

Definition null_producer_registration : ProducerRegistration :=
  {| reg_owner := false; reg_slot_index := 0; reg_generation := 0 |}.

(** [TryPublish]: [producer] is [None] when its owner is not this kernel. *)
Definition TryPublish (general_to_chars : Z -> option (list byte)) (env : PublishEnv)
    (producer : option (nat * Z)) (message_level : Level) (source : SourceLocation)
    (operation : BuildOperation) (k : Impl) : Impl * PublishReturn :=
  if negb (IsLevelEnabled message_level (level k)) then (k, refused kFiltered)
  else
    match producer with
    | None => (CountMissingProducer (env_shard env) k, refused kNoProducerSlot)
    | Some (slot, generation) =>
        TryPublishSlot general_to_chars env
          {| call_slot := slot; call_generation := generation; call_level := message_level;
             call_source := source; call_operation := operation |} k
    end.

(** The state a call made by one thread can touch: the kernel, the thread's registry and
    the process-wide shard counter. *)
Record CallState := { kernel : Impl; registry : ThreadRegistry; next_shard : Z }.

#[export] Instance CallState_eta : Eta CallState := fun s =>
  {| kernel := kernel s; registry := registry s; next_shard := next_shard s |}.

Definition DrawShard (s : CallState) : nat * CallState :=
  let '(shard, r, n) := MissingProducerShard (registry s) (next_shard s) in
  (shard, s <| registry := r |> <| next_shard := n |>).

Fixpoint AcquireAny (n slot : nat) (k : Impl) : Impl * option (nat * Z) :=
  match n with
  | O => (k, None)
  | S n' =>
      match AcquireSlot slot k with
      | (k, inl _) => AcquireAny n' (S slot) k
      | (k, inr None) => (k, None)
      | (k, inr (Some generation)) => (k, Some (slot, generation))
      end
  end.

(** A kernel at address [self] with its [identity] and the address [block] of its lifetime;
    [others] is what the addresses of other kernels' blocks point to. *)
Section Identity.
Context (self : nat) (identity : Z) (block : nat) (others : nat -> option KernelLifetimeState).

Definition blocks_of (k : Impl) (address : nat) : option KernelLifetimeState :=
  if (address =? block)%nat then Some (lifetime k) else others address.

Definition Registered (index slot : nat) (generation : Z) (r : ThreadRegistry) : ThreadRegistry :=
  r <| entries ::= <[index := {| owner := Some self; lifetime_block := Some block;
                                 kernel_identity := identity; slot_index := slot;
                                 ThreadRegistry.generation := generation |}]> |>
    <| last_hit := index |>.

(** The entry the thread already has: [inl] ends the call. *)
Definition DropStaleEntry (s : CallState) : unit + CallState :=
  let '(existing, r) := FindThreadRegistration self identity (registry s) in
  match existing with
  | Some index =>
      let e := default empty_registration (entries r !! index) in
      if IsActive (slot_index e) (ThreadRegistry.generation e) (kernel s) then inl ()
      else inr (s <| registry :=
                  RemoveThreadRegistration self identity (slot_index e)
                    (ThreadRegistry.generation e) r |>)
  | None => inr (s <| registry := r |>)
  end.

Definition TryRegisterProducer (s : CallState) : ProducerRegistration * CallState :=
  let '(_, s) := DrawShard s in
  if negb (IsAdmissionOpen (kernel s)) then (null_producer_registration, s)
  else
    match DropStaleEntry s with
    | inl _ =>
        (null_producer_registration,
         s <| registry := (FindThreadRegistration self identity (registry s)).2 |>)
    | inr s =>
        let '(free, r) := FindFreeThreadRegistration (blocks_of (kernel s)) (registry s) in
        let s := s <| registry := r |> in
        match free with
        | None => (null_producer_registration, s)
        | Some index =>
            match AcquireAny (producer_slots (config (kernel s))) 0 (kernel s) with
            | (k, Some (slot, generation)) =>
                ({| reg_owner := true; reg_slot_index := slot; reg_generation := generation |},
                 s <| kernel := k |> <| registry ::= Registered index slot generation |>)
            | (k, None) => (null_producer_registration, s <| kernel := k |>)
            end
        end
    end.

Definition RetireProducer (producer : ProducerRegistration) (s : CallState)
    : ProducerRegistration * CallState :=
  let slot := reg_slot_index producer in
  let generation := reg_generation producer in
  let s := s <| registry ::= RemoveThreadRegistration self identity slot generation |> in
  let k := RetireLifetime slot generation (kernel s) in
  let '(k, retired) := RetireSlot slot generation k in
  (null_producer_registration,
   s <| kernel := if retired then TryFinishRetirement slot k else k |>).

(** [ProducerRegistration::Reset], the destructor. *)
Definition ResetRegistration (producer : ProducerRegistration) (s : CallState)
    : ProducerRegistration * CallState :=
  if reg_owner producer then RetireProducer producer s else (producer, s).

(** [operator=(ProducerRegistration&&)] of two distinct objects: the target, the source. *)
Definition AssignRegistration (target other : ProducerRegistration) (s : CallState)
    : ProducerRegistration * ProducerRegistration * CallState :=
  let '(_, s) := ResetRegistration target s in (other, null_producer_registration, s).

(** [BuildMessage] over a message builder, which appends texts to the sink and returns
    whether the message is complete, or throws. *)
Definition BuildMessage (texts : list (list byte)) (finished : option bool) : BuildOperation :=
  Some {| build_calls := RecordStorage.op_text <$> texts;
          build_end :=
            match finished with
            | Some true => BuildReturns kComplete
            | Some false => BuildReturns kInvalid
            | None => BuildThrows
            end |}.

Definition CountMissing (s : CallState) : CallState :=
  let '(shard, s) := DrawShard s in s <| kernel ::= CountMissingProducer shard |>.

(** The result is what escapes: nothing, or the builder's exception. *)
Definition LogMessage (general_to_chars : Z -> option (list byte)) (env : PublishEnv)
    (message_level : Level) (source : SourceLocation) (texts : list (list byte))
    (finished : option bool) (s : CallState) : option PublishReturn * CallState :=
  let '(found, r) := FindThreadRegistration self identity (registry s) in
  let s := s <| registry := r |> in
  match found with
  | None => (None, CountMissing s)
  | Some index =>
      let e := default empty_registration (entries r !! index) in
      let slot := slot_index e in
      let generation := ThreadRegistry.generation e in
      if negb (IsActive slot generation (kernel s)) then
        (None, CountMissing
           (s <| registry ::= RemoveThreadRegistration self identity slot generation |>))
      else
        let '(k, ret) :=
          TryPublishSlot general_to_chars
            {| env_shard := missing_producer_shard r; env_spurious := env_spurious env;
               env_timestamp := env_timestamp env |}
            {| call_slot := slot; call_generation := generation; call_level := message_level;
               call_source := source; call_operation := BuildMessage texts finished |}
            (kernel s) in
        (Some ret, s <| kernel := k |>)
  end.
End Identity.

(** ** Consumption *)

Definition ConsumeClaim (k : Impl) : Impl * (ProducerLanes.ConsumptionClaim + ConsumeStatus) :=
  let '(claim, l) := ProducerLanes.TryClaimConsumption (lanes k) in
  let k := k <| lanes := l |> in
  if ProducerLanes.con_owner_ claim then (k, inl claim)
  else
    (k, inr match ProducerLanes.con_status_ claim with
            | ProducerLanes.kPending => kPending
            | _ => kEmpty
            end).

(** The test of an envelope against the cell it names. *)
Definition EnvelopeValid (has_consumer : bool) (claim : ProducerLanes.ConsumptionClaim) (k : Impl)
    : bool :=
  let handle := ProducerLanes.record (ProducerLanes.envelope_ claim) in
  let cell := ProducerLanes.slot_index handle in
  let stored := record_at k cell in
  has_consumer
  && (cell <? ingress_cells (config k))%nat
  && RecordStorage.sr_storage stored
  && match ownership_at k cell with
     | Some ownership =>
         (ProducerLanes.generation handle =? generation_at k cell)
         && (ProducerLanes.producer_index handle =? ProducerLanes.con_producer_index_ claim)%nat
         && (ProducerLanes.serialized_bytes handle =? RecordStorage.sr_serialized_bytes stored)
         && (ProducerLanes.accounting_charge_bytes handle
             =? RecordStorage.sr_accounting_charge_bytes stored)
         && (CreditLedger.retained_bytes_ ownership =? RecordStorage.sr_serialized_bytes stored)
         && (CreditLedger.own_charge_bytes_ ownership
             =? RecordStorage.sr_accounting_charge_bytes stored)
     | None => false
     end.

(** The claimed record: the call of the consumer, if it was made, with the view it was
    given; then the cell is emptied. *)
Definition ConsumeRecord (has_consumer : bool) (claim : ProducerLanes.ConsumptionClaim) (k : Impl)
    : Impl * option (Z * RecordStorage.RecordView) :=
  let envelope := ProducerLanes.envelope_ claim in
  let cell := ProducerLanes.slot_index (ProducerLanes.record envelope) in
  let valid := EnvelopeValid has_consumer claim k in
  let seen :=
    if valid then
      Some (ProducerLanes.admission_sequence envelope,
            RecordStorage.view_of (record_slot_at k cell) (record_at k cell))
    else None in
  let k := if valid then k else k <| consumer_validation_errors ::= fun n => n +w 1 |> in
  let k := if (cell <? ingress_cells (config k))%nat then ClearCell cell k else k in
  (k <| consumed_records ::= fun n => n +w 1 |>, seen).

Definition ConsumeAcknowledge (claim : ProducerLanes.ConsumptionClaim) (k : Impl) : Impl :=
  k <| lanes ::= ProducerLanes.Acknowledge claim |>.

Definition TryConsume (has_consumer : bool) (k : Impl)
    : Impl * ConsumeStatus * option (Z * RecordStorage.RecordView) :=
  match ConsumeClaim k with
  | (k, inr status) => (k, status, None)
  | (k, inl claim) =>
      let '(k, seen) := ConsumeRecord has_consumer claim k in
      let k := ConsumeAcknowledge claim k in
      (TryFinishRetirement (ProducerLanes.con_producer_index_ claim) k, kRecord, seen)
  end.

(** ** Snapshots *)

Record KernelSnapshot := {
  snap_attempted_records : Z;
  snap_accepted_records : Z;
  snap_consumed_records : Z;
  snap_rejected_no_producer : Z;
  snap_rejected_lane_full : Z;
  snap_rejected_budget : Z;
  snap_abandoned_builds : Z;
  snap_invalid_records : Z;
  snap_truncated_records : Z;
  snap_retained_records : Z;
  snap_logical_retained_bytes : Z;
  snap_physical_retained_bytes : Z;
  snap_payload_capacity_bytes : Z;
  snap_fixed_backing_bytes : Z;
  snap_active_producer_slots : Z;
  snap_retiring_producer_slots : Z;
  snap_accounting_sample_consistent : bool;
}.

(** [sizeof(record::RecordSlot)]: the bytes, the state and its padding. *)
Definition sizeof_RecordSlot : Z := kMaximumRecordBytes + kAccountingQuantumBytes.

Definition counters_at (k : Impl) (slot : nat) : ProducerCounters :=
  default zero_counters (counters k !! slot).

Definition missing_at (shard : nat) (k : Impl) : Z := default 0 (missing_producer_counters k !! shard).

(** What the loop over the producer slots has summed. *)
Record SlotTotals := {
  sum_lane_full : Z;
  sum_budget : Z;
  sum_abandoned : Z;
  sum_invalid : Z;
  sum_truncated : Z;
  sum_active : Z;
  sum_retiring : Z;
}.

Definition zero_totals : SlotTotals :=
  {| sum_lane_full := 0; sum_budget := 0; sum_abandoned := 0; sum_invalid := 0;
     sum_truncated := 0; sum_active := 0; sum_retiring := 0 |}.

(** The iterations for [slots], each with its six loads. *)
Fixpoint SumSlots (slots : list nat) (t : SlotTotals) : Sampling Impl SlotTotals :=
  match slots with
  | [] => mret t
  | slot :: slots =>
      lane_full ← load (fun k => rejected_lane_full (counters_at k slot));
      budget ← load (fun k => rejected_budget (counters_at k slot));
      abandoned ← load (fun k => abandoned_builds (counters_at k slot));
      invalid ← load (fun k => invalid_records (counters_at k slot));
      truncated ← load (fun k => truncated_records (counters_at k slot));
      state ← load (fun k => control_state (control_at k slot));
      SumSlots slots
        {| sum_lane_full := sum_lane_full t +w lane_full;
           sum_budget := sum_budget t +w budget;
           sum_abandoned := sum_abandoned t +w abandoned;
           sum_invalid := sum_invalid t +w invalid;
           sum_truncated := sum_truncated t +w truncated;
           sum_active :=
             match state with kActive => sum_active t +w 1 | _ => sum_active t end;
           sum_retiring :=
             match state with
             | kRetiring | kReconciling => sum_retiring t +w 1
             | _ => sum_retiring t
             end |}
  end.

(** What is computed from the loads. *)
Definition SummarizeLoads (c : KernelConfig) (accepted consumed no_producer : Z) (t : SlotTotals)
    (validation_errors : Z) (l : CreditLedger.Snapshot) : KernelSnapshot :=
  {| snap_attempted_records :=
       accepted +w no_producer +w sum_lane_full t +w sum_budget t +w sum_abandoned t
       +w sum_invalid t;
     snap_accepted_records := accepted;
     snap_consumed_records := consumed;
     snap_rejected_no_producer := no_producer;
     snap_rejected_lane_full := sum_lane_full t;
     snap_rejected_budget := sum_budget t;
     snap_abandoned_builds := sum_abandoned t;
     snap_invalid_records := sum_invalid t +w validation_errors;
     snap_truncated_records := sum_truncated t;
     snap_retained_records := if consumed <=? accepted then accepted -w consumed else 0;
     snap_logical_retained_bytes := CreditLedger.logical_retained_bytes l;
     snap_physical_retained_bytes := CreditLedger.physical_retained_bytes l;
     snap_payload_capacity_bytes := payload_capacity_bytes c;
     snap_fixed_backing_bytes := w64 (Z.of_nat (ingress_cells c) * sizeof_RecordSlot);
     snap_active_producer_slots := sum_active t;
     snap_retiring_producer_slots := sum_retiring t;
     snap_accounting_sample_consistent := CreditLedger.sample_consistent l |}.

(** The loads in the order of the code; other threads run between them. *)
Definition GetSnapshot : Sampling Impl KernelSnapshot :=
  accepted ← load (fun k => ProducerLanes.AcceptedCount (lanes k));
  consumed ← load consumed_records;
  c ← load config;
  no_producer ← sum_loads missing_at (seq 0 kMaximumProducerSlots) 0;
  t ← SumSlots (seq 0 (producer_slots c)) zero_totals;
  validation_errors ← load consumer_validation_errors;
  l ← within ledger CreditLedger.GetSnapshot;
  mret (SummarizeLoads c accepted consumed no_producer t validation_errors l).
