(* ===== verification/KernelWorld.v ===== *)
(** * The producer kernel under interleaving

    [kernel_step] interleaves the pieces of [ProducerKernel.v]: any number of threads
    publish, register and retire while one consumer takes records. A [World] is the
    kernel, the publications and the consumption in flight, and the history of
    admissions. Its lanes and its ledger are systems of [ProducerLanes.v] and
    [CreditLedger.v], whose invariants are used here; [world_inv] adds what ties them to
    the cells of the kernel. *)
From stdpp Require Import gmap relations.
From S2P Require Import Prelude KernelTypes ThreadRegistry ProducerKernel.
From S2P Require CreditLedger ProducerLanes RecordLayout RecordStorage.
#[local] Open Scope Z_scope.
#[local] Open Scope ulog_scope.

(** ** The world *)

(** Where a publication stands, from its claim to its end. *)
Inductive phase :=
| PClaimed (claim : ProducerLanes.PublicationClaim)
| PChecked (claim : ProducerLanes.PublicationClaim) (cell : nat)
| PReserved (claim : ProducerLanes.PublicationClaim) (cell : nat)
    (reservation : CreditLedger.Reservation)
| PBuilt (claim : ProducerLanes.PublicationClaim) (cell : nat)
    (reservation : CreditLedger.Reservation) (timestamp : Z) (stored : RecordStorage.StoredRecord)
| PFilled (claim : ProducerLanes.PublicationClaim) (cell : nat) (timestamp : Z)
    (stored : RecordStorage.StoredRecord) (handle : ProducerLanes.RecordHandle)
| PAllocated (claim : ProducerLanes.PublicationClaim) (timestamp : Z)
    (stored : RecordStorage.StoredRecord) (handle : ProducerLanes.RecordHandle) (sequence : Z)
| PLeaving (claim : ProducerLanes.PublicationClaim).

Record Publishing := { p_call : PublishCall; p_phase : phase }.

(** An admission: the call it came from and the time it read. *)
Record Admission := { a_call : PublishCall; a_timestamp : Z }.

(** A publication that was refused: its call, unless the thread had no registration to call
    with, the shard or the slot it was counted at, and what was returned. *)
Record Rejection := { r_call : option PublishCall; r_index : nat; r_return : PublishReturn }.

(** The refusal of a call: a missing producer is counted at the shard of the thread, anything
    else at the slot of the call. *)
Definition rejection (shard : nat) (call : PublishCall) (ret : PublishReturn) : Rejection :=
  {| r_call := Some call;
     r_index := match ret with
                | Returned {| outcome := kNoProducerSlot |} => shard
                | _ => call_slot call
                end;
     r_return := ret |}.

Record World := {
  impl : Impl;
  history : list ProducerLanes.entry;
  admissions : list Admission;
  delivered : list ProducerLanes.Envelope;
  publishing : gmap nat Publishing;
  consuming : option (ProducerLanes.ConsumptionClaim * bool);
  seen : list (Z * RecordStorage.RecordView);
  rejections : list Rejection;
  entered : list PublishCall;
  drained_checks : list nat;
  taken : list (nat * Z);
}.

#[export] Instance World_eta : Eta World := fun w =>
  {| impl := impl w; history := history w; admissions := admissions w; delivered := delivered w;
     publishing := publishing w; consuming := consuming w; seen := seen w;
     rejections := rejections w; entered := entered w; drained_checks := drained_checks w;
     taken := taken w |}.

Definition initial_world (c : KernelConfig) : World :=
  {| impl := MakeImpl c; history := []; admissions := []; delivered := []; publishing := ∅;
     consuming := None; seen := []; rejections := []; entered := []; drained_checks := [];
     taken := [] |}.

Definition refusals (w : World) : list PublishReturn := r_return <$> rejections w.

Lemma refusals_snoc w w' r :
  rejections w' = rejections w ++ [r] -> refusals w' = refusals w ++ [r_return r].
Proof. unfold refusals. intros ->. by rewrite fmap_app. Qed.

(** The values the types of the arguments allow. *)
Record call_ok (gc : Z -> option (list byte)) (call : PublishCall) : Prop := {
  co_level : 0 <= call_level call < 256;
  co_source : RecordStorage.source_ok (call_source call);
  co_calls : forall builder, call_operation call = Some builder ->
    Forall (RecordStorage.op_ok gc) (build_calls builder);
}.

Section World.
Context (gc : Z -> option (list byte)).

(** A piece of the publication in slot [p] by a thread with [shard] ends: it goes on, or it
    leaves with what it counted. *)
Definition settle {X} (shard p : nat) (call : PublishCall) (claim : ProducerLanes.PublicationClaim)
    (next : X -> phase) (out : Impl * (X + PublishReturn)) (w : World) : World :=
  match out with
  | (k, inl x) =>
      w <| impl := k |> <| publishing ::= <[p := {| p_call := call; p_phase := next x |}]> |>
  | (k, inr ret) =>
      w <| impl := k |>
        <| publishing ::= <[p := {| p_call := call; p_phase := PLeaving claim |}]> |>
        <| rejections ::= fun rs => rs ++ [rejection shard call ret] |>
  end.

Definition on_claim (call : PublishCall) (w : World) : World :=
  match PublishClaim call (impl w) with
  | (k, inl claim) =>
      w <| impl := k |>
        <| publishing ::= <[call_slot call := {| p_call := call; p_phase := PClaimed claim |}]> |>
  | (k, inr ret) => w <| impl := k |> <| rejections ::= fun rs => rs ++ [rejection 0 call ret] |>
  end.

(** The admission enters the history when its sequence is allocated. *)
Definition on_allocate (p : nat) (call : PublishCall) claim cell timestamp stored handle (w : World)
    : World :=
  let out := PublishAllocate call claim handle cell (impl w) in
  let w' := settle 0 p call claim (PAllocated claim timestamp stored handle) out w in
  match out with
  | (_, inl _) =>
      w' <| history ::= fun h => h ++ [{| ProducerLanes.e_producer := p;
                                          ProducerLanes.e_record := handle;
                                          ProducerLanes.e_visible := false |}] |>
         <| admissions ::= fun a => a ++ [{| a_call := call; a_timestamp := timestamp |}] |>
  | (_, inr _) => w'
  end.

Definition on_finish (p : nat) (call : PublishCall) claim (stored : RecordStorage.StoredRecord) handle
    sequence (w : World) : World :=
  w <| impl := (PublishFinish call claim handle sequence (RecordStorage.sr_truncated stored)
                  (impl w)).1 |>
    <| history ::= alter ProducerLanes.mark_visible (Z.to_nat sequence) |>
    <| publishing ::= delete p |>.

Definition on_consume_claim (w : World) : World :=
  match ConsumeClaim (impl w) with
  | (k, inl claim) => w <| impl := k |> <| consuming := Some (claim, false) |>
  | (k, inr _) => w <| impl := k |>
  end.

(** Every consumer passes a callback. *)
Definition on_consume_record (claim : ProducerLanes.ConsumptionClaim) (w : World) : World :=
  let '(k, call) := ConsumeRecord true claim (impl w) in
  w <| impl := k |> <| consuming := Some (claim, true) |>
    <| seen ::= fun s => s ++ option_list call |>.

Definition on_acknowledge (claim : ProducerLanes.ConsumptionClaim) (w : World) : World :=
  w <| impl ::= ConsumeAcknowledge claim |> <| consuming := None |>
    <| delivered ::= fun d => d ++ [ProducerLanes.envelope_ claim] |>.

(** A slot that was free is taken with its generation, whatever follows. *)
Definition on_acquire (slot : nat) (w : World) : World :=
  let free := bool_decide (control_state (control_at (impl w) slot) = kFree) in
  let gen := control_generation (control_at (impl w) slot) in
  w <| impl := (AcquireSlot slot (impl w)).1 |>
    <| taken ::= fun t => if free then t ++ [(slot, gen)] else t |>.

Inductive kernel_step : World -> World -> Prop :=
| st_missing shard w :
    (shard < kMaximumProducerSlots)%nat ->
    kernel_step w (w <| impl ::= CountMissingProducer shard |>
                     <| rejections ::= fun rs => rs ++ [{| r_call := None; r_index := shard;
                                                            r_return := refused kNoProducerSlot |}] |>)
| st_enter call w :
    call_ok gc call -> IsActive (call_slot call) (call_generation call) (impl w) = true ->
    kernel_step w (w <| entered ::= cons call |>)
| st_claim call rest w :
    entered w ≡ₚ call :: rest ->
    kernel_step w (on_claim call (w <| entered := rest |>))
| st_recheck p call claim shard w :
    publishing w !! p = Some {| p_call := call; p_phase := PClaimed claim |} ->
    (shard < kMaximumProducerSlots)%nat ->
    kernel_step w (settle shard p call claim (PChecked claim) (PublishRecheck shard call claim (impl w)) w)
| st_reserve p call claim cell n w :
    publishing w !! p = Some {| p_call := call; p_phase := PChecked claim cell |} ->
    kernel_step w (settle 0 p call claim (PReserved claim cell) (PublishReserve n call (impl w)) w)
| st_build p call claim cell reservation timestamp w :
    publishing w !! p = Some {| p_call := call; p_phase := PReserved claim cell reservation |} ->
    RecordLayout.is_s64 timestamp ->
    kernel_step w (settle 0 p call claim (PBuilt claim cell reservation timestamp)
                     (PublishBuild gc timestamp call cell reservation (impl w)) w)
| st_commit p call claim cell reservation timestamp stored w :
    publishing w !! p
      = Some {| p_call := call; p_phase := PBuilt claim cell reservation timestamp stored |} ->
    kernel_step w (settle 0 p call claim (PFilled claim cell timestamp stored)
                     (PublishCommit call cell reservation stored (impl w)) w)
| st_allocate p call claim cell timestamp stored handle w :
    publishing w !! p
      = Some {| p_call := call; p_phase := PFilled claim cell timestamp stored handle |} ->
    kernel_step w (on_allocate p call claim cell timestamp stored handle w)
| st_finish p call claim timestamp stored handle sequence w :
    publishing w !! p
      = Some {| p_call := call; p_phase := PAllocated claim timestamp stored handle sequence |} ->
    kernel_step w (on_finish p call claim stored handle sequence w)
| st_leave p call claim w :
    publishing w !! p = Some {| p_call := call; p_phase := PLeaving claim |} ->
    kernel_step w (w <| impl ::= PublishLeave claim |> <| publishing ::= delete p |>)
| st_consume_claim w : kernel_step w (on_consume_claim w)
| st_consume_record claim w :
    consuming w = Some (claim, false) -> kernel_step w (on_consume_record claim w)
| st_acknowledge claim w :
    consuming w = Some (claim, true) -> kernel_step w (on_acknowledge claim w)
| st_drained slot w :
    RetirementReady slot (impl w) = true -> kernel_step w (w <| drained_checks ::= cons slot |>)
| st_finish_retirement slot rest w :
    drained_checks w ≡ₚ slot :: rest ->
    kernel_step w (w <| impl ::= FinishRetirement slot |> <| drained_checks := rest |>)
| st_acquire slot w :
    (slot < producer_slots (config (impl w)))%nat -> kernel_step w (on_acquire slot w)
| st_retire_lifetime slot generation w :
    kernel_step w (w <| impl ::= RetireLifetime slot generation |>)
| st_retire_slot slot generation w :
    kernel_step w (w <| impl := (RetireSlot slot generation (impl w)).1 |>)
| st_set_level value w : kernel_step w (w <| impl ::= SetLevel value |>)
| st_close w : kernel_step w (w <| impl ::= CloseAdmission |>).
End World.

(** ** The systems inside the world *)

Definition lane_phase (ph : phase) : ProducerLanes.pub_phase :=
  match ph with
  | PClaimed c | PChecked c _ | PReserved c _ _ | PBuilt c _ _ _ _ | PFilled c _ _ _ _
  | PLeaving c => ProducerLanes.Claimed c
  | PAllocated c _ _ h q => ProducerLanes.Allocated c h q
  end.

Definition lane_system (w : World) : ProducerLanes.System :=
  {| ProducerLanes.lanes := lanes (impl w);
     ProducerLanes.history := history w;
     ProducerLanes.publications := (lane_phase ∘ p_phase) <$> publishing w;
     ProducerLanes.consumption := fst <$> consuming w;
     ProducerLanes.delivered := delivered w |}.

Definition phase_reservation (ph : phase) : option CreditLedger.Reservation :=
  match ph with
  | PReserved _ _ r | PBuilt _ _ r _ _ => Some r
  | _ => None
  end.

Definition reservations_of (m : gmap nat Publishing) : list CreditLedger.Reservation :=
  omap (phase_reservation ∘ p_phase ∘ snd) (map_to_list m).

Definition ledger_system (w : World) : CreditLedger.LedgerState :=
  {| CreditLedger.ledger := ledger (impl w);
     CreditLedger.reservations := reservations_of (publishing w);
     CreditLedger.ownerships := omap id (ownerships (impl w)) |}.

(** ** The invariant *)

Record kernel_config_ok (c : KernelConfig) : Prop := {
  kc_record : kMinimumRecordBytes <= maximum_record_bytes c <= kMaximumRecordBytes;
  kc_record_aligned : maximum_record_bytes c mod kAccountingQuantumBytes = 0;
  kc_payload : maximum_record_bytes c <= payload_capacity_bytes c <= size_max;
  kc_slots : (1 <= producer_slots c <= kMaximumProducerSlots)%nat;
  kc_cells : (producer_slots c <= ingress_cells c <= kMaximumIngressCells)%nat;
}.

Definition lane_shape (l : ProducerLanes.ProducerLanes) : list (nat * nat) :=
  (fun lane => (ProducerLanes.offset lane, ProducerLanes.capacity lane)) <$> ProducerLanes.lanes_ l.

Record impl_ok (k : Impl) : Prop := {
  io_config : kernel_config_ok (config k);
  io_count : ProducerLanes.producer_count_ (lanes k) = producer_slots (config k);
  io_shape : lane_shape (lanes k)
    = lane_shape (ProducerLanes.MakeProducerLanes (producer_slots (config k))
                    (ingress_cells (config k)));
  io_ledger_count : CreditLedger.producer_count_ (ledger k) = producer_slots (config k);
  io_capacity : CreditLedger.capacity_bytes_ (ledger k) = payload_capacity_bytes (config k);
  io_slots : length (record_slots k) = ingress_cells (config k);
  io_records : length (records k) = kMaximumIngressCells;
  io_ownerships : length (ownerships k) = kMaximumIngressCells;
  io_generations : length (record_generations k) = kMaximumIngressCells;
}.

(** A cell that holds nothing. *)
Definition cell_free (k : Impl) (cell : nat) : Prop :=
  exists s, record_slots k !! cell = Some s
    /\ RecordStorage.state_ s = RecordStorage.kReset
    /\ zlen (RecordStorage.storage_ s) = kMaximumRecordBytes
    /\ ownerships k !! cell = Some None.

Section Invariant.
Context (gc : Z -> option (list byte)).

(** The draft a call means, and the record of it. *)
Definition call_draft (maximum : Z) (call : PublishCall) (timestamp : Z)
    : option (RecordStorage.Draft * bool) :=
  match call_operation call with
  | Some builder =>
      RecordStorage.drafted gc maximum (call_level call) (call_source call) timestamp
        (build_calls builder)
  | None => None
  end.

#[export] Instance begin_accepts_dec limit lvl source :
  Decision (RecordStorage.begin_accepts limit lvl source).
Proof. unfold RecordStorage.begin_accepts. apply _. Defined.

(** What the builder of a call comes to: the draft to publish, or the refusal. *)
Definition call_result (maximum : Z) (call : PublishCall) (timestamp : Z)
    : (RecordStorage.Draft * bool) + PublishReturn :=
  match call_operation call with
  | Some builder =>
      if decide (RecordStorage.begin_accepts maximum (call_level call) (call_source call)) then
        match build_end builder with
        | BuildThrows => inr Threw
        | BuildReturns kInvalid => inr (refused kInvalidRecord)
        | BuildReturns kComplete =>
            match call_draft maximum call timestamp with
            | Some published => inl published
            | None => inr (refused kInvalidRecord)
            end
        end
      else inr (refused kInvalidRecord)
  | None => inr (refused kInvalidRecord)
  end.

(** A cell whose slot holds the published record of a call. *)
Definition cell_stores (k : Impl) (cell : nat) (call : PublishCall) (timestamp : Z)
    (stored : RecordStorage.StoredRecord) : Prop :=
  exists s d t, record_slots k !! cell = Some s
    /\ call_draft (maximum_record_bytes (config k)) call timestamp = Some (d, t)
    /\ stored = RecordStorage.stored_record d t
    /\ RecordStorage.published s d t
    /\ zlen (RecordStorage.storage_ s) = kMaximumRecordBytes.

Definition cell_built (k : Impl) (cell : nat) (call : PublishCall) (timestamp : Z)
    (stored : RecordStorage.StoredRecord) : Prop :=
  cell_stores k cell call timestamp stored /\ ownerships k !! cell = Some None
  /\ RecordStorage.sr_serialized_bytes stored <= maximum_record_bytes (config k)
  /\ RecordStorage.sr_accounting_charge_bytes stored <= maximum_record_bytes (config k).

(** The ownership and the handle of a stored record. *)
Definition owns (p : nat) (stored : RecordStorage.StoredRecord) : CreditLedger.Ownership :=
  {| CreditLedger.own_ledger_ := true; CreditLedger.own_producer_index_ := p;
     CreditLedger.retained_bytes_ := RecordStorage.sr_serialized_bytes stored;
     CreditLedger.own_charge_bytes_ := RecordStorage.sr_accounting_charge_bytes stored |}.

Definition handle_of (cell p : nat) (gen : Z) (stored : RecordStorage.StoredRecord)
    : ProducerLanes.RecordHandle :=
  {| ProducerLanes.slot_index := cell; ProducerLanes.producer_index := p;
     ProducerLanes.generation := gen;
     ProducerLanes.serialized_bytes := RecordStorage.sr_serialized_bytes stored;
     ProducerLanes.accounting_charge_bytes := RecordStorage.sr_accounting_charge_bytes stored |}.

(** A cell that is filled: the record, its ownership and its generation agree with the
    handle that names it. *)
Definition cell_filled (k : Impl) (p : nat) (call : PublishCall) (timestamp : Z)
    (handle : ProducerLanes.RecordHandle) : Prop :=
  let cell := ProducerLanes.slot_index handle in
  exists stored gen, cell_stores k cell call timestamp stored
    /\ records k !! cell = Some stored
    /\ ownerships k !! cell = Some (Some (owns p stored))
    /\ record_generations k !! cell = Some gen
    /\ handle = handle_of cell p gen stored.

Definition phase_claim (ph : phase) : ProducerLanes.PublicationClaim :=
  ProducerLanes.phase_claim (lane_phase ph).

Definition phase_ok (k : Impl) (p : nat) (call : PublishCall) (ph : phase) : Prop :=
  let own := ProducerLanes.cell_index_ (phase_claim ph) in
  match ph with
  | PClaimed _ | PLeaving _ => cell_free k own
  | PChecked _ cell => cell = own /\ cell_free k own
  | PReserved _ cell r =>
      cell = own /\ cell_free k own
      /\ CreditLedger.res_producer_index_ r = p
      /\ CreditLedger.requested_bytes_ r = maximum_record_bytes (config k)
  | PBuilt _ cell r ts stored =>
      cell = own /\ cell_built k own call ts stored
      /\ CreditLedger.res_producer_index_ r = p
      /\ CreditLedger.requested_bytes_ r = maximum_record_bytes (config k)
  | PFilled _ cell ts stored handle =>
      cell = own /\ ProducerLanes.slot_index handle = own /\ cell_filled k p call ts handle
  | PAllocated _ _ _ _ _ => True
  end.

Record publishing_ok (k : Impl) (p : nat) (pub : Publishing) : Prop := {
  po_slot : call_slot (p_call pub) = p;
  po_call : call_ok gc (p_call pub);
  po_phase : phase_ok k p (p_call pub) (p_phase pub);
}.

(** The record the consumer has already emptied, not yet acknowledged. *)
Definition emptied (w : World) : bool :=
  match consuming w with Some (_, true) => true | _ => false end.

(** Admissions whose cell is still full. *)
Definition queued (w : World) (n : nat) : Prop :=
  (length (delivered w) <= n)%nat /\ ~ (emptied w = true /\ n = length (delivered w)).

(** A cell is used by a publication or by an admission that was not acknowledged. *)
Definition in_use (w : World) (cell : nat) : Prop :=
  (exists p pub, publishing w !! p = Some pub
     /\ ProducerLanes.cell_index_ (phase_claim (p_phase pub)) = cell)
  \/ (exists n e, (length (delivered w) <= n)%nat /\ history w !! n = Some e
        /\ ProducerLanes.slot_index (ProducerLanes.e_record e) = cell).

(** What the consumer saw of the [n]-th admission. *)
Definition saw (maximum : Z) (a : Admission) (n : nat) (s : Z * RecordStorage.RecordView) : Prop :=
  s.1 = Z.of_nat n
  /\ exists d t, call_draft maximum (a_call a) (a_timestamp a) = Some (d, t)
       /\ RecordStorage.shows_record s.2 d t.

Record cells_inv (w : World) : Prop := {
  ci_publishing : forall p pub, publishing w !! p = Some pub -> publishing_ok (impl w) p pub;
  ci_queued : forall n e, history w !! n = Some e -> queued w n ->
    exists a, admissions w !! n = Some a
      /\ cell_filled (impl w) (ProducerLanes.e_producer e) (a_call a) (a_timestamp a)
           (ProducerLanes.e_record e);
  ci_emptied : forall claim, consuming w = Some (claim, true) ->
    cell_free (impl w)
      (ProducerLanes.slot_index (ProducerLanes.record (ProducerLanes.envelope_ claim)));
  ci_free : forall cell, (cell < ingress_cells (config (impl w)))%nat ->
    cell_free (impl w) cell \/ in_use w cell;
  ci_distinct : forall m n e e', (length (delivered w) <= m < n)%nat ->
    history w !! m = Some e -> history w !! n = Some e' ->
    ProducerLanes.slot_index (ProducerLanes.e_record e)
    <> ProducerLanes.slot_index (ProducerLanes.e_record e');
}.

Record seen_inv (w : World) : Prop := {
  si_length : length (seen w) = (length (delivered w) + if emptied w then 1 else 0)%nat;
  si_seen : forall n s, seen w !! n = Some s ->
    exists a, admissions w !! n = Some a /\ saw (maximum_record_bytes (config (impl w))) a n s;
  si_errors : consumer_validation_errors (impl w) = 0;
  si_consumed : consumed_records (impl w) = w64 (zlen (seen w));
  si_admissions : length (admissions w) = length (history w);
  si_entered : forall call, call ∈ entered w -> call_ok gc call;
}.

Record world_inv (w : World) : Prop := {
  wi_impl : impl_ok (impl w);
  wi_lanes : ProducerLanes.lanes_inv (lane_system w);
  wi_ledger : CreditLedger.ledger_inv (ledger_system w);
  wi_cells : cells_inv w;
  wi_seen : seen_inv w;
}.
End Invariant.

(** ** Lemmas: tokens in flight *)

Lemma reservations_split m p pub :
  m !! p = Some pub ->
  reservations_of m
  ≡ₚ option_list (phase_reservation (p_phase pub)) ++ reservations_of (delete p m).
Proof.
  intros Hp. unfold reservations_of. rewrite <- (insert_delete_id m p pub Hp) at 1.
  rewrite map_to_list_insert by apply lookup_delete_eq. simpl.
  by destruct (phase_reservation (p_phase pub)).
Qed.

Lemma reservations_insert m p pub :
  reservations_of (<[p := pub]> m)
  ≡ₚ option_list (phase_reservation (p_phase pub)) ++ reservations_of (delete p m).
Proof.
  rewrite (reservations_split (<[p := pub]> m) p pub) by apply lookup_insert_eq.
  by rewrite delete_insert_eq.
Qed.

Lemma ownerships_insert (l : list (option CreditLedger.Ownership)) c o o' :
  l !! c = Some o ->
  exists rest, omap id l ≡ₚ option_list o ++ rest /\ omap id (<[c := o']> l) ≡ₚ option_list o' ++ rest.
Proof.
  intros Hc. exists (omap id (take c l) ++ omap id (drop (S c) l)).
  assert (forall x : option CreditLedger.Ownership,
    omap id (take c l ++ x :: drop (S c) l)
    ≡ₚ option_list x ++ omap id (take c l) ++ omap id (drop (S c) l)) as Hsplit.
  { intros x. rewrite omap_app. destruct x; simpl; solve_Permutation. }
  split; rewrite <- Hsplit.
  - by rewrite take_drop_middle.
  - by rewrite insert_take_drop by (by eapply lookup_lt_Some).
Qed.

(** ** Lemmas: the shape of the lanes is fixed *)

Lemma shape_on_lane f p l :
  (forall x, ProducerLanes.offset (f x) = ProducerLanes.offset x
             /\ ProducerLanes.capacity (f x) = ProducerLanes.capacity x) ->
  lane_shape (ProducerLanes.on_lane f p l) = lane_shape l.
Proof.
  intros Hf. unfold lane_shape. apply list_eq. intros i.
  rewrite !list_lookup_fmap, ProducerLanes.lookup_on_lane. case_decide; [|done].
  destruct (ProducerLanes.lanes_ l !! i) as [x|]; [|done]. simpl. by destruct (Hf x) as [-> ->].
Qed.

(** ** Lemmas: what a change of the kernel leaves alone *)

Record same_at (k k' : Impl) (cell : nat) : Prop := {
  sa_slot : record_slots k' !! cell = record_slots k !! cell;
  sa_record : records k' !! cell = records k !! cell;
  sa_ownership : ownerships k' !! cell = ownerships k !! cell;
  sa_generation : record_generations k' !! cell = record_generations k !! cell;
}.

(** Everything but what the counters and the producer slots are. *)
Record quiet (k k' : Impl) : Prop := {
  qu_config : config k' = config k;
  qu_lanes : lanes k' = lanes k;
  qu_ledger : ledger k' = ledger k;
  qu_slots : record_slots k' = record_slots k;
  qu_records : records k' = records k;
  qu_ownerships : ownerships k' = ownerships k;
  qu_generations : record_generations k' = record_generations k;
  qu_consumed : consumed_records k' = consumed_records k;
  qu_errors : consumer_validation_errors k' = consumer_validation_errors k;
}.

#[export] Instance quiet_preorder : PreOrder quiet.
Proof. split; [done|]. intros x y z [] []. split; congruence. Qed.

Lemma quiet_same_at k k' cell : quiet k k' -> same_at k k' cell.
Proof. intros []. split; congruence. Qed.

Lemma quiet_notify k : quiet k (Notify k).
Proof. unfold Notify. by case_ifs. Qed.

Lemma cell_free_same k k' cell : same_at k k' cell -> cell_free k cell -> cell_free k' cell.
Proof. intros [] (s & ? & ? & ? & ?). exists s. split_and!; congruence. Qed.

Section Frame.
Context (gc : Z -> option (list byte)) (k k' : Impl) (Hconfig : config k' = config k).

Lemma cell_stores_same cell call ts stored :
  same_at k k' cell -> cell_stores gc k cell call ts stored -> cell_stores gc k' cell call ts stored.
Proof.
  intros [] (s & d & t & ? & ? & ? & ? & ?). exists s, d, t. rewrite Hconfig. split_and!; congruence.
Qed.

Lemma cell_filled_same p call ts handle :
  same_at k k' (ProducerLanes.slot_index handle) ->
  cell_filled gc k p call ts handle -> cell_filled gc k' p call ts handle.
Proof.
  intros Hs (stored & gen & Hst & ? & ? & ? & ?). exists stored, gen.
  split; [by apply cell_stores_same|]. destruct Hs. split_and!; congruence.
Qed.

Lemma phase_ok_same p call ph :
  same_at k k' (ProducerLanes.cell_index_ (phase_claim ph)) ->
  phase_ok gc k p call ph -> phase_ok gc k' p call ph.
Proof.
  intros Hs. pose proof (cell_free_same k k' _ Hs) as Hfree.
  destruct ph; cbn [phase_ok phase_claim lane_phase] in *; rewrite ?Hconfig; try by auto.
  - by intros [? ?%Hfree].
  - intros (? & ?%Hfree & ? & ?). done.
  - intros (? & (Hst & ? & ? & ?) & ? & ?). split_and!; try done. unfold cell_built.
    rewrite Hconfig. split_and!; try done; [by apply cell_stores_same|].
    by rewrite (sa_ownership _ _ _ Hs).
  - intros (? & Hi & Hf). split_and!; try done. apply cell_filled_same; [|done].
    cbn in Hi, Hs. by rewrite Hi.
Qed.

Lemma publishing_ok_same p pub :
  same_at k k' (ProducerLanes.cell_index_ (phase_claim (p_phase pub))) ->
  publishing_ok gc k p pub -> publishing_ok gc k' p pub.
Proof. intros Hs []. split; try done. by apply phase_ok_same. Qed.
End Frame.

(** ** Lemmas: the cells of a world *)

Section Cells.
Context (gc : Z -> option (list byte)).

(** The cells do not change, and nothing the cells depend on does. *)
Lemma cells_inv_same w w' :
  cells_inv gc w -> config (impl w') = config (impl w) ->
  (forall cell, same_at (impl w) (impl w') cell) ->
  history w' = history w -> admissions w' = admissions w -> delivered w' = delivered w ->
  publishing w' = publishing w -> consuming w' = consuming w -> cells_inv gc w'.
Proof.
  intros [Hpub Hq He Hf Hd] Hc Hs Hh Ha Hdl Hp Hcon.
  assert (emptied w' = emptied w) as Hem by (unfold emptied; by rewrite Hcon).
  assert (forall cell, in_use w cell -> in_use w' cell) as Huse.
  { intros cell. unfold in_use. by rewrite Hp, Hdl, Hh. }
  split.
  - intros p pub. rewrite Hp. intros Hlk. eapply publishing_ok_same; eauto.
  - intros n e. unfold queued. rewrite Hh, Hdl, Hem, Ha. intros Hn Hqu.
    destruct (Hq n e Hn Hqu) as (a & ? & ?). exists a. split; [done|].
    by eapply cell_filled_same.
  - intros claim. rewrite Hcon. intros Hcl. eapply cell_free_same; eauto.
  - intros cell. rewrite Hc. intros Hlt. destruct (Hf cell Hlt) as [|]; [left|right; auto].
    by eapply cell_free_same.
  - rewrite Hdl, Hh. done.
Qed.

(** The cell of a publication against the other cells in use. *)
Lemma own_cell_alone w p pub :
  ProducerLanes.lanes_inv (lane_system w) -> zlen (history w) < 2 ^ 64 ->
  publishing w !! p = Some pub ->
  let own := ProducerLanes.cell_index_ (phase_claim (p_phase pub)) in
  (forall q pub', q <> p -> publishing w !! q = Some pub' ->
     ProducerLanes.cell_index_ (phase_claim (p_phase pub')) <> own)
  /\ (forall n e, history w !! n = Some e -> (length (delivered w) <= n)%nat ->
        ProducerLanes.slot_index (ProducerLanes.e_record e) = own ->
        exists c ts stored h q, p_phase pub = PAllocated c ts stored h q
          /\ ProducerLanes.e_producer e = p /\ ProducerLanes.e_visible e = false).
Proof.
  intros Hinv Hlen Hp own.
  assert (forall q pub', publishing w !! q = Some pub' ->
    ProducerLanes.publications (lane_system w) !! q = Some (lane_phase (p_phase pub'))) as Hlk.
  { intros q pub' Hq. cbn [lane_system ProducerLanes.publications]. by rewrite lookup_fmap, Hq. }
  destruct (ProducerLanes.claimed_cell_unused _ p _ Hinv Hlen (Hlk p pub Hp)) as [Hused Hother].
  split.
  - intros q pub' Hne Hq. apply (Hother q _ Hne (Hlk q pub' Hq)).
  - intros n e Hn Hge Heq. destruct (Hused n e Hn Hge Heq) as [He Hv].
    destruct (ProducerLanes.ln_history _ Hinv n e Hn) as [_ Hinvis].
    destruct (Hinvis Hv) as [c Hc]. rewrite He, (Hlk p pub Hp) in Hc.
    destruct (p_phase pub) as [| | | | |c' ts st h q|] eqn:Hph; simplify_eq/=.
    by exists c, ts, st, (ProducerLanes.e_record e), (Z.of_nat n).
Qed.

(** The record under consumption is the next admission. *)
Lemma consuming_entry w claim b :
  ProducerLanes.lanes_inv (lane_system w) -> consuming w = Some (claim, b) ->
  exists e, history w !! length (delivered w) = Some e /\ ProducerLanes.e_visible e = true
    /\ ProducerLanes.con_owner_ claim = true
    /\ ProducerLanes.con_producer_index_ claim = ProducerLanes.e_producer e
    /\ ProducerLanes.envelope_ claim = ProducerLanes.envelope_of (length (delivered w)) e.
Proof.
  intros Hinv Hcon. pose proof (ProducerLanes.ln_consumption _ Hinv) as Hc.
  unfold ProducerLanes.consumption_holds in Hc. cbn [lane_system ProducerLanes.consumption] in Hc.
  rewrite Hcon in Hc. destruct Hc as (_ & Ho & e & lane & He & Hv & _ & Hp & Henv & _).
  by exists e.
Qed.

Definition allocated (ph : phase) : Prop :=
  match ph with PAllocated _ _ _ _ _ => True | _ => False end.

(** One publication changes its own cell. *)
Lemma cells_pub_step w w' p pub opub :
  ProducerLanes.lanes_inv (lane_system w) -> zlen (history w) < 2 ^ 64 -> cells_inv gc w ->
  publishing w !! p = Some pub -> ~ allocated (p_phase pub) ->
  config (impl w') = config (impl w) ->
  history w' = history w -> admissions w' = admissions w -> delivered w' = delivered w ->
  consuming w' = consuming w ->
  publishing w' = partial_alter (fun _ => opub) p (publishing w) ->
  let own := ProducerLanes.cell_index_ (phase_claim (p_phase pub)) in
  (forall cell, cell <> own -> same_at (impl w) (impl w') cell) ->
  match opub with
  | Some pub' =>
      ProducerLanes.cell_index_ (phase_claim (p_phase pub')) = own
      /\ publishing_ok gc (impl w') p pub'
  | None => cell_free (impl w') own
  end -> cells_inv gc w'.
Proof.
  intros Hlanes Hlen [Hpub Hq He Hf Hd] Hp Hna Hc Hh Ha Hdl Hcon Hpw own Hsame Hown.
  assert (emptied w' = emptied w) as Hem by (unfold emptied; by rewrite Hcon).
  destruct (own_cell_alone w p pub Hlanes Hlen Hp) as [Hother Hhist]. fold own in Hother, Hhist.
  assert (forall n e, history w !! n = Some e -> (length (delivered w) <= n)%nat ->
    ProducerLanes.slot_index (ProducerLanes.e_record e) <> own) as Hhist'.
  { intros n e Hn Hge Heq. destruct (Hhist n e Hn Hge Heq) as (? & ? & ? & ? & ? & Hph & _).
    by rewrite Hph in Hna. }
  split.
  - intros q pub'. rewrite Hpw. destruct (decide (p = q)) as [<-|Hne].
    + rewrite lookup_partial_alter_eq. intros ->. apply Hown.
    + rewrite lookup_partial_alter_ne by done. intros Hlk.
      eapply publishing_ok_same; [done|apply Hsame|by apply Hpub]. by eapply Hother.
  - intros n e. unfold queued. rewrite Hh, Hdl, Hem, Ha. intros Hn Hqu.
    destruct (Hq n e Hn Hqu) as (a & ? & ?). exists a. split; [done|].
    eapply cell_filled_same; [done|apply Hsame|done]. apply (Hhist' n); [done|apply Hqu].
  - intros claim. rewrite Hcon. intros Hcl. eapply cell_free_same; [apply Hsame|by apply He].
    destruct (consuming_entry w claim true Hlanes Hcl) as (e & Hn & _ & _ & _ & ->).
    by apply (Hhist' _ e Hn).
  - intros cell. rewrite Hc. intros Hlt. destruct (decide (cell = own)) as [->|Hne].
    + destruct opub as [pub'|]; [right; left|by left]. exists p, pub'.
      rewrite Hpw, lookup_partial_alter_eq. split; [done|apply Hown].
    + destruct (Hf cell Hlt) as [|[(q & pub' & Hlk & Hcell)|Hin]].
      * left. eapply cell_free_same; [by apply Hsame|done].
      * right; left. exists q, pub'. rewrite Hpw. destruct (decide (p = q)) as [<-|].
        { exfalso. apply Hne. rewrite <- Hcell. unfold own. congruence. }
        by rewrite lookup_partial_alter_ne.
      * right; right. by rewrite Hdl, Hh.
  - rewrite Hdl, Hh. done.
Qed.

(** A publication claims a cell that is free. *)
Lemma cells_claim_step w w' p pub claim :
  ProducerLanes.lanes_inv (lane_system w') -> zlen (history w') < 2 ^ 64 -> cells_inv gc w ->
  (ProducerLanes.cell_index_ claim < ingress_cells (config (impl w)))%nat ->
  publishing w !! p = None ->
  pub = {| p_call := p_call pub; p_phase := PClaimed claim |} ->
  call_slot (p_call pub) = p -> call_ok gc (p_call pub) ->
  config (impl w') = config (impl w) ->
  (forall cell, same_at (impl w) (impl w') cell) ->
  history w' = history w -> admissions w' = admissions w -> delivered w' = delivered w ->
  consuming w' = consuming w ->
  publishing w' = <[p := pub]> (publishing w) -> cells_inv gc w'.
Proof.
  intros Hlanes Hlen Hcells Hlt Hnone Hpub Hslot Hcall Hc Hsame Hh Ha Hdl Hcon Hpw.
  pose proof Hcells as [Hpubs Hq He Hf Hd].
  assert (emptied w' = emptied w) as Hem by (unfold emptied; by rewrite Hcon).
  assert (publishing w' !! p = Some pub) as Hp by (by rewrite Hpw, lookup_insert_eq).
  destruct (own_cell_alone w' p pub Hlanes Hlen Hp) as [Hother Hhist].
  rewrite Hpub in Hother, Hhist. cbn in Hother, Hhist. rewrite Hh, Hdl in Hhist.
  set (own := ProducerLanes.cell_index_ claim) in *.
  assert (cell_free (impl w) own) as Hfree.
  { destruct (Hf own Hlt) as [|[(q & pub' & Hlk & Hcell)|(n & e & Hge & Hn & Hcell)]]; [done|..].
    - exfalso. apply (Hother q pub'); [congruence| |done]. rewrite Hpw, lookup_insert_ne; congruence.
    - exfalso. by destruct (Hhist n e Hn Hge Hcell) as (? & ? & ? & ? & ? & ? & _). }
  split.
  - intros q pub'. rewrite Hpw. destruct (decide (p = q)) as [<-|Hne].
    + rewrite lookup_insert_eq. intros [= <-]. split; [done|done|]. rewrite Hpub. cbn.
      by eapply cell_free_same.
    + rewrite lookup_insert_ne by done. intros Hlk. eapply publishing_ok_same; eauto.
  - intros n e. unfold queued. rewrite Hh, Hdl, Hem, Ha. intros Hn Hqu.
    destruct (Hq n e Hn Hqu) as (a & ? & ?). exists a. split; [done|].
    by eapply cell_filled_same.
  - intros cl. rewrite Hcon. intros Hcl. eapply cell_free_same; [done|by apply He].
  - intros cell. rewrite Hc. intros Hcell. destruct (Hf cell Hcell) as [|[(q & pub' & Hlk & Hown)|Hin]].
    + left. by eapply cell_free_same.
    + right; left. exists q, pub'. rewrite Hpw. destruct (decide (p = q)) as [<-|]; [congruence|].
      by rewrite lookup_insert_ne.
    + right; right. by rewrite Hdl, Hh.
  - rewrite Hdl, Hh. done.
Qed.

(** An admission takes over the cell of its publication. *)
Lemma cells_allocate_step w w' p call claim cell ts stored handle seq :
  ProducerLanes.lanes_inv (lane_system w) -> zlen (history w) < 2 ^ 64 -> cells_inv gc w ->
  length (admissions w) = length (history w) ->
  publishing w !! p = Some {| p_call := call; p_phase := PFilled claim cell ts stored handle |} ->
  config (impl w') = config (impl w) ->
  (forall c, same_at (impl w) (impl w') c) ->
  history w' = history w ++ [{| ProducerLanes.e_producer := p; ProducerLanes.e_record := handle;
                                ProducerLanes.e_visible := false |}] ->
  admissions w' = admissions w ++ [{| a_call := call; a_timestamp := ts |}] ->
  delivered w' = delivered w -> consuming w' = consuming w ->
  publishing w' = <[p := {| p_call := call; p_phase := PAllocated claim ts stored handle seq |}]>
                    (publishing w) ->
  cells_inv gc w'.
Proof.
  intros Hlanes Hlen [Hpub Hq He Hf Hd] Hal Hp Hc Hsame Hh Ha Hdl Hcon Hpw.
  assert (emptied w' = emptied w) as Hem by (unfold emptied; by rewrite Hcon).
  destruct (own_cell_alone w p _ Hlanes Hlen Hp) as [Hother Hhist]. cbn in Hother, Hhist.
  destruct (Hpub p _ Hp) as [Hslot Hcall (-> & Hidx & Hfill)]. cbn in *.
  split.
  - intros q pub'. rewrite Hpw. destruct (decide (p = q)) as [<-|Hne].
    + rewrite lookup_insert_eq. by intros [= <-].
    + rewrite lookup_insert_ne by done. intros Hlk. eapply publishing_ok_same; eauto.
  - intros n e. unfold queued. rewrite Hh, Hdl, Hem, Ha. intros [Hn|[-> <-]]%lookup_snoc_Some Hqu.
    + destruct Hn as [Hlt Hn]. destruct (Hq n e Hn Hqu) as (a & Han & ?). exists a. split.
      * rewrite lookup_app_l; [done|]. by eapply lookup_lt_Some.
      * by eapply cell_filled_same.
    + rewrite <- Hal, lookup_app_r, Nat.sub_diag by done. eexists. split; [done|].
      by eapply cell_filled_same.
  - intros cl. rewrite Hcon. intros Hcl. eapply cell_free_same; [done|by apply He].
  - intros c. rewrite Hc. intros Hlt. destruct (Hf c Hlt) as [|[(q & pub' & Hlk & Hown)|(n & e & Hge & Hn & Hx)]].
    + left. by eapply cell_free_same.
    + right; left. destruct (decide (p = q)) as [<-|].
      * exists p. eexists. rewrite Hpw, lookup_insert_eq. split; [done|].
        rewrite Hp in Hlk. injection Hlk as <-. done.
      * exists q, pub'. by rewrite Hpw, lookup_insert_ne.
    + right; right. exists n, e. rewrite Hdl, Hh, lookup_app_l; [done|]. by eapply lookup_lt_Some.
  - rewrite Hdl, Hh. intros m n e e' Hmn Hm [[Hlt Hn]|[-> <-]]%lookup_snoc_Some.
    + rewrite lookup_app_l in Hm by lia. eauto.
    + rewrite lookup_app_l in Hm by lia. cbn. rewrite Hidx. intros Heq.
      destruct (Hhist m e Hm ltac:(lia) Heq) as (? & ? & ? & ? & ? & ? & _). done.
Qed.

Lemma lookup_mark (h : list ProducerLanes.entry) i n e :
  alter ProducerLanes.mark_visible i h !! n = Some e ->
  exists e0, h !! n = Some e0 /\ ProducerLanes.e_producer e = ProducerLanes.e_producer e0
    /\ ProducerLanes.e_record e = ProducerLanes.e_record e0.
Proof.
  rewrite lookup_alter_at. case_decide; [|by exists e].
  destruct (h !! n) as [e0|]; [|done]. intros [= <-]. by exists e0.
Qed.

Lemma mark_lookup (h : list ProducerLanes.entry) i n e0 :
  h !! n = Some e0 -> exists e, alter ProducerLanes.mark_visible i h !! n = Some e
    /\ ProducerLanes.e_producer e = ProducerLanes.e_producer e0
    /\ ProducerLanes.e_record e = ProducerLanes.e_record e0.
Proof. intros Hn. rewrite lookup_alter_at, Hn. case_decide; simpl; eauto. Qed.

(** The cell of an allocated publication is its admission's. *)
Lemma allocated_entry w p call claim ts stored handle seq :
  ProducerLanes.lanes_inv (lane_system w) ->
  publishing w !! p
    = Some {| p_call := call; p_phase := PAllocated claim ts stored handle seq |} ->
  exists n e, seq = Z.of_nat n /\ history w !! n = Some e
    /\ e = {| ProducerLanes.e_producer := p; ProducerLanes.e_record := handle;
              ProducerLanes.e_visible := false |}
    /\ (length (delivered w) <= n)%nat
    /\ ProducerLanes.slot_index handle = ProducerLanes.cell_index_ claim
    /\ ProducerLanes.PublishAllowed claim handle = true.
Proof.
  intros Hlanes Hp.
  assert (ProducerLanes.publications (lane_system w) !! p
          = Some (ProducerLanes.Allocated claim handle seq)) as Hlk.
  { cbn [lane_system ProducerLanes.publications]. by rewrite lookup_fmap, Hp. }
  destruct (ProducerLanes.ln_phase _ Hlanes _ _ Hlk) as (_ & lane & _ & _ & Hal & n & -> & Hn & _).
  cbn [lane_system ProducerLanes.history] in Hn. exists n. eexists. split_and!; [done..| | |].
  - apply Nat.nlt_ge. intros Hlt. destruct (lookup_lt_is_Some_2 _ _ Hlt) as [env Henv].
    destruct (ProducerLanes.ln_delivered _ Hlanes n env Henv) as (e & He & Hv & _).
    cbn [lane_system ProducerLanes.history] in He. rewrite Hn in He. by simplify_eq/=.
  - unfold ProducerLanes.PublishAllowed in Hal. b2p. done.
  - done.
Qed.

Lemma cells_finish_step w w' p call claim ts stored handle seq :
  ProducerLanes.lanes_inv (lane_system w) -> cells_inv gc w ->
  publishing w !! p
    = Some {| p_call := call; p_phase := PAllocated claim ts stored handle seq |} ->
  config (impl w') = config (impl w) ->
  (forall c, same_at (impl w) (impl w') c) ->
  history w' = alter ProducerLanes.mark_visible (Z.to_nat seq) (history w) ->
  admissions w' = admissions w -> delivered w' = delivered w -> consuming w' = consuming w ->
  publishing w' = delete p (publishing w) ->
  cells_inv gc w'.
Proof.
  intros Hlanes [Hpub Hq He Hf Hd] Hp Hc Hsame Hh Ha Hdl Hcon Hpw.
  assert (emptied w' = emptied w) as Hem by (unfold emptied; by rewrite Hcon).
  split.
  - intros q pub'. rewrite Hpw, lookup_delete. case_decide; [done|]. intros Hlk.
    eapply publishing_ok_same; eauto.
  - intros n e. unfold queued. rewrite Hh, Hdl, Hem, Ha. intros (e0 & Hn & -> & ->)%lookup_mark Hqu.
    destruct (Hq n e0 Hn Hqu) as (a & ? & ?). exists a. split; [done|]. by eapply cell_filled_same.
  - intros cl. rewrite Hcon. intros Hcl. eapply cell_free_same; [done|by apply He].
  - intros c. rewrite Hc. intros Hlt. destruct (Hf c Hlt) as [|[(q & pub' & Hlk & Hown)|(n & e & Hge & Hn & Hx)]].
    + left. by eapply cell_free_same.
    + right. destruct (decide (p = q)) as [<-|].
      * right. destruct (allocated_entry w p _ _ _ _ _ _ Hlanes Hp)
          as (n & e & -> & Hn & -> & Hge & Hidx & _).
        destruct (mark_lookup _ (Z.to_nat (Z.of_nat n)) n _ Hn) as (e' & He' & _ & Hr).
        exists n, e'. rewrite Hdl, Hh, Hr. split_and!; [done..|].
        rewrite Hp in Hlk. injection Hlk as <-. by rewrite <- Hown.
      * left. exists q, pub'. rewrite Hpw. by rewrite lookup_delete_ne.
    + right; right. destruct (mark_lookup _ (Z.to_nat seq) n _ Hn) as (e' & He' & _ & Hr).
      exists n, e'. rewrite Hdl, Hh, Hr. done.
  - rewrite Hdl, Hh. intros m n e e' Hmn (e0 & Hm & _ & ->)%lookup_mark (e1 & Hn & _ & ->)%lookup_mark.
    eauto.
Qed.

(** The consumer empties the cell of the next admission. *)
Lemma cells_consume_step w w' claim :
  ProducerLanes.lanes_inv (lane_system w) -> zlen (history w) < 2 ^ 64 -> cells_inv gc w ->
  consuming w = Some (claim, false) ->
  config (impl w') = config (impl w) ->
  history w' = history w -> admissions w' = admissions w -> delivered w' = delivered w ->
  publishing w' = publishing w -> consuming w' = Some (claim, true) ->
  let own := ProducerLanes.slot_index (ProducerLanes.record (ProducerLanes.envelope_ claim)) in
  (forall cell, cell <> own -> same_at (impl w) (impl w') cell) ->
  cell_free (impl w') own -> cells_inv gc w'.
Proof.
  intros Hlanes Hlen [Hpub Hq He Hf Hd] Hcl Hc Hh Ha Hdl Hpw Hcon own Hsame Hfree.
  destruct (consuming_entry w claim false Hlanes Hcl) as (e & Hn & Hv & _ & _ & Henv).
  assert (own = ProducerLanes.slot_index (ProducerLanes.e_record e)) as Hown
    by (unfold own; by rewrite Henv).
  split.
  - intros q pub'. rewrite Hpw. intros Hlk. eapply publishing_ok_same; [done| |by apply Hpub].
    apply Hsame. destruct (own_cell_alone w q _ Hlanes Hlen Hlk) as [_ Hhist].
    intros Heq. destruct (Hhist _ e Hn ltac:(done) ltac:(congruence)) as (? & ? & ? & ? & ? & _ & _ & Hv').
    congruence.
  - intros n e'. unfold queued, emptied. rewrite Hh, Hdl, Hcon, Ha. intros Hn' [Hge Hne].
    destruct (Hq n e' Hn') as (a & ? & ?).
    { split; [done|]. unfold emptied. rewrite Hcl. by intros [? _]. }
    exists a. split; [done|]. eapply cell_filled_same; [done|apply Hsame|done].
    rewrite Hown. apply not_eq_sym, (Hd (length (delivered w)) n e e'); [|done|done].
    split; [done|]. destruct (decide (n = length (delivered w))); [|lia]. exfalso. by apply Hne.
  - intros cl. rewrite Hcon. by intros [= <-].
  - intros cell. rewrite Hc. intros Hcell. destruct (decide (cell = own)) as [->|Hne]; [by left|].
    destruct (Hf cell Hcell) as [|Huse].
    + left. eapply cell_free_same; [by apply Hsame|done].
    + right. unfold in_use in *. by rewrite Hpw, Hdl, Hh.
  - rewrite Hdl, Hh. done.
Qed.

Lemma cells_acknowledge_step w w' claim :
  ProducerLanes.lanes_inv (lane_system w) -> cells_inv gc w ->
  consuming w = Some (claim, true) ->
  config (impl w') = config (impl w) -> (forall cell, same_at (impl w) (impl w') cell) ->
  history w' = history w -> admissions w' = admissions w ->
  delivered w' = delivered w ++ [ProducerLanes.envelope_ claim] ->
  publishing w' = publishing w -> consuming w' = None -> cells_inv gc w'.
Proof.
  intros Hlanes [Hpub Hq He Hf Hd] Hcl Hc Hsame Hh Ha Hdl Hpw Hcon.
  assert (emptied w = true) as Hem by (unfold emptied; by rewrite Hcl).
  assert (length (delivered w') = S (length (delivered w))) as Hl
    by (rewrite Hdl, length_app; simpl; lia).
  split.
  - intros q pub'. rewrite Hpw. intros Hlk. eapply publishing_ok_same; eauto.
  - intros n e. unfold queued. rewrite Hh, Hl, Ha. intros Hn [Hge _].
    destruct (Hq n e Hn) as (a & ? & ?).
    { split; [lia|]. rewrite Hem. lia. }
    exists a. split; [done|]. by eapply cell_filled_same.
  - intros cl. by rewrite Hcon.
  - intros cell. rewrite Hc. intros Hlt. destruct (Hf cell Hlt) as [|[Hin|(n & e & Hge & Hn & Hx)]].
    + left. by eapply cell_free_same.
    + right; left. by rewrite Hpw.
    + destruct (decide (n = length (delivered w))) as [->|].
      * left. specialize (He claim Hcl).
        destruct (consuming_entry w claim true Hlanes Hcl) as (e' & Hn' & _ & _ & _ & Henv).
        rewrite Henv in He. rewrite Hn in Hn'. injection Hn' as <-. cbn in He. rewrite Hx in He.
        by eapply cell_free_same.
      * right; right. exists n, e. rewrite Hl, Hh. split_and!; [lia|done..].
  - rewrite Hl, Hh. intros m n e e' Hmn. apply Hd. lia.
Qed.
End Cells.

(** ** Lemmas: the steps of the lanes and of the ledger *)

Lemma lanes_step_shape s s' :
  ProducerLanes.lanes_step s s' ->
  ProducerLanes.producer_count_ (ProducerLanes.lanes s')
  = ProducerLanes.producer_count_ (ProducerLanes.lanes s)
  /\ lane_shape (ProducerLanes.lanes s') = lane_shape (ProducerLanes.lanes s).
Proof.
  intros Hstep. destruct Hstep as [p c l' l ? ? ? ? Heq|p c r q l' l ? ? ? ? ? ? Heq| | |c l' l ? ? ? ? Heq| |];
    cbn [ProducerLanes.lanes].
  - unfold ProducerLanes.TryClaimPublication in Heq.
    repeat case_match; simplify_eq; split; try done; rewrite ?shape_on_lane; done.
  - unfold ProducerLanes.AllocateSequence in Heq. by simplify_eq.
  - unfold ProducerLanes.StorePublication. split; [done|]. by rewrite shape_on_lane.
  - unfold ProducerLanes.Abandon. case_ifs; [|done]. split; [done|]. by rewrite shape_on_lane.
  - unfold ProducerLanes.TryClaimConsumption in Heq. repeat case_match; by simplify_eq.
  - unfold ProducerLanes.Acknowledge. case_ifs; [|done]. split; [done|].
    refine (shape_on_lane _ _ _ _). done.
  - unfold ProducerLanes.Cancel. by case_ifs.
Qed.

(** A ledger state up to the order of its tokens. *)
Definition same_tokens (s s' : CreditLedger.LedgerState) : Prop :=
  CreditLedger.ledger s' = CreditLedger.ledger s
  /\ CreditLedger.reservations s' ≡ₚ CreditLedger.reservations s
  /\ CreditLedger.ownerships s' ≡ₚ CreditLedger.ownerships s.

Lemma same_tokens_inv s s' :
  same_tokens s s' -> CreditLedger.ledger_inv s -> CreditLedger.ledger_inv s'.
Proof.
  destruct s, s'. intros (Hl & Hr & Ho) Hinv. cbn in *. rewrite Hl.
  by eapply CreditLedger.inv_permutation; [symmetry..|exact Hinv].
Qed.

(** What a step of the kernel may do to its lanes and to its ledger. *)
Definition lanes_move (s s' : ProducerLanes.System) : Prop :=
  s' = s \/ ProducerLanes.lanes_step s s'.

Definition ledger_move (s s' : CreditLedger.LedgerState) : Prop :=
  same_tokens s s' \/ exists s1, CreditLedger.ledger_step s s1 /\ same_tokens s1 s'.

Lemma lanes_move_inv s s' :
  lanes_move s s' -> zlen (ProducerLanes.history s') < 2 ^ 64 ->
  ProducerLanes.lanes_inv s -> ProducerLanes.lanes_inv s'.
Proof. intros [->|Hstep] Hlen Hinv; [done|]. by eapply ProducerLanes.lanes_step_inv. Qed.

Lemma ledger_move_inv s s' :
  ledger_move s s' -> CreditLedger.ledger_inv s -> CreditLedger.ledger_inv s'.
Proof.
  intros [Hs|(s1 & Hstep & Hs)] Hinv; [by eapply same_tokens_inv|].
  eapply same_tokens_inv; [done|]. by eapply CreditLedger.ledger_step_inv.
Qed.

Lemma impl_ok_move w w' :
  impl_ok (impl w) -> CreditLedger.ledger_inv (ledger_system w) ->
  lanes_move (lane_system w) (lane_system w') ->
  ledger_move (ledger_system w) (ledger_system w') -> config (impl w') = config (impl w) ->
  length (record_slots (impl w')) = length (record_slots (impl w)) ->
  length (records (impl w')) = length (records (impl w)) ->
  length (ownerships (impl w')) = length (ownerships (impl w)) ->
  length (record_generations (impl w')) = length (record_generations (impl w)) ->
  impl_ok (impl w').
Proof.
  intros [] Hinv Hlanes Hledger Hc Hs Hr Ho Hg.
  assert (ProducerLanes.producer_count_ (lanes (impl w')) = ProducerLanes.producer_count_ (lanes (impl w))
          /\ lane_shape (lanes (impl w')) = lane_shape (lanes (impl w))) as [Hcount Hshape].
  { destruct Hlanes as [Heq|Hstep]; [|apply (lanes_step_shape _ _ Hstep)].
    apply (f_equal ProducerLanes.lanes) in Heq. cbn in Heq. by rewrite Heq. }
  assert (CreditLedger.producer_count_ (ledger (impl w')) = CreditLedger.producer_count_ (ledger (impl w))
          /\ CreditLedger.capacity_bytes_ (ledger (impl w')) = CreditLedger.capacity_bytes_ (ledger (impl w)))
    as [Hlc Hlcap].
  { destruct Hledger as [(Heq & _)|(s1 & Hstep & (Heq & _))]; cbn in Heq; rewrite Heq; [done|].
    destruct (CreditLedger.ledger_step_const _ _ Hstep Hinv). cbn in *. by split. }
  split; rewrite ?Hc; congruence.
Qed.

(** ** Lemmas: claims are inside the configured cells *)

Lemma config_lanes_ok c :
  kernel_config_ok c -> ProducerLanes.lanes_config_ok (producer_slots c) (ingress_cells c).
Proof. intros []. by split. Qed.

Lemma shape_bound k p lane pos :
  impl_ok k -> ProducerLanes.geometry (lanes k) ->
  (p < producer_slots (config k))%nat -> ProducerLanes.lanes_ (lanes k) !! p = Some lane ->
  (ProducerLanes.lane_cell lane pos < ingress_cells (config k))%nat.
Proof.
  intros Hok Hgeo Hp Hl. pose proof (io_config _ Hok) as Hc%config_lanes_ok.
  pose proof (io_shape _ Hok) as Hshape. apply (f_equal (fun l => l !! p)) in Hshape.
  unfold lane_shape in Hshape. rewrite !list_lookup_fmap, Hl in Hshape.
  rewrite (ProducerLanes.lookup_MakeProducerLanes _ _ _ Hc Hp) in Hshape. cbn in Hshape.
  injection Hshape as Ho Hcap.
  pose proof (ProducerLanes.lane_cell_bound (lanes k) p lane pos Hgeo) as [Hb _];
    [by rewrite (io_count _ Hok)|done|].
  rewrite Ho, Hcap, <- ProducerLanes.lane_offset_S in Hb.
  pose proof (ProducerLanes.lane_offset_end (producer_slots (config k)) (ingress_cells (config k))) as He.
  pose proof (ProducerLanes.lane_offset_mono (ingress_cells (config k) / producer_slots (config k))
    (ingress_cells (config k) mod producer_slots (config k)) (S p) (producer_slots (config k))) as Hm.
  rewrite He in Hm by lia. lia.
Qed.

Lemma claim_bound w p pub :
  impl_ok (impl w) -> ProducerLanes.lanes_inv (lane_system w) -> publishing w !! p = Some pub ->
  let claim := phase_claim (p_phase pub) in
  (p < producer_slots (config (impl w)))%nat
  /\ (ProducerLanes.cell_index_ claim < ingress_cells (config (impl w)))%nat
  /\ ProducerLanes.pub_owner_ claim = true /\ ProducerLanes.pub_producer_index_ claim = p.
Proof.
  intros Hok Hinv Hp claim.
  assert (ProducerLanes.publications (lane_system w) !! p = Some (lane_phase (p_phase pub))) as Hlk.
  { cbn [lane_system ProducerLanes.publications]. by rewrite lookup_fmap, Hp. }
  destruct (ProducerLanes.ln_phase _ Hinv _ _ Hlk) as (Hlt & lane & Hl & Hh).
  apply ProducerLanes.phase_claim_holds in Hh as [Ho Hpi _ Hcell _].
  cbn [lane_system ProducerLanes.lanes] in Hlt, Hl. rewrite (io_count _ Hok) in Hlt.
  split_and!; [done| |done|done]. unfold claim, phase_claim. rewrite Hcell.
  eapply shape_bound; [done|apply Hinv|done|done].
Qed.

(** ** Lemmas: every step keeps the invariant *)

Section Steps.
Context (gc : Z -> option (list byte)).

Lemma world_move w w' :
  world_inv gc w -> zlen (history w') < 2 ^ 64 ->
  lanes_move (lane_system w) (lane_system w') -> ledger_move (ledger_system w) (ledger_system w') ->
  config (impl w') = config (impl w) ->
  length (record_slots (impl w')) = length (record_slots (impl w)) ->
  length (records (impl w')) = length (records (impl w)) ->
  length (ownerships (impl w')) = length (ownerships (impl w)) ->
  length (record_generations (impl w')) = length (record_generations (impl w)) ->
  (impl_ok (impl w') -> ProducerLanes.lanes_inv (lane_system w') -> cells_inv gc w') ->
  seen_inv gc w' -> world_inv gc w'.
Proof.
  intros [Hok Hlanes Hledger Hcells Hseen] Hlen Hlm Hgm Hc Hs Hr Ho Hg Hcells' Hseen'.
  assert (impl_ok (impl w')) as Hok' by (by apply (impl_ok_move w)).
  assert (ProducerLanes.lanes_inv (lane_system w')) as Hlanes' by (by eapply lanes_move_inv).
  split; [done|done|by eapply ledger_move_inv|by apply Hcells'|done].
Qed.

Lemma seen_inv_same w w' :
  seen_inv gc w -> consumer_validation_errors (impl w') = consumer_validation_errors (impl w) ->
  consumed_records (impl w') = consumed_records (impl w) ->
  config (impl w') = config (impl w) ->
  length (history w') = length (history w) -> admissions w' = admissions w ->
  delivered w' = delivered w -> consuming w' = consuming w -> seen w' = seen w ->
  (forall call, call ∈ entered w' -> call_ok gc call) -> seen_inv gc w'.
Proof.
  intros [] He Hc Hcf Hh Ha Hd Hcon Hs Hent.
  assert (emptied w' = emptied w) as Hem by (unfold emptied; by rewrite Hcon).
  split; rewrite ?Hs, ?Hd, ?Hem, ?Ha, ?Hcf; try congruence; done.
Qed.

(** A step that touches only counters, producer slots and the like. *)
Lemma quiet_step w w' :
  world_inv gc w -> zlen (history w) < 2 ^ 64 -> quiet (impl w) (impl w') ->
  history w' = history w -> admissions w' = admissions w -> delivered w' = delivered w ->
  publishing w' = publishing w -> consuming w' = consuming w -> seen w' = seen w ->
  (forall call, call ∈ entered w' -> call_ok gc call) -> world_inv gc w'.
Proof.
  intros Hinv Hlen Hq Hh Ha Hd Hp Hcon Hs Hent.
  assert (lane_system w' = lane_system w) as Hlanes.
  { unfold lane_system. by rewrite (qu_lanes _ _ Hq), Hh, Hp, Hcon, Hd. }
  assert (ledger_system w' = ledger_system w) as Hledger.
  { unfold ledger_system. by rewrite (qu_ledger _ _ Hq), Hp, (qu_ownerships _ _ Hq). }
  pose proof Hq as [Hc ? ? ? ? ? ? ? ?].
  apply (world_move w); rewrite ?Hh, ?Hlanes, ?Hledger; try congruence; try done.
  - by left.
  - by left.
  - intros _ _. apply (cells_inv_same gc w); try done; [apply Hinv|]. intros. by apply quiet_same_at.
  - apply (seen_inv_same w); try congruence; try done; apply Hinv.
Qed.

Lemma publishing_phase_fmap (m : gmap nat Publishing) p pub :
  (lane_phase ∘ p_phase) <$> <[p := pub]> m
  = <[p := lane_phase (p_phase pub)]> ((lane_phase ∘ p_phase) <$> m).
Proof. by rewrite fmap_insert. Qed.

(** A publication in flight whose lane sees no difference. *)
Lemma lane_phase_kept w p pub pub' :
  publishing w !! p = Some pub -> lane_phase (p_phase pub') = lane_phase (p_phase pub) ->
  (lane_phase ∘ p_phase) <$> <[p := pub']> (publishing w)
  = (lane_phase ∘ p_phase) <$> publishing w.
Proof.
  intros Hp Heq. rewrite fmap_insert. apply insert_id. rewrite lookup_fmap, Hp. simpl. by rewrite Heq.
Qed.

(** A claim is only granted when the slot has no publication in flight. *)
Lemma claim_free w call k claim :
  world_inv gc w -> zlen (history w) < 2 ^ 64 -> PublishClaim call (impl w) = (k, inl claim) ->
  publishing w !! call_slot call = None.
Proof.
  intros Hinv Hlen Hclaim. pose proof (wi_lanes _ _ Hinv) as Hl. unfold PublishClaim in Hclaim.
  destruct (ProducerLanes.TryClaimPublication_cases _ (call_slot call) Hl Hlen)
    as [[_ H]|(lane & Hp & Hlk & [[_ H]|[(_ & _ & H)|(Hpub & _ & _)]])];
    try (cbn in H; rewrite H in Hclaim; cbn in Hclaim; discriminate).
  destruct (ProducerLanes.ln_lane _ Hl _ _ Hp Hlk) as [_ Hiff].
  destruct (publishing w !! call_slot call) as [pub|] eqn:Hlk'; [|done]. exfalso.
  cbn [lane_system ProducerLanes.publications] in Hiff. rewrite lookup_fmap, Hlk' in Hiff.
  assert (ProducerLanes.publishing lane = true) by (apply Hiff; eauto). congruence.
Qed.

Lemma claim_step w call :
  world_inv gc w -> zlen (history w) < 2 ^ 64 -> call_ok gc call -> world_inv gc (on_claim call w).
Proof.
  intros Hinv Hlen Hcall. unfold on_claim, PublishClaim.
  destruct (ProducerLanes.TryClaimPublication (call_slot call) (lanes (impl w))) as [claim l'] eqn:Ht.
  pose proof (ProducerLanes.st_claim _ _ _ _ (history w)
    ((lane_phase ∘ p_phase) <$> publishing w) (fst <$> consuming w) (delivered w) Ht) as Hstep.
  destruct (ProducerLanes.pub_owner_ claim) eqn:Ho.
  - set (w' := w <| impl := _ |> <| publishing ::= _ |>).
    assert (lane_system w' = {| ProducerLanes.lanes := l'; ProducerLanes.history := history w;
      ProducerLanes.publications :=
        <[call_slot call := ProducerLanes.Claimed claim]> ((lane_phase ∘ p_phase) <$> publishing w);
      ProducerLanes.consumption := fst <$> consuming w; ProducerLanes.delivered := delivered w |}) as Hsys.
    { unfold lane_system, w'. cbn. by rewrite fmap_insert. }
    assert (publishing w !! call_slot call = None) as Hnone.
    { eapply (claim_free w call _ claim Hinv Hlen). unfold PublishClaim. by rewrite Ht, Ho. }
    apply (world_move w); try done.
    + right. by rewrite Hsys.
    + left. split; [done|]. split; [|done]. unfold ledger_system, w'. cbn.
      rewrite reservations_insert. cbn. rewrite delete_id by done. done.
    + intros Hok Hlanes. apply (cells_claim_step gc w w' (call_slot call)
        {| p_call := call; p_phase := PClaimed claim |} claim); try done.
      { apply Hinv. }
      assert (publishing w' !! call_slot call
              = Some {| p_call := call; p_phase := PClaimed claim |}) as Hlk
        by (unfold w'; cbn; by rewrite lookup_insert_eq).
      destruct (claim_bound w' _ _ Hok Hlanes Hlk) as (_ & Hb & _). apply Hb.
    + apply (seen_inv_same w); try done; apply Hinv.
  - set (w0 := w <| impl ::= fun k => k <| lanes := l' |> |>).
    assert (world_inv gc w0) as Hinv0.
    { apply (world_move w); try done.
      - by right.
      - by left.
      - intros _ _. apply (cells_inv_same gc w); try done; apply Hinv.
      - apply (seen_inv_same w); try done; apply Hinv. }
    destruct (ProducerLanes.pub_status_ claim);
      (apply (quiet_step w0); [done|done|..]; try done; apply Hinv0).
Qed.

(** The fields a piece of a publication in flight never touches. *)
Record publication_frame (w w' : World) : Prop := {
  pf_config : config (impl w') = config (impl w);
  pf_slots : length (record_slots (impl w')) = length (record_slots (impl w));
  pf_records : length (records (impl w')) = length (records (impl w));
  pf_ownerships : length (ownerships (impl w')) = length (ownerships (impl w));
  pf_generations : length (record_generations (impl w')) = length (record_generations (impl w));
  pf_errors : consumer_validation_errors (impl w') = consumer_validation_errors (impl w);
  pf_consumed : consumed_records (impl w') = consumed_records (impl w);
  pf_history : history w' = history w;
  pf_admissions : admissions w' = admissions w;
  pf_delivered : delivered w' = delivered w;
  pf_consuming : consuming w' = consuming w;
  pf_seen : seen w' = seen w;
  pf_entered : entered w' = entered w;
}.

Lemma publication_step w w' p pub opub :
  world_inv gc w -> zlen (history w) < 2 ^ 64 ->
  publishing w !! p = Some pub -> ~ allocated (p_phase pub) ->
  publication_frame w w' ->
  publishing w' = partial_alter (fun _ => opub) p (publishing w) ->
  lanes_move (lane_system w) (lane_system w') -> ledger_move (ledger_system w) (ledger_system w') ->
  let own := ProducerLanes.cell_index_ (phase_claim (p_phase pub)) in
  (forall cell, cell <> own -> same_at (impl w) (impl w') cell) ->
  match opub with
  | Some pub' =>
      ProducerLanes.cell_index_ (phase_claim (p_phase pub')) = own
      /\ publishing_ok gc (impl w') p pub'
  | None => cell_free (impl w') own
  end -> world_inv gc w'.
Proof.
  intros Hinv Hlen Hp Hna [] Hpw Hlm Hgm own Hsame Hown.
  apply (world_move w); try done; [by rewrite pf_history0| |].
  - intros _ _. apply (cells_pub_step gc w w' p pub opub); try done; apply Hinv.
  - apply (seen_inv_same w); try done; [apply Hinv|by rewrite pf_history0|].
    rewrite pf_entered0. apply Hinv.
Qed.

Section Publication.
Context (w : World) (p : nat) (call : PublishCall) (ph : phase).
Context (Hinv : world_inv gc w) (Hlen : zlen (history w) < 2 ^ 64)
  (Hp : publishing w !! p = Some {| p_call := call; p_phase := ph |})
  (Hph : ~ allocated ph).

Let own : nat := ProducerLanes.cell_index_ (phase_claim ph).

Definition moves_to (k : Impl) (ph' : phase) : World :=
  w <| impl := k |> <| publishing ::= <[p := {| p_call := call; p_phase := ph' |}]> |>.

Lemma claimed_lane : lane_phase ph = ProducerLanes.Claimed (phase_claim ph).
Proof. by destruct ph. Qed.

Lemma moves_lanes k ph' :
  lanes k = lanes (impl w) -> lane_phase ph' = lane_phase ph ->
  lane_system (moves_to k ph') = lane_system w.
Proof.
  intros Hl Heq. unfold lane_system, moves_to. cbn.
  rewrite (lane_phase_kept w p _ {| p_call := call; p_phase := ph' |} Hp) by done. by rewrite Hl.
Qed.

Lemma moves_ledger_same k ph' :
  ledger k = ledger (impl w) -> ownerships k = ownerships (impl w) ->
  phase_reservation ph' = phase_reservation ph ->
  ledger_move (ledger_system w) (ledger_system (moves_to k ph')).
Proof.
  intros Hl Ho Hr. left. unfold ledger_system, moves_to. split; [done|]. cbn. rewrite Ho.
  split; [|done]. rewrite reservations_insert, (reservations_split _ _ _ Hp). cbn. by rewrite Hr.
Qed.

(** The tokens of the other publications, and those before the step. *)
Let others : list CreditLedger.Reservation := reservations_of (delete p (publishing w)).

Lemma reservations_before :
  reservations_of (publishing w) ≡ₚ option_list (phase_reservation ph) ++ others.
Proof. by rewrite (reservations_split _ _ _ Hp). Qed.

Lemma moves_ledger k ph' s1 :
  CreditLedger.ledger_step (ledger_system w) s1 -> ledger k = CreditLedger.ledger s1 ->
  option_list (phase_reservation ph') ++ others ≡ₚ CreditLedger.reservations s1 ->
  omap id (ownerships k) ≡ₚ CreditLedger.ownerships s1 ->
  ledger_move (ledger_system w) (ledger_system (moves_to k ph')).
Proof.
  intros Hstep Hl Hr Ho. right. exists s1. split; [done|]. split_and!; [done| |done].
  cbn. rewrite <- Hr. by rewrite reservations_insert.
Qed.

(** The publication moves on, with the kernel changed as the piece changed it. *)
Lemma moves_step k ph' :
  lane_phase ph' = lane_phase ph -> lanes k = lanes (impl w) ->
  publication_frame w (moves_to k ph') ->
  ledger_move (ledger_system w) (ledger_system (moves_to k ph')) ->
  (forall cell, cell <> own -> same_at (impl w) k cell) ->
  phase_ok gc k p call ph' -> world_inv gc (moves_to k ph').
Proof.
  intros Heq Hl Hf Hg Hsame Hok.
  destruct (ci_publishing _ _ (wi_cells _ _ Hinv) p _ Hp) as [Hslot Hcall _].
  apply (publication_step w _ p _ (Some {| p_call := call; p_phase := ph' |}) Hinv Hlen Hp Hph Hf);
    try done.
  - left. by apply moves_lanes.
  - split; [|by split]. cbn. unfold own, phase_claim. by rewrite Heq.
Qed.

(** A piece ended in the kernel [k] and left the publication in phase [ph']. *)
Record ends_in (k : Impl) (ph' : phase) : Prop := {
  ei_lane : lane_phase ph' = lane_phase ph;
  ei_lanes : lanes k = lanes (impl w);
  ei_frame : publication_frame w (moves_to k ph');
  ei_ledger : ledger_move (ledger_system w) (ledger_system (moves_to k ph'));
  ei_same : forall cell, cell <> own -> same_at (impl w) k cell;
  ei_phase : phase_ok gc k p call ph';
}.

Lemma settle_step {X} shard claim (next : X -> phase) (out : Impl * (X + PublishReturn)) :
  match out with
  | (k, inl x) => ends_in k (next x)
  | (k, inr _) => ends_in k (PLeaving claim)
  end -> world_inv gc (settle shard p call claim next out w).
Proof.
  assert (forall k ph', ends_in k ph' -> world_inv gc (moves_to k ph')) as Hgo.
  { intros k ph' []. by apply moves_step. }
  destruct out as [k [x|ret]]; cbn [settle]; intros He%Hgo; [done|].
  destruct He as [? ? ? [] []]. by split; [..|split|split].
Qed.

(** A piece that changed nothing but counters. *)
Lemma ends_quiet k ph' :
  quiet (impl w) k -> lane_phase ph' = lane_phase ph ->
  phase_reservation ph' = phase_reservation ph -> phase_ok gc (impl w) p call ph' ->
  ends_in k ph'.
Proof.
  intros Hq Heq Hr Hok. pose proof Hq as [].
  split; try done.
  - split; cbn; congruence.
  - by apply moves_ledger_same.
  - intros cell _. by apply quiet_same_at.
  - eapply phase_ok_same; [done|by apply quiet_same_at|done].
Qed.
End Publication.

Lemma quiet_counters f p k : quiet k (on_counters f p k).
Proof. done. Qed.

Lemma recheck_step w p call claim shard :
  world_inv gc w -> zlen (history w) < 2 ^ 64 ->
  publishing w !! p = Some {| p_call := call; p_phase := PClaimed claim |} ->
  world_inv gc (settle shard p call claim (PChecked claim) (PublishRecheck shard call claim (impl w)) w).
Proof.
  intros Hinv Hlen Hp.
  pose proof (po_phase _ _ _ _ (ci_publishing _ _ (wi_cells _ _ Hinv) p _ Hp)) as Hfree. cbn in Hfree.
  apply (settle_step w p call _ Hinv Hlen Hp); [by intros []|]. unfold PublishRecheck.
  case_ifs; [by apply ends_quiet|].
  unfold ProducerLanes.claim_cell_index. case_ifs; by apply ends_quiet.
Qed.

Lemma config_bounds w :
  world_inv gc w ->
  kMinimumRecordBytes <= maximum_record_bytes (config (impl w)) <= kMaximumRecordBytes
  /\ maximum_record_bytes (config (impl w)) mod kAccountingQuantumBytes = 0.
Proof. intros [[[] ? ? ? ? ? ? ? ?] _ _ _ _]. done. Qed.

Lemma reserve_step w p call claim cell n :
  world_inv gc w -> zlen (history w) < 2 ^ 64 ->
  publishing w !! p = Some {| p_call := call; p_phase := PChecked claim cell |} ->
  world_inv gc (settle 0 p call claim (PReserved claim cell) (PublishReserve n call (impl w)) w).
Proof.
  intros Hinv Hlen Hp. destruct (ci_publishing _ _ (wi_cells _ _ Hinv) p _ Hp) as [Hslot _ [-> Hfree]].
  cbn in Hslot, Hfree. subst p.
  apply (settle_step w _ call _ Hinv Hlen Hp); [by intros []|].
  set (maximum := maximum_record_bytes (config (impl w))).
  assert (0 <= maximum <= size_max) as Hmax.
  { destruct (config_bounds w Hinv). unfold kMinimumRecordBytes, kMaximumRecordBytes, size_max in *.
    fold maximum in H. lia. }
  unfold PublishReserve. fold maximum.
  pose proof (CreditLedger.TryReserve_cases _ _ _ (wi_ledger _ _ Hinv) n (call_slot call) maximum Hmax)
    as Hcases. cbn in Hcases.
  destruct (CreditLedger.TryReserve n (call_slot call) maximum (ledger (impl w))) as [r l'] eqn:Ht.
  pose proof (CreditLedger.step_reserve _ _ _ _ (reservations_of (publishing w))
    (omap id (ownerships (impl w))) _ _ Hmax Ht) as Hstep.
  destruct (CreditLedger.res_ledger_ r) eqn:Hr.
  - assert (CreditLedger.res_producer_index_ r = call_slot call
            /\ CreditLedger.requested_bytes_ r = maximum) as [Hi Hq].
    { destruct Hcases as [[H _]|(slot & _ & _ & _ & _ & [[_ H]|[_ H]])]; by simplify_eq. }
    split; try done.
    eapply moves_ledger; [exact Hstep|done| |done]. cbn.
    unfold CreditLedger.keep_reservation. rewrite Hr. by rewrite (reservations_before w _ _ _ Hp).
  - split; try done.
    eapply moves_ledger; [exact Hstep|done| |done]. cbn.
    unfold CreditLedger.keep_reservation. rewrite Hr. by rewrite (reservations_before w _ _ _ Hp).
Qed.

Lemma same_at_set_slot k cell s c :
  c <> cell -> same_at k (set_record_slot cell s k) c.
Proof. intros Hne. split; try done. cbn. by rewrite list_lookup_insert_ne. Qed.

(** The builder in a free cell: it fails and leaves the slot reset, or it stores the
    record of the call. *)
Lemma build_in_slot maximum call timestamp s :
  call_ok gc call -> RecordLayout.is_s64 timestamp -> 0 <= maximum <= kMaximumRecordBytes ->
  RecordStorage.state_ s = RecordStorage.kReset ->
  zlen (RecordStorage.storage_ s) = kMaximumRecordBytes ->
  let '(writer, s1) :=
    RecordStorage.Begin maximum (call_level call) (call_source call) timestamp s in
  (~ RecordStorage.begin_accepts maximum (call_level call) (call_source call)
   /\ RecordStorage.slot_ writer = false /\ s1 = s)
  \/ (RecordStorage.begin_accepts maximum (call_level call) (call_source call)
      /\ exists d, RecordStorage.represents writer s1 d
      /\ d = RecordStorage.draft_begin maximum (call_level call) (call_source call) timestamp).
Proof.
  intros [Hlvl Hsrc _] Hts Hmax Hst Hlen.
  destruct (decide (RecordStorage.begin_accepts maximum (call_level call) (call_source call))) as [Hacc|Hacc].
  - pose proof (RecordStorage.Begin_represents maximum (call_level call) (call_source call) timestamp s
      Hsrc Hts Hlvl Hst Hlen Hacc) as Hrep.
    destruct (RecordStorage.Begin _ _ _ _ _) as [writer s1]. right. split; [done|]. by eexists.
  - rewrite RecordStorage.Begin_refused; [by left|done| |by right].
    unfold kMaximumRecordBytes, size_max in *. lia.
Qed.

Lemma represents_writer writer s d :
  RecordStorage.represents writer s d ->
  RecordStorage.slot_ writer = true /\ RecordStorage.state_ s = RecordStorage.kBuilding
  /\ zlen (RecordStorage.storage_ s) = kMaximumRecordBytes.
Proof. intros [? ? [] []]. done. Qed.

(** How [PublishBuild] fails: the slot is reset, the reservation given back. *)
Definition build_failed (k : Impl) (call : PublishCall) (cell : nat)
    (r : CreditLedger.Reservation) (k' : Impl) : Prop :=
  exists s f, k' = AbandonReservation r (set_record_slot cell s (on_counters f (call_slot call) k))
    /\ RecordStorage.state_ s = RecordStorage.kReset
    /\ zlen (RecordStorage.storage_ s) = kMaximumRecordBytes.

Lemma build_result k call timestamp cell r :
  kMinimumRecordBytes <= maximum_record_bytes (config k) <= kMaximumRecordBytes ->
  call_ok gc call -> RecordLayout.is_s64 timestamp -> cell_free k cell ->
  match PublishBuild gc timestamp call cell r k with
  | (k', inl stored) =>
      exists s d t, k' = set_record_slot cell s k /\ cell_built gc k' cell call timestamp stored
        /\ call_result gc (maximum_record_bytes (config k)) call timestamp = inl (d, t)
        /\ stored = RecordStorage.stored_record d t
  | (k', inr ret) =>
      build_failed k call cell r k'
      /\ call_result gc (maximum_record_bytes (config k)) call timestamp = inr ret
  end.
Proof.
  intros Hmax Hcall Hts (s & Hs & Hst & Hlen & Hown).
  set (maximum := maximum_record_bytes (config k)) in *.
  assert (forall w s f, (RecordStorage.slot_ w = true \/ RecordStorage.state_ s = RecordStorage.kReset) ->
    zlen (RecordStorage.storage_ s) = kMaximumRecordBytes ->
    build_failed k call cell r (AbandonReservation r
      (set_record_slot cell (RecordStorage.Abandon w s).2 (on_counters f (call_slot call) k)))) as Hfail.
  { intros w0 s0 f Hw Hl. exists (RecordStorage.Abandon w0 s0).2, f. split; [done|].
    unfold RecordStorage.Abandon. destruct (RecordStorage.slot_ w0) eqn:Hw0; [done|].
    by destruct Hw as [Hw|Hw]. }
  unfold PublishBuild, call_result. fold maximum. unfold record_slot_at. rewrite Hs.
  change (default RecordStorage.initial_slot (Some s)) with s.
  pose proof (build_in_slot maximum call timestamp s Hcall Hts) as Hbegin.
  unfold kMinimumRecordBytes in *. specialize (Hbegin ltac:(lia) Hst Hlen).
  destruct (RecordStorage.Begin maximum _ _ _ s) as [w1 s1].
  destruct (call_operation call) as [builder|] eqn:Hop.
  2:{ split; [|done]. apply Hfail; destruct Hbegin as [(_ & _ & ->)|(_ & d & Hrep & _)]; auto;
      by destruct (represents_writer _ _ _ Hrep) as (? & ? & ?); auto. }
  destruct Hbegin as [(Hna & Hw & ->)|(Hacc & d & Hrep & Hd)].
  { rewrite Hw. rewrite decide_False by done. split; [|done]. apply Hfail; [by right|done]. }
  rewrite decide_True by done.
  destruct (represents_writer _ _ _ Hrep) as (Hw & _ & _). rewrite Hw. cbn [negb].
  pose proof (RecordStorage.run_ops_refines gc (build_calls builder) w1 s1 d Hrep
    (co_calls _ _ Hcall _ Hop)) as Hrun.
  destruct (RecordStorage.run_ops gc (build_calls builder) w1 s1) as [w2 s2].
  destruct (represents_writer _ _ _ Hrun) as (Hw2 & _ & Hl2).
  destruct (build_end builder) as [[|]|]; [|split; [apply Hfail; [by left|done]|done]..].
  pose proof (RecordStorage.Publish_refines w2 s2 _ Hrun) as Hpub.
  destruct (RecordStorage.Publish w2 s2) as [[stored w3] s3].
  destruct Hpub as (Hw3 & Hl3 & Hpub).
  assert (call_draft gc maximum call timestamp
          = RecordStorage.draft_publish (RecordStorage.draft_ops gc (build_calls builder) d)) as Hdr.
  { unfold call_draft, RecordStorage.drafted. by rewrite Hop, <- Hd. }
  rewrite Hdr. destruct (RecordStorage.draft_publish _) as [[d' t]|] eqn:Hdp.
  2:{ destruct Hpub as [-> Hst3]. cbn. split; [|done]. apply Hfail; [by right|done]. }
  destruct Hpub as [-> Hpub].
  assert (RecordStorage.d_limit d' = maximum) as Hlim.
  { unfold call_draft in Hdr. rewrite Hop in Hdr.
    by destruct (RecordStorage.drafted_origin _ _ _ _ _ _ _ _ Hdr) as (-> & _). }
  assert (RecordStorage.d_size d' <= maximum /\ AccountingCharge (RecordStorage.d_size d') <= maximum)
    as [Hsize Hcharge].
  { destruct Hpub as [_ [_ Hroom _ _ _ _ _ _] _ Hch]. unfold RecordStorage.d_room in Hroom. lia. }
  cbn [RecordStorage.stored_record RecordStorage.sr_storage RecordStorage.sr_serialized_bytes
       RecordStorage.sr_accounting_charge_bytes negb orb].
  rewrite (proj2 (Z.ltb_ge maximum (RecordStorage.d_size d'))) by done.
  rewrite (proj2 (Z.ltb_ge maximum (AccountingCharge (RecordStorage.d_size d')))) by done. cbn [orb].
  unfold RecordStorage.Abandon. rewrite Hw3. exists s3, d', t. split_and!; try done.
  split; [|done]. exists s3, d', t. split_and!; try done.
  apply list_lookup_insert_eq. by eapply lookup_lt_Some.
Qed.

Lemma build_step w p call claim cell r timestamp :
  world_inv gc w -> zlen (history w) < 2 ^ 64 ->
  publishing w !! p = Some {| p_call := call; p_phase := PReserved claim cell r |} ->
  RecordLayout.is_s64 timestamp ->
  world_inv gc (settle 0 p call claim (PBuilt claim cell r timestamp)
                  (PublishBuild gc timestamp call cell r (impl w)) w).
Proof.
  intros Hinv Hlen Hp Hts.
  destruct (ci_publishing _ _ (wi_cells _ _ Hinv) p _ Hp) as [Hslot Hcall (-> & Hfree & Hri & Hrq)].
  cbn in Hslot, Hcall, Hfree. subst p. destruct (config_bounds w Hinv) as [Hmax _].
  pose proof (build_result (impl w) call timestamp _ r Hmax Hcall Hts Hfree) as Hres.
  apply (settle_step w _ call _ Hinv Hlen Hp); [by intros []|].
  destruct (PublishBuild _ _ _ _ _ _) as [k [stored|ret]].
  - destruct Hres as (s & d & t & -> & Hbuilt & _). split; try done.
    + split; cbn; try done. by rewrite length_insert.
    + eapply moves_ledger_same; done.
    + intros c Hc. by apply same_at_set_slot.
  - destruct Hres as [(s & f & -> & Hst & Hl) _].
    assert (CreditLedger.res_ledger_ r = true) as Hlive.
    { destruct (CreditLedger.li_reservations _ (wi_ledger _ _ Hinv) r) as [? _ _ _ _]; [|done].
      cbn. rewrite (reservations_before w _ _ _ Hp). cbn. by left. }
    split; try done.
    + split; cbn; try done. by rewrite length_insert.
    + eapply (moves_ledger _ _ _ _ _
        {| CreditLedger.ledger := (CreditLedger.Abandon r (ledger (impl w))).2;
           CreditLedger.reservations := reservations_of (delete (call_slot call) (publishing w));
           CreditLedger.ownerships := omap id (ownerships (impl w)) |}); try done.
      eapply (CreditLedger.step_abandon _ _ _ r); [by rewrite (reservations_before w _ _ _ Hp)|].
      unfold CreditLedger.Abandon. by rewrite Hlive.
    + intros c Hc. split; try done. cbn. by rewrite list_lookup_insert_ne.
    + cbn. destruct Hfree as (s0 & Hs0 & _ & _ & Ho). exists s. cbn. split_and!; try done.
      apply list_lookup_insert_eq. by eapply lookup_lt_Some.
Qed.

Lemma kernel_live_reservation w p call ph r :
  world_inv gc w -> publishing w !! p = Some {| p_call := call; p_phase := ph |} ->
  phase_reservation ph = Some r ->
  CreditLedger.reservation_ok (CreditLedger.producer_count_ (ledger (impl w))) r.
Proof.
  intros Hinv Hp Hr. apply (CreditLedger.li_reservations _ (wi_ledger _ _ Hinv)).
  cbn. rewrite (reservations_before w _ _ _ Hp), Hr. by left.
Qed.

(** The ownership a reservation commits to. *)
Lemma commit_succeeds w p call claim cell r timestamp stored :
  world_inv gc w ->
  publishing w !! p
    = Some {| p_call := call; p_phase := PBuilt claim cell r timestamp stored |} ->
  0 <= RecordStorage.sr_serialized_bytes stored <= size_max
  /\ exists l', CreditLedger.Commit r (RecordStorage.sr_serialized_bytes stored) (ledger (impl w))
                = (owns p stored, l').
Proof.
  intros Hinv Hp. destruct (kernel_live_reservation w _ _ _ r Hinv Hp eq_refl) as [Hlive _ Hnn Hcharge _].
  destruct (ci_publishing _ _ (wi_cells _ _ Hinv) p _ Hp) as [_ _ (_ & Hbuilt & Hri & Hrq)].
  destruct Hbuilt as ((s & d & t & _ & _ & -> & [_ Hd _ _] & _) & _ & Hsz & Hch).
  cbn in Hsz, Hch |- *. destruct (config_bounds w Hinv) as [Hmax _].
  destruct (RecordStorage.draft_bounds d Hd) as (Hfront & Hroom). 
  set (maximum := maximum_record_bytes (config (impl w))) in *.
  assert (0 < RecordStorage.d_size d) as Hpos.
  { unfold RecordStorage.d_size, RecordLayout.kSerializedRecordMetadataBytes in *. lia. }
  unfold kMaximumRecordBytes in *. split; [unfold size_max; lia|].
  unfold CreditLedger.Commit, CreditLedger.CommitReservation. rewrite Hlive, Hrq, Hcharge, Hrq.
  rewrite (proj2 (Z.ltb_ge maximum _)) by lia. cbn [orb].
  destruct (AccountingCharge_bounds (RecordStorage.d_size d)) as [Hb _]; [unfold size_max; lia|].
  rewrite (proj2 (Z.eqb_neq (AccountingCharge (RecordStorage.d_size d)) 0)) by lia. cbn [orb].
  rewrite (proj2 (Z.ltb_ge (AccountingCharge maximum) _)).
  2:{ apply AccountingCharge_mono; unfold size_max; lia. }
  eexists. by rewrite Hri.
Qed.

Lemma index_fits i : (i <= 64)%nat -> u32_of_index i = i.
Proof. intros Hi. unfold u32_of_index. rewrite w32_small by lia. lia. Qed.

Lemma EmplaceOwnership_none cell o k :
  ownership_at k cell = None ->
  EmplaceOwnership cell o k = k <| ownerships ::= <[cell := Some o]> |>.
Proof. intros Hn. unfold EmplaceOwnership, ResetOwnership. by rewrite Hn. Qed.

(** What [PublishCommit] does: the reservation becomes an ownership in the cell. *)
Definition committed (k : Impl) (p cell : nat) (stored : RecordStorage.StoredRecord)
    (l' : CreditLedger.CreditLedger) : Impl :=
  k <| ledger := l' |> <| record_generations ::= alter (fun g => g +w 1) cell |>
    <| records ::= <[cell := stored]> |> <| ownerships ::= <[cell := Some (owns p stored)]> |>.

Lemma commit_result w call claim cell r timestamp stored :
  world_inv gc w ->
  publishing w !! call_slot call
    = Some {| p_call := call; p_phase := PBuilt claim cell r timestamp stored |} ->
  exists l' gen,
    CreditLedger.Commit r (RecordStorage.sr_serialized_bytes stored) (ledger (impl w))
      = (owns (call_slot call) stored, l')
    /\ record_generations (impl w) !! cell = Some gen
    /\ PublishCommit call cell r stored (impl w)
       = (committed (impl w) (call_slot call) cell stored l',
          inl (handle_of cell (call_slot call) (gen +w 1) stored)).
Proof.
  intros Hinv Hp. destruct (commit_succeeds w _ _ _ _ _ _ _ Hinv Hp) as (_ & l' & Hcommit).
  destruct (claim_bound w _ _ (wi_impl _ _ Hinv) (wi_lanes _ _ Hinv) Hp) as (Hslot & Hcell & _).
  destruct (ci_publishing _ _ (wi_cells _ _ Hinv) _ _ Hp) as [_ _ (Heq & (_ & Hnone & _) & _)].
  cbn in Hcell, Heq, Hnone. rewrite <- Heq in Hcell, Hnone.
  pose proof (wi_impl _ _ Hinv) as Hok. destruct (io_config _ Hok) as [_ _ _ Hslots Hcells].
  destruct (lookup_lt_is_Some_2 (record_generations (impl w)) cell) as [gen Hgen].
  { rewrite (io_generations _ Hok). lia. }
  exists l', gen. split_and!; [done..|]. unfold PublishCommit. rewrite Hcommit.
  cbn [CreditLedger.own_ledger_ CreditLedger.retained_bytes_ CreditLedger.own_charge_bytes_ owns].
  rewrite !Z.eqb_refl. cbn [negb orb].
  set (k1 := impl w <| ledger := l' |>).
  set (k2 := k1 <| record_generations ::= alter (fun g => g +w 1) cell |>).
  assert (generation_at k2 cell = gen +w 1) as ->.
  { unfold generation_at. change (record_generations k2)
      with (alter (fun g => g +w 1) cell (record_generations (impl w))).
    by rewrite lookup_alter_at, decide_True, Hgen. }
  rewrite EmplaceOwnership_none.
  2:{ unfold ownership_at. change (ownerships (SetRecord cell stored k2)) with (ownerships (impl w)).
      by rewrite Hnone. }
  rewrite !index_fits by (unfold kMaximumIngressCells, kMaximumProducerSlots in *; lia).
  reflexivity.
Qed.

Lemma same_at_committed k p cell stored l' c :
  c <> cell -> same_at k (committed k p cell stored l') c.
Proof.
  intros Hne. split.
  - reflexivity.
  - exact (list_lookup_insert_ne (records k) cell c stored (not_eq_sym Hne)).
  - exact (list_lookup_insert_ne (ownerships k) cell c (Some (owns p stored)) (not_eq_sym Hne)).
  - exact (list_lookup_alter_ne (fun g => g +w 1) (record_generations k) cell c (not_eq_sym Hne)).
Qed.

Lemma commit_step w p call claim cell r timestamp stored :
  world_inv gc w -> zlen (history w) < 2 ^ 64 ->
  publishing w !! p
    = Some {| p_call := call; p_phase := PBuilt claim cell r timestamp stored |} ->
  world_inv gc (settle 0 p call claim (PFilled claim cell timestamp stored)
                  (PublishCommit call cell r stored (impl w)) w).
Proof.
  intros Hinv Hlen Hp.
  destruct (commit_succeeds w _ _ _ _ _ _ _ Hinv Hp) as (Hsz & _).
  destruct (ci_publishing _ _ (wi_cells _ _ Hinv) p _ Hp) as [Hslot Hcall (Hcell & Hbuilt & _ & _)].
  cbn in Hslot, Hcell, Hbuilt. subst p. rewrite <- Hcell in Hbuilt.
  destruct (commit_result w _ _ _ _ _ _ Hinv Hp) as (l' & gen & Hcommit & Hgen & ->).
  destruct Hbuilt as ((s & d & t & Hs & Hdr & Hst & Hpub & Hsl) & Hown & _ & _).
  pose proof (wi_impl _ _ Hinv) as Hok. destruct (io_config _ Hok) as [_ _ _ _ Hcells].
  assert (cell < kMaximumIngressCells)%nat as Hlt.
  { apply lookup_lt_Some in Hown. rewrite (io_ownerships _ Hok) in Hown. done. }
  destruct (ownerships_insert (ownerships (impl w)) cell None (Some (owns (call_slot call) stored)) Hown)
    as (rest & Hb & Ha).
  apply (settle_step w _ call _ Hinv Hlen Hp); [by intros []|]. split.
  - done.
  - done.
  - split; try done.
    + exact (length_insert (records (impl w)) cell stored).
    + exact (length_insert (ownerships (impl w)) cell _).
    + exact (length_alter _ (record_generations (impl w)) cell).
  - eapply (moves_ledger _ _ _ _ _
      {| CreditLedger.ledger := l';
         CreditLedger.reservations := reservations_of (delete (call_slot call) (publishing w));
         CreditLedger.ownerships :=
           CreditLedger.keep_ownership (owns (call_slot call) stored) (omap id (ownerships (impl w))) |}).
    + apply (CreditLedger.step_commit _ _ _ r _ _ _ _
        (reservations_before w _ _ _ Hp) Hsz Hcommit).
    + done.
    + done.
    + change (omap id (<[cell := Some (owns (call_slot call) stored)]> (ownerships (impl w)))
              ≡ₚ owns (call_slot call) stored :: omap id (ownerships (impl w))).
      by rewrite Ha, Hb.
  - intros c Hc. apply same_at_committed. cbn in Hc. congruence.
  - split; [done|]. split; [done|]. exists stored, (gen +w 1).
    change (ProducerLanes.slot_index (handle_of cell (call_slot call) (gen +w 1) stored)) with cell.
    split_and!.
    + by exists s, d, t.
    + apply (list_lookup_insert_eq (records (impl w)) cell stored). by rewrite (io_records _ Hok).
    + apply (list_lookup_insert_eq (ownerships (impl w)) cell). by rewrite (io_ownerships _ Hok).
    + etrans; [apply (lookup_alter_at _ (record_generations (impl w)) cell cell)|].
      by rewrite decide_True, Hgen.
    + done.
Qed.

(** The bytes of a stored record of a call. *)
Lemma stores_bounds k cell call ts stored :
  cell_stores gc k cell call ts stored ->
  RecordStorage.sr_storage stored = true
  /\ 0 < RecordStorage.sr_serialized_bytes stored
      <= RecordStorage.sr_accounting_charge_bytes stored.
Proof.
  intros (s & d & t & _ & _ & -> & [_ Hd _ Hch] & _). split; [done|]. cbn.
  pose proof (RecordStorage.draft_bounds d Hd). destruct Hd as [Hlim Hroom _ _ _ _ _ _].
  unfold RecordStorage.d_room, RecordLayout.kSerializedRecordMetadataBytes, kMaximumRecordBytes in *.
  assert (0 < RecordStorage.d_size d) by (unfold RecordStorage.d_size; lia).
  destruct (AccountingCharge_bounds (RecordStorage.d_size d)) as [Hb _]; [unfold size_max; lia|]. lia.
Qed.

Lemma filled_allowed w p call claim cell ts stored handle :
  world_inv gc w ->
  publishing w !! p
    = Some {| p_call := call; p_phase := PFilled claim cell ts stored handle |} ->
  ProducerLanes.PublishAllowed claim handle = true.
Proof.
  intros Hinv Hp. pose proof (wi_impl _ _ Hinv) as Hok.
  destruct (claim_bound w _ _ Hok (wi_lanes _ _ Hinv) Hp) as (Hslot & Hcell & Ho & Hpi).
  destruct (ci_publishing _ _ (wi_cells _ _ Hinv) p _ Hp) as [_ _ (_ & Hidx & Hfill)].
  destruct (io_config _ Hok) as [_ _ _ Hslots Hcells]. cbn in Hcell, Ho, Hpi, Hidx, Hfill.
  destruct Hfill as (st & gen & Hst & _ & _ & _ & Hh).
  destruct (stores_bounds _ _ _ _ _ Hst) as (_ & Hpos & Hle).
  set (cell0 := ProducerLanes.slot_index handle) in *. clearbody cell0.
  unfold ProducerLanes.PublishAllowed, ProducerLanes.IsValid. rewrite Ho, Hpi, Hh.
  cbn [handle_of ProducerLanes.serialized_bytes ProducerLanes.accounting_charge_bytes
       ProducerLanes.slot_index ProducerLanes.producer_index].
  rewrite Hidx, !Nat.eqb_refl.
  repeat (apply andb_true_iff; split); try done.
  - apply negb_true_iff, Z.eqb_neq. lia.
  - apply Z.leb_le. lia.
  - apply Nat.ltb_lt. lia.
  - apply Nat.ltb_lt. lia.
Qed.

Lemma publishing_lookup w p pub :
  publishing w !! p = Some pub ->
  ((lane_phase ∘ p_phase) <$> publishing w) !! p = Some (lane_phase (p_phase pub)).
Proof. intros Hp. by rewrite lookup_fmap, Hp. Qed.

Lemma allocate_step w p call claim cell ts stored handle :
  world_inv gc w -> zlen (history (on_allocate p call claim cell ts stored handle w)) < 2 ^ 64 ->
  publishing w !! p
    = Some {| p_call := call; p_phase := PFilled claim cell ts stored handle |} ->
  world_inv gc (on_allocate p call claim cell ts stored handle w).
Proof.
  intros Hinv Hlen Hp. pose proof (filled_allowed w _ _ _ _ _ _ _ Hinv Hp) as Hallowed.
  unfold on_allocate, PublishAllocate, ProducerLanes.AllocateSequence in *. rewrite Hallowed in *.
  cbn [settle] in *.
  pose proof (si_admissions _ _ (wi_seen _ _ Hinv)) as Hadm.
  match goal with |- world_inv gc ?x => set (w' := x) in * end.
  assert (zlen (history w) < 2 ^ 64) as Hlen0.
  { change (history w') with (history w ++ [{| ProducerLanes.e_producer := p;
      ProducerLanes.e_record := handle; ProducerLanes.e_visible := false |}]) in Hlen.
    rewrite zlen_app in Hlen. pose proof (zlen_nonneg (history w)). change (zlen [_]) with 1 in Hlen. lia. }
  apply (world_move w); try done.
  - right.
    pose proof (ProducerLanes.st_allocate p claim handle
      (ProducerLanes.next_admission_sequence_ (lanes (impl w)))
      (ProducerLanes.AllocateSequence (lanes (impl w))).2 (lanes (impl w)) (history w) _
      (fst <$> consuming w) (delivered w) (publishing_lookup w p _ Hp) Hallowed eq_refl) as Hstep.
    unfold lane_system at 2. change (publishing w') with
      (<[p := {| p_call := call; p_phase := PAllocated claim ts stored handle
            (ProducerLanes.next_admission_sequence_ (lanes (impl w))) |}]> (publishing w)).
    rewrite fmap_insert. exact Hstep.
  - left. split; [done|]. split; [|done].
    change (reservations_of (<[p := {| p_call := call; p_phase := PAllocated claim ts stored handle
      (ProducerLanes.next_admission_sequence_ (lanes (impl w))) |}]> (publishing w))
      ≡ₚ reservations_of (publishing w)).
    by rewrite reservations_insert, (reservations_split _ _ _ Hp).
  - intros _ _. eapply (cells_allocate_step gc w w' p call claim cell ts stored handle); try done;
      apply Hinv.
  - destruct (wi_seen _ _ Hinv) as [H1 H2 H3 H4 H5 H6]. split; try done.
    + intros n sv Hn. destruct (H2 n sv Hn) as (a & Ha & Hsaw). exists a. split; [|done].
      etrans; [apply lookup_app_l; by eapply lookup_lt_Some|done].
    + change (length (admissions w ++ [{| a_call := call; a_timestamp := ts |}])
              = length (history w ++ [{| ProducerLanes.e_producer := p;
                  ProducerLanes.e_record := handle; ProducerLanes.e_visible := false |}])).
      rewrite !length_app. simpl. lia.
Qed.

(** The kernel changed its lanes, and quietly. *)
Record relaned (k k' : Impl) (l : ProducerLanes.ProducerLanes) : Prop := {
  rl_lanes : lanes k' = l;
  rl_config : config k' = config k;
  rl_ledger : ledger k' = ledger k;
  rl_slots : record_slots k' = record_slots k;
  rl_records : records k' = records k;
  rl_ownerships : ownerships k' = ownerships k;
  rl_generations : record_generations k' = record_generations k;
  rl_consumed : consumed_records k' = consumed_records k;
  rl_errors : consumer_validation_errors k' = consumer_validation_errors k;
}.

Lemma relaned_same_at k k' l cell : relaned k k' l -> same_at k k' cell.
Proof. intros []. split; congruence. Qed.

Lemma leave_relaned claim k :
  relaned k (PublishLeave claim k) (ProducerLanes.Abandon claim (lanes k)).
Proof. unfold PublishLeave, Notify. by case_ifs. Qed.

Lemma finish_relaned call claim handle sequence t k :
  relaned k (PublishFinish call claim handle sequence t k).1
    (ProducerLanes.StorePublication claim handle sequence (lanes k)).
Proof. unfold PublishFinish, PublishLeave, Notify. by case_ifs. Qed.

(** A step that changes the lanes alone. *)
Lemma relaned_step w w' l :
  world_inv gc w -> zlen (history w') < 2 ^ 64 -> relaned (impl w) (impl w') l ->
  ProducerLanes.lanes_step (lane_system w) (lane_system w') ->
  reservations_of (publishing w') ≡ₚ reservations_of (publishing w) ->
  cells_inv gc w' -> seen_inv gc w' -> world_inv gc w'.
Proof.
  intros Hinv Hlen [] Hstep Hres Hcells Hseen. apply (world_move w); try congruence; try done.
  - by right.
  - left. unfold ledger_system. split_and!; cbn; [done|done|by rewrite rl_ownerships0].
Qed.

Lemma leave_step w p call claim :
  world_inv gc w -> zlen (history w) < 2 ^ 64 ->
  publishing w !! p = Some {| p_call := call; p_phase := PLeaving claim |} ->
  world_inv gc (w <| impl ::= PublishLeave claim |> <| publishing ::= delete p |>).
Proof.
  intros Hinv Hlen Hp. set (w' := w <| impl ::= _ |> <| publishing ::= _ |>).
  pose proof (leave_relaned claim (impl w)) as Hrl.
  apply (relaned_step w w' _ Hinv Hlen Hrl).
  - pose proof (ProducerLanes.st_abandon p claim (lanes (impl w)) (history w) _
      (fst <$> consuming w) (delivered w) (publishing_lookup w p _ Hp)) as Hstep.
    unfold lane_system at 2. change (publishing w') with (delete p (publishing w)).
    rewrite fmap_delete. change (lanes (impl w')) with (lanes (PublishLeave claim (impl w))).
    rewrite (rl_lanes _ _ _ Hrl). exact Hstep.
  - change (publishing w') with (delete p (publishing w)).
    by rewrite (reservations_split (publishing w) p _ Hp).
  - apply (cells_pub_step gc w w' p _ None (wi_lanes _ _ Hinv) Hlen (wi_cells _ _ Hinv) Hp); try done.
    + by intros [].
    + apply (rl_config _ _ _ Hrl).
    + intros cell _. by eapply relaned_same_at.
    + pose proof (po_phase _ _ _ _ (ci_publishing _ _ (wi_cells _ _ Hinv) p _ Hp)) as Hf. cbn in Hf.
      eapply cell_free_same; [|exact Hf]. by eapply relaned_same_at.
  - pose proof Hrl as []. apply (seen_inv_same w); try done; apply Hinv.
Qed.

Lemma kernel_finish_step w p call claim ts stored handle sequence :
  world_inv gc w -> zlen (history w) < 2 ^ 64 ->
  publishing w !! p
    = Some {| p_call := call; p_phase := PAllocated claim ts stored handle sequence |} ->
  world_inv gc (on_finish p call claim stored handle sequence w).
Proof.
  intros Hinv Hlen Hp. set (w' := on_finish p call claim stored handle sequence w).
  pose proof (finish_relaned call claim handle sequence (RecordStorage.sr_truncated stored) (impl w))
    as Hrl.
  assert (history w' = alter ProducerLanes.mark_visible (Z.to_nat sequence) (history w)) as Hh by done.
  assert (zlen (history w') = zlen (history w)) as Hzl
    by (rewrite Hh; unfold zlen; by rewrite length_alter).
  eapply (relaned_step w w' _ Hinv); [by rewrite Hzl|exact Hrl|..].
  - pose proof (ProducerLanes.st_store p claim handle sequence (lanes (impl w)) (history w) _
      (fst <$> consuming w) (delivered w) (publishing_lookup w p _ Hp)) as Hstep.
    unfold lane_system at 2. change (publishing w') with (delete p (publishing w)).
    rewrite fmap_delete, Hh.
    change (lanes (impl w')) with (lanes (PublishFinish call claim handle sequence
      (RecordStorage.sr_truncated stored) (impl w)).1).
    rewrite (rl_lanes _ _ _ Hrl). exact Hstep.
  - change (publishing w') with (delete p (publishing w)).
    by rewrite (reservations_split (publishing w) p _ Hp).
  - apply (cells_finish_step gc w w' p call claim ts stored handle sequence); try done.
    + apply Hinv.
    + apply Hinv.
    + apply (rl_config _ _ _ Hrl).
    + intros cell. by eapply relaned_same_at.
  - pose proof Hrl as []. apply (seen_inv_same w); try done; [apply Hinv| |apply Hinv].
    rewrite Hh. by rewrite length_alter.
Qed.

Lemma cells_inv_claimed w w' claim :
  cells_inv gc w -> config (impl w') = config (impl w) ->
  (forall cell, same_at (impl w) (impl w') cell) ->
  history w' = history w -> admissions w' = admissions w -> delivered w' = delivered w ->
  publishing w' = publishing w -> consuming w = None -> consuming w' = Some (claim, false) ->
  cells_inv gc w'.
Proof.
  intros Hcells Hc Hs Hh Ha Hd Hp Hnone Hcon.
  assert (cells_inv gc (w' <| consuming := None |>)) as [H1 H2 H3 H4 H5].
  { by apply (cells_inv_same gc w). }
  assert (forall n, queued w' n -> queued (w' <| consuming := None |>) n) as Hq.
  { unfold queued, emptied. rewrite Hcon. intros n [? _]. by split; [|intros []]. }
  split; try done.
  - intros n e Hn Hqn. by apply (H2 n e Hn), Hq.
  - by rewrite Hcon.
Qed.

Lemma consume_claim_step w :
  world_inv gc w -> zlen (history w) < 2 ^ 64 -> world_inv gc (on_consume_claim w).
Proof.
  intros Hinv Hlen. unfold on_consume_claim, ConsumeClaim.
  pose proof (ProducerLanes.TryClaimConsumption_busy _ _ _ _ _ (wi_lanes _ _ Hinv)) as Hbusy.
  destruct (ProducerLanes.TryClaimConsumption (lanes (impl w))) as [claim l'] eqn:Ht.
  pose proof (ProducerLanes.st_consume _ _ _ (history w)
    ((lane_phase ∘ p_phase) <$> publishing w) (fst <$> consuming w) (delivered w) Ht) as Hstep.
  destruct (ProducerLanes.con_owner_ claim) eqn:Ho.
  - assert (consuming w = None) as Hnone.
    { destruct (consuming w) as [[c b]|]; [|done]. specialize (Hbusy c eq_refl).
      by simplify_eq. }
    apply (relaned_step w _ l'); try done.
    + apply (cells_inv_claimed w _ claim); try done. apply Hinv.
    + destruct (wi_seen _ _ Hinv) as [H1 H2 H3 H4 H5 H6]. split; try done.
      unfold emptied in *. rewrite Hnone in H1. done.
  - apply (relaned_step w _ l'); try done.
    + apply (cells_inv_same gc w); try done. apply Hinv.
    + apply (seen_inv_same w); try done; apply Hinv.
Qed.

Lemma acknowledge_step w claim :
  world_inv gc w -> zlen (history w) < 2 ^ 64 -> consuming w = Some (claim, true) ->
  world_inv gc (on_acknowledge claim w).
Proof.
  intros Hinv Hlen Hcon.
  pose proof (ProducerLanes.st_acknowledge claim (lanes (impl w)) (history w)
    ((lane_phase ∘ p_phase) <$> publishing w) (delivered w)) as Hstep.
  apply (relaned_step w _ (ProducerLanes.Acknowledge claim (lanes (impl w)))); try done.
  - unfold lane_system at 1. rewrite Hcon. exact Hstep.
  - apply (cells_acknowledge_step gc w _ claim); try done; apply Hinv.
  - destruct (wi_seen _ _ Hinv) as [H1 H2 H3 H4 H5 H6]. split; try done.
    unfold emptied in *. rewrite Hcon in H1. cbn. rewrite H1, length_app. simpl. lia.
Qed.

(** What the consumer's piece leaves of a full cell. *)
Record emptied_cell (k k' : Impl) (cell : nat) (o : CreditLedger.Ownership)
    (s : RecordStorage.RecordSlot) : Prop := {
  ec_ledger : ledger k' = (CreditLedger.Release o (ledger k)).2;
  ec_ownerships : ownerships k' = <[cell := None]> (ownerships k);
  ec_records : records k' = <[cell := RecordStorage.no_record]> (records k);
  ec_slots : record_slots k' = <[cell := RecordStorage.Reset s]> (record_slots k);
  ec_generations : record_generations k' = record_generations k;
  ec_lanes : lanes k' = lanes k;
  ec_config : config k' = config k;
  ec_errors : consumer_validation_errors k' = consumer_validation_errors k;
  ec_consumed : consumed_records k' = consumed_records k +w 1;
}.

Lemma consume_record_result w claim :
  world_inv gc w -> consuming w = Some (claim, false) ->
  let n := length (delivered w) in
  let cell := ProducerLanes.slot_index (ProducerLanes.record (ProducerLanes.envelope_ claim)) in
  exists a p stored s d t,
    admissions w !! n = Some a
    /\ record_slots (impl w) !! cell = Some s
    /\ zlen (RecordStorage.storage_ s) = kMaximumRecordBytes
    /\ ownerships (impl w) !! cell = Some (Some (owns p stored))
    /\ call_draft gc (maximum_record_bytes (config (impl w))) (a_call a) (a_timestamp a) = Some (d, t)
    /\ RecordStorage.published s d t
    /\ exists k', ConsumeRecord true claim (impl w)
                  = (k', Some (Z.of_nat n, RecordStorage.view_of s stored))
         /\ emptied_cell (impl w) k' cell (owns p stored) s.
Proof.
  intros Hinv Hcon n cell.
  destruct (consuming_entry w claim false (wi_lanes _ _ Hinv) Hcon) as (e & Hn & _ & _ & Hpi & Henv).
  destruct (ci_queued _ _ (wi_cells _ _ Hinv) n e Hn) as (a & Ha & st & gen & Hst & Hrec & Hown & Hgen & Hh).
  { split; [done|]. unfold emptied. rewrite Hcon. by intros [? _]. }
  assert (ProducerLanes.slot_index (ProducerLanes.e_record e) = cell) as Hcell
    by (unfold cell; by rewrite Henv).
  rewrite Hcell in *. destruct Hst as (s & d & t & Hs & Hdr & -> & Hpub & Hl).
  exists a, (ProducerLanes.e_producer e), (RecordStorage.stored_record d t), s, d, t.
  split_and!; try done.
  assert ((cell <? ingress_cells (config (impl w)))%nat = true) as Hlt.
  { apply Nat.ltb_lt. rewrite <- (io_slots _ (wi_impl _ _ Hinv)). by eapply lookup_lt_Some. }
  assert (EnvelopeValid true claim (impl w) = true) as Hvalid.
  { unfold EnvelopeValid. fold cell. rewrite Hlt. unfold record_at, ownership_at, generation_at.
    rewrite Hrec, Hown, Hgen, Hpi. change (default ?x (Some ?y)) with y. rewrite Henv.
    cbn [ProducerLanes.envelope_of ProducerLanes.record]. rewrite Hh.
    cbn [handle_of ProducerLanes.generation ProducerLanes.producer_index owns
      ProducerLanes.serialized_bytes ProducerLanes.accounting_charge_bytes
      CreditLedger.retained_bytes_ CreditLedger.own_charge_bytes_].
    by rewrite !Z.eqb_refl, Nat.eqb_refl. }
  unfold ConsumeRecord. fold cell. rewrite Hvalid, Hlt.
  assert (record_slot_at (impl w) cell = s) as Hat by (unfold record_slot_at; by rewrite Hs).
  assert (record_at (impl w) cell = RecordStorage.stored_record d t) as Hrat
    by (unfold record_at; by rewrite Hrec).
  rewrite Hat, Hrat.
  assert (ProducerLanes.admission_sequence (ProducerLanes.envelope_ claim) = Z.of_nat n) as ->
    by (by rewrite Henv).
  assert (ownership_at (impl w) cell
          = Some (owns (ProducerLanes.e_producer e) (RecordStorage.stored_record d t))) as Hoat
    by (unfold ownership_at; by rewrite Hown).
  eexists. split; [reflexivity|]. unfold ClearCell, ResetOwnership. rewrite Hoat. split; try done.
  rewrite <- Hat. reflexivity.
Qed.

Lemma consume_record_step w claim :
  world_inv gc w -> zlen (history w) < 2 ^ 64 -> consuming w = Some (claim, false) ->
  world_inv gc (on_consume_record claim w).
Proof.
  intros Hinv Hlen Hcon.
  destruct (consume_record_result w claim Hinv Hcon)
    as (a & p & stored & s & d & t & Ha & Hs & Hl & Hown & Hdr & Hpub & k & Hrun & Hec).
  set (cell := ProducerLanes.slot_index _) in *.
  unfold on_consume_record. rewrite Hrun. set (w' := w <| impl := _ |> <| consuming := _ |> <| seen ::= _ |>).
  destruct (ownerships_insert (ownerships (impl w)) cell _ None Hown) as (rest & Hb & Hafter).
  pose proof (wi_seen _ _ Hinv) as [H1 H2 H3 H4 H5 H6].
  pose proof Hec as [].
  assert (zlen (seen w) = zlen (delivered w)) as Hzl.
  { unfold emptied in H1. rewrite Hcon in H1. unfold zlen. lia. }
  assert (lane_system w' = lane_system w) as Hlanes.
  { unfold lane_system, w'. cbn. by rewrite ec_lanes0, Hcon. }
  apply (world_move w); rewrite ?Hlanes; try done.
  - by left.
  - right. exists {| CreditLedger.ledger := (CreditLedger.Release (owns p stored) (ledger (impl w))).2;
                     CreditLedger.reservations := reservations_of (publishing w);
                     CreditLedger.ownerships := rest |}.
    split; [by eapply (CreditLedger.step_release _ _ _ _ (owns p stored))|].
    split_and!; [done|done|]. unfold ledger_system, w'. cbn. by rewrite ec_ownerships0.
  - unfold w'. cbn. by rewrite ec_slots0, length_insert.
  - unfold w'. cbn. by rewrite ec_records0, length_insert.
  - unfold w'. cbn. by rewrite ec_ownerships0, length_insert.
  - unfold w'. cbn. by rewrite ec_generations0.
  - intros _ _. apply (cells_consume_step gc w w' claim); try done; [apply Hinv|apply Hinv| |].
    + intros c Hne. split; unfold w'; cbn.
      * by rewrite ec_slots0, list_lookup_insert_ne.
      * by rewrite ec_records0, list_lookup_insert_ne.
      * by rewrite ec_ownerships0, list_lookup_insert_ne.
      * by rewrite ec_generations0.
    + exists (RecordStorage.Reset s). unfold w'. cbn. rewrite ec_slots0, ec_ownerships0.
      split_and!; try done; apply list_lookup_insert_eq; by eapply lookup_lt_Some.
  - split; try done.
    + unfold w', emptied in *. cbn. rewrite Hcon in H1. rewrite length_app. simpl. lia.
    + change (seen w') with (seen w ++ [(Z.of_nat (length (delivered w)), RecordStorage.view_of s stored)]).
      intros n sv [Hn|[-> <-]]%lookup_snoc_Some.
      * destruct Hn as [_ Hn]. destruct (H2 n sv Hn) as (b & ? & ?). exists b. unfold w'. cbn.
        by rewrite ec_config0.
      * assert (length (seen w) = length (delivered w)) as -> by (unfold zlen in Hzl; lia).
        exists a. split; [done|]. split; [done|]. exists d, t. unfold w'. cbn. rewrite ec_config0.
        split; [done|]. by apply RecordStorage.published_shows.
    + unfold w'. cbn. by rewrite ec_errors0.
    + unfold w'. cbn. rewrite ec_consumed0, H4, zlen_app. unfold w64.
      by rewrite Zplus_mod_idemp_l.
Qed.

(** The retirement of a slot returns its credit; nothing else it does is seen. *)
Lemma finish_retirement_effect slot k :
  quiet k (FinishRetirement slot k)
  \/ exists b l', CreditLedger.TryReconcileProducer slot (ledger k) = (b, l')
       /\ ledger (FinishRetirement slot k) = l'
       /\ quiet k (FinishRetirement slot k <| ledger := ledger k |>).
Proof.
  unfold FinishRetirement. case_ifs; [right|by left].
  change (ledger (on_control _ slot k)) with (ledger k).
  destruct (CreditLedger.TryReconcileProducer slot (ledger k)) as [[|] l'] eqn:Hr;
    [exists true, l'|exists false, l']; by split_and!.
Qed.

Lemma finish_retirement_step w slot :
  world_inv gc w -> zlen (history w) < 2 ^ 64 ->
  world_inv gc (w <| impl ::= FinishRetirement slot |>).
Proof.
  intros Hinv Hlen. destruct (finish_retirement_effect slot (impl w)) as [Hq|(b & l' & Hr & Hl & Hq)].
  { apply (quiet_step w); try done. apply Hinv. }
  assert (world_inv gc (w <| impl ::= fun k => k <| ledger := l' |> |>)) as Hinv'.
  { apply (world_move w); try done.
    - by left.
    - right. eexists. split; [exact (CreditLedger.step_reconcile slot _ _ _ _ _ Hr)|]. done.
    - intros _ _. apply (cells_inv_same gc w); try done. apply Hinv.
    - apply (seen_inv_same w); try done; apply Hinv. }
  apply (quiet_step (w <| impl ::= fun k => k <| ledger := l' |> |>)); try done; [|apply Hinv].
  destruct Hq. by split.
Qed.

Lemma try_finish_retirement_step w slot :
  world_inv gc w -> zlen (history w) < 2 ^ 64 ->
  world_inv gc (w <| impl ::= TryFinishRetirement slot |>).
Proof.
  intros Hinv Hlen. pose proof (finish_retirement_step w slot Hinv Hlen) as H.
  assert (w <| impl ::= TryFinishRetirement slot |> = w <| impl ::= FinishRetirement slot |>
          \/ w <| impl ::= TryFinishRetirement slot |> = w) as [->| ->]; [|done..].
  unfold TryFinishRetirement. cbn. case_ifs; [by left|right]. by destruct w.
Qed.

Lemma acquire_step w slot :
  world_inv gc w -> zlen (history w) < 2 ^ 64 -> world_inv gc (on_acquire slot w).
Proof.
  intros Hinv Hlen.
  assert (world_inv gc (w <| impl := (AcquireSlot slot (impl w)).1 |>)) as Hinv'.
  { unfold AcquireSlot. case_ifs; cbn [fst].
    - by apply (quiet_step w); try done; apply Hinv.
    - set (k := on_control _ slot (on_control _ slot (impl w))).
      change (world_inv gc (w <| impl := k |> <| impl ::= TryFinishRetirement slot |>)).
      apply (try_finish_retirement_step (w <| impl := k |>) slot); [|done].
      apply (quiet_step w); try done. apply Hinv.
    - apply (quiet_step w); try done. apply Hinv. }
  unfold on_acquire. by apply (quiet_step _ _ Hinv'); try done; apply Hinv.
Qed.
End Steps.

(** ** Reachable worlds *)

Section Reachable.
Context (gc : Z -> option (list byte)).

Lemma retire_slot_quiet slot generation k : quiet k (RetireSlot slot generation k).1.
Proof. unfold RetireSlot. by case_ifs. Qed.

Lemma close_quiet k : quiet k (CloseAdmission k).
Proof. unfold CloseAdmission, Notify. by case_ifs. Qed.

Lemma kernel_step_history w w' : kernel_step gc w w' -> zlen (history w) <= zlen (history w').
Proof.
  destruct 1; try done; unfold on_claim, on_allocate, on_finish, on_consume_claim,
    on_consume_record, settle, zlen; repeat case_match; simplify_eq; cbn [history modify];
    rewrite ?length_app, ?length_alter; lia.
Qed.

Lemma kernel_step_inv w w' :
  kernel_step gc w w' -> zlen (history w') < 2 ^ 64 -> world_inv gc w -> world_inv gc w'.
Proof.
  intros Hstep Hlen' Hinv. pose proof (kernel_step_history _ _ Hstep).
  assert (zlen (history w) < 2 ^ 64) as Hlen by lia.
  destruct Hstep.
  - apply (quiet_step gc w); try done. apply Hinv.
  - apply (quiet_step gc w); try done. intros c [->|Hc]%elem_of_cons; [done|].
    by apply (si_entered _ _ (wi_seen _ _ Hinv)).
  - apply claim_step; [|done|].
    + apply (quiet_step gc w); try done. intros c Hc. apply (si_entered _ _ (wi_seen _ _ Hinv)).
      cbn in Hc. rewrite H0. by right.
    + apply (si_entered _ _ (wi_seen _ _ Hinv)). rewrite H0. by left.
  - by apply recheck_step.
  - by apply reserve_step.
  - by apply build_step.
  - by apply commit_step.
  - by apply allocate_step.
  - by apply (kernel_finish_step gc w p call claim timestamp).
  - by apply (leave_step gc w p call).
  - by apply consume_claim_step.
  - by apply consume_record_step.
  - by apply acknowledge_step.
  - apply (quiet_step gc w); try done. apply Hinv.
  - apply (quiet_step gc (w <| impl ::= FinishRetirement slot |>)); try done.
    + by apply finish_retirement_step.
    + apply Hinv.
  - by apply acquire_step.
  - apply (quiet_step gc w); try done. apply Hinv.
  - apply (quiet_step gc w); try done; [apply retire_slot_quiet|apply Hinv].
  - apply (quiet_step gc w); try done. apply Hinv.
  - apply (quiet_step gc w); try done; [apply close_quiet|apply Hinv].
Qed.

Lemma initial_world_inv c : kernel_config_ok c -> world_inv gc (initial_world c).
Proof.
  intros Hc. pose proof (config_lanes_ok c Hc) as Hlanes. pose proof Hc as [Hrec Hal Hpay Hslots Hcells].
  split.
  - split; try done. apply length_replicate.
  - assert (lane_system (initial_world c)
            = ProducerLanes.lanes_start (producer_slots c) (ingress_cells c)) as -> by done.
    by apply ProducerLanes.start_inv.
  - assert (ledger_system (initial_world c) = CreditLedger.start_state
      {| CreditLedger.capacity_bytes := payload_capacity_bytes c;
         CreditLedger.producer_count := producer_slots c |}) as -> by done.
    apply CreditLedger.start_state_inv. unfold kMinimumRecordBytes in *. split; cbn; lia.
  - split; try done.
    intros cell Hlt. left. exists RecordStorage.initial_slot.
    change (cell < ingress_cells c)%nat in Hlt. split_and!; try done.
    + by apply (lookup_replicate_2 (ingress_cells c)).
    + apply (lookup_replicate_2 kMaximumIngressCells). lia.
  - split; try done. intros call Hcall. by apply elem_of_nil in Hcall.
Qed.

Lemma reachable_history w w' :
  rtc (kernel_step gc) w w' -> zlen (history w) <= zlen (history w').
Proof.
  induction 1 as [|x y z Hxy _ IH]; [done|]. pose proof (kernel_step_history _ _ Hxy). lia.
Qed.

(** An invariant of the steps from worlds where [world_inv] holds. *)
Lemma reachable_ind c (P : World -> Prop) w :
  kernel_config_ok c -> P (initial_world c) ->
  (forall x y, world_inv gc x -> zlen (history y) < 2 ^ 64 -> P x -> kernel_step gc x y -> P y) ->
  rtc (kernel_step gc) (initial_world c) w -> zlen (history w) < 2 ^ 64 ->
  world_inv gc w /\ P w.
Proof.
  intros Hc H0 Hstep Hr. revert w Hr. refine (rtc_ind_r _ _ _ _).
  - intros _. split; [by apply initial_world_inv|done].
  - intros y z _ Hyz IH Hlen. pose proof (kernel_step_history _ _ Hyz).
    destruct IH as [Hinv HP]; [lia|]. split; [by eapply kernel_step_inv|by eapply Hstep].
Qed.

Lemma kernel_reachable_inv c w :
  kernel_config_ok c -> rtc (kernel_step gc) (initial_world c) w ->
  zlen (history w) < 2 ^ 64 -> world_inv gc w.
Proof. intros Hc Hr Hlen. by destruct (reachable_ind c (fun _ => True) w Hc I ltac:(done) Hr Hlen). Qed.
End Reachable.

(** ** Lemmas: a whole call is a sequence of steps *)

Definition env_ok (env : PublishEnv) : Prop :=
  (env_shard env < kMaximumProducerSlots)%nat /\ RecordLayout.is_s64 (env_timestamp env).

(** What a finished call leaves: nothing in flight, and either one more admission, stored,
    or one more refusal. *)
Record finished (gc : Z -> option (list byte)) (w w' : World) (call : PublishCall)
    (timestamp : Z) (ret : PublishReturn) : Prop := {
  fi_publishing : publishing w' = publishing w;
  fi_consuming : consuming w' = consuming w;
  fi_delivered : delivered w' = delivered w;
  fi_seen : seen w' = seen w;
  fi_return :
    (refusals w' = refusals w ++ [ret] /\ history w' = history w /\ admissions w' = admissions w)
    \/ exists sequence t handle,
        ret = Returned {| outcome := kAccepted; admission_sequence := Some sequence;
                          result_truncated := t |}
        /\ refusals w' = refusals w
        /\ admissions w' = admissions w ++ [{| a_call := call; a_timestamp := timestamp |}]
        /\ history w'
           = alter ProducerLanes.mark_visible (Z.to_nat sequence)
               (history w ++ [{| ProducerLanes.e_producer := call_slot call;
                                 ProducerLanes.e_record := handle;
                                 ProducerLanes.e_visible := false |}]);
}.

Section Runs.
Context (gc : Z -> option (list byte)) (w : World) (call : PublishCall) (env : PublishEnv).
Context (Hcall : call_ok gc call) (Henv : env_ok env).

Let p : nat := call_slot call.

(** The world while the call is in phase [ph], with the kernel [k]. *)
Definition stage (k : Impl) (ph : phase) : World := moves_to w p call k ph.

Lemma stage_lookup k ph : publishing (stage k ph) !! p = Some {| p_call := call; p_phase := ph |}.
Proof. apply lookup_insert_eq. Qed.

Lemma settle_stage {X} shard claim (next : X -> phase) k ph k' x :
  settle shard p call claim next (k', inl x) (stage k ph) = stage k' (next x).
Proof. unfold settle, stage, moves_to. cbn. by rewrite insert_insert_eq. Qed.

(** A piece succeeds: the call is in its next phase; or fails: the call leaves. *)
Lemma goes_on {X} shard claim (next : X -> phase) k ph k' x :
  rtc (kernel_step gc) w (stage k ph) ->
  kernel_step gc (stage k ph) (settle shard p call claim next (k', inl x) (stage k ph)) ->
  rtc (kernel_step gc) w (stage k' (next x)).
Proof. rewrite settle_stage. apply rtc_r. Qed.

Lemma gives_up {X} shard claim (next : X -> phase) k ph k' ret :
  publishing w !! p = None -> rtc (kernel_step gc) w (stage k ph) ->
  kernel_step gc (stage k ph) (settle shard p call claim next (k', inr ret) (stage k ph)) ->
  exists w', rtc (kernel_step gc) w w' /\ impl w' = PublishLeave claim k'
    /\ finished gc w w' call (env_timestamp env) ret.
Proof.
  intros Hnone Hr Hstep. eexists. split.
  - eapply rtc_r; [exact (rtc_r _ _ _ Hr Hstep)|].
    apply (st_leave gc p call claim); apply lookup_insert_eq.
  - split; [reflexivity|]. split; try done; [|left; split_and!; [|done..]; by apply (refusals_snoc w _ (rejection shard call ret))].
    unfold settle, stage, moves_to. cbn. by rewrite insert_insert_eq, delete_insert_id.
Qed.

(** The call runs alone from [w]. *)
Lemma TryPublishSlot_runs :
  world_inv gc w -> zlen (history w) < 2 ^ 64 ->
  let '(k, ret) := TryPublishSlot gc env call (impl w) in
  exists w', rtc (kernel_step gc) w w' /\ impl w' = k
    /\ finished gc w w' call (env_timestamp env) ret.
Proof.
  intros Hinv Hlen. destruct Henv as [Hshard Hts]. unfold TryPublishSlot.
  destruct (IsActive (call_slot call) (call_generation call) (impl w)) eqn:Hact; cbn [negb].
  2:{ eexists. split; [apply rtc_once, (st_missing gc (env_shard env) w Hshard)|].
      split; [done|]. split; try done. left. split_and!; [|done..]. by apply (refusals_snoc w _
        {| r_call := None; r_index := env_shard env; r_return := refused kNoProducerSlot |}). }
  assert (rtc (kernel_step gc) w (on_claim call w)) as Hclaim.
  { eapply rtc_l; [by apply (st_enter gc call w)|]. apply rtc_once.
    pose proof (st_claim gc call (entered w) (w <| entered ::= cons call |>) (Permutation_refl _)) as H.
    replace (w <| entered ::= cons call |> <| entered := entered w |>) with w in H by (by destruct w).
    exact H. }
  pose proof (claim_free gc w call) as Hfree.
  unfold on_claim in Hclaim. destruct (PublishClaim call (impl w)) as [k [claim|ret]].
  2:{ eexists. split; [exact Hclaim|]. split; [done|]. split; try done. left. split_and!; [|done..]. by apply (refusals_snoc w _ (rejection 0 call ret)). }
  specialize (Hfree k claim Hinv Hlen eq_refl).
  change (rtc (kernel_step gc) w (stage k (PClaimed claim))) in Hclaim.
  pose proof (st_recheck gc p call claim (env_shard env) _ (stage_lookup k (PClaimed claim)) Hshard)
    as Hstep. change (impl (stage k _)) with k in Hstep.
  destruct (PublishRecheck (env_shard env) call claim k) as [k1 [cell|ret]].
  2:{ by apply (gives_up _ _ _ _ _ _ _ Hfree Hclaim Hstep). }
  pose proof (goes_on _ _ _ _ _ _ _ Hclaim Hstep) as H1. clear Hstep Hclaim.
  pose proof (st_reserve gc p call claim cell (env_spurious env) _ (stage_lookup k1 (PChecked claim cell)))
    as Hstep. change (impl (stage k1 _)) with k1 in Hstep.
  destruct (PublishReserve (env_spurious env) call k1) as [k2 [r|ret]].
  2:{ by apply (gives_up _ _ _ _ _ _ _ Hfree H1 Hstep). }
  pose proof (goes_on _ _ _ _ _ _ _ H1 Hstep) as H2. clear Hstep H1.
  pose proof (st_build gc p call claim cell r (env_timestamp env) _
    (stage_lookup k2 (PReserved claim cell r)) Hts) as Hstep. change (impl (stage k2 _)) with k2 in Hstep.
  destruct (PublishBuild gc (env_timestamp env) call cell r k2) as [k3 [stored|ret]].
  2:{ by apply (gives_up _ _ _ _ _ _ _ Hfree H2 Hstep). }
  pose proof (goes_on _ _ _ _ _ _ _ H2 Hstep) as H3. clear Hstep H2.
  pose proof (st_commit gc p call claim cell r (env_timestamp env) stored _
    (stage_lookup k3 (PBuilt claim cell r (env_timestamp env) stored))) as Hstep.
  change (impl (stage k3 _)) with k3 in Hstep.
  destruct (PublishCommit call cell r stored k3) as [k4 [handle|ret]].
  2:{ by apply (gives_up _ _ _ _ _ _ _ Hfree H3 Hstep). }
  pose proof (goes_on _ _ _ _ _ _ _ H3 Hstep) as H4. clear Hstep H3.
  pose proof (st_allocate gc p call claim cell (env_timestamp env) stored handle _
    (stage_lookup k4 (PFilled claim cell (env_timestamp env) stored handle))) as Hstep.
  unfold on_allocate in Hstep. change (impl (stage k4 _)) with k4 in Hstep.
  destruct (PublishAllocate call claim handle cell k4) as [k5 [sequence|ret]].
  2:{ by apply (gives_up _ _ _ _ _ _ _ Hfree H4 Hstep). }
  rewrite settle_stage in Hstep. pose proof (rtc_r _ _ _ H4 Hstep) as H5. clear Hstep H4.
  match type of H5 with rtc _ _ ?x => set (w5 := x) in * end.
  pose proof (st_finish gc p call claim (env_timestamp env) stored handle sequence w5
    (lookup_insert_eq _ _ _)) as Hstep.
  destruct (PublishFinish call claim handle sequence (RecordStorage.sr_truncated stored) k5)
    as [k6 ret] eqn:Hfin.
  eexists. split; [exact (rtc_r _ _ _ H5 Hstep)|]. split; [exact (f_equal fst Hfin)|].
  split; try done.
  - unfold on_finish, w5, stage, moves_to. cbn. by rewrite delete_insert_id.
  - right. exists sequence, (RecordStorage.sr_truncated stored), handle.
    split_and!; try done. unfold PublishFinish in Hfin. by injection Hfin.
Qed.

(** ** What each piece returns *)

(** The producer's slot is claimed, or its lane is full. *)
Definition lane_refuses : bool :=
  bool_decide (is_Some (publishing w !! p))
  || (ProducerLanes.outstanding (lane_system w) p
      =? Z.of_nat (ProducerLanes.capacity (ProducerLanes.lane_at (lanes (impl w)) p))).

Lemma claim_outcome :
  world_inv gc w -> zlen (history w) < 2 ^ 64 -> (p < producer_slots (config (impl w)))%nat ->
  match PublishClaim call (impl w) with
  | (k, inr ret) => lane_refuses = true /\ ret = refused kLaneFull
  | (k, inl claim) =>
      lane_refuses = false
      /\ exists l, k = impl w <| lanes := l |>
          /\ ProducerLanes.next_admission_sequence_ l
             = ProducerLanes.next_admission_sequence_ (lanes (impl w))
  end.
Proof.
  intros Hinv Hlen Hlt. pose proof (wi_lanes _ _ Hinv) as Hl. unfold PublishClaim, lane_refuses. fold p.
  destruct (ProducerLanes.TryClaimPublication_cases _ p Hl Hlen) as [[Hge _]|(lane & Hp & Hlk & Hcase)].
  { exfalso. cbn in Hge. rewrite (io_count _ (wi_impl _ _ Hinv)) in Hge. lia. }
  destruct (ProducerLanes.ln_lane _ Hl p lane Hp Hlk) as [Hh Hpub]. cbn in Hp, Hlk, Hcase.
  assert (ProducerLanes.lane_at (lanes (impl w)) p = lane) as Hat
    by (unfold ProducerLanes.lane_at; by rewrite Hlk).
  assert (ProducerLanes.outstanding (lane_system w) p
          = ProducerLanes.published_position lane - ProducerLanes.read_position lane) as Hout.
  { unfold ProducerLanes.outstanding.
    by rewrite (ProducerLanes.lh_published _ _ _ _ _ Hh), (ProducerLanes.lh_read _ _ _ _ _ Hh). }
  assert (is_Some (publishing w !! p) <-> ProducerLanes.publishing lane = true) as Hiff.
  { rewrite Hpub. cbn [lane_system ProducerLanes.publications]. by rewrite lookup_fmap, fmap_is_Some. }
  rewrite Hat, Hout. destruct Hcase as [[Ht H]|[(Hf & Hfull & H)|(Hf & Hroom & H)]]; rewrite H; cbn.
  - rewrite bool_decide_eq_true_2 by (by apply Hiff). done.
  - rewrite (proj2 (Z.eqb_eq _ _)) by lia. by rewrite orb_true_r.
  - rewrite bool_decide_eq_false_2 by (rewrite Hiff; congruence).
    rewrite (proj2 (Z.eqb_neq _ _)) by lia. split; [done|]. by eexists.
Qed.

Section Stages.
Context (k : Impl) (claim : ProducerLanes.PublicationClaim).

Lemma recheck_outcome shard :
  world_inv gc (stage k (PClaimed claim)) ->
  PublishRecheck shard call claim k
  = if negb (IsAdmissionOpen k) || negb (IsActive p (call_generation call) k)
    then (CountMissingProducer shard k, inr (refused kNoProducerSlot))
    else (k, inl (ProducerLanes.cell_index_ claim)).
Proof.
  intros Hinv. unfold PublishRecheck. fold p.
  destruct (negb (IsAdmissionOpen k) || negb (IsActive p (call_generation call) k)); [done|].
  destruct (claim_bound _ p _ (wi_impl _ _ Hinv) (wi_lanes _ _ Hinv) (stage_lookup k (PClaimed claim)))
    as (_ & Hcell & Ho & _). cbn in Hcell, Ho.
  unfold ProducerLanes.claim_cell_index. rewrite Ho.
  by rewrite (proj2 (Nat.leb_gt _ _)).
Qed.

(** The credit the producer can draw on. *)
Definition credit_available (k0 : Impl) : Z :=
  CreditLedger.central_available_bytes_ (ledger k0)
  + CreditLedger.slot_credit (CreditLedger.slot_at (ledger k0) p).

Lemma reserve_outcome cell n :
  world_inv gc (stage k (PChecked claim cell)) ->
  match PublishReserve n call k with
  | (_, inr ret) =>
      credit_available k < AccountingCharge (maximum_record_bytes (config k))
      /\ ret = refused kBudgetExhausted
  | (k', inl _) =>
      AccountingCharge (maximum_record_bytes (config k)) <= credit_available k
      /\ exists l, k' = k <| ledger := l |>
  end.
Proof.
  intros Hinv. pose proof (wi_impl _ _ Hinv) as Hok. change (impl (stage _ _)) with k in Hok.
  pose proof (io_config _ Hok) as [Hrec Hal Hpay _ _].
  set (maximum := maximum_record_bytes (config k)) in *.
  unfold kMinimumRecordBytes, kMaximumRecordBytes, kAccountingQuantumBytes in *.
  assert (0 <= maximum <= size_max) as Hm by (unfold size_max; lia).
  destruct (claim_bound _ p _ (wi_impl _ _ Hinv) (wi_lanes _ _ Hinv)
    (stage_lookup k (PChecked claim cell))) as (Hp & _).
  destruct (AccountingCharge_bounds maximum) as [Hlow _]; [unfold size_max; lia|].
  assert (AccountingCharge maximum <= maximum) as Hhigh
    by (apply AccountingCharge_le_limit; unfold size_max; lia).
  pose proof (CreditLedger.TryReserve_cases _ _ _ (wi_ledger _ _ Hinv) n p maximum Hm) as Hcases.
  change (CreditLedger.ledger (ledger_system _)) with (ledger k) in Hcases.
  unfold PublishReserve, credit_available. fold p maximum. cbn in Hcases, Hp.
  destruct Hcases as [[_ Hbad]|(slot & Hs & _ & _ & _ & Hcase)].
  { rewrite (io_ledger_count _ Hok), (io_capacity _ Hok) in Hbad. lia. }
  assert (CreditLedger.slot_at (ledger k) p = slot) as ->
    by (unfold CreditLedger.slot_at; by rewrite Hs).
  destruct Hcase as [[Hlt H]|[Hge H]]; rewrite H; cbn [CreditLedger.res_ledger_ CreditLedger.null_reservation].
  - done.
  - split; [done|]. by eexists.
Qed.
End Stages.

(** What the call returns. *)
Definition expected_return (timestamp : Z) : PublishReturn :=
  let k := impl w in
  let maximum := maximum_record_bytes (config k) in
  if negb (IsActive p (call_generation call) k) then refused kNoProducerSlot
  else if lane_refuses then refused kLaneFull
  else if negb (IsAdmissionOpen k) then refused kNoProducerSlot
  else if credit_available k <? AccountingCharge maximum then refused kBudgetExhausted
  else
    match call_result gc maximum call timestamp with
    | inr ret => ret
    | inl (_, t) =>
        Returned {| outcome := kAccepted; admission_sequence := Some (zlen (history w));
                    result_truncated := t |}
    end.

(** The invariant at a later stage, from the one before. *)
Lemma stage_inv {X} shard claim (next : X -> phase) k ph k' x :
  kernel_step gc (stage k ph) (settle shard p call claim next (k', inl x) (stage k ph)) ->
  zlen (history w) < 2 ^ 64 ->
  world_inv gc (stage k ph) -> world_inv gc (stage k' (next x)).
Proof. rewrite settle_stage. intros Hstep Hlen. by apply (kernel_step_inv gc _ _ Hstep). Qed.

Lemma TryPublishSlot_returns :
  world_inv gc w -> zlen (history w) < 2 ^ 64 ->
  (TryPublishSlot gc env call (impl w)).2 = expected_return (env_timestamp env).
Proof.
  intros Hinv Hlen. destruct Henv as [Hshard Hts]. unfold TryPublishSlot, expected_return. fold p.
  destruct (IsActive p (call_generation call) (impl w)) eqn:Hact; cbn [negb]; [|done].
  assert (p < producer_slots (config (impl w)))%nat as Hp by (unfold IsActive in Hact; by b2p).
  pose proof (claim_outcome Hinv Hlen Hp) as Hclaim. pose proof (claim_step gc w call Hinv Hlen Hcall) as I0.
  unfold on_claim in I0. destruct (PublishClaim call (impl w)) as [k [claim|ret]].
  2:{ by destruct Hclaim as [-> ->]. }
  destruct Hclaim as (-> & l & -> & Hnext). set (k := impl w <| lanes := l |>) in *.
  change (world_inv gc (stage k (PClaimed claim))) in I0.
  pose proof (st_recheck gc p call claim (env_shard env) _ (stage_lookup k (PClaimed claim)) Hshard) as S1.
  change (impl (stage k _)) with k in S1.
  rewrite (recheck_outcome k claim (env_shard env) I0) in *.
  change (IsAdmissionOpen k) with (IsAdmissionOpen (impl w)) in *.
  change (IsActive p (call_generation call) k) with (IsActive p (call_generation call) (impl w)) in *.
  rewrite Hact in *. destruct (IsAdmissionOpen (impl w)); cbn [negb orb] in *; [|done].
  set (cell := ProducerLanes.cell_index_ claim) in *.
  apply stage_inv in S1 as I1; [|done|done]. clear S1 I0.
  pose proof (st_reserve gc p call claim cell (env_spurious env) _ (stage_lookup k (PChecked claim cell))) as S2.
  change (impl (stage k _)) with k in S2.
  pose proof (reserve_outcome k claim cell (env_spurious env) I1) as Hreserve.
  change (credit_available k) with (credit_available (impl w)) in Hreserve.
  change (config k) with (config (impl w)) in Hreserve.
  destruct (PublishReserve (env_spurious env) call k) as [k2 [r|ret]].
  2:{ destruct Hreserve as [Hlt ->]. by rewrite (proj2 (Z.ltb_lt _ _)). }
  destruct Hreserve as [Hge [l2 ->]]. rewrite (proj2 (Z.ltb_ge _ _)) by done.
  set (k2 := k <| ledger := l2 |>) in *. apply stage_inv in S2 as I2; [|done|done]. clear S2 I1.
  pose proof (st_build gc p call claim cell r (env_timestamp env) _
    (stage_lookup k2 (PReserved claim cell r)) Hts) as S3. change (impl (stage k2 _)) with k2 in S3.
  destruct (ci_publishing _ _ (wi_cells _ _ I2) p _ (stage_lookup k2 _)) as [_ _ (_ & Hfree & _)].
  destruct (config_bounds gc _ I2) as [Hmax _].
  pose proof (build_result gc k2 call (env_timestamp env) cell r Hmax Hcall Hts Hfree) as Hbuild.
  change (config k2) with (config (impl w)) in Hbuild.
  destruct (PublishBuild gc (env_timestamp env) call cell r k2) as [k3 [stored|ret]].
  2:{ by destruct Hbuild as [_ ->]. }
  destruct Hbuild as (s3 & d & t & Hk3 & _ & -> & Hstored).
  apply stage_inv in S3 as I3; [|done|done]. clear S3 I2.
  pose proof (st_commit gc p call claim cell r (env_timestamp env) stored _ (stage_lookup k3 _)) as S4.
  change (impl (stage k3 _)) with k3 in S4.
  destruct (commit_result gc _ _ _ _ _ _ _ I3 (stage_lookup k3 _)) as (l4 & gen & _ & _ & Hcommit).
  change (impl (stage k3 _)) with k3 in Hcommit. rewrite Hcommit in *.
  apply stage_inv in S4 as I4; [|done|done]. clear S4 I3.
  unfold PublishAllocate. rewrite (filled_allowed gc _ _ _ _ _ _ _ _ I4 (stage_lookup _ _)).
  cbn [ProducerLanes.AllocateSequence snd PublishFinish].
  rewrite Hstored. cbn [RecordStorage.stored_record RecordStorage.sr_truncated]. do 3 f_equal.
  change (lanes (committed k3 _ _ _ _)) with (lanes k3). rewrite Hk3.
  change (lanes (set_record_slot cell s3 k2)) with l. rewrite Hnext.
  apply (ProducerLanes.ln_admitted _ (wi_lanes _ _ Hinv)).
Qed.
End Runs.
