(* ===== verification/KernelAccounting.v ===== *)
(** * What the pieces of the kernel count, and the slots they register

    Lemmas for [KernelProperties.v]: which parts of the kernel each piece of
    [ProducerKernel.v] leaves alone, what it counts, and two invariants of
    [kernel_step]: the counters agree with the refusals, and the producer slots with the
    registrations that were handed out. *)
From stdpp Require Import gmap relations.
From S2P Require Import Prelude KernelTypes ThreadRegistry ProducerKernel KernelWorld.
From S2P Require CreditLedger ProducerLanes RecordLayout RecordStorage.
#[local] Open Scope Z_scope.
#[local] Open Scope ulog_scope.

(** ** Parts of the kernel *)

(** What registering and closing change; publishing and consuming do not. *)
Definition registration_part (k : Impl) := (config k, controls k, lifetime k, level k).

(** What publishing and consuming change; registering and closing do not. *)
Definition counting_part (k : Impl) :=
  (config k, counters k, missing_producer_counters k, consumed_records k,
   consumer_validation_errors k).

Section Parts.
Context {X} (part : Impl -> X).

Lemma part_trans k1 k2 k3 : part k3 = part k2 -> part k2 = part k1 -> part k3 = part k1.
Proof. congruence. Qed.
End Parts.

Lemma reset_ownership_part cell k :
  registration_part (ResetOwnership cell k) = registration_part k
  /\ counting_part (ResetOwnership cell k) = counting_part k.
Proof. unfold ResetOwnership. by case_match. Qed.

Lemma clear_cell_part cell k :
  registration_part (ClearCell cell k) = registration_part k
  /\ counting_part (ClearCell cell k) = counting_part k.
Proof. apply reset_ownership_part. Qed.

Lemma emplace_part cell o k :
  registration_part (EmplaceOwnership cell o k) = registration_part k
  /\ counting_part (EmplaceOwnership cell o k) = counting_part k.
Proof. apply reset_ownership_part. Qed.

Lemma leave_part claim k :
  registration_part (PublishLeave claim k) = registration_part k
  /\ counting_part (PublishLeave claim k) = counting_part k.
Proof. unfold PublishLeave, Notify. by case_match. Qed.

(** A piece is unfolded and its branches compared. *)
Ltac part_tac :=
  repeat case_match; simplify_eq; cbn [fst snd];
  first [ done | apply reset_ownership_part | apply clear_cell_part | apply leave_part ].

(** *** Pieces that keep the registrations *)

Lemma claim_registrations call k :
  registration_part (PublishClaim call k).1 = registration_part k.
Proof. unfold PublishClaim. part_tac. Qed.

Lemma recheck_registrations shard call claim k :
  registration_part (PublishRecheck shard call claim k).1 = registration_part k.
Proof. unfold PublishRecheck. part_tac. Qed.

Lemma reserve_registrations n call k :
  registration_part (PublishReserve n call k).1 = registration_part k.
Proof. unfold PublishReserve. part_tac. Qed.

Lemma build_registrations gc ts call cell r k :
  registration_part (PublishBuild gc ts call cell r k).1 = registration_part k.
Proof. unfold PublishBuild. part_tac. Qed.

Lemma commit_registrations call cell r stored k :
  registration_part (PublishCommit call cell r stored k).1 = registration_part k.
Proof.
  unfold PublishCommit. repeat case_match; [done|]. cbn [fst].
  etransitivity; [apply emplace_part|done].
Qed.

Lemma allocate_registrations call claim handle cell k :
  registration_part (PublishAllocate call claim handle cell k).1 = registration_part k.
Proof.
  unfold PublishAllocate. repeat case_match; [done|]. cbn [fst].
  etransitivity; [|apply (clear_cell_part cell)]. done.
Qed.

Lemma finish_registrations call claim handle sequence t k :
  registration_part (PublishFinish call claim handle sequence t k).1 = registration_part k.
Proof.
  unfold PublishFinish. cbn [fst]. etransitivity; [apply leave_part|]. by case_match.
Qed.

Lemma consume_claim_registrations k : registration_part (ConsumeClaim k).1 = registration_part k.
Proof. unfold ConsumeClaim. part_tac. Qed.

Lemma consume_record_registrations b claim k :
  registration_part (ConsumeRecord b claim k).1 = registration_part k.
Proof.
  unfold ConsumeRecord. cbn [fst]. do 2 case_match; try done;
    match goal with
    | |- context [ClearCell ?c ?k0] =>
        transitivity (registration_part (ClearCell c k0)); [done|];
        etransitivity; [apply clear_cell_part|done]
    end.
Qed.

(** *** Pieces that keep the counters *)

Lemma finish_retirement_counts slot k : counting_part (FinishRetirement slot k) = counting_part k.
Proof. unfold FinishRetirement. part_tac. Qed.

Lemma try_finish_counts slot k : counting_part (TryFinishRetirement slot k) = counting_part k.
Proof. unfold TryFinishRetirement. case_match; [apply finish_retirement_counts|done]. Qed.

Lemma acquire_counts slot k : counting_part (AcquireSlot slot k).1 = counting_part k.
Proof.
  unfold AcquireSlot. repeat case_match; try done. cbn [fst].
  etransitivity; [apply try_finish_counts|done].
Qed.

Lemma retire_slot_counts slot generation k :
  counting_part (RetireSlot slot generation k).1 = counting_part k.
Proof. unfold RetireSlot. part_tac. Qed.

Lemma close_counts k : counting_part (CloseAdmission k) = counting_part k.
Proof. unfold CloseAdmission, Notify. part_tac. Qed.

(** ** Counters *)

Lemma w64_idemp x : w64 (w64 x) = w64 x.
Proof. apply Zmod_mod. Qed.

(** The reason of a refusal; an exception of the builder is an abandoned record. *)
Definition reason (ret : PublishReturn) : PublishOutcome :=
  match ret with Returned result => outcome result | Threw => kInvalidRecord end.

Definition refusal_reasons : list PublishOutcome :=
  [kNoProducerSlot; kLaneFull; kBudgetExhausted; kInvalidRecord].

(** Why a publication was refused, by the counter it belongs to. *)
Inductive Cause := NoProducer | LaneFull | Budget | Abandoned | Invalid.

#[export] Instance Cause_eq_dec : EqDecision Cause.
Proof. solve_decision. Defined.

Definition causes : list Cause := [NoProducer; LaneFull; Budget; Abandoned; Invalid].

(** The builder of the call got a record to build and gave it up. *)
Definition gave_up (maximum : Z) (call : PublishCall) : bool :=
  match call_operation call with
  | Some builder =>
      bool_decide (RecordStorage.begin_accepts maximum (call_level call) (call_source call))
      && match build_end builder with BuildReturns kInvalid => true | _ => false end
  | None => false
  end.

Definition cause (maximum : Z) (r : Rejection) : Cause :=
  match r_return r with
  | Threw => Abandoned
  | Returned result =>
      match outcome result with
      | kNoProducerSlot => NoProducer
      | kLaneFull => LaneFull
      | kBudgetExhausted => Budget
      | _ => if default false (gave_up maximum <$> r_call r) then Abandoned else Invalid
      end
  end.

(** The refusals for a cause, and those of them counted at one index. *)
Definition refused_for (maximum : Z) (c : Cause) (rs : list Rejection) : Z :=
  zlen (filter (fun r => cause maximum r = c) rs).

Definition refused_at (maximum : Z) (c : Cause) (i : nat) (rs : list Rejection) : Z :=
  zlen (filter (fun r => cause maximum r = c /\ r_index r = i) rs).

(** The counter of a cause at an index. *)
Definition field (c : Cause) (x : ProducerCounters) : Z :=
  match c with
  | NoProducer => 0
  | LaneFull => rejected_lane_full x
  | Budget => rejected_budget x
  | Abandoned => abandoned_builds x
  | Invalid => invalid_records x
  end.

Definition counter (c : Cause) (i : nat) (k : Impl) : Z :=
  match c with NoProducer => missing_at i k | _ => field c (counters_at k i) end.

(** How many counters a cause has. *)
Definition shards (c : Cause) (k : Impl) : nat :=
  match c with NoProducer => kMaximumProducerSlots | _ => producer_slots (config k) end.

(** From [k] to [k'], one refusal was counted, or nothing. *)
Record counted (k k' : Impl) (r : option Rejection) : Prop := {
  cd_config : config k' = config k;
  cd_counters : length (counters k') = length (counters k);
  cd_missing : length (missing_producer_counters k') = length (missing_producer_counters k);
  cd_counter : forall c i, counter c i k'
    = match r with
      | Some r =>
          if decide (cause (maximum_record_bytes (config k)) r = c /\ r_index r = i)
          then counter c i k +w 1 else counter c i k
      | None => counter c i k
      end;
  cd_index : forall x, r = Some x ->
    (r_index x < shards (cause (maximum_record_bytes (config k)) x) k)%nat
    /\ reason (r_return x) ∈ refusal_reasons;
}.

Lemma counter_part c i k k' : counting_part k' = counting_part k -> counter c i k' = counter c i k.
Proof.
  unfold counting_part. intros [= _ Hn Hm _ _]. unfold counter, missing_at, counters_at. by rewrite Hn, Hm.
Qed.

Lemma counted_none k k' : counting_part k' = counting_part k -> counted k k' None.
Proof.
  intros H. unfold counting_part in H. split; try congruence. intros c i. by apply counter_part.
Qed.

(** Steps that count nothing, before and after. *)
Lemma counted_between k1 k2 k3 k4 r :
  counting_part k2 = counting_part k1 -> counted k2 k3 r -> counting_part k4 = counting_part k3 ->
  counted k1 k4 r.
Proof.
  intros H12 [H1 H2 H3 H4 H5] H34. assert (config k2 = config k1) as Hc by (unfold counting_part in H12; congruence).
  rewrite Hc in H4, H5. split; try (unfold counting_part in *; congruence).
  - intros c i. rewrite (counter_part _ _ _ _ H34), H4. destruct r; by rewrite (counter_part _ _ _ _ H12).
  - intros x Hx. specialize (H5 x Hx). unfold shards in *. by rewrite Hc in H5.
Qed.

Section Count.
Context (k : Impl) (p : nat).
Context (Hlen : length (counters k) = kMaximumProducerSlots)
  (Hp : (p < producer_slots (config k))%nat) (Hmax : (producer_slots (config k) <= kMaximumProducerSlots)%nat).

Lemma counters_at_on g i :
  counters_at (on_counters g p k) i = if decide (i = p) then g (counters_at k i) else counters_at k i.
Proof.
  unfold counters_at. change (counters (on_counters g p k)) with (alter g p (counters k)). case_decide as Hi.
  - subst i. destruct (lookup_lt_is_Some_2 (counters k) p ltac:(lia)) as [x Hx].
    rewrite list_lookup_alter_eq, Hx. done.
  - by rewrite list_lookup_alter_ne.
Qed.

(** An update of the counters of [p] that adds one to the counter of a cause. *)
Lemma counted_one g r :
  cause (maximum_record_bytes (config k)) r <> NoProducer -> r_index r = p ->
  reason (r_return r) ∈ refusal_reasons ->
  (forall c x, field c (g x)
     = if decide (cause (maximum_record_bytes (config k)) r = c) then field c x +w 1 else field c x) ->
  counted k (on_counters g p k) (Some r).
Proof.
  intros Hno Hi Hr Hg. split; try done.
  - cbn. by rewrite length_alter.
  - intros c i. rewrite Hi. unfold counter. destruct (decide (c = NoProducer)) as [->|Hne].
    { by rewrite decide_False by (intros []; congruence). }
    assert (forall k', match c with NoProducer => missing_at i k' | _ => field c (counters_at k' i) end
      = field c (counters_at k' i)) as E by (by destruct c).
    rewrite !E, counters_at_on. destruct (decide (i = p)) as [->|Hip].
    + rewrite Hg. by repeat case_decide; try (exfalso; intuition congruence).
    + by rewrite decide_False by (intros []; congruence).
  - intros x [= <-]. split; [|done]. rewrite Hi. unfold shards. by case_match.
Qed.

Lemma counted_truncated : counted k (CountTruncated p k) None.
Proof.
  split; try done.
  - cbn. by rewrite length_alter.
  - intros c i. unfold CountTruncated. destruct c; cbn [counter]; [done|..];
      rewrite counters_at_on; by case_decide.
Qed.
End Count.

Ltac listed := cbn; unfold refusal_reasons; rewrite ?elem_of_cons; tauto.
Ltac field_tac := intros c x; destruct c; cbn; repeat case_decide; done.

Section CountCall.
Context (k : Impl) (call : PublishCall) (shard : nat).
Context (Hlen : length (counters k) = kMaximumProducerSlots)
  (Hp : (call_slot call < producer_slots (config k))%nat)
  (Hmax : (producer_slots (config k) <= kMaximumProducerSlots)%nat).

Lemma count_lane_full :
  counted k (CountLaneFull (call_slot call) k) (Some (rejection shard call (refused kLaneFull))).
Proof. apply counted_one; [done..|listed|field_tac]. Qed.

Lemma count_budget :
  counted k (CountBudget (call_slot call) k) (Some (rejection shard call (refused kBudgetExhausted))).
Proof. apply counted_one; [done..|listed|field_tac]. Qed.

Lemma count_thrown : counted k (CountAbandoned (call_slot call) k) (Some (rejection shard call Threw)).
Proof. apply counted_one; [done..|listed|field_tac]. Qed.

Lemma cause_invalid maximum :
  cause maximum (rejection shard call (refused kInvalidRecord))
  = if gave_up maximum call then Abandoned else Invalid.
Proof. done. Qed.

Lemma count_abandoned :
  gave_up (maximum_record_bytes (config k)) call = true ->
  counted k (CountAbandoned (call_slot call) k) (Some (rejection shard call (refused kInvalidRecord))).
Proof.
  intros Hg. apply counted_one; try done; rewrite ?cause_invalid, ?Hg; try done;
    [listed|field_tac].
Qed.

Lemma count_invalid :
  gave_up (maximum_record_bytes (config k)) call = false ->
  counted k (CountInvalid (call_slot call) k) (Some (rejection shard call (refused kInvalidRecord))).
Proof.
  intros Hg. apply counted_one; try done; rewrite ?cause_invalid, ?Hg; try done;
    [listed|field_tac].
Qed.
End CountCall.

(** A missing producer, with or without a call. *)
Lemma count_missing k shard call :
  length (missing_producer_counters k) = kMaximumProducerSlots ->
  (shard < kMaximumProducerSlots)%nat ->
  counted k (CountMissingProducer shard k)
    (Some {| r_call := call; r_index := shard; r_return := refused kNoProducerSlot |}).
Proof.
  intros Hm Hs. split; try done.
  - cbn. by rewrite length_alter.
  - intros c i. destruct (decide (c = NoProducer)) as [->|Hne].
    + cbn [counter cause r_return refused outcome r_index]. unfold missing_at.
      change (missing_producer_counters (CountMissingProducer shard k))
        with (alter (fun n => n +w 1) shard (missing_producer_counters k)).
      case_decide as Hd.
      * destruct Hd as [_ <-]. destruct (lookup_lt_is_Some_2 (missing_producer_counters k) shard ltac:(lia)) as [x Hx].
        by rewrite list_lookup_alter_eq, Hx.
      * by rewrite list_lookup_alter_ne by (intros ->; by apply Hd).
    + rewrite decide_False by (by intros [<- _]). by destruct c.
  - intros x [= <-]. split; [done|]. listed.
Qed.

(** *** What each piece counts *)

Definition rejected {X} (shard : nat) (call : PublishCall) (out : X + PublishReturn) : option Rejection :=
  match out with inl _ => None | inr ret => Some (rejection shard call ret) end.

(** The arrays of counters, and the slots they are for. *)
Record counters_ok (k : Impl) : Prop := {
  co_counters : length (counters k) = kMaximumProducerSlots;
  co_missing : length (missing_producer_counters k) = kMaximumProducerSlots;
  co_slots : (producer_slots (config k) <= kMaximumProducerSlots)%nat;
}.

Lemma counters_ok_part k k' : counting_part k' = counting_part k -> counters_ok k -> counters_ok k'.
Proof. unfold counting_part. intros [= Hc Hn Hm _ _] [H1 H2 H3]. split; congruence. Qed.

Lemma counters_ok_counted k k' r : counted k k' r -> counters_ok k -> counters_ok k'.
Proof. intros [Hc Hn Hm _ _] [H1 H2 H3]. split; congruence. Qed.

Section Pieces.
Context (gc : Z -> option (list byte)) (w : World) (call : PublishCall).
Context (Hinv : world_inv gc w) (Hlen : zlen (history w) < 2 ^ 64).
Context (Hok : counters_ok (impl w)) (Hp : (call_slot call < producer_slots (config (impl w)))%nat).

(** A count after and before steps that count nothing. *)
Lemma counts_then k1 k2 (count : nat -> Impl -> Impl) r :
  (length (counters k1) = kMaximumProducerSlots -> (call_slot call < producer_slots (config k1))%nat ->
    (producer_slots (config k1) <= kMaximumProducerSlots)%nat -> config k1 = config (impl w) ->
    counted k1 (count (call_slot call) k1) r) ->
  counting_part k1 = counting_part (impl w) -> counting_part k2 = counting_part (count (call_slot call) k1) ->
  counted (impl w) k2 r.
Proof.
  intros Hcount H1 H2. pose proof (counters_ok_part _ _ H1 Hok) as [? ? ?].
  assert (config k1 = config (impl w)) by (unfold counting_part in H1; congruence).
  eapply counted_between; [done| |done]. apply Hcount; try done. congruence.
Qed.

Lemma claim_counts :
  let out := PublishClaim call (impl w) in counted (impl w) out.1 (rejected 0 call out.2).
Proof.
  pose proof (claim_outcome gc w call Hinv Hlen Hp) as Hout. unfold PublishClaim in *.
  destruct (ProducerLanes.TryClaimPublication _ _) as [claim l].
  destruct (ProducerLanes.pub_owner_ claim); [by apply counted_none|].
  assert (counted (impl w) (CountLaneFull (call_slot call) (impl w <| lanes := l |>))
    (Some (rejection 0 call (refused kLaneFull)))) as Hfull.
  { apply (counts_then (impl w <| lanes := l |>) _ CountLaneFull); [|done..]. intros. by apply count_lane_full. }
  destruct (ProducerLanes.pub_status_ claim); cbn [fst snd rejected]; first [exact Hfull|by destruct Hout].
Qed.

(** The world of a call in flight is a stage of that call. *)
Lemma stage_self ph :
  publishing w !! call_slot call = Some {| p_call := call; p_phase := ph |} -> stage w call (impl w) ph = w.
Proof.
  intros Hph. unfold stage, moves_to. destruct w. cbn in *. by rewrite insert_id.
Qed.

Lemma recheck_counts shard claim :
  publishing w !! call_slot call = Some {| p_call := call; p_phase := PClaimed claim |} ->
  (shard < kMaximumProducerSlots)%nat ->
  let out := PublishRecheck shard call claim (impl w) in counted (impl w) out.1 (rejected shard call out.2).
Proof.
  intros Hph Hs. destruct Hok.
  rewrite (recheck_outcome gc w call (impl w) claim shard) by (by rewrite stage_self).
  case_match; [by apply (count_missing (impl w) shard (Some call))|by apply counted_none].
Qed.

Lemma reserve_counts n :
  let out := PublishReserve n call (impl w) in counted (impl w) out.1 (rejected 0 call out.2).
Proof.
  unfold PublishReserve. destruct (CreditLedger.TryReserve _ _ _ _) as [r l].
  case_match; cbn [fst snd rejected]; [by apply counted_none|].
  apply (counts_then (impl w <| ledger := l |>) _ CountBudget); [|done..]. intros. by apply count_budget.
Qed.

Lemma build_counts ts claim cell r :
  publishing w !! call_slot call = Some {| p_call := call; p_phase := PReserved claim cell r |} ->
  RecordLayout.is_s64 ts ->
  let out := PublishBuild gc ts call cell r (impl w) in counted (impl w) out.1 (rejected 0 call out.2).
Proof.
  intros Hph Hts. destruct (ci_publishing _ _ (wi_cells _ _ Hinv) _ _ Hph) as [_ Hcall (Hcell & Hfree & _)].
  cbn in Hcall, Hcell, Hfree. subst cell. destruct Hfree as (s & Hs & Hst & Hl & _).
  set (maximum := maximum_record_bytes (config (impl w))).
  assert (0 <= maximum <= kMaximumRecordBytes) as Hmax.
  { destruct (config_bounds gc w Hinv) as [H _]. unfold kMinimumRecordBytes in H. unfold maximum. lia. }
  pose proof (build_in_slot gc maximum call ts s Hcall Hts Hmax Hst Hl) as Hbegin.
  unfold PublishBuild, record_slot_at. rewrite Hs. fold maximum.
  change (default RecordStorage.initial_slot (Some s)) with s.
  destruct (RecordStorage.Begin maximum _ _ _ s) as [w1 s1].
  assert (forall s' cell', gave_up maximum call = false ->
    counted (impl w) (AbandonReservation r (set_record_slot cell' s' (CountInvalid (call_slot call) (impl w))))
      (Some (rejection 0 call (refused kInvalidRecord)))) as Hinvalid.
  { intros s' c' Hg. apply (counts_then (impl w) _ CountInvalid); [|done..]. intros. by apply count_invalid. }
  unfold gave_up in Hinvalid. destruct (call_operation call) as [builder|] eqn:Hop; [|by apply Hinvalid].
  destruct Hbegin as [(Hno & Hw & _)|(Hacc & d & Hrep & _)].
  { rewrite Hw. cbn [negb]. apply Hinvalid. by rewrite bool_decide_eq_false_2. }
  destruct (represents_writer _ _ _ Hrep) as (Hw & _). rewrite Hw. cbn [negb].
  rewrite bool_decide_eq_true_2 in Hinvalid by done.
  destruct (RecordStorage.run_ops _ _ _ _) as [w2 s2]. destruct (build_end builder) as [[]|] eqn:He.
  - destruct (RecordStorage.Publish w2 s2) as [[stored w3] s3].
    case_match; [by apply Hinvalid|by apply counted_none].
  - apply (counts_then (impl w) _ CountAbandoned); [|done..]. intros. apply count_abandoned; try done.
    unfold gave_up. rewrite Hop, He. by rewrite bool_decide_eq_true_2.
  - apply (counts_then (impl w) _ CountAbandoned); [|done..]. intros. by apply count_thrown.
Qed.

Lemma commit_counts claim cell r ts stored :
  publishing w !! call_slot call = Some {| p_call := call; p_phase := PBuilt claim cell r ts stored |} ->
  let out := PublishCommit call cell r stored (impl w) in counted (impl w) out.1 (rejected 0 call out.2).
Proof.
  intros Hph. destruct (commit_result gc w call claim cell r ts stored Hinv Hph) as (l' & gen & _ & _ & ->).
  by apply counted_none.
Qed.

Lemma allocate_counts claim cell ts stored handle :
  publishing w !! call_slot call = Some {| p_call := call; p_phase := PFilled claim cell ts stored handle |} ->
  let out := PublishAllocate call claim handle cell (impl w) in counted (impl w) out.1 (rejected 0 call out.2).
Proof.
  intros Hph. unfold PublishAllocate. rewrite (filled_allowed gc w _ _ _ _ _ _ _ Hinv Hph).
  by apply counted_none.
Qed.

Lemma finish_counts claim handle sequence t :
  counted (impl w) (PublishFinish call claim handle sequence t (impl w)).1 None.
Proof.
  unfold PublishFinish. cbn [fst].
  match goal with |- counted _ (PublishLeave ?c ?k') _ => set (k2 := k') end.
  eapply counted_between; [done| |apply leave_part]. unfold k2. case_match; [|by apply counted_none].
  eapply (counts_then (impl w <| lanes ::= _ |>) _ CountTruncated); [|done..].
  intros. by apply counted_truncated.
Qed.
End Pieces.

Lemma consume_claim_counts k : counting_part (ConsumeClaim k).1 = counting_part k.
Proof. unfold ConsumeClaim. part_tac. Qed.

(** Consuming counts no refusal. *)
Lemma consume_record_counts claim k : counted k (ConsumeRecord true claim k).1 None.
Proof.
  unfold ConsumeRecord. cbn [fst].
  match goal with |- counted _ (?k2 <| consumed_records ::= _ |>) _ => set (k' := k2) end.
  assert (config k' = config k /\ counters k' = counters k
          /\ missing_producer_counters k' = missing_producer_counters k) as (Hc & Hn & Hm).
  { unfold k'. destruct (EnvelopeValid true claim k), (_ <? _)%nat; try done;
      match goal with
      | |- context [ClearCell ?c ?k0] => destruct (clear_cell_part c k0) as [_ H]
      end; unfold counting_part in H; split_and!; cbn in H |- *; congruence. }
  split; try done; try (cbn; congruence).
  intros c i. unfold counter, missing_at, counters_at. cbn. by rewrite Hn, Hm.
Qed.

(** *** The counters agree with the refusals *)

Record accounts_inv (c : KernelConfig) (w : World) : Prop := {
  ai_config : config (impl w) = c;
  ai_ok : counters_ok (impl w);
  ai_entered : forall call, call ∈ entered w -> (call_slot call < producer_slots (config (impl w)))%nat;
  ai_counter : forall x i, counter x i (impl w) = w64 (refused_at (maximum_record_bytes c) x i (rejections w));
  ai_index : forall r, r ∈ rejections w ->
    (r_index r < shards (cause (maximum_record_bytes c) r) (impl w))%nat
    /\ reason (r_return r) ∈ refusal_reasons;
}.

Lemma refused_at_snoc maximum c i rs r :
  refused_at maximum c i (rs ++ [r])
  = refused_at maximum c i rs + if decide (cause maximum r = c /\ r_index r = i) then 1 else 0.
Proof.
  unfold refused_at. rewrite list.filter_app, zlen_app. f_equal. rewrite list.filter_cons, list.filter_nil.
  by case_decide.
Qed.

Lemma shards_config c k k' : config k' = config k -> shards c k' = shards c k.
Proof. unfold shards. by intros ->. Qed.

Lemma accounts_step c w w' r :
  accounts_inv c w -> counted (impl w) (impl w') r ->
  rejections w' = rejections w ++ option_list r ->
  (forall call, call ∈ entered w' -> (call_slot call < producer_slots (config (impl w)))%nat) ->
  accounts_inv c w'.
Proof.
  intros [Hcfg Hok Hent Ht Hr] Hc Href He'. pose proof (cd_config _ _ _ Hc) as Hcc. split.
  - by rewrite Hcc.
  - by eapply counters_ok_counted.
  - by rewrite Hcc.
  - intros x i. rewrite (cd_counter _ _ _ Hc), Ht, Href, Hcfg. destruct r as [r|]; simpl option_list.
    + rewrite refused_at_snoc. case_decide; [apply Zplus_mod_idemp_l|]. by rewrite Z.add_0_r.
    + by rewrite app_nil_r.
  - rewrite Href. intros x [Hin|Hin]%elem_of_app.
    { rewrite (shards_config _ (impl w)) by done. by apply Hr. }
    destruct r as [r|]; [|by apply elem_of_nil in Hin]. simpl option_list in Hin.
    apply list_elem_of_singleton in Hin as ->. rewrite (shards_config _ (impl w)) by done.
    rewrite <- Hcfg. by apply (cd_index _ _ _ Hc).
Qed.

(** A piece of a publication, settled. *)
Lemma accounts_settle {X} c shard p call claim (next : X -> phase) out w :
  accounts_inv c w -> counted (impl w) out.1 (rejected shard call out.2) ->
  accounts_inv c (settle shard p call claim next out w).
Proof.
  intros Hinv Hc. destruct out as [k [x|ret]]; cbn [fst snd rejected] in Hc;
    (eapply accounts_step; [exact Hinv|exact Hc| |apply Hinv]); [|done].
  by rewrite app_nil_r.
Qed.

Section Accounts.
Context (gc : Z -> option (list byte)).

Lemma publishing_slot w p call ph :
  world_inv gc w -> publishing w !! p = Some {| p_call := call; p_phase := ph |} ->
  call_slot call = p /\ (call_slot call < producer_slots (config (impl w)))%nat.
Proof.
  intros Hinv Hp. pose proof (po_slot _ _ _ _ (ci_publishing _ _ (wi_cells _ _ Hinv) p _ Hp)) as Hs.
  cbn in Hs. split; [done|]. rewrite Hs.
  by apply (claim_bound w p _ (wi_impl _ _ Hinv) (wi_lanes _ _ Hinv) Hp).
Qed.

Lemma quiet_accounts c w w' :
  accounts_inv c w -> counting_part (impl w') = counting_part (impl w) -> rejections w' = rejections w ->
  (forall call, call ∈ entered w' -> (call_slot call < producer_slots (config (impl w)))%nat) ->
  accounts_inv c w'.
Proof.
  intros Hinv Hpart Href He. apply (accounts_step c w w' None); try done.
  - by apply counted_none.
  - by rewrite app_nil_r.
Qed.

Lemma kernel_step_accounts c w w' :
  world_inv gc w -> zlen (history w') < 2 ^ 64 -> accounts_inv c w -> kernel_step gc w w' -> accounts_inv c w'.
Proof.
  intros Hinv Hlen' Hacc Hstep. pose proof (kernel_step_history gc _ _ Hstep) as Hgrow.
  assert (zlen (history w) < 2 ^ 64) as Hlen by lia. clear Hlen' Hgrow.
  pose proof (ai_ok _ _ Hacc) as Hok. pose proof (ai_entered _ _ Hacc) as Hent.
  destruct Hstep as [shard w Hs|call w Hcall Hact|call rest w Hperm|p call claim shard w Hp Hs
    |p call claim cell n w Hp|p call claim cell r ts w Hp Hts|p call claim cell r ts stored w Hp
    |p call claim cell ts stored handle w Hp|p call claim ts stored handle q w Hp|p call claim w Hp
    |w|claim w Hc|claim w Hc|slot w _|slot rest w _|slot w _|slot g w|slot g w|v w|w].
  all: try (destruct (publishing_slot _ _ _ _ Hinv Hp) as [<- Hlt]).
  - eapply accounts_step; [done|apply (count_missing (impl w) shard None); [apply Hok|done]|done|done].
  - apply (quiet_accounts c w); try done. intros c0 [->|Hin]%elem_of_cons; [|by apply Hent].
    unfold IsActive in Hact. b2p. done.
  - assert (call_slot call < producer_slots (config (impl w)))%nat as Hlt
      by (apply Hent; rewrite Hperm; by left).
    pose proof (claim_counts gc w call Hinv Hlen Hok Hlt) as Hcount.
    assert (forall c0, c0 ∈ rest -> (call_slot c0 < producer_slots (config (impl w)))%nat) as Hrest
      by (intros c0 Hc; apply Hent; rewrite Hperm; by right).
    unfold on_claim. change (impl (w <| entered := rest |>)) with (impl w).
    destruct (PublishClaim call (impl w)) as [k [x|ret]];
      (eapply accounts_step; [exact Hacc|exact Hcount| |done]); [|done]. by rewrite app_nil_r.
  - apply accounts_settle; [done|]. by eapply recheck_counts.
  - apply accounts_settle; [done|]. by apply reserve_counts.
  - apply accounts_settle; [done|]. by eapply build_counts.
  - apply accounts_settle; [done|]. by eapply commit_counts.
  - pose proof (accounts_settle c 0 (call_slot call) call claim (PAllocated claim ts stored handle) _ w Hacc
      (allocate_counts gc w call Hinv claim cell ts stored handle Hp)) as H.
    unfold on_allocate. destruct (PublishAllocate call claim handle cell (impl w)) as [k [x|ret]];
      destruct H; by split.
  - apply (accounts_step c w _ None); try done; [by apply finish_counts|by rewrite app_nil_r].
  - apply (quiet_accounts c w); try done. apply leave_part.
  - pose proof (consume_claim_counts (impl w)) as H. unfold on_consume_claim.
    destruct (ConsumeClaim (impl w)) as [k [x|st]]; by apply (quiet_accounts c w).
  - pose proof (consume_record_counts claim (impl w)) as H. unfold on_consume_record.
    destruct (ConsumeRecord true claim (impl w)) as [k seen].
    apply (accounts_step c w _ None); try done. by rewrite app_nil_r.
  - by apply (quiet_accounts c w).
  - by apply (quiet_accounts c w).
  - apply (quiet_accounts c w); try done. apply finish_retirement_counts.
  - apply (quiet_accounts c w); try done. apply acquire_counts.
  - by apply (quiet_accounts c w).
  - apply (quiet_accounts c w); try done. apply retire_slot_counts.
  - by apply (quiet_accounts c w).
  - apply (quiet_accounts c w); try done. apply close_counts.
Qed.

Lemma initial_accounts c : kernel_config_ok c -> accounts_inv c (initial_world c).
Proof.
  intros [_ _ _ [_ Hs] _]. split; [done|by split|..].
  - intros call Hc. by apply elem_of_nil in Hc.
  - intros x i. change (refused_at _ x i (rejections _)) with 0. change (w64 0) with 0.
    unfold counter, missing_at, counters_at. cbn [initial_world impl MakeImpl missing_producer_counters counters].
    destruct (decide (i < kMaximumProducerSlots)%nat) as [Hi|Hi].
    + rewrite !lookup_replicate_2 by done. by destruct x.
    + assert (forall A (y : A), replicate kMaximumProducerSlots y !! i = None) as Hnone
        by (intros; apply lookup_ge_None_2; rewrite length_replicate; lia).
      rewrite !Hnone. by destruct x.
  - intros r Hr. by apply elem_of_nil in Hr.
Qed.
End Accounts.

(** ** Registrations *)

(** How the producer slots and the registrations handed out can change. *)
Inductive control_move : list ProducerControl * list (nat * Z) ->
    list ProducerControl * list (nat * Z) -> Prop :=
| cm_take slot c cs t :
    cs !! slot = Some c -> control_state c = kFree ->
    control_move (cs, t)
      (<[slot := c <| control_state := kActive |>]> cs, t ++ [(slot, control_generation c)])
| cm_retire slot c st cs t :
    cs !! slot = Some c -> control_state c <> kFree -> st <> kFree -> st <> kActive ->
    control_move (cs, t) (<[slot := c <| control_state := st |>]> cs, t)
| cm_free slot c cs t :
    cs !! slot = Some c -> control_state c <> kFree -> control_state c <> kActive ->
    control_move (cs, t)
      (<[slot := c <| control_generation ::= fun g => g +w 1 |> <| control_state := kFree |>]> cs, t).

Definition moves_controls (k k' : Impl) (t t' : list (nat * Z)) : Prop :=
  rtc control_move (controls k, t) (controls k', t').

Lemma control_at_lookup k slot :
  control_state (control_at k slot) <> kFree -> controls k !! slot = Some (control_at k slot).
Proof. unfold control_at. by destruct (controls k !! slot). Qed.

Lemma on_control_controls f slot c k :
  controls k !! slot = Some c -> controls (on_control f slot k) = <[slot := f c]> (controls k).
Proof. intros Hc. cbn. by apply alter_as_insert. Qed.

(** A slot that is being retired, changed twice. *)
Lemma finish_retirement_moves slot k t : moves_controls k (FinishRetirement slot k) t t.
Proof.
  unfold moves_controls, FinishRetirement. case_bool_decide as Hst; [|done].
  assert (controls k !! slot = Some (control_at k slot)) as Hc
    by (apply control_at_lookup; by rewrite Hst).
  pose proof (on_control_controls (fun c => c <| control_state := kReconciling |>) slot _ k Hc) as H1.
  set (k1 := on_control _ slot k) in *.
  assert (slot < length (controls k))%nat as Hlt by (by eapply lookup_lt_Some).
  destruct (CreditLedger.TryReconcileProducer slot (ledger k1)) as [b l].
  set (k2 := k1 <| ledger := l |>).
  assert (controls k2 !! slot = Some (control_at k slot <| control_state := kReconciling |>)) as Hc2.
  { change (controls k2) with (controls k1). rewrite H1. by apply list_lookup_insert_eq. }
  eapply rtc_l; [apply (cm_retire slot _ kReconciling _ _ Hc); congruence|].
  rewrite <- H1. change (controls k1) with (controls k2). apply rtc_once.
  destruct b; rewrite (on_control_controls _ _ _ _ Hc2);
    [by apply (cm_free slot _ _ _ Hc2)|by apply (cm_retire slot _ kRetiring _ _ Hc2)].
Qed.

Lemma try_finish_moves slot k t : moves_controls k (TryFinishRetirement slot k) t t.
Proof. unfold TryFinishRetirement. case_match; [apply finish_retirement_moves|apply rtc_refl]. Qed.

Lemma acquire_moves slot w :
  (slot < length (controls (impl w)))%nat ->
  moves_controls (impl w) (impl (on_acquire slot w)) (taken w) (taken (on_acquire slot w)).
Proof.
  intros [c Hc]%lookup_lt_is_Some_2.
  assert (control_at (impl w) slot = c) as Hat by (unfold control_at; by rewrite Hc).
  unfold moves_controls, on_acquire, AcquireSlot. cbn [impl taken]. rewrite Hat.
  case_bool_decide as Hst; cbn [negb]; [|apply rtc_refl].
  set (k1 := on_control _ slot (impl w)).
  assert (controls k1 = <[slot := c <| control_state := kActive |>]> (controls (impl w))) as H1
    by (by apply on_control_controls).
  assert (rtc control_move (controls (impl w), taken w)
            (controls k1, taken w ++ [(slot, control_generation c)])) as Htake.
  { rewrite H1. apply rtc_once. by apply (cm_take slot). }
  destruct (negb (admission_open (lifetime k1))); cbn [fst]; [|exact Htake].
  assert (controls k1 !! slot = Some (c <| control_state := kActive |>)) as Hc1
    by (rewrite H1; apply list_lookup_insert_eq; by eapply lookup_lt_Some).
  etrans; [exact Htake|]. eapply rtc_l; [by apply (cm_retire slot _ kRetiring _ _ Hc1)|].
  rewrite <- (on_control_controls (fun c => c <| control_state := kRetiring |>) slot _ _ Hc1).
  apply try_finish_moves.
Qed.

Lemma retire_slot_moves slot g k t : moves_controls k (RetireSlot slot g k).1 t t.
Proof.
  unfold RetireSlot. case_match; [|apply rtc_refl]. cbn [fst]. b2p.
  match goal with H : bool_decide _ = true |- _ => apply bool_decide_eq_true in H end.
  assert (controls k !! slot = Some (control_at k slot)) as Hc
    by (apply control_at_lookup; congruence).
  unfold moves_controls. rewrite (on_control_controls _ _ _ _ Hc). apply rtc_once.
  apply (cm_retire slot _ kRetiring _ _ Hc); congruence.
Qed.

Lemma kernel_step_controls gc w w' :
  world_inv gc w -> length (controls (impl w)) = kMaximumProducerSlots -> kernel_step gc w w' ->
  moves_controls (impl w) (impl w') (taken w) (taken w').
Proof.
  intros Hinv Hlen Hstep.
  assert (forall k' t, registration_part k' = registration_part (impl w) ->
            moves_controls (impl w) k' t t) as Hsame.
  { intros k' t H. unfold registration_part in H. injection H as _ Hc _ _.
    unfold moves_controls. rewrite Hc. apply rtc_refl. }
  destruct Hstep as [shard w Hs|call w Hcall Hact|call rest w Hperm|p call claim shard w Hp Hs
    |p call claim cell n w Hp|p call claim cell r ts w Hp _|p call claim cell r ts stored w Hp
    |p call claim cell ts stored handle w Hp|p call claim ts stored handle q w Hp|p call claim w Hp
    |w|claim w Hc|claim w Hc|slot w _|slot rest w _|slot w Hs|slot g w|slot g w|v w|w].
  - by apply Hsame.
  - by apply Hsame.
  - pose proof (claim_registrations call (impl w)) as H. unfold on_claim.
    change (impl (w <| entered := rest |>)) with (impl w).
    destruct (PublishClaim call (impl w)) as [k [x|ret]]; by apply Hsame.
  - pose proof (recheck_registrations shard call claim (impl w)) as H. unfold settle.
    destruct (PublishRecheck shard call claim (impl w)) as [k [x|ret]]; by apply Hsame.
  - pose proof (reserve_registrations n call (impl w)) as H. unfold settle.
    destruct (PublishReserve n call (impl w)) as [k [x|ret]]; by apply Hsame.
  - pose proof (build_registrations gc ts call cell r (impl w)) as H. unfold settle.
    destruct (PublishBuild gc ts call cell r (impl w)) as [k [x|ret]]; by apply Hsame.
  - pose proof (commit_registrations call cell r stored (impl w)) as H. unfold settle.
    destruct (PublishCommit call cell r stored (impl w)) as [k [x|ret]]; by apply Hsame.
  - pose proof (allocate_registrations call claim handle cell (impl w)) as H. unfold on_allocate, settle.
    destruct (PublishAllocate call claim handle cell (impl w)) as [k [x|ret]]; by apply Hsame.
  - apply Hsame, finish_registrations.
  - apply Hsame, leave_part.
  - pose proof (consume_claim_registrations (impl w)) as H. unfold on_consume_claim.
    destruct (ConsumeClaim (impl w)) as [k [x|st]]; by apply Hsame.
  - pose proof (consume_record_registrations true claim (impl w)) as H. unfold on_consume_record.
    destruct (ConsumeRecord true claim (impl w)) as [k x]. by apply Hsame.
  - by apply Hsame.
  - by apply Hsame.
  - apply finish_retirement_moves.
  - apply acquire_moves. destruct (io_config _ (wi_impl _ _ Hinv)) as [_ _ _ [_ Hmax] _]. lia.
  - apply rtc_refl.
  - apply retire_slot_moves.
  - apply rtc_refl.
  - unfold moves_controls, CloseAdmission, Notify. cbn. case_match; apply rtc_refl.
Qed.

(** The generations handed out for a slot. *)
Definition gens_of (slot : nat) (t : list (nat * Z)) : list Z :=
  (filter (fun x => x.1 = slot) t).*2.

(** They are [1, 2, ...]; a slot that is not free holds the last one. *)
Definition slots_inv (s : list ProducerControl * list (nat * Z)) : Prop :=
  length s.1 = kMaximumProducerSlots
  /\ (forall slot g, (slot, g) ∈ s.2 -> (slot < kMaximumProducerSlots)%nat)
  /\ forall slot c, s.1 !! slot = Some c ->
       let n := zlen (gens_of slot s.2) in
       gens_of slot s.2 = seqZ 1 n
       /\ control_generation c = (if decide (control_state c = kFree) then n + 1 else n)
       /\ (control_state c <> kFree -> 1 <= n).

Lemma gens_of_snoc slot t slot' g :
  gens_of slot (t ++ [(slot', g)]) = gens_of slot t ++ if decide (slot' = slot) then [g] else [].
Proof.
  unfold gens_of. rewrite list.filter_app, fmap_app, list.filter_cons, list.filter_nil. f_equal.
  cbn [fst]. by destruct (decide (slot' = slot)).
Qed.

Lemma gens_le slot t : zlen (gens_of slot t) <= zlen t.
Proof.
  unfold gens_of, zlen. rewrite length_fmap.
  pose proof (length_filter (fun x : nat * Z => x.1 = slot) t). lia.
Qed.

Lemma elem_of_gens slot g t : g ∈ gens_of slot t <-> (slot, g) ∈ t.
Proof.
  unfold gens_of. rewrite list_elem_of_fmap. split.
  - intros ([slot' g'] & -> & [Hs Hin]%list_elem_of_filter). cbn in *. by subst.
  - intros Hin. exists (slot, g). split; [done|]. by apply list_elem_of_filter.
Qed.

Lemma gens_NoDup t : (forall slot, NoDup (gens_of slot t)) -> NoDup t.
Proof.
  induction t as [|[slot g] t IH]; intros H; [by constructor|]. constructor.
  - intros Hin%elem_of_gens. specialize (H slot). unfold gens_of in *.
    rewrite list.filter_cons, decide_True in H by done. cbn in H. by apply list.NoDup_cons in H as [H _].
  - apply IH. intros slot'. specialize (H slot'). unfold gens_of in *.
    rewrite list.filter_cons in H. case_decide; [|done]. cbn in H. by apply list.NoDup_cons in H as [_ H].
Qed.

Lemma control_move_inv s s' :
  control_move s s' -> zlen s'.2 < 2 ^ 64 - 1 -> slots_inv s -> slots_inv s'.
Proof.
  assert (forall n, (if decide (kFree = kFree) then n + 1 else n) = n + 1) as Hfree
    by (intros; by rewrite decide_True).
  intros Hm Hlt (Hlen & Hin & Hinv). destruct Hm as [slot c cs t Hc Hst|slot c st cs t Hc Hst H1 H2
    |slot c cs t Hc Hst Hst']; unfold slots_inv; cbn [fst snd] in *;
    pose proof (Hinv slot c Hc) as (Hg & Hgen & Hpos); pose proof (lookup_lt_Some _ _ _ Hc).
  - split_and!; [by rewrite length_insert| |].
    { intros slot' g [Hx|Hx]%elem_of_app; [by eapply Hin|].
      apply list_elem_of_singleton in Hx. simplify_eq. lia. }
    intros slot' c'. rewrite list_lookup_insert.
    destruct (decide (slot = slot' /\ (slot < length cs)%nat)) as [[<- _]|Hd].
    + intros [= <-]. rewrite decide_True in Hgen by done.
      rewrite gens_of_snoc, decide_True, zlen_app by done. cbn [control_state].
      rewrite decide_False by done. cbn. rewrite Hgen.
      change (zlen [zlen (gens_of slot t) + 1]) with 1. pose proof (zlen_nonneg (gens_of slot t)).
      split_and!; [|done|lia].
      rewrite Hg at 1. rewrite seqZ_app by lia. f_equal. rewrite seqZ_cons by lia. f_equal. lia.
    + intros Hc'. destruct (decide (slot = slot')) as [->|Hne]; [exfalso; by apply Hd|].
      rewrite gens_of_snoc, decide_False, app_nil_r by done. by apply Hinv.
  - split_and!; [by rewrite length_insert|done|].
    intros slot' c'. rewrite list_lookup_insert.
    destruct (decide (slot = slot' /\ (slot < length cs)%nat)) as [[<- _]|Hd]; [|by apply Hinv].
    intros [= <-]. rewrite decide_False in Hgen by done.
    cbn. rewrite decide_False by done. split_and!; [done..|]. intros _. by apply Hpos.
  - split_and!; [by rewrite length_insert|done|].
    intros slot' c'. rewrite list_lookup_insert.
    destruct (decide (slot = slot' /\ (slot < length cs)%nat)) as [[<- _]|Hd]; [|by apply Hinv].
    intros [= <-]. rewrite decide_False in Hgen by done.
    cbn. rewrite Hfree. specialize (Hpos Hst). pose proof (gens_le slot t).
    split_and!; [done| |done]. rewrite Hgen. apply w64_small. lia.
Qed.

(** A registration that can no longer publish. *)
Definition spent (slot : nat) (g : Z) (s : list ProducerControl * list (nat * Z)) : Prop :=
  exists c, s.1 !! slot = Some c
    /\ (g < control_generation c
        \/ (control_generation c = g /\ control_state c <> kFree /\ control_state c <> kActive)).

Section Slots.
Context (cs : list ProducerControl) (t : list (nat * Z)) (Hinv : slots_inv (cs, t)).

Lemma taken_NoDup : NoDup t.
Proof.
  destruct Hinv as (Hlen & Hin & H). cbn [fst snd] in *. apply gens_NoDup. intros slot.
  destruct (cs !! slot) as [c|] eqn:Hc.
  - destruct (H slot c Hc) as [Hg _]. rewrite Hg. apply NoDup_seqZ.
  - destruct (gens_of slot t) as [|g gs] eqn:Hg; [by constructor|]. exfalso.
    assert ((slot, g) ∈ t) as Hx by (apply elem_of_gens; rewrite Hg; by left).
    apply Hin in Hx. apply lookup_ge_None_1 in Hc. lia.
Qed.

(** A slot in use holds the newest registration of the slot. *)
Lemma held_is_newest slot c :
  cs !! slot = Some c -> control_state c <> kFree ->
  (slot, control_generation c) ∈ t /\ forall g, (slot, g) ∈ t -> g <= control_generation c.
Proof.
  destruct Hinv as (_ & _ & H). intros Hc Hst. destruct (H slot c Hc) as (Hg & Hgen & Hpos).
  rewrite decide_False in Hgen by done. specialize (Hpos Hst). cbn [snd] in *. split.
  - apply elem_of_gens. rewrite Hg, elem_of_seqZ. lia.
  - intros g Hin%elem_of_gens. rewrite Hg, elem_of_seqZ in Hin. lia.
Qed.

(** A registration that was handed out and is not active is spent. *)
Lemma inactive_spent slot g c :
  cs !! slot = Some c -> (slot, g) ∈ t ->
  (control_state c = kActive -> control_generation c <> g) -> spent slot g (cs, t).
Proof.
  destruct Hinv as (_ & _ & H). intros Hc Hin%elem_of_gens Hna. exists c. split; [done|].
  destruct (H slot c Hc) as (Hg & Hgen & _). cbn [snd] in *. rewrite Hg, elem_of_seqZ in Hin.
  destruct (decide (control_state c = kFree)) as [Hf|Hf]; [left; lia|].
  destruct (decide (control_generation c = g)) as [He|]; [|left; lia].
  right. split_and!; [done..|]. intros Ha. by apply Hna.
Qed.
End Slots.

Lemma control_move_grows s s' : control_move s s' -> zlen s.2 <= zlen s'.2.
Proof. destruct 1; cbn [snd]; rewrite ?zlen_app; try lia. change (zlen [_]) with 1. lia. Qed.

Lemma control_move_spent slot g s s' :
  control_move s s' -> zlen s'.2 < 2 ^ 64 - 1 -> slots_inv s -> spent slot g s -> spent slot g s'.
Proof.
  intros Hm Hlt (_ & _ & Hinv) (c & Hc & Hg). destruct s as [cs t]. cbn [fst snd] in *.
  assert (forall slot' c0 c', cs !! slot' = Some c0 ->
    (slot' = slot -> g < control_generation c'
       \/ (control_generation c' = g /\ control_state c' <> kFree /\ control_state c' <> kActive)) ->
    forall t', spent slot g (<[slot' := c']> cs, t')) as Hupd.
  { intros slot' c0 c' H0 H t'. destruct (decide (slot' = slot)) as [->|Hne].
    - exists c'. split; [|by apply H]. apply list_lookup_insert_eq. by eapply lookup_lt_Some.
    - exists c. split; [|done]. cbn [fst]. by rewrite list_lookup_insert_ne. }
  inversion Hm as [slot' c' cs' t' Hc' Hst Heq1 Heq2|slot' c' st cs' t' Hc' Hst H1 H2 Heq1 Heq2
    |slot' c' cs' t' Hc' Hst H1 Heq1 Heq2]; subst.
  - eapply Hupd; [done|]. intros ->. simplify_eq. cbn. left. by destruct Hg as [?|(_ & ? & _)].
  - eapply Hupd; [done|]. intros ->. simplify_eq. cbn. destruct Hg as [?|[? _]]; [by left|by right].
  - eapply Hupd; [done|]. intros ->. simplify_eq. cbn. left.
    destruct (Hinv slot c Hc) as (_ & Hgen & _). rewrite decide_False in Hgen by done.
    pose proof (gens_le slot t). pose proof (zlen_nonneg (gens_of slot t)). cbn in Hlt.
    rewrite w64_small by lia. lia.
Qed.

(** Both along any number of moves. *)
Lemma control_moves s s' :
  rtc control_move s s' -> zlen s'.2 < 2 ^ 64 - 1 -> slots_inv s ->
  zlen s.2 <= zlen s'.2 /\ slots_inv s' /\ forall slot g, spent slot g s -> spent slot g s'.
Proof.
  intros Hr. revert s Hr. refine (rtc_ind_l _ _ _ _); [done|].
  intros x y Hxy Hr IH Hlt Hinv. pose proof (control_move_grows _ _ Hxy) as Hle.
  assert (zlen y.2 <= zlen s'.2) as Hle'.
  { clear -Hr. induction Hr as [|a b c Hab _ IH]; [done|]. pose proof (control_move_grows _ _ Hab). lia. }
  assert (zlen y.2 < 2 ^ 64 - 1) as Hlty by lia.
  destruct (IH Hlt (control_move_inv _ _ Hxy Hlty Hinv)) as (_ & H1 & H2).
  split_and!; [lia|done|]. intros slot g Hs. apply H2. by apply (control_move_spent _ _ x).
Qed.

Lemma IsActive_spec slot g k :
  IsActive slot g k = true
  <-> (slot < producer_slots (config k))%nat /\ control_state (control_at k slot) = kActive
      /\ control_generation (control_at k slot) = g.
Proof.
  unfold IsActive. rewrite !andb_true_iff, bool_decide_eq_true, Nat.ltb_lt, Z.eqb_eq. tauto.
Qed.

Lemma spent_inactive slot g k t : spent slot g (controls k, t) -> IsActive slot g k = false.
Proof.
  intros (c & Hc & Hg). apply not_true_iff_false. intros (_ & Hst & Hgen)%IsActive_spec.
  unfold control_at in *. cbn [fst] in Hc. rewrite Hc in *. simpl in *.
  destruct Hg as [?|(_ & _ & ?)]; [lia|done].
Qed.

Section Reachable.
Context (gc : Z -> option (list byte)).

(** The worlds of a kernel, while its sequences have not wrapped around. *)
Definition kernel_reaches (c : KernelConfig) (w : World) : Prop :=
  kernel_config_ok c /\ rtc (kernel_step gc) (initial_world c) w /\ zlen (history w) < 2 ^ 64.

Lemma reaches_inv c w : kernel_reaches c w -> world_inv gc w.
Proof. intros (Hc & Hr & Hlen). by eapply kernel_reachable_inv. Qed.

Lemma reaches_accounts c w : kernel_reaches c w -> accounts_inv c w.
Proof.
  intros (Hc & Hr & Hlen).
  apply (reachable_ind gc c (accounts_inv c) w); try done; [by apply initial_accounts|].
  intros x y Hinv Hy Hx Hxy. by apply (kernel_step_accounts gc c x y).
Qed.

Lemma reaches_moves c w w' :
  kernel_reaches c w -> rtc (kernel_step gc) w w' -> zlen (history w') < 2 ^ 64 ->
  length (controls (impl w)) = kMaximumProducerSlots ->
  moves_controls (impl w) (impl w') (taken w) (taken w').
Proof.
  intros Hw Hr Hlen Hcs. pose proof (reaches_inv _ _ Hw) as Hinv. clear Hw.
  revert w Hr Hinv Hcs. refine (rtc_ind_l _ _ _ _); [intros; apply rtc_refl|].
  intros x y Hxy Hyz IH Hx Hcs.
  pose proof (reachable_history gc _ _ Hyz) as Hle. pose proof (kernel_step_controls gc x y Hx Hcs Hxy) as Hm.
  unfold moves_controls in *; etrans; [exact Hm|]. apply IH; [apply (kernel_step_inv gc x); [done|lia|done]|].
  assert (forall s s', rtc control_move s s' -> length s'.1 = length s.1) as Hl.
  { induction 1 as [|s1 s2 s3 H12 _ IH']; [done|]. rewrite IH'. destruct H12; cbn; apply length_insert. }
  specialize (Hl _ _ Hm). cbn in Hl. by rewrite Hl.
Qed.

Lemma kernel_taken_grows w w' :
  rtc (kernel_step gc) w w' -> zlen (taken w) <= zlen (taken w').
Proof.
  induction 1 as [|x y z Hxy _ IH]; [done|]. etrans; [|exact IH].
  destruct Hxy; try done; unfold on_claim, settle, on_allocate, on_consume_claim, on_consume_record;
    repeat case_match; simplify_eq; cbn [taken modify settle]; try lia.
  unfold on_acquire. cbn. case_match; rewrite ?zlen_app; change (zlen [_]) with 1; lia.
Qed.

Lemma initial_slots c : slots_inv (controls (MakeImpl c), []).
Proof.
  split_and!; [apply length_replicate|by intros ? ? ?%elem_of_nil|].
  intros slot x Hx. cbn in Hx. apply (lookup_replicate_1 kMaximumProducerSlots) in Hx as [-> _].
  done.
Qed.

Lemma reaches_slots c w :
  kernel_reaches c w -> zlen (taken w) < 2 ^ 64 - 1 -> slots_inv (controls (impl w), taken w).
Proof.
  intros (Hc & Hr & Hlen) Ht.
  apply (control_moves (controls (MakeImpl c), []) (controls (impl w), taken w)); [|done|apply initial_slots].
  apply (reaches_moves c (initial_world c)); try done.
Qed.
End Reachable.
