(* ===== verification/KernelSnapshots.v ===== *)
(** * Snapshots of a kernel that other threads move

    [GetSnapshot] reads the kernel with a series of loads, and any steps of [kernel_step]
    can come between two of them. What each load can see, and what the sums of the loads
    are bounded by; [KernelProperties.v] states what a snapshot promises. *)
From stdpp Require Import gmap relations.
From S2P Require Import Prelude Sampling KernelTypes ThreadRegistry ProducerKernel KernelWorld KernelAccounting.
From S2P Require CreditLedger ProducerLanes RecordLayout RecordStorage.
#[local] Open Scope Z_scope.
#[local] Open Scope ulog_scope.

(** ** Counting refusals *)

Lemma refused_for_app maximum c l l' :
  refused_for maximum c (l ++ l') = refused_for maximum c l + refused_for maximum c l'.
Proof. unfold refused_for. by rewrite list.filter_app, zlen_app. Qed.

Lemma refused_at_app maximum c i l l' :
  refused_at maximum c i (l ++ l') = refused_at maximum c i l + refused_at maximum c i l'.
Proof. unfold refused_at. by rewrite list.filter_app, zlen_app. Qed.

Lemma refused_at_le_for maximum c i l : 0 <= refused_at maximum c i l <= refused_for maximum c l.
Proof.
  split; [apply zlen_nonneg|]. unfold refused_at, refused_for, zlen. apply inj_le.
  induction l as [|r l IH]; [done|]. rewrite !list.filter_cons. repeat case_decide; cbn; intuition lia.
Qed.

Lemma refused_for_le maximum c l : 0 <= refused_for maximum c l <= zlen l.
Proof. split; [apply zlen_nonneg|]. unfold refused_for, zlen. apply inj_le, length_filter. Qed.

(** Every refusal has one cause. *)
Lemma refused_for_sum maximum l :
  zlen l = sumZ (fun c => refused_for maximum c l) causes.
Proof.
  induction l as [|r l IH]; [done|]. change (r :: l) with ([r] ++ l). rewrite zlen_app, IH.
  cbn [sumZ causes]. rewrite !refused_for_app. change (zlen [r]) with 1.
  enough (refused_for maximum NoProducer [r] + refused_for maximum LaneFull [r] + refused_for maximum Budget [r]
    + refused_for maximum Abandoned [r] + refused_for maximum Invalid [r] = 1) by lia.
  unfold refused_for. rewrite !list.filter_cons, !list.filter_nil. by destruct (cause maximum r).
Qed.

(** The refusals for a cause are those at its indices. *)
Lemma refused_by_index maximum c n l :
  (forall r, r ∈ l -> cause maximum r = c -> (r_index r < n)%nat) ->
  sumZ (fun i => refused_at maximum c i l) (seq 0 n) = refused_for maximum c l.
Proof.
  induction l as [|r l IH]; intros Hl; [by apply sumZ_zero|].
  change (r :: l) with ([r] ++ l). rewrite refused_for_app, <- IH by (intros x Hx; apply Hl; by right).
  rewrite (sumZ_ext _ (fun i => refused_at maximum c i [r] + refused_at maximum c i l))
    by (intros; apply refused_at_app).
  rewrite sumZ_add. f_equal. destruct (decide (cause maximum r = c)) as [Hc|Hc].
  - rewrite (sumZ_ext _ (fun i => if decide (r_index r = i) then 1 else 0)).
    + rewrite sumZ_indicator by (apply Hl; [by left|done]).
      unfold refused_for. by rewrite list.filter_cons, decide_True.
    + intros i _. unfold refused_at. rewrite list.filter_cons, list.filter_nil. repeat case_decide; intuition done.
  - rewrite sumZ_zero.
    + unfold refused_for. by rewrite list.filter_cons, decide_False.
    + intros i _. unfold refused_at. rewrite list.filter_cons, list.filter_nil. by rewrite decide_False by (by intros []).
Qed.

(** ** What the loads can see *)

Section Growth.
Context (gc : Z -> option (list byte)).

Lemma step_grows w w' :
  kernel_step gc w w' ->
  rejections w `prefix_of` rejections w' /\ seen w `prefix_of` seen w'.
Proof.
  assert (forall A (l l' : list A), l `prefix_of` l ++ l') as Happ by (intros; by eexists).
  destruct 1; try done; unfold on_claim, settle, on_allocate, on_consume_claim, on_consume_record;
    repeat case_match; simplify_eq; split; try done; cbn; apply Happ.
Qed.

Lemma run_grows w w' :
  rtc (kernel_step gc) w w' -> rejections w `prefix_of` rejections w' /\ seen w `prefix_of` seen w'.
Proof.
  induction 1 as [|x y z Hxy _ [H1 H2]]; [done|]. destruct (step_grows _ _ Hxy) as [H3 H4]. split; by etrans.
Qed.

Lemma prefix_zlen {A} (l l' : list A) : l `prefix_of` l' -> zlen l <= zlen l'.
Proof. intros [k ->]. rewrite zlen_app. pose proof (zlen_nonneg k). lia. Qed.

Lemma refused_at_mono maximum c i l l' : l `prefix_of` l' -> refused_at maximum c i l <= refused_at maximum c i l'.
Proof.
  intros [k ->]. rewrite refused_at_app. pose proof (refused_at_le_for maximum c i k). lia.
Qed.

Lemma reaches_on c w w' :
  kernel_reaches gc c w -> rtc (kernel_step gc) w w' -> zlen (history w') < 2 ^ 64 -> kernel_reaches gc c w'.
Proof. intros (Hc & Hr & _) Hr' Hlen. split_and!; [done|by etrans|done]. Qed.

(** Nothing is consumed that was not admitted. *)
Lemma delivered_history w : world_inv gc w -> (length (delivered w) <= length (history w))%nat.
Proof. intros Hinv. apply (ProducerLanes.delivered_le _ _ _ _ _ (wi_lanes _ _ Hinv)). Qed.

Lemma seen_history w : world_inv gc w -> zlen (seen w) <= zlen (history w).
Proof.
  intros Hinv. unfold zlen. rewrite (si_length _ _ (wi_seen _ _ Hinv)).
  pose proof (delivered_history w Hinv). destruct (emptied w) eqn:He; [|lia].
  unfold emptied in He. destruct (consuming w) as [[claim []]|] eqn:Hcon; try done.
  destruct (consuming_entry w claim true (wi_lanes _ _ Hinv) Hcon) as (e & He' & _).
  apply lookup_lt_Some in He'. lia.
Qed.

(** ** The sums *)

Section Watched.
Context (c : KernelConfig) (w w' : World) (at_ : nat -> World).
Context (Hw : kernel_reaches gc c w) (Hwatch : watched (kernel_step gc) w at_ w').
Context (Hlen : zlen (history w') < 2 ^ 64) (Hrefused : zlen (rejections w') < 2 ^ 64).

Let maximum : Z := maximum_record_bytes c.
Let now (n : nat) : Impl := impl (at_ n).

Lemma reaches_at n : kernel_reaches gc c (at_ n).
Proof.
  apply (reaches_on c w); [done|by eapply watched_from|].
  pose proof (reachable_history gc _ _ (wt_end _ _ _ _ Hwatch n)). lia.
Qed.

Lemma reaches_end : kernel_reaches gc c w'.
Proof. eapply reaches_on; [apply (reaches_at 0)|apply Hwatch|done]. Qed.

(** A counter at the moment of a load. *)
Lemma counter_at x i n :
  refused_at maximum x i (rejections w) <= counter x i (now n) <= refused_at maximum x i (rejections w').
Proof.
  rewrite (ai_counter _ _ (reaches_accounts _ _ _ (reaches_at n))). fold maximum.
  destruct (run_grows _ _ (watched_from _ _ _ _ n Hwatch)) as [H1 _].
  destruct (run_grows _ _ (wt_end _ _ _ _ Hwatch n)) as [H2 _].
  pose proof (refused_at_mono maximum x i _ _ H1). pose proof (refused_at_mono maximum x i _ _ H2).
  pose proof (refused_at_le_for maximum x i (rejections w')). pose proof (refused_for_le maximum x (rejections w')).
  pose proof (refused_at_le_for maximum x i (rejections w)).
  rewrite w64_small by lia. lia.
Qed.

Lemma config_at n : config (now n) = c.
Proof. apply (ai_config _ _ (reaches_accounts _ _ _ (reaches_at n))). Qed.

(** The sum over all the counters of a cause, before and after. *)
Lemma refused_sum x v :
  kernel_reaches gc c v ->
  sumZ (fun i => refused_at maximum x i (rejections v))
    (seq 0 (match x with NoProducer => kMaximumProducerSlots | _ => producer_slots c end))
  = refused_for maximum x (rejections v).
Proof.
  intros Hv. apply refused_by_index. intros r Hr <-.
  destruct (reaches_accounts _ _ _ Hv) as [Hcfg _ _ _ Hi]. destruct (Hi r Hr) as [H _].
  unfold shards in H. rewrite Hcfg in H. exact H.
Qed.

Lemma no_producer_sampled :
  yields now (fun x => refused_for maximum NoProducer (rejections w) <= x
                       <= refused_for maximum NoProducer (rejections w'))
    (sum_loads missing_at (seq 0 kMaximumProducerSlots) 0).
Proof.
  rewrite <- (refused_sum NoProducer w Hw), <- (refused_sum NoProducer w' reaches_end).
  eapply yields_weaken.
  - apply (yields_sum now missing_at (fun i => refused_at maximum NoProducer i (rejections w))
      (fun i => refused_at maximum NoProducer i (rejections w')) _ 0 0).
    + intros i n _. apply (counter_at NoProducer i n).
    + intros i _. apply zlen_nonneg.
    + lia.
    + lia.
    + rewrite (refused_sum NoProducer w' reaches_end). pose proof (refused_for_le maximum NoProducer (rejections w')). lia.
  - cbn. lia.
Qed.

(** The part of the totals for a cause. *)
Definition total_of (x : Cause) (t : SlotTotals) : Z :=
  match x with
  | NoProducer => 0
  | LaneFull => sum_lane_full t
  | Budget => sum_budget t
  | Abandoned => sum_abandoned t
  | Invalid => sum_invalid t
  end.

Lemma slots_sampled slots t (low high : Cause -> Z) :
  (forall x, x <> NoProducer -> 0 <= low x <= total_of x t /\ total_of x t <= high x
     /\ high x + sumZ (fun i => refused_at maximum x i (rejections w')) slots < 2 ^ 64) ->
  yields now (fun t' => forall x, x <> NoProducer ->
    low x + sumZ (fun i => refused_at maximum x i (rejections w)) slots <= total_of x t'
    <= high x + sumZ (fun i => refused_at maximum x i (rejections w')) slots) (SumSlots slots t).
Proof.
  revert t low high. induction slots as [|i slots IH]; intros t low high Hb.
  { apply yields_ret. intros x Hx. specialize (Hb x Hx). cbn. lia. }
  cbn [SumSlots].
  pose proof (fun x => yields_load now (fun v => refused_at maximum x i (rejections w) <= v
    <= refused_at maximum x i (rejections w')) (counter x i) (counter_at x i)) as Hload.
  eapply yields_bind; [exact (Hload LaneFull)|]. intros v1 H1.
  eapply yields_bind; [exact (Hload Budget)|]. intros v2 H2.
  eapply yields_bind; [exact (Hload Abandoned)|]. intros v3 H3.
  eapply yields_bind; [exact (Hload Invalid)|]. intros v4 H4.
  eapply (yields_bind _ (fun _ => True)); [done|]. intros v5 _.
  eapply (yields_bind _ (fun _ => True)); [done|]. intros v6 _.
  set (l0 := fun x => refused_at maximum x i (rejections w)) in *.
  set (h0 := fun x => refused_at maximum x i (rejections w')) in *.
  change (l0 LaneFull <= v1 <= h0 LaneFull) in H1. change (l0 Budget <= v2 <= h0 Budget) in H2.
  change (l0 Abandoned <= v3 <= h0 Abandoned) in H3. change (l0 Invalid <= v4 <= h0 Invalid) in H4.
  assert (forall x, 0 <= l0 x) as Hl0 by (intros x; apply zlen_nonneg).
  eapply yields_weaken.
  - apply (IH _ (fun x => low x + l0 x) (fun x => high x + h0 x)).
    assert (forall x, 0 <= sumZ (fun i => refused_at maximum x i (rejections w')) slots) as Hn
      by (intros x; apply sumZ_nonneg; intros; apply zlen_nonneg).
    intros x Hx. specialize (Hb x Hx). specialize (Hn x). specialize (Hl0 x). cbn [sumZ] in Hb.
    fold (h0 x) in Hb. destruct x; [done|..]; cbn [total_of sum_lane_full sum_budget sum_abandoned sum_invalid] in *;
      rewrite w64_small by lia; lia.
  - intros t' H x Hx. specialize (H x Hx). cbn beta in H. cbn [sumZ]. fold (l0 x) (h0 x). lia.
Qed.

Lemma totals_sampled :
  yields now (fun t => forall x, x <> NoProducer ->
    refused_for maximum x (rejections w) <= total_of x t <= refused_for maximum x (rejections w'))
    (SumSlots (seq 0 (producer_slots c)) zero_totals).
Proof.
  eapply yields_weaken.
  - apply (slots_sampled _ zero_totals (fun _ => 0) (fun _ => 0)). intros x Hx.
    pose proof (refused_sum x w' reaches_end) as H. pose proof (refused_for_le maximum x (rejections w')).
    destruct x; [done|..]; rewrite H; cbn; lia.
  - intros t H x Hx. specialize (H x Hx). rewrite <- (refused_sum x w Hw), <- (refused_sum x w' reaches_end).
    destruct x; [done|..]; lia.
Qed.

(** Admissions and consumptions. *)
Lemma accepted_at n :
  ProducerLanes.AcceptedCount (lanes (now n)) = zlen (history (at_ n))
  /\ zlen (history w) <= zlen (history (at_ n)) <= zlen (history w').
Proof.
  split; [apply (ProducerLanes.ln_admitted _ (wi_lanes _ _ (reaches_inv _ _ _ (reaches_at n))))|].
  split; [|by apply (reachable_history gc), Hwatch].
  apply (reachable_history gc). by eapply watched_from.
Qed.

Lemma seen_at n :
  consumed_records (now n) = w64 (zlen (seen (at_ n))) /\ zlen (seen w) <= zlen (seen (at_ n)) <= zlen (seen w')
  /\ consumer_validation_errors (now n) = 0.
Proof.
  destruct (wi_seen _ _ (reaches_inv _ _ _ (reaches_at n))) as [_ _ He Hc _ _].
  destruct (run_grows _ _ (watched_from _ _ _ _ n Hwatch)) as [_ H1].
  destruct (run_grows _ _ (wt_end _ _ _ _ Hwatch n)) as [_ H2].
  split_and!; [done|by apply prefix_zlen..|done].
Qed.

Lemma ledger_at n :
  CreditLedger.capacity_bytes_ (ledger (now n)) = payload_capacity_bytes c
  /\ 0 <= CreditLedger.central_available_bytes_ (ledger (now n)).
Proof.
  pose proof (reaches_inv _ _ _ (reaches_at n)) as Hinv. split.
  - etransitivity; [apply (io_capacity _ (wi_impl _ _ Hinv))|]. f_equal. apply config_at.
  - apply (CreditLedger.li_central _ (wi_ledger _ _ Hinv)).
Qed.

(** The snapshot, with what is known of its loads. *)
Lemma snapshot_loads :
  exists no_producer t l,
    sampled GetSnapshot now
    = SummarizeLoads c (zlen (history (at_ 0%nat))) (zlen (seen (at_ 1%nat))) no_producer t 0 l
    /\ refused_for maximum NoProducer (rejections w) <= no_producer
       <= refused_for maximum NoProducer (rejections w')
    /\ (forall x, x <> NoProducer ->
         refused_for maximum x (rejections w) <= total_of x t <= refused_for maximum x (rejections w'))
    /\ CreditLedger.logical_retained_bytes l <= CreditLedger.physical_retained_bytes l <= payload_capacity_bytes c
    /\ ((forall n, ledger (now n) = ledger (impl w)) -> CreditLedger.sample_consistent l = true).
Proof.
  unfold sampled, GetSnapshot, mbind, sampling_bind, load, mret, sampling_ret. cbn [fst snd].
  rewrite config_at. destruct (accepted_at 0) as [-> _]. destruct (seen_at 1) as (-> & Hs & _).
  pose proof (zlen_nonneg (seen (at_ 1%nat))) as H0.
  assert (zlen (seen w') <= zlen (history w')) as Hle by apply (seen_history w' (reaches_inv _ _ _ reaches_end)).
  rewrite (w64_small (zlen (seen (at_ 1%nat)))) by lia.
  pose proof (no_producer_sampled 3%nat) as Hnp.
  destruct (sum_loads missing_at _ 0 now 3%nat) as [np n1]. pose proof (totals_sampled n1) as Htot. cbn [fst snd].
  destruct (SumSlots _ zero_totals now n1) as [t n2]. cbn [fst snd] in Hnp, Htot |- *. destruct (seen_at n2) as (_ & _ & ->).
  exists np, t, (within ledger CreditLedger.GetSnapshot now (S n2)).1.
  pose proof (io_config _ (wi_impl _ _ (reaches_inv _ _ _ Hw))) as Hcfg.
  rewrite (ai_config _ _ (reaches_accounts _ _ _ Hw)) in Hcfg. destruct Hcfg as [Hmin _ Hpay _ _].
  unfold kMinimumRecordBytes, size_max in *. do 3 (split; [done|]). split.
  - apply (yields_within now (fun s => CreditLedger.logical_retained_bytes s <= CreditLedger.physical_retained_bytes s
      <= payload_capacity_bytes c)).
    eapply yields_weaken; [apply (CreditLedger.snapshot_bounds _ (payload_capacity_bytes c)); [lia|apply ledger_at]|].
    by intros s [_ Hb].
  - intros Hstill.
    apply (CreditLedger.snapshot_exact _ (ledger ∘ now) (wi_ledger _ _ (reaches_inv _ _ _ Hw)) Hstill (S n2)).
Qed.
End Watched.
End Growth.
