(* ===== verification/KernelProperties.v ===== *)
(** * What the producer kernel promises

    The theorems on [ProducerKernel.v], over the worlds [KernelWorld.v] reaches from a
    kernel that was just constructed. *)
From stdpp Require Import gmap relations.
From S2P Require Import Prelude Sampling KernelTypes ThreadRegistry ProducerKernel KernelWorld KernelAccounting KernelSnapshots.
From S2P Require CreditLedger ProducerLanes RecordLayout RecordStorage.
#[local] Open Scope Z_scope.
#[local] Open Scope ulog_scope.

Section Properties.
Context (gc : Z -> option (list byte)).

(** C4: whatever the interleaving of producers, registrations and the consumer, the
    consumer never meets an inconsistent record; its calls come in admission order, and
    the [n]-th one shows exactly the record the [n]-th admitted call built: its level,
    source and time, its message, fields and truncation. *)
Theorem consumer_sees_published_records c w :
  kernel_reaches gc c w ->
  consumer_validation_errors (impl w) = 0
  /\ (length (seen w) <= length (history w))%nat
  /\ forall n q v, seen w !! n = Some (q, v) ->
       q = Z.of_nat n
       /\ exists a d t, admissions w !! n = Some a
            /\ call_draft gc (maximum_record_bytes c) (a_call a) (a_timestamp a) = Some (d, t)
            /\ RecordStorage.shows_record v d t
            /\ RecordStorage.view_level v = call_level (a_call a)
            /\ RecordStorage.view_event_timestamp v = a_timestamp a
            /\ RecordStorage.source_path v = file_name_ (call_source (a_call a)).
Proof.
  intros Hw. pose proof (reaches_inv _ _ _ Hw) as Hinv.
  pose proof (ai_config _ _ (reaches_accounts _ _ _ Hw)) as Hc.
  destruct (wi_seen _ _ Hinv) as [_ Hseen Herr _ _ _]. rewrite Hc in Hseen.
  split_and!; [done|pose proof (seen_history gc w Hinv); unfold zlen in *; lia|].
  intros n q v Hn. destruct (Hseen n (q, v) Hn) as (a & Ha & Hq & d & t & Hd & Hs).
  cbn in Hq, Hs. split; [done|]. exists a, d, t. unfold call_draft in Hd.
  destruct (call_operation (a_call a)) as [builder|] eqn:Hop; [|done].
  destruct (RecordStorage.drafted_origin _ _ _ _ _ _ _ _ Hd) as (_ & Hl & Ht & Hsrc).
  cbn in Hl, Ht, Hsrc. unfold call_draft. rewrite Hop.
  destruct Hs as [H1 H2 H3 H4 H5 H6 H7 H8 H9 H10]. split_and!; try done; congruence.
Qed.

(** What a snapshot reports for a cause of refusal. *)
Definition reported (x : Cause) (s : KernelSnapshot) : Z :=
  match x with
  | NoProducer => snap_rejected_no_producer s
  | LaneFull => snap_rejected_lane_full s
  | Budget => snap_rejected_budget s
  | Abandoned => snap_abandoned_builds s
  | Invalid => snap_invalid_records s
  end.

(** C10: a snapshot accounts for every attempt, up to those of the time it takes. It starts
    after [w] and ends before [w'], and threads publish, register and consume between any two
    of its loads. It reports the admissions at its first load and the consumed records at
    its second; under each cause it reports at least the refusals for it in [w] and at most
    those in [w'], where a builder that gives up or throws is told from a record that is
    invalid; the attempts are the admissions and all the refusals, without overflow; and the
    retained bytes are within the configured capacity. So a snapshot that nothing is
    published, refused or consumed during is exact; and when the ledger does not move
    under it, its sample of the bytes is consistent. *)
Theorem snapshot_accounts_for_every_attempt c w at_ w' :
  kernel_reaches gc c w -> watched (kernel_step gc) w at_ w' -> zlen (history w') + zlen (rejections w') < 2 ^ 64 ->
  let s := sampled GetSnapshot (fun n => impl (at_ n)) in
  let refused x v := refused_for (maximum_record_bytes c) x (rejections v) in
  snap_accepted_records s = zlen (history (at_ 0%nat))
  /\ zlen (history w) <= snap_accepted_records s <= zlen (history w')
  /\ snap_consumed_records s = zlen (seen (at_ 1%nat))
  /\ zlen (seen w) <= snap_consumed_records s <= zlen (seen w')
  /\ snap_retained_records s = Z.max 0 (snap_accepted_records s - snap_consumed_records s)
  /\ (forall x, refused x w <= reported x s <= refused x w')
  /\ snap_attempted_records s = snap_accepted_records s + sumZ (fun x => reported x s) causes
  /\ zlen (history w) + zlen (rejections w) <= snap_attempted_records s
     <= zlen (history w') + zlen (rejections w')
  /\ snap_logical_retained_bytes s <= snap_physical_retained_bytes s <= payload_capacity_bytes c
  /\ ((forall n, ledger (impl (at_ n)) = ledger (impl w)) -> snap_accounting_sample_consistent s = true).
Proof.
  intros Hw Hwatch Hb s refused.
  pose proof (zlen_nonneg (history w')) as Hh0. pose proof (zlen_nonneg (rejections w')) as Hr0.
  assert (zlen (history w') < 2 ^ 64) as Hlen by lia. assert (zlen (rejections w') < 2 ^ 64) as Href by lia.
  destruct (accepted_at gc c w w' at_ Hw Hwatch Hlen 0) as [_ Ha].
  destruct (seen_at gc c w w' at_ Hw Hwatch Hlen 1) as (_ & Hc & _).
  destruct (snapshot_loads gc c w w' at_ Hw Hwatch Hlen Href) as (np & t & l & Hs & H1 & H2 & H3 & H4).
  pose proof (refused_for_sum (maximum_record_bytes c) (rejections w)) as S0.
  pose proof (refused_for_sum (maximum_record_bytes c) (rejections w')) as S1.
  assert (forall x, 0 <= refused x w <= reported x s /\ reported x s <= refused x w') as Hx.
  { assert (forall x, 0 <= refused x w) as H0 by (intros x; apply zlen_nonneg).
    assert (forall x, refused x w' < 2 ^ 64) as Hw'
      by (intros x; pose proof (refused_for_le (maximum_record_bytes c) x (rejections w')); unfold refused; lia).
    intros x. specialize (H0 x). specialize (Hw' x). specialize (H2 x). unfold s, refused in *. rewrite Hs.
    destruct x; cbn in H2 |- *; rewrite ?Z.add_0_r; rewrite ?w64_small by (specialize (H2 ltac:(done)); lia);
      try (specialize (H2 ltac:(done))); lia. }
  pose proof (Hx NoProducer). pose proof (Hx LaneFull). pose proof (Hx Budget). pose proof (Hx Abandoned).
  pose proof (Hx Invalid). pose proof (zlen_nonneg (history w)). pose proof (zlen_nonneg (seen w)).
  assert (snap_attempted_records s = snap_accepted_records s + sumZ (fun x => reported x s) causes
    /\ snap_accepted_records s = zlen (history (at_ 0%nat))
    /\ snap_consumed_records s = zlen (seen (at_ 1%nat))
    /\ snap_retained_records s = Z.max 0 (snap_accepted_records s - snap_consumed_records s)) as (E1 & E2 & E3 & E4).
  { clear -H1 H2 Hb S1 Ha Hc Hs. pose proof (fun x => refused_for_le (maximum_record_bytes c) x (rejections w)) as Hn.
    pose proof (H2 LaneFull ltac:(done)) as T1. pose proof (H2 Budget ltac:(done)) as T2.
    pose proof (H2 Abandoned ltac:(done)) as T3. pose proof (H2 Invalid ltac:(done)) as T4.
    pose proof (Hn NoProducer). pose proof (Hn LaneFull). pose proof (Hn Budget). pose proof (Hn Abandoned).
    pose proof (Hn Invalid). pose proof (zlen_nonneg (history w)). pose proof (zlen_nonneg (seen w)).
    unfold s, reported. rewrite Hs. cbn in *. rewrite !Z.add_0_r, (w64_small (sum_invalid t)) by lia.
    rewrite (w64_small (_ + np)), (w64_small (_ + sum_lane_full t)), (w64_small (_ + sum_budget t)),
      (w64_small (_ + sum_abandoned t)), (w64_small (_ + sum_invalid t)) by lia.
    split_and!; [lia|done|done|]. destruct (Z.leb_spec (zlen (seen (at_ 1%nat))) (zlen (history (at_ 0%nat)))); [rewrite w64_small by lia|]; lia. }
  assert (snap_logical_retained_bytes s <= snap_physical_retained_bytes s <= payload_capacity_bytes c) as E5
    by (unfold s; rewrite Hs; exact H3).
  assert ((forall n, ledger (impl (at_ n)) = ledger (impl w)) -> snap_accounting_sample_consistent s = true) as E6
    by (unfold s; rewrite Hs; exact H4).
  clear H3 H4 Hs. clearbody s. split_and!; try done; try lia.
  - intros x. specialize (Hx x). lia.
  - rewrite E1. cbn [sumZ causes] in *. unfold refused in *. lia.
  - rewrite E1. cbn [sumZ causes] in *. unfold refused in *. lia.
Qed.


(** ** Lemmas: a whole consumption is a sequence of steps *)

(** What a call of [TryConsume] leaves of the world, and what it returns. *)
Definition consumed_exactly (w w' : World) (status : ConsumeStatus)
    (call : option (Z * RecordStorage.RecordView)) : Prop :=
  let n := length (delivered w) in
  match history w !! n with
  | Some e =>
      if ProducerLanes.e_visible e then
        status = kRecord
        /\ exists a d t v, admissions w !! n = Some a
             /\ call_draft gc (maximum_record_bytes (config (impl w))) (a_call a) (a_timestamp a)
                = Some (d, t)
             /\ RecordStorage.shows_record v d t
             /\ call = Some (Z.of_nat n, v) /\ seen w' = seen w ++ [(Z.of_nat n, v)]
             /\ delivered w' = delivered w ++ [ProducerLanes.envelope_of n e]
      else status = kPending /\ call = None /\ seen w' = seen w /\ delivered w' = delivered w
  | None => status = kEmpty /\ call = None /\ seen w' = seen w /\ delivered w' = delivered w
  end.

(** The fields a consumption does not touch. *)
Record consumer_only (w w' : World) : Prop := {
  cw_history : history w' = history w;
  cw_admissions : admissions w' = admissions w;
  cw_publishing : publishing w' = publishing w;
  cw_refusals : refusals w' = refusals w;
  cw_entered : entered w' = entered w;
  cw_taken : taken w' = taken w;
}.

(** [TryFinishRetirement] alone. *)
Lemma try_finish_runs slot w w' :
  w' = w <| impl ::= TryFinishRetirement slot |> -> rtc (kernel_step gc) w w'.
Proof.
  intros ->. destruct (RetirementReady slot (impl w)) eqn:Hready.
  - eapply rtc_l; [by apply (st_drained gc slot)|]. apply rtc_once.
    pose proof (st_finish_retirement gc slot (drained_checks w) (w <| drained_checks ::= cons slot |>)
      (Permutation_refl _)) as H.
    destruct w. cbn in *. unfold TryFinishRetirement. by rewrite Hready.
  - destruct w. cbn in *. unfold TryFinishRetirement. by rewrite Hready.
Qed.

Lemma consume_claim_outcome w :
  world_inv gc w -> zlen (history w) < 2 ^ 64 -> consuming w = None ->
  match history w !! length (delivered w) with
  | Some e =>
      if ProducerLanes.e_visible e then
        exists k claim, ConsumeClaim (impl w) = (k, inl claim)
          /\ ProducerLanes.envelope_ claim = ProducerLanes.envelope_of (length (delivered w)) e
      else ConsumeClaim (impl w) = (impl w, inr kPending)
  | None => ConsumeClaim (impl w) = (impl w, inr kEmpty)
  end.
Proof.
  intros Hinv Hlen Hcon.
  pose proof (ProducerLanes.TryClaimConsumption_cases _ _ _ _ _ (wi_lanes _ _ Hinv) Hlen) as H.
  cbn [lane_system ProducerLanes.consumption] in H. rewrite Hcon in H. specialize (H eq_refl).
  unfold ConsumeClaim. assert (impl w <| lanes := lanes (impl w) |> = impl w) as Hsame by (by destruct (impl w)).
  destruct (history w !! length (delivered w)) as [e|]; [destruct (ProducerLanes.e_visible e)|].
  - destruct H as (lane & _ & H). rewrite H. by eexists _, _.
  - by rewrite H, Hsame.
  - by rewrite H, Hsame.
Qed.

Lemma TryConsume_runs w :
  world_inv gc w -> zlen (history w) < 2 ^ 64 -> consuming w = None ->
  let '(k, status, call) := TryConsume true (impl w) in
  exists w', rtc (kernel_step gc) w w' /\ impl w' = k /\ consuming w' = None
    /\ consumer_only w w' /\ consumed_exactly w w' status call.
Proof.
  intros Hinv Hlen Hcon. unfold TryConsume, consumed_exactly.
  pose proof (consume_claim_outcome w Hinv Hlen Hcon) as Hclaim.
  pose proof (st_consume_claim gc w) as S1. pose proof (consume_claim_step gc w Hinv Hlen) as I1.
  unfold on_consume_claim in *.
  destruct (history w !! length (delivered w)) as [e|] eqn:Hn; [destruct (ProducerLanes.e_visible e)|].
  2,3: rewrite Hclaim; exists w; by split_and!.
  destruct Hclaim as (k1 & claim & Hclaim & Henv). rewrite Hclaim in *.
  match type of I1 with world_inv _ ?x => set (w1 := x) in * end.
  destruct (consume_record_result gc w1 claim I1 eq_refl)
    as (a & p & stored & s & d & t & Ha & _ & _ & _ & Hd & Hpub & k2 & Hrec & _).
  change (impl w1) with k1 in Hrec, Hd. change (delivered w1) with (delivered w) in *.
  pose proof (st_consume_record gc claim w1 eq_refl) as S2. unfold on_consume_record in S2.
  change (impl w1) with k1 in S2. rewrite Hrec in *. cbn [option_list] in S2.
  match type of S2 with kernel_step _ _ ?x => set (w2 := x) in * end.
  pose proof (st_acknowledge gc claim w2 eq_refl) as S3.
  assert (config k1 = config (impl w)) as Hc.
  { unfold ConsumeClaim in Hclaim. repeat case_match; by simplify_eq. }
  rewrite Hc in Hd.
  eexists. split; [eapply rtc_l, rtc_l, rtc_l; [exact S1|exact S2|exact S3|]|].
  - by apply (try_finish_runs (ProducerLanes.con_producer_index_ claim)).
  - split_and!; [done..|]. exists a, d, t, (RecordStorage.view_of s stored). split_and!; try done.
    + by apply RecordStorage.published_shows.
    + unfold w2, on_acknowledge. cbn. by rewrite Henv.
Qed.

(** What is recorded as a refusal is one. *)
Lemma recorded_refusal c w w' ret :
  kernel_reaches gc c w -> rtc (kernel_step gc) w w' -> zlen (history w') < 2 ^ 64 ->
  refusals w' = refusals w ++ [ret] -> reason ret ∈ refusal_reasons.
Proof.
  intros (Hc & H0 & _) Hr Hlen Href.
  assert (kernel_reaches gc c w') as Hw' by (split_and!; [done|by etrans|done]).
  assert (ret ∈ refusals w') as (r & -> & Hin)%list_elem_of_fmap
    by (rewrite Href; apply elem_of_app; right; by apply list_elem_of_singleton).
  by apply (ai_index _ _ (reaches_accounts _ _ _ Hw')).
Qed.

(** C15: a call of [TryPublishSlot] that nothing interleaves with is a run of the steps,
    and its result is decided by the state it starts in: no registration, a full lane or
    a claimed one, closed admission, too little credit, what the builder does, or the
    next admission sequence, in this order; afterwards nothing of it is in flight, and it
    left either one visible admission of its own record or one refusal with its reason. *)
Theorem TryPublishSlot_exact c w call env :
  kernel_reaches gc c w -> call_ok gc call -> env_ok env ->
  let '(k, ret) := TryPublishSlot gc env call (impl w) in
  ret = expected_return gc w call (env_timestamp env)
  /\ exists w', rtc (kernel_step gc) w w' /\ impl w' = k
       /\ finished gc w w' call (env_timestamp env) ret
       /\ (refusals w' = refusals w ++ [ret] -> reason ret ∈ refusal_reasons).
Proof.
  intros Hw Hcall Henv. pose proof (reaches_inv gc c w Hw) as Hinv.
  pose proof (proj2 (proj2 Hw)) as Hlen.
  pose proof (TryPublishSlot_runs gc w call env Hcall Henv Hinv Hlen) as H.
  pose proof (TryPublishSlot_returns gc w call env Hcall Henv Hinv Hlen) as Hret.
  destruct (TryPublishSlot gc env call (impl w)) as [k ret]. split; [done|].
  destruct H as (w' & Hr & Hk & Hf). exists w'. split_and!; try done. intros Href.
  apply (recorded_refusal c w w'); try done.
  destruct (fi_return _ _ _ _ _ _ Hf) as [(_ & -> & _)|(? & ? & ? & _ & Hsame & _)]; [done|].
  rewrite Href in Hsame. apply (f_equal length) in Hsame. rewrite length_app in Hsame. simpl in Hsame. lia.
Qed.

(** C36: a call of [TryConsume] that nothing interleaves with is a run of the steps: it
    returns [kEmpty] exactly when every admission was delivered and [kPending] when the
    next one is still being stored; otherwise it shows the record of the next admission
    to the consumer, once, and delivers it. *)
Theorem TryConsume_exact c w :
  kernel_reaches gc c w -> consuming w = None ->
  let '(k, status, call) := TryConsume true (impl w) in
  exists w', rtc (kernel_step gc) w w' /\ impl w' = k /\ consuming w' = None
    /\ consumer_only w w' /\ consumed_exactly w w' status call.
Proof.
  intros Hw. apply TryConsume_runs; [by eapply reaches_inv|apply Hw].
Qed.

(** C13: the memory of the kernel is well formed at every moment: a cell is empty, with a
    reset slot and no ownership; or it belongs to one publication in flight and holds what
    that publication has written so far; or it holds the whole published record of an
    admission that the consumer has not emptied, with the ownership, the generation and the
    handle that go with it, and its bytes read back as the record the call meant. *)
Theorem cells_are_well_formed c w cell :
  kernel_reaches gc c w -> (cell < ingress_cells (config (impl w)))%nat ->
  cell_free (impl w) cell
  \/ (exists p pub, publishing w !! p = Some pub /\ publishing_ok gc (impl w) p pub
       /\ ProducerLanes.cell_index_ (phase_claim (p_phase pub)) = cell)
  \/ (exists n e a, (length (delivered w) <= n)%nat /\ history w !! n = Some e /\ admissions w !! n = Some a
       /\ ProducerLanes.slot_index (ProducerLanes.e_record e) = cell
       /\ cell_filled gc (impl w) (ProducerLanes.e_producer e) (a_call a) (a_timestamp a)
            (ProducerLanes.e_record e)).
Proof.
  intros Hw Hcell. pose proof (reaches_inv gc c w Hw) as [_ Hl _ [Cp Cq Ce Cf _] _].
  destruct (Cf cell Hcell) as [Hfree|[(p & pub & Hp & Hown)|(n & e & Hn & He & Hs)]]; [by left|..].
  - right. left. exists p, pub. split_and!; [done|by apply Cp|done].
  - destruct (decide (emptied w = true /\ n = length (delivered w))) as [[Hem ->]|Hq].
    + left. unfold emptied in Hem. destruct (consuming w) as [[claim [|]]|] eqn:Hcon; try done.
      destruct (consuming_entry w claim true Hl Hcon) as (e' & He' & _ & _ & _ & Henv).
      simplify_eq. pose proof (Ce claim eq_refl) as Hfree. rewrite Henv in Hfree. exact Hfree.
    + right. right. destruct (Cq n e He) as (a & Ha & Hf); [by split|]. by exists n, e, a.
Qed.

End Properties.

(** ** Construction *)

(** What each field of a configuration must satisfy, and the order they are tested in. *)
Definition field_valid (c : KernelConfig) (clock_is_null : bool) (field : ConfigField) : Prop :=
  match field with
  | field_threshold => threshold c <= kNone
  | field_maximum_record_bytes =>
      (kAccountingQuantumBytes | maximum_record_bytes c)
      /\ kMinimumRecordBytes <= maximum_record_bytes c <= kMaximumRecordBytes
  | field_payload_capacity_bytes =>
      (kAccountingQuantumBytes | payload_capacity_bytes c)
      /\ maximum_record_bytes c <= payload_capacity_bytes c
  | field_producer_slots => (1 <= producer_slots c <= kMaximumProducerSlots)%nat
  | field_ingress_cells => (producer_slots c <= ingress_cells c <= kMaximumIngressCells)%nat
  | field_event_clock => clock_is_null = false
  end.

Definition field_order : list ConfigField :=
  [field_threshold; field_maximum_record_bytes; field_payload_capacity_bytes;
   field_producer_slots; field_ingress_cells; field_event_clock].

Lemma aligned_spec n : (n mod kAccountingQuantumBytes =? 0) = true <-> (kAccountingQuantumBytes | n).
Proof. rewrite Z.eqb_eq. apply Z.mod_divide. done. Qed.

Ltac all_valid := repeat (apply Forall_cons_2; [first [assumption|reflexivity]|]); apply Forall_nil_2.

Lemma validate_cases c clock_is_null :
  match ValidateConfiguration c clock_is_null with
  | None => Forall (field_valid c clock_is_null) field_order
  | Some field => exists valid rest, field_order = valid ++ field :: rest
      /\ Forall (field_valid c clock_is_null) valid /\ ~ field_valid c clock_is_null field
  end.
Proof.
  unfold ValidateConfiguration.
  destruct (kNone <? threshold c) eqn:H1.
  { eexists [], _. b2p. split_and!; [done..|cbn; lia]. }
  assert (field_valid c clock_is_null field_threshold) as V1 by (cbn; b2p; lia).
  destruct (_ || negb (maximum_record_bytes c mod _ =? 0)) eqn:H2.
  { eexists [_], _. split_and!; [done|all_valid|]. cbn. rewrite <- aligned_spec.
    intros [Ha Hr]. rewrite Ha in H2. b2p. destruct H2 as [[?|?]%orb_true_iff|?]; b2p; [lia..|done]. }
  assert (field_valid c clock_is_null field_maximum_record_bytes) as V2.
  { cbn. rewrite <- aligned_spec. b2p. split; [by apply Z.eqb_eq|lia]. }
  destruct (_ || negb (payload_capacity_bytes c mod _ =? 0)) eqn:H3.
  { eexists [_; _], _. split_and!; [done|all_valid|]. cbn. rewrite <- aligned_spec.
    intros [Ha Hr]. rewrite Ha in H3. b2p. destruct H3 as [?|?]; b2p; [lia|done]. }
  assert (field_valid c clock_is_null field_payload_capacity_bytes) as V3.
  { cbn. rewrite <- aligned_spec. b2p. split; [by apply Z.eqb_eq|lia]. }
  destruct (_ || (kMaximumProducerSlots <? producer_slots c)%nat) eqn:H4.
  { eexists [_; _; _], _. split_and!; [done|all_valid|]. cbn.
    intros Hr. b2p. destruct H4; b2p; lia. }
  assert (field_valid c clock_is_null field_producer_slots) as V4 by (cbn; b2p; lia).
  destruct (_ || (kMaximumIngressCells <? ingress_cells c)%nat) eqn:H5.
  { eexists [_; _; _; _], _. split_and!; [done|all_valid|]. cbn.
    intros Hr. b2p. destruct H5; b2p; lia. }
  assert (field_valid c clock_is_null field_ingress_cells) as V5 by (cbn; b2p; lia).
  destruct clock_is_null.
  - eexists [_; _; _; _; _], _. split_and!; [done|all_valid|done].
  - all_valid.
Qed.

Lemma valid_config_ok c :
  Forall (field_valid c false) field_order -> payload_capacity_bytes c <= size_max -> kernel_config_ok c.
Proof.
  intros H Hpay. unfold field_order in H. rewrite !list.Forall_cons in H.
  destruct H as (_ & [Ha Hr] & [_ Hp] & Hs & Hc & _ & _). split; try done.
  by apply Z.mod_divide.
Qed.

(** Constructing a kernel throws for the first invalid field, in the order of the
    tests, and for no other reason; otherwise every field is valid, admission is open and
    the kernel is the first of its world. *)
Lemma MakeProducerKernel_exact c clock_is_null :
  payload_capacity_bytes c <= size_max ->
  match MakeProducerKernel c clock_is_null with
  | inl field =>
      exists valid rest, field_order = valid ++ field :: rest
        /\ Forall (field_valid c clock_is_null) valid /\ ~ field_valid c clock_is_null field
  | inr k =>
      Forall (field_valid c clock_is_null) field_order
      /\ kernel_config_ok c /\ k = impl (initial_world c)
      /\ IsAdmissionOpen k = true
  end.
Proof.
  intros Hpay. pose proof (validate_cases c clock_is_null) as H. unfold MakeProducerKernel.
  destruct (ValidateConfiguration c clock_is_null) as [field|]; [done|].
  assert (clock_is_null = false) as -> by (unfold field_order in H; rewrite !list.Forall_cons in H; apply H).
  pose proof (valid_config_ok c H Hpay) as Hok. by split_and!.
Qed.

(** ** Witnesses *)

Definition kernel_demo_config : KernelConfig :=
  {| threshold := kInfo; payload_capacity_bytes := 256; maximum_record_bytes := 128;
     producer_slots := 2; ingress_cells := 3; consumer_notification := true |}.

Definition kernel_demo_call (ending : BuildEnd) : PublishCall :=
  {| call_slot := 0; call_generation := 1; call_level := kInfo;
     call_source := RecordStorage.demo_source;
     call_operation := Some {| build_calls := RecordStorage.demo_ops; build_end := ending |} |}.

Definition kernel_demo_env : PublishEnv :=
  {| env_shard := 0; env_spurious := 0; env_timestamp := -3 |}.

(** One producer is registered. *)
Definition kernel_demo_registered : World := on_acquire 0 (initial_world kernel_demo_config).

Lemma kernel_demo_config_ok : kernel_config_ok kernel_demo_config.
Proof. by split; by_compute. Qed.

Lemma kernel_demo_call_ok ending : call_ok RecordStorage.no_double (kernel_demo_call ending).
Proof.
  split; [by_compute|by split; by_compute|]. intros builder [= <-]. apply RecordStorage.demo_ops_ok.
Qed.

Lemma kernel_demo_env_ok : env_ok kernel_demo_env.
Proof. split; by_compute. Qed.

Lemma kernel_demo_reaches : kernel_reaches RecordStorage.no_double kernel_demo_config kernel_demo_registered.
Proof.
  split_and!; [exact kernel_demo_config_ok| |done]. apply rtc_once, st_acquire. by_compute.
Qed.

Lemma kernel_demo_accepts :
  expected_return RecordStorage.no_double kernel_demo_registered (kernel_demo_call (BuildReturns kComplete)) (-3)
  = Returned {| outcome := kAccepted; admission_sequence := Some 0; result_truncated := false |}.
Proof. by vm_compute. Qed.

Lemma kernel_demo_drafted ending :
  call_draft RecordStorage.no_double 128 (kernel_demo_call ending) (-3)
  = Some (RecordStorage.demo_draft, false).
Proof. apply RecordStorage.demo_drafted. Qed.

(** The record was published. *)
Lemma kernel_demo_published :
  exists w handle, kernel_reaches RecordStorage.no_double kernel_demo_config w
    /\ consuming w = None /\ delivered w = [] /\ seen w = [] /\ refusals w = []
    /\ admissions w = [{| a_call := kernel_demo_call (BuildReturns kComplete); a_timestamp := -3 |}]
    /\ history w = [{| ProducerLanes.e_producer := 0; ProducerLanes.e_record := handle;
                       ProducerLanes.e_visible := true |}].
Proof.
  pose proof kernel_demo_reaches as Hw0. pose proof (reaches_inv _ _ _ Hw0) as Hinv.
  pose proof (TryPublishSlot_runs RecordStorage.no_double kernel_demo_registered
    (kernel_demo_call (BuildReturns kComplete)) kernel_demo_env
    (kernel_demo_call_ok _) kernel_demo_env_ok Hinv eq_refl) as Hrun.
  pose proof (TryPublishSlot_returns RecordStorage.no_double kernel_demo_registered
    (kernel_demo_call (BuildReturns kComplete)) kernel_demo_env
    (kernel_demo_call_ok _) kernel_demo_env_ok Hinv eq_refl) as Hret.
  change (env_timestamp kernel_demo_env) with (-3) in Hrun, Hret.
  rewrite kernel_demo_accepts in Hret.
  destruct (TryPublishSlot _ _ _ _) as [k1 ret]. cbn [snd] in Hret. subst ret.
  destruct Hrun as (w1 & Hr1 & _ & [_ Hcon Hdel Hseen [(Href & Hh & _)|Hadm]]).
  { apply (recorded_refusal _ kernel_demo_config _ _ _ Hw0 Hr1) in Href; [|by rewrite Hh].
    unfold refusal_reasons in Href. rewrite !elem_of_cons, elem_of_nil in Href.
    by destruct Href as [?|[?|[?|[?|?]]]]. }
  destruct Hadm as (sequence & t & handle & Heq & Href & Ha & Hh). injection Heq as <- _.
  exists w1, handle. rewrite Hcon, Hdel, Hseen, Href, Ha, Hh. split_and!; try done.
  destruct Hw0 as (Hc & H0 & _). split_and!; [done|by etrans|]. by rewrite Hh.
Qed.

(** The record was published in [w0] and consumed in [w]. *)
Lemma kernel_demo_consumed :
  exists w0 w v, kernel_reaches RecordStorage.no_double kernel_demo_config w0
    /\ rtc (kernel_step RecordStorage.no_double) w0 w
    /\ admissions w = [{| a_call := kernel_demo_call (BuildReturns kComplete); a_timestamp := -3 |}]
    /\ seen w0 = [] /\ seen w = [(0, v)] /\ zlen (history w0) = 1 /\ zlen (history w) = 1 /\ refusals w = [].
Proof.
  destruct kernel_demo_published as (w & handle & Hw & Hcon & Hdel & Hseen & Href & Ha & Hh).
  pose proof (TryConsume_runs _ w (reaches_inv _ _ _ Hw) (proj2 (proj2 Hw)) Hcon) as Hrun.
  destruct (TryConsume true (impl w)) as [[k st] call].
  destruct Hrun as (w' & Hr & _ & _ & [Hh' Ha' _ Href' _ _] & H). unfold consumed_exactly in H.
  rewrite Hdel, Hh in H. destruct H as (_ & a & d & t & v & _ & _ & _ & _ & Hs & _).
  exists w, w', v. rewrite Ha', Hh', Href', Hs, Hseen, Hh. by split_and!.
Qed.

Lemma kernel_demo_seen :
  exists w v, kernel_reaches RecordStorage.no_double kernel_demo_config w
    /\ admissions w = [{| a_call := kernel_demo_call (BuildReturns kComplete); a_timestamp := -3 |}]
    /\ seen w = [(0, v)].
Proof.
  destruct kernel_demo_consumed as (w0 & w & v & Hw & Hr & Ha & _ & Hs & _ & Hh & _). exists w, v.
  split_and!; [|done..]. apply (reaches_on _ _ w0); [done..|]. by rewrite Hh.
Qed.

Lemma consumer_sees_published_records_witness :
  exists w v, seen w = [(0, v)] /\ RecordStorage.shows_record v RecordStorage.demo_draft false.
Proof.
  destruct kernel_demo_seen as (w & v & Hw & Ha & Hs). exists w, v. split; [done|].
  destruct (consumer_sees_published_records RecordStorage.no_double kernel_demo_config w Hw)
    as (_ & _ & H).
  destruct (H 0%nat 0 v) as (_ & a & d & t & Hadm & Hd & Hv & _); [by rewrite Hs|].
  rewrite Ha in Hadm. injection Hadm as <-. cbn [a_call a_timestamp] in Hd.
  change (maximum_record_bytes kernel_demo_config) with 128 in Hd.
  rewrite kernel_demo_drafted in Hd. by injection Hd as <- <-.
Defined.

(** The record is consumed between the first load of a snapshot and the second. *)
Lemma snapshot_accounts_for_every_attempt_witness :
  exists w w', zlen (seen w) = 0 /\
    let s := sampled GetSnapshot (fun n => impl (match n with O => w | S _ => w' end)) in
    snap_accepted_records s = 1 /\ snap_consumed_records s = 1 /\ snap_retained_records s = 0
    /\ 0 <= snap_abandoned_builds s <= 0 /\ 1 <= snap_attempted_records s <= 1.
Proof.
  destruct kernel_demo_consumed as (w & w' & v & Hw & Hr & Ha & Hs0 & Hs & Hh & Hh' & Href). exists w, w'.
  assert (rejections w' = []) as Hrej by (by eapply fmap_nil_inv).
  assert (rejections w = []) as Hrej0.
  { destruct (run_grows _ _ _ Hr) as [H _]. rewrite Hrej in H. by apply prefix_nil_inv in H. }
  assert (watched (kernel_step RecordStorage.no_double) w (fun n => match n with O => w | S _ => w' end) w') as Hwatch.
  { split; [done|intros [|n]; done|intros [|n]; done]. }
  assert (zlen (history w') + zlen (rejections w') < 2 ^ 64) as Hb by (by rewrite Hrej, Hh').
  destruct (snapshot_accounts_for_every_attempt RecordStorage.no_double kernel_demo_config w _ w' Hw Hwatch Hb)
    as (H1 & _ & H3 & _ & H5 & H6 & _ & H8 & _).
  specialize (H6 Abandoned). rewrite Hrej, Hrej0, Hh, Hh', Hs in *. change (zlen [(0, v)]) with 1 in *.
  rewrite H1, H3 in H5. rewrite Hs0. by split_and!.
Defined.

Lemma TryConsume_exact_witness :
  exists w v, (TryConsume true (impl w)).2 = Some (0, v)
    /\ RecordStorage.shows_record v RecordStorage.demo_draft false.
Proof.
  destruct kernel_demo_published as (w & handle & Hw & Hcon & Hdel & Hseen & Href & Ha & Hh).
  pose proof (TryConsume_exact RecordStorage.no_double kernel_demo_config w Hw Hcon) as H.
  destruct (TryConsume true (impl w)) as [[k st] call] eqn:Ht.
  destruct H as (w' & _ & _ & _ & _ & H). unfold consumed_exactly in H. rewrite Hdel, Hh, Ha in H.
  destruct H as (_ & a & d & t & v & Hadm & Hd & Hv & Hcall & _). injection Hadm as <-.
  rewrite (ai_config _ _ (reaches_accounts _ _ _ Hw)) in Hd. cbn [a_call a_timestamp] in Hd.
  change (maximum_record_bytes kernel_demo_config) with 128 in Hd.
  rewrite kernel_demo_drafted in Hd. injection Hd as <- <-. exists w, v. by rewrite Ht, Hcall.
Defined.

Lemma cells_are_well_formed_witness :
  exists w, kernel_reaches RecordStorage.no_double kernel_demo_config w /\ length (history w) = 1%nat
    /\ (cell_free (impl w) 0 \/ (exists p, is_Some (publishing w !! p))
        \/ exists handle, cell_filled RecordStorage.no_double (impl w) 0
             (kernel_demo_call (BuildReturns kComplete)) (-3) handle).
Proof.
  destruct kernel_demo_published as (w & handle & Hw & Hcon & Hdel & Hseen & Href & Ha & Hh).
  exists w. split_and!; [done|by rewrite Hh|].
  assert ((0 < ingress_cells (config (impl w)))%nat) as Hcell
    by (rewrite (ai_config _ _ (reaches_accounts _ _ _ Hw)); by vm_compute; lia).
  destruct (cells_are_well_formed RecordStorage.no_double kernel_demo_config w 0 Hw Hcell)
    as [H|[(p & pub & Hp & _)|(n & e & a & _ & He & Hadm & _ & Hf)]]; [by left|right; left; by exists p|].
  right. right. rewrite Hh in He. rewrite Ha in Hadm.
  assert (n = 0%nat) as -> by (destruct n; [done|by destruct n]).
  cbn in He, Hadm. simplify_eq. by exists handle.
Defined.

Lemma TryPublishSlot_exact_witness :
  (TryPublishSlot RecordStorage.no_double kernel_demo_env (kernel_demo_call (BuildReturns kComplete))
     (impl kernel_demo_registered)).2
  = Returned {| outcome := kAccepted; admission_sequence := Some 0; result_truncated := false |}
  /\ (TryPublishSlot RecordStorage.no_double kernel_demo_env (kernel_demo_call BuildThrows)
        (impl kernel_demo_registered)).2 = Threw.
Proof.
  pose proof (TryPublishSlot_exact RecordStorage.no_double kernel_demo_config kernel_demo_registered
    (kernel_demo_call (BuildReturns kComplete)) kernel_demo_env kernel_demo_reaches
    (kernel_demo_call_ok _) kernel_demo_env_ok) as H1.
  pose proof (TryPublishSlot_exact RecordStorage.no_double kernel_demo_config kernel_demo_registered
    (kernel_demo_call BuildThrows) kernel_demo_env kernel_demo_reaches
    (kernel_demo_call_ok _) kernel_demo_env_ok) as H2.
  destruct (TryPublishSlot _ _ (kernel_demo_call (BuildReturns kComplete)) _) as [k1 r1].
  destruct (TryPublishSlot _ _ (kernel_demo_call BuildThrows) _) as [k2 r2].
  destruct H1 as [-> _], H2 as [-> _]. split; [apply kernel_demo_accepts|by vm_compute].
Defined.






(** ** A retirement decided on an old test

    [TryFinishRetirement] tests that the lane is drained before it takes the slot from
    [kRetiring]. When the slot is retired between the two, after a publication has passed
    its own test, the slot is reconciled and freed under that publication. *)

Definition race_call : PublishCall := kernel_demo_call (BuildReturns kComplete).

(** The consumer tests the lane, a producer enters, claims it and tests its slot. *)
Definition race_tested : World := kernel_demo_registered <| drained_checks ::= cons 0%nat |>.
Definition race_entered : World := race_tested <| entered ::= cons race_call |>.
Definition race_claimed : World := on_claim race_call (race_entered <| entered := [] |>).

Definition race_claim : ProducerLanes.PublicationClaim :=
  match publishing race_claimed !! 0%nat with
  | Some pub => phase_claim (p_phase pub)
  | None => ProducerLanes.null_publication ProducerLanes.kFull
  end.

Definition race_checked : World :=
  settle 0 0 race_call race_claim (PChecked race_claim)
    (PublishRecheck 0 race_call race_claim (impl race_claimed)) race_claimed.

(** Another thread retires the slot, and the consumer goes on. *)
Definition race_retired : World :=
  race_checked <| impl := (RetireSlot 0 1 (impl race_checked)).1 |>.
Definition race_freed : World :=
  race_retired <| impl ::= FinishRetirement 0 |> <| drained_checks := [] |>.

Lemma race_reachable : rtc (kernel_step RecordStorage.no_double) kernel_demo_registered race_freed.
Proof.
  apply (rtc_l _ _ race_tested); [apply (st_drained _ 0); by vm_compute|].
  apply (rtc_l _ _ race_entered).
  { apply (st_enter _ race_call race_tested); [apply kernel_demo_call_ok|by vm_compute]. }
  apply (rtc_l _ _ race_claimed).
  { apply (st_claim _ race_call [] race_entered). by replace (entered race_entered) with [race_call]. }
  apply (rtc_l _ _ race_checked).
  { apply (st_recheck _ 0 race_call race_claim 0 race_claimed); [by vm_compute|by_compute]. }
  apply (rtc_l _ _ race_retired); [apply (st_retire_slot _ 0 1 race_checked)|].
  apply rtc_once. apply (st_finish_retirement _ 0 [] race_retired).
  by replace (drained_checks race_retired) with [0%nat] by (by vm_compute).
Qed.

Lemma stale_drained_check_frees_a_publishing_slot :
  kernel_reaches RecordStorage.no_double kernel_demo_config race_freed
  /\ control_at (impl race_freed) 0 = {| control_generation := 2; control_state := kFree |}
  /\ publishing race_freed !! 0%nat
     = Some {| p_call := race_call; p_phase := PChecked race_claim (ProducerLanes.cell_index_ race_claim) |}.
Proof.
  split_and!; [|by vm_compute|by vm_compute].
  destruct kernel_demo_reaches as (Hc & Hr & _). split_and!; [done| |by vm_compute].
  etrans; [exact Hr|apply race_reachable].
Qed.
