(* ===== verification/RuntimeConfig.v ===== *)
(** * Configuring a Runtime ([include/ulog/runtime.hpp], [src/runtime.cpp], first part)

    The configuration, its validation, the failures of creating a Runtime with their
    texts, and the snapshot a Runtime reports. A duration in milliseconds is its count. *)
From stdpp Require Import strings.
From S2P Require Import Prelude KernelTypes.
From S2P Require ProducerKernel RawFileSink.
#[local] Open Scope Z_scope.
#[local] Open Scope ulog_scope.

Record RuntimeConfig := {
  threshold : Level;
  payload_capacity_bytes : Z;
  maximum_record_bytes : Z;
  producer_slots : nat;
  ingress_cells : nat;
  control_operations : nat;
  worker_threads : nat;
  startup_timeout : Z;
  destruction_timeout : Z;
}.

(** The path is its native bytes. *)
Record RawFileRouteConfig := { path : list byte; write_buffers : nat }.

Inductive RuntimeCreateErrorCode :=
| kInvalidThreshold | kInvalidMaximumRecordBytes | kInvalidPayloadCapacity
| kInvalidProducerSlots | kInvalidIngressCells | kInvalidControlCapacity
| kInvalidWorkerCount | kInvalidStartupTimeout | kInvalidDestructionTimeout
| kInvalidDestination | kAllocationFailed | kWorkerStartFailed | kWorkerStartupTimedOut
| kInvalidFilePath | kInvalidWriteBuffers | kIoLoopStartFailed | kFileOpenFailed.

#[export] Instance RuntimeCreateErrorCode_eq_dec : EqDecision RuntimeCreateErrorCode.
Proof. solve_decision. Defined.

Record RuntimeCreateFailure := { code : RuntimeCreateErrorCode; io_error : Z }.

(** [RuntimeCreateFailure{code}] *)
Definition failure_of (c : RuntimeCreateErrorCode) : RuntimeCreateFailure :=
  {| code := c; io_error := 0 |}.

(** ** Validation *)

Definition kMinimumRecordBytes : Z := 128.
Definition kMaximumControlOperations : nat := 64.
Definition kMaximumLifecycleTimeout : Z := 24 * 60 * 60 * 1000.
Definition kMaximumWriteBuffers : nat := 64.

Definition ValidateRuntimeConfig (config : RuntimeConfig) : option RuntimeCreateFailure :=
  if kNone <? threshold config then Some (failure_of kInvalidThreshold)
  else if (maximum_record_bytes config <? kMinimumRecordBytes)
          || (kMaximumRecordBytes <? maximum_record_bytes config)
          || negb (maximum_record_bytes config mod kAccountingQuantumBytes =? 0)
  then Some (failure_of kInvalidMaximumRecordBytes)
  else if (payload_capacity_bytes config <? maximum_record_bytes config)
          || negb (payload_capacity_bytes config mod kAccountingQuantumBytes =? 0)
  then Some (failure_of kInvalidPayloadCapacity)
  else if (producer_slots config =? 0)%nat || (kMaximumProducerSlots <? producer_slots config)%nat
  then Some (failure_of kInvalidProducerSlots)
  else if (ingress_cells config <? producer_slots config)%nat
          || (kMaximumIngressCells <? ingress_cells config)%nat
  then Some (failure_of kInvalidIngressCells)
  else if (control_operations config =? 0)%nat
          || (kMaximumControlOperations <? control_operations config)%nat
  then Some (failure_of kInvalidControlCapacity)
  else if negb (worker_threads config =? 1)%nat then Some (failure_of kInvalidWorkerCount)
  else if (startup_timeout config <=? 0) || (kMaximumLifecycleTimeout <? startup_timeout config)
  then Some (failure_of kInvalidStartupTimeout)
  else if (destruction_timeout config <=? 0)
          || (kMaximumLifecycleTimeout <? destruction_timeout config)
  then Some (failure_of kInvalidDestructionTimeout)
  else None.

(** [ValidateConfig] of a destination with the given capacity and record limit. *)
Definition ValidateConfig (config : RuntimeConfig) (capacity maximum : Z)
    : option RuntimeCreateFailure :=
  match ValidateRuntimeConfig config with
  | Some failure => Some failure
  | None =>
      if (capacity =? 0) || (maximum <? maximum_record_bytes config)
      then Some (failure_of kInvalidDestination) else None
  end.

(** The native bytes of a path that names a file: [has_filename] is false for a path that
    is empty or ends in a separator. This is the branch of systems other than Windows. *)
Definition has_filename (bytes : list byte) : bool :=
  match list.last bytes with Some b => negb (b =? 47) | None => false end.

Definition FilePathBytes (bytes : list byte) : option (list byte) :=
  if bool_decide (bytes = []) || bool_decide (0 ∈ bytes) || negb (has_filename bytes)
  then None else Some bytes.

Definition ValidateFileRoute (route : RawFileRouteConfig) : option RuntimeCreateFailure :=
  if bool_decide (path route = []) then Some (failure_of kInvalidFilePath)
  else if (write_buffers route =? 0)%nat || (kMaximumWriteBuffers <? write_buffers route)%nat
  then Some (failure_of kInvalidWriteBuffers) else None.

Definition MapFileSinkStart (started : RawFileSink.FileSinkStartResult) : RuntimeCreateFailure :=
  match RawFileSink.status started with
  | RawFileSink.kOpenFailed =>
      {| code := kFileOpenFailed; io_error := RawFileSink.io_error started |}
  | RawFileSink.kStarted | RawFileSink.kThreadFailed | RawFileSink.kLoopFailed
  | RawFileSink.kTimedOut =>
      {| code := kIoLoopStartFailed; io_error := RawFileSink.io_error started |}
  end.

(** ** Texts *)

Definition FailureMessage (c : RuntimeCreateErrorCode) : string :=
  match c with
  | kInvalidThreshold => "Runtime threshold is not a valid ulog::Level value."
  | kInvalidMaximumRecordBytes =>
      "Runtime maximum_record_bytes is outside the supported aligned range."
  | kInvalidPayloadCapacity =>
      "Runtime payload_capacity_bytes cannot reserve one maximum-sized Record."
  | kInvalidProducerSlots => "Runtime producer_slots is outside the supported bounded range."
  | kInvalidIngressCells =>
      "Runtime ingress_cells cannot provide a bounded lane for every producer slot."
  | kInvalidControlCapacity =>
      "Runtime control_operations is outside the supported bounded range."
  | kInvalidWorkerCount => "The current Runtime supports exactly one worker thread."
  | kInvalidStartupTimeout =>
      "Runtime startup_timeout must be positive and no greater than 24 hours."
  | kInvalidDestructionTimeout =>
      "Runtime destruction_timeout must be positive and no greater than 24 hours."
  | kInvalidDestination =>
      "The in-memory destination is empty, too small, already attached, or stopped."
  | kAllocationFailed => "Runtime could not reserve its fixed bounded state."
  | kWorkerStartFailed => "Runtime could not start its configured worker thread."
  | kWorkerStartupTimedOut =>
      "Runtime worker did not report readiness before startup_timeout."
  | kInvalidFilePath =>
      "The file route path is empty, contains NUL, is not valid UTF-8, or names no file."
  | kInvalidWriteBuffers =>
      "The file route write_buffers is outside the supported bounded range."
  | kIoLoopStartFailed =>
      "Runtime could not start its private I/O loop thread before startup_timeout."
  | kFileOpenFailed => "Runtime could not create or append-open the file route path."
  end.

Definition FailureFix (c : RuntimeCreateErrorCode) : string :=
  match c with
  | kInvalidThreshold => "Set threshold to Trace through None."
  | kInvalidMaximumRecordBytes =>
      "Set maximum_record_bytes to a 64-byte multiple from 128 through 16384."
  | kInvalidPayloadCapacity =>
      "Use a 64-byte-aligned payload_capacity_bytes at least maximum_record_bytes."
  | kInvalidProducerSlots => "Set producer_slots from 1 through 32."
  | kInvalidIngressCells => "Set ingress_cells from producer_slots through 64."
  | kInvalidControlCapacity => "Set control_operations from 1 through 64."
  | kInvalidWorkerCount => "Set worker_threads to 1; the current Runtime has one worker."
  | kInvalidStartupTimeout =>
      "Set startup_timeout to a positive duration no greater than 24 hours."
  | kInvalidDestructionTimeout =>
      "Set destruction_timeout to a positive duration no greater than 24 hours."
  | kInvalidDestination =>
      "Use a fresh, non-empty destination whose maximum_record_bytes is at least the "
      +:+ "Runtime value; attach each destination state to exactly one Runtime."
  | kAllocationFailed =>
      "Reduce configured pool capacities or make enough memory available, then retry."
  | kWorkerStartFailed =>
      "Make an OS thread available or reduce process thread usage, then retry."
  | kWorkerStartupTimedOut =>
      "Inspect host scheduling pressure; retry only after the worker-start stall is "
      +:+ "understood."
  | kInvalidFilePath =>
      "Set RawFileRouteConfig::path to a UTF-8 file path such as logs/app.log, not an "
      +:+ "empty path or a directory."
  | kInvalidWriteBuffers => "Set RawFileRouteConfig::write_buffers from 1 through 64."
  | kIoLoopStartFailed =>
      "Check IoErrorName(io_error); make an OS thread and event handle available or "
      +:+ "raise startup_timeout, then retry."
  | kFileOpenFailed =>
      "Check IoErrorName(io_error): create the parent directory, grant write permission, "
      +:+ "or choose a path that is not a directory, then retry."
  end.

Definition Message (failure : RuntimeCreateFailure) : string := FailureMessage (code failure).
Definition HowToFix (failure : RuntimeCreateFailure) : string := FailureFix (code failure).

(** ** The snapshot *)

Record RuntimeSnapshot := {
  rs_accepted_records : Z;
  rs_processed_records : Z;
  rs_processed_bytes : Z;
  rs_completed_records : Z;
  rs_delivered_records : Z;
  rs_delivered_bytes : Z;
  rs_delivery_failed_records : Z;
  rs_delivery_failed_bytes : Z;
  rs_encoding_failed_records : Z;
  rs_rejected_no_producer : Z;
  rs_rejected_lane_full : Z;
  rs_rejected_budget : Z;
  rs_dropped_newest_records : Z;
  rs_retained_records : Z;
  rs_logical_retained_bytes : Z;
  rs_physical_retained_bytes : Z;
  rs_payload_capacity_bytes : Z;
  rs_fixed_backing_bytes : Z;
  rs_admission_open : bool;
  rs_worker_running : bool;
  rs_route_failed : bool;
  rs_route_io_error : Z;
}.

(** ** What a Runtime configures *)

(** The [KernelConfig] of [RuntimeDomain]; the notification is the domain's own. *)
Definition kernel_config (config : RuntimeConfig) : ProducerKernel.KernelConfig :=
  {| ProducerKernel.threshold := threshold config;
     ProducerKernel.payload_capacity_bytes := payload_capacity_bytes config;
     ProducerKernel.maximum_record_bytes := maximum_record_bytes config;
     ProducerKernel.producer_slots := producer_slots config;
     ProducerKernel.ingress_cells := ingress_cells config;
     ProducerKernel.consumer_notification := true |}.
