(* ===== verification/RuntimeRoute.v ===== *)
(** * The route of a Runtime ([src/runtime.cpp], [RuntimeRoute])

    A Runtime delivers to one of three sinks: structured records in memory, encoded lines
    in memory, or lines of a file. [RuntimeRoute] holds the sink and forwards to it; the
    class [Route] is what the Runtime's domain asks of it. *)
From stdpp Require Import strings.
From S2P Require Import Prelude KernelTypes RouteTypes RuntimeConfig.
From S2P Require RecordStorage ProducerKernel RawFileSink InMemoryDestination InMemoryEncodedDestination.
#[local] Open Scope Z_scope.
#[local] Open Scope ulog_scope.

Record RouteDeliveryResult := {
  consumed : ProducerKernel.ConsumeStatus;
  admission_sequence : Z;
  encoded_bytes : Z;
  was_submitted : bool;
  was_retired : bool;
}.

(** [RouteDeliveryResult{}] *)
Definition no_delivery : RouteDeliveryResult :=
  {| consumed := ProducerKernel.kEmpty; admission_sequence := 0; encoded_bytes := 0;
     was_submitted := false; was_retired := false |}.

Definition is_record (status : ProducerKernel.ConsumeStatus) : bool :=
  match status with ProducerKernel.kRecord => true | _ => false end.

(** ** The interface *)

Class Route (R : Type) := {
  route_deliver : ProducerKernel.Impl -> R -> RouteDeliveryResult * ProducerKernel.Impl * R;
  route_try_retire : Z -> R -> option DeliveryRetirement * R;
  route_summarize : Z -> R -> InFlightSummary;
  route_terminal_error : R -> Z;
  route_stop : R -> R;
  route_request_close : R -> R;
  route_close_result : R -> option Z;
  route_discard : R -> R;
  route_detach : R -> R;
  route_fixed_backing_bytes : R -> Z;
}.

(** ** Raw delivery *)

(** [DeliverRaw] to a sink that gave [claim]: [TryConsume] calls [StoreRawRecord], which
    stores the record with the claim; a claim that stored nothing is destroyed. *)
Definition DeliverRaw {St Claim} `{RawRoute St Claim} (claim : option Claim)
    (k : ProducerKernel.Impl) (state : St) : RouteDeliveryResult * ProducerKernel.Impl * St :=
  match claim with
  | None => (no_delivery, k, state)
  | Some c =>
      let '(k, status, call) := ProducerKernel.TryConsume true k in
      match call with
      | Some (sequence, view) =>
          let '(result, state) := RouteTypes.StoreRaw c sequence view state in
          ({| consumed := status; admission_sequence := sequence;
              encoded_bytes := stored_encoded_bytes result; was_submitted := submitted result;
              was_retired := false |}, k, state)
      | None =>
          ({| consumed := status; admission_sequence := 0; encoded_bytes := 0;
              was_submitted := false; was_retired := false |}, k, RouteTypes.ReleaseClaim c state)
      end
  end.

(** Structured delivery: the record is stored and retired at once. *)
Definition DeliverStructured (k : ProducerKernel.Impl)
    (state : InMemoryDestination.InMemoryDestinationState)
    : RouteDeliveryResult * ProducerKernel.Impl * InMemoryDestination.InMemoryDestinationState :=
  match InMemoryDestination.WaitForWrite state with
  | (None, state) => (no_delivery, k, state)
  | (Some claim, state) =>
      let '(k, status, call) := ProducerKernel.TryConsume true k in
      let state :=
        match call with
        | Some (sequence, view) => InMemoryDestination.Store claim sequence view state
        | None => InMemoryDestination.Reset claim state
        end in
      let stored := is_record status in
      ({| consumed := status; admission_sequence := 0; encoded_bytes := 0;
          was_submitted := stored; was_retired := stored |}, k, state)
  end.

(** ** The three sinks *)

Inductive RuntimeDestination :=
| Structured (state : InMemoryDestination.InMemoryDestinationState)
| Encoded (state : InMemoryEncodedDestination.InMemoryEncodedDestinationState)
| FileSink (state : RawFileSink.RawFileSinkState).

(** [destination.Capacity()] and [destination.MaximumRecordBytes()] of a destination in memory,
    as [Create] reads them; a file sink has neither. *)
Definition Capacity (destination : RuntimeDestination) : Z :=
  match destination with
  | Structured state => InMemoryDestination.Capacity state
  | Encoded state => InMemoryEncodedDestination.Capacity state
  | FileSink _ => 0
  end.

Definition MaximumRecordBytes (destination : RuntimeDestination) : Z :=
  match destination with
  | Structured state => InMemoryDestination.MaximumRecordBytes state
  | Encoded state => InMemoryEncodedDestination.MaximumRecordBytes state
  | FileSink _ => 0
  end.

Record RuntimeRoute := { destination_ : RuntimeDestination; attached_ : bool }.

#[export] Instance RuntimeRoute_eta : Eta RuntimeRoute := fun r =>
  {| destination_ := destination_ r; attached_ := attached_ r |}.

(** [RawFileSink::Start]: its thread may be created, and its loop may run in time. *)
Definition StartSink (created : bool) (loop : option RawFileSink.Uv)
    (state : RawFileSink.RawFileSinkState)
    : RawFileSink.FileSinkStartResult * RawFileSink.RawFileSinkState :=
  let state := RawFileSink.StartThread true state in
  let state := match loop with Some uv => RawFileSink.RunLoop uv state | None => state end in
  (RawFileSink.StartWait created state, state).

Definition Attach (created : bool) (loop : option RawFileSink.Uv) (r : RuntimeRoute)
    : option RuntimeCreateFailure * RuntimeRoute :=
  match destination_ r with
  | Structured state =>
      let '(attached, state) := InMemoryDestination.TryAttachRuntime state in
      (if attached then None else Some (failure_of kInvalidDestination),
       {| destination_ := Structured state; attached_ := attached |})
  | Encoded state =>
      let '(attached, state) := InMemoryEncodedDestination.TryAttachRuntime true state in
      (if attached then None else Some (failure_of kInvalidDestination),
       {| destination_ := Encoded state; attached_ := attached |})
  | FileSink state =>
      let '(started, state) := StartSink created loop state in
      match RawFileSink.status started with
      | RawFileSink.kStarted => (None, {| destination_ := FileSink state; attached_ := true |})
      | _ => (Some (MapFileSinkStart started),
              {| destination_ := FileSink state; attached_ := false |})
      end
  end.

Definition Detach (r : RuntimeRoute) : RuntimeRoute :=
  if negb (attached_ r) then r
  else
    {| destination_ :=
         match destination_ r with
         | Structured state => Structured (InMemoryDestination.DetachRuntime state)
         | Encoded state => Encoded (InMemoryEncodedDestination.DetachRuntime state)
         | FileSink state => FileSink (RawFileSink.DetachWake state)
         end;
       attached_ := false |}.

(** The number as text of a double and the sizes of two structs are the compiler's. *)
Section Route.
Context (double_text : Z -> list byte) (sizeof_FileSlot sizeof_RawFileSinkState : Z).

#[local] Existing Instance InMemoryEncodedDestination.InMemoryEncodedDestination_route.
#[local] Existing Instance RawFileSink.RawFileSink_route.

Definition Deliver (k : ProducerKernel.Impl) (r : RuntimeRoute)
    : RouteDeliveryResult * ProducerKernel.Impl * RuntimeRoute :=
  match destination_ r with
  | Structured state =>
      let '(result, k, state) := DeliverStructured k state in
      (result, k, r <| destination_ := Structured state |>)
  | Encoded state =>
      let '(claim, state) := InMemoryEncodedDestination.TryClaimWrite state in
      let '(result, k, state) :=
        DeliverRaw (H := InMemoryEncodedDestination.InMemoryEncodedDestination_route double_text)
          claim k state in
      (result, k, r <| destination_ := Encoded state |>)
  | FileSink state =>
      let '(claim, state) := RawFileSink.TryClaimWrite state in
      let '(result, k, state) :=
        DeliverRaw (H := RawFileSink.RawFileSink_route double_text) claim k state in
      (result, k, r <| destination_ := FileSink state |>)
  end.

Definition TryRetire (sequence : Z) (r : RuntimeRoute) : option DeliveryRetirement * RuntimeRoute :=
  match destination_ r with
  | Structured _ => (None, r)
  | Encoded state =>
      let '(retirement, state) := InMemoryEncodedDestination.TryRetire sequence state in
      (retirement, r <| destination_ := Encoded state |>)
  | FileSink state =>
      let '(retirement, state) := RawFileSink.TryRetire sequence state in
      (retirement, r <| destination_ := FileSink state |>)
  end.

Definition SummarizeInFlight (watermark : Z) (r : RuntimeRoute) : InFlightSummary :=
  match destination_ r with
  | Structured _ => empty_summary
  | Encoded state => InMemoryEncodedDestination.SummarizeInFlight watermark state
  | FileSink state => RawFileSink.SummarizeInFlight watermark state
  end.

Definition TerminalError (r : RuntimeRoute) : Z :=
  match destination_ r with FileSink state => RawFileSink.FailureError state | _ => 0 end.

Definition Stop (r : RuntimeRoute) : RuntimeRoute :=
  r <| destination_ :=
    match destination_ r with
    | Structured state => Structured (InMemoryDestination.Stop state)
    | Encoded state => Encoded (InMemoryEncodedDestination.Stop state)
    | FileSink state => FileSink (RawFileSink.Stop state)
    end |>.

Definition RequestClose (r : RuntimeRoute) : RuntimeRoute :=
  match destination_ r with
  | FileSink state => r <| destination_ := FileSink (RawFileSink.RequestClose state) |>
  | _ => r
  end.

Definition CloseResult (r : RuntimeRoute) : option Z :=
  match destination_ r with FileSink state => RawFileSink.CloseResult state | _ => Some 0 end.

Definition DiscardInFlight (r : RuntimeRoute) : RuntimeRoute :=
  match destination_ r with
  | Structured _ => r
  | Encoded state =>
      r <| destination_ := Encoded (InMemoryEncodedDestination.DiscardInFlight state) |>
  | FileSink state => r <| destination_ := FileSink (RawFileSink.DiscardInFlight state) |>
  end.

Definition FixedBackingBytes (r : RuntimeRoute) : Z :=
  match destination_ r with
  | Structured state => InMemoryDestination.FixedBackingBytes state
  | Encoded state => InMemoryEncodedDestination.fixed_backing_bytes state
  | FileSink state =>
      w64 (zlen (RawFileSink.slots state) * (RawFileSink.buffer_bytes state +w sizeof_FileSlot))
      +w sizeof_RawFileSinkState
  end.

#[export] Instance RuntimeRoute_route : Route RuntimeRoute := {|
  route_deliver := Deliver;
  route_try_retire := TryRetire;
  route_summarize := SummarizeInFlight;
  route_terminal_error := TerminalError;
  route_stop := Stop;
  route_request_close := RequestClose;
  route_close_result := CloseResult;
  route_discard := DiscardInFlight;
  route_detach := Detach;
  route_fixed_backing_bytes := FixedBackingBytes;
|}.
End Route.
