(* ===== verification/RuntimeDomain.v ===== *)
(** * The domain of a Runtime ([src/runtime.cpp], [RuntimeDomain] and [Runtime::Impl])

    The state the Runtime's threads share: the route, the producer kernel, the control
    reserve, the ordered actions and the route ledger. A critical section of
    [state_mutex_] is one function; [Run] is the step function of the worker thread, one
    step per critical section or call into a component, so that other threads can run
    between them. [accepted] arguments are samples of the kernel's accepted count. *)
From stdpp Require Import strings.
From S2P Require Import Prelude Sampling KernelTypes ThreadRegistry RuntimeConfig RuntimeRoute.
From S2P Require Operation ControlReserve ProducerKernel RouteTypes RawFileSink.
#[local] Open Scope Z_scope.
#[local] Open Scope ulog_scope.
#[local] Existing Instance RouteTypes.DeliveryOutcome_eq_dec.

(** ** Data *)

Inductive ControlActionKind := kDrain | kShutdown.

#[export] Instance ControlActionKind_eq_dec : EqDecision ControlActionKind.
Proof. solve_decision. Defined.

Record ControlAction := {
  action_kind : ControlActionKind;
  watermark : Z;
  completion : option ControlReserve.NodeRef;
  active : bool;
}.

#[export] Instance ControlAction_eta : Eta ControlAction := fun a =>
  {| action_kind := action_kind a; watermark := watermark a; completion := completion a;
     active := active a |}.

(** [ControlAction{}] *)
Definition empty_action : ControlAction :=
  {| action_kind := kDrain; watermark := 0; completion := None; active := false |}.

Record RouteLedger := {
  processed_records : Z;
  processed_bytes : Z;
  retired_records : Z;
  delivered_records : Z;
  delivered_bytes : Z;
  failed_records : Z;
  failed_bytes : Z;
  encoding_failed_records : Z;
  encoding_failed_sequence : option Z;
  settled : bool;
}.

#[export] Instance RouteLedger_eta : Eta RouteLedger := fun l =>
  {| processed_records := processed_records l; processed_bytes := processed_bytes l;
     retired_records := retired_records l; delivered_records := delivered_records l;
     delivered_bytes := delivered_bytes l; failed_records := failed_records l;
     failed_bytes := failed_bytes l; encoding_failed_records := encoding_failed_records l;
     encoding_failed_sequence := encoding_failed_sequence l; settled := settled l |}.

(** [RouteLedger{}] *)
Definition empty_ledger : RouteLedger :=
  {| processed_records := 0; processed_bytes := 0; retired_records := 0; delivered_records := 0;
     delivered_bytes := 0; failed_records := 0; failed_bytes := 0; encoding_failed_records := 0;
     encoding_failed_sequence := None; settled := false |}.

(** [wake_epoch_] counts the calls of [NotifyControl]; the kernel counts those of
    [Notify]. *)
Record RuntimeDomain (R C : Type) := {
  config_ : RuntimeConfig;
  route_ : R;
  producer_ : ProducerKernel.Impl;
  control_reserve_ : ControlReserve.ControlDomain C;
  actions_ : list ControlAction;
  registrations_ : list (option ProducerKernel.ProducerRegistration);
  ledger_ : RouteLedger;
  worker_started_ : bool;
  worker_stopped_ : bool;
  accepting_actions_ : bool;
  shutdown_requested_ : bool;
  route_failed_ : bool;
  route_io_error_ : Z;
  destruction_stop_requested_ : bool;
  worker_running_ : bool;
  wake_epoch_ : Z;
}.
Arguments config_ {R C}. Arguments route_ {R C}. Arguments producer_ {R C}.
Arguments control_reserve_ {R C}. Arguments actions_ {R C}. Arguments registrations_ {R C}.
Arguments ledger_ {R C}. Arguments worker_started_ {R C}. Arguments worker_stopped_ {R C}.
Arguments accepting_actions_ {R C}. Arguments shutdown_requested_ {R C}.
Arguments route_failed_ {R C}. Arguments route_io_error_ {R C}.
Arguments destruction_stop_requested_ {R C}. Arguments worker_running_ {R C}.
Arguments wake_epoch_ {R C}.

#[export] Instance RuntimeDomain_eta R C : Eta (RuntimeDomain R C) := fun d =>
  {| config_ := config_ d; route_ := route_ d; producer_ := producer_ d;
     control_reserve_ := control_reserve_ d; actions_ := actions_ d;
     registrations_ := registrations_ d; ledger_ := ledger_ d;
     worker_started_ := worker_started_ d; worker_stopped_ := worker_stopped_ d;
     accepting_actions_ := accepting_actions_ d; shutdown_requested_ := shutdown_requested_ d;
     route_failed_ := route_failed_ d; route_io_error_ := route_io_error_ d;
     destruction_stop_requested_ := destruction_stop_requested_ d;
     worker_running_ := worker_running_ d; wake_epoch_ := wake_epoch_ d |}.

(** What a call touches besides the domain: the registry of its thread and the shard
    counter of the process. *)
Record Caller := { caller_registry : ThreadRegistry; caller_next_shard : Z }.

(** What the domain reports to a caller that starts an action. *)
Definition OperationStartResult : Type := Operation.OperationStartFailure + ControlReserve.NodeRef.

(** The loops of the worker, by what follows them. *)
Inductive AfterDrains := ThenRetire | ThenHead.
Inductive AfterActions := ThenSettle | ThenStop.
Inductive AfterScan := ThenCovered | ThenConsume.
Inductive AfterCompletion :=
| ToDrains (a : AfterDrains) | ToActions (o : Operation.OperationOutcome) (a : AfterActions).

(** Where the worker stands in [Run]. *)
Inductive WorkerPc :=
| WStart
| WHead
| WPrepareStop
| WStopRoute (o : Operation.OperationOutcome)
| WRetire
| WRetired (x : RouteTypes.DeliveryRetirement)
| WDecided (x : RouteTypes.DeliveryRetirement)
| WDrains (a : AfterDrains)
| WComplete (c : option ControlReserve.NodeRef) (o : Operation.OperationOutcome)
    (report : Operation.OperationReport) (next : AfterCompletion)
| WActions (o : Operation.OperationOutcome) (a : AfterActions)
| WTerminal
| WRouteError (error : Z)
| WPrepareFailure
| WFinish
| WScan (slot : nat) (quiescent : bool) (a : AfterScan)
| WCovered
| WClosing
| WClosed
| WDeliver
| WProcessed (result : RouteDeliveryResult)
| WEncodingFailed (sequence : Z)
| WWait
| WSettle
| WDiscardRoute
| WConsume
| WExit (shutdown_outcome : option Operation.OperationOutcome)
| WStop
| WDone.

Section Domain.
Context {R C : Type} `{!Route R}.
(** The domain's kernel has address [self], [identity] and lifetime [block]. *)
Context (self : nat) (identity : Z) (block : nat) (others : nat -> option KernelLifetimeState).
Implicit Types (d : RuntimeDomain R C) (caller : Caller).

(** ** Construction *)

(** The constructor: the exception of a component, or the domain. *)
Definition MakeRuntimeDomain (config : RuntimeConfig) (route : R) (dispatcher_valid : bool)
    (state_bytes : Z) : (ProducerKernel.ConfigField + string) + RuntimeDomain R C :=
  match ProducerKernel.MakeProducerKernel (kernel_config config) false with
  | inl field => inl (inl field)
  | inr producer =>
      match ControlReserve.MakeReserve (control_operations config) dispatcher_valid state_bytes with
      | inl message => inl (inr message)
      | inr reserve =>
          inr {| config_ := config; route_ := route; producer_ := producer;
                 control_reserve_ := reserve;
                 actions_ := replicate (control_operations config) empty_action;
                 registrations_ := replicate kMaximumProducerSlots None;
                 ledger_ := empty_ledger; worker_started_ := false; worker_stopped_ := false;
                 accepting_actions_ := true; shutdown_requested_ := false;
                 route_failed_ := false; route_io_error_ := 0;
                 destruction_stop_requested_ := false; worker_running_ := false;
                 wake_epoch_ := 0 |}
      end
  end.

(** [~RuntimeDomain] *)
Definition DestroyDomain d : RuntimeDomain R C := d <| route_ ::= route_detach |>.

(** ** Small operations *)

(** The sample [producer_.GetSnapshot().accepted_records], which the first load of the
    snapshot decides. *)
Definition Accepted d : Z :=
  ProducerKernel.snap_accepted_records (still ProducerKernel.GetSnapshot (producer_ d)).

Definition NotifyControl d : RuntimeDomain R C := d <| wake_epoch_ ::= fun n => n +w 1 |>.

Definition DestructionStopRequested d : bool := destruction_stop_requested_ d.

Definition call_of caller d : ProducerKernel.CallState :=
  {| ProducerKernel.kernel := producer_ d; ProducerKernel.registry := caller_registry caller;
     ProducerKernel.next_shard := caller_next_shard caller |}.

Definition called (s : ProducerKernel.CallState) d : Caller * RuntimeDomain R C :=
  ({| caller_registry := ProducerKernel.registry s;
      caller_next_shard := ProducerKernel.next_shard s |},
   d <| producer_ := ProducerKernel.kernel s |>).

(** [registration.reset()] for each. *)
Fixpoint ResetRegistrations (l : list (option ProducerKernel.ProducerRegistration))
    (s : ProducerKernel.CallState) : ProducerKernel.CallState :=
  match l with
  | [] => s
  | None :: l' => ResetRegistrations l' s
  | Some registration :: l' =>
      ResetRegistrations l' (ProducerKernel.ResetRegistration self identity registration s).2
  end.

Definition CloseAdmissionLocked caller d : Caller * RuntimeDomain R C :=
  let d := d <| producer_ ::= ProducerKernel.CloseAdmission |> in
  let '(caller, d) := called (ResetRegistrations (registrations_ d) (call_of caller d)) d in
  (caller, d <| registrations_ ::= fmap (fun _ => None) |>).

(** [GetLogger] prepares the calling thread; the logger it returns is always the kernel's. *)
Definition GetLogger caller d : Caller * RuntimeDomain R C :=
  if negb (accepting_actions_ d) || negb (ProducerKernel.IsAdmissionOpen (producer_ d))
  then (caller, d)
  else
    let '(registration, s) :=
      ProducerKernel.TryRegisterProducer self identity block others (call_of caller d) in
    if negb (ProducerKernel.reg_owner registration) then called s d
    else
      match first_index (fun stored => bool_decide (stored = None)) (registrations_ d) with
      | Some i => called s (d <| registrations_ ::= <[i := Some registration]> |>)
      | None => called (ProducerKernel.ResetRegistration self identity registration s).2 d
      end.

(** ** Reports *)

Definition BuildReportLocked (mark : Z) d : Operation.OperationReport :=
  let l := ledger_ d in
  let '(records, bytes, sent, sent_bytes, lost, lost_bytes) :=
    if settled l then
      (processed_records l, processed_bytes l, delivered_records l, delivered_bytes l,
       failed_records l +w encoding_failed_records l, failed_bytes l)
    else
      let in_flight := if retired_records l <? mark then route_summarize mark (route_ d)
                       else RouteTypes.empty_summary in
      let encoding_failed :=
        match encoding_failed_sequence l with
        | Some sequence => if sequence <? mark then 1 else 0
        | None => 0
        end in
      (retired_records l +w RouteTypes.records in_flight +w encoding_failed,
       delivered_bytes l +w failed_bytes l +w RouteTypes.bytes in_flight,
       delivered_records l +w RouteTypes.delivered_records in_flight,
       delivered_bytes l +w RouteTypes.delivered_bytes in_flight,
       failed_records l +w RouteTypes.failed_records in_flight +w encoding_failed,
       failed_bytes l +w RouteTypes.failed_bytes in_flight) in
  {| Operation.watermark_records := mark;
     Operation.processed_records := records;
     Operation.processed_bytes := bytes;
     Operation.delivered_records := sent;
     Operation.delivered_bytes := sent_bytes;
     Operation.failed_records := lost;
     Operation.failed_bytes := lost_bytes;
     Operation.unfinished_records := mark -w sent -w lost;
     Operation.unfinished_bytes := bytes -w sent_bytes -w lost_bytes |}.

(** The kernel is sampled first and without a lock, then the ledger and the failure under
    [state_mutex_]; the worker and the producers run in between. [sizeof_node] and
    [sizeof_action] are the sizes of [ControlNode] and [ControlAction]. *)
Definition GetSnapshot (sizeof_node sizeof_action : Z)
    : Sampling (RuntimeDomain R C) RuntimeSnapshot :=
  producer ← within producer_ ProducerKernel.GetSnapshot;
  controls ← load (fun d => ControlReserve.GetSnapshot sizeof_node (control_reserve_ d));
  locked ← load (fun d => (ledger_ d, route_failed_ d, route_io_error_ d));
  route_bytes ← load (fun d => route_fixed_backing_bytes (route_ d));
  config ← load config_;
  admission_open ← load (fun d => ProducerKernel.IsAdmissionOpen (producer_ d));
  running ← load worker_running_;
  let l := locked.1.1 in
  mret {| rs_accepted_records := ProducerKernel.snap_accepted_records producer;
          rs_processed_records := processed_records l;
          rs_processed_bytes := processed_bytes l;
          rs_completed_records :=
            delivered_records l +w failed_records l +w encoding_failed_records l;
          rs_delivered_records := delivered_records l;
          rs_delivered_bytes := delivered_bytes l;
          rs_delivery_failed_records := failed_records l;
          rs_delivery_failed_bytes := failed_bytes l;
          rs_encoding_failed_records := encoding_failed_records l;
          rs_rejected_no_producer := ProducerKernel.snap_rejected_no_producer producer;
          rs_rejected_lane_full := ProducerKernel.snap_rejected_lane_full producer;
          rs_rejected_budget := ProducerKernel.snap_rejected_budget producer;
          rs_dropped_newest_records :=
            ProducerKernel.snap_rejected_no_producer producer
            +w ProducerKernel.snap_rejected_lane_full producer
            +w ProducerKernel.snap_rejected_budget producer;
          rs_retained_records := ProducerKernel.snap_retained_records producer;
          rs_logical_retained_bytes := ProducerKernel.snap_logical_retained_bytes producer;
          rs_physical_retained_bytes := ProducerKernel.snap_physical_retained_bytes producer;
          rs_payload_capacity_bytes := ProducerKernel.snap_payload_capacity_bytes producer;
          rs_fixed_backing_bytes :=
            ProducerKernel.snap_fixed_backing_bytes producer +w route_bytes
            +w ControlReserve.node_backing_bytes controls
            +w ControlReserve.snapshot_dispatcher_bytes controls
            +w w64 (Z.of_nat (control_operations config) * sizeof_action);
          rs_admission_open := admission_open;
          rs_worker_running := running;
          rs_route_failed := locked.1.2;
          rs_route_io_error := locked.2 |}.

(** ** Starting an action *)

(** The outcome of an action that comes after the last one was accepted. *)
Definition LateOutcome d : Operation.OperationOutcome :=
  if destruction_stop_requested_ d then Operation.kCancelled
  else if route_failed_ d then Operation.kFailed
  else Operation.kSucceeded.

(** The first part of the locked section: a first [kShutdown] closes admission. *)
Definition BeginShutdownLocked (kind : ControlActionKind) caller d : Caller * RuntimeDomain R C :=
  if bool_decide (kind = kShutdown) && negb (shutdown_requested_ d)
  then CloseAdmissionLocked caller (d <| shutdown_requested_ := true |>)
  else (caller, d).

Definition free_action d : option nat := first_index (fun a => negb (active a)) (actions_ d).

(** The rest of it, from the sample of the accepted count on: what completes at once, or
    the registered action. *)
Definition RegisterLocked (kind : ControlActionKind) (accepted : Z)
    (completion : option ControlReserve.NodeRef) d
    : option (Operation.OperationOutcome * Operation.OperationReport) * RuntimeDomain R C :=
  if bool_decide (kind = kDrain) && (accepted =? retired_records (ledger_ d))
  then (Some (Operation.kSucceeded, BuildReportLocked accepted d), d)
  else
    match free_action d with
    | None => (Some (Operation.kFailed, BuildReportLocked accepted d), d)
    | Some i =>
        (None,
         d <| actions_ ::= <[i := {| action_kind := kind; watermark := accepted;
                                     completion := completion; active := true |}]> |>)
    end.

(** The locked section. [accepted] is its sample, taken after admission is closed. *)
Definition StartActionLocked (kind : ControlActionKind) (accepted : Z)
    (completion : option ControlReserve.NodeRef) caller d
    : option (Operation.OperationOutcome * Operation.OperationReport)
      * Caller * RuntimeDomain R C :=
  if negb (accepting_actions_ d)
  then (Some (LateOutcome d, BuildReportLocked accepted d), caller, d)
  else
    let '(caller, d) := BeginShutdownLocked kind caller d in
    let '(immediate, d) := RegisterLocked kind accepted completion d in
    (immediate, caller, d).

Definition CompleteOperation (c : option ControlReserve.NodeRef) (o : Operation.OperationOutcome)
    (report : Operation.OperationReport) d : RuntimeDomain R C :=
  d <| control_reserve_ ::= fun reserve => (ControlReserve.TryComplete c o report reserve).2 |>.

(** The whole call when no other thread runs; [serial] numbers the operation. *)
Definition StartAction (kind : ControlActionKind) (serial : nat) caller d
    : OperationStartResult * Caller * RuntimeDomain R C :=
  match ControlReserve.TryStart (control_reserve_ d) with
  | inl failure => (inl failure, caller, d)
  | inr (i, generation, reserve) =>
      let ref := {| ControlReserve.node := i; ControlReserve.node_generation := generation;
                    ControlReserve.serial := serial |} in
      let d := d <| control_reserve_ := reserve |> in
      let '(immediate, caller, d) := StartActionLocked kind (Accepted d) (Some ref) caller d in
      let d := match immediate with
               | Some (o, report) => CompleteOperation (Some ref) o report d
               | None => d
               end in
      (inr ref, caller, NotifyControl d)
  end.

(** ** The worker's critical sections *)

Definition RecordProcessed (result : RouteDeliveryResult) d : RuntimeDomain R C :=
  let d := d <| ledger_ ::= fun l =>
    l <| processed_records ::= fun n => n +w 1 |>
      <| processed_bytes ::= fun n => n +w encoded_bytes result |> |> in
  if was_retired result then
    d <| ledger_ ::= fun l =>
      l <| retired_records ::= fun n => n +w 1 |>
        <| delivered_records ::= fun n => n +w 1 |>
        <| delivered_bytes ::= fun n => n +w encoded_bytes result |> |>
  else d.

Definition RecordEncodingFailure (sequence : Z) d : RuntimeDomain R C :=
  d <| ledger_ ::= fun l =>
    l <| processed_records ::= fun n => n +w 1 |>
      <| encoding_failed_records ::= fun n => n +w 1 |>
      <| encoding_failed_sequence := Some sequence |> |>.

(** The critical section of one iteration of [RetireCompletedDeliveries]. *)
Definition RecordRetirement (x : RouteTypes.DeliveryRetirement) d : RuntimeDomain R C :=
  d <| ledger_ ::= fun l =>
    let l := l <| retired_records ::= fun n => n +w 1 |> in
    match RouteTypes.outcome x with
    | RouteTypes.kDelivered =>
        l <| delivered_records ::= fun n => n +w 1 |>
          <| delivered_bytes ::= fun n => n +w RouteTypes.retired_bytes x |>
    | RouteTypes.kFailed =>
        l <| failed_records ::= fun n => n +w 1 |>
          <| failed_bytes ::= fun n => n +w RouteTypes.retired_bytes x |>
    end |>.

(** A failure that stops the route ends the retirements. *)
Definition StopsRetirements (x : RouteTypes.DeliveryRetirement) d : bool :=
  bool_decide (RouteTypes.outcome x = RouteTypes.kFailed)
  && negb (route_terminal_error (route_ d) =? 0).

(** The critical section of [SettleInFlight]. *)
Definition SettleLocked d : RuntimeDomain R C :=
  let in_flight := route_summarize u64_max (route_ d) in
  d <| ledger_ ::= fun l =>
    l <| delivered_records ::= fun n => n +w RouteTypes.delivered_records in_flight |>
      <| delivered_bytes ::= fun n => n +w RouteTypes.delivered_bytes in_flight |>
      <| failed_records ::= fun n => n +w RouteTypes.failed_records in_flight |>
      <| failed_bytes ::= fun n => n +w RouteTypes.failed_bytes in_flight |>
      <| settled := true |> |>.

Definition ActionWatermarkLocked (accepted : Z) (action : ControlAction) : Z :=
  match action_kind action with kDrain => watermark action | kShutdown => accepted end.

(** The first action that [ready] holds of leaves the table with its report. *)
Definition TakeActionLocked (ready : ControlAction -> bool) (mark : ControlAction -> Z) d
    : option (option ControlReserve.NodeRef * Operation.OperationReport) * RuntimeDomain R C :=
  match first_index ready (actions_ d) with
  | None => (None, d)
  | Some i =>
      let action := default empty_action (actions_ d !! i) in
      let d := d <| actions_ ::= alter (fun a => a <| active := false |> <| completion := None |>) i |> in
      (Some (completion action, BuildReportLocked (mark action) d), d)
  end.

(** The critical sections of [CompleteReadyDrains] and [CompleteActions]. *)
Definition drain_ready d (action : ControlAction) : bool :=
  active action && bool_decide (action_kind action = kDrain)
  && (watermark action <=? retired_records (ledger_ d)).

Definition TakeReadyDrain d := TakeActionLocked (drain_ready d) watermark d.

Definition TakeActive (accepted : Z) d := TakeActionLocked active (ActionWatermarkLocked accepted) d.

Definition RecordRouteIoError (error : Z) d : RuntimeDomain R C :=
  d <| route_failed_ := true |> <| route_io_error_ := error |>.

(** The critical sections of [PrepareDestructionStop] and [PrepareRouteFailure]. *)
Definition PrepareDestructionStop caller d : Caller * RuntimeDomain R C :=
  CloseAdmissionLocked caller (d <| accepting_actions_ := false |>).

Definition PrepareRouteFailure caller d : Caller * RuntimeDomain R C :=
  CloseAdmissionLocked caller (d <| route_failed_ := true |> <| accepting_actions_ := false |>).

(** [TryFinishShutdown] between its calls: every admitted record retired, and the result
    of closing. *)
Definition ShutdownCovered (accepted : Z) d : bool := retired_records (ledger_ d) =? accepted.

Definition FinishClose (closed : option Z) d
    : option Operation.OperationOutcome * RuntimeDomain R C :=
  match closed with
  | None => (None, d)
  | Some error =>
      if negb (error =? 0) then (Some Operation.kFailed, RecordRouteIoError error d)
      else (Some Operation.kSucceeded, d)
  end.

(** ** The worker *)

Definition after_drains (a : AfterDrains) : WorkerPc :=
  match a with ThenRetire => WRetire | ThenHead => WHead end.

Definition after_actions (a : AfterActions) : WorkerPc :=
  match a with ThenSettle => WSettle | ThenStop => WStop end.

(** What follows [IsQuiescent], which [TryFinishShutdown] and [DrainDiscardedRecords] call. *)
Definition after_scan (quiescent : bool) (a : AfterScan) : WorkerPc :=
  match a with
  | ThenCovered => if quiescent then WCovered else WDeliver
  | ThenConsume => if quiescent then WExit None else WConsume
  end.

Definition after_completion (next : AfterCompletion) : WorkerPc :=
  match next with ToDrains a => WDrains a | ToActions o a => WActions o a end.

(** One iteration of the loop of [IsQuiescent]. *)
Definition ScanSlot (slot : nat) (quiescent : bool) (k : ProducerKernel.Impl)
    : bool * ProducerKernel.Impl := ProducerKernel.QuiescentLoop 1 slot quiescent k.

(** One step of [Run]. A condition wait ends at the latest after its interval, so
    [WWait] always goes on ([WorkerWake.v] shows when it ends before that); [accepted] is the
    sample of the step, if it takes one. The retained records of [WDeliver] are read at one
    moment: nothing but the worker consumes. *)
Definition WorkerStep (accepted : Z) (pc : WorkerPc) caller d
    : WorkerPc * Caller * RuntimeDomain R C :=
  match pc with
  | WStart => (WHead, caller, d <| worker_started_ := true |> <| worker_running_ := true |>)
  | WHead => (if DestructionStopRequested d then WPrepareStop else WRetire, caller, d)
  | WPrepareStop =>
      let '(caller, d) := PrepareDestructionStop caller d in
      (WStopRoute Operation.kCancelled, caller, d)
  | WStopRoute o => (WActions o ThenSettle, caller, d <| route_ ::= route_stop |>)
  | WRetire =>
      if retired_records (ledger_ d) <? processed_records (ledger_ d) then
        let '(retirement, r) := route_try_retire (retired_records (ledger_ d)) (route_ d) in
        (match retirement with Some x => WRetired x | None => WTerminal end, caller,
         d <| route_ := r |>)
      else (WTerminal, caller, d)
  | WRetired x => (WDecided x, caller, RecordRetirement x d)
  | WDecided x => (if StopsRetirements x d then WTerminal else WDrains ThenRetire, caller, d)
  | WDrains a =>
      let '(taken, d) := TakeReadyDrain d in
      (match taken with
       | Some (c, report) => WComplete c Operation.kSucceeded report (ToDrains a)
       | None => after_drains a
       end, caller, d)
  | WComplete c o report next => (after_completion next, caller, CompleteOperation c o report d)
  | WActions o a =>
      let '(taken, d) := TakeActive accepted d in
      (match taken with
       | Some (c, report) => WComplete c o report (ToActions o a)
       | None => after_actions a
       end, caller, d)
  | WTerminal =>
      let error := route_terminal_error (route_ d) in
      (if negb (error =? 0) then WRouteError error else WFinish, caller, d)
  | WRouteError error => (WPrepareFailure, caller, RecordRouteIoError error d)
  | WPrepareFailure =>
      let '(caller, d) := PrepareRouteFailure caller d in (WStopRoute Operation.kFailed, caller, d)
  | WFinish => (if shutdown_requested_ d then WScan 0 true ThenCovered else WDeliver, caller, d)
  | WScan slot quiescent a =>
      if (slot <? ProducerKernel.producer_slots (ProducerKernel.config (producer_ d)))%nat then
        let '(quiescent, k) := ScanSlot slot quiescent (producer_ d) in
        (WScan (S slot) quiescent a, caller, d <| producer_ := k |>)
      else (after_scan quiescent a, caller, d)
  | WCovered => (if ShutdownCovered accepted d then WClosing else WDeliver, caller, d)
  | WClosing => (WClosed, caller, d <| route_ ::= route_request_close |>)
  | WClosed =>
      let '(o, d) := FinishClose (route_close_result (route_ d)) d in
      (match o with Some o => WExit (Some o) | None => WDeliver end, caller, d)
  | WDeliver =>
      if ProducerKernel.snap_retained_records (still ProducerKernel.GetSnapshot (producer_ d)) =? 0
      then (WWait, caller, d)
      else
        let '(result, k, r) := route_deliver (producer_ d) (route_ d) in
        (if negb (is_record (consumed result)) then WWait
         else if was_submitted result then WProcessed result
         else WEncodingFailed (admission_sequence result), caller,
         d <| producer_ := k |> <| route_ := r |>)
  | WProcessed result =>
      (if was_retired result then WDrains ThenHead else WHead, caller, RecordProcessed result d)
  | WEncodingFailed sequence => (WPrepareFailure, caller, RecordEncodingFailure sequence d)
  | WWait => (WHead, caller, d)
  | WSettle => (WDiscardRoute, caller, SettleLocked d)
  | WDiscardRoute => (WScan 0 true ThenConsume, caller, d <| route_ ::= route_discard |>)
  | WConsume =>
      let '(k, _, _) := ProducerKernel.TryConsume true (producer_ d) in
      (WScan 0 true ThenConsume, caller, d <| producer_ := k |>)
  | WExit o =>
      (match o with Some o => WActions o ThenStop | None => WStop end, caller,
       d <| accepting_actions_ := false |> <| worker_running_ := false |>)
  | WStop => (WDone, caller, d <| worker_stopped_ := true |>)
  | WDone => (WDone, caller, d)
  end.

(** The worker alone: [n] steps of [Run], each sampling the present count. *)
Fixpoint Run (n : nat) (pc : WorkerPc) caller d : WorkerPc * Caller * RuntimeDomain R C :=
  match n with
  | O => (pc, caller, d)
  | S n => let '(pc, caller, d) := WorkerStep (Accepted d) pc caller d in Run n pc caller d
  end.

(** ** Destruction *)

Definition RequestDestructionStop d : RuntimeDomain R C :=
  let d := d <| destruction_stop_requested_ := true |> in
  let d := d <| producer_ ::= ProducerKernel.CloseAdmission |> in
  NotifyControl (d <| route_ ::= route_stop |>).

(** How [StopAndJoin] leaves the worker, given what it is at the deadline. *)
Inductive WorkerEnd := NoWorker | Joined | Detached.

Definition StopAndJoin (joinable : bool) (at_deadline : RuntimeDomain R C -> RuntimeDomain R C) d
    : WorkerEnd * RuntimeDomain R C :=
  let d := RequestDestructionStop d in
  if joinable then
    let d := at_deadline d in (if worker_stopped_ d then Joined else Detached, d)
  else (NoWorker, d).
End Domain.

(** ** Creation *)

Inductive WorkerStartStatus := kStarted | kThreadFailed | kTimedOut.

(** What an allocation or a thread creation throws. *)
Inductive Thrown := bad_alloc | system_error | other_exception.

(** What the system does for [Create]: allocations, threads, the loop of a file route and
    whether the worker reports its start in time. *)
Record CreateEnv := {
  allocates_domain : option Thrown;
  dispatcher_ready : bool;
  dispatcher_bytes : Z;
  io_thread_created : bool;
  io_loop : option RawFileSink.Uv;
  allocates_impl : option Thrown;
  worker_created : bool;
  worker_in_time : bool;
  path_throws : option Thrown;
  sink_throws : option Thrown;
}.

Definition StartWorker (env : CreateEnv) : WorkerStartStatus :=
  if negb (worker_created env) then kThreadFailed
  else if negb (worker_in_time env) then kTimedOut else kStarted.

Section Create.
Context {C : Type}.

Definition caught (t : Thrown) : RuntimeCreateFailure :=
  failure_of (match t with system_error => kWorkerStartFailed | _ => kAllocationFailed end).

(** [CreateInto]: the failure, or the domain of the Runtime that runs. A component that
    rejects its configuration throws neither of the two exceptions caught by name. *)
Definition CreateInto (env : CreateEnv) (config : RuntimeConfig) (route : RuntimeRoute)
    : RuntimeCreateFailure + RuntimeDomain RuntimeRoute C :=
  match allocates_domain env with
  | Some t => inl (caught t)
  | None =>
      match MakeRuntimeDomain config route (dispatcher_ready env) (dispatcher_bytes env) with
      | inl _ => inl (caught other_exception)
      | inr d =>
          match Attach (io_thread_created env) (io_loop env) (route_ d) with
          | (Some failure, _) => inl failure
          | (None, attached) =>
              match allocates_impl env with
              | Some t => inl (caught t)
              | None =>
                  match StartWorker env with
                  | kStarted => inr (d <| route_ := attached |>)
                  | kThreadFailed => inl (failure_of kWorkerStartFailed)
                  | kTimedOut => inl (failure_of kWorkerStartupTimedOut)
                  end
              end
          end
      end
  end.

(** The exceptions of the path conversion and of the sink's allocation. *)
Definition path_caught (t : Thrown) : RuntimeCreateFailure :=
  failure_of (match t with bad_alloc => kAllocationFailed | _ => kInvalidFilePath end).

Definition CreateFileInto (env : CreateEnv) (config : RuntimeConfig) (route : RawFileRouteConfig)
    (faults : RawFileSink.FileFaultPlan) : RuntimeCreateFailure + RuntimeDomain RuntimeRoute C :=
  match ValidateRuntimeConfig config with
  | Some failure => inl failure
  | None =>
      match ValidateFileRoute route with
      | Some failure => inl failure
      | None =>
          match path_throws env, FilePathBytes (path route) with
          | Some t, _ => inl (path_caught t)
          | None, None => inl (failure_of kInvalidFilePath)
          | None, Some _ =>
              match sink_throws env with
              | Some t => inl (path_caught t)
              | None =>
                  let sink := RawFileSink.MakeRawFileSink
                    {| RawFileSink.write_buffers := write_buffers route;
                       RawFileSink.maximum_record_bytes := maximum_record_bytes config;
                       RawFileSink.config_faults := faults |} in
                  CreateInto env config {| destination_ := FileSink sink; attached_ := false |}
              end
          end
      end
  end.

(** [Runtime::Create] with a destination in memory. *)
Definition Create (env : CreateEnv) (config : RuntimeConfig) (destination : RuntimeDestination)
    : RuntimeCreateFailure + RuntimeDomain RuntimeRoute C :=
  match ValidateConfig config (Capacity destination) (MaximumRecordBytes destination) with
  | Some failure => inl failure
  | None => CreateInto env config {| destination_ := destination; attached_ := false |}
  end.
End Create.
