(* ===== verification/ControlRuns.v ===== *)
(** * Whole calls of the control reserve

    [TryStart] and [TryComplete] as a caller sees them, when it holds the operations it
    started: the critical sections of [ControlReserve.v] run without interruption, as
    steps of its relation. A completion that is held always completes its operation. *)
From stdpp Require Import relations.
From S2P Require Import Prelude Operation ControlReserve.
#[local] Open Scope Z_scope.
#[local] Open Scope ulog_scope.

Section Runs.
Context {C : Type}.
Implicit Types w : World C.

Definition completion_of (t : Token C) : option NodeRef :=
  match t with tCompletion ref => Some ref | _ => None end.

(** The completions that are held. *)
Definition completions w : list NodeRef := omap completion_of (tokens w).

(** A call of [TryStart] that made the operation [ref]. *)
Definition begins (ref : NodeRef) (d : ControlDomain C) w : World C :=
  w <| domain := d |> <| tokens := tOperation ref :: tCompletion ref :: tokens w |>
    <| serials ::= <[node ref := started w]> |> <| started ::= S |>.

(** A call of [TryComplete] on a completion that is held. *)
Definition completes (ref : NodeRef) (o : OperationOutcome) (report : OperationReport) w w' : Prop :=
  exists before after, tokens w = before ++ tCompletion ref :: after
    /\ w' = w <| domain := (TryComplete (Some ref) o report (domain w)).2 |>
              <| tokens := before ++ after |>
              <| outcomes := outcomes w ++ [(serial ref, MakeResult o report)] |>.

(** What the other threads do: everything but to start and to complete. *)
Definition control_other w w' : Prop :=
  control_step w w' /\ completions w' ≡ₚ completions w /\ started w' = started w.

(** ** Lemmas *)

Lemma completions_split before ref after :
  omap completion_of (before ++ tCompletion ref :: after)
  ≡ₚ ref :: omap completion_of (before ++ after).
Proof. rewrite !omap_app. cbn. solve_Permutation. Qed.

Lemma completes_completions ref o report w w' :
  completes ref o report w w' -> completions w ≡ₚ ref :: completions w'.
Proof.
  intros (before & after & Ht & ->). unfold completions. rewrite Ht. apply completions_split.
Qed.

Lemma completes_exists ref o report w :
  ref ∈ completions w -> exists w', completes ref o report w w'.
Proof.
  intros (t & Ht & Hr)%list_elem_of_omap. destruct t; simplify_eq/=.
  apply list_elem_of_split in Ht as (before & after & Ht). by eexists _, before, after.
Qed.

(** [ReleaseOwner] by a thread that holds a reference. *)
Lemma release_runs w ref rest :
  tokens w = tReleasing ref :: rest ->
  rtc control_step w (w <| domain ::= ReleaseOwner ref |> <| tokens := rest |>).
Proof.
  intros Ht. unfold ReleaseOwner. destruct (ReleaseLocked ref (domain w)) as [last d] eqn:Hl.
  pose proof (step_release w [] ref rest last d Ht Hl) as S1. cbn [app] in S1.
  eapply rtc_l; [exact S1|]. destruct last.
  - pose proof (step_recycle (w <| domain := d |> <| tokens := tRecycling (node ref) :: rest |>)
      [] (node ref) rest eq_refl) as S2.
    eapply rtc_l; [exact S2|]. apply rtc_once.
    pose proof (step_free (w <| domain := RecycleNode (node ref) d |> <| tokens := tFreeing (node ref) :: rest |>)
      [] (node ref) rest eq_refl) as S3.
    destruct w. unfold modify in *. cbn in *. rewrite Hl. exact S3.
  - destruct w. unfold modify in *. cbn in *. rewrite Hl. apply rtc_refl.
Qed.

Lemma completes_runs ref o report w w' :
  good w -> completes ref o report w w' ->
  rtc control_step w w' /\ (TryComplete (Some ref) o report (domain w)).1 = true.
Proof.
  intros (queued & free & Hinv) (before & after & Ht & ->).
  destruct (token_live w queued free (tCompletion ref) Hinv) as (n & id & Hn & Hid & _ & Hl & Hg & _);
    [rewrite Ht; apply in_middle|done|]. cbn in Hn, Hl, Hg.
  destruct (CompleteLocked_spec (domain w) ref o report n Hn) as (n' & Hc & _);
    [done|by eapply (completion_pending w queued (tCompletion ref))|by eapply owners_small|].
  unfold TryComplete. rewrite Hc. split; [|done].
  pose proof (step_complete w before ref after o report _ _ _ Ht Hc) as S1.
  eapply rtc_l; [exact S1|]. clear S1 Hc. set (d := on_node (node ref) (fun _ => n') (domain w)).
  destruct (armed n); cbn [app].
  - match goal with |- rtc _ ?x _ => set (w1 := x) end.
    pose proof (step_enqueue w1 [] (node ref) (tReleasing ref :: before ++ after) eq_refl) as S2.
    eapply rtc_l; [exact S2|]. unfold w1.
    match goal with |- rtc _ ?x _ => pose proof (release_runs x ref (before ++ after) eq_refl) as H end.
    destruct w. exact H.
  - match goal with |- rtc _ ?x _ => pose proof (release_runs x ref (before ++ after) eq_refl) as H end.
    destruct w. exact H.
Qed.

Lemma completing_tokens_of i w :
  sumZ completing (tokens_of i w)
  = sumZ (fun t => if decide (tok_node t = i) then completing t else 0) (tokens w).
Proof.
  unfold tokens_of. induction (tokens w) as [|t l IH]; [done|]. rewrite list.filter_cons.
  cbn [sumZ]. rewrite <- IH. by case_decide.
Qed.

(** Each node has at most one completion. *)
Lemma completions_fit w : good w -> zlen (completions w) <= zlen (nodes (domain w)).
Proof.
  intros (queued & free & Hinv).
  assert (zlen (completions w) = sumZ completing (tokens w)) as ->.
  { unfold completions. induction (tokens w) as [|t l IH]; [done|]. cbn [omap list_omap sumZ].
    destruct t; cbn; rewrite <- IH; try done. unfold zlen. cbn. lia. }
  assert (sumZ completing (tokens w)
          = sumZ (fun i => sumZ completing (tokens_of i w)) (seq 0 (length (nodes (domain w))))) as ->.
  { erewrite (sumZ_ext (fun i => sumZ completing (tokens_of i w))) by (intros; apply completing_tokens_of).
    rewrite sumZ_swap. apply sumZ_ext. intros t Ht. symmetry. apply sumZ_indicator.
    by apply (v_range _ _ _ Hinv). }
  assert (forall l, sumZ (fun _ : nat => 1) l = zlen l) as Hone.
  { induction l as [|x l IH]; [done|]. cbn. unfold zlen in *. cbn. lia. }
  replace (zlen (nodes (domain w))) with (sumZ (fun _ : nat => 1) (seq 0 (length (nodes (domain w))))).
  2: { rewrite Hone. unfold zlen. by rewrite length_seq. }
  apply sumZ_le. intros i [_ Hi]%elem_of_seq.
  destruct (lookup_lt_is_Some_2 (nodes (domain w)) i ltac:(lia)) as [n Hn].
  destruct (lookup_lt_is_Some_2 (serials w) i) as [id Hid]; [rewrite (v_serials _ _ _ Hinv); lia|].
  destruct (v_nodes _ _ _ Hinv i n id Hn Hid) as [[_ Hl]|[_ [[_ ->]|[_ [->| ->]]]]]; try (cbn; lia).
  rewrite (lv_completing _ _ _ _ _ Hl). case_match; lia.
Qed.

(** The number of nodes never changes. *)
Lemma control_step_nodes w w' :
  control_step w w' -> length (nodes (domain w')) = length (nodes (domain w)).
Proof.
  destruct 1 as [w i gen d Htry|w b ref a Ht|w b ref a o r c e d Ht Hc|w b ref a cb d Ht Hc
    |w b ref cb a e d Ht Hc|w b i a Ht|w i d Hpop|w b i a found d Ht Hc|w b i gen res a Ht
    |w b ref a last d Ht Hc|w b i a Ht|w b i a Ht]; try done; cbn [domain modify];
    unfold TryStart, CompleteLocked, RegisterBegin, RegisterInstall, Push, Pop, RunBegin, RunEnd,
      ReleaseLocked, RecycleNode, RecycleFree, on_node in *;
    repeat case_match; simplify_eq; cbn; by rewrite ?length_alter.
Qed.

Lemma control_other_outcomes w w' : control_other w w' -> outcomes w' = outcomes w.
Proof.
  intros (Hs & Hc & Hn). destruct Hs; try done. exfalso. apply Permutation_length in Hc. unfold completions in Hc. cbn [tokens modify] in Hc.
  match goal with H : tokens _ = _ |- _ => rewrite H in Hc end.
  rewrite (completions_split before ref after) in Hc. cbn [length] in Hc.
  rewrite omap_app in Hc. destruct enqueue; cbn in Hc; lia.
Qed.
End Runs.
