(* ===== verification/KernelRuns.v ===== *)
(** * Whole calls of the producer kernel

    What a Runtime does with its kernel besides logging: it closes admission, registers
    and retires producers, scans for quiescence and consumes. Each is a run of the steps
    of [KernelWorld.v]. After a scan that found every slot drained while admission was
    closed, the kernel is [frozen]: it admits nothing any more. *)
From stdpp Require Import gmap relations.
From S2P Require Import Prelude KernelTypes ThreadRegistry ProducerKernel KernelWorld KernelAccounting KernelSnapshots KernelProperties.
From S2P Require CreditLedger ProducerLanes RecordStorage.
#[local] Open Scope Z_scope.
#[local] Open Scope ulog_scope.

(** ** Counting admissions and consumptions *)

Definition accepted (k : Impl) : Z := ProducerLanes.next_admission_sequence_ (lanes k).
Definition consumed (k : Impl) : Z := ProducerLanes.next_sequence (lanes k).

(** ** Freezing *)

Definition closed (k : Impl) : Prop := IsAdmissionOpen k = false.

(** A publication that has not passed its checks after the claim, or that failed. *)
Definition early (ph : phase) : Prop :=
  match ph with PClaimed _ | PLeaving _ => True | _ => False end.

Definition early_at (w : World) (p : nat) : Prop :=
  forall pub, publishing w !! p = Some pub -> early (p_phase pub).

Definition frozen (w : World) : Prop := closed (impl w) /\ forall p, early_at w p.

Section Runs.
Context (gc : Z -> option (list byte)).

Lemma counts_history w :
  world_inv gc w -> accepted (impl w) = zlen (history w) /\ consumed (impl w) = zlen (delivered w)
    /\ consumed (impl w) <= accepted (impl w).
Proof.
  intros Hinv. pose proof (wi_lanes _ _ Hinv) as Hl. pose proof (delivered_history gc w Hinv).
  pose proof (ProducerLanes.ln_admitted _ Hl) as Ha. pose proof (ProducerLanes.ln_consumed _ Hl) as Hc.
  unfold accepted, consumed. cbn in Ha, Hc. rewrite Ha, Hc. split_and!; [done..|unfold zlen; lia].
Qed.

(** ** Lemmas: what leaves the lanes alone *)

Lemma finish_retirement_lanes slot k : lanes (FinishRetirement slot k) = lanes k.
Proof. unfold FinishRetirement. repeat case_match; done. Qed.

Lemma try_finish_lanes slot k : lanes (TryFinishRetirement slot k) = lanes k.
Proof. unfold TryFinishRetirement. case_match; [apply finish_retirement_lanes|done]. Qed.

Lemma retire_slot_lanes slot g k : lanes (RetireSlot slot g k).1 = lanes k.
Proof. unfold RetireSlot. by case_match. Qed.

Lemma acquire_slot_lanes slot k : lanes (AcquireSlot slot k).1 = lanes k.
Proof. unfold AcquireSlot. repeat case_match; cbn [fst]; rewrite ?try_finish_lanes; done. Qed.

Lemma acquire_any_lanes n slot k : lanes (AcquireAny n slot k).1 = lanes k.
Proof.
  revert slot k. induction n as [|n IH]; intros slot k; [done|]. cbn [AcquireAny].
  pose proof (acquire_slot_lanes slot k) as H.
  destruct (AcquireSlot slot k) as [k' [?|[?|]]]; cbn [fst] in *; [by rewrite IH|done..].
Qed.

(** ** Lemmas: a closed kernel *)

Lemma impl_settle {X} shard p call claim (next : X -> phase) out w : impl (settle shard p call claim next out w) = out.1.
Proof. by destruct out as [k [x|ret]]. Qed.

Lemma closed_part k k' : registration_part k' = registration_part k -> closed k -> closed k'.
Proof. unfold closed, IsAdmissionOpen. intros Hp Hk. injection Hp as _ _ Hl _. by rewrite Hl. Qed.

Lemma finish_retirement_lifetime slot k : lifetime (FinishRetirement slot k) = lifetime k.
Proof. unfold FinishRetirement. repeat case_match; done. Qed.

Lemma try_finish_lifetime slot k : lifetime (TryFinishRetirement slot k) = lifetime k.
Proof. unfold TryFinishRetirement. case_match; [apply finish_retirement_lifetime|done]. Qed.

Lemma acquire_closed slot k : closed k -> closed (AcquireSlot slot k).1.
Proof.
  unfold closed, IsAdmissionOpen, AcquireSlot. intros Hc.
  repeat case_match; cbn [fst]; rewrite ?try_finish_lifetime; done.
Qed.

Lemma impl_on_allocate p call claim cell timestamp stored handle w :
  impl (on_allocate p call claim cell timestamp stored handle w)
  = (PublishAllocate call claim handle cell (impl w)).1.
Proof. unfold on_allocate. by destruct (PublishAllocate _ _ _ _ _) as [k [x|ret]]. Qed.

Lemma impl_on_claim call w : impl (on_claim call w) = (PublishClaim call (impl w)).1.
Proof. unfold on_claim. by destruct (PublishClaim _ _) as [k [x|ret]]. Qed.

Lemma impl_on_consume_claim w : impl (on_consume_claim w) = (ConsumeClaim (impl w)).1.
Proof. unfold on_consume_claim. by destruct (ConsumeClaim _) as [k [x|ret]]. Qed.

Lemma impl_on_consume_record claim w :
  impl (on_consume_record claim w) = (ConsumeRecord true claim (impl w)).1.
Proof. unfold on_consume_record. by destruct (ConsumeRecord _ _ _) as [k x]. Qed.

Lemma step_closed w w' : kernel_step gc w w' -> closed (impl w) -> closed (impl w').
Proof.
  intros Hs Hc. destruct Hs; rewrite ?impl_settle, ?impl_on_allocate, ?impl_on_claim,
    ?impl_on_consume_claim, ?impl_on_consume_record; try exact Hc.
  - by eapply closed_part; [apply claim_registrations|].
  - by eapply closed_part; [apply recheck_registrations|].
  - by eapply closed_part; [apply reserve_registrations|].
  - by eapply closed_part; [apply build_registrations|].
  - by eapply closed_part; [apply commit_registrations|].
  - by eapply closed_part; [apply allocate_registrations|].
  - by eapply closed_part; [apply finish_registrations|].
  - eapply closed_part; [|exact Hc]. cbn [impl modify]. by apply leave_part.
  - by eapply closed_part; [apply consume_claim_registrations|].
  - by eapply closed_part; [apply consume_record_registrations|].
  - unfold closed, IsAdmissionOpen. cbn [impl modify]. by rewrite finish_retirement_lifetime.
  - by apply acquire_closed.
  - unfold closed, IsAdmissionOpen in *. cbn [impl modify]. unfold RetireSlot. by case_match.
  - unfold closed, IsAdmissionOpen in *. cbn [impl modify]. unfold CloseAdmission, Notify. by case_match.
Qed.

Lemma publishing_settle {X} shard p call claim (next : X -> phase) out w :
  publishing (settle shard p call claim next out w)
  = <[p := {| p_call := call;
              p_phase := match out.2 with inl x => next x | inr _ => PLeaving claim end |}]> (publishing w).
Proof. by destruct out as [k [x|ret]]. Qed.

Lemma early_insert w w' p q pub :
  publishing w' = <[q := pub]> (publishing w) -> (q = p -> early (p_phase pub)) ->
  early_at w p -> early_at w' p.
Proof.
  intros Hw Hq He x. rewrite Hw, lookup_insert_Some. intros [[-> <-]|[_ Hx]]; [by apply Hq|by apply He].
Qed.

Lemma early_delete w w' p q : publishing w' = delete q (publishing w) -> early_at w p -> early_at w' p.
Proof. intros Hw He x. rewrite Hw, lookup_delete_Some. intros [_ Hx]. by apply He. Qed.

(** While admission is closed, what is early stays early. *)
Lemma step_early w w' p :
  kernel_step gc w w' -> closed (impl w) -> early_at w p -> early_at w' p.
Proof.
  intros Hs Hc He.
  assert (forall q call ph, publishing w !! q = Some {| p_call := call; p_phase := ph |} ->
    ~ early ph -> q = p -> False) as Hlate.
  { intros q call ph Hq Hph ->. by apply Hph, (He _ Hq). }
  destruct Hs as [| |call rest w|q call claim shard w Hq|q call claim cell n w Hq
    |q call claim cell r ts w Hq|q call claim cell r ts st w Hq|q call claim cell ts st h w Hq
    |q call claim ts st h sq w Hq|q call claim w Hq| | | | | | | | | |]; try exact He.
  - unfold on_claim. destruct (PublishClaim call _) as [k [claim|ret]]; [|exact He].
    apply (early_insert w _ p (call_slot call) {| p_call := call; p_phase := PClaimed claim |}); done.
  - eapply early_insert; [apply publishing_settle| |done]. intros _. cbn [p_phase].
    unfold PublishRecheck. unfold closed in Hc. by rewrite Hc.
  - eapply early_insert; [apply publishing_settle| |done]. intros Heq. by destruct (Hlate _ _ _ Hq id Heq).
  - eapply early_insert; [apply publishing_settle| |done]. intros Heq. by destruct (Hlate _ _ _ Hq id Heq).
  - eapply early_insert; [apply publishing_settle| |done]. intros Heq. by destruct (Hlate _ _ _ Hq id Heq).
  - unfold on_allocate. destruct (PublishAllocate _ _ _ _ _) as [k [x|ret]];
      (eapply early_insert; [apply (publishing_settle 0 q call claim)| |done]);
      intros Heq; by destruct (Hlate _ _ _ Hq id Heq).
  - by apply (early_delete w _ p q).
  - by apply (early_delete w _ p q).
  - unfold on_consume_claim. by destruct (ConsumeClaim _) as [k [x|ret]].
Qed.

Lemma run_closed w w' : rtc (kernel_step gc) w w' -> closed (impl w) -> closed (impl w').
Proof. induction 1 as [|x y z Hs _ IH]; [done|]. intros H. apply IH. by eapply step_closed. Qed.

Lemma run_early w w' p :
  rtc (kernel_step gc) w w' -> closed (impl w) -> early_at w p -> early_at w' p.
Proof.
  induction 1 as [|x y z Hs _ IH]; [done|]. intros Hc He.
  apply IH; [by eapply step_closed|by eapply step_early].
Qed.

(** A frozen kernel admits nothing. *)
Lemma run_frozen w w' :
  rtc (kernel_step gc) w w' -> frozen w -> frozen w' /\ history w' = history w.
Proof.
  induction 1 as [|x y z Hs _ IH]; [done|]. intros [Hc He].
  assert (frozen y) as Hy by (split; [by eapply step_closed|intros p; by eapply step_early]).
  destruct (IH Hy) as [Hz ->]. split; [done|].
  destruct Hs as [| |call rest w|q call claim shard w Hq|q call claim cell n w Hq
    |q call claim cell r ts w Hq|q call claim cell r ts st w Hq|q call claim cell ts st h w Hq
    |q call claim ts st h sq w Hq|q call claim w Hq| | | | | | | | | |]; try done;
    try (exfalso; by apply (He _ _ Hq)); unfold on_claim, settle, on_consume_claim, on_consume_record;
    by repeat case_match.
Qed.

Lemma kernel_run_inv w w' :
  rtc (kernel_step gc) w w' -> zlen (history w') < 2 ^ 64 -> world_inv gc w -> world_inv gc w'.
Proof.
  induction 1 as [|x y z Hxy Hyz IH]; [done|]. intros Hlen Hx.
  pose proof (reachable_history gc _ _ Hyz). apply IH; [done|].
  apply (kernel_step_inv gc x); [done|lia|done].
Qed.

(** ** Consumption *)

Lemma consume_counts w k status call :
  world_inv gc w -> zlen (history w) < 2 ^ 64 -> consuming w = None ->
  TryConsume true (impl w) = (k, status, call) ->
  accepted k = accepted (impl w)
  /\ match call with
     | Some (sequence, _) =>
         status = kRecord /\ sequence = consumed (impl w) /\ consumed k = consumed (impl w) + 1
     | None => status <> kRecord /\ consumed k = consumed (impl w)
     end.
Proof.
  intros Hinv Hlen Hcon Hcall. pose proof (TryConsume_runs gc w Hinv Hlen Hcon) as H.
  rewrite Hcall in H. destruct H as (w' & Hr & <- & Hcon' & Honly & Hex).
  pose proof (cw_history _ _ Honly) as Hh.
  assert (world_inv gc w') as Hinv' by (apply (kernel_run_inv w); by rewrite ?Hh).
  destruct (counts_history _ Hinv) as (Ha & Hc & _), (counts_history _ Hinv') as (Ha' & Hc' & _).
  split; [by rewrite Ha, Ha', Hh|]. rewrite Hc, Hc'. unfold consumed_exactly in Hex.
  destruct (history w !! length (delivered w)) as [e|]; [destruct (ProducerLanes.e_visible e)|].
  - destruct Hex as (-> & a & d & t & v & _ & _ & _ & -> & _ & ->). rewrite zlen_app. by split_and!.
  - by destruct Hex as (-> & -> & _ & ->).
  - by destruct Hex as (-> & -> & _ & ->).
Qed.

Lemma consume_exists w :
  world_inv gc w -> zlen (history w) < 2 ^ 64 -> consuming w = None ->
  exists w', rtc (kernel_step gc) w w' /\ impl w' = (TryConsume true (impl w)).1.1 /\ consuming w' = None.
Proof.
  intros Hinv Hlen Hcon. pose proof (TryConsume_runs gc w Hinv Hlen Hcon) as H.
  destruct (TryConsume true (impl w)) as [[k status] call].
  destruct H as (w' & Hr & Hk & Hcon' & _). by exists w'.
Qed.

(** ** Quiescence *)

Lemma drained_idle w slot :
  world_inv gc w -> ProducerLanes.IsProducerDrained slot (lanes (impl w)) = true ->
  publishing w !! slot = None.
Proof.
  intros Hinv. unfold ProducerLanes.IsProducerDrained.
  destruct (Nat.leb_spec (ProducerLanes.producer_count_ (lanes (impl w))) slot) as [|Hlt]; [done|].
  intros [Hp _]%andb_true_iff. apply negb_true_iff in Hp.
  pose proof (wi_lanes _ _ Hinv) as Hl. cbn in Hl.
  destruct (ProducerLanes.geometry_lookup _ _ (ProducerLanes.ln_geometry _ Hl) Hlt) as (lane & Hlane & Hat).
  change (ProducerLanes.lanes (lane_system w)) with (lanes (impl w)) in *.
  rewrite Hat in Hp. destruct (ProducerLanes.ln_lane _ Hl slot lane Hlt Hlane) as [_ Hpub].
  destruct (publishing w !! slot) as [pub|] eqn:He; [|done]. exfalso.
  cbn in Hpub. rewrite lookup_fmap, He in Hpub. rewrite (proj2 Hpub) in Hp by (by eexists). done.
Qed.

Lemma publishing_bound w p pub :
  world_inv gc w -> publishing w !! p = Some pub -> (p < producer_slots (config (impl w)))%nat.
Proof.
  intros Hinv Hp. pose proof (wi_lanes _ _ Hinv) as Hl.
  destruct (ProducerLanes.ln_phase _ Hl p (lane_phase (p_phase pub))) as [Hlt _].
  { cbn. by rewrite lookup_fmap, Hp. }
  cbn in Hlt. by rewrite (io_count _ (wi_impl _ _ Hinv)) in Hlt.
Qed.

(** Every slot was scanned. *)
Lemma early_frozen w :
  world_inv gc w -> closed (impl w) ->
  (forall p, (p < producer_slots (config (impl w)))%nat -> early_at w p) -> frozen w.
Proof.
  intros Hinv Hc He. split; [done|]. intros p pub Hp. apply (He p); [|done].
  by eapply publishing_bound.
Qed.

(** ** Runs that keep the lanes *)

(** What a call leaves alone, and its run. *)
Definition administers (k k' : Impl) : Prop :=
  lanes k' = lanes k /\ config k' = config k
  /\ forall w, impl w = k -> exists w', rtc (kernel_step gc) w w' /\ impl w' = k' /\ consuming w' = consuming w.

#[export] Instance administers_preorder : PreOrder administers.
Proof.
  split; [intros k; split_and!; [done..|]; intros w Hw; by exists w|].
  intros a b c (L1 & C1 & R1) (L2 & C2 & R2). split_and!; [congruence..|].
  intros w Hw. destruct (R1 w Hw) as (w1 & S1 & I1 & E1), (R2 w1 I1) as (w2 & S2 & I2 & E2).
  exists w2. split_and!; [by etrans|done|congruence].
Qed.

Lemma administers_closed k k' : administers k k' -> closed k -> closed k'.
Proof.
  intros (_ & _ & Hr) Hc. 
  set (w := {| impl := k; history := []; admissions := []; delivered := []; publishing := ∅;
               consuming := None; seen := []; rejections := []; entered := []; drained_checks := [];
               taken := [] |}).
  destruct (Hr w eq_refl) as (w' & Hs & <- & _). by apply (run_closed _ _ Hs).
Qed.

Lemma administers_counts k k' :
  administers k k' -> accepted k' = accepted k /\ consumed k' = consumed k.
Proof. intros (Hl & _). unfold accepted, consumed. by rewrite Hl. Qed.

(** One step. *)
Lemma administers_step (f : World -> World) k k' :
  lanes k' = lanes k -> config k' = config k ->
  (forall w, impl w = k -> kernel_step gc w (f w)) ->
  (forall w, impl w = k -> impl (f w) = k' /\ consuming (f w) = consuming w) -> administers k k'.
Proof.
  intros Hl Hc Hs Hf. split_and!; [done..|]. intros w Hw. exists (f w).
  destruct (Hf w Hw) as [Hi Hn]. split_and!; [|done..]. by apply rtc_once, Hs.
Qed.

Lemma close_administers k : administers k (CloseAdmission k).
Proof.
  apply (administers_step (fun w => w <| impl ::= CloseAdmission |>)).
  - unfold CloseAdmission, Notify. by case_match.
  - unfold CloseAdmission, Notify. by case_match.
  - intros w _. apply st_close.
  - by intros w <-.
Qed.

Lemma finish_retirement_config slot k : config (TryFinishRetirement slot k) = config k.
Proof. unfold TryFinishRetirement, FinishRetirement. by repeat case_match. Qed.

Lemma try_finish_administers slot k : administers k (TryFinishRetirement slot k).
Proof.
  split_and!; [apply try_finish_lanes|apply finish_retirement_config|].
  intros w <-. exists (w <| impl ::= TryFinishRetirement slot |>).
  split_and!; [by apply (try_finish_runs gc slot)|done..].
Qed.

Lemma retire_lifetime_administers slot g k : administers k (RetireLifetime slot g k).
Proof.
  apply (administers_step (fun w => w <| impl ::= RetireLifetime slot g |>)); [done..| |by intros w <-].
  intros w _. apply st_retire_lifetime.
Qed.

Lemma retire_slot_administers slot g k : administers k (RetireSlot slot g k).1.
Proof.
  apply (administers_step (fun w => w <| impl := (RetireSlot slot g (impl w)).1 |>)); [| | |by intros w <-].
  - apply retire_slot_lanes.
  - unfold RetireSlot. by case_match.
  - intros w _. apply st_retire_slot.
Qed.

Lemma acquire_administers slot k :
  (slot < producer_slots (config k))%nat -> administers k (AcquireSlot slot k).1.
Proof.
  intros Hlt. apply (administers_step (on_acquire slot)); [apply acquire_slot_lanes| | |by intros w <-].
  - unfold AcquireSlot. repeat case_match; cbn [fst]; rewrite ?finish_retirement_config; done.
  - intros w <-. by apply st_acquire.
Qed.

Lemma acquire_any_administers n slot k :
  (slot + n <= producer_slots (config k))%nat -> administers k (AcquireAny n slot k).1.
Proof.
  revert slot k. induction n as [|n IH]; intros slot k Hn; [done|]. cbn [AcquireAny].
  pose proof (acquire_administers slot k ltac:(lia)) as H.
  destruct (AcquireSlot slot k) as [k' [?|[?|]]]; cbn [fst] in *; [|done..].
  etrans; [exact H|]. apply IH. destruct H as (_ & -> & _). lia.
Qed.

Lemma reset_registration_administers self identity registration s :
  administers (kernel s) (kernel (ResetRegistration self identity registration s).2).
Proof.
  unfold ResetRegistration, RetireProducer. destruct (reg_owner registration); [|done].
  set (slot := reg_slot_index registration). set (g := reg_generation registration).
  cbn [kernel modify]. pose proof (retire_slot_administers slot g (RetireLifetime slot g (kernel s))) as H.
  destruct (RetireSlot slot g _) as [k []]; cbn [fst snd kernel modify] in *.
  - etrans; [apply retire_lifetime_administers|]. etrans; [exact H|apply try_finish_administers].
  - etrans; [apply retire_lifetime_administers|exact H].
Qed.

Lemma draw_kernel s : kernel (DrawShard s).2 = kernel s.
Proof. unfold DrawShard. by destruct (MissingProducerShard _ _) as [[? ?] ?]. Qed.

Lemma register_administers self identity block others s :
  administers (kernel s) (kernel (TryRegisterProducer self identity block others s).2).
Proof.
  unfold TryRegisterProducer. pose proof (draw_kernel s) as Hd. destruct (DrawShard s) as [shard s1].
  cbn [snd] in Hd. rewrite <- Hd. clear Hd. destruct (negb _); [done|]. unfold DropStaleEntry.
  destruct (FindThreadRegistration self identity (registry s1)) as [[index|] r].
  1: destruct (IsActive _ _ _); [done|].
  all: cbn [kernel registry modify]; destruct (FindFreeThreadRegistration _ _) as [[i|] r2]; [|done];
    cbn [kernel modify]; pose proof (acquire_any_administers (producer_slots (config (kernel s1))) 0
      (kernel s1) ltac:(lia)) as H;
    destruct (AcquireAny _ _ _) as [k [[slot g]|]]; exact H.
Qed.
End Runs.
