(* ===== verification/RouteContract.v ===== *)
(** * What a Runtime relies on in its route

    A route has a view: the deliveries it holds, each with its sequence, its bytes and its
    fate. [RouteLaws] says what each call of the Runtime does to the view, and that what
    other threads do to the sink only decides deliveries. Reports are counts over lists
    of deliveries. *)
From stdpp Require Import relations list_relations list_numbers.
From S2P Require Import Prelude RouteTypes RuntimeRoute.
From S2P Require RecordStorage ProducerKernel Operation.
#[local] Open Scope Z_scope.
#[local] Open Scope ulog_scope.

(** ** Lists of slots *)

(** The elements that are kept of a list with one element replaced. *)
Lemma omap_insert {A B} (f : A -> option B) (l : list A) i a b :
  l !! i = Some a ->
  exists rest, omap f l ≡ₚ option_list (f a) ++ rest /\ omap f (<[i := b]> l) ≡ₚ option_list (f b) ++ rest.
Proof.
  intros Hi. exists (omap f (take i l ++ drop (S i) l)).
  assert (forall x, omap f (take i l ++ x :: drop (S i) l)
    ≡ₚ option_list (f x) ++ omap f (take i l ++ drop (S i) l)) as H.
  { intros x. rewrite !omap_app. cbn. destruct (f x); cbn; solve_Permutation. }
  rewrite <- !H. rewrite take_drop_middle by done.
  rewrite insert_take_drop by (by eapply lookup_lt_Some). done.
Qed.

(** ** Deliveries *)

Inductive Fate := Undecided | Delivered | Failed | Cancelled.

#[export] Instance Fate_eq_dec : EqDecision Fate.
Proof. solve_decision. Defined.

Record Delivery := { d_sequence : Z; d_bytes : Z; d_fate : Fate }.

Definition fate_of (o : DeliveryOutcome) : Fate :=
  match o with kDelivered => Delivered | kFailed => Failed end.

(** Time passes for one delivery, or for a list of them. *)
Definition decides (d d' : Delivery) : Prop :=
  d_sequence d' = d_sequence d /\ d_bytes d' = d_bytes d
  /\ (d_fate d = Undecided \/ d_fate d' = d_fate d).

Definition progressed : list Delivery -> list Delivery -> Prop := Forall2 decides.

#[export] Instance decides_preorder : PreOrder decides.
Proof.
  split; [intros d; by split_and!; [..|right]|].
  intros a b c (E1 & E2 & E3) (F1 & F2 & F3). split_and!; [congruence..|].
  destruct E3 as [E3|E3]; [by left|]. destruct F3 as [F3|F3]; [left|right]; congruence.
Qed.

(** Retired and decided: nothing changes it. *)
Lemma decides_final d d' : decides d d' -> d_fate d <> Undecided -> d' = d.
Proof. destruct d, d'. intros (? & ? & [?|?]) ?; simplify_eq/=. done. Qed.

(** ** Counting deliveries *)

Definition below (mark : Z) (ds : list Delivery) : list Delivery :=
  filter (fun d => d_sequence d < mark) ds.

Definition with_fate (f : Fate) (ds : list Delivery) : list Delivery :=
  filter (fun d => d_fate d = f) ds.

Definition total (ds : list Delivery) : Z := sumZ d_bytes ds.

(** The reference summary and the reference report. *)
Definition summary_of (mark : Z) (ds : list Delivery) : InFlightSummary :=
  let ds := below mark ds in
  {| records := w64 (zlen ds); bytes := w64 (total ds);
     delivered_records := w64 (zlen (with_fate Delivered ds));
     delivered_bytes := w64 (total (with_fate Delivered ds));
     failed_records := w64 (zlen (with_fate Failed ds));
     failed_bytes := w64 (total (with_fate Failed ds)) |}.

Definition report_of (mark : Z) (ds : list Delivery) : Operation.OperationReport :=
  let ds := below mark ds in
  let sent := with_fate Delivered ds in
  let lost := with_fate Failed ds in
  {| Operation.watermark_records := mark;
     Operation.processed_records := zlen ds;
     Operation.processed_bytes := w64 (total ds);
     Operation.delivered_records := zlen sent;
     Operation.delivered_bytes := w64 (total sent);
     Operation.failed_records := zlen lost;
     Operation.failed_bytes := w64 (total lost);
     Operation.unfinished_records := mark - zlen sent - zlen lost;
     Operation.unfinished_bytes := w64 (total ds - total sent - total lost) |}.

(** The loop of [SummarizeInFlight], over deliveries. *)
Definition summarize_delivery (mark : Z) (s : InFlightSummary) (d : Delivery) : InFlightSummary :=
  if mark <=? d_sequence d then s
  else
    let s := s <| records ::= fun n => n +w 1 |> <| bytes ::= fun n => n +w d_bytes d |> in
    match d_fate d with
    | Delivered => s <| delivered_records ::= fun n => n +w 1 |>
                     <| delivered_bytes ::= fun n => n +w d_bytes d |>
    | Failed => s <| failed_records ::= fun n => n +w 1 |>
                  <| failed_bytes ::= fun n => n +w d_bytes d |>
    | _ => s
    end.

Lemma below_app mark a b : below mark (a ++ b) = below mark a ++ below mark b.
Proof. apply list.filter_app. Qed.

Lemma with_fate_app f a b : with_fate f (a ++ b) = with_fate f a ++ with_fate f b.
Proof. apply list.filter_app. Qed.

Lemma total_app a b : total (a ++ b) = total a + total b.
Proof. apply sumZ_app. Qed.

Lemma below_all mark ds : (forall d, d ∈ ds -> d_sequence d < mark) -> below mark ds = ds.
Proof.
  intros H. unfold below. induction ds as [|d ds IH]; [done|].
  rewrite list.filter_cons, decide_True by (apply H; left). f_equal. apply IH. intros x Hx. apply H. by right.
Qed.

Lemma below_none mark ds : (forall d, d ∈ ds -> mark <= d_sequence d) -> below mark ds = [].
Proof.
  intros H. unfold below. induction ds as [|d ds IH]; [done|].
  rewrite list.filter_cons, decide_False by (pose proof (H d ltac:(left)); lia).
  apply IH. intros x Hx. apply H. by right.
Qed.

#[export] Instance below_perm mark : Proper ((≡ₚ) ==> (≡ₚ)) (below mark).
Proof. intros a b H. by apply filter_Permutation. Qed.

#[export] Instance with_fate_perm f : Proper ((≡ₚ) ==> (≡ₚ)) (with_fate f).
Proof. intros a b H. by apply filter_Permutation. Qed.

#[export] Instance total_perm : Proper ((≡ₚ) ==> eq) total.
Proof. induction 1; unfold total in *; cbn; lia. Qed.

#[export] Instance zlen_perm {A} : Proper ((≡ₚ) ==> eq) (@zlen A).
Proof. intros a b H. unfold zlen. by rewrite H. Qed.

Lemma summary_of_perm mark a b : a ≡ₚ b -> summary_of mark a = summary_of mark b.
Proof. intros H. unfold summary_of. by rewrite H. Qed.

Lemma report_of_perm mark a b : a ≡ₚ b -> report_of mark a = report_of mark b.
Proof. intros H. unfold report_of. by rewrite H. Qed.

Lemma below_one mark d : below mark [d] = if mark <=? d_sequence d then [] else [d].
Proof.
  unfold below. rewrite list.filter_cons. destruct (Z.leb_spec mark (d_sequence d)).
  - by rewrite decide_False by lia.
  - by rewrite decide_True by lia.
Qed.

Lemma with_fate_one f d : with_fate f [d] = if decide (d_fate d = f) then [d] else [].
Proof. done. Qed.

Lemma total_one d : total [d] = d_bytes d.
Proof. unfold total. cbn. lia. Qed.

Lemma zlen_one {A} (a : A) : zlen [a] = 1.
Proof. done. Qed.

Lemma summarize_deliveries mark ds :
  fold_left (summarize_delivery mark) ds empty_summary = summary_of mark ds.
Proof.
  induction ds as [|d ds IH] using rev_ind; [done|]. rewrite fold_left_app. cbn [fold_left].
  rewrite IH. unfold summary_of. rewrite below_app, below_one. unfold summarize_delivery.
  destruct (mark <=? d_sequence d); [by rewrite app_nil_r|].
  rewrite !with_fate_app, !with_fate_one.
  destruct (d_fate d); repeat case_decide; try congruence;
    rewrite ?app_nil_r, ?zlen_app, ?total_app, ?zlen_one, ?total_one; unfold modify; cbn;
    f_equal; unfold w64; rewrite ?Zplus_mod_idemp_l; done.
Qed.

(** ** Ranges of sequences *)

(** The deliveries are of the first sequences, each once. *)
Definition first_sequences (ds : list Delivery) : Prop := d_sequence <$> ds ≡ₚ seqZ 0 (zlen ds).

Lemma first_sequences_perm a b : a ≡ₚ b -> first_sequences a -> first_sequences b.
Proof. unfold first_sequences. intros H Ha. by rewrite <- H. Qed.

Lemma first_sequences_elem ds q :
  first_sequences ds -> 0 <= q < zlen ds <-> exists d, d ∈ ds /\ d_sequence d = q.
Proof.
  unfold first_sequences. intros Hds. pose proof (elem_of_seqZ 0 (zlen ds) q) as H. rewrite <- Hds in H.
  rewrite Z.add_0_l in H. rewrite <- H, list_elem_of_fmap.
  split; intros (d & H1 & H2); exists d; by split.
Qed.

Lemma first_sequences_unique ds d d' :
  first_sequences ds -> d ∈ ds -> d' ∈ ds -> d_sequence d = d_sequence d' -> d = d'.
Proof.
  unfold first_sequences. intros Hds Hd Hd' Heq. assert (NoDup (d_sequence <$> ds)) as Hnd.
  { rewrite Hds. apply NoDup_seqZ. }
  apply list_elem_of_lookup in Hd as [i Hi], Hd' as [j Hj].
  assert (i = j) as ->; [|congruence].
  apply (NoDup_lookup _ i j (d_sequence d) Hnd); rewrite list_lookup_fmap, ?Hi, ?Hj; cbn; congruence.
Qed.

Lemma first_sequences_snoc ds d :
  first_sequences ds -> d_sequence d = zlen ds -> first_sequences (ds ++ [d]).
Proof.
  unfold first_sequences. intros H Hd. rewrite fmap_app, zlen_app, H. change (zlen [d]) with 1.
  cbn. rewrite Hd, seqZ_app by (unfold zlen; lia). by rewrite Z.add_0_l.
Qed.

(** What was decided stays as it was. *)
Definition past (ds ds' : list Delivery) : Prop :=
  forall d, d ∈ ds -> d_fate d <> Undecided -> d ∈ ds'.

#[export] Instance past_preorder : PreOrder past.
Proof. split; [by intros ds d|]. intros a b c Hab Hbc d Hd Hf. by apply Hbc, Hf; apply Hab. Qed.

Lemma progressed_past v v' : progressed v v' -> past v v'.
Proof.
  induction 1 as [|d d' v v' Hd _ IH]; intros x Hx Hf; [by apply elem_of_nil in Hx|].
  apply elem_of_cons in Hx as [->|Hx].
  - rewrite (decides_final d d') by done. left.
  - right. by apply IH.
Qed.

Lemma past_app a a' b b' : past a a' -> past b b' -> past (a ++ b) (a' ++ b').
Proof.
  intros Ha Hb d [Hd|Hd]%elem_of_app Hf; apply elem_of_app; [left; by apply Ha|right; by apply Hb].
Qed.

Lemma past_perm a b : a ≡ₚ b -> past a b.
Proof. intros H d Hd _. by rewrite <- H. Qed.

(** ** The laws *)

(** [route_moves] is what the threads other than the worker do to the sink. *)
Class RouteView (R : Type) := {
  route_ok : R -> Prop;
  route_view : R -> list Delivery;
  route_moves : R -> R -> Prop;
}.

Section Laws.
Context {R : Type} `{!Route R, !RouteView R}.

Definition keeps_error (r r' : R) : Prop :=
  route_terminal_error r <> 0 -> route_terminal_error r' <> 0.

(** A call, or a move, that only decides deliveries. *)
Definition steady (r r' : R) : Prop :=
  route_ok r' /\ progressed (route_view r) (route_view r') /\ keeps_error r r'.

(** What a delivery leaves of the record the consumer was shown. A route that retires a
    record at once holds no delivery. *)
Definition stores (call : option (Z * RecordStorage.RecordView)) (result : RouteDeliveryResult)
    (r r' : R) : Prop :=
  match call with
  | None => route_view r' ≡ₚ route_view r
  | Some (sequence, _) =>
      if was_retired result
      then was_submitted result = true /\ route_view r = [] /\ route_view r' = []
      else
        admission_sequence result = sequence
        /\ if was_submitted result then
             exists fate, route_view r'
               ≡ₚ {| d_sequence := sequence; d_bytes := encoded_bytes result; d_fate := fate |}
                  :: route_view r
           else route_view r' ≡ₚ route_view r
  end.
End Laws.

Class RouteLaws (R : Type) `{!Route R, !RouteView R} : Prop := {
  law_moves (r r' : R) : route_ok r -> route_moves r r' -> steady r r';
  law_stop (r : R) : route_ok r -> steady r (route_stop r);
  law_request_close (r : R) : route_ok r -> steady r (route_request_close r);
  law_deliver k (r r' : R) result k' :
    route_ok r -> route_deliver k r = (result, k', r') ->
    route_ok r' /\ keeps_error r r'
    /\ (result = no_delivery /\ k' = k /\ route_view r' ≡ₚ route_view r
        \/ exists call, ProducerKernel.TryConsume true k = (k', consumed result, call)
             /\ stores call result r r');
  law_retire (r r' : R) sequence retirement :
    route_ok r -> route_try_retire sequence r = (retirement, r') ->
    route_ok r' /\ keeps_error r r'
    /\ match retirement with
       | None => route_view r' = route_view r
       | Some x =>
           route_view r
           ≡ₚ {| d_sequence := sequence; d_bytes := retired_bytes x; d_fate := fate_of (outcome x) |}
              :: route_view r'
       end;
  law_summarize (r : R) mark : route_ok r -> route_summarize mark r = summary_of mark (route_view r);
}.
