(* ===== verification/RouteViews.v ===== *)
(** * The three sinks of a Runtime have the views the Runtime relies on

    The view of a sink lists its slots with a delivery that is not retired. A slot that is
    changed in place only decides its delivery, except where a frame is stored or a
    delivery retired. *)
From stdpp Require Import relations list_relations.
From S2P Require Import Prelude RouteTypes RuntimeRoute RouteContract.
From S2P Require RawEncoder RecordStorage ProducerKernel RawFileSink InMemoryDestination InMemoryEncodedDestination.
#[local] Open Scope Z_scope.
#[local] Open Scope ulog_scope.

(** ** Lists of slots *)

Section Slots.
Context {S : Type} (show : S -> option Delivery).

(** A slot that is changed in place. *)
Definition slot_moves (s s' : S) : Prop := option_Forall2 decides (show s) (show s').

#[export] Instance slot_moves_preorder : PreOrder slot_moves.
Proof.
  split; unfold slot_moves.
  - intros s. destruct (show s); constructor. reflexivity.
  - intros a b c [x y Hxy|] H; inversion H as [x' z Hyz|]; subst; constructor. by etrans.
Qed.

Lemma same_show s s' : show s' = show s -> slot_moves s s'.
Proof. intros He. unfold slot_moves. rewrite He. destruct (show s); constructor. reflexivity. Qed.

Lemma moves_progressed l l' : Forall2 slot_moves l l' -> progressed (omap show l) (omap show l').
Proof.
  induction 1 as [|s s' l l' Hs _ IH]; [constructor|]. cbn. unfold slot_moves in Hs.
  destruct Hs; cbn; [by constructor|done].
Qed.

Lemma alter_moves l i g :
  (forall s, l !! i = Some s -> slot_moves s (g s)) -> Forall2 slot_moves l (alter g i l).
Proof.
  intros H. apply Forall2_alter_r; [reflexivity|]. intros x y Hx Hy _. simplify_eq. by apply H.
Qed.

Lemma fmap_moves l g : (forall s, s ∈ l -> slot_moves s (g s)) -> Forall2 slot_moves l (g <$> l).
Proof.
  induction l as [|s l IH]; intros H; [constructor|]. cbn. constructor; [by apply H; left|].
  apply IH. intros x Hx. apply H. by right.
Qed.

(** A slot that shows a delivery or none. *)
Lemma alter_shows l i g s d :
  l !! i = Some s -> show s = None -> show (g s) = Some d ->
  omap show (alter g i l) ≡ₚ d :: omap show l.
Proof.
  intros Hi Hs Hg. rewrite (alter_as_insert g l i s Hi).
  destruct (omap_insert show l i s (g s) Hi) as (rest & H1 & H2). rewrite Hs in H1. rewrite Hg in H2. cbn in *.
  by rewrite H2, H1.
Qed.

Lemma alter_same l i g s : l !! i = Some s -> show (g s) = show s -> omap show (alter g i l) ≡ₚ omap show l.
Proof.
  intros Hi Hg. rewrite (alter_as_insert g l i s Hi).
  destruct (omap_insert show l i s (g s) Hi) as (rest & H1 & H2). rewrite H2, H1. by rewrite Hg.
Qed.

Lemma alter_hides l i g s d :
  l !! i = Some s -> show s = Some d -> show (g s) = None ->
  omap show l ≡ₚ d :: omap show (alter g i l).
Proof.
  intros Hi Hs Hg. rewrite (alter_as_insert g l i s Hi).
  destruct (omap_insert show l i s (g s) Hi) as (rest & H1 & H2). rewrite Hs in H1. rewrite Hg in H2. cbn in *.
  by rewrite H2, H1.
Qed.

Lemma Forall_alter (P : S -> Prop) l i g :
  Forall P l -> (forall s, l !! i = Some s -> P s -> P (g s)) -> Forall P (alter g i l).
Proof.
  intros Hl Hg. apply Forall_lookup. intros j x Hx. rewrite Forall_lookup in Hl.
  destruct (decide (i = j)) as [<-|Hne].
  - rewrite list_lookup_alter_eq in Hx. apply fmap_Some in Hx as (s & Hs & ->). apply Hg; [done|by eapply Hl].
  - rewrite list_lookup_alter_ne in Hx by done. by eapply Hl.
Qed.

(** The loop of [SummarizeInFlight] over what the slots show. *)
Lemma summarize_slots step mark l :
  (forall s x, step s x = match show x with Some d => summarize_delivery mark s d | None => s end) ->
  fold_left step l empty_summary = summary_of mark (omap show l).
Proof.
  intros Hstep. rewrite <- summarize_deliveries. generalize empty_summary.
  induction l as [|x l IH]; intros s; [done|]. cbn. rewrite Hstep, IH. by destruct (show x).
Qed.
End Slots.

(** ** The encoded destination in memory *)

Module Encoded.
Import InMemoryEncodedDestination.

Definition fate (state : EncodedDeliveryState) : option Fate :=
  match state with
  | kRetired => None
  | kInFlight => Some Undecided
  | kDelivered => Some Delivered
  | kFailed => Some Failed
  | kCancelled => Some Cancelled
  end.

Definition show (slot : EncodedSlotMetadata) : option Delivery :=
  (fun f => {| d_sequence := InMemoryEncodedDestination.admission_sequence slot;
               d_bytes := InMemoryEncodedDestination.encoded_bytes slot; d_fate := f |})
  <$> fate (delivery slot).

Definition view (s : InMemoryEncodedDestinationState) : list Delivery := omap show (slots s).

Definition slot_good (slot : EncodedSlotMetadata) : Prop :=
  match slot_state slot with
  | kReserved => delivery slot = kRetired
  | kPending | kDelivering => delivery slot = kInFlight
  | _ => True
  end.

Definition ok (s : InMemoryEncodedDestinationState) : Prop :=
  IsKnownDeliveryMode (delivery_mode s) = true /\ Forall slot_good (slots s).

(** What the application does. *)
Inductive moves : InMemoryEncodedDestinationState -> InMemoryEncodedDestinationState -> Prop :=
| mv_resume s : moves s (Resume s)
| mv_mode s mode : moves s (SetDeliveryMode mode s)
| mv_take s : moves s (TryTake s).2
| mv_pending s : moves s (TryTakePendingDelivery s).2
| mv_finish s handle delivered : moves s (Finish handle delivered s).2
| mv_observed s identity : moves s (ResetObserved identity s).

(** One slot changes in place, or none. *)
Lemma changes s s' :
  ok s -> IsKnownDeliveryMode (delivery_mode s') = true ->
  (slots s' = slots s
   \/ exists i g, slots s' = alter g i (slots s)
      /\ forall slot, slots s !! i = Some slot -> slot_good slot ->
           slot_moves show slot (g slot) /\ slot_good (g slot)) ->
  ok s' /\ progressed (view s) (view s').
Proof.
  intros [Hm Hs] Hm' [He|(i & g & He & Hg)]; unfold view, ok; rewrite He.
  - split; [done|]. apply (moves_progressed show). reflexivity.
  - split; [split; [done|]|].
    + apply Forall_alter; [done|]. intros x Hx Hgood. by apply Hg.
    + apply (moves_progressed show), alter_moves. intros x Hx. apply Hg; [done|].
      rewrite Forall_lookup in Hs. by eapply Hs.
Qed.

Lemma wake_slots s : slots (WakeRuntimeLocked s) = slots s /\ delivery_mode (WakeRuntimeLocked s) = delivery_mode s.
Proof. unfold WakeRuntimeLocked. by case_match. Qed.

Lemma matches_state s identity state slot :
  slot_matches s identity state = true -> slots s !! index identity = Some slot -> slot_state slot = state.
Proof.
  unfold slot_matches, slot_at. intros [H%bool_decide_eq_true _]%andb_true_iff Hs. by rewrite Hs in H.
Qed.

(** A handle that is released frees its slot. *)
Lemma release_changes identity state s :
  state = kReserved \/ state = kHeld -> ok s ->
  ok (ReleaseSlotHandle identity state s) /\ progressed (view s) (view (ReleaseSlotHandle identity state s)).
Proof.
  intros Hst Hok. unfold ReleaseSlotHandle. destruct (_ && _) eqn:Hm.
  2: { split; [done|]. apply (moves_progressed show). reflexivity. }
  apply andb_true_iff in Hm as [_ Hm]. destruct (wake_slots (on_slot (index identity)
    (fun slot => slot <| slot_state := kFree |>) s)) as [Hsl Hmd].
  apply changes; [done|rewrite Hmd; apply Hok|]. right. eexists _, _. split; [exact Hsl|].
  intros slot _ _. split; [by apply same_show|done].
Qed.

Lemma moves_steady s s' : ok s -> moves s s' -> ok s' /\ progressed (view s) (view s').
Proof.
  intros Hok Hmv. pose proof Hok as [Hmode Hall]. destruct Hmv.
  - apply changes; [done|..]; unfold Resume; rewrite (proj2 (wake_slots _)) || rewrite (proj1 (wake_slots _)); [done|by left].
  - unfold SetDeliveryMode. destruct (negb _) eqn:Hk; apply changes; try done; [by left| |by left].
    by apply negb_false_iff in Hk.
  - unfold TryTake. destruct (FindLowestSequence kReady s) as [i|] eqn:Hi; apply changes; try done; [|by left].
    right. eexists _, _. split; [reflexivity|]. intros slot _ _. split; [by apply same_show|done].
  - unfold TryTakePendingDelivery. destruct (FindLowestSequence kPending s) as [i|] eqn:Hi; apply changes; try done; [|by left].
    right. eexists _, _. split; [reflexivity|]. intros slot Hs Hg. split; [by apply same_show|].
    unfold FindLowestSequence in Hi. apply lowest_index_Some in Hi as (x & Hx & Hp & _).
    simplify_eq. apply bool_decide_eq_true in Hp. unfold slot_good in *. by rewrite Hp in Hg.
  - destruct handle as [p|]; [|apply changes; [done..|by left]]. cbn.
    destruct (negb _); [apply changes; [done..|by left]|].
    destruct (negb _) eqn:Hm; [apply changes; [done..|by left]|]. apply negb_false_iff in Hm. cbn.
    match goal with |- context [WakeRuntimeLocked ?x] => destruct (wake_slots x) as [Hsl Hmd] end.
    apply changes; [done|by rewrite Hmd|]. right. eexists _, _. split; [exact Hsl|].
    intros slot Hs Hg. pose proof (matches_state _ _ _ _ Hm Hs) as Hst. unfold slot_good in Hg. rewrite Hst in Hg.
    unfold slot_moves, show, slot_good. destruct delivered; cbn; rewrite Hg; cbn; (split; [|done]); constructor;
      split_and!; auto.
  - apply release_changes; [by right|done].
Qed.

Lemma stop_steady s : ok s -> ok (Stop s) /\ progressed (view s) (view (Stop s)).
Proof.
  intros [Hm Hall]. unfold Stop, view, ok. cbn. split; [split; [done|]|].
  - rewrite Forall_fmap. eapply Forall_impl; [|exact Hall]. intros slot Hg. unfold StopSlot. cbn.
    by case_decide.
  - apply (moves_progressed show), fmap_moves. intros slot Hs. rewrite list.Forall_forall in Hall.
    specialize (Hall slot Hs). unfold StopSlot. case_decide as Hd; [|reflexivity].
    unfold slot_moves, show. cbn. assert (delivery slot = kInFlight) as ->.
    { unfold slot_good in Hall. by destruct Hd as [Hd|Hd]; rewrite Hd in Hall. }
    constructor. split_and!; auto.
Qed.

Lemma encoded_summarize_view mark s : SummarizeInFlight mark s = summary_of mark (view s).
Proof.
  apply summarize_slots. intros x slot. unfold SummarizeSlot, show.
  destruct (delivery slot) eqn:Hd; cbn; unfold summarize_delivery; cbn; [done|..];
    destruct (mark <=? InMemoryEncodedDestination.admission_sequence slot); cbn; try done.
Qed.

Lemma encoded_retire_view sequence s retirement s' :
  TryRetire sequence s = (retirement, s') -> ok s ->
  ok s' /\ match retirement with
           | None => view s' = view s
           | Some x => view s ≡ₚ {| d_sequence := sequence; d_bytes := retired_bytes x;
                                    d_fate := fate_of (outcome x) |} :: view s'
           end.
Proof.
  unfold TryRetire. destruct (first_index _ _) as [i|] eqn:Hi; intros [= <- <-] Hok; [|done].
  apply first_index_Some in Hi as (slot & Hs & Hc & _). destruct Hok as [Hm Hall].
  split; [split; [done|]|].
  - cbn. apply Forall_alter; [done|]. intros x Hx. simplify_eq. unfold slot_good, completed in *. cbn.
    intros Hg. destruct (slot_state slot); try done; rewrite Hg in Hc; done.
  - unfold slot_at. rewrite Hs. cbn [default]. unfold completed in Hc.
    apply andb_true_iff in Hc as [Hd <-%Z.eqb_eq].
    apply (alter_hides show _ i _ slot); [done| |done]. unfold show.
    apply orb_true_iff in Hd as [Hd%bool_decide_eq_true|Hd%bool_decide_eq_true]; rewrite Hd; cbn; by rewrite Hd.
Qed.

(** What a claim is, and what storing with it does. *)
Definition claimed (identity : EncodedDestinationSlotIdentity) (s : InMemoryEncodedDestinationState) : Prop :=
  stopped s = false /\ slot_matches s identity kReserved = true /\ in_range s (index identity) = true.

Lemma encoded_claim_view s claim s' :
  TryClaimWrite s = (claim, s') -> ok s ->
  ok s' /\ view s' ≡ₚ view s
  /\ match claim with Some identity => claimed identity s' | None => s' = s end.
Proof.
  intros Hc Hok. unfold TryClaimWrite in Hc. destruct (stopped s || paused s) eqn:Hst.
  { simplify_eq. by split_and!. }
  destruct (FindClaimableSlot s) as [i|] eqn:Hi; injection Hc as <- <-.
  2: { by split_and!. }
  apply first_index_Some in Hi as (slot & Hs & Hcl & _). apply andb_true_iff in Hcl as [_ Hr%bool_decide_eq_true].
  apply orb_false_iff in Hst as [Hst _].
  set (g := fun slot : EncodedSlotMetadata => slot <| generation ::= NextGeneration |> <| slot_state := kReserved |>).
  assert (ok (on_slot i g s) /\ progressed (view s) (view (on_slot i g s))) as [Ho _].
  { apply changes; [done|apply Hok|]. right. exists i, g. split; [done|]. intros x Hx _. simplify_eq.
    split; [by apply same_show|done]. }
  split_and!; [done|by apply (alter_same show _ _ g slot)|].
  change (claimed {| index := i; identity_generation := generation (slot_at (on_slot i g s) i) |} (on_slot i g s)).
  unfold claimed. split_and!; [done|..].
  - unfold slot_matches, slot_at, on_slot. cbn. rewrite list_lookup_alter_eq, Hs. cbn. by rewrite Z.eqb_refl.
  - unfold in_range. cbn. rewrite length_alter. apply Nat.ltb_lt. by eapply lookup_lt_Some.
Qed.

Lemma encoded_reset_view identity s : ok s -> ok (Reset identity s) /\ view (Reset identity s) ≡ₚ view s.
Proof.
  intros Hok. destruct (release_changes identity kReserved s) as [Ho _]; [by left|done|]. split; [done|].
  unfold Reset, ReleaseSlotHandle. destruct (in_range s (index identity)) eqn:Hr; [|done].
  destruct (slot_matches _ _ _); [|done]. cbn [andb]. unfold view. rewrite (proj1 (wake_slots _)). cbn.
  apply Nat.ltb_lt, lookup_lt_is_Some_2 in Hr as [slot Hs]. by apply (alter_same show _ _ _ slot).
Qed.

Lemma encoded_store_view double_text identity sequence record s result s' :
  StoreRaw double_text identity sequence record s = (result, s') -> ok s -> claimed identity s ->
  ok s' /\ if submitted result
           then exists f, view s' ≡ₚ {| d_sequence := sequence; d_bytes := stored_encoded_bytes result; d_fate := f |}
                            :: view s
           else view s' ≡ₚ view s.
Proof.
  intros Hstore Hok (Hst & Hm & Hr). unfold StoreRaw in Hstore. rewrite Hr in Hstore. cbn [negb] in Hstore.
  assert (exists slot, slots s !! index identity = Some slot) as [slot Hs].
  { unfold in_range in Hr. apply Nat.ltb_lt in Hr. by apply lookup_lt_is_Some_2. }
  destruct (RawEncoder.EncodeRawRecord _ _ _) as [encoded output].
  set (s1 := s <| backing ::= blit _ output |>) in *.
  assert (ok s1) as Hok1 by exact Hok.
  destruct (negb (RawEncoder.complete encoded)).
  { simplify_eq. cbn. exact (encoded_reset_view identity s1 Hok1). }
  change (slot_matches s1 identity kReserved) with (slot_matches s identity kReserved) in Hstore.
  rewrite Hm in Hstore. injection Hstore as <- <-.
  pose proof (matches_state _ _ _ _ Hm Hs) as Hres. destruct Hok as [Hmode Hall].
  pose proof Hall as Hgood. rewrite Forall_lookup in Hgood. specialize (Hgood _ _ Hs).
  unfold slot_good in Hgood. rewrite Hres in Hgood.
  change (stopped s1) with (stopped s). change (delivery_mode s1) with (delivery_mode s). rewrite Hst.
  split.
  - split; [done|]. cbn. apply Forall_alter; [done|]. intros x Hx _. unfold SubmitSlot, slot_good.
    destruct (delivery_mode s); done.
  - cbn. unfold view. cbn. set (g := SubmitSlot _ _ _ _).
    assert (exists f, show (g slot) = Some {| d_sequence := sequence; d_bytes := RawEncoder.encoded_bytes encoded;
      d_fate := f |}) as [f Hf].
    { unfold g, SubmitSlot, show. destruct (delivery_mode s); cbn; eauto. done. }
    exists f. apply (alter_shows show _ _ g slot); [done| |done]. unfold show. by rewrite Hgood.
Qed.
End Encoded.

(** ** The file sink *)

Module File.
Import RawFileSink.

Definition fate (state : FileDeliveryState) : option Fate :=
  match state with
  | kRetired => None
  | kInFlight => Some Undecided
  | kDelivered => Some Delivered
  | kFailed => Some Failed
  | kCancelled => Some Cancelled
  end.

Definition show (slot : FileSlot) : option Delivery :=
  (fun f => {| d_sequence := RawFileSink.admission_sequence slot;
               d_bytes := RawFileSink.encoded_bytes slot; d_fate := f |})
  <$> fate (delivery slot).

Definition view (s : RawFileSinkState) : list Delivery := omap show (slots s).

Definition slot_good (slot : FileSlot) : Prop :=
  match slot_state slot with
  | kReserved => delivery slot = kRetired
  | kQueued | kWriting => delivery slot = kInFlight
  | kFree => True
  end.

(** The slot the loop thread writes, and the slots. *)
Definition is_writing (i : nat) (s : RawFileSinkState) : Prop :=
  exists slot, slots s !! i = Some slot /\ slot_state slot = kWriting.

Definition base (s : RawFileSinkState) : Prop :=
  - 2 ^ 31 <= write_error (faults s) /\ Forall slot_good (slots s).

Record ok (s : RawFileSinkState) : Prop := {
  ok_base : base s;
  ok_writing : writing s = true -> is_writing (writing_slot s) s;
  ok_request : is_Some (write_request s) -> writing s = true;
}.

(** What the loop thread does to the slots and to the error. *)
Definition evolves (s s' : RawFileSinkState) : Prop :=
  Forall2 (slot_moves show) (slots s) (slots s') /\ (failure_error s <> 0 -> failure_error s' <> 0).

#[export] Instance evolves_preorder : PreOrder evolves.
Proof.
  split; [intros s; split; [reflexivity|done]|].
  intros a b c [H1 H2] [H3 H4]. split; [by etrans|auto].
Qed.

Inductive moves : RawFileSinkState -> RawFileSinkState -> Prop :=
| mv_wake uv fuel s s' :
    UV_EIO uv < 0 -> (forall call, - 2 ^ 31 <= uv_fs_write uv call) ->
    OnWake uv fuel s = Some s' -> moves s s'
| mv_write uv fuel result s s' :
    UV_EIO uv < 0 -> (forall call, - 2 ^ 31 <= uv_fs_write uv call) -> - 2 ^ 31 <= result ->
    is_Some (write_request s) -> OnWriteComplete uv fuel result s = Some s' -> moves s s'
| mv_closed result s : close_request s = true -> moves s (OnCloseComplete result s)
| mv_exit s : moves s (MarkLoopExited s).

(** *** The loop thread *)

Section Loop.
Context (uv : Uv) (Heio : UV_EIO uv < 0) (Huv : forall call, - 2 ^ 31 <= uv_fs_write uv call).

Lemma same_slots s s' :
  slots s' = slots s -> faults s' = faults s -> failure_error s' = failure_error s ->
  writing s' = writing s -> writing_slot s' = writing_slot s -> write_request s' = write_request s ->
  ok s -> ok s' /\ evolves s s'.
Proof.
  intros Hs Hf He Hw Hi Hr [[Hfa Hall] Hwr Hrq]. split.
  - constructor; unfold base, is_writing in *; rewrite ?Hs, ?Hf, ?Hw, ?Hi, ?Hr; done.
  - unfold evolves. rewrite Hs, He. split; [reflexivity|done].
Qed.

Lemma notify_same s : slots (Notify s) = slots s /\ faults (Notify s) = faults s
  /\ failure_error (Notify s) = failure_error s /\ writing (Notify s) = writing s
  /\ writing_slot (Notify s) = writing_slot s /\ write_request (Notify s) = write_request s.
Proof. unfold Notify. by case_match. Qed.

Lemma finish_close_ok result s : ok s -> ok (FinishCloseLocked result s) /\ evolves s (FinishCloseLocked result s).
Proof.
  intros Hok. unfold FinishCloseLocked.
  match goal with |- context [Notify ?x] => destruct (notify_same x) as (H1 & H2 & H3 & H4 & H5 & H6) end.
  by apply same_slots.
Qed.

Lemma start_close_ok s : ok s -> ok (StartCloseLocked uv s) /\ evolves s (StartCloseLocked uv s).
Proof.
  intros Hok. unfold StartCloseLocked. set (s1 := ObserveOperation (s <| closing := true |>)).
  assert (ok s1 /\ evolves s s1) as [H1 H2] by (by apply same_slots).
  destruct (negb _); [|destruct (_ <? 0)].
  - destruct (finish_close_ok (close_error (faults s1)) s1 H1). split; [done|by etrans].
  - destruct (finish_close_ok (uv_fs_close uv) s1 H1). split; [done|by etrans].
  - assert (ok (s1 <| close_request := true |>) /\ evolves s1 (s1 <| close_request := true |>)) as [? ?]
      by (by apply same_slots). split; [done|by etrans].
Qed.

(** One slot changes in place. *)
Lemma base_alter s i g slot :
  base s -> slots s !! i = Some slot -> slot_moves show slot (g slot) -> slot_good (g slot) ->
  base (on_slot i g s) /\ evolves s (on_slot i g s).
Proof.
  intros [Hf Hall] Hs Hm Hg. split; [split; [done|]|split; [|done]].
  - cbn. apply Forall_alter; [done|]. intros x Hx _. by simplify_eq.
  - cbn. apply alter_moves. intros x Hx. by simplify_eq.
Qed.

Lemma cancel_ok s : base s -> base (CancelQueuedLocked s) /\ evolves s (CancelQueuedLocked s).
Proof.
  intros [Hf Hall]. split; [split; [done|]|split; [|done]]; cbn.
  - rewrite Forall_fmap. eapply Forall_impl; [|exact Hall]. intros slot Hg. unfold CancelSlot. cbn. by case_decide.
  - apply fmap_moves. intros slot Hs. rewrite list.Forall_forall in Hall. specialize (Hall slot Hs).
    unfold CancelSlot. case_decide as Hq; [|reflexivity]. unfold slot_good in Hall. rewrite Hq in Hall.
    unfold slot_moves, show. cbn. rewrite Hall. constructor. split_and!; auto.
Qed.

Lemma select_queued s i :
  SelectQueued s = Some i -> exists slot, slots s !! i = Some slot /\ slot_state slot = kQueued.
Proof.
  unfold SelectQueued. destruct (_ && _); [|done]. intros (x & Hx & Hq & _)%lowest_index_Some.
  exists x. split; [done|]. by apply bool_decide_eq_true in Hq.
Qed.

Definition pump_ok (fuel : nat) : Prop := forall s s',
  ok s -> PumpLocked uv fuel s = Some s' -> ok s' /\ evolves s s'.

Definition start_ok (fuel : nat) : Prop := forall i s s' slot,
  base s -> write_request s = None -> slots s !! i = Some slot ->
  slot_state slot = kQueued \/ slot_state slot = kWriting ->
  StartWriteLocked uv fuel i s = Some s' -> ok s' /\ evolves s s'.

Definition finish_ok (fuel : nat) : Prop := forall result s s',
  base s -> write_request s = None -> is_writing (writing_slot s) s -> - 2 ^ 31 <= result ->
  FinishWriteLocked uv fuel result s = Some s' -> ok s' /\ evolves s s'.

Lemma pump_keeps fuel : start_ok fuel -> pump_ok (S fuel).
Proof.
  intros Hstart s s' Hok Hp. cbn in Hp. destruct (writing s || closing s || closed s) eqn:Hw.
  { injection Hp as <-. by split. }
  apply orb_false_iff in Hw as [[Hw _]%orb_false_iff _].
  destruct (SelectQueued s) as [i|] eqn:Hi.
  - apply select_queued in Hi as (slot & Hs & Hq).
    apply (Hstart i s s' slot); auto; [apply Hok|].
    destruct (write_request s) eqn:Hr; [|done].
    by rewrite (ok_request s Hok) in Hw by (by rewrite Hr; eexists).
  - injection Hp as <-. destruct (close_requested s); [by apply start_close_ok|by split].
Qed.

(** The slot that is written, and its delivery. *)
Lemma writing_in_flight s i slot :
  base s -> slots s !! i = Some slot -> slot_state slot = kQueued \/ slot_state slot = kWriting ->
  delivery slot = kInFlight.
Proof.
  intros [_ Hall] Hs Hst. rewrite Forall_lookup in Hall. specialize (Hall _ _ Hs). unfold slot_good in Hall.
  by destruct Hst as [Hst|Hst]; rewrite Hst in Hall.
Qed.

Lemma start_keeps fuel : finish_ok fuel -> start_ok (S fuel).
Proof.
  intros Hfin i s s' slot Hb Hr Hs Hst. rewrite StartWriteLocked_S.
  pose proof (writing_in_flight s i slot Hb Hs Hst) as Hfl.
  destruct (base_alter s i (fun slot => slot <| slot_state := kWriting |>) slot Hb Hs) as [Hb1 He1];
    [by apply same_show|done|].
  assert (base (started s i)) as Hb2 by exact Hb1. assert (evolves s (started s i)) as He2 by exact He1.
  assert (is_writing i (started s i)) as Hwr.
  { eexists. cbn. rewrite list_lookup_alter_eq, Hs. done. }
  destruct (_ =? _); [|destruct (_ <? 0)]; intros Hp.
  - destruct (Hfin _ (started s i) s' Hb2 Hr Hwr (proj1 Hb) Hp). split; [done|by etrans].
  - destruct (Hfin _ (started s i) s' Hb2 Hr Hwr (Huv _) Hp). split; [done|by etrans].
  - injection Hp as <-. split; [|exact He2]. constructor; [exact Hb2|intros _; exact Hwr|done].
Qed.

(** The end of a write leaves no write in flight. *)
Lemma settled_ok s : base s -> writing s = false -> write_request s = None -> ok s.
Proof. intros Hb Hw Hr. constructor; [done|by rewrite Hw|by rewrite Hr; intros []]. Qed.

Lemma finish_keeps fuel : pump_ok fuel -> start_ok fuel -> finish_ok (S fuel).
Proof.
  intros Hpump Hstart result s s' Hb Hr (slot & Hs & Hst) Hres. rewrite FinishWriteLocked_S.
  pose proof (writing_in_flight s _ slot Hb Hs ltac:(by right)) as Hfl.
  destruct (failed_result s result) eqn:Hfail.
  - pose proof (after_failure_error uv ltac:(lia) s result Hres Hfail) as Herr.
    set (s1 := on_slot (writing_slot s) (fun slot => slot <| slot_state := kFree |> <| delivery := kFailed |>)
      (s <| writing := false |>)).
    destruct (base_alter (s <| writing := false |>) (writing_slot s)
      (fun slot => slot <| slot_state := kFree |> <| delivery := kFailed |>) slot Hb Hs) as [Hb1 He1]; [|done|].
    { unfold slot_moves, show. cbn. rewrite Hfl. constructor. split_and!; auto. }
    fold s1 in Hb1, He1.
    set (s2 := s1 <| failure_error := if result <? 0 then to_s32 result else UV_EIO uv |>) in *.
    destruct (cancel_ok s2 Hb1) as [Hb2 [Hm2 _]].
    destruct (notify_same (CancelQueuedLocked s2)) as (N1 & N2 & N3 & N4 & N5 & N6).
    change (after_failure uv s result) with (Notify (CancelQueuedLocked s2)) in *. intros Hp.
    destruct (Hpump (Notify (CancelQueuedLocked s2)) s') as [Hok' [Hm' He']]; [|done|].
    { apply settled_ok; [unfold base; by rewrite N1, N2|by rewrite N4|by rewrite N6]. }
    split; [done|]. split; [|auto]. destruct He1 as [Hm1 _]. rewrite N1 in Hm'.
    etrans; [exact Hm1|]. etrans; [exact Hm2|exact Hm'].
  - set (s1 := after_write s result).
    set (remaining := encoded_bytes (slot_at s (writing_slot s)) -w written_bytes (slot_at s (writing_slot s))).
    set (g := fun slot : FileSlot => slot <| written_bytes ::= fun n =>
      n +w (if result <? remaining then result else remaining) |>).
    destruct (base_alter (s <| writing := false |>) (writing_slot s) g slot Hb Hs) as [Hb1 He1];
      [by apply same_show|unfold slot_good; cbn; by rewrite Hst|].
    change (base s1) in Hb1. assert (evolves s s1) as He by exact He1.
    assert (slots s1 !! writing_slot s = Some (g slot)) as Hs1.
    { cbn. rewrite list_lookup_alter_eq, Hs. done. }
    destruct (written_bytes (slot_at s1 (writing_slot s)) <? _); intros Hp.
    + destruct (Hstart (writing_slot s) s1 s' (g slot)) as [Hok' He']; [exact Hb1|exact Hr|exact Hs1|right; exact Hst|exact Hp|].
      split; [done|by etrans].
    + destruct (base_alter s1 (writing_slot s) (fun slot => slot <| slot_state := kFree |> <| delivery := kDelivered |>)
        (g slot) Hb1 Hs1) as [Hb2 He2]; [|done|].
      { unfold slot_moves, show. cbn. rewrite Hfl. constructor. split_and!; auto. }
      unfold after_delivery in Hp. match type of Hp with PumpLocked _ _ (Notify ?x) = _ => set (s2 := x) in * end.
      destruct (notify_same s2) as (N1 & N2 & N3 & N4 & N5 & N6).
      destruct (Hpump (Notify s2) s') as [Hok' [Hm' He']]; [|done|].
      { apply settled_ok; [unfold base; by rewrite N1, N2|by rewrite N4|by rewrite N6]. }
      split; [done|]. rewrite N1 in Hm'. rewrite N3 in He'. etrans; [exact He|]. etrans; [exact He2|by split].
Qed.

Lemma loop_ok fuel : pump_ok fuel /\ start_ok fuel /\ finish_ok fuel.
Proof.
  induction fuel as [|fuel (IH1 & IH2 & IH3)]; [by split_and!|].
  split_and!; [by apply pump_keeps|by apply start_keeps|by apply finish_keeps].
Qed.
End Loop.

Lemma moves_ok s s' : ok s -> moves s s' -> ok s' /\ evolves s s'.
Proof.
  intros Hok Hmv. destruct Hmv as [uv fuel s s' He Hu Hw|uv fuel result s s' He Hu Hr Hq Hw|result s Hc|s].
  - unfold OnWake in Hw. destruct (loop_ok uv He Hu fuel) as (Hp & _).
    assert (ok (s <| wake_pending := false |>)) as Hok1 by (destruct Hok; by constructor).
    exact (Hp _ _ Hok1 Hw).
  - unfold OnWriteComplete in Hw. destruct (loop_ok uv He Hu fuel) as (_ & _ & Hf).
    destruct Hok as [Hb Hwr Hrq].
    set (s1 := s <| write_request := None |>) in Hw. pose proof (Hwr (Hrq Hq)) as Hcur.
    assert (ok s' /\ evolves s1 s') as H by (by apply (Hf result s1 s')). exact H.
  - unfold OnCloseComplete.
    assert (ok (s <| close_request := false |>)) as Hok1 by (destruct Hok; by constructor).
    exact (finish_close_ok result _ Hok1).
  - by apply same_slots.
Qed.

(** *** The worker *)

Lemma on_slot_ok s i g slot :
  ok s -> slots s !! i = Some slot -> slot_state slot <> kWriting -> slot_good (g slot) ->
  ok (on_slot i g s).
Proof.
  intros [[Hf Hall] Hw Hr] Hs Hst Hg. constructor; [split; [done|]| |done].
  - cbn. apply Forall_alter; [done|]. intros x Hx _. by simplify_eq.
  - intros Hwr. destruct (Hw Hwr) as (x & Hx & Hxs). exists x. split; [|done]. cbn in *.
    rewrite list_lookup_alter_ne; [done|]. intros ->. by simplify_eq.
Qed.

Definition claimed (identity : FileSlotIdentity) (s : RawFileSinkState) : Prop :=
  exists slot, slots s !! index identity = Some slot /\ slot_state slot = kReserved
    /\ generation slot = identity_generation identity.

Lemma file_claim_view s claim s' :
  TryClaimWrite s = (claim, s') -> ok s ->
  ok s' /\ failure_error s' = failure_error s /\ view s' ≡ₚ view s
  /\ match claim with Some identity => claimed identity s' | None => s' = s end.
Proof.
  intros Hc Hok. unfold TryClaimWrite in Hc. destruct (_ || negb (async_open s)); [by simplify_eq|].
  destruct (first_index claimable (slots s)) as [i|] eqn:Hi; injection Hc as <- <-; [|done].
  apply first_index_Some in Hi as (slot & Hs & Hcl & _).
  apply andb_true_iff in Hcl as [Hfree%bool_decide_eq_true Hr%bool_decide_eq_true].
  set (g := fun slot : FileSlot => slot <| generation ::= NextGeneration |> <| slot_state := kReserved |>).
  split_and!.
  - apply (on_slot_ok s i g slot); [done..|by rewrite Hfree|done].
  - done.
  - by apply (alter_same show _ _ g slot).
  - exists (g slot). unfold slot_at. cbn. by rewrite list_lookup_alter_eq, Hs.
Qed.

Lemma file_reset_view identity s : ok s -> claimed identity s -> ok (Reset identity s) /\ view (Reset identity s) ≡ₚ view s.
Proof.
  intros Hok (slot & Hs & Hst & Hg). unfold Reset. destruct (_ && _); [|done].
  set (g := fun slot : FileSlot => slot <| slot_state := kFree |>). split.
  - apply (on_slot_ok s _ g slot); [done..|by rewrite Hst|done].
  - by apply (alter_same show _ _ g slot).
Qed.

Lemma file_store_view double_text identity sequence record s result s' :
  StoreRaw double_text identity sequence record s = (result, s') -> ok s -> claimed identity s ->
  ok s' /\ (failure_error s <> 0 -> failure_error s' <> 0)
  /\ if submitted result
     then exists f, view s' ≡ₚ {| d_sequence := sequence; d_bytes := stored_encoded_bytes result; d_fate := f |}
                      :: view s
     else view s' ≡ₚ view s.
Proof.
  intros Hstore Hok Hcl. unfold StoreRaw in Hstore.
  destruct (RawEncoder.EncodeRawRecord _ _ _) as [encoded output].
  set (s1 := s <| buffers ::= blit _ output |>) in *.
  assert (ok s1) as Hok1 by (destruct Hok; by constructor). assert (claimed identity s1) as Hcl1 by exact Hcl.
  destruct (negb (RawEncoder.complete encoded)).
  { simplify_eq. destruct (file_reset_view identity s1 Hok1 Hcl1) as [Ho Hp]. split_and!; [done| |exact Hp].
    unfold Reset. by destruct (_ && _). }
  destruct Hcl as (slot & Hs & Hst & Hg).
  assert (slot_at s1 (index identity) = slot) as Hat by (unfold slot_at; cbn; by rewrite Hs).
  rewrite Hat, Hst, Hg, Z.eqb_refl, bool_decide_true in Hstore by done. cbn [negb orb] in Hstore.
  assert (delivery slot = kRetired) as Hret.
  { destruct Hok as [[_ Hall] _ _]. rewrite Forall_lookup in Hall. specialize (Hall _ _ Hs).
    unfold slot_good in Hall. by rewrite Hst in Hall. }
  set (g := fun slot : FileSlot => slot <| admission_sequence := sequence |>
    <| encoded_bytes := RawEncoder.encoded_bytes encoded |> <| written_bytes := 0 |>) in *.
  set (s2 := on_slot (index identity) g s1) in *.
  assert (ok s2) as Hok2.
  { apply (on_slot_ok s1 _ g slot); [done..|by rewrite Hst|]. unfold slot_good. cbn. by rewrite Hst. }
  assert (slots s2 !! index identity = Some (g slot)) as Hs2 by (cbn; by rewrite list_lookup_alter_eq, Hs).
  assert (forall h f, show (h (g slot)) = Some {| d_sequence := sequence; d_bytes := RawEncoder.encoded_bytes encoded;
    d_fate := f |} -> omap show (slots (on_slot (index identity) h s2))
      ≡ₚ {| d_sequence := sequence; d_bytes := RawEncoder.encoded_bytes encoded; d_fate := f |} :: view s) as Hview.
  { intros h f Hf. change (slots (on_slot (index identity) h s2))
      with (alter h (index identity) (slots s2)).
    rewrite (alter_as_insert h _ _ _ Hs2). change (slots s2) with (alter g (index identity) (slots s)).
    rewrite (alter_as_insert g _ _ _ Hs), list_insert_insert_eq.
    destruct (omap_insert show (slots s) _ slot (h (g slot)) Hs) as (rest & H1 & H2).
    assert (show slot = None) as Hnone by (unfold show; by rewrite Hret).
    unfold view. rewrite H2, H1, Hf, Hnone. done. }
  destruct (_ || negb (async_open s2)); injection Hstore as <- <-.
  - set (h := fun slot : FileSlot => slot <| slot_state := kFree |> <| delivery := kCancelled |>).
    split_and!; [|done|].
    + apply (on_slot_ok s2 _ h (g slot)); [done..|by cbn; rewrite Hst|done].
    + exists Cancelled. by apply Hview.
  - set (h := fun slot : FileSlot => slot <| slot_state := kQueued |> <| delivery := kInFlight |>).
    assert (forall x, slots (SendWakeLocked x) = slots x /\ failure_error (SendWakeLocked x) = failure_error x
      /\ (ok x -> ok (SendWakeLocked x))) as Hsend.
    { intros x. unfold SendWakeLocked. case_match; split_and!; try done. intros [? ? ?]. by constructor. }
    destruct (Hsend (on_slot (index identity) h s2)) as (E1 & E2 & E3). split_and!.
    + apply E3, (on_slot_ok s2 _ h (g slot)); [done..|by cbn; rewrite Hst|done].
    + intros Hf. change (failure_error (SendWakeLocked (on_slot (index identity) h s2)) <> 0). by rewrite E2.
    + exists Undecided. pose proof (Hview h Undecided eq_refl) as H. rewrite <- E1 in H. exact H.
Qed.

Lemma send_ok s : ok s -> ok (SendWakeLocked s) /\ evolves s (SendWakeLocked s).
Proof. intros Hok. unfold SendWakeLocked. case_match; [|done]. by apply same_slots. Qed.

Lemma request_close_ok s : ok s -> ok (RequestClose s) /\ evolves s (RequestClose s).
Proof.
  intros Hok. unfold RequestClose.
  destruct (same_slots s (s <| close_requested := true |>)) as [H1 H2]; [done..|].
  destruct (send_ok _ H1). split; [done|by etrans].
Qed.

Lemma stop_ok s : ok s -> ok (Stop s) /\ evolves s (Stop s).
Proof.
  intros Hok. unfold Stop. set (s1 := s <| stopping := true |> <| close_requested := true |>).
  destruct (same_slots s s1) as [H1 H2]; [done..|].
  destruct (cancel_ok s1 (ok_base s1 H1)) as [Hb He].
  assert (ok (CancelQueuedLocked s1)) as Hok'.
  { constructor; [done| |apply (ok_request s1 H1)]. intros Hw. destruct (ok_writing s1 H1 Hw) as (x & Hx & Hst).
    exists x. split; [|done]. cbn. rewrite list_lookup_fmap. cbn in Hx. rewrite Hx. cbn. f_equal.
    unfold CancelSlot. by rewrite decide_False by (by rewrite Hst). }
  destruct (send_ok _ Hok'). split; [done|]. etrans; [exact H2|]. etrans; [exact He|done].
Qed.

Lemma file_summarize_view mark s : SummarizeInFlight mark s = summary_of mark (view s).
Proof.
  apply summarize_slots. intros x slot. unfold SummarizeSlot, show.
  destruct (delivery slot) eqn:Hd; cbn; unfold summarize_delivery; cbn; [done|..];
    destruct (mark <=? RawFileSink.admission_sequence slot); cbn; try done.
Qed.

Lemma file_retire_view sequence s retirement s' :
  TryRetire sequence s = (retirement, s') -> ok s ->
  ok s' /\ failure_error s' = failure_error s
  /\ match retirement with
     | None => view s' = view s
     | Some x => view s ≡ₚ {| d_sequence := sequence; d_bytes := retired_bytes x;
                              d_fate := fate_of (outcome x) |} :: view s'
     end.
Proof.
  unfold TryRetire. destruct (first_index _ _) as [i|] eqn:Hi; intros [= <- <-] Hok; [|done].
  apply first_index_Some in Hi as (slot & Hs & Hc & _).
  apply andb_true_iff in Hc as [Hd <-%Z.eqb_eq].
  assert (delivery slot <> kInFlight /\ delivery slot <> kRetired) as [Hn1 Hn2].
  { apply orb_true_iff in Hd as [Hd%bool_decide_eq_true|Hd%bool_decide_eq_true]; by rewrite Hd. }
  assert (slot_good slot) as Hgood.
  { destruct Hok as [[_ Hall] _ _]. rewrite Forall_lookup in Hall. by eapply Hall. }
  split_and!; [|done|].
  - apply (on_slot_ok s i _ slot); [done..| |]; unfold slot_good in *; cbn; by destruct (slot_state slot).
  - unfold slot_at. rewrite Hs. cbn [default].
    apply (alter_hides show _ i _ slot); [done| |done]. unfold show.
    apply orb_true_iff in Hd as [Hd%bool_decide_eq_true|Hd%bool_decide_eq_true]; rewrite Hd; cbn; by rewrite Hd.
Qed.
End File.

(** ** Raw delivery *)

(** What [DeliverRaw] leaves, given what storing with a claim and destroying it leave. *)
Section Raw.
Context {St Claim : Type} `{!RawRoute St Claim}.
Context (ok : St -> Prop) (view : St -> list Delivery) (claimed : Claim -> St -> Prop).
Context (Hstore : forall c sequence v s result s', RouteTypes.StoreRaw c sequence v s = (result, s') -> ok s -> claimed c s ->
  ok s' /\ if submitted result
           then exists f, view s' ≡ₚ {| d_sequence := sequence; d_bytes := stored_encoded_bytes result; d_fate := f |}
                            :: view s
           else view s' ≡ₚ view s).
Context (Hrelease : forall c s, ok s -> claimed c s ->
  ok (RouteTypes.ReleaseClaim c s) /\ view (RouteTypes.ReleaseClaim c s) ≡ₚ view s).

Lemma deliver_raw_law claim k s result k' s' :
  DeliverRaw claim k s = (result, k', s') -> ok s ->
  match claim with Some c => claimed c s | None => True end ->
  ok s' /\ was_retired result = false
  /\ (result = no_delivery /\ k' = k /\ view s' ≡ₚ view s
      \/ exists call, ProducerKernel.TryConsume true k = (k', consumed result, call)
           /\ match call with
              | None => view s' ≡ₚ view s
              | Some (sequence, _) =>
                  RuntimeRoute.admission_sequence result = sequence
                  /\ if was_submitted result then
                       exists f, view s' ≡ₚ {| d_sequence := sequence; d_bytes := encoded_bytes result; d_fate := f |}
                                 :: view s
                     else view s' ≡ₚ view s
              end).
Proof.
  unfold DeliverRaw. intros Hdel Hok Hc. destruct claim as [c|].
  2: { simplify_eq. split_and!; [done..|]. by left. }
  destruct (ProducerKernel.TryConsume true k) as [[k1 status] call] eqn:Hcall.
  destruct call as [[sequence v]|].
  - destruct (RouteTypes.StoreRaw c sequence v s) as [stored s1] eqn:Hst. simplify_eq.
    destruct (Hstore _ _ _ _ _ _ Hst Hok Hc) as [Hok' Hv]. split_and!; [done..|]. right.
    exists (Some (sequence, v)). split; [done|]. split; [done|]. exact Hv.
  - simplify_eq. destruct (Hrelease c s Hok Hc) as [Hok' Hv]. split_and!; [done..|]. right. by exists None.
Qed.
End Raw.

(** ** The route *)

Section Instance.
Context (double_text : Z -> list byte) (sizeof_FileSlot sizeof_RawFileSinkState : Z).

(** A structured destination holds no delivery, whatever the application does to it. *)
Definition destination_moves (a b : RuntimeDestination) : Prop :=
  match a, b with
  | Structured _, Structured _ => True
  | Encoded a, Encoded b => Encoded.moves a b
  | FileSink a, FileSink b => File.moves a b
  | _, _ => False
  end.

#[export] Instance RuntimeRoute_view : RouteView RuntimeRoute := {|
  route_ok r := match destination_ r with
                | Structured _ => True
                | Encoded s => Encoded.ok s
                | FileSink s => File.ok s
                end;
  route_view r := match destination_ r with
                  | Structured _ => []
                  | Encoded s => Encoded.view s
                  | FileSink s => File.view s
                  end;
  route_moves r r' := destination_moves (destination_ r) (destination_ r') /\ attached_ r' = attached_ r;
|}.

#[local] Instance encoded_route : RawRoute _ _ :=
  InMemoryEncodedDestination.InMemoryEncodedDestination_route double_text.
#[local] Instance file_route : RawRoute _ _ := RawFileSink.RawFileSink_route double_text.
#[local] Instance route_instance : Route RuntimeRoute :=
  RuntimeRoute_route double_text sizeof_FileSlot sizeof_RawFileSinkState.

Lemma encoded_steady s s' r : destination_ r = Encoded s ->
  Encoded.ok s' /\ progressed (Encoded.view s) (Encoded.view s') ->
  steady r (r <| destination_ := Encoded s' |>).
Proof.
  intros Hd [Ho Hp]. unfold steady, keeps_error. cbn. unfold TerminalError. rewrite Hd. by split_and!.
Qed.

Lemma file_steady s s' r : destination_ r = FileSink s ->
  File.ok s' /\ File.evolves s s' -> steady r (r <| destination_ := FileSink s' |>).
Proof.
  intros Hd [Ho [Hm He]]. unfold steady, keeps_error. cbn. unfold TerminalError. rewrite Hd. cbn.
  split_and!; [done| |done]. by apply moves_progressed.
Qed.

Lemma structured_steady s s' r : destination_ r = Structured s ->
  steady r (r <| destination_ := Structured s' |>).
Proof. intros Hd. unfold steady, keeps_error. cbn. unfold TerminalError. rewrite Hd. by split_and!; [|constructor|]. Qed.

(** A call with a record says so. *)
Lemma consume_record k k' status sequence v :
  ProducerKernel.TryConsume true k = (k', status, Some (sequence, v)) -> status = ProducerKernel.kRecord.
Proof.
  unfold ProducerKernel.TryConsume. destruct (ProducerKernel.ConsumeClaim k) as [k1 [claim|st]]; [|done].
  destruct (ProducerKernel.ConsumeRecord _ _ _) as [k2 seen]. by intros [= _ <- _].
Qed.

Lemma structured_law k r result k' r' s :
  destination_ r = Structured s -> Deliver double_text k r = (result, k', r') ->
  route_view r' = [] /\ route_ok r' /\ keeps_error r r'
  /\ (result = no_delivery /\ k' = k
      \/ exists call, ProducerKernel.TryConsume true k = (k', consumed result, call)
           /\ (is_Some call -> was_retired result = true /\ was_submitted result = true)).
Proof.
  intros Hd Hdel. unfold Deliver in Hdel. rewrite Hd in Hdel. unfold DeliverStructured in Hdel.
  assert (keeps_error r r') as Hke by (unfold keeps_error; cbn; unfold TerminalError; by rewrite Hd).
  destruct (InMemoryDestination.WaitForWrite s) as [[claim|] s1].
  2: { simplify_eq. cbn. split_and!; [done..|]. by left. }
  destruct (ProducerKernel.TryConsume true k) as [[k1 status] call] eqn:Hc. simplify_eq. cbn.
  split_and!; [done..|]. right. exists call. split; [done|]. intros [[sequence v] ->].
  by apply consume_record in Hc as ->.
Qed.

Lemma route_deliver_law k r r' result k' :
  route_ok r -> Deliver double_text k r = (result, k', r') ->
  route_ok r' /\ keeps_error r r'
  /\ (result = no_delivery /\ k' = k /\ route_view r' ≡ₚ route_view r
      \/ exists call, ProducerKernel.TryConsume true k = (k', consumed result, call)
           /\ stores call result r r').
Proof.
  intros Hok Hdel. destruct (destination_ r) as [s|s|s] eqn:Hd.
  - destruct (structured_law k r result k' r' s Hd Hdel) as (Hv & Hok' & Hke & Hcase). split_and!; [done..|].
    assert (route_view r = []) as Hv0 by (cbn; by rewrite Hd). rewrite Hv, Hv0.
    destruct Hcase as [[-> ->]|(call & Hc & Hret)]; [by left|right]. exists call. split; [done|].
    unfold stores. rewrite Hv, Hv0. destruct call as [[sequence v]|]; [|done].
    destruct Hret as [-> ->]; [by eexists|]. done.
  - cbn in Hok. unfold Deliver in Hdel. unfold keeps_error, stores. cbn. unfold TerminalError. rewrite Hd in *.
    destruct (InMemoryEncodedDestination.TryClaimWrite s) as [claim s1] eqn:Hclaim.
    destruct (Encoded.encoded_claim_view s claim s1 Hclaim Hok) as (Hok1 & Hp1 & Hcl).
    destruct (DeliverRaw claim k s1) as [[result1 k1] s2] eqn:Hraw. simplify_eq. cbn.
    edestruct (deliver_raw_law Encoded.ok Encoded.view Encoded.claimed) as (Hok' & -> & Hcase);
      [| |exact Hraw|exact Hok1| |].
    + intros c q v x res x' Hst Hx Hcx. exact (Encoded.encoded_store_view double_text c q v x res x' Hst Hx Hcx).
    + intros c x Hx _. exact (Encoded.encoded_reset_view c x Hx).
    + by destruct claim.
    + split_and!; [done..|]. destruct Hcase as [(-> & -> & Hv)|(call & Hc & Hst)]; [left|right].
      { by rewrite Hv, Hp1. }
      exists call. split; [done|]. destruct call as [[sequence v]|]; [|by rewrite Hst, Hp1].
      destruct Hst as [Hq Hst]. split; [done|]. destruct (was_submitted _); [|by rewrite Hst, Hp1].
      destruct Hst as [f Hst]. exists f. by rewrite Hst, Hp1.
  - cbn in Hok. unfold Deliver in Hdel. unfold keeps_error, stores. cbn. unfold TerminalError. rewrite Hd in *.
    destruct (RawFileSink.TryClaimWrite s) as [claim s1] eqn:Hclaim.
    destruct (File.file_claim_view s claim s1 Hclaim Hok) as (Hok1 & He1 & Hp1 & Hcl).
    destruct (DeliverRaw claim k s1) as [[result1 k1] s2] eqn:Hraw. simplify_eq. cbn.
    set (keeps x := File.ok x /\ (RawFileSink.failure_error s1 <> 0 -> RawFileSink.failure_error x <> 0)).
    edestruct (deliver_raw_law keeps File.view File.claimed) as ([Hok' Hke] & -> & Hcase);
      [| |exact Hraw|by split| |].
    + intros c sequence v x res x' Hst [Hx1 Hx2] Hcx.
      destruct (File.file_store_view double_text c sequence v x res x' Hst Hx1 Hcx) as (? & Hx3 & ?). split; [|done]. split; auto.
    + intros c x [Hx1 Hx2] Hcx. destruct (File.file_reset_view c x Hx1 Hcx). split; [|done]. split; [done|].
      cbn. unfold RawFileSink.Reset. by destruct (_ && _).
    + by destruct claim.
    + unfold RawFileSink.FailureError. rewrite <- He1. split_and!; [done..|]. destruct Hcase as [(-> & -> & Hv)|(call & Hc & Hst)]; [left|right].
      { by rewrite Hv, Hp1. }
      exists call. split; [done|]. destruct call as [[sequence v]|]; [|by rewrite Hst, Hp1].
      destruct Hst as [Hq Hst]. split; [done|]. destruct (was_submitted _); [|by rewrite Hst, Hp1].
      destruct Hst as [f Hst]. exists f. by rewrite Hst, Hp1.
Qed.

#[export] Instance RuntimeRoute_laws : RouteLaws RuntimeRoute.
Proof.
  constructor.
  - intros r r' Hok [Hmv Ha]. destruct r as [a ra], r' as [b rb]. cbn in *. subst rb.
    destruct a as [a|a|a], b as [b|b|b]; try done.
    + by apply (structured_steady a b {| destination_ := Structured a; attached_ := ra |}).
    + by apply (encoded_steady a b {| destination_ := Encoded a; attached_ := ra |}), Encoded.moves_steady.
    + by apply (file_steady a b {| destination_ := FileSink a; attached_ := ra |}), File.moves_ok.
  - intros r Hok. cbn in *. unfold Stop. destruct (destination_ r) as [s|s|s] eqn:Hd.
    + by apply (structured_steady s).
    + by apply (encoded_steady s), Encoded.stop_steady.
    + by apply (file_steady s), File.stop_ok.
  - intros r Hok. cbn in *. unfold RequestClose. destruct (destination_ r) as [s|s|s] eqn:Hd.
    + unfold steady, keeps_error. cbn. rewrite Hd. by split_and!; [|constructor|].
    + unfold steady, keeps_error. cbn. rewrite Hd. by split_and!.
    + by apply (file_steady s), File.request_close_ok.
  - intros k r r' result k'. apply route_deliver_law.
  - intros r r' sequence retirement Hok Hret. cbn in *. unfold TryRetire in Hret. unfold keeps_error. cbn. unfold TerminalError.
    destruct (destination_ r) as [s|s|s] eqn:Hd.
    + simplify_eq. by rewrite Hd.
    + destruct (InMemoryEncodedDestination.TryRetire sequence s) as [x s'] eqn:Hx. simplify_eq.
      destruct (Encoded.encoded_retire_view _ _ _ _ Hx Hok) as [Ho Hv]. cbn. by split_and!.
    + destruct (RawFileSink.TryRetire sequence s) as [x s'] eqn:Hx. simplify_eq.
      destruct (File.file_retire_view _ _ _ _ Hx Hok) as (Ho & He & Hv). cbn. unfold RawFileSink.FailureError.
      rewrite He. by split_and!.
  - intros r mark Hok. cbn in *. unfold SummarizeInFlight. destruct (destination_ r) as [s|s|s].
    + done.
    + apply Encoded.encoded_summarize_view.
    + apply File.file_summarize_view.
Qed.
End Instance.
