(* ===== verification/RuntimeWorld.v ===== *)
(** * A Runtime under interleaving

    [runtime_step] interleaves the worker of [RuntimeDomain.v] with the threads that log,
    register, start operations, observe them and destroy the Runtime, and with the sink's
    own thread. A [World] is the domain, the worlds of its kernel and of its control
    reserve, the worker, the calls of [StartAction] in progress, and a history: the
    deliveries the worker retired and every report that was built. *)
From stdpp Require Import gmap relations.
From S2P Require Import Prelude KernelTypes ThreadRegistry RuntimeConfig RuntimeRoute RouteContract.
From S2P Require Import RuntimeDomain.
From S2P Require Operation ControlReserve ControlRuns ProducerKernel ProducerLanes KernelWorld KernelAccounting RouteTypes.
#[local] Open Scope Z_scope.
#[local] Open Scope ulog_scope.

(** ** The world *)

(** A call of [StartAction] after [TryStart], and after its locked section. *)
Inductive AppCall :=
| CStarted (kind : ControlActionKind) (ref : ControlReserve.NodeRef)
| CImmediate (ref : ControlReserve.NodeRef) (o : Operation.OperationOutcome)
    (report : Operation.OperationReport).

(** A report and the deliveries there were when it was built. *)
Record Completion := {
  c_ref : ControlReserve.NodeRef;
  c_outcome : Operation.OperationOutcome;
  c_report : Operation.OperationReport;
  c_seen : list Delivery;
}.

(** [starts] lists, by operation, its kind and the records accepted when it was started;
    [retirements] the deliveries retired, in order; [remains] those that were in flight
    when the ledger was settled. *)
Record World (R C : Type) := {
  domain : RuntimeDomain R C;
  kernel : KernelWorld.World;
  controls : ControlReserve.World C;
  pc : WorkerPc;
  caller : Caller;
  calls : list AppCall;
  starts : list (ControlActionKind * Z);
  reports : list Completion;
  retirements : list Delivery;
  remains : list Delivery;
}.
Arguments domain {R C}. Arguments kernel {R C}. Arguments controls {R C}. Arguments pc {R C}.
Arguments caller {R C}. Arguments calls {R C}. Arguments starts {R C}. Arguments reports {R C}.
Arguments retirements {R C}. Arguments remains {R C}.

#[export] Instance World_eta R C : Eta (World R C) := fun w =>
  {| domain := domain w; kernel := kernel w; controls := controls w; pc := pc w;
     caller := caller w; calls := calls w; starts := starts w; reports := reports w;
     retirements := retirements w; remains := remains w |}.

Section World.
Context {R C : Type} `{!Route R, !RouteView R}.
Context (gc : Z -> option (list byte)).
Context (self : nat) (identity : Z) (block : nat) (others : nat -> option KernelLifetimeState).
Implicit Types (w : World R C) (d : RuntimeDomain R C).

Definition initial_world d (first_caller : Caller) : World R C :=
  {| domain := d; kernel := KernelWorld.initial_world (kernel_config (config_ d));
     controls := ControlReserve.initial_world (control_reserve_ d); pc := WStart;
     caller := first_caller; calls := []; starts := []; reports := []; retirements := [];
     remains := [] |}.

(** The record whose encoding failed: it is processed and was never in flight. *)
Definition encoding_failure (l : RouteLedger) : list Delivery :=
  match encoding_failed_sequence l with
  | Some sequence => [{| d_sequence := sequence; d_bytes := 0; d_fate := Failed |}]
  | None => []
  end.

(** The retirements a step of the worker adds, and the remains it leaves. *)
Definition retires w : list Delivery :=
  let sequence := retired_records (ledger_ (domain w)) in
  match pc w with
  | WRetired x =>
      [{| d_sequence := sequence; d_bytes := RouteTypes.retired_bytes x;
          d_fate := fate_of (RouteTypes.outcome x) |}]
  | WProcessed result =>
      if was_retired result
      then [{| d_sequence := sequence; d_bytes := encoded_bytes result; d_fate := Delivered |}]
      else []
  | _ => []
  end.

(** What the worker took from the route and has not retired yet. *)
Definition in_hand w : list Delivery := match pc w with WRetired _ => retires w | _ => [] end.

(** The fate of every record the worker took from the kernel. *)
Definition deliveries w : list Delivery :=
  retirements w ++ in_hand w
  ++ (if settled (ledger_ (domain w)) then remains w else route_view (route_ (domain w)))
  ++ encoding_failure (ledger_ (domain w)).

(** A run of the kernel that ends in [k], with no consumption in flight. *)
Definition kernel_run (kw : KernelWorld.World) (k : ProducerKernel.Impl) (kw' : KernelWorld.World)
    : Prop :=
  rtc (KernelWorld.kernel_step gc) kw kw' /\ KernelWorld.impl kw' = k
  /\ KernelWorld.consuming kw' = None.

Definition leaves w : list Delivery :=
  match pc w with WSettle => route_view (route_ (domain w)) | _ => remains w end.

(** The report a step of the worker builds. *)
Definition builds w (next : WorkerPc) : list Completion :=
  match pc w, next with
  | WDrains _, WComplete (Some ref) o report _ | WActions _ _, WComplete (Some ref) o report _ =>
      [{| c_ref := ref; c_outcome := o; c_report := report; c_seen := deliveries w |}]
  | _, _ => []
  end.

(** A step of the worker. *)
Definition worker_moves w (next : WorkerPc) (cl : Caller) d (kw : KernelWorld.World)
    (cw : ControlReserve.World C) : World R C :=
  w <| domain := d |> <| kernel := kw |> <| controls := cw |> <| pc := next |> <| caller := cl |>
    <| reports ::= fun rs => rs ++ builds w next |>
    <| retirements ::= fun ds => ds ++ retires w |> <| remains := leaves w |>.

(** A sample of the accepted count taken during a critical section: not before the last
    one that changed the ledger or registered an action. *)
Definition samples w (accepted : Z) : Prop :=
  processed_records (ledger_ (domain w)) <= accepted <= Accepted (domain w)
  /\ forall a, a ∈ actions_ (domain w) -> active a = true -> watermark a <= accepted.

Inductive runtime_step : World R C -> World R C -> Prop :=
(** Producers log and the kernel moves; only the worker consumes. *)
| rt_kernel w kw' :
    KernelWorld.kernel_step gc (kernel w) kw' -> KernelWorld.consuming kw' = None ->
    KernelWorld.delivered kw' = KernelWorld.delivered (kernel w) ->
    runtime_step w (w <| domain ::= fun d => d <| producer_ := KernelWorld.impl kw' |> |>
                      <| kernel := kw' |>)
(** The sink's thread, or the application, moves the sink. *)
| rt_route w r' :
    route_moves (route_ (domain w)) r' ->
    runtime_step w (w <| domain ::= fun d => d <| route_ := r' |> |>)
(** Handles are dropped, callbacks are registered and run, nodes are recycled. *)
| rt_control w cw' :
    ControlRuns.control_other (controls w) cw' ->
    runtime_step w (w <| domain ::= fun d => d <| control_reserve_ := ControlReserve.domain cw' |> |>
                      <| controls := cw' |>)
(** [StartAction]: [TryStart], the locked section, an immediate completion. *)
| rt_start w kind i generation reserve :
    ControlReserve.TryStart (control_reserve_ (domain w)) = inr (i, generation, reserve) ->
    let ref := {| ControlReserve.node := i; ControlReserve.node_generation := generation;
                  ControlReserve.serial := ControlReserve.started (controls w) |} in
    runtime_step w
      (w <| domain ::= fun d => d <| control_reserve_ := reserve |> |>
         <| controls ::= ControlRuns.begins ref reserve |>
         <| calls ::= cons (CStarted kind ref) |>
         <| starts ::= fun s => s ++ [(kind, Accepted (domain w))] |>)
| rt_locked w before kind ref after base accepted cl immediate cl' d' kw' :
    calls w = before ++ CStarted kind ref :: after ->
    starts w !! ControlReserve.serial ref = Some (kind, base) ->
    samples w accepted -> base <= accepted ->
    StartActionLocked self identity kind accepted (Some ref) cl (domain w) = (immediate, cl', d') ->
    kernel_run (kernel w) (producer_ d') kw' ->
    runtime_step w
      (w <| domain := d' |> <| kernel := kw' |>
         <| calls := match immediate with
                     | Some (o, report) => before ++ CImmediate ref o report :: after
                     | None => before ++ after
                     end |>
         <| reports ::= fun rs => rs ++
              match immediate with
              | Some (o, report) =>
                  [{| c_ref := ref; c_outcome := o; c_report := report; c_seen := deliveries w |}]
              | None => []
              end |>)
| rt_immediate w before ref o report after cw' :
    calls w = before ++ CImmediate ref o report :: after ->
    ControlRuns.completes ref o report (controls w) cw' ->
    runtime_step w (w <| domain ::= CompleteOperation (Some ref) o report |> <| controls := cw' |>
                      <| calls := before ++ after |>)
| rt_notify w : runtime_step w (w <| domain ::= NotifyControl |>)
(** [GetLogger] on any thread. *)
| rt_logger w cl cl' d' kw' :
    GetLogger self identity block others cl (domain w) = (cl', d') ->
    kernel_run (kernel w) (producer_ d') kw' ->
    runtime_step w (w <| domain := d' |> <| kernel := kw' |>)
(** [RequestDestructionStop]: the flag, then the route; closing admission is a kernel step. *)
| rt_destroy w :
    runtime_step w (w <| domain ::= fun d => d <| destruction_stop_requested_ := true |> |>)
| rt_stop w :
    destruction_stop_requested_ (domain w) = true ->
    runtime_step w (w <| domain ::= fun d => d <| route_ ::= route_stop |> |>)
(** The worker. [TryFinishShutdown] compares a count that it reads in the same step. *)
| rt_worker w accepted next cl' d' kw' cw' :
    samples w accepted -> (pc w = WCovered -> accepted = Accepted (domain w)) ->
    WorkerStep self identity accepted (pc w) (caller w) (domain w) = (next, cl', d') ->
    kernel_run (kernel w) (producer_ d') kw' ->
    match pc w with
    | WComplete (Some ref) o report _ => ControlRuns.completes ref o report (controls w) cw'
    | _ => cw' = controls w
    end ->
    runtime_step w (worker_moves w next cl' d' kw' cw').
End World.
