(* ===== verification/RuntimeInvariant.v ===== *)
(** * The ledger of a Runtime and its deliveries

    [counts_inv] ties the ledger to the deliveries: they are of the first sequences, each
    once, the counters are the counts of their fates, and every report is the reference
    report over them. The lemmas are on lists of deliveries and on building a report. *)
From stdpp Require Import gmap relations list_numbers.
From S2P Require Import Prelude KernelTypes RuntimeConfig RuntimeRoute RouteContract RuntimeDomain.
From S2P Require Import RuntimeWorld.
From S2P Require Operation ControlReserve ControlRuns ProducerKernel ProducerLanes KernelWorld KernelAccounting KernelRuns RouteTypes.
#[local] Open Scope Z_scope.
#[local] Open Scope ulog_scope.

(** ** Reports over deliveries *)

(** The counters of the ledger over a list of deliveries. *)
Definition tallies (l : RouteLedger) (ds : list Delivery) : Prop :=
  delivered_records l = w64 (zlen (with_fate Delivered ds))
  /\ delivered_bytes l = w64 (total (with_fate Delivered ds))
  /\ failed_records l = w64 (zlen (with_fate Failed ds))
  /\ failed_bytes l = w64 (total (with_fate Failed ds)).

(** Retired in order: the [i]-th of them has sequence [i], and was delivered or failed. *)
Definition retired_in_order (ds : list Delivery) : Prop :=
  forall i d, ds !! i = Some d ->
    d_sequence d = Z.of_nat i /\ (d_fate d = Delivered \/ d_fate d = Failed).

(** Sums of 64-bit terms, by congruence: the inner reductions are dropped. *)
Lemma w64_drop x x' : w64 x = w64 x' -> w64 (w64 x) = w64 x'.
Proof. by rewrite KernelAccounting.w64_idemp. Qed.

Lemma w64_cong_add x x' y y' : w64 x = w64 x' -> w64 y = w64 y' -> w64 (x + y) = w64 (x' + y').
Proof. unfold w64. intros Hx Hy. by rewrite Z.add_mod, Hx, Hy, <- Z.add_mod by lia. Qed.

Lemma w64_cong_sub x x' y y' : w64 x = w64 x' -> w64 y = w64 y' -> w64 (x - y) = w64 (x' - y').
Proof. unfold w64. intros Hx Hy. by rewrite Zminus_mod, Hx, Hy, <- Zminus_mod. Qed.

Ltac drop64 := repeat first [apply w64_drop | apply w64_cong_sub | apply w64_cong_add]; reflexivity.

Ltac mod64 :=
  match goal with |- w64 _ = w64 _ =>
    etransitivity; [drop64|]; symmetry; etransitivity; [drop64|]; f_equal; lia
  end.

Lemma NoDup_below mark ds : NoDup (d_sequence <$> ds) -> NoDup (d_sequence <$> below mark ds).
Proof.
  unfold below. induction ds as [|d ds IH]; [done|]. intros [Hd Hds]%list.NoDup_cons.
  rewrite list.filter_cons. case_decide; [|by apply IH]. apply list.NoDup_cons. split; [|by apply IH].
  intros (x & Hx & Hin)%list_elem_of_fmap. apply Hd. rewrite Hx.
  apply list_elem_of_fmap_2. by apply list_elem_of_filter in Hin as [_ ?].
Qed.

Lemma zlen_below_le mark ds : first_sequences ds -> 0 <= mark -> zlen (below mark ds) <= mark.
Proof.
  intros Hds Hm. replace mark with (zlen (seqZ 0 mark)) at 2 by (unfold zlen; rewrite length_seqZ; lia).
  unfold zlen. apply inj_le. rewrite <- (length_fmap d_sequence (below mark ds)).
  apply submseteq_length, NoDup_submseteq.
  - apply NoDup_below. unfold first_sequences in Hds. rewrite Hds. apply NoDup_seqZ.
  - intros q (d & -> & Hd)%list_elem_of_fmap. unfold below in Hd.
    apply list_elem_of_filter in Hd as [Hlt Hd]. apply elem_of_seqZ. split; [|lia].
    by apply (first_sequences_elem ds (d_sequence d) Hds); exists d.
Qed.

Lemma decided_split ds :
  (forall d, d ∈ ds -> d_fate d = Delivered \/ d_fate d = Failed) ->
  zlen ds = zlen (with_fate Delivered ds) + zlen (with_fate Failed ds)
  /\ total ds = total (with_fate Delivered ds) + total (with_fate Failed ds).
Proof.
  induction ds as [|d ds IH]; intros H; [done|].
  destruct IH as [IH1 IH2]; [intros x Hx; apply H; by right|].
  change (d :: ds) with ([d] ++ ds). rewrite !with_fate_app, !zlen_app, !total_app, !with_fate_one.
  destruct (H d ltac:(left)) as [-> | ->]; repeat case_decide; try congruence; change (zlen []) with 0;
    change (total []) with 0; lia.
Qed.

Lemma fates_le ds : zlen (with_fate Delivered ds) + zlen (with_fate Failed ds) <= zlen ds.
Proof.
  induction ds as [|d ds IH]; [done|].
  change (d :: ds) with ([d] ++ ds). rewrite !with_fate_app, !zlen_app, !with_fate_one.
  repeat case_decide; try congruence; change (zlen []) with 0; change (zlen [d]) with 1; lia.
Qed.

Section Invariant.
Context {R C : Type} `{!Route R, !RouteView R}.
Implicit Types (w : World R C) (d : RuntimeDomain R C).

(** ** Counts *)

(** The deliveries the ledger has counted as delivered or failed. *)
Definition counted w : list Delivery :=
  retirements w ++ if settled (ledger_ (domain w)) then remains w else [].

(** A delivery in the view that is not processed yet, and its bytes. *)
Definition submitted w : Z :=
  match pc w with WProcessed result => if was_retired result then 0 else 1 | _ => 0 end.

Definition submitted_bytes w : Z :=
  match pc w with
  | WProcessed result => if was_retired result then 0 else encoded_bytes result
  | _ => 0
  end.

(** A record the kernel has given up that is not processed yet. *)
Definition taken w : Z := match pc w with WProcessed _ | WEncodingFailed _ => 1 | _ => 0 end.

(** The places of the worker after [SettleInFlight]. *)
Definition after_settle (p : WorkerPc) : bool :=
  match p with
  | WDiscardRoute | WScan _ _ ThenConsume | WConsume | WExit None | WStop | WDone => true
  | _ => false
  end.

Definition pc_counts (p : WorkerPc) d : Prop :=
  match p with
  | WProcessed result => was_retired result = true -> route_view (route_ d) = []
  | WEncodingFailed sequence => sequence = processed_records (ledger_ d)
  | WDiscardRoute | WScan _ _ ThenConsume | WConsume | WExit None => settled (ledger_ d) = true
  | _ => True
  end.

(** The places of the worker before an encoding failure is recorded. *)
Definition before_failure (p : WorkerPc) : bool :=
  match p with
  | WPrepareFailure | WStopRoute _ | WActions _ _ | WComplete _ _ _ (ToActions _ _) | WSettle
  | WDiscardRoute | WScan _ _ ThenConsume | WConsume | WExit None | WStop | WDone => false
  | _ => true
  end.

Record counts_inv w : Prop := {
  ci_order : retired_in_order (retirements w);
  ci_retired : zlen (retirements w) = retired_records (ledger_ (domain w));
  ci_tallies : tallies (ledger_ (domain w)) (counted w);
  ci_first : first_sequences (deliveries w);
  ci_range : 0 <= processed_records (ledger_ (domain w));
  ci_processed : zlen (deliveries w) = processed_records (ledger_ (domain w)) + submitted w;
  ci_bytes : processed_bytes (ledger_ (domain w)) = w64 (total (deliveries w) - submitted_bytes w);
  ci_encoding : encoding_failed_records (ledger_ (domain w))
                = zlen (encoding_failure (ledger_ (domain w)));
  ci_taken : processed_records (ledger_ (domain w)) + taken w
             <= KernelRuns.consumed (producer_ (domain w));
  ci_unsettled : settled (ledger_ (domain w)) = false ->
    route_ok (route_ (domain w))
    /\ processed_records (ledger_ (domain w)) + taken w = KernelRuns.consumed (producer_ (domain w));
  ci_settled : settled (ledger_ (domain w)) = true -> after_settle (pc w) = true;
  ci_failed : before_failure (pc w) = true -> encoding_failed_sequence (ledger_ (domain w)) = None;
  ci_pc : pc_counts (pc w) (domain w);
}.

(** When a report of [mark] is exact: the ledger may not lag behind the route. *)
Definition reportable w (mark : Z) : Prop :=
  if settled (ledger_ (domain w)) then processed_records (ledger_ (domain w)) <= mark
  else retired_records (ledger_ (domain w)) <= mark
       /\ (mark = retired_records (ledger_ (domain w)) \/ in_hand w = []).

Lemma in_hand_unsettled w : counts_inv w -> settled (ledger_ (domain w)) = true ->
  in_hand w = [] /\ submitted w = 0.
Proof.
  intros Hw Hs. apply (ci_settled w Hw) in Hs. unfold in_hand, submitted. by destruct (pc w).
Qed.

(** What is not retired comes after what is. *)
Lemma unretired_above w x :
  counts_inv w ->
  x ∈ in_hand w ++ (if settled (ledger_ (domain w)) then remains w else route_view (route_ (domain w)))
      ++ encoding_failure (ledger_ (domain w)) ->
  retired_records (ledger_ (domain w)) <= d_sequence x.
Proof.
  intros Hw Hx. pose proof (ci_first w Hw) as Hf.
  destruct (Z.lt_ge_cases (d_sequence x) (retired_records (ledger_ (domain w)))) as [Hlt|]; [exfalso|done].
  assert (x ∈ deliveries w) as Hin by (apply elem_of_app; by right).
  assert (0 <= d_sequence x) as Hpos by (by apply (first_sequences_elem _ _ Hf); exists x).
  pose proof (ci_retired w Hw) as Hr.
  destruct (lookup_lt_is_Some_2 (retirements w) (Z.to_nat (d_sequence x))) as [y Hy];
    [unfold zlen in *; lia|].
  destruct (ci_order w Hw _ _ Hy) as [Hseq _]. rewrite Z2Nat.id in Hseq by done.
  pose proof Hf as Hnd. unfold first_sequences, deliveries in Hnd.
  assert (NoDup (d_sequence <$> deliveries w)) as Hn by (unfold deliveries; rewrite Hnd; apply NoDup_seqZ).
  unfold deliveries in Hn. rewrite fmap_app in Hn. apply list.NoDup_app in Hn as (_ & Hdis & _).
  apply (Hdis (d_sequence x)).
  - rewrite <- Hseq. apply list_elem_of_fmap_2. by eapply list_elem_of_lookup_2.
  - by apply list_elem_of_fmap_2.
Qed.

Lemma retirements_below w mark :
  counts_inv w -> retired_records (ledger_ (domain w)) <= mark ->
  below mark (retirements w) = retirements w.
Proof.
  intros Hw Hm. apply below_all. intros x Hx. apply list_elem_of_lookup in Hx as [i Hi].
  destruct (ci_order w Hw i x Hi) as [-> _]. apply lookup_lt_Some in Hi.
  pose proof (ci_retired w Hw). unfold zlen in *. lia.
Qed.

Lemma retirements_decided w :
  counts_inv w -> forall x, x ∈ retirements w -> d_fate x = Delivered \/ d_fate x = Failed.
Proof. intros Hw x Hx. apply list_elem_of_lookup in Hx as [i Hi]. by apply (ci_order w Hw i). Qed.

(** The failed record counts as failed, and has no bytes. *)
Lemma encoding_failure_counts l mark :
  let ds := below mark (encoding_failure l) in
  with_fate Delivered ds = [] /\ with_fate Failed ds = ds /\ total ds = 0
  /\ zlen ds = match encoding_failed_sequence l with
               | Some sequence => if sequence <? mark then 1 else 0
               | None => 0
               end.
Proof.
  unfold encoding_failure. destruct (encoding_failed_sequence l) as [q|]; [|done].
  rewrite below_one. cbn [d_sequence]. destruct (Z.leb_spec mark q), (Z.ltb_spec q mark); try lia; done.
Qed.

Lemma unsettled_report w mark `{!RouteLaws R} :
  counts_inv w -> zlen (deliveries w) < 2 ^ 64 -> 0 <= mark < 2 ^ 64 ->
  settled (ledger_ (domain w)) = false -> reportable w mark ->
  BuildReportLocked mark (domain w) = report_of mark (deliveries w).
Proof.
  intros Hw Hlen Hmark Hs Hrep. unfold reportable in Hrep. rewrite Hs in Hrep. destruct Hrep as [Hge Hhand].
  destruct (ci_unsettled w Hw Hs) as [Hok _].
  pose proof (ci_tallies w Hw) as Ht. unfold counted in Ht. rewrite Hs, app_nil_r in Ht.
  destruct Ht as (T1 & T2 & T3 & T4).
  set (l := ledger_ (domain w)) in *. set (v := route_view (route_ (domain w))) in *.
  set (rs := retirements w) in *.
  assert (below mark (in_hand w) = [] /\ (retired_records l < mark \/ below mark v = [])) as [Hih Hv].
  { destruct Hhand as [-> | ->].
    - split; [|right]; apply below_none; intros x Hx; apply (unretired_above w x Hw);
        fold l v; rewrite Hs, !elem_of_app; auto.
    - split; [done|]. destruct (Z.eq_dec mark (retired_records l)) as [->|]; [right|left; lia].
      apply below_none. intros x Hx. apply (unretired_above w x Hw). fold l v. rewrite Hs, !elem_of_app. auto. }
  assert (below mark (deliveries w) = rs ++ below mark v ++ below mark (encoding_failure l)) as Hbelow.
  { unfold deliveries. fold l rs v. rewrite Hs, !below_app, Hih. unfold rs.
    by rewrite (retirements_below w mark Hw Hge). }
  assert ((if retired_records l <? mark then route_summarize mark (route_ (domain w))
           else RouteTypes.empty_summary) = summary_of mark v) as Hsum.
  { destruct (Z.ltb_spec (retired_records l) mark); [by apply law_summarize|].
    destruct Hv as [?|Hv]; [lia|]. unfold summary_of. by rewrite Hv. }
  pose proof (zlen_below_le mark (deliveries w) (ci_first w Hw) ltac:(lia)) as Hle.
  pose proof (fates_le (below mark (deliveries w))) as Hfates.
  assert (zlen (below mark (deliveries w)) <= zlen (deliveries w)) as Hsub.
  { unfold zlen, below. apply inj_le, length_filter. }
  destruct (encoding_failure_counts l mark) as (E1 & E2 & E3 & E4).
  destruct (decided_split rs (retirements_decided w Hw)) as [D1 D2].
  unfold BuildReportLocked. fold l. rewrite Hs, Hsum, <- E4. unfold report_of, summary_of.
  rewrite Hbelow in *. rewrite !with_fate_app, E1, E2, app_nil_r in *.
  rewrite !zlen_app, ?total_app, ?E3 in *. cbn.
  pose proof (ci_retired w Hw) as Hr. fold rs l in Hr. rewrite T1, T2, T3, T4, <- Hr.
  pose proof (zlen_nonneg (with_fate Delivered rs)). pose proof (zlen_nonneg (with_fate Failed rs)).
  pose proof (zlen_nonneg (with_fate Delivered (below mark v))).
  pose proof (zlen_nonneg (with_fate Failed (below mark v))).
  pose proof (zlen_nonneg (below mark v)). pose proof (zlen_nonneg (below mark (encoding_failure l))).
  f_equal; first [mod64 | match goal with |- _ = ?x => transitivity (w64 x); [mod64|apply w64_small; lia] end].
Qed.

Lemma settled_report w mark :
  counts_inv w -> zlen (deliveries w) < 2 ^ 64 -> 0 <= mark < 2 ^ 64 ->
  settled (ledger_ (domain w)) = true -> reportable w mark ->
  BuildReportLocked mark (domain w) = report_of mark (deliveries w).
Proof.
  intros Hw Hlen Hmark Hs Hrep. unfold reportable in Hrep. rewrite Hs in Hrep.
  destruct (in_hand_unsettled w Hw Hs) as [Hih Hsub].
  pose proof (ci_processed w Hw) as Hp. rewrite Hsub, Z.add_0_r in Hp.
  pose proof (ci_bytes w Hw) as Hb. pose proof (ci_encoding w Hw) as He.
  pose proof (ci_tallies w Hw) as Ht. unfold counted in Ht. rewrite Hs in Ht.
  destruct Ht as (T1 & T2 & T3 & T4).
  assert (submitted_bytes w = 0) as Hsb.
  { apply (ci_settled w Hw) in Hs. unfold submitted_bytes. by destruct (pc w). }
  rewrite Hsb, Z.sub_0_r in Hb.
  assert (below mark (deliveries w) = deliveries w) as Hbelow.
  { apply below_all. intros x Hx. enough (0 <= d_sequence x < zlen (deliveries w)) by lia.
    apply (first_sequences_elem _ _ (ci_first w Hw)). by exists x. }
  pose proof (zlen_below_le mark (deliveries w) (ci_first w Hw) ltac:(lia)) as Hle.
  rewrite Hbelow in Hle. pose proof (fates_le (deliveries w)) as Hfates.
  destruct (encoding_failure_counts (ledger_ (domain w)) u64_max) as (E1 & E2 & E3 & _).
  assert (below u64_max (encoding_failure (ledger_ (domain w))) = encoding_failure (ledger_ (domain w))) as Hu.
  { apply below_all. intros x Hx.
    assert (0 <= d_sequence x < zlen (deliveries w)); [|unfold u64_max; lia].
    apply (first_sequences_elem _ _ (ci_first w Hw)). exists x. split; [|done].
    unfold deliveries. rewrite !elem_of_app. auto. }
  rewrite Hu in *. unfold BuildReportLocked. rewrite Hs. unfold report_of. rewrite Hbelow.
  assert (deliveries w = (retirements w ++ remains w) ++ encoding_failure (ledger_ (domain w))) as Hd.
  { unfold deliveries. rewrite Hih, Hs. by rewrite <- app_assoc. }
  rewrite <- Hp, Hb, T1, T2, T3, T4, He. rewrite Hd in *.
  set (ds := retirements w ++ remains w) in *.
  rewrite !with_fate_app, E1, E2, app_nil_r, ?zlen_app, ?total_app, ?E3 in *.
  pose proof (zlen_nonneg (with_fate Delivered ds)). pose proof (zlen_nonneg (with_fate Failed ds)).
  pose proof (zlen_nonneg (encoding_failure (ledger_ (domain w)))).
  f_equal; first [reflexivity | mod64
    | match goal with |- _ = ?x => transitivity (w64 x); [mod64|apply w64_small; lia] end].
Qed.

Lemma report_exact w mark `{!RouteLaws R} :
  counts_inv w -> zlen (deliveries w) < 2 ^ 64 -> 0 <= mark < 2 ^ 64 -> reportable w mark ->
  BuildReportLocked mark (domain w) = report_of mark (deliveries w).
Proof.
  intros. destruct (settled (ledger_ (domain w))) eqn:?; [by apply settled_report|by apply unsettled_report].
Qed.

(** ** Steps that only let deliveries be decided *)

Lemma progressed_facts v v' :
  progressed v v' -> d_sequence <$> v' = d_sequence <$> v /\ total v' = total v /\ zlen v' = zlen v.
Proof.
  induction 1 as [|d d' v v' (H1 & H2 & _) _ (I1 & I2 & I3)]; [done|].
  unfold total, zlen in *. cbn. split_and!; [by f_equal|lia|lia].
Qed.

Record counts_step w w' : Prop := {
  cs_ghost : retirements w' = retirements w /\ remains w' = remains w;
  cs_ledger : ledger_ (domain w') = ledger_ (domain w);
  cs_hand : in_hand w' = in_hand w;
  cs_submitted : submitted w' = submitted w /\ submitted_bytes w' = submitted_bytes w;
  cs_taken : taken w' = taken w;
  cs_consumed : KernelRuns.consumed (producer_ (domain w))
                <= KernelRuns.consumed (producer_ (domain w'));
  cs_unsettled : settled (ledger_ (domain w)) = false ->
    steady (route_ (domain w)) (route_ (domain w'))
    /\ KernelRuns.consumed (producer_ (domain w')) = KernelRuns.consumed (producer_ (domain w));
  cs_settled : settled (ledger_ (domain w)) = true -> after_settle (pc w') = true;
  cs_failed : before_failure (pc w') = true -> before_failure (pc w) = true;
  cs_pc : pc_counts (pc w') (domain w');
}.

Lemma counts_step_deliveries w w' :
  counts_step w w' ->
  d_sequence <$> deliveries w' = d_sequence <$> deliveries w
  /\ total (deliveries w') = total (deliveries w) /\ zlen (deliveries w') = zlen (deliveries w)
  /\ past (deliveries w) (deliveries w').
Proof.
  intros [[Hr Hm] Hl Hh _ _ _ Hu _ _ _].
  set (part w := if settled (ledger_ (domain w)) then remains w else route_view (route_ (domain w))).
  assert (progressed (part w) (part w')) as Hv.
  { unfold part. rewrite Hl, Hm. destruct (settled _); [|by apply Hu].
    induction (remains w); by constructor. }
  change (deliveries w') with (retirements w' ++ in_hand w' ++ part w' ++ encoding_failure (ledger_ (domain w'))).
  change (deliveries w) with (retirements w ++ in_hand w ++ part w ++ encoding_failure (ledger_ (domain w))).
  rewrite Hr, Hh, Hl. pose proof (progressed_past _ _ Hv) as Hp.
  destruct (progressed_facts _ _ Hv) as (H1 & H2 & H3).
  rewrite !fmap_app, !total_app, !zlen_app, H1, H2, H3. split_and!; [done..|].
  repeat apply past_app; done.
Qed.

Lemma counts_step_inv w w' : counts_step w w' -> counts_inv w -> counts_inv w'.
Proof.
  intros Hs Hw. destruct (counts_step_deliveries w w' Hs) as (Hseq & Htot & Hlen & _).
  destruct Hs as [[Hr Hm] Hl Hh [Hsub Hsb] Htk Hc Hu Hst Hf Hpc], Hw as [O1 O2 O3 O4 O0 O5 O6 O7 O8 O9 O10 O11 O12].
  constructor; rewrite ?Hl, ?Hr, ?Hsub, ?Hsb, ?Htk, ?Hlen, ?Htot; try done.
  - unfold counted. by rewrite Hr, Hm, Hl.
  - unfold first_sequences. by rewrite Hseq, Hlen.
  - lia.
  - intros Hset. destruct (O9 Hset) as [Hok Heq], (Hu Hset) as [[Hok' _] Hc']. split; [done|lia].
  - intros Hb. by apply O11, Hf.
Qed.

(** The deliveries are permuted, or one of them is added. *)
Lemma counts_perm_inv w w' :
  retirements w' = retirements w -> remains w' = remains w ->
  ledger_ (domain w') = ledger_ (domain w) -> settled (ledger_ (domain w)) = false ->
  submitted w' = submitted w -> submitted_bytes w' = submitted_bytes w -> taken w' = taken w ->
  KernelRuns.consumed (producer_ (domain w')) = KernelRuns.consumed (producer_ (domain w)) ->
  route_ok (route_ (domain w')) -> before_failure (pc w) = true -> pc_counts (pc w') (domain w') ->
  deliveries w' ≡ₚ deliveries w -> counts_inv w -> counts_inv w'.
Proof.
  intros Hr Hm Hl Hset Hsub Hsb Htk Hc Hok Hbf Hpc Hd [O1 O2 O3 O4 O0 O5 O6 O7 O8 O9 O10 O11 O12].
  constructor; rewrite ?Hl, ?Hr, ?Hsub, ?Hsb, ?Htk, ?Hd, ?Hc; try done.
  - unfold counted. by rewrite Hr, Hm, Hl.
  - by eapply first_sequences_perm.
  - intros _. split; [done|by apply O9].
  - congruence.
  - intros _. by apply O11.
Qed.
End Invariant.
