(* ===== verification/RuntimeSteps.v ===== *)
(** * What the steps of a Runtime do to its ledger

    Each operation of [RuntimeDomain.v] keeps [counts_inv], and a step of any thread only
    adds deliveries and decides those that were pending. *)
From stdpp Require Import gmap relations list_numbers.
From S2P Require Import Prelude KernelTypes ThreadRegistry RuntimeConfig RuntimeRoute RouteContract RuntimeDomain.
From S2P Require Import RuntimeWorld RuntimeInvariant.
From S2P Require Operation ControlReserve ControlRuns ProducerKernel ProducerLanes KernelWorld KernelAccounting KernelRuns RouteTypes.
#[local] Open Scope Z_scope.
#[local] Open Scope ulog_scope.
#[local] Existing Instance KernelRuns.administers_preorder.

Section Steps.
Context {R C : Type} `{!Route R, !RouteView R, !RouteLaws R}.
Context (gc : Z -> option (list byte)).
Context (self : nat) (identity : Z) (block : nat) (others : nat -> option KernelLifetimeState).
Implicit Types (w : World R C) (d : RuntimeDomain R C).

(** ** Critical sections that reach the kernel *)

Lemma reset_registrations_administers l s :
  KernelRuns.administers gc (ProducerKernel.kernel s)
    (ProducerKernel.kernel (ResetRegistrations self identity l s)).
Proof.
  revert s. induction l as [|[registration|] l IH]; intros s; [done| |apply IH].
  cbn [ResetRegistrations]. etrans; [apply (KernelRuns.reset_registration_administers gc self identity)|apply IH].
Qed.

Lemma close_locked cl d cl' d' :
  CloseAdmissionLocked self identity cl d = (cl', d') ->
  exists k rs, d' = d <| producer_ := k |> <| registrations_ := rs |>
    /\ KernelRuns.administers gc (producer_ d) k /\ KernelRuns.closed k.
Proof.
  unfold CloseAdmissionLocked, called. intros [= <- <-].
  set (k1 := ProducerKernel.CloseAdmission (producer_ d)).
  set (s := call_of cl (d <| producer_ := k1 |>)).
  pose proof (reset_registrations_administers (registrations_ d) s) as H.
  exists (ProducerKernel.kernel (ResetRegistrations self identity (registrations_ d) s)),
    ((fun _ => None) <$> registrations_ d).
  split; [by destruct d|]. split.
  - etrans; [apply KernelRuns.close_administers|exact H].
  - apply (KernelRuns.administers_closed gc k1); [exact H|]. unfold k1, KernelRuns.closed, ProducerKernel.IsAdmissionOpen,
      ProducerKernel.CloseAdmission, ProducerKernel.Notify. by case_match.
Qed.

Lemma logger_section cl d cl' d' :
  GetLogger self identity block others cl d = (cl', d') ->
  exists k rs, d' = d <| producer_ := k |> <| registrations_ := rs |>
    /\ KernelRuns.administers gc (producer_ d) k.
Proof.
  unfold GetLogger, called. destruct (negb _ || negb _).
  { intros [= <- <-]. exists (producer_ d), (registrations_ d). by destruct d. }
  pose proof (KernelRuns.register_administers gc self identity block others (call_of cl d)) as H.
  destruct (ProducerKernel.TryRegisterProducer _ _ _ _ _) as [registration s]. cbn [snd] in H.
  destruct (negb (ProducerKernel.reg_owner registration)).
  { intros [= <- <-]. exists (ProducerKernel.kernel s), (registrations_ d). by destruct d. }
  destruct (first_index _ _) as [i|]; intros [= <- <-].
  - exists (ProducerKernel.kernel s), (<[i := Some registration]> (registrations_ d)).
    split; [by destruct d|done].
  - eexists (ProducerKernel.kernel _), (registrations_ d). split; [by destruct d|]. etrans; [exact H|].
    apply (KernelRuns.reset_registration_administers gc self identity).
Qed.

(** ** The worker and the counts *)

Record kernel_inv w : Prop := {
  ki_impl : KernelWorld.impl (kernel w) = producer_ (domain w);
  ki_idle : KernelWorld.consuming (kernel w) = None;
  ki_inv : KernelWorld.world_inv gc (kernel w);
  ki_bound : zlen (KernelWorld.history (kernel w)) < 2 ^ 64;
}.

Lemma kernel_counts w :
  kernel_inv w -> 0 <= KernelRuns.consumed (producer_ (domain w)) <= Accepted (domain w)
    /\ Accepted (domain w) = zlen (KernelWorld.history (kernel w)).
Proof.
  intros [Hi _ Hinv _]. destruct (KernelRuns.counts_history gc _ Hinv) as (Ha & Hc & Hle).
  rewrite Hi in *. change (Accepted (domain w)) with (KernelRuns.accepted (producer_ (domain w))).
  rewrite Hc. split; [|done]. split; [apply zlen_nonneg|lia].
Qed.

(** The worlds the worker moves to. *)
Section Counts.
Context (w : World R C) (cl' : Caller) (kw' : KernelWorld.World) (cw' : ControlReserve.World C).
Context (Hk : kernel_inv w) (Hw : counts_inv w).

Let moved next d := worker_moves w next cl' d kw' cw'.

Lemma unsettled_before : after_settle (pc w) = false -> settled (ledger_ (domain w)) = false.
Proof. intros Ha. apply not_true_is_false. intros Hs%(ci_settled w Hw). congruence. Qed.

(** Places where the ledger, the view and the kernel agree. *)
Definition level_pc (p : WorkerPc) : bool :=
  match p with WRetired _ | WProcessed _ | WEncodingFailed _ => false | _ => true end.

(** A step between such places that keeps the ledger. *)
Lemma level_step next d :
  level_pc (pc w) = true -> pc w <> WSettle -> level_pc next = true -> ledger_ d = ledger_ (domain w) ->
  KernelRuns.consumed (producer_ (domain w)) <= KernelRuns.consumed (producer_ d) ->
  (settled (ledger_ (domain w)) = false -> steady (route_ (domain w)) (route_ d)
     /\ KernelRuns.consumed (producer_ d) = KernelRuns.consumed (producer_ (domain w))) ->
  (after_settle (pc w) = true -> after_settle next = true) ->
  (before_failure next = true -> before_failure (pc w) = true) -> pc_counts next d ->
  counts_inv (moved next d) /\ past (deliveries w) (deliveries (moved next d)).
Proof.
  intros Hl Hset Hn Hled Hc Hu Ha Hf Hpn.
  assert (retires w = [] /\ leaves w = remains w /\ in_hand w = [] /\ submitted w = 0
    /\ submitted_bytes w = 0 /\ taken w = 0) as (E1 & E2 & E3 & E4 & E5 & E6).
  { unfold retires, leaves, in_hand, submitted, submitted_bytes, taken. by destruct (pc w). }
  assert (counts_step w (moved next d)) as Hs.
  { constructor; try done.
    - cbn. by rewrite E1, E2, app_nil_r.
    - rewrite E3. unfold in_hand. cbn. by destruct next.
    - rewrite E4, E5. unfold submitted, submitted_bytes. cbn. by destruct next.
    - rewrite E6. unfold taken. cbn. by destruct next.
    - intros Hs. by apply Ha, (ci_settled w Hw). }
  split; [by apply (counts_step_inv w)|by apply counts_step_deliveries].
Qed.

(** [TryRetire] takes a delivery out of the view. *)
Lemma retire_counts x r :
  pc w = WRetire -> route_try_retire (retired_records (ledger_ (domain w))) (route_ (domain w)) = (Some x, r) ->
  counts_inv (moved (WRetired x) (domain w <| route_ := r |>))
  /\ past (deliveries w) (deliveries (moved (WRetired x) (domain w <| route_ := r |>))).
Proof.
  intros Hpc Hret. pose proof (unsettled_before ltac:(by rewrite Hpc)) as Hs.
  destruct (ci_unsettled w Hw Hs) as [Hok _]. destruct (law_retire _ _ _ _ Hok Hret) as (Hok' & _ & Hv).
  set (w' := moved _ _).
  assert (deliveries w' ≡ₚ deliveries w) as Hd.
  { unfold deliveries, in_hand. cbn. unfold retires, leaves. rewrite Hpc. cbn. rewrite Hs, app_nil_r.
    cbn in Hv. rewrite Hv. solve_Permutation. }
  split; [|by apply past_perm]. apply (counts_perm_inv w); try done; try (cbn; unfold submitted,
    submitted_bytes, taken, retires, leaves; cbn; by rewrite Hpc, ?app_nil_r).
Qed.

Lemma tallies_snoc l ds x o :
  tallies l ds -> d_fate x = fate_of o ->
  tallies (match o with
           | RouteTypes.kDelivered =>
               l <| delivered_records ::= fun n => n +w 1 |>
                 <| delivered_bytes ::= fun n => n +w d_bytes x |>
           | RouteTypes.kFailed =>
               l <| failed_records ::= fun n => n +w 1 |>
                 <| failed_bytes ::= fun n => n +w d_bytes x |>
           end) (ds ++ [x]).
Proof.
  intros (T1 & T2 & T3 & T4) Hf. unfold tallies. rewrite !with_fate_app, !with_fate_one, Hf.
  destruct o; cbn [fate_of]; repeat case_decide; try congruence;
    rewrite ?app_nil_r, ?zlen_app, ?total_app, ?zlen_one, ?total_one; cbn;
    rewrite ?T1, ?T2, ?T3, ?T4; split_and!; first [done | mod64].
Qed.

Lemma tallies_same l l' ds :
  delivered_records l' = delivered_records l -> delivered_bytes l' = delivered_bytes l ->
  failed_records l' = failed_records l -> failed_bytes l' = failed_bytes l ->
  tallies l ds -> tallies l' ds.
Proof. unfold tallies. by intros -> -> -> ->. Qed.

Lemma in_order_snoc ds x :
  retired_in_order ds -> d_sequence x = zlen ds -> d_fate x = Delivered \/ d_fate x = Failed ->
  retired_in_order (ds ++ [x]).
Proof.
  intros Hds Hx Hf i d [Hi|[Hle Hi]]%lookup_app_Some; [by apply Hds|].
  apply list_lookup_singleton_Some in Hi as [Hz <-]. split; [|done]. rewrite Hx. unfold zlen. lia.
Qed.

Lemma deliveries_bound : zlen (deliveries w) < 2 ^ 64.
Proof.
  pose proof (kernel_counts w Hk) as [Hc Ha]. pose proof (ki_bound w Hk).
  pose proof (ci_processed w Hw). pose proof (ci_taken w Hw).
  assert (submitted w <= taken w); [|lia]. unfold submitted, taken. destruct (pc w); try lia. case_match; lia.
Qed.

(** [RecordRetirement] *)
Lemma retirement_counts x :
  pc w = WRetired x ->
  counts_inv (moved (WDecided x) (RecordRetirement x (domain w)))
  /\ deliveries (moved (WDecided x) (RecordRetirement x (domain w))) = deliveries w.
Proof.
  intros Hpc. pose proof (unsettled_before ltac:(by rewrite Hpc)) as Hs. set (w' := moved _ _).
  pose proof deliveries_bound as Hb. pose proof Hw as [O1 O2 O3 O4 O0 O5 O6 O7 O8 O9 O10 O11 O12].
  assert (processed_records (ledger_ (domain w')) = processed_records (ledger_ (domain w))
    /\ processed_bytes (ledger_ (domain w')) = processed_bytes (ledger_ (domain w))
    /\ encoding_failed_records (ledger_ (domain w')) = encoding_failed_records (ledger_ (domain w))
    /\ encoding_failed_sequence (ledger_ (domain w')) = encoding_failed_sequence (ledger_ (domain w))
    /\ settled (ledger_ (domain w')) = settled (ledger_ (domain w))
    /\ retired_records (ledger_ (domain w')) = retired_records (ledger_ (domain w)) +w 1)
    as (P1 & P2 & P3 & P4 & P5 & P6).
  { cbn. by destruct (RouteTypes.outcome x). }
  assert (encoding_failure (ledger_ (domain w')) = encoding_failure (ledger_ (domain w))) as P7.
  { unfold encoding_failure. by rewrite P4. }
  set (dx := {| d_sequence := retired_records (ledger_ (domain w)); d_bytes := RouteTypes.retired_bytes x;
                d_fate := fate_of (RouteTypes.outcome x) |}).
  assert (retirements w' = retirements w ++ [dx] /\ remains w' = remains w /\ in_hand w = [dx]
    /\ in_hand w' = []) as (R1 & R2 & R3 & R4).
  { unfold w', moved, worker_moves, in_hand, retires, leaves. cbn. by rewrite Hpc. }
  assert (deliveries w' = deliveries w) as Hd.
  { unfold deliveries. rewrite R1, R2, R3, R4, P5, P7, Hs. by rewrite <- app_assoc. }
  assert (zlen (retirements w) + 1 <= zlen (deliveries w)) as Hle.
  { unfold deliveries. rewrite R3, !zlen_app. change (zlen [dx]) with 1.
    pose proof (zlen_nonneg (if settled (ledger_ (domain w)) then remains w else route_view (route_ (domain w)))).
    pose proof (zlen_nonneg (encoding_failure (ledger_ (domain w)))). lia. }
  split; [|done].
  assert (submitted w = 0 /\ submitted_bytes w = 0 /\ taken w = 0 /\ submitted w' = 0
    /\ submitted_bytes w' = 0 /\ taken w' = 0) as (S1 & S2 & S3 & S4 & S5 & S6).
  { unfold submitted, submitted_bytes, taken. rewrite Hpc. by cbn. }
  rewrite S1, S2, S3 in *.
  constructor; rewrite ?Hd, ?P1, ?P2, ?P3, ?P5, ?P6, ?P7, ?R1, ?S4, ?S5, ?S6; try done.
  - apply in_order_snoc; [done|done|]. cbn. destruct (RouteTypes.outcome x); auto.
  - rewrite zlen_app, O2. change (zlen [dx]) with 1. rewrite w64_small; [done|].
    pose proof (zlen_nonneg (retirements w)). lia.
  - unfold counted in *. rewrite P5, Hs, app_nil_r in *. rewrite R1.
    eapply tallies_same; [..|apply (tallies_snoc _ _ dx (RouteTypes.outcome x) O3 eq_refl)];
      cbn; by destruct (RouteTypes.outcome x).
  - congruence.
  - intros _. etrans; [exact P4|]. apply O11. by rewrite Hpc.
Qed.

(** [RecordProcessed] of a delivery in flight. *)
Lemma processed_counts next result :
  pc w = WProcessed result -> was_retired result = false -> next = WHead \/ next = WDrains ThenHead ->
  counts_inv (moved next (RecordProcessed result (domain w)))
  /\ deliveries (moved next (RecordProcessed result (domain w))) = deliveries w.
Proof.
  intros Hpc Hret Hn. pose proof (unsettled_before ltac:(by rewrite Hpc)) as Hs. set (w' := moved _ _).
  pose proof deliveries_bound as Hb. pose proof Hw as [O1 O2 O3 O4 O0 O5 O6 O7 O8 O9 O10 O11 O12].
  assert (ledger_ (domain w') = ledger_ (domain w) <| processed_records ::= fun n => n +w 1 |>
            <| processed_bytes ::= fun n => n +w encoded_bytes result |>) as Hl.
  { cbn. unfold RecordProcessed. by rewrite Hret. }
  assert (route_ (domain w') = route_ (domain w) /\ producer_ (domain w') = producer_ (domain w)) as [Hr Hp].
  { cbn. unfold RecordProcessed. by rewrite Hret. }
  assert (retirements w' = retirements w /\ remains w' = remains w /\ in_hand w = [] /\ in_hand w' = []
    /\ submitted w = 1 /\ submitted_bytes w = encoded_bytes result /\ taken w = 1 /\ submitted w' = 0
    /\ submitted_bytes w' = 0 /\ taken w' = 0) as (R1 & R2 & R3 & R4 & S1 & S2 & S3 & S4 & S5 & S6).
  { unfold w', moved, worker_moves, in_hand, submitted, submitted_bytes, taken, retires, leaves. cbn.
    rewrite Hpc, Hret. cbn. rewrite app_nil_r. by destruct Hn as [-> | ->]. }
  assert (deliveries w' = deliveries w) as Hd.
  { unfold deliveries. by rewrite R1, R2, R3, R4, Hl, Hr. }
  split; [|done]. rewrite S1, S2, S3 in *. pose proof (zlen_nonneg (retirements w)).
  pose proof (zlen_nonneg (deliveries w)) as Hpos.
  assert (processed_records (ledger_ (domain w')) = processed_records (ledger_ (domain w)) + 1) as Hpn.
  { rewrite Hl. cbn. apply w64_small. lia. }
  constructor; rewrite ?Hd, ?Hpn, ?R1, ?S4, ?S5, ?S6, ?Hp, ?Hr; rewrite ?Hl; try done.
  - unfold counted in *. by rewrite R1, R2, Hl.
  - lia.
  - lia.
  - cbn. rewrite O6. mod64.
  - lia.
  - intros _. destruct (O9 Hs). split; [done|lia].
  - cbn. congruence.
  - intros _. apply O11. by rewrite Hpc.
  - cbn. by destruct Hn as [-> | ->].
Qed.

(** A route that retires at once holds nothing, so all that is processed is retired. *)
Lemma retired_at_once_counts next result :
  pc w = WProcessed result -> was_retired result = true -> next = WHead \/ next = WDrains ThenHead ->
  counts_inv (moved next (RecordProcessed result (domain w)))
  /\ past (deliveries w) (deliveries (moved next (RecordProcessed result (domain w)))).
Proof.
  intros Hpc Hret Hn. pose proof (unsettled_before ltac:(by rewrite Hpc)) as Hs. set (w' := moved _ _).
  pose proof deliveries_bound as Hb. pose proof (ki_bound w Hk) as Hkb.
  pose proof (kernel_counts w Hk) as [Hkc Hka].
  pose proof Hw as [O1 O2 O3 O4 O0 O5 O6 O7 O8 O9 O10 O11 O12]. rewrite Hpc in O11, O12.
  specialize (O11 eq_refl). specialize (O12 Hret).
  set (dx := {| d_sequence := retired_records (ledger_ (domain w)); d_bytes := encoded_bytes result;
                d_fate := Delivered |}).
  assert (retirements w' = retirements w ++ [dx] /\ remains w' = remains w /\ in_hand w = [] /\ in_hand w' = []
    /\ submitted w = 0 /\ submitted_bytes w = 0 /\ taken w = 1 /\ submitted w' = 0
    /\ submitted_bytes w' = 0 /\ taken w' = 0) as (R1 & R2 & R3 & R4 & S1 & S2 & S3 & S4 & S5 & S6).
  { unfold w', moved, worker_moves, in_hand, submitted, submitted_bytes, taken, retires, leaves. cbn.
    rewrite Hpc, Hret. cbn. by destruct Hn as [-> | ->]. }
  assert (ledger_ (domain w') =
    (ledger_ (domain w) <| processed_records ::= fun n => n +w 1 |>
       <| processed_bytes ::= fun n => n +w encoded_bytes result |>)
       <| retired_records ::= fun n => n +w 1 |> <| delivered_records ::= fun n => n +w 1 |>
       <| delivered_bytes ::= fun n => n +w encoded_bytes result |>) as Hl.
  { cbn. unfold RecordProcessed. by rewrite Hret. }
  assert (route_ (domain w') = route_ (domain w) /\ producer_ (domain w') = producer_ (domain w)) as [Hr Hp].
  { cbn. unfold RecordProcessed. by rewrite Hret. }
  assert (encoding_failure (ledger_ (domain w)) = []) as He by (unfold encoding_failure; by rewrite O11).
  assert (deliveries w = retirements w) as Hd.
  { unfold deliveries. by rewrite R3, Hs, O12, He, app_nil_r. }
  assert (deliveries w' = deliveries w ++ [dx]) as Hd'.
  { rewrite Hd. unfold deliveries. rewrite R1, R4, Hl, Hr. cbn. rewrite Hs, O12.
    change (encoding_failure _) with (encoding_failure (ledger_ (domain w))). by rewrite He, app_nil_r. }
  rewrite S1, S2, S3 in *. rewrite Hd in *.
  assert (zlen (deliveries w') = zlen (retirements w) + 1) as Hlen' by (by rewrite Hd', zlen_app).
  assert (processed_records (ledger_ (domain w')) = processed_records (ledger_ (domain w)) + 1
    /\ retired_records (ledger_ (domain w')) = retired_records (ledger_ (domain w)) + 1) as [Hpn Hrn].
  { rewrite Hl. cbn. split; apply w64_small; lia. }
  split.
  2: { rewrite Hd'. intros x Hx _. apply elem_of_app. by left. }
  constructor; rewrite ?Hlen', ?Hpn, ?Hrn, ?S4, ?S5, ?S6, ?Hp, ?Hr; try done.
  - rewrite R1. apply in_order_snoc; [done|done|by left].
  - rewrite R1, zlen_app, O2. done.
  - unfold counted in *. rewrite R1, R2, Hl. cbn [settled modify]. rewrite Hs, app_nil_r in *.
    eapply tallies_same; [..|apply (tallies_snoc _ _ dx RouteTypes.kDelivered O3 eq_refl)]; done.
  - rewrite Hd'. apply first_sequences_snoc; [done|]. cbn. lia.
  - lia.
  - lia.
  - rewrite Hd', total_app, total_one, Hl. cbn. rewrite O6. mod64.
  - rewrite Hl. done.
  - lia.
  - intros _. destruct (O9 Hs). split; [done|lia].
  - rewrite Hl. cbn. congruence.
  - intros _. by rewrite Hl.
  - cbn. by destruct Hn as [-> | ->].
Qed.

(** [RecordEncodingFailure] *)
Lemma encoding_counts sequence :
  pc w = WEncodingFailed sequence ->
  counts_inv (moved WPrepareFailure (RecordEncodingFailure sequence (domain w)))
  /\ past (deliveries w) (deliveries (moved WPrepareFailure (RecordEncodingFailure sequence (domain w)))).
Proof.
  intros Hpc. pose proof (unsettled_before ltac:(by rewrite Hpc)) as Hs. set (w' := moved _ _).
  pose proof deliveries_bound as Hb. pose proof (ki_bound w Hk) as Hkb.
  pose proof (kernel_counts w Hk) as [Hkc Hka].
  pose proof Hw as [O1 O2 O3 O4 O0 O5 O6 O7 O8 O9 O10 O11 O12]. rewrite Hpc in O11, O12.
  specialize (O11 eq_refl). cbn in O12.
  set (dx := {| d_sequence := sequence; d_bytes := 0; d_fate := Failed |}).
  assert (retirements w' = retirements w /\ remains w' = remains w /\ in_hand w = [] /\ in_hand w' = []
    /\ submitted w = 0 /\ submitted_bytes w = 0 /\ taken w = 1) as (R1 & R2 & R3 & R4 & S1 & S2 & S3).
  { unfold w', moved, worker_moves, in_hand, submitted, submitted_bytes, taken, retires, leaves. cbn.
    by rewrite Hpc, app_nil_r. }
  assert (encoding_failure (ledger_ (domain w)) = []) as He by (unfold encoding_failure; by rewrite O11).
  assert (deliveries w' = deliveries w ++ [dx]) as Hd'.
  { unfold deliveries. rewrite R1, R3, R4, He. cbn. by rewrite Hs, app_nil_r, app_assoc. }
  rewrite S1, S2, S3 in *. rewrite He in O7.
  assert (processed_records (ledger_ (domain w')) = processed_records (ledger_ (domain w)) + 1) as Hpn.
  { cbn. apply w64_small. lia. }
  split.
  2: { rewrite Hd'. intros x Hx _. apply elem_of_app. by left. }
  constructor; rewrite ?Hpn, ?R1; try done.
  - unfold counted in *. rewrite R1, R2. eapply tallies_same; [..|exact O3]; done.
  - rewrite Hd'. apply first_sequences_snoc; [done|]. cbn. lia.
  - lia.
  - rewrite Hd', zlen_app. change (zlen [dx]) with 1. cbn. lia.
  - rewrite Hd', total_app, total_one. cbn. rewrite O6. mod64.
  - cbn. rewrite O7. done.
  - cbn. lia.
  - intros _. destruct (O9 Hs). split; [done|]. cbn. lia.
  - cbn. congruence.
Qed.

(** [SettleInFlight] *)
Lemma settle_counts :
  pc w = WSettle ->
  counts_inv (moved WDiscardRoute (SettleLocked (domain w)))
  /\ deliveries (moved WDiscardRoute (SettleLocked (domain w))) = deliveries w.
Proof.
  intros Hpc. pose proof (unsettled_before ltac:(by rewrite Hpc)) as Hs. set (w' := moved _ _).
  pose proof deliveries_bound as Hb. pose proof Hw as [O1 O2 O3 O4 O0 O5 O6 O7 O8 O9 O10 O11 O12].
  destruct (O9 Hs) as [Hok Hcon].
  assert (retirements w' = retirements w /\ remains w' = route_view (route_ (domain w)) /\ in_hand w = []
    /\ in_hand w' = [] /\ submitted w = 0 /\ submitted_bytes w = 0 /\ taken w = 0)
    as (R1 & R2 & R3 & R4 & S1 & S2 & S3).
  { unfold w', moved, worker_moves, in_hand, submitted, submitted_bytes, taken, retires, leaves. cbn.
    by rewrite Hpc, app_nil_r. }
  assert (deliveries w' = deliveries w) as Hd.
  { unfold deliveries. by rewrite R1, R2, R3, R4, Hs. }
  assert (below u64_max (route_view (route_ (domain w))) = route_view (route_ (domain w))) as Hbelow.
  { apply below_all. intros x Hx. assert (0 <= d_sequence x < zlen (deliveries w)); [|unfold u64_max; lia].
    apply (first_sequences_elem _ _ O4). exists x. split; [|done]. unfold deliveries.
    rewrite Hs, !elem_of_app. auto. }
  split; [|done]. rewrite S1, S2, S3 in *. constructor; rewrite ?Hd, ?R1; try done.
  unfold counted in *. rewrite R1, R2. rewrite Hs, app_nil_r in O3. destruct O3 as (T1 & T2 & T3 & T4).
  pose proof (law_summarize _ u64_max Hok) as Hsum. unfold tallies. cbn.
  rewrite Hsum. unfold summary_of. rewrite Hbelow. cbn.
  rewrite T1, T2, T3, T4, !with_fate_app, !zlen_app, !total_app. split_and!; mod64.
Qed.

(** [Deliver]: the sequence of the record is the number of records processed. *)
Definition after_delivery (result : RouteDeliveryResult) : WorkerPc :=
  if negb (is_record (consumed result)) then WWait
  else if was_submitted result then WProcessed result else WEncodingFailed (admission_sequence result).

Lemma delivery_counts result k r :
  pc w = WDeliver -> route_deliver (producer_ (domain w)) (route_ (domain w)) = (result, k, r) ->
  let d := domain w <| producer_ := k |> <| route_ := r |> in
  counts_inv (moved (after_delivery result) d)
  /\ past (deliveries w) (deliveries (moved (after_delivery result) d))
  /\ KernelRuns.accepted k = Accepted (domain w).
Proof.
  intros Hpc Hdel d. pose proof (unsettled_before ltac:(by rewrite Hpc)) as Hs. set (w' := moved _ _).
  pose proof Hw as [O1 O2 O3 O4 O0 O5 O6 O7 O8 O9 O10 O11 O12]. destruct (O9 Hs) as [Hok Hcon].
  destruct (law_deliver _ _ _ _ _ Hok Hdel) as (Hok' & _ & Hcase).
  assert (retirements w' = retirements w /\ remains w' = remains w /\ in_hand w = []
    /\ submitted w = 0 /\ submitted_bytes w = 0 /\ taken w = 0) as (R1 & R2 & R3 & S1 & S2 & S3).
  { unfold w', moved, worker_moves, in_hand, submitted, submitted_bytes, taken, retires, leaves. cbn.
    by rewrite Hpc, app_nil_r. }
  assert (in_hand w' = []) as R4.
  { unfold in_hand, retires. cbn. unfold after_delivery. by repeat case_match. }
  assert (deliveries w' ≡ₚ retirements w ++ route_view r ++ encoding_failure (ledger_ (domain w))
    /\ deliveries w = retirements w ++ route_view (route_ (domain w)) ++ encoding_failure (ledger_ (domain w)))
    as [D1 D2].
  { unfold deliveries. rewrite R1, R3, R4. cbn. by rewrite Hs. }
  assert (after_delivery result = WWait -> KernelRuns.consumed k = KernelRuns.consumed (producer_ (domain w)) ->
    route_view r ≡ₚ route_view (route_ (domain w)) -> counts_inv w' /\ past (deliveries w) (deliveries w'))
    as Hsame.
  { intros Hn Hc Hv. assert (deliveries w' ≡ₚ deliveries w) as Hd.
    { rewrite D1, D2. by rewrite Hv. }
    split; [|by apply past_perm]. apply (counts_perm_inv w); try done;
      rewrite ?S1, ?S2, ?S3, ?Hpc; unfold submitted, submitted_bytes, taken; cbn; by rewrite ?Hn. }
  destruct Hcase as [(-> & -> & Hv)|(call & Hcons & Hst)].
  { split_and!; [..|done]; by apply Hsame. }
  destruct Hk as [Ki Ka Kinv Kb]. rewrite <- Ki in Hcons.
  destruct (KernelRuns.consume_counts gc _ _ _ _ Kinv Kb Ka Hcons) as [Hacc Hcall]. rewrite Ki in *.
  assert (KernelRuns.accepted k = Accepted (domain w)) as Hacc' by done.
  rewrite S1, S2, S3 in *. destruct call as [[q v]|]; cbn [stores] in Hst.
  2: { destruct Hcall as [Hne Hc]. split_and!; [..|done]; apply Hsame; try done;
       unfold after_delivery; by destruct (consumed result). }
  destruct Hcall as (Hrec & Hq & Hc).
  assert (q = processed_records (ledger_ (domain w))) as Hqp by lia.
  assert (after_delivery result
    = if was_submitted result then WProcessed result else WEncodingFailed (admission_sequence result)) as Hn.
  { unfold after_delivery. by rewrite Hrec. }
  assert (forall extra, deliveries w' ≡ₚ deliveries w ++ extra -> first_sequences (deliveries w ++ extra) ->
    zlen extra = submitted w' -> total extra = submitted_bytes w' -> taken w' = 1 ->
    pc_counts (pc w') (domain w') -> counts_inv w' /\ past (deliveries w) (deliveries w')) as Hnew.
  { intros extra Hd Hf Hlen Htot Htk Hp. split.
    2: { intros x Hx _. rewrite Hd. apply elem_of_app. by left. }
    constructor; rewrite ?R1, ?Hd, ?Htk; try done.
    - unfold counted. by rewrite R1, R2.
    - by eapply first_sequences_perm.
    - rewrite zlen_app. cbn. lia.
    - rewrite total_app, Htot. cbn. rewrite O6. f_equal. lia.
    - cbn. lia.
    - intros _. split; [done|]. cbn. lia.
    - cbn. congruence.
    - intros _. cbn. apply O11. by rewrite Hpc. }
  rewrite Z.add_0_r in O5.
  enough (counts_inv w' /\ past (deliveries w) (deliveries w')) as [? ?] by done.
  destruct (was_retired result) eqn:Hret.
  { destruct Hst as (Hsub & Hv & Hv'). rewrite Hsub in Hn.
    assert (deliveries w' ≡ₚ deliveries w ++ []) as Hd by (rewrite D1, D2, Hv, Hv'; by rewrite app_nil_r).
    apply (Hnew [] Hd); rewrite ?app_nil_r; try done;
      unfold submitted, submitted_bytes, taken; cbn; rewrite Hn; cbn; by rewrite ?Hret. }
  destruct Hst as [Hseq Hst]. destruct (was_submitted result) eqn:Hsub.
  - destruct Hst as [fate Hv]. set (dx := {| d_sequence := q; d_bytes := _; d_fate := fate |}) in *.
    assert (deliveries w' ≡ₚ deliveries w ++ [dx]) as Hd by (rewrite D1, D2, Hv; solve_Permutation).
    apply (Hnew [dx] Hd); [apply first_sequences_snoc; [done|]; cbn; lia|..];
      unfold submitted, submitted_bytes, taken; cbn; rewrite Hn; cbn; rewrite ?Hret; try done.
    unfold total. cbn. lia.
  - assert (deliveries w' ≡ₚ deliveries w ++ []) as Hd by (rewrite D1, D2, Hst; by rewrite app_nil_r).
    apply (Hnew [] Hd); rewrite ?app_nil_r; try done;
      unfold submitted, submitted_bytes, taken; cbn; rewrite Hn; cbn; first [done | congruence].
Qed.

Lemma steady_refl r : route_ok r -> steady r r.
Proof. intros Hok. split_and!; [done| |by unfold keeps_error].
  induction (route_view r); constructor; [reflexivity|done].
Qed.

(** A level step that touches neither the ledger nor the kernel's lanes. *)
Lemma quiet_counts next d :
  level_pc (pc w) = true -> pc w <> WSettle -> level_pc next = true -> ledger_ d = ledger_ (domain w) ->
  KernelRuns.administers gc (producer_ (domain w)) (producer_ d) ->
  (settled (ledger_ (domain w)) = false -> steady (route_ (domain w)) (route_ d)) ->
  (after_settle (pc w) = true -> after_settle next = true) ->
  (before_failure next = true -> before_failure (pc w) = true) -> pc_counts next d ->
  counts_inv (moved next d) /\ past (deliveries w) (deliveries (moved next d))
    /\ KernelRuns.accepted (producer_ d) = Accepted (domain w).
Proof.
  intros Hl Hset Hn Hled Hk' Hr Ha Hf Hpn. destruct (KernelRuns.administers_counts gc _ _ Hk') as [H1 H2].
  destruct (level_step next d) as [Hi Hp]; try done; [by rewrite H2|].
  intros Hs. split; [by apply Hr|done].
Qed.

Lemma route_same d : route_ d = route_ (domain w) ->
  settled (ledger_ (domain w)) = false -> steady (route_ (domain w)) (route_ d).
Proof. intros -> Hs. apply steady_refl. by apply (ci_unsettled w Hw Hs). Qed.

Lemma take_action_frame ready mark d taken d' :
  TakeActionLocked ready mark d = (taken, d') ->
  exists acts, d' = d <| actions_ := acts |>.
Proof.
  unfold TakeActionLocked. case_match; intros [= <- <-]; [|exists (actions_ d)]; [|by destruct d].
  eexists. by destruct d.
Qed.

Lemma scan_administers slot q k q' k' :
  ScanSlot slot q k = (q', k') -> KernelRuns.administers gc k k'.
Proof. intros [= _ <-]. apply KernelRuns.try_finish_administers. Qed.

Ltac quiet_tac Hpc :=
  let Hpre := fresh "Hpre" in pose proof (ci_pc w Hw) as Hpre; rewrite Hpc in Hpre; cbn in Hpre;
  apply quiet_counts; rewrite ?Hpc; cbn [ledger_ route_ producer_ modify after_settle before_failure];
  first [ done | reflexivity | by apply route_same | exact Hpre | by case_match | by repeat case_match | idtac ].

(** Every step of the worker. *)
Lemma worker_counts accepted next cl d :
  WorkerStep self identity accepted (pc w) cl (domain w) = (next, cl', d) ->
  counts_inv (moved next d) /\ past (deliveries w) (deliveries (moved next d))
    /\ KernelRuns.accepted (producer_ d) = Accepted (domain w).
Proof.
  intros Hstep. destruct (pc w) as [| | |o| |x|x|a|c o report a|o a| |error| | |slot q a| | | | |result|sequence| |
    | | |o| |] eqn:Hpc; cbn [WorkerStep] in Hstep.
  - simplify_eq. quiet_tac Hpc.
  - simplify_eq. quiet_tac Hpc.
  - destruct (PrepareDestructionStop _ _ _ _) as [cl2 d2] eqn:Hc. simplify_eq.
    apply close_locked in Hc as (k & rs & -> & Hadm & _). quiet_tac Hpc.
  - simplify_eq. quiet_tac Hpc. intros Hs. apply law_stop. by apply (ci_unsettled w Hw Hs).
  - destruct (_ <? _); [|simplify_eq; quiet_tac Hpc].
    destruct (route_try_retire _ _) as [[x|] r] eqn:Hr; simplify_eq.
    + destruct (retire_counts x r Hpc Hr). by split_and!.
    + quiet_tac Hpc. intros Hs. pose proof (proj1 (ci_unsettled w Hw Hs)) as Hok.
      destruct (law_retire _ _ _ _ Hok Hr) as (Hok' & He & Hv). split_and!; [done| |done].
      cbn in Hv. rewrite Hv. apply steady_refl, Hok.
  - simplify_eq. destruct (retirement_counts x Hpc) as [Hi Hd]. split_and!; [done|by rewrite Hd|].
    cbn. by destruct (RouteTypes.outcome x).
  - simplify_eq. quiet_tac Hpc.
  - destruct (TakeReadyDrain (domain w)) as [taken d2] eqn:Ht. simplify_eq.
    apply take_action_frame in Ht as (acts & ->). quiet_tac Hpc.
    all: by destruct taken as [[??]|]; [|destruct a].
  - simplify_eq. quiet_tac Hpc; by destruct a as [[]|? []].
  - destruct (TakeActive accepted (domain w)) as [taken d2] eqn:Ht. simplify_eq.
    apply take_action_frame in Ht as (acts & ->). quiet_tac Hpc.
    all: by destruct taken as [[??]|]; [|destruct a].
  - simplify_eq. quiet_tac Hpc.
  - simplify_eq. quiet_tac Hpc.
  - destruct (PrepareRouteFailure _ _ _ _) as [cl2 d2] eqn:Hc. simplify_eq.
    apply close_locked in Hc as (k & rs & -> & Hadm & _). quiet_tac Hpc.
  - simplify_eq. quiet_tac Hpc.
  - destruct (_ <? _)%nat.
    + destruct (ScanSlot slot q _) as [q' k] eqn:Hs. apply scan_administers in Hs. simplify_eq. quiet_tac Hpc.
    + simplify_eq. quiet_tac Hpc; by destruct a, q.
  - simplify_eq. quiet_tac Hpc.
  - simplify_eq. quiet_tac Hpc. intros Hs. apply law_request_close. by apply (ci_unsettled w Hw Hs).
  - destruct (FinishClose _ _) as [o d2] eqn:Hf. simplify_eq.
    assert (exists b e, d = domain w <| route_failed_ := b |> <| route_io_error_ := e |>) as (b & e & ->).
    { unfold FinishClose, RecordRouteIoError in Hf. exists (route_failed_ d), (route_io_error_ d).
      repeat case_match; simplify_eq; cbn; by destruct (domain w). }
    quiet_tac Hpc; by destruct o.
  - destruct (_ =? 0); [simplify_eq; quiet_tac Hpc|].
    destruct (route_deliver _ _) as [[result k] r] eqn:Hd. injection Hstep as <- -> <-.
    exact (delivery_counts result k r Hpc Hd).
  - simplify_eq.
    assert (producer_ (RecordProcessed result (domain w)) = producer_ (domain w)) as Hp
      by (unfold RecordProcessed; by case_match).
    rewrite Hp. destruct (was_retired result) eqn:Hret.
    + destruct (retired_at_once_counts (WDrains ThenHead) result Hpc Hret); [by right|by split_and!].
    + destruct (processed_counts WHead result Hpc Hret) as [Hi Hd]; [by left|]. split_and!; [done|by rewrite Hd|done].
  - simplify_eq. destruct (encoding_counts sequence Hpc). by split_and!.
  - simplify_eq. quiet_tac Hpc.
  - simplify_eq. destruct (settle_counts Hpc) as [Hi Hd]. split_and!; [done|by rewrite Hd|done].
  - simplify_eq. quiet_tac Hpc. congruence.
  - destruct (ProducerKernel.TryConsume _ _) as [[k st] call] eqn:Hc. simplify_eq.
    pose proof (ci_pc w Hw) as Hset. rewrite Hpc in Hset. cbn in Hset. pose proof Hk as [Ki Ka Kinv Kb].
    rewrite <- Ki in Hc. destruct (KernelRuns.consume_counts gc _ _ _ _ Kinv Kb Ka Hc) as [Hacc Hcall].
    rewrite Ki in *. destruct (level_step (WScan 0 true ThenConsume) (domain w <| producer_ := k |>)) as [Hi Hp];
      rewrite ?Hpc; try done; [|congruence].
    cbn. destruct call as [[]|]; lia.
  - simplify_eq. quiet_tac Hpc; by destruct o.
  - simplify_eq. quiet_tac Hpc.
  - simplify_eq. quiet_tac Hpc.
Qed.
End Counts.
End Steps.
