(* ===== verification/RuntimeStatus.v ===== *)
(** * What the flags of a Runtime mean

    [status_inv] ties the flags of the domain to the places of the worker, and says that a
    drain that waits is ahead of the retirements. [ledger_inv] collects the invariants of
    the kernel, of the deliveries and of what is retired; every step keeps it, and
    [onward] says what no step takes back. *)
From stdpp Require Import gmap relations list_numbers.
From S2P Require Import Prelude KernelTypes ThreadRegistry RuntimeConfig RuntimeRoute RouteContract RuntimeDomain.
From S2P Require Import RuntimeWorld RuntimeInvariant RuntimeSteps.
From S2P Require Operation ControlReserve ControlRuns ProducerKernel ProducerLanes KernelWorld KernelAccounting KernelRuns RouteTypes.
#[local] Open Scope Z_scope.
#[local] Open Scope ulog_scope.
#[local] Existing Instance KernelRuns.administers_preorder.

Section Status.
Context {R C : Type} `{!Route R, !RouteView R}.
Implicit Types (w : World R C) (d : RuntimeDomain R C).

(** ** Flags *)

(** The places of the worker where actions are still accepted. *)
Definition working (p : WorkerPc) : bool :=
  match p with
  | WStopRoute _ | WActions _ _ | WComplete _ _ _ (ToActions _ _) | WSettle | WDiscardRoute
  | WScan _ _ ThenConsume | WConsume | WExit None | WStop | WDone => false
  | _ => true
  end.

(** The places of the worker after the last action was completed. *)
Definition emptied (p : WorkerPc) : bool :=
  match p with WSettle => true | _ => after_settle p end.

(** Nothing is admitted any more and all that was admitted is retired. *)
Definition covered w : Prop :=
  KernelRuns.frozen (kernel w) /\ retired_records (ledger_ (domain w)) = Accepted (domain w).

(** What an outcome other than that of a drain in time stands on. *)
Definition justified w (o : Operation.OperationOutcome) : Prop :=
  match o with
  | Operation.kSucceeded => covered w
  | _ => destruction_stop_requested_ (domain w) = true \/ route_failed_ (domain w) = true
  end.

(** Whether a drain may wait for exactly the records that are retired. *)
Definition slack w : bool :=
  match pc w with
  | WDecided _ | WDrains _ | WComplete _ _ _ _ | WRouteError _ | WPrepareFailure => true
  | WTerminal => negb (route_terminal_error (route_ (domain w)) =? 0)
  | p => negb (working p)
  end.

Definition drain_low w : Z := retired_records (ledger_ (domain w)) + (if slack w then 0 else 1).

Definition pc_status w : Prop :=
  match pc w with
  | WScan slot quiescent ThenCovered =>
      KernelRuns.closed (producer_ (domain w))
      /\ (quiescent = true -> forall p, (p < slot)%nat -> KernelRuns.early_at (kernel w) p)
  | WCovered => KernelRuns.frozen (kernel w)
  | WClosing | WClosed => covered w
  | WStopRoute o | WExit (Some o) | WActions o _ | WComplete _ _ _ (ToActions o _) => justified w o
  | WPrepareStop => destruction_stop_requested_ (domain w) = true
  | _ => True
  end.

Record status_inv w : Prop := {
  st_accepting : accepting_actions_ (domain w) = working (pc w);
  st_stopped : working (pc w) = false -> exists o, justified w o;
  st_shutdown : shutdown_requested_ (domain w) = true -> KernelRuns.closed (producer_ (domain w));
  st_drains : forall a, a ∈ actions_ (domain w) -> active a = true ->
    watermark a <= Accepted (domain w) /\ (action_kind a = kDrain -> drain_low w <= watermark a);
  st_emptied : emptied (pc w) = true -> forall a, a ∈ actions_ (domain w) -> active a = false;
  st_pc : pc_status w;
}.

(** Retirements follow processing. *)
Definition retired_inv w : Prop :=
  retired_records (ledger_ (domain w)) + zlen (in_hand w) <= processed_records (ledger_ (domain w)).
End Status.

Section Steps.
Context {R C : Type} `{!Route R, !RouteView R, !RouteLaws R}.
Context (gc : Z -> option (list byte)).
Context (self : nat) (identity : Z) (block : nat) (others : nat -> option KernelLifetimeState).
Implicit Types (w : World R C) (d : RuntimeDomain R C).

(** ** What a step of the worker leaves alone *)

Lemma worker_frame accepted p cl d next cl' d' :
  WorkerStep self identity accepted p cl d = (next, cl', d') ->
  match p with WRetired _ | WProcessed _ | WEncodingFailed _ | WSettle => True | _ => ledger_ d' = ledger_ d end
  /\ match p with WDrains _ | WActions _ _ => True | _ => actions_ d' = actions_ d end
  /\ match p with WComplete _ _ _ _ => True | _ => control_reserve_ d' = control_reserve_ d end
  /\ destruction_stop_requested_ d' = destruction_stop_requested_ d
  /\ shutdown_requested_ d' = shutdown_requested_ d
  /\ (route_failed_ d = true -> route_failed_ d' = true)
  /\ accepting_actions_ d'
     = match p with WPrepareStop | WPrepareFailure | WExit _ => false | _ => accepting_actions_ d end.
Proof.
  intros Hstep. destruct p; cbn [WorkerStep] in Hstep;
    unfold TakeReadyDrain, TakeActive, TakeActionLocked, FinishClose, RecordRouteIoError, RecordProcessed,
      PrepareDestructionStop, PrepareRouteFailure, CloseAdmissionLocked, called in Hstep;
    repeat case_match; simplify_eq; done.
Qed.

(** ** Time *)

(** What does not go back. *)
Record onward w w' : Prop := {
  on_kernel : rtc (KernelWorld.kernel_step gc) (kernel w) (kernel w');
  on_destruction : destruction_stop_requested_ (domain w) = true ->
    destruction_stop_requested_ (domain w') = true;
  on_failed : route_failed_ (domain w) = true -> route_failed_ (domain w') = true;
  on_retired : retired_records (ledger_ (domain w)) <= retired_records (ledger_ (domain w'));
  on_covered : covered w -> covered w';
}.

(** [runtime_inv] without the operations. *)
Record ledger_inv w : Prop := {
  li_kernel : kernel_inv gc w;
  li_counts : counts_inv w;
  li_retired : retired_inv w;
}.

Lemma retired_range w : counts_inv w -> 0 <= retired_records (ledger_ (domain w)).
Proof. intros Hw. rewrite <- (ci_retired w Hw). apply zlen_nonneg. Qed.

Lemma hand_length w x : pc w = WRetired x -> zlen (in_hand w) = 1.
Proof. intros Hpc. unfold in_hand, retires. by rewrite Hpc. Qed.

(** The counts of the ledger and of the kernel. *)
Lemma ledger_order w :
  ledger_inv w ->
  0 <= retired_records (ledger_ (domain w)) /\ retired_inv w
  /\ 0 <= zlen (in_hand w)
  /\ processed_records (ledger_ (domain w)) + taken w <= KernelRuns.consumed (producer_ (domain w))
  /\ 0 <= taken w /\ KernelRuns.consumed (producer_ (domain w)) <= Accepted (domain w) < 2 ^ 64.
Proof.
  intros [Hk Hw Hr]. destruct (kernel_counts gc w Hk) as [[_ Hc] Ha]. pose proof (ki_bound gc w Hk).
  split_and!; [by apply retired_range|done|apply zlen_nonneg|apply (ci_taken w Hw)| |done|lia].
  unfold taken. by destruct (pc w).
Qed.

Lemma covered_stays w w' :
  rtc (KernelWorld.kernel_step gc) (kernel w) (kernel w') -> ledger_inv w -> ledger_inv w' ->
  retired_records (ledger_ (domain w)) <= retired_records (ledger_ (domain w')) ->
  covered w -> covered w' /\ Accepted (domain w') = Accepted (domain w).
Proof.
  intros Hrun Hw Hw' Hle [Hf Hr]. destruct (KernelRuns.run_frozen gc _ _ Hrun Hf) as [Hf' Hh].
  destruct (kernel_counts gc w (li_kernel w Hw)) as [_ Ha], (kernel_counts gc w' (li_kernel w' Hw')) as [_ Ha'].
  assert (Accepted (domain w') = Accepted (domain w)) as He by (rewrite Ha, Ha'; by rewrite Hh).
  split; [|done]. split; [done|].
  destruct (ledger_order w' Hw') as (_ & Hri & ? & ? & ? & ?). unfold retired_inv in Hri. lia.
Qed.

Lemma justified_onward w w' o : onward w w' -> justified w o -> justified w' o.
Proof.
  intros [_ Hd Hf _ Hc]. destruct o; cbn; [done|..]; (intros [?|?]; [left|right]); auto.
Qed.

(** What leaves the table of actions. *)
Lemma take_action_spec ready mark d taken d1 :
  TakeActionLocked ready mark d = (taken, d1) ->
  match taken with
  | None => d1 = d /\ forall a, a ∈ actions_ d -> ready a = false
  | Some (c, report) => exists i a, actions_ d !! i = Some a /\ ready a = true /\ c = completion a
      /\ report = BuildReportLocked (mark a) d
      /\ d1 = d <| actions_ ::= <[i := a <| active := false |> <| completion := None |>]> |>
  end.
Proof.
  unfold TakeActionLocked. destruct (first_index ready (actions_ d)) as [i|] eqn:Hi; intros [= <- <-].
  - apply first_index_Some in Hi as (a & Ha & Hr & _). exists i, a. rewrite Ha. split_and!; try done.
    unfold modify. cbn. f_equal.
    exact (alter_as_insert (fun a => a <| active := false |> <| completion := None |>) _ _ _ Ha).
  - split; [done|]. intros a [i Ha]%list_elem_of_lookup. by eapply first_index_None.
Qed.
(** ** The worker and the flags *)

Section Worker.
Context (w : World R C) (accepted : Z) (next : WorkerPc) (cl' : Caller) (d' : RuntimeDomain R C).
Context (kw' : KernelWorld.World) (cw' : ControlReserve.World C).
Context (Hstep : WorkerStep self identity accepted (pc w) (caller w) (domain w) = (next, cl', d')).
Let w' := worker_moves w next cl' d' kw' cw'.

Lemma to_retired x : next = WRetired x ->
  pc w = WRetire /\ ledger_ d' = ledger_ (domain w)
  /\ retired_records (ledger_ (domain w)) < processed_records (ledger_ (domain w)).
Proof.
  intros ->. clear w'. destruct (pc w); cbn [WorkerStep] in Hstep;
    unfold TakeReadyDrain, TakeActive, TakeActionLocked, FinishClose, after_drains, after_actions, after_scan,
      after_completion in Hstep; repeat case_match; simplify_eq.
  split_and!; [done..|]. by apply Z.ltb_lt.
Qed.

Lemma worker_hand : (exists x, next = WRetired x) \/ zlen (in_hand w') = 0.
Proof. destruct next; eauto. Qed.

Lemma worker_retired : ledger_inv w -> retired_inv w'.
Proof.
  intros Hw. pose proof (ledger_order w Hw) as (H0 & Hr & Hh & Ht & Htk & Hc). unfold retired_inv in *.
  change (ledger_ (domain w')) with (ledger_ d').
  pose proof (worker_frame _ _ _ _ _ _ _ Hstep) as (Hl & _).
  destruct worker_hand as [[x Hx]|Hz].
  { destruct (to_retired x Hx) as (_ & -> & ?). assert (zlen (in_hand w') = 1) as -> by (unfold in_hand, retires; cbn; by rewrite Hx). lia. }
  rewrite Hz. assert (ledger_ d' = ledger_ (domain w) -> retired_records (ledger_ d') + 0
    <= processed_records (ledger_ d')) as Hsame by (intros ->; lia).
  destruct (pc w) as [| | | | |x| | | | | | | | | | | | | |result|q| | | | | | |] eqn:Hpc; try by apply Hsame.
  all: cbn [WorkerStep] in Hstep; injection Hstep as <- <- <-.
  - rewrite (hand_length w x Hpc) in Hr. unfold RecordRetirement.
    destruct (RouteTypes.outcome x); cbn; rewrite w64_small; lia.
  - unfold taken in *. rewrite Hpc in *. unfold RecordProcessed.
    destruct (was_retired result); cbn; rewrite !w64_small; lia.
  - unfold taken in *. rewrite Hpc in *. cbn. rewrite !w64_small; lia.
  - cbn. lia.
Qed.

Context (Hrun : kernel_run gc (kernel w) (producer_ d') kw').

Lemma worker_onward : ledger_inv w -> ledger_inv w' -> onward w w'.
Proof.
  intros Hw Hw'. pose proof (worker_frame _ _ _ _ _ _ _ Hstep) as (_ & _ & _ & Hd & _ & Hf & _).
  assert (retired_records (ledger_ (domain w)) <= retired_records (ledger_ (domain w'))) as Hle.
  { rewrite <- (ci_retired w (li_counts w Hw)), <- (ci_retired w' (li_counts w' Hw')). cbn. rewrite zlen_app.
    pose proof (zlen_nonneg (retires w)). lia. }
  destruct Hrun as (Hk & _). constructor; [done| |done|done|]; cbn; [by rewrite Hd|].
  by apply (covered_stays w w').
Qed.

Lemma worker_accepting : status_inv w -> accepting_actions_ d' = working next.
Proof.
  intros Hs. pose proof (worker_frame _ _ _ _ _ _ _ Hstep) as (_ & _ & _ & _ & _ & _ & ->).
  pose proof (st_accepting w Hs) as Ha. clear w'. destruct (pc w); rewrite ?Ha; cbn [WorkerStep] in Hstep;
    unfold TakeReadyDrain, TakeActive, TakeActionLocked, FinishClose, after_drains, after_actions, after_scan,
      after_completion in Hstep; repeat case_match; simplify_eq; done.
Qed.


Lemma worker_actions a : a ∈ actions_ d' -> active a = true -> a ∈ actions_ (domain w).
Proof.
  pose proof (worker_frame _ _ _ _ _ _ _ Hstep) as (_ & Ha & _). clear w'.
  assert (forall ready mark taken d1, TakeActionLocked ready mark (domain w) = (taken, d1) -> d' = d1 ->
    a ∈ actions_ d' -> active a = true -> a ∈ actions_ (domain w)) as Htake.
  { intros ready mark taken d1 Ht -> Hin Hact. apply take_action_spec in Ht. destruct taken as [[c report]|].
    - destruct Ht as (i & x & Hx & _ & _ & _ & ->). cbn in Hin. apply list_elem_of_lookup in Hin as [j Hj].
      apply list_lookup_insert_Some in Hj as [(-> & <- & _)|[_ Hj]]; [done|]. by eapply list_elem_of_lookup_2.
    - destruct Ht as [-> _]. done. }
  destruct (pc w); try (rewrite Ha; done); cbn [WorkerStep] in Hstep; unfold TakeReadyDrain, TakeActive in Hstep;
    destruct (TakeActionLocked _ _ _) as [taken d1] eqn:Ht; simplify_eq; by eapply Htake.
Qed.

Lemma worker_emptied :
  status_inv w -> emptied next = true -> forall a, a ∈ actions_ d' -> active a = false.
Proof.
  intros Hs He a Hin. apply not_true_is_false. intros Hact. pose proof (worker_actions a Hin Hact) as Hin0.
  destruct (emptied (pc w)) eqn:Hp; [by rewrite (st_emptied w Hs Hp a Hin0) in Hact|].
  clear w'. destruct (pc w) as [| | |o| |x|x|a1|c o rep nx|o a2| |error| | |slot q [|]| | | | |result|q| | | | |[o|]| |];
    cbn [WorkerStep] in Hstep; try done;
    try (unfold FinishClose, TakeReadyDrain, TakeActionLocked, after_drains, after_completion, after_scan in Hstep;
      repeat case_match; simplify_eq; done).
  destruct (TakeActive _ _) as [[[c report]|] d1] eqn:Ht; simplify_eq; try done.
  apply take_action_spec in Ht as [-> Hno]. specialize (Hno a Hin0). congruence.
Qed.

Lemma worker_drains a : ledger_inv w -> status_inv w -> ledger_inv w' ->
  a ∈ actions_ d' -> active a = true -> action_kind a = kDrain -> drain_low w' <= watermark a.
Proof.
  intros Hw Hs Hw' Hin Hact Hkind. pose proof (worker_actions a Hin Hact) as Hin0.
  pose proof (proj2 (st_drains w Hs a Hin0 Hact) Hkind) as Hlow.
  pose proof (ledger_order w Hw) as (H0 & Hr & Hh & Ht & Htk & Hc). unfold retired_inv in Hr.
  pose proof (worker_frame _ _ _ _ _ _ _ Hstep) as (Hl & _).
  unfold drain_low in *. change (domain w') with d'.
  assert (slack w = false \/ slack w' = true -> ledger_ d' = ledger_ (domain w) ->
    retired_records (ledger_ d') + (if slack w' then 0 else 1) <= watermark a) as Hsame.
  { intros Hsl ->. destruct Hsl as [Hsl|Hsl]; rewrite Hsl in *; [destruct (slack w')|destruct (slack w)]; lia. }
  unfold slack in *. cbn [w' worker_moves pc modify] in *. change (domain w') with d' in *.
  destruct (pc w) as [| | |o| |x|x|a1|c o rep nx|o a2| |error| | |slot q a'| | | | |result|q| | | | |o| |] eqn:Hpc; cbn [WorkerStep] in Hstep.
  all: try (apply Hsame; [|done]; repeat case_match; simplify_eq; cbn; auto; done).
  - simplify_eq. cbn in Hlow |- *. unfold RecordRetirement. rewrite (hand_length w x Hpc) in Hr.
    destruct (RouteTypes.outcome x); cbn; rewrite w64_small; lia.
  - simplify_eq. apply Hsame; [|done]. right. destruct (StopsRetirements x (domain w)) eqn:He; [|done].
    by apply andb_true_iff in He as [_ He].
  - destruct (TakeReadyDrain (domain w)) as [taken d1] eqn:Htk1. simplify_eq.
    apply take_action_spec in Htk1. destruct taken as [[c report]|].
    + destruct Htk1 as (i & y & _ & _ & _ & _ & ->). apply Hsame; [by right|done].
    + destruct Htk1 as [-> Hno]. specialize (Hno a Hin0). unfold drain_ready in Hno.
      rewrite Hact, bool_decide_true in Hno by done. cbn in Hno. b2p. destruct a1; cbn; lia.
  - simplify_eq. apply Hsame; [|done]. right. by destruct nx.
  - destruct (TakeActive accepted (domain w)) as [taken d1] eqn:Htk1. simplify_eq.
    apply take_action_spec in Htk1. apply Hsame; [right; destruct taken as [[c report]|]; [done|by destruct a2]|].
    destruct taken as [[c report]|]; [destruct Htk1 as (i & y & _ & _ & _ & _ & ->)|destruct Htk1 as [-> _]]; done.
  - apply Hsame; [|done]. destruct a'; [by left|right]. destruct (_ <? _)%nat; simplify_eq; [|by destruct q].
    by destruct (ScanSlot _ _ _); simplify_eq.
  - simplify_eq. cbn in Hlow. unfold taken in *. rewrite Hpc in *. unfold RecordProcessed.
    destruct (was_retired result); cbn; rewrite ?w64_small; lia.
  - simplify_eq. cbn in *. lia.
  - simplify_eq. cbn in *. lia.
Qed.

(** A slot the scan found quiescent is early from then on. *)
Lemma scan_early slot q q' k :
  kernel_inv gc w -> ScanSlot slot q (producer_ (domain w)) = (q', k) ->
  (q = true -> forall p, (p < slot)%nat -> KernelRuns.early_at (kernel w) p) ->
  q' = true -> forall p, (p < S slot)%nat -> KernelRuns.early_at (kernel w) p.
Proof.
  intros [Hi _ Hinv _] [= Hq _] Hp Hq' p Hlt. rewrite Hq' in Hq.
  apply andb_true_iff in Hq as [[Hq Hd]%andb_true_iff _].
  destruct (decide (p = slot)) as [->|]; [|apply Hp; [done|lia]].
  rewrite KernelRuns.try_finish_lanes, <- Hi in Hd.
  intros pub Hpub. by rewrite (KernelRuns.drained_idle gc w.(kernel) slot Hinv Hd) in Hpub.
Qed.

Lemma worker_pc :
  (pc w = WCovered -> accepted = Accepted (domain w)) ->
  ledger_inv w -> status_inv w -> onward w w' -> pc_status w'.
Proof.
  intros Hexact Hw Hs Hon. pose proof (st_pc w Hs) as Hp. unfold pc_status in Hp.
  pose proof (worker_frame _ _ _ _ _ _ _ Hstep) as (_ & _ & _ & Hd & _ & Hf & _).
  destruct (li_kernel w Hw) as [Hi Hidle Hinv Hbound]. destruct Hrun as (Hk & Hki & _).
  assert (KernelRuns.closed (producer_ (domain w)) -> KernelRuns.closed (producer_ d')) as Hclosed.
  { rewrite <- Hi, <- Hki. by apply (KernelRuns.run_closed gc). }
  pose proof (justified_onward w w') as Hj. unfold pc_status. cbn [w' worker_moves pc modify].
  change (domain w') with d'. change (kernel w') with kw'.
  destruct (pc w) as [| | |o| |x|x|a1|c o rep nx|o a2| |error| | |slot q a'| | | | |result|q| | | | |o| |] eqn:Hpc;
    cbn [WorkerStep] in Hstep.
  all: try (repeat case_match; simplify_eq; first [done | by apply Hj | by left | by right]).
  - destruct (PrepareDestructionStop _ _ _ _) as [cl2 d2]. simplify_eq. left. cbn. rewrite Hd. exact Hp.
  - destruct (TakeReadyDrain _) as [[[c report]|] d2]; simplify_eq; [done|by destruct a1].
  - simplify_eq. destruct nx; cbn; [done|by apply Hj].
  - destruct (TakeActive _ _) as [[[c report]|] d2]; simplify_eq; [by apply Hj|by destruct a2].
  - destruct (PrepareRouteFailure _ _ _ _) as [cl2 d2] eqn:Hc. simplify_eq. right.
    unfold PrepareRouteFailure, CloseAdmissionLocked, called in Hc. by simplify_eq.
  - destruct (shutdown_requested_ _) eqn:Hsh; simplify_eq; [|done].
    split; [by apply Hclosed, (st_shutdown w Hs)|]. intros _ p. lia.
  - destruct a'.
    2: { destruct (_ <? _)%nat; [destruct (ScanSlot _ _ _)|]; simplify_eq; [done|by destruct q]. }
    destruct Hp as [Hc Hearly]. rewrite <- Hi in Hc.
    destruct (Nat.ltb_spec slot (ProducerKernel.producer_slots (ProducerKernel.config (producer_ (domain w)))))
      as [Hlt|Hge].
    + destruct (ScanSlot _ _ _) as [q' k] eqn:Hscan. simplify_eq. rewrite Hi in Hc. split; [by apply Hclosed|].
      intros Hq' p Hp. eapply KernelRuns.run_early; [exact Hk|by rewrite Hi|].
      by eapply scan_early; [apply (li_kernel w Hw)|exact Hscan|..].
    + simplify_eq. destruct q; [|done]. cbn. eapply KernelRuns.run_frozen; [exact Hk|].
      apply (KernelRuns.early_frozen gc); [done|done|]. intros p Hp. apply Hearly; [done|]. rewrite Hi in Hp. lia.
  - destruct (ShutdownCovered _ _) eqn:Hcov; simplify_eq; [|done].
    apply (on_covered w w' Hon). split; [done|]. apply Z.eqb_eq in Hcov. rewrite Hcov. by apply Hexact.
  - simplify_eq. by apply (on_covered w w' Hon).
  - unfold FinishClose in Hstep. repeat case_match; simplify_eq; try done; [by right|].
    by apply (on_covered w w' Hon).
Qed.

Lemma worker_status :
  (pc w = WCovered -> accepted = Accepted (domain w)) ->
  ledger_inv w -> status_inv w -> ledger_inv w' -> status_inv w'.
Proof.
  intros Hexact Hw Hs Hw'. pose proof (worker_onward Hw Hw') as Hon.
  pose proof (worker_accepting Hs) as Hacc. pose proof (worker_pc Hexact Hw Hs Hon) as Hpc.
  pose proof (worker_frame _ _ _ _ _ _ _ Hstep) as (_ & _ & _ & _ & Hsh & _ & Ha).
  destruct (kernel_counts gc w (li_kernel w Hw)) as [_ Hac], (kernel_counts gc w' (li_kernel w' Hw')) as [_ Hac'].
  pose proof (KernelWorld.reachable_history gc _ _ (on_kernel _ _ Hon)) as Hhist.
  constructor; [done| | | |by apply worker_emptied|done].
  - intros Hn. change (pc w') with next in Hn. rewrite <- Hacc, Ha in Hn.
    destruct (working (pc w)) eqn:Hwk.
    2: { destruct (st_stopped w Hs Hwk) as [o Ho]. exists o. by eapply justified_onward. }
    rewrite (st_accepting w Hs), Hwk in Hn. pose proof (st_pc w Hs) as Hp. unfold pc_status in Hp.
    destruct (pc w) as [| |  | | | | | | | | | | | | | | | | | | | | | | |[o|]| |] eqn:Hpcw; try done.
    + exists Operation.kCancelled. apply (justified_onward w); [done|by left].
    + exists Operation.kFailed. right. by injection Hstep as _ _ <-.
    + exists o. by apply (justified_onward w).
  - intros Hs'. cbn in Hs'. rewrite Hsh in Hs'. pose proof (st_shutdown w Hs Hs') as Hc.
    rewrite <- (ki_impl gc w (li_kernel w Hw)) in Hc. rewrite <- (ki_impl gc w' (li_kernel w' Hw')).
    by apply (KernelRuns.run_closed gc _ _ (on_kernel _ _ Hon)).
  - intros a Hin Hact. split; [|by apply worker_drains].
    pose proof (st_drains w Hs a (worker_actions a Hin Hact) Hact) as [Hle _]. rewrite Hac'. lia.
Qed.
End Worker.

(** ** The other threads *)

(** What a step of another thread does to the domain and to the kernel. *)
Record beside w w' : Prop := {
  be_pc : pc w' = pc w;
  be_ghost : retirements w' = retirements w /\ remains w' = remains w;
  be_ledger : ledger_ (domain w') = ledger_ (domain w);
  be_kernel : rtc (KernelWorld.kernel_step gc) (kernel w) (kernel w')
    /\ KernelWorld.impl (kernel w') = producer_ (domain w')
    /\ KernelWorld.consuming (kernel w') = None;
  be_consumed : KernelRuns.consumed (producer_ (domain w')) = KernelRuns.consumed (producer_ (domain w));
  be_route : settled (ledger_ (domain w)) = false -> steady (route_ (domain w)) (route_ (domain w'));
  be_flags : accepting_actions_ (domain w') = accepting_actions_ (domain w)
    /\ route_failed_ (domain w') = route_failed_ (domain w)
    /\ (destruction_stop_requested_ (domain w) = true -> destruction_stop_requested_ (domain w') = true);
  be_shutdown : shutdown_requested_ (domain w') = true ->
    shutdown_requested_ (domain w) = true \/ KernelRuns.closed (producer_ (domain w'));
  be_actions a : a ∈ actions_ (domain w') -> active a = true ->
    a ∈ actions_ (domain w)
    \/ accepting_actions_ (domain w) = true /\ watermark a <= Accepted (domain w)
       /\ (action_kind a = kDrain -> retired_records (ledger_ (domain w)) + 1 <= watermark a);
}.

Lemma locked_section kind accepted c cl d immediate cl' d' :
  StartActionLocked self identity kind accepted c cl d = (immediate, cl', d') ->
  exists k rs acts sh,
    d' = d <| producer_ := k |> <| registrations_ := rs |> <| actions_ := acts |>
           <| shutdown_requested_ := sh |>
    /\ KernelRuns.administers gc (producer_ d) k
    /\ (sh = true -> shutdown_requested_ d = true \/ KernelRuns.closed k)
    /\ match immediate with
       | Some (o, report) =>
           acts = actions_ d /\ report = BuildReportLocked accepted d
           /\ (accepting_actions_ d = false /\ o = LateOutcome d
               \/ accepting_actions_ d = true
                  /\ (accepted = retired_records (ledger_ d) /\ kind = kDrain
                      \/ o = Operation.kFailed /\ free_action d = None))
       | None =>
           accepting_actions_ d = true /\ (kind = kDrain -> accepted <> retired_records (ledger_ d))
           /\ exists i a, actions_ d !! i = Some a /\ active a = false
              /\ acts = <[i := {| action_kind := kind; watermark := accepted; completion := c;
                                  active := true |}]> (actions_ d)
       end.
Proof.
  unfold StartActionLocked. destruct (accepting_actions_ d) eqn:Hacc; cbn [negb].
  2: { intros [= <- <- <-]. exists (producer_ d), (registrations_ d), (actions_ d), (shutdown_requested_ d).
    split_and!; [by destruct d|done|by left|done|done|by left]. }
  assert (exists k rs sh cl1, BeginShutdownLocked self identity kind cl d
      = (cl1, d <| producer_ := k |> <| registrations_ := rs |> <| shutdown_requested_ := sh |>)
    /\ KernelRuns.administers gc (producer_ d) k
    /\ (sh = true -> shutdown_requested_ d = true \/ KernelRuns.closed k))
    as (k & rs & sh & cl1 & -> & Hadm & Hsh).
  { unfold BeginShutdownLocked. destruct (bool_decide (kind = kShutdown) && negb (shutdown_requested_ d)).
    - destruct (CloseAdmissionLocked _ _ _ _) as [cl1 d1] eqn:Hc. apply (close_locked gc) in Hc as (k & rs & -> & Ha & Hcl).
      exists k, rs, true, cl1. split_and!; [by destruct d|done|by right].
    - exists (producer_ d), (registrations_ d), (shutdown_requested_ d), cl.
      split_and!; [by destruct d|done|by left]. }
  set (d1 := d <| producer_ := k |> <| registrations_ := rs |> <| shutdown_requested_ := sh |>).
  unfold RegisterLocked. change (ledger_ d1) with (ledger_ d). change (free_action d1) with (free_action d).
  change (BuildReportLocked accepted d1) with (BuildReportLocked accepted d).
  assert (d1 = d1 <| actions_ := actions_ d |>) as Hd1 by done.
  destruct (bool_decide (kind = kDrain) && (accepted =? retired_records (ledger_ d))) eqn:Hnow.
  { intros [= <- <- <-]. exists k, rs, (actions_ d), sh.
    apply andb_true_iff in Hnow as [Hkd%bool_decide_eq_true Hac%Z.eqb_eq].
    split_and!; try done. right. split; [done|by left]. }
  destruct (free_action d) as [i|] eqn:Hi; intros [= <- <- <-].
  - exists k, rs. eexists _, sh. split_and!; [reflexivity|done|done|done| |].
    + intros ->. rewrite bool_decide_true in Hnow by done. by apply Z.eqb_neq in Hnow.
    + apply first_index_Some in Hi as (a & Ha & Hf & _). exists i, a. split_and!; [done|by apply negb_true_iff|done].
  - exists k, rs, (actions_ d), sh. split_and!; try done. right. split; [done|by right].
Qed.

Lemma run_kernel_inv w kw' d' :
  kernel_inv gc w -> kernel_run gc (kernel w) (producer_ d') kw' -> zlen (KernelWorld.history kw') < 2 ^ 64 ->
  KernelWorld.impl kw' = producer_ d' /\ KernelWorld.consuming kw' = None /\ KernelWorld.world_inv gc kw'.
Proof.
  intros [Hi _ Hinv _] (Hr & He & Hc) Hb. split_and!; [done..|].
  by apply (KernelRuns.kernel_run_inv gc (kernel w)).
Qed.

Lemma beside_ledger w w' :
  beside w w' -> zlen (KernelWorld.history (kernel w')) < 2 ^ 64 -> ledger_inv w ->
  ledger_inv w' /\ past (deliveries w) (deliveries w').
Proof.
  intros [Hpc [Hr Hm] Hl (Hrun & Hi & Hidle) Hc Hroute _ _ _] Hb [Hk Hw Hret].
  assert (in_hand w' = in_hand w) as Hh by (unfold in_hand, retires; by rewrite Hpc, Hl).
  assert (counts_step w w') as Hs.
  { constructor; try done.
    - unfold submitted, submitted_bytes. by rewrite Hpc.
    - unfold taken. by rewrite Hpc.
    - lia.
    - intros Hs. split; [by apply Hroute|done].
    - intros Hs. rewrite Hpc. by apply (ci_settled w Hw).
    - by rewrite Hpc.
    - pose proof (ci_pc w Hw) as Hp. rewrite Hpc.
      destruct (pc w) eqn:Hpcw; cbn in Hp |- *; rewrite ?Hl; try done.
      destruct (Hroute (unsettled_before w Hw ltac:(by rewrite Hpcw))) as (_ & Hv & _).
      intros Hx. rewrite (Hp Hx) in Hv. by inversion Hv. }
  split; [|by apply counts_step_deliveries]. constructor; [|by apply (counts_step_inv w)|].
  - constructor; [done..| |done]. by apply (KernelRuns.kernel_run_inv gc (kernel w)); [| |apply Hk].
  - unfold retired_inv. by rewrite Hl, Hh.
Qed.

Lemma beside_onward w w' : beside w w' -> ledger_inv w -> ledger_inv w' -> onward w w'.
Proof.
  intros Hbe Hw Hw'. destruct (be_kernel w w' Hbe) as [Hrun _]. destruct (be_flags w w' Hbe) as (_ & Hf & Hd).
  assert (retired_records (ledger_ (domain w)) <= retired_records (ledger_ (domain w'))) as Hle
    by (by rewrite (be_ledger w w' Hbe)).
  constructor; [done|done|by rewrite Hf|done|]. intros Hc. by apply (covered_stays w).
Qed.

Lemma beside_status w w' :
  beside w w' -> ledger_inv w -> ledger_inv w' -> status_inv w -> status_inv w'.
Proof.
  intros Hbe Hw Hw' Hs. pose proof (beside_onward w w' Hbe Hw Hw') as Hon.
  destruct Hbe as [Hpc _ Hl (Hrun & Hi & Hidle) Hc Hroute (Ha & Hf & Hd) Hsh Hacts].
  pose proof (justified_onward w w') as Hj. pose proof (KernelWorld.reachable_history gc _ _ Hrun) as Hhist.
  destruct (kernel_counts gc w (li_kernel w Hw)) as [_ Hac], (kernel_counts gc w' (li_kernel w' Hw')) as [_ Hac'].
  assert (KernelRuns.closed (producer_ (domain w)) -> KernelRuns.closed (producer_ (domain w'))) as Hcl.
  { rewrite <- Hi, <- (ki_impl gc w (li_kernel w Hw)). by apply (KernelRuns.run_closed gc). }
  constructor.
  - rewrite Ha, Hpc. apply (st_accepting w Hs).
  - rewrite Hpc. intros Hn. destruct (st_stopped w Hs Hn) as [o Ho]. exists o. by apply Hj.
  - intros Hx. destruct (Hsh Hx) as [Hy|]; [|done]. by apply Hcl, (st_shutdown w Hs).
  - intros a Hin Hact. rewrite Hac'. unfold drain_low. rewrite Hl.
    destruct (Hacts a Hin Hact) as [Hin0|(_ & ? & Hnew)].
    2: { split; [lia|]. intros Hkind. specialize (Hnew Hkind). destruct (slack w'); lia. }
    pose proof (st_drains w Hs a Hin0 Hact) as [? Hlow]. unfold drain_low in Hlow.
    split; [lia|]. intros Hkind. specialize (Hlow Hkind).
    destruct (slack w) eqn:Hsl; [|destruct (slack w'); lia]. enough (slack w' = true) as -> by lia.
    unfold slack in *. rewrite Hpc. destruct (pc w) eqn:Hpcw; try done.
    destruct (Hroute (unsettled_before w (li_counts w Hw) ltac:(by rewrite Hpcw))) as (_ & _ & He).
    apply negb_true_iff, Z.eqb_neq. apply negb_true_iff, Z.eqb_neq in Hsl. by apply He.
  - rewrite Hpc. intros He a Hin. apply not_true_is_false. intros Hact.
    destruct (Hacts a Hin Hact) as [Hin0|(Hacc & _)].
    + by rewrite (st_emptied w Hs He a Hin0) in Hact.
    + rewrite (st_accepting w Hs) in Hacc. revert Hacc He. by destruct (pc w) as [| | | | | | | |? ? ? []| | | | | |? ? []| | | | | | | | | | |[]| |].
  - pose proof (st_pc w Hs) as Hp. unfold pc_status in *. rewrite Hpc.
    destruct (pc w) as [| | |o| | | | |c o rep [|]| | | | | |slot q []| | | | | | | | | | |[o|]| |]; auto.
    + destruct Hp as [Hc1 Hearly]. split; [by apply Hcl|]. intros Hq p Hlt.
      eapply KernelRuns.run_early; [exact Hrun| |by apply Hearly]. by rewrite (ki_impl gc w (li_kernel w Hw)).
    + by eapply KernelRuns.run_frozen.
    + by apply (on_covered w w' Hon).
    + by apply (on_covered w w' Hon).
Qed.

(** ** Every step *)

(** A step of another thread whose calls keep the kernel's lanes. *)
Lemma administers_beside w w' kw' :
  KernelRuns.administers gc (producer_ (domain w)) (producer_ (domain w')) ->
  kernel_run gc (kernel w) (producer_ (domain w')) kw' -> kernel w' = kw' ->
  (rtc (KernelWorld.kernel_step gc) (kernel w) (kernel w')
    /\ KernelWorld.impl (kernel w') = producer_ (domain w')
    /\ KernelWorld.consuming (kernel w') = None)
  /\ KernelRuns.consumed (producer_ (domain w')) = KernelRuns.consumed (producer_ (domain w)).
Proof.
  intros Ha (Hr & Hi & Hc) ->. split; [by split_and!|]. by apply (KernelRuns.administers_counts gc).
Qed.

Lemma same_route w r : ledger_inv w -> r = route_ (domain w) ->
  settled (ledger_ (domain w)) = false -> steady (route_ (domain w)) r.
Proof. intros Hw ->. by apply (route_same w (li_counts w Hw) (domain w)). Qed.

Definition worker_step w w' : Prop :=
  exists accepted next cl' d' kw' cw',
    samples w accepted /\ (pc w = WCovered -> accepted = Accepted (domain w))
    /\ WorkerStep self identity accepted (pc w) (caller w) (domain w) = (next, cl', d')
    /\ kernel_run gc (kernel w) (producer_ d') kw'
    /\ match pc w with
       | WComplete (Some ref) o report _ => ControlRuns.completes ref o report (controls w) cw'
       | _ => cw' = controls w
       end
    /\ w' = worker_moves w next cl' d' kw' cw'.

Lemma step_cases w w' :
  runtime_step gc self identity block others w w' -> zlen (KernelWorld.history (kernel w')) < 2 ^ 64 ->
  ledger_inv w -> worker_step w w' \/ beside w w'.
Proof.
  intros Hstep Hb Hw. pose proof (same_route w) as Hroute. pose proof (li_kernel w Hw) as [Hi Hidle Hinv _].
  destruct Hstep as [w kw' Hk Hc Hd|w r' Hr|w cw' Hcw|w kind i g reserve Ht ref
    |w before kind ref after base accepted cl imm cl' d' kw' Hcalls Hstarts Hsam Hbase Hlk Hkr
    |w before ref o report after cw' Hcalls Hco|w|w cl cl' d' kw' Hlog Hkr|w|w Hd
    |w accepted next cl' d' kw' cw' Hsam Hex Hst Hkr Hcw]; [right..|left; by exists accepted, next, cl', d', kw', cw'].
  2-4, 6-7, 9-10: constructor; cbn; auto; try by split_and!.
  - assert (KernelWorld.world_inv gc kw') as Hinv'.
    { apply (KernelRuns.kernel_run_inv gc (kernel w)); [by apply rtc_once|exact Hb|done]. }
    destruct (KernelRuns.counts_history gc _ Hinv) as (_ & Hc1 & _), (KernelRuns.counts_history gc _ Hinv') as (_ & Hc2 & _).
    rewrite Hi in Hc1. constructor; cbn; auto; try by split_and!.
    + split_and!; [by apply rtc_once|done..].
    + by rewrite Hc1, Hc2, Hd.
  - intros Hs. apply law_moves; [|done]. by apply (ci_unsettled w (li_counts w Hw)).
  - intros Hs. apply law_stop. by apply (ci_unsettled w (li_counts w Hw)).
  - apply locked_section in Hlk as (k & rs & acts & sh & -> & Hadm & Hsh & Himm).
    match goal with |- beside w ?x => destruct (administers_beside w x kw' Hadm Hkr eq_refl) end.
    constructor; cbn; auto; try by split_and!.
    intros a Hin Hact. destruct imm as [[o rep]|].
    { destruct Himm as (-> & _). by left. }
    destruct Himm as (Hacc & Hne & i & x & Hx & _ & ->).
    apply list_elem_of_lookup in Hin as [j Hj]. apply list_lookup_insert_Some in Hj as [(-> & <- & _)|[_ Hj]].
    + right. cbn in *. pose proof (ledger_order w Hw) as (_ & Hret & Hh & _). unfold retired_inv in Hret.
      destruct Hsam as [[Hs1 Hs2] _]. split; [done|]. split; [exact Hs2|]. intros Hkind. pose proof (Hne Hkind). lia.
    + left. by eapply list_elem_of_lookup_2.
  - apply (logger_section gc) in Hlog as (k & rs & -> & Hadm).
    match goal with |- beside w ?x => destruct (administers_beside w x kw' Hadm Hkr eq_refl) end.
    constructor; cbn; auto; try by split_and!.
Qed.

Lemma step_ledger w w' :
  runtime_step gc self identity block others w w' -> zlen (KernelWorld.history (kernel w')) < 2 ^ 64 ->
  ledger_inv w -> ledger_inv w' /\ onward w w' /\ past (deliveries w) (deliveries w')
    /\ (status_inv w -> status_inv w').
Proof.
  intros Hstep Hb Hw. destruct (step_cases w w' Hstep Hb Hw)
    as [(accepted & next & cl' & d' & kw' & cw' & Hsam & Hex & Hst & Hkr & Hcw & ->)|Hbe].
  - destruct (worker_counts gc self identity w cl' kw' cw' (li_kernel w Hw) (li_counts w Hw) _ _ _ _ Hst)
      as (Hc & Hp & _).
    destruct (run_kernel_inv w kw' d' (li_kernel w Hw) Hkr Hb) as (Hi & Hidle & Hinv).
    assert (ledger_inv (worker_moves w next cl' d' kw' cw')) as Hw'.
    { constructor; [by constructor|done|by eapply worker_retired]. }
    split_and!; [done|by eapply worker_onward|done|]. intros Hs. by eapply worker_status.
  - destruct (beside_ledger w w' Hbe Hb Hw) as [Hw' Hp].
    split_and!; [done|by apply beside_onward|done|]. by apply beside_status.
Qed.
End Steps.
