(* ===== verification/RuntimeReports.v ===== *)
(** * Where the operations of a Runtime are, and what their reports say

    [control_inv] says that every operation that was started is in one place: with the
    thread that starts it, in the table of actions, or completed with a report. [report_ok]
    says what a report that was built holds. [runtime_inv] collects the invariants of a
    Runtime, and every step keeps it. *)
From stdpp Require Import gmap relations list_numbers.
From S2P Require Import Prelude KernelTypes ThreadRegistry RuntimeConfig RuntimeRoute RouteContract RuntimeDomain.
From S2P Require Import RuntimeWorld RuntimeInvariant RuntimeSteps RuntimeStatus.
From S2P Require Operation ControlReserve ControlRuns ProducerKernel ProducerLanes KernelWorld KernelAccounting KernelProperties KernelRuns RouteTypes.
#[local] Open Scope Z_scope.
#[local] Open Scope ulog_scope.

(** ** Places *)

Definition call_ref (c : AppCall) : ControlReserve.NodeRef :=
  match c with CStarted _ ref | CImmediate ref _ _ => ref end.

Definition started_ref (c : AppCall) : option ControlReserve.NodeRef :=
  match c with CStarted _ ref => Some ref | _ => None end.

Definition call_result (c : AppCall) : option (nat * Operation.OperationResult) :=
  match c with
  | CImmediate ref o report => Some (ControlReserve.serial ref, Operation.MakeResult o report)
  | _ => None
  end.

Definition active_ref (a : ControlAction) : option ControlReserve.NodeRef :=
  if active a then completion a else None.

Definition pc_ref (p : WorkerPc) : option ControlReserve.NodeRef :=
  match p with WComplete c _ _ _ => c | _ => None end.

Definition pc_result (p : WorkerPc) : option (nat * Operation.OperationResult) :=
  match p with
  | WComplete (Some ref) o report _ => Some (ControlReserve.serial ref, Operation.MakeResult o report)
  | _ => None
  end.

Definition completion_serial (c : Completion) : nat := ControlReserve.serial (c_ref c).
Definition completion_result (c : Completion) : nat * Operation.OperationResult :=
  (completion_serial c, Operation.MakeResult (c_outcome c) (c_report c)).

Section Places.
Context {R C : Type} `{!Route R, !RouteView R}.
Implicit Types (w : World R C) (d : RuntimeDomain R C).

(** The completions that are held, the operations without a report, and those whose report
    is on its way. *)
Definition held w : list ControlReserve.NodeRef :=
  (call_ref <$> calls w) ++ omap active_ref (actions_ (domain w)) ++ option_list (pc_ref (pc w)).

Definition waiting w : list ControlReserve.NodeRef :=
  omap started_ref (calls w) ++ omap active_ref (actions_ (domain w)).

Definition closing w : list (nat * Operation.OperationResult) :=
  omap call_result (calls w) ++ option_list (pc_result (pc w)).

Record control_inv w : Prop := {
  co_domain : ControlReserve.domain (controls w) = control_reserve_ (domain w);
  co_good : ControlReserve.good (controls w);
  co_table : length (actions_ (domain w)) = length (ControlReserve.nodes (control_reserve_ (domain w)));
  co_held : ControlRuns.completions (controls w) ≡ₚ held w;
  co_started : ControlReserve.started (controls w) = length (starts w);
  co_serials : seq 0 (length (starts w))
    ≡ₚ (ControlReserve.serial <$> waiting w) ++ (completion_serial <$> reports w);
  co_outcomes : completion_result <$> reports w ≡ₚ ControlReserve.outcomes (controls w) ++ closing w;
  co_actions : forall a, a ∈ actions_ (domain w) -> active a = true ->
    exists ref base, completion a = Some ref
      /\ starts w !! ControlReserve.serial ref = Some (action_kind a, base) /\ base <= watermark a;
  co_pc : match pc w with WComplete None _ _ _ => False | _ => True end;
}.

(** What a report says, in a world that comes after it. *)
Record report_ok w (c : Completion) : Prop := {
  ro_exact : c_report c = report_of (Operation.watermark_records (c_report c)) (c_seen c);
  ro_first : first_sequences (c_seen c);
  ro_past : past (c_seen c) (deliveries w);
  ro_range : 0 <= Operation.watermark_records (c_report c) <= Accepted (domain w);
  ro_success : c_outcome c = Operation.kSucceeded ->
    forall q, 0 <= q < Operation.watermark_records (c_report c) ->
      exists x, x ∈ c_seen c /\ d_sequence x = q /\ (d_fate x = Delivered \/ d_fate x = Failed);
  ro_start : exists kind base,
    starts w !! ControlReserve.serial (c_ref c) = Some (kind, base)
    /\ base <= Operation.watermark_records (c_report c)
    /\ (c_outcome c = Operation.kSucceeded -> kind = kShutdown ->
        covered w /\ Operation.watermark_records (c_report c) = Accepted (domain w));
}.
End Places.

(** ** Lemmas: lists of places *)

Lemma omap_all {A B} (f : A -> option B) (l : list A) :
  (forall x, x ∈ l -> is_Some (f x)) -> length (omap f l) = length l.
Proof.
  induction l as [|x l IH]; intros H; [done|]. cbn. destruct (H x ltac:(left)) as [y ->]. cbn.
  rewrite IH; [done|]. intros z Hz. apply H. by right.
Qed.

Lemma omap_middle {A B} (f : A -> option B) before x after :
  omap f (before ++ x :: after) ≡ₚ option_list (f x) ++ omap f (before ++ after).
Proof. rewrite !omap_app. cbn. destruct (f x); cbn; solve_Permutation. Qed.

Lemma fmap_middle {A B} (f : A -> B) before x after :
  f <$> before ++ x :: after ≡ₚ f x :: (f <$> before ++ after).
Proof. rewrite !fmap_app. cbn. solve_Permutation. Qed.

Section Operations.
Context {R C : Type} `{!Route R, !RouteView R, !RouteLaws R}.
Context (gc : Z -> option (list byte)).
Context (self : nat) (identity : Z) (block : nat) (others : nat -> option KernelLifetimeState).
Implicit Types (w : World R C) (d : RuntimeDomain R C).

(** ** Steps and places *)

(** The steps that move no operation. *)
Lemma same_places w w' :
  calls w' = calls w -> starts w' = starts w -> reports w' = reports w -> controls w' = controls w ->
  control_reserve_ (domain w') = control_reserve_ (domain w) ->
  actions_ (domain w') = actions_ (domain w) -> pc_ref (pc w') = None -> pc_ref (pc w) = None ->
  match pc w' with WComplete None _ _ _ => False | _ => True end ->
  control_inv w -> control_inv w'.
Proof.
  intros Hc Hst Hr Hcw Hres Ha Hp' Hp Hno [].
  assert (pc_result (pc w') = None) as Hq' by (destruct (pc w') as [| | | | | | | |[] | | | | | | | | | | | | | | | | | | |]; done).
  assert (pc_result (pc w) = None) as Hq by (destruct (pc w) as [| | | | | | | |[] | | | | | | | | | | | | | | | | | | |]; done).
  unfold held, waiting, closing in *. rewrite Hp, Hq in *.
  constructor; unfold held, waiting, closing; rewrite ?Hc, ?Hst, ?Hr, ?Hcw, ?Hres, ?Ha, ?Hp', ?Hq'; done.
Qed.

(** A completion leaves the places. *)
Lemma completed_places w w' ref o report :
  starts w' = starts w -> reports w' = reports w ->
  ControlRuns.completes ref o report (controls w) (controls w') ->
  control_reserve_ (domain w') = (ControlReserve.TryComplete (Some ref) o report (control_reserve_ (domain w))).2 ->
  actions_ (domain w') = actions_ (domain w) ->
  held w ≡ₚ ref :: held w' -> waiting w' = waiting w ->
  closing w ≡ₚ (ControlReserve.serial ref, Operation.MakeResult o report) :: closing w' ->
  match pc w' with WComplete None _ _ _ => False | _ => True end ->
  control_inv w -> control_inv w'.
Proof.
  intros Hst Hr Hco Hres Ha Hh Hwt Hcl Hno [I1 I2 I3 I4 I5 I6 I7 I8 I9].
  pose proof (ControlRuns.completes_runs _ _ _ _ _ I2 Hco) as [Hrun _].
  pose proof (ControlRuns.completes_completions _ _ _ _ _ Hco) as Hcomp.
  assert (length (ControlReserve.nodes (ControlReserve.domain (controls w')))
    = length (ControlReserve.nodes (ControlReserve.domain (controls w)))) as Hn.
  { clear -Hrun. induction Hrun as [|x y z Hs _ IH]; [done|]. by rewrite IH, (ControlRuns.control_step_nodes _ _ Hs). }
  assert (ControlReserve.domain (controls w') = control_reserve_ (domain w')) as I1'.
  { destruct Hco as (b & a & _ & ->). cbn. by rewrite Hres, I1. }
  constructor; rewrite ?Hst, ?Hr, ?Ha, ?Hwt; try done.
  - by eapply ControlReserve.steps_good.
  - rewrite <- I1', Hn, I1. done.
  - rewrite I4, Hh in Hcomp. by apply (Permutation_cons_inv (a := ref)).
  - destruct Hco as (b & a & _ & ->). done.
  - rewrite I7. destruct Hco as (b & a & _ & ->). cbn. rewrite Hcl. solve_Permutation.
Qed.

(** The steps of the worker that reach a completion. *)
Lemma to_complete accepted p cl d next cl' d' :
  WorkerStep self identity accepted p cl d = (next, cl', d') ->
  match p with
  | WDrains _ | WActions _ _ => True
  | _ => pc_ref next = None /\ match next with WComplete None _ _ _ => False | _ => True end
  end.
Proof.
  intros Hstep. destruct p; try done; cbn [WorkerStep] in Hstep;
    unfold FinishClose, after_drains, after_actions, after_scan, after_completion in Hstep;
    repeat case_match; simplify_eq; done.
Qed.

(** Whether the worker is about to take an action. *)
Definition taking (p : WorkerPc) : bool := match p with WDrains _ | WActions _ _ => true | _ => false end.

(** What an active action adds to the places. *)
Lemma active_ref_Some a ref : active a = true -> completion a = Some ref -> active_ref a = Some ref.
Proof. unfold active_ref. by intros -> ->. Qed.

(** A worker takes an action out of the table. *)
Lemma taken_places w next cl' d' kw' ready mark ref report o nx :
  (forall a, ready a = true -> active a = true) ->
  TakeActionLocked ready mark (domain w) = (Some (ref, report), d') ->
  next = WComplete ref o report nx ->
  taking (pc w) = true ->
  let w' := worker_moves w next cl' d' kw' (controls w) in
  control_inv w -> control_inv w' /\ exists a i r, actions_ (domain w) !! i = Some a /\ ready a = true
    /\ ref = Some r /\ report = BuildReportLocked (mark a) (domain w)
    /\ reports w' = reports w ++ [{| c_ref := r; c_outcome := o; c_report := report; c_seen := deliveries w |}].
Proof.
  intros Hready Ht -> Hpc w' Hw. assert (pc_ref (pc w) = None) as Hp by (revert Hpc; by destruct (pc w)). pose proof Hw as [I1 I2 I3 I4 I5 I6 I7 I8 I9].
  apply take_action_spec in Ht as (i & a & Ha & Hr & -> & -> & ->).
  destruct (I8 a) as (r & base & Hc & Hst & Hle); [by eapply list_elem_of_lookup_2|by apply Hready|].
  pose proof (active_ref_Some a r (Hready a Hr) Hc) as Hact.
  subst w'. rewrite Hc. set (w' := worker_moves _ _ _ _ _ _).
  destruct (omap_insert active_ref (actions_ (domain w)) i a (a <| active := false |> <| completion := None |>) Ha)
    as (rest & H1 & H2). rewrite Hact in H1. cbn in H1, H2.
  assert (reports w' = reports w ++ [{| c_ref := r; c_outcome := o; c_report := BuildReportLocked (mark a) (domain w);
    c_seen := deliveries w |}]) as Hrep.
  { unfold w', worker_moves, builds. cbn [modify reports]. revert Hpc. by destruct (pc w). }
  split; [|by exists a, i, r].
  assert (pc_result (pc w) = None) as Hpr by (revert Hpc; by destruct (pc w)).
  constructor; rewrite ?Hrep; cbn [w' worker_moves modify domain calls starts controls pc actions_ control_reserve_]; try done.
  - by rewrite length_insert.
  - rewrite I4. unfold held. rewrite Hp. cbn. rewrite H1, H2. solve_Permutation.
  - rewrite I6. unfold waiting. cbn. rewrite H1, H2. rewrite !fmap_app. cbn. solve_Permutation.
  - rewrite fmap_app, I7. unfold closing. cbn. rewrite Hpr. cbn. solve_Permutation.
  - intros x Hx Hxa. apply list_elem_of_lookup in Hx as [j Hj].
    apply list_lookup_insert_Some in Hj as [(_ & <- & _)|[_ Hj]]; [done|]. apply I8; [|done].
    by eapply list_elem_of_lookup_2.
Qed.

Lemma worker_control w w' :
  worker_step gc self identity w w' -> control_inv w -> control_inv w'.
Proof.
  intros (accepted & next & cl' & d' & kw' & cw' & _ & _ & Hst & _ & Hcw & ->) Hw.
  pose proof (worker_frame self identity _ _ _ _ _ _ _ Hst) as (_ & Ha & Hc & _).
  destruct (decide (is_Some (pc_ref (pc w)))) as [[r Hr]|Hnone].
  - destruct (pc w) as [| | | | | | | |c o rep nx| | | | | | | | | | | | | | | | | | |] eqn:Hpc; try done.
    cbn in Hr. subst c. cbn [WorkerStep] in Hst. injection Hst as <- <- <-.
    apply (completed_places w _ r o rep); try done.
    + cbn. unfold builds. rewrite Hpc. by rewrite app_nil_r.
    + unfold held. rewrite Hpc. cbn. destruct nx; cbn; solve_Permutation.
    + unfold closing. rewrite Hpc. cbn. destruct nx; cbn; solve_Permutation.
    + by destruct nx.
  - assert (pc_ref (pc w) = None) as Hp by (by destruct (pc_ref (pc w)) eqn:?; [destruct Hnone|]).
    assert (cw' = controls w) as ->.
    { revert Hcw Hp. by destruct (pc w) as [| | | | | | | |[]| | | | | | | | | | | | | | | | | | |]. }
    pose proof (co_pc w Hw) as Hno.
    assert (control_reserve_ d' = control_reserve_ (domain w)) as Hres.
    { clear Hst Hcw. revert Hp Hno Hc. by destruct (pc w) as [| | | | | | | |[]| | | | | | | | | | | | | | | | | | |]. }
    pose proof (to_complete _ _ _ _ _ _ _ Hst) as Hn.
    destruct (taking (pc w)) eqn:Htk.
    2: { assert (builds w next = []) as Hb by (unfold builds; revert Hp Htk; by destruct (pc w)).
      apply (same_places w); cbn; rewrite ?Hb, ?app_nil_r; try done;
        revert Ha Hn Htk; clear; destruct (pc w); intros H1 H2 H3; try done; by destruct H2. }
    destruct (pc w) as [| | | | | | |a1|c o rep nx|o a2| | | | | | | | | | | | | | | | | |] eqn:Hpc; try done;
      cbn [WorkerStep] in Hst.
    + destruct (TakeReadyDrain (domain w)) as [[[ref report]|] d1] eqn:Ht; simplify_eq.
      * eapply taken_places; [|exact Ht|done|by rewrite Hpc|done].
        unfold drain_ready. intros x Hx. by apply andb_true_iff in Hx as [[? _]%andb_true_iff _].
      * apply take_action_spec in Ht as [-> _].
        destruct a1; apply (same_places w); cbn; unfold builds; rewrite ?Hpc; cbn; by rewrite ?app_nil_r.
    + destruct (TakeActive accepted (domain w)) as [[[ref report]|] d1] eqn:Ht; simplify_eq.
      * eapply taken_places; [|exact Ht|done|by rewrite Hpc|done]. done.
      * apply take_action_spec in Ht as [-> _].
        destruct a2; apply (same_places w); cbn; unfold builds; rewrite ?Hpc; cbn; by rewrite ?app_nil_r.
Qed.

(** [TryStart] makes an operation. *)
Lemma start_places w kind i g reserve w' :
  ControlReserve.TryStart (control_reserve_ (domain w)) = inr (i, g, reserve) ->
  let ref := {| ControlReserve.node := i; ControlReserve.node_generation := g;
                ControlReserve.serial := ControlReserve.started (controls w) |} in
  w' = w <| domain ::= fun d => d <| control_reserve_ := reserve |> |>
         <| controls ::= ControlRuns.begins ref reserve |>
         <| calls ::= cons (CStarted kind ref) |>
         <| starts ::= fun s => s ++ [(kind, Accepted (domain w))] |> ->
  control_inv w -> control_inv w'.
Proof.
  intros Ht ref -> [I1 I2 I3 I4 I5 I6 I7 I8 I9]. rewrite <- I1 in Ht.
  pose proof (ControlReserve.step_start (controls w) i g reserve Ht) as Hs. fold ref in Hs.
  constructor; cbn [domain controls calls starts reports pc modify actions_ control_reserve_]; try done.
  - by apply (ControlReserve.control_step_good _ _ Hs).
  - rewrite I3, <- I1. symmetry. apply (ControlRuns.control_step_nodes _ _ Hs).
  - change (ref :: ControlRuns.completions (controls w) ≡ₚ ref :: held w). by rewrite I4.
  - rewrite length_app, Nat.add_1_r. cbn. by rewrite I5.
  - rewrite length_app, Nat.add_1_r, seq_S. rewrite I6. unfold waiting. cbn. rewrite <- I5.
    rewrite !fmap_app. cbn. solve_Permutation.
  - intros a Ha Hact. destruct (I8 a Ha Hact) as (r & base & Hc & Hst & Hle). exists r, base.
    split_and!; [done| |done]. by apply lookup_app_l_Some.
Qed.

(** The locked section moves the operation. *)
Lemma locked_places w before kind ref after base accepted cl immediate cl' d' kw' w' :
  calls w = before ++ CStarted kind ref :: after ->
  starts w !! ControlReserve.serial ref = Some (kind, base) -> base <= accepted ->
  StartActionLocked self identity kind accepted (Some ref) cl (domain w) = (immediate, cl', d') ->
  w' = w <| domain := d' |> <| kernel := kw' |>
         <| calls := match immediate with
                     | Some (o, report) => before ++ CImmediate ref o report :: after
                     | None => before ++ after
                     end |>
         <| reports ::= fun rs => rs ++
              match immediate with
              | Some (o, report) =>
                  [{| c_ref := ref; c_outcome := o; c_report := report; c_seen := deliveries w |}]
              | None => []
              end |> ->
  control_inv w -> control_inv w'.
Proof.
  intros Hcalls Hst Hbase Hlk -> [I1 I2 I3 I4 I5 I6 I7 I8 I9].
  apply (locked_section gc) in Hlk as (k & rs & acts & sh & -> & _ & _ & Himm).
  unfold held, waiting, closing in *. rewrite Hcalls in *.
  rewrite fmap_middle in I4. rewrite (omap_middle started_ref) in I6. rewrite (omap_middle call_result) in I7.
  cbn in I4, I6, I7.
  destruct immediate as [[o report]|].
  - destruct Himm as (-> & _). constructor; unfold held, waiting, closing;
      cbn [domain controls calls starts reports pc modify actions_ control_reserve_]; try done.
    + rewrite I4, fmap_middle. solve_Permutation.
    + rewrite I6, (omap_middle started_ref), !fmap_app. cbn. rewrite ?fmap_app. solve_Permutation.
    + rewrite fmap_app, I7, (omap_middle call_result). cbn. solve_Permutation.
  - destruct Himm as (_ & _ & i & a & Ha & Hf & ->).
    set (new := {| action_kind := kind; watermark := accepted; completion := Some ref; active := true |}).
    destruct (omap_insert active_ref (actions_ (domain w)) i a new Ha) as (rest & H1 & H2).
    assert (active_ref a = None) as Hnone by (unfold active_ref; by rewrite Hf).
    rewrite Hnone in H1. cbn in H1, H2. constructor; unfold held, waiting, closing;
      cbn [domain controls calls starts reports pc modify actions_ control_reserve_]; rewrite ?app_nil_r; try done.
    + by rewrite length_insert.
    + rewrite I4, H1, H2. solve_Permutation.
    + rewrite I6, H1, H2. cbn. rewrite !fmap_app. cbn. solve_Permutation.
    + intros x Hx Hact. apply list_elem_of_lookup in Hx as [j Hj].
      apply list_lookup_insert_Some in Hj as [(_ & <- & _)|[_ Hj]]; [by exists ref, base|]. apply I8; [|done].
      by eapply list_elem_of_lookup_2.
Qed.

Lemma step_control w w' :
  runtime_step gc self identity block others w w' -> control_inv w -> control_inv w'.
Proof.
  intros Hstep Hw. pose proof Hw as [I1 I2 I3 I4 I5 I6 I7 I8 I9].
  destruct Hstep as [w kw' Hk Hc Hd|w r' Hr|w cw' Hcw|w kind i g reserve Ht ref
    |w before kind ref after base accepted cl imm cl' d' kw' Hcalls Hstarts Hsam Hbase Hlk Hkr
    |w before ref o report after cw' Hcalls Hco|w|w cl cl' d' kw' Hlog Hkr|w|w Hd
    |w accepted next cl' d' kw' cw' Hsam Hex Hst Hkr Hcw].
  - by constructor.
  - by constructor.
  - pose proof (ControlRuns.control_other_outcomes _ _ Hcw) as Ho. destruct Hcw as (Hs & Hc & Hn).
    constructor; cbn; try done.
    + by eapply ControlReserve.control_step_good.
    + rewrite I3, <- I1. symmetry. apply (ControlRuns.control_step_nodes _ _ Hs).
    + by rewrite Hc.
    + by rewrite Hn.
    + by rewrite Ho.
  - by eapply start_places.
  - by eapply locked_places.
  - apply (completed_places w _ ref o report); try done.
    + unfold held. rewrite Hcalls, fmap_middle. done.
    + unfold waiting. cbn. rewrite Hcalls, !omap_app. done.
    + unfold closing. rewrite Hcalls, (omap_middle call_result). done.
  - by constructor.
  - apply (logger_section gc) in Hlog as (k & rs & -> & _). by constructor.
  - by constructor.
  - by constructor.
  - eapply worker_control; [|exact Hw]. by exists accepted, next, cl', d', kw', cw'.
Qed.

(** ** Steps and reports *)

(** What was retired is seen, and decided. *)
Lemma retired_seen w q :
  counts_inv w -> 0 <= q < retired_records (ledger_ (domain w)) ->
  exists x, x ∈ deliveries w /\ d_sequence x = q /\ (d_fate x = Delivered \/ d_fate x = Failed).
Proof.
  intros Hw Hq. rewrite <- (ci_retired w Hw) in Hq.
  destruct (lookup_lt_is_Some_2 (retirements w) (Z.to_nat q)) as [x Hx]; [unfold zlen in Hq; lia|].
  destruct (ci_order w Hw _ _ Hx) as [Hs Hf]. exists x. split_and!; [|lia|done].
  apply elem_of_app. left. by eapply list_elem_of_lookup_2.
Qed.

(** A report that is built while [w] steps to [w']. *)
Lemma built_ok w w' mark ref o kind base :
  ledger_inv gc w -> onward gc w w' -> ledger_inv gc w' -> past (deliveries w) (deliveries w') ->
  reportable w mark -> 0 <= mark <= Accepted (domain w) -> base <= mark ->
  starts w' !! ControlReserve.serial ref = Some (kind, base) ->
  (o = Operation.kSucceeded -> mark = retired_records (ledger_ (domain w)) /\ (kind = kShutdown -> covered w)) ->
  report_ok w' {| c_ref := ref; c_outcome := o; c_report := BuildReportLocked mark (domain w);
                  c_seen := deliveries w |}.
Proof.
  intros Hw Hon Hw' Hpast Hrep Hm Hb Hst Hok. pose proof (ledger_order gc w Hw) as (_ & _ & _ & _ & _ & Hc).
  destruct (kernel_counts gc w (li_kernel gc w Hw)) as [_ Ha], (kernel_counts gc w' (li_kernel gc w' Hw')) as [_ Ha'].
  pose proof (KernelWorld.reachable_history gc _ _ (on_kernel gc _ _ Hon)).
  pose proof (report_exact w mark (li_counts gc w Hw) (deliveries_bound gc w (li_kernel gc w Hw) (li_counts gc w Hw)) ltac:(lia) Hrep) as He.
  constructor; cbn [c_ref c_outcome c_report c_seen]; rewrite ?He; cbn [report_of Operation.watermark_records]; try done.
  - apply (ci_first w (li_counts gc w Hw)).
  - lia.
  - intros Ho q Hq. destruct (Hok Ho) as [-> _]. by apply retired_seen; [apply (li_counts gc w Hw)|].
  - exists kind, base. split_and!; [done..|]. intros Ho Hk. destruct (Hok Ho) as [-> Hcov].
    destruct (covered_stays gc w w' (on_kernel gc _ _ Hon) Hw Hw' (on_retired gc _ _ Hon) (Hcov Hk)) as [Hc' Hacc].
    split; [done|]. rewrite Hacc. apply (Hcov Hk).
Qed.

(** A report stays true. *)
Lemma report_stays w w' c :
  ledger_inv gc w -> onward gc w w' -> ledger_inv gc w' -> past (deliveries w) (deliveries w') ->
  (exists more, starts w' = starts w ++ more) -> report_ok w c -> report_ok w' c.
Proof.
  intros Hw Hon Hw' Hpast [more Hmore] [R1 R2 R3 R4 R5 (kind & base & R6 & R7 & R8)].
  destruct (kernel_counts gc w (li_kernel gc w Hw)) as [_ Ha], (kernel_counts gc w' (li_kernel gc w' Hw')) as [_ Ha'].
  pose proof (KernelWorld.reachable_history gc _ _ (on_kernel gc _ _ Hon)).
  constructor; try done; [by etrans|lia|]. exists kind, base. rewrite Hmore.
  split_and!; [by apply lookup_app_l_Some|done|]. intros Ho Hk. destruct (R8 Ho Hk) as [Hcov ->].
  by destruct (covered_stays gc w w' (on_kernel gc _ _ Hon) Hw Hw' (on_retired gc _ _ Hon) Hcov).
Qed.

(** ** The invariant *)

Record runtime_inv w : Prop := {
  ri_ledger : ledger_inv gc w;
  ri_status : status_inv w;
  ri_control : control_inv w;
  ri_reports : forall c, c ∈ reports w -> report_ok w c;
}.

(** While actions are accepted there is a free entry for an operation that was started. *)
Lemma free_entry w kind ref :
  control_inv w -> CStarted kind ref ∈ calls w -> free_action (domain w) <> None.
Proof.
  intros [I1 I2 I3 I4 I5 I6 I7 I8 I9] Hcall Hnone.
  pose proof (ControlRuns.completions_fit _ I2) as Hfit. rewrite I1 in Hfit.
  assert (length (omap active_ref (actions_ (domain w))) = length (actions_ (domain w))) as Hall.
  { apply omap_all. intros a Ha. apply list_elem_of_lookup in Ha as Hl. destruct Hl as [i Hi].
    assert (active a = true) as Hact.
    { unfold free_action in Hnone. rewrite first_index_None in Hnone. by apply (Hnone i), negb_false_iff in Hi. }
    destruct (I8 a Ha Hact) as (r & _ & Hc & _). exists r. by apply active_ref_Some. }
  assert (0 < length (calls w))%nat as Hpos by (by destruct (calls w); [apply elem_of_nil in Hcall|cbn; lia]).
  unfold zlen in Hfit. rewrite I4 in Hfit. unfold held in Hfit. rewrite !length_app, length_fmap, Hall in Hfit. lia.
Qed.

(** The report that the locked section builds. *)
Lemma immediate_ok w before kind ref after base accepted cl cl' d' o report w' :
  runtime_inv w -> onward gc w w' -> ledger_inv gc w' -> past (deliveries w) (deliveries w') ->
  calls w = before ++ CStarted kind ref :: after ->
  starts w !! ControlReserve.serial ref = Some (kind, base) -> starts w' = starts w ->
  samples w accepted -> base <= accepted ->
  StartActionLocked self identity kind accepted (Some ref) cl (domain w) = (Some (o, report), cl', d') ->
  report_ok w' {| c_ref := ref; c_outcome := o; c_report := report; c_seen := deliveries w |}.
Proof.
  intros [Hl Hs Hco _] Hon Hl' Hpast Hcalls Hst Hst' [[Hs1 Hs2] _] Hb Hlk.
  apply (locked_section gc) in Hlk as (k & rs & acts & sh & _ & _ & _ & _ & -> & Hcase).
  pose proof (ledger_order gc w Hl) as (H0 & Hr & Hh & _). unfold retired_inv in Hr.
  apply (built_ok w w' accepted ref o kind base); try done; [|lia|by rewrite Hst'|].
  - unfold reportable. destruct (settled _) eqn:Hset; [done|]. split; [lia|].
    destruct Hcase as [[Hacc _]|[_ [[-> _]|[_ Hfree]]]].
    + right. rewrite (st_accepting w Hs) in Hacc. unfold in_hand. by destruct (pc w).
    + by left.
    + exfalso. apply (free_entry w kind ref Hco); [|done]. rewrite Hcalls. apply elem_of_app. right. left.
  - intros ->. destruct Hcase as [[Hacc Hlate]|[_ [[-> ->]|[? _]]]]; [|done|done].
    rewrite (st_accepting w Hs) in Hacc. destruct (st_stopped w Hs Hacc) as [o Ho].
    assert (covered w) as Hcov.
    { unfold LateOutcome in Hlate. destruct (destruction_stop_requested_ (domain w)) eqn:Hd; [done|].
      destruct (route_failed_ (domain w)) eqn:Hf; [done|]. destruct o; cbn in Ho; [done|..];
        rewrite Hd, Hf in Ho; by destruct Ho. }
    split; [|done]. destruct Hcov as [_ Hcov]. lia.
Qed.

(** The reports that the worker builds. *)
Lemma worker_built_ok w w' accepted next cl' d' kw' cw' c :
  runtime_inv w -> onward gc w w' -> ledger_inv gc w' -> past (deliveries w) (deliveries w') ->
  samples w accepted ->
  WorkerStep self identity accepted (pc w) (caller w) (domain w) = (next, cl', d') ->
  w' = worker_moves w next cl' d' kw' cw' -> c ∈ builds w next -> report_ok w' c.
Proof.
  intros [Hl Hs Hco _] Hon Hl' Hpast [[Hs1 Hs2] Hs3] Hst Hw' Hc.
  pose proof (ledger_order gc w Hl) as (H0 & Hr & Hh & _). unfold retired_inv in Hr.
  assert (after_settle (pc w) = false -> settled (ledger_ (domain w)) = false) as Hun
    by apply (unsettled_before w (li_counts gc w Hl)).
  assert (forall ready mark taken d1 ref o report nx,
    TakeActionLocked ready mark (domain w) = (taken, d1) -> taken = Some (ref, report) ->
    next = WComplete ref o report nx -> (forall a, ready a = true -> active a = true) ->
    taking (pc w) = true ->
    (forall a, a ∈ actions_ (domain w) -> ready a = true ->
       retired_records (ledger_ (domain w)) <= mark a /\ watermark a <= mark a <= Accepted (domain w)
       /\ (o = Operation.kSucceeded -> mark a = retired_records (ledger_ (domain w))
           /\ (action_kind a = kShutdown -> covered w))) ->
    report_ok w' c) as Hbuild.
  { intros ready mark taken d1 ref o report nx Ht -> -> Hready Htk Hmark.
    apply take_action_spec in Ht as (i & a & Ha & Hra & -> & -> & _).
    assert (a ∈ actions_ (domain w)) as Hin by (by eapply list_elem_of_lookup_2).
    destruct (co_actions w Hco a Hin (Hready a Hra)) as (r & base & Hcm & Hsa & Hba).
    destruct (Hmark a Hin Hra) as (M1 & M2 & M3).
    assert (c = {| c_ref := r; c_outcome := o; c_report := BuildReportLocked (mark a) (domain w);
      c_seen := deliveries w |}) as ->.
    { rewrite Hcm in Hc. unfold builds in Hc. revert Hc Htk. destruct (pc w); try done;
        by intros ->%list_elem_of_singleton. }
    apply (built_ok w w' (mark a) r o (action_kind a) base); try done; [|lia..|by rewrite Hw'].
    unfold reportable. rewrite Hun by (revert Htk; by destruct (pc w)). split; [done|]. right.
    unfold in_hand. revert Htk. by destruct (pc w). }
  destruct (pc w) as [| | | | | | |a1| |o a2| | | | | | | | | | | | | | | | | |] eqn:Hpc;
    try (unfold builds in Hc; rewrite Hpc in Hc; by apply elem_of_nil in Hc); cbn [WorkerStep] in Hst.
  - unfold TakeReadyDrain in Hst. destruct (TakeActionLocked _ _ _) as [[[ref report]|] d1] eqn:Ht; simplify_eq.
    2: { unfold builds in Hc. rewrite Hpc in Hc. by destruct a1; apply elem_of_nil in Hc. }
    eapply Hbuild; [exact Ht|reflexivity|reflexivity| | |].
    + intros a Ha. unfold drain_ready in Ha. by apply andb_true_iff in Ha as [[? _]%andb_true_iff _].
    + done.
    + intros a Hin Ha. unfold drain_ready in Ha.
      apply andb_true_iff in Ha as [[Hact Hk%bool_decide_eq_true]%andb_true_iff Hle%Z.leb_le].
      destruct (st_drains w Hs a Hin Hact) as [Hup Hlow]. specialize (Hlow Hk).
      unfold drain_low, slack in Hlow. rewrite Hpc in Hlow.
      split_and!; try lia. intros _. split; [lia|]. congruence.
  - unfold TakeActive in Hst. destruct (TakeActionLocked _ _ _) as [[[ref report]|] d1] eqn:Ht; simplify_eq.
    2: { unfold builds in Hc. rewrite Hpc in Hc. by destruct a2; apply elem_of_nil in Hc. }
    eapply Hbuild; [exact Ht|reflexivity|reflexivity|done| |].
    + done.
    + intros a Hin Hact. destruct (st_drains w Hs a Hin Hact) as [Hup Hlow]. specialize (Hs3 a Hin Hact).
      unfold drain_low, slack in Hlow. rewrite Hpc in Hlow. cbn in Hlow.
      assert (retired_records (ledger_ (domain w)) <= ActionWatermarkLocked accepted a
        /\ watermark a <= ActionWatermarkLocked accepted a <= Accepted (domain w)) as [Hm1 Hm2].
      { unfold ActionWatermarkLocked. destruct (action_kind a) eqn:Hk; [specialize (Hlow eq_refl)|]; lia. }
      split_and!; [lia..|]. intros ->. pose proof (st_pc w Hs) as Hcov. unfold pc_status in Hcov. rewrite Hpc in Hcov.
      split; [|done]. destruct Hcov as [_ Hcov]. lia.
Qed.

Lemma step_inv w w' :
  runtime_step gc self identity block others w w' -> zlen (KernelWorld.history (kernel w')) < 2 ^ 64 ->
  runtime_inv w -> runtime_inv w'.
Proof.
  intros Hstep Hb Hw. pose proof Hw as [Hl Hs Hco Hrep].
  destruct (step_ledger gc self identity block others w w' Hstep Hb Hl) as (Hl' & Hon & Hpast & Hs').
  constructor; [done|by apply Hs'|by eapply step_control|].
  assert (forall c, (exists more, starts w' = starts w ++ more) -> c ∈ reports w -> report_ok w' c) as Hold.
  { intros c Hmore Hc. apply (report_stays w); auto. }
  assert (starts w' = starts w -> forall c, c ∈ reports w -> report_ok w' c) as Hsame.
  { intros He c. apply Hold. exists []. by rewrite app_nil_r. }
  destruct Hstep as [w kw' Hk Hc Hd|w r' Hr|w cw' Hcw|w kind i g reserve Ht ref
    |w before kind ref after base accepted cl imm cl' d' kw' Hcalls Hstarts Hsam Hbase Hlk Hkr
    |w before ref o report after cw' Hcalls Hco'|w|w cl cl' d' kw' Hlog Hkr|w|w Hd
    |w accepted next cl' d' kw' cw' Hsam Hex Hst Hkr Hcw]; try by apply Hsame.
  - intros c. apply Hold. by eexists.
  - intros c [Hc|Hc]%elem_of_app; [by apply Hsame|]. destruct imm as [[o report]|]; [|by apply elem_of_nil in Hc].
    apply list_elem_of_singleton in Hc as ->. by eapply immediate_ok.
  - intros c [Hc|Hc]%elem_of_app; [by apply Hsame|]. by eapply worker_built_ok.
Qed.

(** ** Runs *)

Lemma step_kernel w w' :
  runtime_step gc self identity block others w w' ->
  zlen (KernelWorld.history (kernel w)) <= zlen (KernelWorld.history (kernel w')).
Proof.
  destruct 1 as [w kw' Hk _ _| | | |w before kind ref after base accepted cl imm cl' d' kw' _ _ _ _ _ Hkr| |
    |w cl cl' d' kw' _ Hkr| | |w accepted next cl' d' kw' cw' _ _ _ Hkr _]; try done.
  - by apply (KernelWorld.reachable_history gc), rtc_once.
  - destruct Hkr as [Hr _]. by apply (KernelWorld.reachable_history gc).
  - destruct Hkr as [Hr _]. by apply (KernelWorld.reachable_history gc).
  - destruct Hkr as [Hr _]. by apply (KernelWorld.reachable_history gc).
Qed.

Lemma run_history w w' :
  rtc (runtime_step gc self identity block others) w w' ->
  zlen (KernelWorld.history (kernel w)) <= zlen (KernelWorld.history (kernel w')).
Proof. induction 1 as [|x y z Hs _ IH]; [done|]. pose proof (step_kernel _ _ Hs). lia. Qed.

(** What holds along a run, given the invariant at each of its worlds. *)
Lemma run_ind (P : World R C -> Prop) w w' :
  (forall x y, runtime_inv x -> runtime_inv y -> runtime_step gc self identity block others x y -> P x -> P y) ->
  rtc (runtime_step gc self identity block others) w w' -> zlen (KernelWorld.history (kernel w')) < 2 ^ 64 ->
  runtime_inv w -> P w -> runtime_inv w' /\ P w'.
Proof.
  intros HP Hrun Hb. revert w Hrun. refine (rtc_ind_l _ _ _ _); [done|].
  intros x y Hxy Hyz IH Hx HPx. pose proof (run_history _ _ Hyz).
  assert (runtime_inv y) as Hy by (apply (step_inv x); [done|lia|done]).
  apply IH; [done|]. by apply (HP x).
Qed.

Lemma runtime_run_inv w w' :
  rtc (runtime_step gc self identity block others) w w' -> zlen (KernelWorld.history (kernel w')) < 2 ^ 64 ->
  runtime_inv w -> runtime_inv w'.
Proof. intros Hrun Hb Hw. by apply (run_ind (fun _ => True) w w'). Qed.

(** What a run does not take back. *)
Lemma run_onward w w' :
  rtc (runtime_step gc self identity block others) w w' -> zlen (KernelWorld.history (kernel w')) < 2 ^ 64 ->
  runtime_inv w -> (covered w -> covered w' /\ Accepted (domain w') = Accepted (domain w))
    /\ past (deliveries w) (deliveries w').
Proof.
  intros Hrun Hb Hw. apply (run_ind (fun x => (covered w -> covered x /\ Accepted (domain x) = Accepted (domain w))
    /\ past (deliveries w) (deliveries x)) w w'); try done.
  intros x y Hx Hy Hxy [Hcov Hpast].
  destruct (step_ledger gc self identity block others x y Hxy (ki_bound gc y (li_kernel gc y (ri_ledger y Hy)))
    (ri_ledger x Hx)) as (_ & Hon & Hp & _).
  split; [|by etrans]. intros Hc. destruct (Hcov Hc) as [Hcx <-].
  by apply (covered_stays gc x y (on_kernel gc _ _ Hon) (ri_ledger x Hx) (ri_ledger y Hy) (on_retired gc _ _ Hon)).
Qed.

(** ** The beginning *)

Lemma initial_inv config route valid bytes d cl :
  MakeRuntimeDomain config route valid bytes = inr d ->
  payload_capacity_bytes config <= size_max -> Z.of_nat (control_operations config) < 2 ^ 64 ->
  route_ok route -> route_view route = [] ->
  runtime_inv (initial_world d cl).
Proof.
  intros Hmake Hpay Hcap Hok Hview. unfold MakeRuntimeDomain in Hmake.
  destruct (ProducerKernel.MakeProducerKernel _ _) as [|producer] eqn:Hp; [done|].
  destruct (ControlReserve.MakeReserve _ _ _) as [|reserve] eqn:Hr; [done|]. injection Hmake as <-.
  unfold ProducerKernel.MakeProducerKernel in Hp.
  pose proof (KernelProperties.validate_cases (kernel_config config) false) as Hvalid.
  destruct (ProducerKernel.ValidateConfiguration _ _) as [|]; [done|]. injection Hp as <-.
  pose proof (KernelProperties.valid_config_ok _ Hvalid Hpay) as Hkc.
  pose proof (KernelWorld.initial_world_inv gc _ Hkc) as Hinv.
  set (d := Build_RuntimeDomain _ _ _ _ _ _ _ _ _ _ _ _ _ _ _ _ _ _). set (w := initial_world d cl).
  assert (deliveries w = []) as Hd by (unfold deliveries; cbn; by rewrite Hview).
  assert (forall a, a ∈ actions_ d -> active a = false) as Hidle.
  { intros a Ha. by apply elem_of_replicate_inv in Ha as ->. }
  constructor.
  - constructor; [by constructor| |done]. constructor; rewrite ?Hd; try done. by unfold first_sequences.
  - constructor; cbn; try done. intros a Ha Hact. rewrite (Hidle a Ha) in Hact. done.
  - assert (omap active_ref (actions_ d) = []) as Hnone.
    { clear -Hidle. induction (actions_ d) as [|a l IH]; [done|]. cbn. unfold active_ref at 1.
      rewrite (Hidle a ltac:(left)). apply IH. intros x Hx. apply Hidle. by right. }
    constructor; unfold held, waiting, closing; cbn [domain controls calls starts reports pc w initial_world];
      rewrite ?Hnone; try done.
    + by eapply ControlReserve.control_initial_good.
    + cbn. rewrite length_replicate. unfold ControlReserve.MakeReserve in Hr. repeat case_match; simplify_eq.
      cbn. by rewrite length_fmap, length_seq.
    + intros a Ha Hact. by rewrite (Hidle a Ha) in Hact.
  - intros c Hc. by apply elem_of_nil in Hc.
Qed.
End Operations.
