(* ===== verification/RuntimeCreation.v ===== *)
(** * Creating a Runtime

    Validation accepts exactly the configurations of the documented ranges, what it
    accepts can always be built, and a Runtime that is created starts with every invariant
    of [RuntimeReports.v], whatever its sink. *)
From stdpp Require Import strings relations list_numbers.
From S2P Require Import Prelude KernelTypes RuntimeConfig RuntimeRoute RouteContract RouteViews RuntimeDomain.
From S2P Require Import RuntimeWorld RuntimeInvariant RuntimeSteps RuntimeStatus RuntimeReports.
From S2P Require Operation ControlReserve ProducerKernel KernelWorld KernelProperties RawFileSink InMemoryDestination InMemoryEncodedDestination RawEncoder.
#[local] Open Scope Z_scope.
#[local] Open Scope ulog_scope.

(** ** Validation *)

(** The fields in the order of the tests. *)
Definition runtime_fields : list RuntimeCreateErrorCode :=
  [kInvalidThreshold; kInvalidMaximumRecordBytes; kInvalidPayloadCapacity; kInvalidProducerSlots;
   kInvalidIngressCells; kInvalidControlCapacity; kInvalidWorkerCount; kInvalidStartupTimeout;
   kInvalidDestructionTimeout].

(** The documented range of the field a code names. *)
Definition runtime_field_valid (config : RuntimeConfig) (c : RuntimeCreateErrorCode) : Prop :=
  match c with
  | kInvalidThreshold => threshold config <= kNone
  | kInvalidMaximumRecordBytes =>
      128 <= maximum_record_bytes config <= 16384 /\ (64 | maximum_record_bytes config)
  | kInvalidPayloadCapacity =>
      maximum_record_bytes config <= payload_capacity_bytes config
      /\ (64 | payload_capacity_bytes config)
  | kInvalidProducerSlots => (1 <= producer_slots config <= 32)%nat
  | kInvalidIngressCells => (producer_slots config <= ingress_cells config <= 64)%nat
  | kInvalidControlCapacity => (1 <= control_operations config <= 64)%nat
  | kInvalidWorkerCount => worker_threads config = 1%nat
  | kInvalidStartupTimeout => 0 < startup_timeout config <= 24 * 60 * 60 * 1000
  | kInvalidDestructionTimeout => 0 < destruction_timeout config <= 24 * 60 * 60 * 1000
  | _ => True
  end.

Lemma runtime_aligned x : (x mod kAccountingQuantumBytes =? 0) = true <-> (64 | x).
Proof. rewrite Z.eqb_eq. by apply Z.mod_divide. Qed.

(** The failing test against the documented range. *)
Ltac range_tac :=
  unfold kMinimumRecordBytes, kMaximumRecordBytes, kMaximumProducerSlots, kMaximumIngressCells,
    kMaximumControlOperations, kMaximumLifecycleTimeout;
  rewrite <- ?runtime_aligned; rewrite ?orb_true_iff, ?orb_false_iff, ?negb_true_iff, ?negb_false_iff,
    ?not_true_iff_false;
  repeat match goal with |- context [?a mod ?b =? 0] => destruct (a mod b =? 0) end;
  rewrite ?Z.ltb_lt, ?Z.ltb_ge, ?Z.leb_le, ?Z.leb_gt, ?Nat.eqb_eq, ?Nat.eqb_neq, ?Nat.ltb_lt, ?Nat.ltb_ge;
  intuition (try congruence; lia).

(** One test: the code of the first field that is not valid, or all are. *)
Lemma first_failure config c rest valid (b : bool) (next : option RuntimeCreateFailure) :
  runtime_fields = valid ++ c :: rest -> Forall (runtime_field_valid config) valid ->
  (b = true -> ~ runtime_field_valid config c) -> (b = false -> runtime_field_valid config c) ->
  (Forall (runtime_field_valid config) (valid ++ [c]) ->
    match next with
    | Some f => exists valid c rest, runtime_fields = valid ++ c :: rest /\ f = failure_of c
        /\ Forall (runtime_field_valid config) valid /\ ~ runtime_field_valid config c
    | None => Forall (runtime_field_valid config) runtime_fields
    end) ->
  match (if b then Some (failure_of c) else next) with
  | Some f => exists valid c rest, runtime_fields = valid ++ c :: rest /\ f = failure_of c
      /\ Forall (runtime_field_valid config) valid /\ ~ runtime_field_valid config c
  | None => Forall (runtime_field_valid config) runtime_fields
  end.
Proof.
  intros Hf Hv H1 H2 Hnext. destruct b; [by exists valid, c, rest; split_and!; auto|].
  apply Hnext, Forall_app. split; [done|]. by apply Forall_singleton, H2.
Qed.

Lemma runtime_validate_cases config :
  match ValidateRuntimeConfig config with
  | Some f => exists valid c rest, runtime_fields = valid ++ c :: rest /\ f = failure_of c
      /\ Forall (runtime_field_valid config) valid /\ ~ runtime_field_valid config c
  | None => Forall (runtime_field_valid config) runtime_fields
  end.
Proof.
  unfold ValidateRuntimeConfig.
  eapply (first_failure config _ _ []); [reflexivity|constructor|..]; cbn [runtime_field_valid app];
    [range_tac|range_tac|intros V1].
  eapply (first_failure config _ _ [_]); [reflexivity|exact V1|..]; cbn [runtime_field_valid app];
    [range_tac|range_tac|intros V2].
  eapply (first_failure config _ _ [_; _]); [reflexivity|exact V2|..]; cbn [runtime_field_valid app];
    [range_tac|range_tac|intros V3].
  eapply (first_failure config _ _ [_; _; _]); [reflexivity|exact V3|..]; cbn [runtime_field_valid app];
    [range_tac|range_tac|intros V4].
  eapply (first_failure config _ _ [_; _; _; _]); [reflexivity|exact V4|..]; cbn [runtime_field_valid app];
    [range_tac|range_tac|intros V5].
  eapply (first_failure config _ _ [_; _; _; _; _]); [reflexivity|exact V5|..]; cbn [runtime_field_valid app];
    [range_tac|range_tac|intros V6].
  eapply (first_failure config _ _ [_; _; _; _; _; _]); [reflexivity|exact V6|..]; cbn [runtime_field_valid app];
    [range_tac|range_tac|intros V7].
  eapply (first_failure config _ _ [_; _; _; _; _; _; _]); [reflexivity|exact V7|..];
    cbn [runtime_field_valid app]; [range_tac|range_tac|intros V8].
  eapply (first_failure config _ _ [_; _; _; _; _; _; _; _]); [reflexivity|exact V8|..];
    cbn [runtime_field_valid app]; [range_tac|range_tac|intros V9]. exact V9.
Qed.

(** What validation accepts is also what the kernel accepts. *)
Lemma accepted_builds {R C} config (route : R) bytes :
  ValidateRuntimeConfig config = None ->
  exists d : RuntimeDomain R C, MakeRuntimeDomain config route true bytes = inr d.
Proof.
  intros Hv. pose proof (runtime_validate_cases config) as H. rewrite Hv in H. unfold runtime_fields in H.
  rewrite !list.Forall_cons in H. cbn [runtime_field_valid] in H.
  destruct H as (V1 & [V2 V2'] & [V3 V3'] & V4 & V5 & V6 & _).
  unfold MakeRuntimeDomain, ProducerKernel.MakeProducerKernel.
  pose proof (KernelProperties.validate_cases (kernel_config config) false) as Hk.
  destruct (ProducerKernel.ValidateConfiguration (kernel_config config) false) as [field|].
  { exfalso. destruct Hk as (valid & rest & Hf & _ & Hbad). apply Hbad.
    assert (field ∈ KernelProperties.field_order) as Hin by (rewrite Hf, elem_of_app; right; left).
    unfold KernelProperties.field_order in Hin. rewrite !elem_of_cons in Hin.
    destruct Hin as [->|[->|[->|[->|[->|[->|Hin]]]]]]; cbn; try done; [by apply elem_of_nil in Hin]. }
  unfold ControlReserve.MakeReserve. destruct (Nat.eqb_spec (control_operations config) 0); [lia|]. cbn.
  by eexists.
Qed.

(** C37: [ValidateRuntimeConfig] rejects a configuration with the code of its first field, in
    the order of the tests, that is outside its documented range, and accepts it exactly
    when there is none; then the constructors of the kernel and of the control reserve, which
    validate again, reject nothing. *)
Theorem ValidateRuntimeConfig_exact config :
  match ValidateRuntimeConfig config with
  | Some f => exists valid c rest, runtime_fields = valid ++ c :: rest /\ f = failure_of c
      /\ Forall (runtime_field_valid config) valid /\ ~ runtime_field_valid config c
  | None => Forall (runtime_field_valid config) runtime_fields
      /\ forall R C (route : R) bytes,
           exists d : RuntimeDomain R C, MakeRuntimeDomain config route true bytes = inr d
  end.
Proof.
  pose proof (runtime_validate_cases config) as H. destruct (ValidateRuntimeConfig config) eqn:Hv; [done|].
  split; [done|]. intros R C route bytes. by apply accepted_builds.
Qed.

Lemma validate_none config :
  ValidateRuntimeConfig config = None <-> Forall (runtime_field_valid config) runtime_fields.
Proof.
  pose proof (runtime_validate_cases config) as H. split; [by intros Hv; rewrite Hv in H|].
  intros Hall. destruct (ValidateRuntimeConfig config); [|done].
  destruct H as (valid & c & rest & Heq & _ & _ & Hbad). destruct Hbad. rewrite list.Forall_forall in Hall.
  apply Hall. rewrite Heq, elem_of_app. right. left.
Qed.

(** ** Creation *)

Section Creation.
Context {C : Type}.
Context (double_text : Z -> list byte) (sizeof_FileSlot sizeof_RawFileSinkState : Z).
Context (gc : Z -> option (list byte)).
#[local] Instance creation_route : Route RuntimeRoute :=
  RuntimeRoute_route double_text sizeof_FileSlot sizeof_RawFileSinkState.

(** A destination in memory that holds no delivery. *)
Definition idle_destination (a : RuntimeDestination) : Prop :=
  match a with
  | Structured _ => True
  | Encoded s => Encoded.ok s /\ Encoded.view s = []
  | FileSink _ => False
  end.

(** The domains of the Runtimes that run: [Create] or [CreateFileInto] made them. *)
Inductive created : RuntimeDomain RuntimeRoute C -> Prop :=
| created_memory env config destination d :
    payload_capacity_bytes config <= size_max -> idle_destination destination ->
    Create env config destination = inr d -> created d
| created_file env config route faults d :
    payload_capacity_bytes config <= size_max -> - 2 ^ 31 <= RawFileSink.write_error faults ->
    CreateFileInto env config route faults = inr d -> created d.

(** Both sides of an equivalence are refuted, or follow from their parts. *)
Ltac refuted := split; [by intros ?|intros; destruct_and?; repeat match goal with H : exists _, _ |- _ => destruct H end; destruct_and?; by simplify_eq].
Ltac decide_sides := split; [intros; split_and!; (done || lia)|intros; destruct_and?; (done || lia)].

(** Nothing the system does for [CreateInto] fails. *)
Definition system_succeeds (env : CreateEnv) : Prop :=
  allocates_domain env = None /\ dispatcher_ready env = true /\ allocates_impl env = None
  /\ worker_created env = true /\ worker_in_time env = true.

(** The domain that [CreateInto] returns is the one it made, with its route attached. *)
Lemma create_into_inr env config route (d : RuntimeDomain RuntimeRoute C) :
  CreateInto env config route = inr d <->
  system_succeeds env
  /\ exists attached, Attach (io_thread_created env) (io_loop env) route = (None, attached)
     /\ MakeRuntimeDomain config attached true (dispatcher_bytes env) = inr d.
Proof.
  unfold CreateInto, StartWorker, system_succeeds, MakeRuntimeDomain. destruct (allocates_domain env); [refuted|].
  destruct (ProducerKernel.MakeProducerKernel (kernel_config config) false) as [|producer]; [refuted|].
  unfold ControlReserve.MakeReserve. destruct (_ =? 0)%nat; [refuted|].
  destruct (dispatcher_ready env); [|refuted]. cbn [negb route_].
  destruct (Attach _ _ route) as [[f|] attached]; [refuted|].
  destruct (allocates_impl env); [refuted|]. destruct (worker_created env); [|refuted].
  destruct (worker_in_time env); [|refuted]. cbn. split.
  - intros [= <-]. split; [done|]. by exists attached.
  - intros [_ (attached' & [= <-] & [= <-])]. done.
Qed.

(** C38: [Create] returns a Runtime exactly when the configuration is valid, the destination
    has room for the records of the configuration, nothing the system does for it fails and
    the destination is attached; it is then the Runtime that its constructor makes. A file
    route moreover needs a path that names a file and 1 to 64 buffers, and a sink that
    starts. *)
Theorem Create_exact env config destination route faults (d : RuntimeDomain RuntimeRoute C) :
  let made on := system_succeeds env /\ exists attached,
    Attach (io_thread_created env) (io_loop env) {| destination_ := on; attached_ := false |} = (None, attached)
    /\ MakeRuntimeDomain config attached true (dispatcher_bytes env) = inr d in
  (Create env config destination = inr d <->
    Forall (runtime_field_valid config) runtime_fields
    /\ Capacity destination <> 0 /\ maximum_record_bytes config <= MaximumRecordBytes destination
    /\ made destination)
  /\ (CreateFileInto env config route faults = inr d <->
    Forall (runtime_field_valid config) runtime_fields
    /\ FilePathBytes (path route) = Some (path route) /\ (1 <= write_buffers route <= 64)%nat
    /\ path_throws env = None /\ sink_throws env = None
    /\ made (FileSink (RawFileSink.MakeRawFileSink
         {| RawFileSink.write_buffers := write_buffers route;
            RawFileSink.maximum_record_bytes := maximum_record_bytes config;
            RawFileSink.config_faults := faults |}))).
Proof.
  intros made. unfold made. rewrite <- !create_into_inr, <- validate_none. split.
  - unfold Create, ValidateConfig. destruct (ValidateRuntimeConfig config); [refuted|].
    destruct (Z.eqb_spec (Capacity destination) 0); [refuted|].
    destruct (Z.ltb_spec (MaximumRecordBytes destination) (maximum_record_bytes config)); cbn; decide_sides.
  - unfold CreateFileInto, ValidateFileRoute. destruct (ValidateRuntimeConfig config); [refuted|].
    assert (FilePathBytes [] = None) as Hnil by done.
    assert (FilePathBytes (path route) = None \/ FilePathBytes (path route) = Some (path route)) as Hp
      by (unfold FilePathBytes; case_match; auto).
    destruct (bool_decide_reflect (path route = [])) as [->|_]; [refuted|]. unfold kMaximumWriteBuffers.
    destruct (Nat.eqb_spec (write_buffers route) 0); [decide_sides|].
    destruct (Nat.ltb_spec 64 (write_buffers route)); cbn; [decide_sides|].
    destruct (path_throws env); [refuted|].
    destruct Hp as [-> | ->]; [refuted|]. destruct (sink_throws env); decide_sides.
Qed.

Lemma attach_idle created loop r attached :
  idle_destination (destination_ r) -> Attach created loop r = (None, attached) ->
  route_ok attached /\ route_view attached = [].
Proof.
  unfold Attach. destruct (destination_ r) as [s|s|s]; [..|done].
  - intros _. destruct (InMemoryDestination.TryAttachRuntime s) as [[] s']; [|done]. by intros [= <-].
  - intros [Hok Hv]. unfold InMemoryEncodedDestination.TryAttachRuntime.
    destruct (_ || _); [done|]. intros [= <-]. done.
Qed.

(** A file sink that was just made holds no delivery, and starting it adds none. *)
Lemma attach_file created loop config attached :
  - 2 ^ 31 <= RawFileSink.write_error (RawFileSink.config_faults config) ->
  Attach created loop {| destination_ := FileSink (RawFileSink.MakeRawFileSink config); attached_ := false |}
    = (None, attached) -> route_ok attached /\ route_view attached = [].
Proof.
  intros Hf. unfold Attach, StartSink. cbn [destination_].
  set (s0 := RawFileSink.StartThread true (RawFileSink.MakeRawFileSink config)).
  assert (File.ok s0 /\ File.view s0 = []) as [H1 H2].
  { split.
    - constructor; [split; [done|]|done|by intros []]. apply list.Forall_forall. intros slot Hs.
      by apply elem_of_replicate_inv in Hs as ->.
    - unfold File.view. cbn. induction (RawFileSink.write_buffers config) as [|n IH]; [done|]. exact IH. }
  set (s := match loop with Some uv => RawFileSink.RunLoop uv s0 | None => s0 end).
  assert (File.ok s /\ File.view s = []) as [H3 H4].
  { destruct loop as [uv|]; [|done]. unfold s.
    assert (RawFileSink.slots (RawFileSink.RunLoop uv s0) = RawFileSink.slots s0
      /\ File.ok (RawFileSink.RunLoop uv s0)) as [Hs Ho].
    { unfold RawFileSink.RunLoop, RawFileSink.MarkLoopExited, RawFileSink.ReportStart, RawFileSink.ObserveOperation,
        RawFileSink.SendWakeLocked. destruct H1 as [[Hb1 Hb2] Hw Hr].
      repeat case_match; (split; [done|]); by constructor. }
    split; [done|]. unfold File.view. by rewrite Hs. }
  destruct (RawFileSink.status _); intros [= <-]; done.
Qed.

(** A Runtime that was created starts in order. *)
Lemma created_inv (d : RuntimeDomain RuntimeRoute C) cl : created d -> runtime_inv gc (initial_world d cl).
Proof.
  assert (forall env config route (d : RuntimeDomain RuntimeRoute C),
    payload_capacity_bytes config <= size_max -> ValidateRuntimeConfig config = None ->
    (forall attached, Attach (io_thread_created env) (io_loop env) route = (None, attached) ->
      route_ok attached /\ route_view attached = []) ->
    CreateInto env config route = inr d -> runtime_inv gc (initial_world d cl)) as Hinto.
  { clear d. intros env config route d Hpay Hv Hat Hc.
    apply create_into_inr in Hc as (_ & attached & Ha & Hmake).
    destruct (Hat attached Ha) as [Hok Hview].
    pose proof (runtime_validate_cases config) as H. rewrite Hv in H. unfold runtime_fields in H.
    rewrite !list.Forall_cons in H. cbn [runtime_field_valid] in H.
    eapply initial_inv; [exact Hmake|done|lia|done|done]. }
  intros [env config destination d0 Hpay Hidle Hc|env config route faults d0 Hpay Hf Hc].
  - unfold Create, ValidateConfig in Hc. destruct (ValidateRuntimeConfig config) eqn:Hv; [done|].
    destruct (_ || _); [done|]. eapply (Hinto env config); [done|done| |exact Hc].
    intros attached. by apply attach_idle.
  - unfold CreateFileInto in Hc. destruct (ValidateRuntimeConfig config) eqn:Hv; [done|].
    destruct (ValidateFileRoute route); [done|]. destruct (path_throws env); [done|].
    destruct (FilePathBytes _); [|done]. destruct (sink_throws env); [done|].
    eapply (Hinto env config); [done|done| |exact Hc].
    intros attached. by apply attach_file.
Qed.
End Creation.
