(* ===== verification/WorkerWake.v ===== *)
(** * How the worker of a Runtime waits and is woken ([src/runtime.cpp])

    [Run] waits on [wake_condition_] until [wake_epoch_] differs from the epoch it loaded
    before its last iteration, or an interval has passed. Producers wake it with [Notify],
    which takes no lock; everything else ([StartAction], a destination, destruction) with
    [NotifyControl], which changes the epoch under [wake_mutex_]. [RuntimeDomain.v] has the
    wait as one step that may always end; here it is cut at each access to the mutex, the
    condition and the epoch, and interleaved with the threads that notify. *)
From stdpp Require Import relations list.
From S2P Require Import Prelude.
#[local] Open Scope Z_scope.
#[local] Open Scope ulog_scope.

(** ** The code *)

(** What the notifying functions do to the wake state, in order. *)
Inductive WakeOp := Lock | Bump | Unlock | NotifyOne.

#[export] Instance WakeOp_eq_dec : EqDecision WakeOp.
Proof. solve_decision. Defined.

Definition Notify : list WakeOp := [Bump; NotifyOne].

Definition NotifyControl : list WakeOp := [Lock; Bump; Unlock; NotifyOne].

(** Where the worker is: before the loop, in the body of an iteration, or in the wait that
    ends it; [Relocking] has left the queue of the condition, by its interval or not. It
    holds the mutex in [Testing], [Parking] and [Reloading]. *)
Inductive WorkerAt :=
| Starting | Working | Locking | Testing | Parking | Blocked | Relocking (timed_out : bool)
| Reloading | Left.

Record Wake := {
  wake_epoch_ : Z;
  wake_mutex_ : bool;
  observed_epoch : Z;
  worker : WorkerAt;
}.

#[export] Instance Wake_eta : Eta Wake := fun s =>
  {| wake_epoch_ := wake_epoch_ s; wake_mutex_ := wake_mutex_ s; observed_epoch := observed_epoch s;
     worker := worker s |}.

(** One operation of a notifying thread; [None] while it has to wait for the mutex. The
    worker is the only thread that waits on the condition. *)
Definition Execute (op : WakeOp) (s : Wake) : option Wake :=
  match op with
  | Lock => if wake_mutex_ s then None else Some (s <| wake_mutex_ := true |>)
  | Bump => Some (s <| wake_epoch_ ::= fun e => e +w 1 |>)
  | Unlock => Some (s <| wake_mutex_ := false |>)
  | NotifyOne =>
      Some match worker s with Blocked => s <| worker := Relocking false |> | _ => s end
  end.

(** The next access of the worker; [None] while it is blocked or has to wait for the mutex.
    Blocking releases the mutex in the same step; a timeout returns whatever the
    predicate says. *)
Definition WorkerOp (s : Wake) : option Wake :=
  match worker s with
  | Starting => Some (s <| observed_epoch := wake_epoch_ s |> <| worker := Working |>)
  | Working => Some (s <| worker := Locking |>)
  | Locking => if wake_mutex_ s then None else Some (s <| wake_mutex_ := true |> <| worker := Testing |>)
  | Testing =>
      Some (s <| worker := if negb (wake_epoch_ s =? observed_epoch s) then Reloading else Parking |>)
  | Parking => Some (s <| wake_mutex_ := false |> <| worker := Blocked |>)
  | Relocking timed_out =>
      if wake_mutex_ s then None
      else Some (s <| wake_mutex_ := true |> <| worker := if timed_out then Reloading else Testing |>)
  | Reloading =>
      Some (s <| observed_epoch := wake_epoch_ s |> <| wake_mutex_ := false |> <| worker := Working |>)
  | Blocked | Left => None
  end.

(** ** Interleaving *)

(** A thread in [NotifyControl] ([control]) or in [Notify], with the operations it has left. *)
Record Thread := { control : bool; code : list WakeOp }.

(** [published] counts the changes of the epoch by [NotifyControl], [seen] those before the
    worker last loaded the epoch, at the beginning of its iteration, and [bumps] all changes. *)
Record World := {
  wake : Wake;
  threads : list Thread;
  published : Z;
  seen : Z;
  bumps : Z;
}.

#[export] Instance World_eta : Eta World := fun w =>
  {| wake := wake w; threads := threads w; published := published w; seen := seen w; bumps := bumps w |}.

Definition initial_world : World :=
  {| wake := {| wake_epoch_ := 0; wake_mutex_ := false; observed_epoch := 0; worker := Starting |};
     threads := []; published := 0; seen := 0; bumps := 0 |}.

Definition is_bump (op : WakeOp) : Z := if decide (op = Bump) then 1 else 0.

(** The worker loads the epoch. *)
Definition loads (s : Wake) : bool := match worker s with Starting | Reloading => true | _ => false end.

(** The steps of threads that go on. *)
Inductive moves : World -> World -> Prop :=
| mv_thread c op rest others s' w :
    threads w ≡ₚ {| control := c; code := op :: rest |} :: others ->
    Execute op (wake w) = Some s' ->
    moves w (w <| wake := s' |> <| threads := {| control := c; code := rest |} :: others |>
               <| published ::= fun n => if c then n + is_bump op else n |>
               <| bumps ::= fun n => n + is_bump op |>)
| mv_return c others w :
    threads w ≡ₚ {| control := c; code := [] |} :: others -> moves w (w <| threads := others |>)
| mv_worker s' w :
    WorkerOp (wake w) = Some s' ->
    moves w (w <| wake := s' |> <| seen := if loads (wake w) then published w else seen w |>).

(** Besides, a thread begins to notify, the interval of the wait passes, the wait ends for no
    reason, and an iteration ends the loop. *)
Inductive wake_step : World -> World -> Prop :=
| wk_moves w w' : moves w w' -> wake_step w w'
| wk_begin c w :
    wake_step w (w <| threads ::= cons {| control := c; code := if c then NotifyControl else Notify |} |>)
| wk_unblocked timed_out w :
    worker (wake w) = Blocked ->
    wake_step w (w <| wake ::= fun s => s <| worker := Relocking timed_out |> |>)
| wk_leave w :
    worker (wake w) = Working -> wake_step w (w <| wake ::= fun s => s <| worker := Left |> |>).

(** ** Lemmas: the invariant *)

Definition holds_mutex (a : WorkerAt) : bool :=
  match a with Testing | Parking | Reloading => true | _ => false end.

(** A thread is in its critical section, or has changed the epoch and not notified yet. *)
Definition inside (t : Thread) : bool :=
  bool_decide (code t = [Bump; Unlock; NotifyOne]) || bool_decide (code t = [Unlock; NotifyOne]).

Definition notifying (t : Thread) : bool :=
  control t && (bool_decide (code t = [Unlock; NotifyOne]) || bool_decide (code t = [NotifyOne])).

Definition one (b : bool) : Z := if b then 1 else 0.

Record wake_inv (w : World) : Prop := {
  wi_epoch : wake_epoch_ (wake w) = bumps w;
  wi_observed : 0 <= observed_epoch (wake w) /\ 0 <= seen w <= published w
    /\ published w - seen w <= bumps w - observed_epoch (wake w);
  wi_mutex : one (holds_mutex (worker (wake w))) + sumZ (fun t => one (inside t)) (threads w)
    = one (wake_mutex_ (wake w));
  wi_code : forall t, t ∈ threads w ->
    code t `suffix_of` (if control t then NotifyControl else Notify);
  wi_parking : worker (wake w) = Parking -> seen w = published w;
  wi_blocked : worker (wake w) = Blocked ->
    seen w = published w \/ exists t, t ∈ threads w /\ notifying t = true;
}.

Lemma sumZ_perm {A} (f : A -> Z) l l' : l ≡ₚ l' -> sumZ f l = sumZ f l'.
Proof. induction 1; cbn; lia. Qed.

Lemma inside_nonneg l : 0 <= sumZ (fun t => one (inside t)) l.
Proof. apply sumZ_nonneg. intros t _. unfold one. by case_match. Qed.

Lemma initial_wake : wake_inv initial_world.
Proof. constructor; cbn -[inside notifying one]; try done; try lia. by intros t Ht%elem_of_nil. Qed.

(** The operations a thread can have left. *)
Lemma control_code t :
  control t = true -> code t `suffix_of` NotifyControl ->
  code t ∈ [NotifyControl; [Bump; Unlock; NotifyOne]; [Unlock; NotifyOne]; [NotifyOne]; []].
Proof.
  intros _ [k Hk]. unfold NotifyControl in *.
  destruct k as [|? [|? [|? [|? [|]]]]]; simplify_eq/=; rewrite <- ?Hk; set_solver.
Qed.

Lemma producer_code (l : list WakeOp) : l `suffix_of` Notify -> l ∈ [Notify; [NotifyOne]; []].
Proof.
  intros [k Hk]. unfold Notify in *. destruct k as [|? [|? [|]]]; simplify_eq/=; rewrite <- ?Hk; set_solver.
Qed.

(** A thread among the others. *)
Lemma notifying_others t t' others l :
  l ≡ₚ t :: others -> t' ∈ l -> notifying t' = true -> notifying t = false -> t' ∈ others.
Proof. intros -> [->|H]%elem_of_cons H1 H2; [congruence|done]. Qed.

(** A thread with operations left is at one of the operations of its function. *)
Lemma thread_cases c op rest :
  op :: rest `suffix_of` (if c : bool then NotifyControl else Notify) ->
  (c = true /\ ((op = Lock /\ rest = [Bump; Unlock; NotifyOne]) \/ (op = Bump /\ rest = [Unlock; NotifyOne])
    \/ (op = Unlock /\ rest = [NotifyOne]) \/ (op = NotifyOne /\ rest = [])))
  \/ (c = false /\ ((op = Bump /\ rest = [NotifyOne]) \/ (op = NotifyOne /\ rest = []))).
Proof.
  intros Hs. destruct c.
  - left. split; [done|]. pose proof (control_code {| control := true; code := op :: rest |} eq_refl Hs) as H.
    cbn [code] in H. unfold NotifyControl in H. rewrite !elem_of_cons, elem_of_nil in H.
    destruct H as [H|[H|[H|[H|[H|[]]]]]]; simplify_eq; tauto.
  - right. split; [done|]. pose proof (producer_code _ Hs) as H. unfold Notify in H.
    rewrite !elem_of_cons, elem_of_nil in H. destruct H as [H|[H|[H|[]]]]; simplify_eq; tauto.
Qed.

(** The last operation of either function: the worker is not blocked any more. *)
Lemma signal_inv c others w :
  wake_inv w -> threads w ≡ₚ {| control := c; code := [NotifyOne] |} :: others ->
  wake_inv (w <| wake := match worker (wake w) with
                         | Blocked => wake w <| worker := Relocking false |>
                         | _ => wake w
                         end |>
              <| threads := {| control := c; code := [] |} :: others |>
              <| published ::= fun n => if c then n + 0 else n |> <| bumps ::= fun n => n + 0 |>).
Proof.
  intros [He Ho Hm Hc Hp Hb] Hperm. rewrite (sumZ_perm _ _ _ Hperm) in Hm. cbn [sumZ] in Hm.
  change (one (inside {| control := _; code := _ |})) with 0 in Hm at 1.
  assert (forall x, x ∈ {| control := c; code := [] |} :: others ->
    code x `suffix_of` (if control x then NotifyControl else Notify)) as Hc'.
  { intros x [->|Hin]%elem_of_cons; [apply suffix_nil|]. apply Hc. rewrite Hperm. by right. }
  assert ((if c then published w + 0 else published w) = published w) as Hpub by (destruct c; lia).
  destruct (worker (wake w)) eqn:Hw; constructor; cbn -[inside notifying one]; rewrite ?Hpub, ?Hw, ?Z.add_0_r; try done;
    by rewrite ?Hw in *.
Qed.

Lemma thread_inv c op rest others s' w :
  wake_inv w -> bumps w + is_bump op < 2 ^ 64 ->
  threads w ≡ₚ {| control := c; code := op :: rest |} :: others -> Execute op (wake w) = Some s' ->
  wake_inv (w <| wake := s' |> <| threads := {| control := c; code := rest |} :: others |>
              <| published ::= fun n => if c then n + is_bump op else n |>
              <| bumps ::= fun n => n + is_bump op |>).
Proof.
  intros Hinv Hlt Hperm Hx. pose proof Hinv as [He (Ho1 & Ho2 & Ho3) Hm Hc Hp Hb].
  set (t := {| control := c; code := op :: rest |}) in *.
  rewrite (sumZ_perm _ _ _ Hperm) in Hm. cbn [sumZ] in Hm. pose proof (inside_nonneg others) as Hn.
  assert (op :: rest `suffix_of` (if c then NotifyControl else Notify)) as Hs.
  { apply (Hc t). rewrite Hperm. by left. }
  assert (forall x, x ∈ {| control := c; code := rest |} :: others ->
    code x `suffix_of` (if control x then NotifyControl else Notify)) as Hc'.
  { intros x [->|Hin]%elem_of_cons; [cbn; by eapply suffix_cons_l|]. apply Hc. rewrite Hperm. by right. }
  assert (notifying t = false -> worker (wake w) = Blocked -> seen w = published w
    \/ exists x, x ∈ {| control := c; code := rest |} :: others /\ notifying x = true) as Hstay.
  { intros Hnot Hw. destruct (Hb Hw) as [H|(x & Hin & Hx')]; [by left|right]. exists x. split; [|done].
    right. by eapply notifying_others. }
  destruct (thread_cases c op rest Hs) as
    [[-> [[-> ->]|[[-> ->]|[[-> ->]|[-> ->]]]]]|[-> [[-> ->]|[-> ->]]]];
    cbn [Execute] in Hx; change (is_bump Lock) with 0 in *; change (is_bump Bump) with 1 in *;
    change (is_bump Unlock) with 0 in *; change (is_bump NotifyOne) with 0 in *.
  - destruct (wake_mutex_ (wake w)) eqn:Hmx; [done|]. injection Hx as <-. change (one (inside t)) with 0 in Hm.
    constructor; cbn -[inside notifying one]; rewrite ?Z.add_0_r; try done; [|by apply Hstay].
    change (one (inside {| control := _; code := _ |})) with 1. change (one true) with 1.
    change (one false) with 0 in Hm. lia.
  - injection Hx as <-. change (one (inside t)) with 1 in Hm.
    constructor; cbn -[inside notifying one]; try done; try lia.
    + rewrite He. apply w64_small. lia.
    + intros Hw. rewrite Hw in Hm. cbn in Hm. destruct (wake_mutex_ (wake w)); cbn in Hm; lia.
    + intros _. right. eexists. split; [by left|done].
  - injection Hx as <-. change (one (inside t)) with 1 in Hm.
    constructor; cbn -[inside notifying one]; rewrite ?Z.add_0_r; try done.
    + change (one (inside {| control := _; code := _ |})) with 0.
      destruct (holds_mutex _), (wake_mutex_ (wake w)); cbn in Hm |- *; lia.
    + intros _. right. eexists. split; [by left|done].
  - injection Hx as <-. exact (signal_inv _ _ _ Hinv Hperm).
  - injection Hx as <-. change (one (inside t)) with 0 in Hm.
    constructor; cbn -[inside notifying one]; try done; try lia.
    + rewrite He. apply w64_small. lia.
    + by apply Hstay.
  - injection Hx as <-. exact (signal_inv _ _ _ Hinv Hperm).
Qed.

(** One access of the worker: it blocks only when nothing was published since it loaded the
    epoch. *)
Lemma worker_inv s' w :
  wake_inv w -> WorkerOp (wake w) = Some s' ->
  wake_inv (w <| wake := s' |> <| seen := if loads (wake w) then published w else seen w |>).
Proof.
  intros [He (Ho1 & Ho2 & Ho3) Hm Hc Hp Hb] Hx. pose proof (inside_nonneg (threads w)) as Hn.
  unfold WorkerOp, loads in *. destruct (worker (wake w)) eqn:Hw; simplify_eq;
    try (destruct (wake_mutex_ (wake w)) eqn:Hmx; [done|]; injection Hx as <-);
    try (destruct (wake_epoch_ (wake w) =? observed_epoch (wake w)) eqn:Heq; cbn [negb]);
    constructor; cbn -[inside notifying one]; rewrite ?Hw; try done; try lia;
    cbn in Hm |- *; try (destruct timed_out; cbn; (done || lia));
    try (destruct (wake_mutex_ (wake w)); cbn in Hm |- *; lia).
  all: intros _; left; by apply Hp.
Qed.

Lemma return_inv c others w :
  wake_inv w -> threads w ≡ₚ {| control := c; code := [] |} :: others -> wake_inv (w <| threads := others |>).
Proof.
  intros [He Ho Hm Hc Hp Hb] Hperm. rewrite (sumZ_perm _ _ _ Hperm) in Hm. cbn [sumZ] in Hm.
  change (one (inside {| control := _; code := _ |})) with 0 in Hm.
  constructor; cbn -[inside notifying one]; try done.
  - intros t Ht. apply Hc. rewrite Hperm. by right.
  - intros Hw. destruct (Hb Hw) as [H|(t & Hin & Ht)]; [by left|right]. exists t. split; [|done].
    eapply notifying_others; [done..|]. by destruct c.
Qed.

Lemma bumps_mono w w' : wake_step w w' -> bumps w <= bumps w'.
Proof.
  intros [? ? [? op ? ? ? ? ? ?|?|?]| | |]; cbn; try lia. unfold is_bump. case_decide; lia.
Qed.

Lemma wake_step_inv w w' : wake_step w w' -> wake_inv w -> bumps w' < 2 ^ 64 -> wake_inv w'.
Proof.
  intros [? ? [c op rest others s' ? Hperm Hx|c others ? Hperm|s' ? Hx]|c ?|timed_out ? Hw|? Hw] Hinv Hlt.
  - by apply (thread_inv c op rest).
  - by eapply return_inv.
  - by apply worker_inv.
  - destruct Hinv as [He Ho Hm Hc Hp Hb]. constructor; cbn -[inside notifying one]; try done.
    + destruct c; exact Hm.
    + intros t [->|Ht]%elem_of_cons; [by destruct c|by apply Hc].
    + intros Hw. destruct (Hb Hw) as [H|(t & Hin & Ht)]; [by left|right]. exists t. by split; [right|].
  - destruct Hinv as [He Ho Hm Hc Hp Hb]. rewrite Hw in Hm. constructor; cbn -[inside notifying one]; done.
  - destruct Hinv as [He Ho Hm Hc Hp Hb]. rewrite Hw in Hm. constructor; cbn -[inside notifying one]; done.
Qed.

Lemma reachable_wake w : rtc wake_step initial_world w -> bumps w < 2 ^ 64 -> wake_inv w.
Proof.
  revert w. apply (rtc_ind_r (fun w => bumps w < 2 ^ 64 -> wake_inv w)).
  - intros _. apply initial_wake.
  - intros w w' _ Hstep IH Hlt. eapply wake_step_inv; [done| |done]. apply IH. pose proof (bumps_mono _ _ Hstep). lia.
Qed.

(** ** Lemmas: every thread comes through *)

(** How many accesses the worker makes at most before it blocks or works on. *)
Definition rank (s : Wake) : nat :=
  match worker s with
  | Left | Blocked => 0
  | Parking => 1
  | Testing => if wake_epoch_ s =? observed_epoch s then 2 else 6
  | Locking | Relocking false => if wake_epoch_ s =? observed_epoch s then 3 else 7
  | Working => if wake_epoch_ s =? observed_epoch s then 4 else 8
  | Reloading | Starting => 5
  | Relocking true => 6
  end.

Definition measure (w : World) : nat :=
  10 * sum_list (map (fun t => S (length (code t))) (threads w)) + rank (wake w).

Lemma rank_bound s : (rank s <= 8)%nat.
Proof. unfold rank. repeat case_match; lia. Qed.

Lemma rank_executed op s s' : Execute op s = Some s' -> (rank s' <= rank s + 8)%nat.
Proof. intros _. pose proof (rank_bound s'). lia. Qed.

Lemma rank_worker s s' : WorkerOp s = Some s' -> (rank s' < rank s)%nat.
Proof.
  unfold WorkerOp, rank. intros H.
  destruct (worker s) as [| | | | | |[]| |] eqn:Hw; repeat (case_match; simplify_eq/=); try lia;
    repeat (case_match; simplify_eq/=); lia.
Qed.

Lemma moves_measure w w' : moves w w' -> (measure w' < measure w)%nat.
Proof.
  unfold measure. intros [c op rest others s' ? Hperm Hx|c others ? Hperm|s' ? Hx]; cbn [wake threads World_eta].
  - rewrite Hperm. pose proof (rank_executed _ _ _ Hx). cbn [map sum_list code length]. cbn in *. lia.
  - rewrite Hperm. cbn. lia.
  - pose proof (rank_worker _ _ Hx). cbn in *. lia.
Qed.

Lemma moves_end w : sn moves w.
Proof.
  remember (measure w) as n eqn:Hn. revert w Hn. induction (lt_wf n) as [n _ IH]. intros w ->.
  constructor. intros w' Hm. by eapply IH; [apply moves_measure|].
Qed.

(** A thread that has the mutex can go on. *)
Lemma inside_moves w t : t ∈ threads w -> inside t = true -> red moves w.
Proof.
  intros Hin Ht. apply elem_of_Permutation in Hin as [others Hperm]. destruct t as [c l].
  unfold inside in Ht. cbn [code] in Ht.
  apply orb_true_iff in Ht as [Hl%bool_decide_eq_true|Hl%bool_decide_eq_true]; subst l;
    eexists; by eapply mv_thread.
Qed.

Lemma holder_moves w : wake_inv w -> wake_mutex_ (wake w) = true -> red moves w.
Proof.
  intros Hinv Hmx. destruct (holds_mutex (worker (wake w))) eqn:Hh.
  - destruct (WorkerOp (wake w)) as [s'|] eqn:Hx; [eexists; by apply mv_worker|].
    unfold WorkerOp in Hx. by destruct (worker (wake w)).
  - destruct (decide (Exists (fun t => inside t = true) (threads w))) as [(t & Hin & Ht)%list.Exists_exists|Hno].
    + by apply (inside_moves w t).
    + pose proof (wi_mutex w Hinv) as Hm. rewrite Hh, Hmx in Hm. cbn [one] in Hm.
      rewrite sumZ_zero in Hm; [lia|]. intros t Hin. destruct (inside t) eqn:Ht; [|done].
      destruct Hno. apply list.Exists_exists. by exists t.
Qed.

Lemma thread_moves w t : wake_inv w -> t ∈ threads w -> red moves w.
Proof.
  intros Hinv Hin. destruct (wake_mutex_ (wake w)) eqn:Hmx; [by apply holder_moves|].
  apply elem_of_Permutation in Hin as [others Hperm]. destruct t as [c [|op rest]].
  - eexists. by eapply mv_return.
  - assert (exists s', Execute op (wake w) = Some s') as [s' Hx]
      by (destruct op; cbn; rewrite ?Hmx; eauto).
    eexists. by eapply mv_thread.
Qed.

Lemma settled_wake w :
  wake_inv w -> nf moves w ->
  threads w = [] /\ (worker (wake w) = Left \/ worker (wake w) = Blocked /\ seen w = published w).
Proof.
  intros Hinv Hnf. destruct (threads w) as [|t l] eqn:Hthreads; cycle 1.
  { destruct Hnf. apply (thread_moves w t Hinv). rewrite Hthreads. by left. }
  split; [done|]. destruct (WorkerOp (wake w)) as [s'|] eqn:Hx.
  { destruct Hnf. eexists. by apply mv_worker. }
  assert (wake_mutex_ (wake w) = false) as Hmx.
  { destruct (wake_mutex_ (wake w)) eqn:Hmx; [|done]. destruct Hnf. by apply holder_moves. }
  unfold WorkerOp in Hx. rewrite Hmx in Hx. destruct (worker (wake w)) eqn:Hw; try done; [|by left].
  right. split; [done|]. destruct (wi_blocked w Hinv Hw) as [H|(t & Hin & _)]; [done|].
  rewrite Hthreads in Hin. by apply elem_of_nil in Hin.
Qed.

(** ** The wake-ups of the control plane are not lost *)

(** C22: whatever threads call [Notify] and [NotifyControl], and wherever the worker is in its
    wait, there is no deadlock and no wake-up of the control plane is lost. The steps of the
    threads that are under way come to an end, also without any interval passing, and where
    they end every one of these threads has returned from its call and the worker has left
    its loop or is blocked; and then, as at any other time, a blocked worker began its last
    iteration after every [NotifyControl] that changed the epoch, or a thread that changed it
    has its [notify_one] still to come. So an action, a completion or a request to stop that
    precedes such a call is seen by an iteration that begins after it. (Nothing of the kind
    holds of [Notify], whose change may fall between the test and the wait: there, as in
    [DrainDiscardedRecords], which waits without this invariant, the interval of the wait
    ends it, [wk_unblocked].) *)
Theorem control_wakes_are_not_lost w :
  rtc wake_step initial_world w -> bumps w < 2 ^ 64 ->
  (worker (wake w) = Blocked ->
    seen w = published w \/ exists t, t ∈ threads w /\ notifying t = true)
  /\ sn moves w
  /\ (nf moves w ->
      threads w = [] /\ (worker (wake w) = Left \/ worker (wake w) = Blocked /\ seen w = published w)).
Proof.
  intros Hreach Hlt. pose proof (reachable_wake w Hreach Hlt) as Hinv.
  split; [by apply wi_blocked|]. split; [apply moves_end|by apply settled_wake].
Qed.

(** A world of the witness: the worker at [a] with epoch [e], [observed] of its changes loaded,
    the mutex and the threads as given; every change is one of [NotifyControl]. *)
Definition world_at (a : WorkerAt) (e observed : Z) (mutex : bool) (l : list Thread) : World :=
  {| wake := {| wake_epoch_ := e; wake_mutex_ := mutex; observed_epoch := observed; worker := a |};
     threads := l; published := e; seen := observed; bumps := e |}.

(** The witness's run: the worker blocks while a thread waits for the mutex in [NotifyControl];
    the thread changes the epoch, and the notification sends the worker through another
    iteration. *)
Ltac worker_goes_on := eapply rtc_l; [apply mv_worker; reflexivity|]; vm_compute.
Ltac thread_goes_on := eapply rtc_l; [eapply mv_thread; cbn; reflexivity|]; vm_compute.

Lemma witness_run_blocks :
  rtc wake_step initial_world (world_at Blocked 1 0 true [{| control := true; code := [Unlock; NotifyOne] |}]).
Proof.
  eapply rtc_l; [apply (wk_begin true)|].
  apply (rtc_subrel moves); [intros ? ?; apply wk_moves|]. vm_compute.
  do 5 worker_goes_on. do 2 thread_goes_on. apply rtc_refl.
Qed.

Lemma witness_run_settles :
  rtc moves (world_at Blocked 1 0 true [{| control := true; code := [Unlock; NotifyOne] |}])
    (world_at Blocked 1 1 false []).
Proof.
  vm_compute. do 2 thread_goes_on. eapply rtc_l; [eapply mv_return; cbn; reflexivity|]. vm_compute.
  do 7 worker_goes_on. apply rtc_refl.
Qed.

Lemma control_wakes_are_not_lost_witness :
  (exists t, t ∈ [{| control := true; code := [Unlock; NotifyOne] |}] /\ notifying t = true)
  /\ nf moves (world_at Blocked 1 1 false [])
  /\ seen (world_at Blocked 1 1 false []) = published (world_at Blocked 1 1 false []).
Proof.
  destruct (control_wakes_are_not_lost _ witness_run_blocks eq_refl) as [H1 _].
  assert (rtc wake_step initial_world (world_at Blocked 1 1 false [])) as Hrun.
  { etrans; [apply witness_run_blocks|].
    apply (rtc_subrel moves); [intros ? ?; apply wk_moves|apply witness_run_settles]. }
  destruct (control_wakes_are_not_lost _ Hrun eq_refl) as (_ & _ & H2).
  assert (nf moves (world_at Blocked 1 1 false [])) as Hnf.
  { intros [w' Hm]. inversion Hm as [? ? ? ? ? ? Hp|? ? ? Hp|? ? Hx]; subst;
      [by apply Permutation_nil_cons in Hp..|done]. }
  split; [|split; [exact Hnf|]].
  - destruct (H1 eq_refl) as [H|H]; [discriminate H|exact H].
  - destruct (H2 Hnf) as [_ [H|[_ H]]]; [discriminate H|exact H].
Defined.
