(* ===== verification/RuntimeDemo.v ===== *)
(** * A Runtime that delivers one record

    A concrete run: a Runtime with an encoded destination in memory is created, a producer
    publishes one record, a drain is started, and the worker delivers the record, retires
    it and completes the drain. The theorems of [RuntimeProperties.v] are applied to it. *)
From stdpp Require Import strings gmap relations list_numbers.
From S2P Require Import Prelude KernelTypes ThreadRegistry RuntimeConfig RuntimeRoute RouteContract RouteViews RuntimeDomain.
From S2P Require Import RuntimeWorld RuntimeCreation.
From S2P Require Operation ControlReserve ControlRuns ProducerKernel ProducerLanes KernelWorld KernelProperties RecordStorage RawEncoder RouteTypes InMemoryEncodedDestination.
#[local] Open Scope Z_scope.
#[local] Open Scope ulog_scope.

#[local] Existing Instance KernelWorld.World_eta.

(** ** Steps that are computed *)

(** The next step of the publication at slot [p]. *)
Definition kernel_advance (gc : Z -> option (list byte)) (p : nat) (w : KernelWorld.World) : KernelWorld.World :=
  match KernelWorld.publishing w !! p with
  | None => w
  | Some {| KernelWorld.p_call := call; KernelWorld.p_phase := ph |} =>
      match ph with
      | KernelWorld.PClaimed claim =>
          KernelWorld.settle 0 p call claim (KernelWorld.PChecked claim)
            (ProducerKernel.PublishRecheck 0 call claim (KernelWorld.impl w)) w
      | KernelWorld.PChecked claim cell =>
          KernelWorld.settle 0 p call claim (KernelWorld.PReserved claim cell)
            (ProducerKernel.PublishReserve 0 call (KernelWorld.impl w)) w
      | KernelWorld.PReserved claim cell reservation =>
          KernelWorld.settle 0 p call claim (KernelWorld.PBuilt claim cell reservation 0)
            (ProducerKernel.PublishBuild gc 0 call cell reservation (KernelWorld.impl w)) w
      | KernelWorld.PBuilt claim cell reservation timestamp stored =>
          KernelWorld.settle 0 p call claim (KernelWorld.PFilled claim cell timestamp stored)
            (ProducerKernel.PublishCommit call cell reservation stored (KernelWorld.impl w)) w
      | KernelWorld.PFilled claim cell timestamp stored handle =>
          KernelWorld.on_allocate p call claim cell timestamp stored handle w
      | KernelWorld.PAllocated claim timestamp stored handle sequence =>
          KernelWorld.on_finish p call claim stored handle sequence w
      | KernelWorld.PLeaving claim =>
          w <| KernelWorld.impl ::= ProducerKernel.PublishLeave claim |>
            <| KernelWorld.publishing ::= delete p |>
      end
  end.

Lemma kernel_advance_step gc p w :
  is_Some (KernelWorld.publishing w !! p) -> KernelWorld.kernel_step gc w (kernel_advance gc p w).
Proof.
  intros [[call ph] Hp]. unfold kernel_advance. rewrite Hp.
  destruct ph; [apply KernelWorld.st_recheck with (shard := 0%nat); [done|]|apply KernelWorld.st_reserve|
    apply KernelWorld.st_build|apply KernelWorld.st_commit|apply KernelWorld.st_allocate|
    by eapply KernelWorld.st_finish|by eapply KernelWorld.st_leave]; try done.
  unfold kMaximumProducerSlots. lia.
Qed.

(** A consumption that gives one record up. *)
Definition kernel_consume (w : KernelWorld.World) : KernelWorld.World :=
  let w := KernelWorld.on_consume_claim w in
  match KernelWorld.consuming w with
  | Some (claim, _) => KernelWorld.on_acknowledge claim (KernelWorld.on_consume_record claim w)
  | None => w
  end.

Lemma kernel_consume_run gc w :
  KernelWorld.consuming w = None -> rtc (KernelWorld.kernel_step gc) w (kernel_consume w)
    /\ KernelWorld.consuming (kernel_consume w) = None.
Proof.
  intros Hc. unfold kernel_consume.
  assert (KernelWorld.kernel_step gc w (KernelWorld.on_consume_claim w)) as S1 by apply KernelWorld.st_consume_claim.
  assert (forall claim b, KernelWorld.consuming (KernelWorld.on_consume_claim w) = Some (claim, b) -> b = false) as Hb.
  { intros claim b. unfold KernelWorld.on_consume_claim. destruct (ProducerKernel.ConsumeClaim _) as [k [c|]]; cbn.
    - by intros [= _ <-].
    - by rewrite Hc. }
  destruct (KernelWorld.consuming (KernelWorld.on_consume_claim w)) as [[claim b]|] eqn:He.
  2: { split; [by apply rtc_once|done]. }
  rewrite (Hb claim b eq_refl) in He. set (w1 := KernelWorld.on_consume_claim w) in *.
  set (w2 := KernelWorld.on_consume_record claim w1).
  assert (KernelWorld.consuming w2 = Some (claim, true)) as H2.
  { unfold w2, KernelWorld.on_consume_record. by destruct (ProducerKernel.ConsumeRecord _ _ _). }
  split; [|done]. eapply rtc_l; [exact S1|]. eapply rtc_l; [by apply KernelWorld.st_consume_record|].
  by apply rtc_once, KernelWorld.st_acknowledge.
Qed.

Section Computed.
Context {R C : Type} `{!Route R, !RouteView R}.
Context (gc : Z -> option (list byte)).
Context (self : nat) (identity : Z) (block : nat) (others : nat -> option KernelLifetimeState).
Implicit Types (w : World R C).

(** A step of the kernel. *)
Definition by_kernel (kw : KernelWorld.World) w : World R C :=
  w <| domain ::= fun d => d <| producer_ := KernelWorld.impl kw |> |> <| kernel := kw |>.

(** A step of the worker, with the worlds of its kernel and of its reserve. *)
Definition by_worker (kw : KernelWorld.World) (cw : ControlReserve.World C) w : World R C :=
  let '(next, cl, d) := WorkerStep self identity (Accepted (domain w)) (pc w) (caller w) (domain w) in
  worker_moves w next cl d kw cw.

(** A step of the worker that neither consumes nor completes. *)
Definition by_worker_alone w : World R C := by_worker (kernel w) (controls w) w.

Definition sample_fits w : bool :=
  (processed_records (ledger_ (domain w)) <=? Accepted (domain w))
  && forallb (fun a => negb (active a) || (watermark a <=? Accepted (domain w))) (actions_ (domain w)).

Lemma sample_fits_spec w : sample_fits w = true -> samples w (Accepted (domain w)).
Proof.
  intros [H1%Z.leb_le H2]%andb_true_iff. split; [lia|]. intros a Ha Hact.
  rewrite forallb_forall in H2. specialize (H2 a (proj1 (list_elem_of_In _ _) Ha)).
  apply orb_true_iff in H2 as [H2|H2]; [by rewrite Hact in H2|by apply Z.leb_le].
Qed.

Lemma by_worker_step kw cw w :
  sample_fits w = true ->
  kernel_run gc (kernel w) (producer_ (domain (by_worker kw cw w))) kw ->
  match pc w with
  | WComplete (Some ref) o report _ => ControlRuns.completes ref o report (controls w) cw
  | _ => cw = controls w
  end -> runtime_step gc self identity block others w (by_worker kw cw w).
Proof.
  intros Hsam Hrun Hcw. unfold by_worker in *.
  destruct (WorkerStep self identity (Accepted (domain w)) (pc w) (caller w) (domain w)) as [[next cl] d] eqn:Hst.
  by eapply rt_worker; [by apply sample_fits_spec|..].
Qed.

Lemma by_worker_alone_step w :
  sample_fits w = true -> KernelWorld.consuming (kernel w) = None ->
  KernelWorld.impl (kernel w) = producer_ (domain (by_worker_alone w)) ->
  match pc w with WComplete (Some _) _ _ _ => False | _ => True end ->
  runtime_step gc self identity block others w (by_worker_alone w).
Proof.
  intros Hsam Hc Hi Hp. apply by_worker_step; [done|by split_and!|].
  by destruct (pc w) as [| | | | | | | |[]| | | | | | | | | | | | | | | | | | |].
Qed.

(** [n] such steps, and when they can be taken. *)
Fixpoint worker_run (n : nat) w : World R C :=
  match n with O => w | S n => worker_run n (by_worker_alone w) end.

Fixpoint runs_alone (n : nat) w : Prop :=
  match n with
  | O => True
  | S n => (sample_fits w = true /\ KernelWorld.consuming (kernel w) = None
      /\ KernelWorld.impl (kernel w) = producer_ (domain (by_worker_alone w))
      /\ match pc w with WComplete (Some _) _ _ _ => False | _ => True end)
      /\ runs_alone n (by_worker_alone w)
  end.

Lemma worker_run_steps n w :
  runs_alone n w -> rtc (runtime_step gc self identity block others) w (worker_run n w).
Proof.
  revert w. induction n as [|n IH]; intros w; [done|]. intros [(H1 & H2 & H3 & H4) Hn].
  eapply rtc_l; [by apply by_worker_alone_step|by apply IH].
Qed.

(** Steps of the kernel of one publication. *)
Fixpoint publication_run (n p : nat) w : World R C :=
  match n with O => w | S n => publication_run n p (by_kernel (kernel_advance gc p (kernel w)) w) end.

Fixpoint publishes (n p : nat) w : Prop :=
  match n with
  | O => True
  | S n => (is_Some (KernelWorld.publishing (kernel w) !! p)
      /\ KernelWorld.consuming (kernel_advance gc p (kernel w)) = None
      /\ KernelWorld.delivered (kernel_advance gc p (kernel w)) = KernelWorld.delivered (kernel w))
      /\ publishes n p (by_kernel (kernel_advance gc p (kernel w)) w)
  end.

Lemma publication_run_steps n p w :
  publishes n p w -> rtc (runtime_step gc self identity block others) w (publication_run n p w).
Proof.
  revert w. induction n as [|n IH]; intros w; [done|]. intros [(H1 & H2 & H3) Hn].
  eapply rtc_l; [apply rt_kernel; [by apply kernel_advance_step|done..]|by apply IH].
Qed.

(** [StartAction]: [TryStart], then the locked section of the first call in progress. *)
Definition by_start (kind : ControlActionKind) w : World R C :=
  match ControlReserve.TryStart (control_reserve_ (domain w)) with
  | inr (i, generation, reserve) =>
      let ref := {| ControlReserve.node := i; ControlReserve.node_generation := generation;
                    ControlReserve.serial := ControlReserve.started (controls w) |} in
      w <| domain ::= fun d => d <| control_reserve_ := reserve |> |>
        <| controls ::= ControlRuns.begins ref reserve |>
        <| calls ::= cons (CStarted kind ref) |>
        <| starts ::= fun s => s ++ [(kind, Accepted (domain w))] |>
  | inl _ => w
  end.

Lemma by_start_step kind w :
  match ControlReserve.TryStart (control_reserve_ (domain w)) with inr _ => True | inl _ => False end ->
  runtime_step gc self identity block others w (by_start kind w).
Proof.
  unfold by_start. destruct (ControlReserve.TryStart _) as [|[[i generation] reserve]] eqn:Ht; [done|].
  intros _. by apply (rt_start _ _ _ _ _ _ kind).
Qed.

(** The locked section registers the action. *)
Definition by_registration (kind : ControlActionKind) (ref : ControlReserve.NodeRef) w : World R C :=
  let '(_, _, d) := StartActionLocked self identity kind (Accepted (domain w)) (Some ref) (caller w) (domain w) in
  w <| domain := d |> <| kernel := kernel w |> <| calls := [] |> <| reports ::= fun rs => rs ++ [] |>.

Lemma by_registration_step kind ref base w :
  calls w = [CStarted kind ref] -> starts w !! ControlReserve.serial ref = Some (kind, base) ->
  sample_fits w = true -> base <= Accepted (domain w) ->
  fst (fst (StartActionLocked self identity kind (Accepted (domain w)) (Some ref) (caller w) (domain w))) = None ->
  KernelWorld.consuming (kernel w) = None ->
  KernelWorld.impl (kernel w) = producer_ (domain (by_registration kind ref w)) ->
  runtime_step gc self identity block others w (by_registration kind ref w).
Proof.
  intros Hcalls Hst Hs Hb Hi Hc Hk. unfold by_registration in *.
  destruct (StartActionLocked _ _ _ _ _ _ _) as [[immediate cl'] d'] eqn:He. cbn [fst] in Hi. subst immediate.
  apply (rt_locked gc self identity block others w [] kind ref [] base (Accepted (domain w)) (caller w) None cl' d' (kernel w));
    [done|done|by apply sample_fits_spec|done|done|by split_and!].
Qed.
End Computed.

(** ** The run *)

Definition demo_runtime_config : RuntimeConfig :=
  {| threshold := kInfo; payload_capacity_bytes := 256; maximum_record_bytes := 128;
     producer_slots := 1; ingress_cells := 2; control_operations := 2; worker_threads := 1;
     startup_timeout := 1000; destruction_timeout := 1000 |}.

Definition demo_env : CreateEnv :=
  {| allocates_domain := None; dispatcher_ready := true; dispatcher_bytes := 64;
     io_thread_created := true; io_loop := None; allocates_impl := None; worker_created := true;
     worker_in_time := true; path_throws := None; sink_throws := None |}.

Definition demo_destination : InMemoryEncodedDestination.InMemoryEncodedDestinationState :=
  match InMemoryEncodedDestination.MakeState 32
    {| InMemoryEncodedDestination.capacity_records := 1;
       InMemoryEncodedDestination.maximum_record_bytes := 128;
       InMemoryEncodedDestination.start_paused := false |} with
  | inr s => s
  | inl _ => {| InMemoryEncodedDestination.backing := []; InMemoryEncodedDestination.slots := [];
      InMemoryEncodedDestination.state_maximum_record_bytes := 0;
      InMemoryEncodedDestination.maximum_encoded_record_bytes := 0;
      InMemoryEncodedDestination.fixed_backing_bytes := 0; InMemoryEncodedDestination.wake := false;
      InMemoryEncodedDestination.notifications := 0;
      InMemoryEncodedDestination.delivery_mode := InMemoryEncodedDestination.kHold;
      InMemoryEncodedDestination.runtime_attached := false; InMemoryEncodedDestination.paused := false;
      InMemoryEncodedDestination.stopped := false |}
  end.

#[export] Instance demo_route : Route RuntimeRoute := RuntimeRoute_route RawEncoder.demo_double 48 256.

Definition demo_made : RuntimeCreateFailure + RuntimeDomain RuntimeRoute nat :=
  Create demo_env demo_runtime_config (Encoded demo_destination).

Definition demo_domain : RuntimeDomain RuntimeRoute nat :=
  ltac:(let v := eval vm_compute in demo_made in match v with inr ?d => exact d end).

Definition demo_caller : Caller := {| caller_registry := initial_registry; caller_next_shard := 0 |}.

Definition demo_call : ProducerKernel.PublishCall :=
  KernelProperties.kernel_demo_call (ProducerKernel.BuildReturns ProducerKernel.kComplete).

Definition demo_ref : ControlReserve.NodeRef :=
  {| ControlReserve.node := 0; ControlReserve.node_generation := 1; ControlReserve.serial := 0 |}.

(** A producer registers, enters with a record and claims. *)
Definition demo_created : World RuntimeRoute nat := initial_world demo_domain demo_caller.
Definition demo_registered : World RuntimeRoute nat := by_kernel (KernelWorld.on_acquire 0 (kernel demo_created)) demo_created.
Definition demo_entered : World RuntimeRoute nat :=
  by_kernel (kernel demo_registered <| KernelWorld.entered ::= cons demo_call |>) demo_registered.
Definition demo_claimed : World RuntimeRoute nat :=
  by_kernel (KernelWorld.on_claim demo_call (kernel demo_entered <| KernelWorld.entered := [] |>)) demo_entered.

(** The record is published and a drain is started. *)
Definition demo_published : World RuntimeRoute nat := publication_run RecordStorage.no_double 6 0 demo_claimed.
Definition demo_started : World RuntimeRoute nat := by_start kDrain demo_published.
Definition demo_draining : World RuntimeRoute nat := by_registration 0 0 kDrain demo_ref demo_started.

(** The worker delivers the record, retires it and reports the drain. *)
Definition demo_delivering : World RuntimeRoute nat := worker_run 0 0 5 demo_draining.
Definition demo_delivered : World RuntimeRoute nat :=
  by_worker 0 0 (kernel_consume (kernel demo_delivering)) (controls demo_delivering) demo_delivering.
Definition demo_reported : World RuntimeRoute nat := worker_run 0 0 6 demo_delivered.

Definition demo_report : Operation.OperationReport :=
  {| Operation.watermark_records := 1; Operation.processed_records := 1; Operation.processed_bytes := 23;
     Operation.delivered_records := 1; Operation.delivered_bytes := 23; Operation.failed_records := 0;
     Operation.failed_bytes := 0; Operation.unfinished_records := 0; Operation.unfinished_bytes := 0 |}.

Definition demo_completion : Completion :=
  {| c_ref := demo_ref; c_outcome := Operation.kSucceeded; c_report := demo_report;
     c_seen := [{| d_sequence := 0; d_bytes := 23; d_fate := Delivered |}] |}.

(** ** It is a run of the Runtime *)

Lemma demo_is_made : demo_made = inr demo_domain.
Proof. by vm_compute. Qed.

Lemma demo_idle : idle_destination (Encoded demo_destination).
Proof.
  split; [|by vm_compute]. split; [by vm_compute|].
  assert (InMemoryEncodedDestination.slots demo_destination = [InMemoryEncodedDestination.empty_slot]) as ->
    by by vm_compute. by repeat constructor.
Qed.

Lemma demo_starts_published :
  rtc (runtime_step RecordStorage.no_double 0 0 0 (fun _ => None)) demo_created demo_published.
Proof.
  eapply rtc_l.
  { apply (rt_kernel _ _ _ _ _ demo_created (KernelWorld.on_acquire 0 (kernel demo_created))); [|by vm_compute..].
    apply KernelWorld.st_acquire. by vm_compute; lia. }
  eapply rtc_l.
  { apply (rt_kernel _ _ _ _ _ demo_registered (kernel demo_registered <| KernelWorld.entered ::= cons demo_call |>)); [|by vm_compute..].
    apply KernelWorld.st_enter; [apply KernelProperties.kernel_demo_call_ok|by vm_compute]. }
  eapply rtc_l.
  { apply (rt_kernel _ _ _ _ _ demo_entered (KernelWorld.on_claim demo_call (kernel demo_entered <| KernelWorld.entered := [] |>))); [|by vm_compute..]. by apply KernelWorld.st_claim. }
  apply publication_run_steps. vm_compute. repeat first [done|by eexists|split].
Qed.

Lemma demo_waits :
  rtc (runtime_step RecordStorage.no_double 0 0 0 (fun _ => None)) demo_published demo_delivering.
Proof.
  apply (rtc_l _ _ demo_started); [by apply by_start_step|].
  apply (rtc_l _ _ demo_draining).
  { unfold demo_draining. apply by_registration_step with 1; [by vm_compute..|done|by vm_compute]. }
  apply (worker_run_steps _ _ _ _ _ 5). vm_compute. by split_and!.
Qed.

Lemma demo_delivers :
  runtime_step RecordStorage.no_double 0 0 0 (fun _ => None) demo_delivering demo_delivered.
Proof.
  pose proof (kernel_consume_run RecordStorage.no_double (kernel demo_delivering) ltac:(by vm_compute)) as [H1 H2].
  unfold demo_delivered. apply by_worker_step; [by vm_compute| |by vm_compute].
  split_and!; [exact H1|by vm_compute|exact H2].
Qed.

Lemma demo_drains :
  rtc (runtime_step RecordStorage.no_double 0 0 0 (fun _ => None)) demo_delivered demo_reported.
Proof. apply (worker_run_steps _ _ _ _ _ 6). vm_compute. by split_and!. Qed.

Lemma demo_run :
  created demo_domain
  /\ rtc (runtime_step RecordStorage.no_double 0 0 0 (fun _ => None)) demo_created demo_reported
  /\ zlen (KernelWorld.history (kernel demo_reported)) < 2 ^ 64.
Proof.
  split_and!; [| |by vm_compute].
  2: { etrans; [exact demo_starts_published|]. etrans; [exact demo_waits|].
    eapply rtc_l; [exact demo_delivers|exact demo_drains]. }
  eapply created_memory; [|exact demo_idle|exact demo_is_made]. by vm_compute.
Qed.

Lemma demo_reports : reports demo_reported = [demo_completion].
Proof. by vm_compute. Qed.
