(* ===== verification/RuntimeLoops.v ===== *)
(** * The loops of the worker end

    The body of [Run] has inner loops: it retires deliveries, completes drains, completes
    every action, scans the producer slots. This file shows that the worker leaves each of
    them, whatever the route, the kernel and the tables hold. *)
From stdpp Require Import strings gmap relations list.
From S2P Require Import Prelude KernelTypes ThreadRegistry RuntimeConfig RuntimeRoute RuntimeDomain.
From S2P Require Import RuntimeWorld RuntimeDemo.
From S2P Require Operation ControlReserve ProducerKernel KernelRuns RouteTypes RawEncoder.
#[local] Open Scope Z_scope.
#[local] Open Scope ulog_scope.

Section Loops.
Context {R C : Type} `{!Route R}.
Context (self : nat) (identity : Z).
Implicit Types (d : RuntimeDomain R C) (cl : Caller) (pc : WorkerPc).

(** Where an iteration ends: the head of the loop of [Run], the head of that of
    [DrainDiscardedRecords], or the end of the worker. *)
Definition pauses pc : bool := match pc with WHead | WConsume | WDone => true | _ => false end.

Definition ends pc cl d : Prop := exists n, pauses (Run self identity n pc cl d).1.1 = true.

Lemma ends_pause pc cl d : pauses pc = true -> ends pc cl d.
Proof. by exists 0%nat. Qed.

Lemma ends_step pc cl d pc' cl' d' :
  WorkerStep self identity (Accepted d) pc cl d = (pc', cl', d') -> ends pc' cl' d' -> ends pc cl d.
Proof. intros Hs [n Hn]. exists (S n). cbn [Run]. by rewrite Hs. Qed.

(** Wherever the worker goes on from [pc]. *)
Definition always pc : Prop := forall cl d, ends pc cl d.

Lemma always_step pc :
  (forall cl d pc' cl' d', WorkerStep self identity (Accepted d) pc cl d = (pc', cl', d') -> always pc') ->
  always pc.
Proof.
  intros H cl d. destruct (WorkerStep self identity (Accepted d) pc cl d) as [[pc' cl'] d'] eqn:Hs.
  eapply ends_step; [exact Hs|]. by eapply H.
Qed.

(** ** Taking actions *)

Definition pending d : nat := length (filter (fun a => active a = true) (actions_ d)).

Lemma take_pending ready mark d taken d' :
  (forall a, ready a = true -> active a = true) -> TakeActionLocked ready mark d = (Some taken, d') ->
  (pending d' < pending d)%nat /\ ledger_ d' = ledger_ d.
Proof.
  intros Hr. unfold TakeActionLocked. destruct (first_index ready (actions_ d)) as [i|] eqn:Hi; [|done].
  apply first_index_Some in Hi as (a & Ha & Hready%Hr & _). intros [= _ <-]. split; [|done].
  unfold pending. cbn. rewrite <- (take_drop_middle _ _ _ Ha). pose proof (lookup_lt_Some _ _ _ Ha) as Hlt.
  rewrite alter_app_r_alt; rewrite length_take_le by lia; [|lia]. rewrite Nat.sub_diag. cbn.
  rewrite !list.filter_app, !length_app, (list.filter_cons_True _ a) by done.
  rewrite list.filter_cons_False by done. cbn. lia.
Qed.

Lemma complete_pending c o report d :
  pending (CompleteOperation c o report d) = pending d /\ ledger_ (CompleteOperation c o report d) = ledger_ d.
Proof. done. Qed.

(** The loop of [CompleteActions]. *)
Lemma actions_end o a : always (after_actions a) -> always (WActions o a).
Proof.
  intros Hnext cl d. remember (pending d) as n eqn:Hn. revert cl d Hn.
  induction (lt_wf n) as [n _ IH]; intros cl d ->.
  destruct (TakeActive (Accepted d) d) as [[[c report]|] d'] eqn:Ht.
  - eapply ends_step; [cbn [WorkerStep]; rewrite Ht; reflexivity|]. eapply ends_step; [reflexivity|].
    cbn [after_completion]. apply take_pending in Ht as [Hlt _]; [|done]. by eapply IH.
  - eapply ends_step; [cbn [WorkerStep]; rewrite Ht; reflexivity|]. apply Hnext.
Qed.

(** The loop of [CompleteReadyDrains], which leaves the ledger alone. *)
Lemma drains_end_at a (ok : RouteLedger -> Prop) :
  (forall cl d, ok (ledger_ d) -> ends (after_drains a) cl d) ->
  forall cl d, ok (ledger_ d) -> ends (WDrains a) cl d.
Proof.
  intros Hnext cl d. remember (pending d) as n eqn:Hn. revert cl d Hn.
  induction (lt_wf n) as [n _ IH]; intros cl d -> Hok.
  destruct (TakeReadyDrain d) as [[[c report]|] d'] eqn:Ht.
  - eapply ends_step; [cbn [WorkerStep]; rewrite Ht; reflexivity|]. eapply ends_step; [reflexivity|].
    cbn [after_completion]. apply take_pending in Ht as [Hlt Hl].
    + eapply IH; [exact Hlt|done|]. rewrite (proj2 (complete_pending _ _ _ _)). by rewrite Hl.
    + intros x. unfold drain_ready. by destruct (active x).
  - eapply ends_step; [cbn [WorkerStep]; rewrite Ht; reflexivity|]. apply Hnext.
    unfold TakeReadyDrain, TakeActionLocked in Ht. destruct (first_index _ _); by simplify_eq.
Qed.

(** The scan of the slots. *)
Lemma scan_end a : (forall quiescent, always (after_scan quiescent a)) ->
  forall slot quiescent, always (WScan slot quiescent a).
Proof.
  intros Hnext slot quiescent cl d.
  remember (ProducerKernel.producer_slots (ProducerKernel.config (producer_ d)) - slot)%nat as n eqn:Hn.
  revert slot quiescent cl d Hn. induction n as [|n IH]; intros slot quiescent cl d Hn.
  - eapply ends_step; [cbn [WorkerStep]; destruct (Nat.ltb_spec slot (ProducerKernel.producer_slots
      (ProducerKernel.config (producer_ d)))); [lia|reflexivity]|]. apply Hnext.
  - destruct (ScanSlot slot quiescent (producer_ d)) as [q k] eqn:Hs.
    eapply ends_step; [cbn [WorkerStep]; destruct (Nat.ltb_spec slot (ProducerKernel.producer_slots
      (ProducerKernel.config (producer_ d)))); [rewrite Hs; reflexivity|lia]|].
    apply IH. cbn. unfold ScanSlot, ProducerKernel.QuiescentLoop in Hs. injection Hs as _ <-.
    rewrite KernelRuns.finish_retirement_config. lia.
Qed.

(** ** The rest of an iteration *)

Ltac next := apply always_step; let H := fresh "Hstep" in intros ? ? ? ? ? H; cbn [WorkerStep] in H;
  repeat case_match; simplify_eq; try done.

Lemma pause_ends pc : pauses pc = true -> always pc.
Proof. intros Hp cl d. by apply ends_pause. Qed.

Lemma stop_ends : always WStop.
Proof. next. by apply pause_ends. Qed.

Lemma exit_ends o : always (WExit o).
Proof. next; [by apply actions_end, stop_ends|apply stop_ends]. Qed.

Lemma discard_ends : always WDiscardRoute.
Proof.
  next. apply scan_end. intros []; [apply exit_ends|by apply pause_ends].
Qed.

Lemma settle_ends : always WSettle.
Proof. next. apply discard_ends. Qed.

Lemma stop_route_ends o : always (WStopRoute o).
Proof. next. apply actions_end, settle_ends. Qed.

Lemma failure_ends : always WPrepareFailure.
Proof. next. apply stop_route_ends. Qed.

Lemma prepare_ends : always WPrepareStop.
Proof. next. apply stop_route_ends. Qed.

Lemma head_ends : always WHead.
Proof. by apply pause_ends. Qed.

Lemma wait_ends : always WWait.
Proof. next. apply head_ends. Qed.

Lemma processed_ends result : always (WProcessed result).
Proof.
  next; [|apply head_ends].
  intros ? ?. apply (drains_end_at ThenHead (fun _ => True)); [|done]. intros ? ? _. apply head_ends.
Qed.

Lemma encoding_ends sequence : always (WEncodingFailed sequence).
Proof. next. apply failure_ends. Qed.

Lemma deliver_ends : always WDeliver.
Proof. next; eauto using wait_ends, processed_ends, encoding_ends. Qed.

Lemma closed_ends : always WClosed.
Proof. next; [apply exit_ends|apply deliver_ends]. Qed.

Lemma closing_ends : always WClosing.
Proof. next. apply closed_ends. Qed.

Lemma covered_ends : always WCovered.
Proof. next; [apply closing_ends|apply deliver_ends]. Qed.

Lemma after_scan_ends a quiescent : always (after_scan quiescent a).
Proof. destruct a, quiescent; [apply covered_ends|apply deliver_ends|apply exit_ends|by apply pause_ends]. Qed.

Lemma slots_end slot quiescent a : always (WScan slot quiescent a).
Proof. apply scan_end. intros q. apply after_scan_ends. Qed.

Lemma finish_ends : always WFinish.
Proof.
  next; [apply slots_end|apply deliver_ends].
Qed.

Lemma route_error_ends error : always (WRouteError error).
Proof. next. apply failure_ends. Qed.

Lemma terminal_ends : always WTerminal.
Proof. next; [apply route_error_ends|apply finish_ends]. Qed.

Lemma table_ends o a : always (WActions o a).
Proof. apply actions_end. destruct a; [apply settle_ends|apply stop_ends]. Qed.

(** *** The retirements *)

(** The counters of the ledger are unsigned and have 64 bits. *)
Definition ledger_typed (l : RouteLedger) : Prop :=
  0 <= retired_records l /\ processed_records l < 2 ^ 64.

Definition to_retire (l : RouteLedger) : nat := Z.to_nat (processed_records l - retired_records l).

Lemma retirement_counted x d :
  ledger_typed (ledger_ d) ->
  ledger_typed (ledger_ (RecordRetirement x d))
  /\ (retired_records (ledger_ d) < processed_records (ledger_ d) ->
      (to_retire (ledger_ (RecordRetirement x d)) < to_retire (ledger_ d))%nat).
Proof.
  intros [H1 H2]. unfold ledger_typed, to_retire.
  assert (retired_records (ledger_ (RecordRetirement x d)) = w64 (retired_records (ledger_ d) + 1)
    /\ processed_records (ledger_ (RecordRetirement x d)) = processed_records (ledger_ d)) as [-> ->]
    by (unfold RecordRetirement; by destruct (RouteTypes.outcome x)).
  pose proof (w64_range (retired_records (ledger_ d) + 1)). split; [lia|]. intros Hlt. rewrite w64_small; lia.
Qed.

Lemma decided_ends x n :
  (forall cl d, ledger_typed (ledger_ d) /\ (to_retire (ledger_ d) < n)%nat -> ends WRetire cl d) ->
  forall cl d, ledger_typed (ledger_ d) /\ (to_retire (ledger_ d) < n)%nat -> ends (WDecided x) cl d.
Proof.
  intros Hr cl d Hok. eapply ends_step; [reflexivity|]. case_match; [apply terminal_ends|].
  by apply (drains_end_at ThenRetire (fun l => ledger_typed l /\ (to_retire l < n)%nat)).
Qed.

Lemma retire_end n cl d : ledger_typed (ledger_ d) /\ (to_retire (ledger_ d) < n)%nat -> ends WRetire cl d.
Proof.
  revert cl d. induction n as [|n IH]; intros cl d [Ht Hn]; [lia|].
  destruct (Z.ltb_spec (retired_records (ledger_ d)) (processed_records (ledger_ d))) as [Hlt|Hge].
  - destruct (route_try_retire (retired_records (ledger_ d)) (route_ d)) as [[x|] r] eqn:Hx.
    + eapply ends_step; [cbn [WorkerStep]; rewrite (proj2 (Z.ltb_lt _ _) Hlt), Hx; reflexivity|].
      eapply ends_step; [reflexivity|]. apply (decided_ends x n IH).
      destruct (retirement_counted x (d <| route_ := r |>) Ht) as [H1 H2]. split; [done|].
      specialize (H2 Hlt). cbn in H2, Hn |- *. lia.
    + eapply ends_step; [cbn [WorkerStep]; rewrite (proj2 (Z.ltb_lt _ _) Hlt), Hx; reflexivity|].
      apply terminal_ends.
  - eapply ends_step; [cbn [WorkerStep]; rewrite (proj2 (Z.ltb_ge _ _) Hge); reflexivity|]. apply terminal_ends.
Qed.

Lemma retires_end cl d : ledger_typed (ledger_ d) -> ends WRetire cl d.
Proof. intros Ht. apply (retire_end (S (to_retire (ledger_ d)))). split; [done|lia]. Qed.

Lemma drains_end a cl d : ledger_typed (ledger_ d) -> ends (WDrains a) cl d.
Proof.
  apply drains_end_at. clear cl d. intros cl d Ht. destruct a; [by apply retires_end|apply head_ends].
Qed.

Lemma any_end pc cl d : ledger_typed (ledger_ d) -> ends pc cl d.
Proof.
  intros Ht. destruct pc as [| | |o| |x|x|a|c o report nx|o a| |error| | |slot q a| | | | |result|sequence| | | | |o| |];
    try (by apply ends_pause); try (by apply drains_end); try (by apply retires_end);
    try first [apply prepare_ends|apply stop_route_ends|apply table_ends|apply terminal_ends|apply route_error_ends|apply failure_ends|apply finish_ends
      |apply slots_end|apply covered_ends|apply closing_ends|apply closed_ends|apply deliver_ends|apply processed_ends
      |apply encoding_ends|apply wait_ends|apply settle_ends|apply discard_ends|apply exit_ends|apply stop_ends].
  - eapply ends_step; [reflexivity|]. apply head_ends.
  - eapply ends_step; [reflexivity|]. destruct (retirement_counted x d Ht) as [Ht' _].
    eapply (decided_ends x); [intros ? ? [H _]; by apply retires_end|]. split; [done|apply Nat.lt_succ_diag_r].
  - eapply (decided_ends x); [intros ? ? [H _]; by apply retires_end|]. split; [done|apply Nat.lt_succ_diag_r].
  - eapply ends_step; [reflexivity|]. destruct nx as [a|o' a]; [by apply drains_end|apply table_ends].
Qed.

(** ** Theorem *)

(** C23: every iteration of the worker ends. From wherever the worker is, and whatever the
    route, the kernel, the table of actions and the ledger hold, the worker alone comes in
    finitely many steps, at least one, to the head of its loop, to the next record that is
    to be discarded, or to its end: it leaves the loops that retire deliveries, complete
    drains, complete every action and scan the slots. *)
Theorem worker_iteration_ends pc cl d :
  ledger_typed (ledger_ d) -> exists n, pauses (Run self identity (S n) pc cl d).1.1 = true.
Proof.
  intros Ht. destruct (pauses pc) eqn:Hp.
  - assert (exists pc' cl' d', WorkerStep self identity (Accepted d) pc cl d = (pc', cl', d') /\ ends pc' cl' d')
      as (pc' & cl' & d' & Hs & n & Hn); [|exists n; cbn [Run]; by rewrite Hs].
    destruct pc; try done; cbn [WorkerStep].
    + do 3 eexists. split; [reflexivity|]. case_match; [apply prepare_ends|by apply retires_end].
    + destruct (ProducerKernel.TryConsume _ _) as [[k st] call]. do 3 eexists. split; [reflexivity|]. apply slots_end.
    + do 3 eexists. split; [reflexivity|]. by apply ends_pause.
  - destruct (any_end pc cl d Ht) as [[|n] Hn]; [cbn in Hn; congruence|by exists n].
Qed.
End Loops.

(** The worker of [RuntimeDemo.v] after the record was delivered. *)
Lemma worker_iteration_ends_witness :
  exists n, pauses (Run 0 0 (S n) (pc demo_delivered) (caller demo_delivered) (domain demo_delivered)).1.1 = true.
Proof. apply worker_iteration_ends. by vm_compute. Defined.
