(* ===== verification/RuntimeProperties.v ===== *)
(** * What a Runtime promises

    The properties of a Runtime that was created and then runs, its worker interleaved
    with the threads that log, start operations, drop them, move the sink and destroy the
    Runtime. Its route is one of the three sinks; the theorems use only the contract of
    [RouteContract.v], which [RouteViews.v] proves of them. *)
From stdpp Require Import strings gmap relations list_numbers.
From S2P Require Import Prelude Sampling KernelTypes ThreadRegistry RuntimeConfig RuntimeRoute RouteContract RouteViews RuntimeDomain.
From S2P Require Import RuntimeWorld RuntimeInvariant RuntimeSteps RuntimeStatus RuntimeReports RuntimeCreation RuntimeDemo.
From S2P Require Operation ControlReserve ControlRuns ProducerKernel ProducerLanes KernelWorld KernelAccounting KernelRuns RouteTypes RawFileSink InMemoryDestination InMemoryEncodedDestination RawEncoder RecordStorage.
#[local] Open Scope Z_scope.
#[local] Open Scope ulog_scope.

(** ** Lemmas: full reports *)

Lemma below_full mark ds :
  first_sequences ds -> 0 <= mark ->
  (forall q, 0 <= q < mark -> exists x, x ∈ ds /\ d_sequence x = q) -> zlen (below mark ds) = mark.
Proof.
  intros Hds Hm Hall. pose proof (zlen_below_le mark ds Hds Hm).
  enough (mark <= zlen (below mark ds)) by lia.
  replace mark with (zlen (seqZ 0 mark)) at 1 by (unfold zlen; rewrite length_seqZ; lia).
  unfold zlen. apply inj_le. rewrite <- (length_fmap d_sequence (below mark ds)).
  apply submseteq_length, NoDup_submseteq; [apply NoDup_seqZ|].
  intros q Hq%elem_of_seqZ. destruct (Hall q ltac:(lia)) as (x & Hx & <-).
  apply list_elem_of_fmap_2. unfold below. apply list_elem_of_filter. split; [lia|done].
Qed.

Lemma below_decided mark ds :
  first_sequences ds ->
  (forall q, 0 <= q < mark -> exists x, x ∈ ds /\ d_sequence x = q /\ (d_fate x = Delivered \/ d_fate x = Failed)) ->
  forall x, x ∈ below mark ds -> d_fate x = Delivered \/ d_fate x = Failed.
Proof.
  intros Hds Hall x Hx. unfold below in Hx. apply list_elem_of_filter in Hx as [Hlt Hx].
  assert (0 <= d_sequence x < zlen ds) as Hq by (apply (first_sequences_elem ds _ Hds); by exists x).
  destruct (Hall (d_sequence x) ltac:(lia)) as (y & Hy & Hs & Hf).
  by rewrite (first_sequences_unique ds x y Hds Hx Hy) by done.
Qed.

(** The reference report of a mark below which everything is delivered or failed. *)
Lemma report_decided mark ds :
  first_sequences ds -> 0 <= mark ->
  (forall q, 0 <= q < mark -> exists x, x ∈ ds /\ d_sequence x = q /\ (d_fate x = Delivered \/ d_fate x = Failed)) ->
  let report := report_of mark ds in
  Operation.processed_records report = mark
  /\ Operation.delivered_records report + Operation.failed_records report = mark
  /\ Operation.unfinished_records report = 0 /\ Operation.unfinished_bytes report = 0.
Proof.
  intros Hds Hm Hall. cbn.
  assert (zlen (below mark ds) = mark) as Hlen.
  { apply below_full; [done..|]. intros q Hq. destruct (Hall q Hq) as (x & Hx & Hs & _). by exists x. }
  destruct (decided_split _ (below_decided mark ds Hds Hall)) as [H1 H2].
  rewrite Hlen in *. split_and!; [done|lia|lia|]. rewrite H2.
  match goal with |- w64 (?a + ?b - ?a - ?b) = 0 => by replace (a + b - a - b) with 0 by lia end.
Qed.

Section Properties.
Context {C : Type}.
Context (double_text : Z -> list byte) (sizeof_FileSlot sizeof_RawFileSinkState : Z).
Context (gc : Z -> option (list byte)).
Context (self : nat) (identity : Z) (block : nat) (others : nat -> option KernelLifetimeState).
#[local] Instance properties_route : Route RuntimeRoute :=
  RuntimeRoute_route double_text sizeof_FileSlot sizeof_RawFileSinkState.
Implicit Types (w : World RuntimeRoute C) (d : RuntimeDomain RuntimeRoute C).

Definition steps : relation (World RuntimeRoute C) := rtc (runtime_step gc self identity block others).

(** The worlds of a Runtime, while its sequences have not wrapped around. *)
Definition runtime_reaches w : Prop :=
  exists d cl, created d
    /\ steps (initial_world d cl) w /\ zlen (KernelWorld.history (kernel w)) < 2 ^ 64.

Lemma reaches_runtime_inv w : runtime_reaches w -> runtime_inv gc w.
Proof.
  intros (d & cl & Hc & Hrun & Hb). eapply runtime_run_inv; [exact Hrun|done|].
  by eapply created_inv.
Qed.

(** ** Reports *)

(** C1: every report a Runtime builds, for a drain, a shutdown or an operation that comes too
    late, by the worker or by the caller, is the reference report over the fates of the
    deliveries at that moment; the deliveries are of the first sequences, each once, and
    what had been delivered, failed or cancelled then is still so in the present. The
    delivered, the failed and the unfinished records add up to the watermark, which does not
    exceed what was accepted. *)
Theorem reports_are_exact w c :
  runtime_reaches w -> c ∈ reports w ->
  c_report c = report_of (Operation.watermark_records (c_report c)) (c_seen c)
  /\ first_sequences (c_seen c) /\ past (c_seen c) (deliveries w)
  /\ 0 <= Operation.watermark_records (c_report c) <= Accepted (domain w)
  /\ Operation.delivered_records (c_report c) + Operation.failed_records (c_report c)
     + Operation.unfinished_records (c_report c) = Operation.watermark_records (c_report c)
  /\ 0 <= Operation.unfinished_records (c_report c)
  /\ Operation.processed_records (c_report c) <= Operation.watermark_records (c_report c).
Proof.
  intros Hw Hc. destruct (ri_reports gc w (reaches_runtime_inv w Hw) c Hc) as [R1 R2 R3 R4 _ _].
  pose proof (fates_le (below (Operation.watermark_records (c_report c)) (c_seen c))) as Hf.
  pose proof (zlen_below_le (Operation.watermark_records (c_report c)) (c_seen c) R2 (proj1 R4)) as Hb.
  split_and!; try done; try apply R4; rewrite R1; cbn; lia.
Qed.

(** C2: an operation that succeeds covers every record admitted before it was started: all
    of them were delivered or failed, and nothing is unfinished. When it is a shutdown it
    covers every record the Runtime ever admits. *)
Theorem success_means_decided w c kind base :
  runtime_reaches w -> c ∈ reports w -> c_outcome c = Operation.kSucceeded ->
  starts w !! completion_serial c = Some (kind, base) ->
  let report := c_report c in
  let mark := Operation.watermark_records report in
  base <= mark
  /\ Operation.processed_records report = mark
  /\ Operation.delivered_records report + Operation.failed_records report = mark
  /\ Operation.unfinished_records report = 0 /\ Operation.unfinished_bytes report = 0
  /\ (forall q, 0 <= q < mark -> exists x, x ∈ deliveries w /\ d_sequence x = q
        /\ (d_fate x = Delivered \/ d_fate x = Failed))
  /\ (kind = kShutdown -> forall w', steps w w' -> zlen (KernelWorld.history (kernel w')) < 2 ^ 64 ->
        zlen (KernelWorld.history (kernel w')) = mark).
Proof.
  intros Hw Hc Ho Hst report mark. pose proof (reaches_runtime_inv w Hw) as Hinv.
  destruct (ri_reports gc w Hinv c Hc) as [R1 R2 R3 R4 R5 (kind' & base' & R6 & R7 & R8)].
  unfold completion_serial in Hst. rewrite Hst in R6. injection R6 as <- <-.
  pose proof (report_decided mark (c_seen c) R2 (proj1 R4) (R5 Ho)) as (D1 & D2 & D3 & D4).
  change (report_of mark (c_seen c)) with (report_of (Operation.watermark_records (c_report c)) (c_seen c)) in *.
  rewrite <- R1 in *. split_and!; try done.
  - intros q Hq. destruct (R5 Ho q Hq) as (x & Hx & Hs & Hf). exists x. split_and!; [|done..].
    apply R3; [done|]. by destruct Hf as [-> | ->].
  - intros Hk w' Hrun Hb. destruct (R8 Ho Hk) as [Hcov Hm].
    destruct (run_onward gc self identity block others w w' Hrun Hb Hinv) as [Hon _].
    destruct (Hon Hcov) as [_ Ha].
    assert (runtime_inv gc w') as Hinv' by (by eapply runtime_run_inv).
    destruct (kernel_counts gc w' (li_kernel gc w' (ri_ledger gc w' Hinv'))) as [_ <-].
    by rewrite Ha, <- Hm.
Qed.

(** ** Operations *)

(** An operation whose report is built, and whose completion is about to be reported. *)
Definition closing_serials w : list nat := fst <$> closing w.

Lemma closing_held w : runtime_inv gc w -> forall id result, (id, result) ∈ closing w ->
  exists c, c ∈ reports w /\ completion_serial c = id /\ result = Operation.MakeResult (c_outcome c) (c_report c).
Proof.
  intros Hinv id result Hin. pose proof (co_outcomes w (ri_control gc w Hinv)) as Ho.
  assert ((id, result) ∈ completion_result <$> reports w) as H by (rewrite Ho, elem_of_app; by right).
  apply list_elem_of_fmap in H as (c & [= -> ->] & Hc). by exists c.
Qed.

Lemma outcome_serials w : runtime_inv gc w ->
  completion_serial <$> reports w ≡ₚ (fst <$> ControlReserve.outcomes (controls w)) ++ closing_serials w.
Proof.
  intros Hinv. pose proof (co_outcomes w (ri_control gc w Hinv)) as Ho.
  unfold closing_serials. rewrite <- fmap_app, <- Ho, <- list_fmap_compose. done.
Qed.

(** C5: every operation that [StartAction] started is in exactly one place: it waits for its
    report, its report is on its way to the handle, or its handle has its outcome, which is
    the outcome and the report that were built for it. No operation is completed twice, and
    none is lost: once the worker is done and no call of [StartAction] is in progress,
    every operation has its outcome. *)
Theorem operations_complete_exactly_once w :
  runtime_reaches w ->
  let completed := ControlReserve.outcomes (controls w) in
  seq 0 (length (starts w))
    ≡ₚ (ControlReserve.serial <$> waiting w) ++ closing_serials w ++ (fst <$> completed)
  /\ NoDup (fst <$> completed)
  /\ (forall id result, (id, result) ∈ completed ->
       exists c, c ∈ reports w /\ completion_serial c = id
         /\ result = Operation.MakeResult (c_outcome c) (c_report c))
  /\ (pc w = WDone -> calls w = [] -> fst <$> completed ≡ₚ seq 0 (length (starts w))).
Proof.
  intros Hw completed. pose proof (reaches_runtime_inv w Hw) as Hinv.
  pose proof (co_serials w (ri_control gc w Hinv)) as Hs. rewrite (outcome_serials w Hinv) in Hs.
  fold completed in Hs. assert (seq 0 (length (starts w))
    ≡ₚ (ControlReserve.serial <$> waiting w) ++ closing_serials w ++ (fst <$> completed)) as Hall
    by (rewrite Hs; solve_Permutation).
  split_and!; [done|..].
  - assert (NoDup (seq 0 (length (starts w)))) as Hnd by apply NoDup_seq. rewrite Hall in Hnd.
    by apply list.NoDup_app in Hnd as (_ & _ & (_ & _ & ?)%list.NoDup_app).
  - intros id result Hin. pose proof (co_outcomes w (ri_control gc w Hinv)) as Ho.
    assert ((id, result) ∈ completion_result <$> reports w) as H by (rewrite Ho, elem_of_app; by left).
    apply list_elem_of_fmap in H as (c & [= -> ->] & Hc). by exists c.
  - intros Hdone Hcalls. rewrite Hall. unfold closing_serials, closing, waiting. rewrite Hdone, Hcalls. cbn.
    assert (omap active_ref (actions_ (domain w)) = []) as ->; [|done].
    pose proof (st_emptied w (ri_status gc w Hinv)) as He. rewrite Hdone in He. specialize (He eq_refl).
    clear -He. induction (actions_ (domain w)) as [|a l IH]; [done|]. cbn. unfold active_ref at 1.
    rewrite (He a ltac:(left)). apply IH. intros x Hx. apply He. by right.
Qed.

(** ** Snapshots *)

(** What the ledger says at one moment. *)
Lemma ledger_counts w :
  runtime_inv gc w ->
  let l := ledger_ (domain w) in
  delivered_records l = zlen (with_fate Delivered (counted w))
  /\ failed_records l = zlen (with_fate Failed (counted w))
  /\ delivered_records l +w failed_records l +w encoding_failed_records l
     = delivered_records l + failed_records l + encoding_failed_records l
  /\ delivered_records l + failed_records l + encoding_failed_records l <= processed_records l
  /\ processed_records l <= zlen (KernelWorld.history (kernel w)).
Proof.
  intros Hinv l. pose proof (ri_ledger gc w Hinv) as Hl.
  pose proof (ledger_order gc w Hl) as (H0 & Hr & Hh & Ht & Htk & Hc). unfold retired_inv in Hr.
  destruct (kernel_counts gc w (li_kernel gc w Hl)) as [_ Ha].
  destruct (ci_tallies w (li_counts gc w Hl)) as (T1 & _ & T3 & _).
  pose proof (ci_encoding w (li_counts gc w Hl)) as He.
  pose proof (fates_le (counted w)) as Hfl.
  pose proof (zlen_nonneg (with_fate Delivered (counted w))). pose proof (zlen_nonneg (with_fate Failed (counted w))).
  assert (zlen (counted w) + zlen (encoding_failure (ledger_ (domain w)))
    <= processed_records (ledger_ (domain w))) as Hcount.
  { unfold counted. pose proof (ci_processed w (li_counts gc w Hl)) as Hp.
    pose proof (ci_retired w (li_counts gc w Hl)) as Hret. unfold deliveries in Hp. rewrite !zlen_app in Hp.
    destruct (settled (ledger_ (domain w))) eqn:Hset.
    - destruct (in_hand_unsettled w (li_counts gc w Hl) Hset) as [_ Hsub]. rewrite zlen_app. lia.
    - rewrite app_nil_r. pose proof (zlen_nonneg (route_view (route_ (domain w)))) as Hv.
      pose proof (zlen_nonneg (encoding_failure (ledger_ (domain w)))).
      destruct (before_failure (pc w)) eqn:Hbf.
      + unfold encoding_failure. rewrite (ci_failed w (li_counts gc w Hl) Hbf). change (zlen []) with 0. lia.
      + assert (submitted w = 0) as Hsub by (unfold submitted; revert Hbf; by destruct (pc w)). lia. }
  pose proof (zlen_nonneg (encoding_failure (ledger_ (domain w)))).
  assert (delivered_records (ledger_ (domain w)) = zlen (with_fate Delivered (counted w))) as E1
    by (rewrite T1; apply w64_small; lia).
  assert (failed_records (ledger_ (domain w)) = zlen (with_fate Failed (counted w))) as E2
    by (rewrite T3; apply w64_small; lia).
  assert (delivered_records (ledger_ (domain w)) +w failed_records (ledger_ (domain w))
      +w encoding_failed_records (ledger_ (domain w))
    = zlen (with_fate Delivered (counted w)) + zlen (with_fate Failed (counted w))
      + zlen (encoding_failure (ledger_ (domain w)))) as E3.
  { rewrite E1, E2, He.
    rewrite (w64_small (zlen (with_fate Delivered (counted w)) + zlen (with_fate Failed (counted w)))) by lia.
    apply w64_small. lia. }
  unfold l, Accepted in *. rewrite E3, E1, E2, He. split_and!; lia.
Qed.

(** C16: a snapshot counts what happened, as of the moments it reads. The threads run between
    the loads of the kernel and the critical section that copies the ledger, so it is not of
    one moment: the accepted records are those of the first load; the delivered and the
    failed records are the fates of the retired deliveries (after the Runtime settled,
    with those left in flight) in a later world [v], the one where the ledger is read; what
    is complete was processed, and what is processed was admitted by then. Processed records
    can exceed the accepted ones only by records admitted while the snapshot was taken: when
    none is, they do not. *)
Theorem snapshot_counts_fates w at_ w' sizeof_node sizeof_action :
  runtime_reaches w -> watched (runtime_step gc self identity block others) w at_ w' ->
  zlen (KernelWorld.history (kernel w')) < 2 ^ 64 ->
  let s := sampled (GetSnapshot sizeof_node sizeof_action) (fun n => domain (at_ n)) in
  let admitted v := zlen (KernelWorld.history (kernel v)) in
  exists v, steps (at_ 0%nat) v /\ steps v w'
  /\ rs_accepted_records s = admitted (at_ 0%nat)
  /\ rs_delivered_records s = zlen (with_fate Delivered (counted v))
  /\ rs_delivery_failed_records s = zlen (with_fate Failed (counted v))
  /\ rs_completed_records s = rs_delivered_records s + rs_delivery_failed_records s + rs_encoding_failed_records s
  /\ rs_completed_records s <= rs_processed_records s <= admitted v
  /\ rs_processed_records s <= rs_accepted_records s + (admitted w' - admitted w).
Proof.
  intros Hw Hwatch Hb s admitted.
  set (n := (within producer_ ProducerKernel.GetSnapshot (fun n => domain (at_ n)) 0%nat).2).
  assert (forall m m', (m <= m')%nat -> steps (at_ m) (at_ m')) as Hmono.
  { intros m m'. induction 1 as [|m' _ IH]; [done|]. etrans; [exact IH|apply Hwatch]. }
  pose proof (wt_end _ _ _ _ Hwatch (S n)) as Hend. pose proof (watched_from _ _ _ _ (S n) Hwatch) as Hstart.
  assert (runtime_inv gc (at_ 0%nat)) as H0.
  { eapply runtime_run_inv; [exact (wt_start _ _ _ _ Hwatch)| |by apply reaches_runtime_inv].
    pose proof (run_history gc self identity block others _ _ (wt_end _ _ _ _ Hwatch 0%nat)). lia. }
  pose proof (run_history gc self identity block others _ _ Hend) as Hh.
  assert (runtime_inv gc (at_ (S n))) as Hinv.
  { eapply runtime_run_inv; [exact Hstart|lia|by apply reaches_runtime_inv]. }
  destruct (ledger_counts _ Hinv) as (E1 & E2 & E3 & E4 & E5).
  destruct (kernel_counts gc _ (li_kernel gc _ (ri_ledger gc _ H0))) as [_ Ha].
  pose proof (run_history gc self identity block others _ _ (wt_start _ _ _ _ Hwatch)) as Hh0.
  exists (at_ (S n)). split; [apply Hmono; lia|]. split; [exact Hend|].
  assert (rs_accepted_records s = admitted (at_ 0%nat)) as E0 by exact Ha.
  change (rs_delivered_records s) with (delivered_records (ledger_ (domain (at_ (S n))))).
  change (rs_delivery_failed_records s) with (failed_records (ledger_ (domain (at_ (S n))))).
  change (rs_encoding_failed_records s) with (encoding_failed_records (ledger_ (domain (at_ (S n))))).
  change (rs_processed_records s) with (processed_records (ledger_ (domain (at_ (S n))))).
  change (rs_completed_records s) with (delivered_records (ledger_ (domain (at_ (S n))))
    +w failed_records (ledger_ (domain (at_ (S n)))) +w encoding_failed_records (ledger_ (domain (at_ (S n))))).
  rewrite E0, E3. unfold admitted in *. split_and!; try done; lia.
Qed.

(** ** The worker's steps *)

Lemma delivers_run w result k r : runtime_inv gc w ->
  settled (ledger_ (domain w)) = false ->
  route_deliver (producer_ (domain w)) (route_ (domain w)) = (result, k, r) ->
  exists kw', kernel_run gc (kernel w) k kw'.
Proof.
  intros Hinv Hs Hd. pose proof (ri_ledger gc w Hinv) as [[Ki Kc Kinv Kb] Hw _].
  destruct (ci_unsettled w Hw Hs) as [Hok _].
  destruct (law_deliver _ _ _ _ _ Hok Hd) as (_ & _ & [(_ & -> & _)|(call & Hcall & _)]).
  - exists (kernel w). by split_and!.
  - destruct (KernelRuns.consume_exists gc (kernel w) Kinv Kb Kc) as (kw' & Hr & Hi & Hc).
    exists kw'. rewrite Ki, Hcall in Hi. by split_and!.
Qed.

Lemma administers_run w k : runtime_inv gc w -> KernelRuns.administers gc (producer_ (domain w)) k ->
  exists kw', kernel_run gc (kernel w) k kw'.
Proof.
  intros Hinv (_ & _ & Hr). pose proof (ri_ledger gc w Hinv) as [[Ki Kc _ _] _ _].
  destruct (Hr (kernel w) Ki) as (kw' & H1 & H2 & H3). exists kw'. split_and!; [done..|congruence].
Qed.

(** The kernel can do what a step of the worker asks of it. *)
Lemma worker_kernel_run w accepted next cl' d' : runtime_inv gc w ->
  WorkerStep self identity accepted (pc w) (caller w) (domain w) = (next, cl', d') ->
  exists kw', kernel_run gc (kernel w) (producer_ d') kw'.
Proof.
  intros Hinv Hst. pose proof (ri_ledger gc w Hinv) as [[Ki Kc Kinv Kb] Hw _].
  assert (producer_ d' = producer_ (domain w) -> exists kw', kernel_run gc (kernel w) (producer_ d') kw') as Hsame.
  { intros ->. apply administers_run; [done|]. apply (@reflexivity _ (KernelRuns.administers gc)).
    apply KernelRuns.administers_preorder. }
  destruct (pc w) as [| | |o| |x|x|a1|c o rep nx|o a2| |error| | |slot q a'| | | | |result|q| | | | |o| |] eqn:Hpc;
    cbn [WorkerStep] in Hst; try (apply Hsame; repeat case_match; by simplify_eq).
  - destruct (PrepareDestructionStop _ _ _ _) as [cl2 d2] eqn:Hc. simplify_eq.
    apply (close_locked gc) in Hc as (k & rs & -> & Hadm & _). by apply administers_run.
  - destruct (TakeReadyDrain _) as [taken d2] eqn:Ht. simplify_eq. apply take_action_frame in Ht as (acts & ->).
    by apply Hsame.
  - destruct (TakeActive _ _) as [taken d2] eqn:Ht. simplify_eq. apply take_action_frame in Ht as (acts & ->).
    by apply Hsame.
  - destruct (PrepareRouteFailure _ _ _ _) as [cl2 d2] eqn:Hc. simplify_eq.
    apply (close_locked gc) in Hc as (k & rs & -> & Hadm & _). by apply administers_run.
  - destruct (_ <? _)%nat; [|simplify_eq; by apply Hsame].
    destruct (ScanSlot slot q _) as [q' k] eqn:Hs. apply (scan_administers gc) in Hs. simplify_eq.
    by apply administers_run.
  - apply Hsame. unfold FinishClose in Hst. repeat case_match; by simplify_eq.
  - destruct (_ =? 0); [simplify_eq; by apply Hsame|].
    destruct (route_deliver _ _) as [[result k] r] eqn:Hd. simplify_eq.
    apply (delivers_run w result k r); [done| |done]. apply (unsettled_before w Hw). by rewrite Hpc.
  - apply Hsame. simplify_eq. unfold RecordProcessed. by case_match.
  - destruct (ProducerKernel.TryConsume _ _) as [[k st] call] eqn:Hc. simplify_eq.
    destruct (KernelRuns.consume_exists gc (kernel w) Kinv Kb Kc) as (kw' & Hr & Hi & Hcon).
    exists kw'. rewrite Ki, Hc in Hi. by split_and!.
Qed.

(** The relation has the step that [WorkerStep] makes, in every reachable world: its side
    conditions, on the samples the worker reads, the kernel's run and the completion of an
    operation, can be met. (How the worker waits and is woken is in [WorkerWake.v].) *)
Lemma worker_step_enabled w :
  runtime_reaches w -> exists w', runtime_step gc self identity block others w w'
    /\ worker_step gc self identity w w'.
Proof.
  intros Hw. pose proof (reaches_runtime_inv w Hw) as Hinv.
  pose proof (ledger_order gc w (ri_ledger gc w Hinv)) as (_ & _ & _ & Ht & Htk & Hc).
  destruct (WorkerStep self identity (Accepted (domain w)) (pc w) (caller w) (domain w))
    as [[next cl'] d'] eqn:Hst.
  destruct (worker_kernel_run w _ _ _ _ Hinv Hst) as [kw' Hkr].
  assert (samples w (Accepted (domain w))) as Hsam.
  { split; [lia|]. intros a Ha Hact. by apply (st_drains w (ri_status gc w Hinv) a Ha Hact). }
  assert (exists cw', match pc w with
    | WComplete (Some ref) o report _ => ControlRuns.completes ref o report (controls w) cw'
    | _ => cw' = controls w
    end) as [cw' Hcw].
  { destruct (pc_ref (pc w)) as [ref|] eqn:Hp.
    - destruct (pc w) as [| | | | | | | |c o report nx| | | | | | | | | | | | | | | | | | |] eqn:Hpc; try done.
      cbn in Hp. subst c. apply ControlRuns.completes_exists.
      rewrite (co_held w (ri_control gc w Hinv)). unfold held. rewrite Hpc, !elem_of_app. right. right. left.
    - exists (controls w). revert Hp. by destruct (pc w) as [| | | | | | | |[]| | | | | | | | | | | | | | | | | | |]. }
  exists (worker_moves w next cl' d' kw' cw'). split.
  - by eapply rt_worker.
  - by exists (Accepted (domain w)), next, cl', d', kw', cw'.
Qed.
End Properties.

(** ** The run of [RuntimeDemo.v] *)

Definition demo_reaches : World RuntimeRoute nat -> Prop :=
  runtime_reaches RawEncoder.demo_double 48 256 RecordStorage.no_double 0 0 0 (fun _ => None).

Lemma demo_reached : demo_reaches demo_reported.
Proof.
  destruct demo_run as (Hc & Hr & Hb). exists demo_domain, demo_caller. by split_and!.
Qed.

(** The drain of the run reports one record, delivered. *)
Lemma reports_are_exact_witness :
  demo_reaches demo_reported /\ demo_completion ∈ reports demo_reported
  /\ c_report demo_completion = report_of 1 (c_seen demo_completion)
  /\ first_sequences (c_seen demo_completion)
  /\ past (c_seen demo_completion) (deliveries demo_reported)
  /\ 0 <= 1 <= Accepted (domain demo_reported) /\ 1 + 0 + 0 = 1.
Proof.
  assert (demo_completion ∈ reports demo_reported) as Hc by (rewrite demo_reports; left).
  split_and!; [exact demo_reached|exact Hc|..];
    apply (reports_are_exact RawEncoder.demo_double 48 256 RecordStorage.no_double 0 0 0 (fun _ => None)
             demo_reported demo_completion demo_reached Hc).
Defined.

Lemma success_means_decided_witness :
  exists x, x ∈ deliveries demo_reported /\ d_sequence x = 0 /\ (d_fate x = Delivered \/ d_fate x = Failed).
Proof.
  apply (success_means_decided RawEncoder.demo_double 48 256 RecordStorage.no_double 0 0 0 (fun _ => None)
           demo_reported demo_completion kDrain 1 demo_reached).
  - rewrite demo_reports. left.
  - reflexivity.
  - by vm_compute.
  - cbn. lia.
Defined.

Lemma operations_complete_exactly_once_witness :
  seq 0 1 ≡ₚ (ControlReserve.serial <$> waiting demo_reported) ++ closing_serials demo_reported
    ++ (fst <$> ControlReserve.outcomes (controls demo_reported)).
Proof.
  apply (operations_complete_exactly_once RawEncoder.demo_double 48 256 RecordStorage.no_double 0 0 0
           (fun _ => None) demo_reported demo_reached).
Defined.

(** The whole run happens after the first load of the snapshot: no record is accepted yet, and
    one is delivered. *)
Definition demo_start : World RuntimeRoute nat := initial_world demo_domain demo_caller.

Lemma demo_started : demo_reaches demo_start.
Proof. destruct demo_run as (Hc & _ & _). exists demo_domain, demo_caller. by split_and!. Qed.

Lemma snapshot_counts_fates_witness :
  let s := sampled (GetSnapshot 64 64)
    (fun n => domain match n with O => demo_start | S _ => demo_reported end) in
  rs_accepted_records s = 0 /\ rs_processed_records s = 1 /\ rs_delivered_records s = 1
  /\ rs_processed_records s <= rs_accepted_records s + (1 - 0).
Proof.
  destruct demo_run as (_ & Hr & Hb).
  assert (watched (runtime_step RecordStorage.no_double 0 0 0 (fun _ => None)) demo_start
    (fun n => match n with O => demo_start | S _ => demo_reported end) demo_reported) as Hwatch
    by (split; [done|intros [|n]; done|intros [|n]; done]).
  cbv zeta. split; [by vm_compute|]. split; [by vm_compute|]. split; [by vm_compute|].
  destruct (snapshot_counts_fates RawEncoder.demo_double 48 256 RecordStorage.no_double 0 0 0 (fun _ => None)
    demo_start _ demo_reported 64 64 demo_started Hwatch Hb) as (v & _ & _ & _ & _ & _ & _ & _ & H).
  exact H.
Defined.
