(* ===== verification/Logger.v ===== *)
(** * Loggers ([src/logger.cpp], [src/logger_state.hpp], [include/ulog/logger.hpp], [log.hpp])

    The front end: a [Logger] is a pointer to the state it logs to, which is the null state
    or the state of a producer kernel; the templates and the macros turn what the caller
    writes into a builder that the kernel calls while it publishes. A message that is
    filtered, by the threshold or when the program was compiled, is never evaluated. *)
From stdpp Require Import gmap relations.
From S2P Require Import Prelude KernelTypes ThreadRegistry.
From S2P Require ProducerKernel KernelWorld KernelAccounting KernelProperties RecordLayout RecordStorage.
#[local] Open Scope Z_scope.
#[local] Open Scope ulog_scope.

#[local] Existing Instance ProducerKernel.PublishOutcome_eq_dec.

(** ** Data *)

(** What [const LoggerState*] points to: [kNullLoggerState] or the state of a kernel. *)
Inductive StatePointer := null_state | kernel_state (address : nat).

#[export] Instance StatePointer_eq_dec : EqDecision StatePointer.
Proof. solve_decision. Defined.

Record Logger := { state_ : StatePointer }.

(** [kNullProducerOperations], or the [LogMessage] of a producer kernel. *)
Inductive ProducerOperations := kNullProducerOperations | kKernelProducerOperations.

Record LoggerState := {
  threshold : Level;
  producer_operations : ProducerOperations;
  producer_context : option nat;
}.

(** A kernel that is alive, with its identity. *)
Record LiveKernel := { live_impl : ProducerKernel.Impl; live_identity : Z }.

(** What a thread that logs can touch: the kernels by address, the process-wide default
    logger, the registry of the thread and the process-wide shard counter. *)
Record Process := {
  kernels : gmap nat LiveKernel;
  kDefaultLoggerState : StatePointer;
  thread_registry : ThreadRegistry;
  next_missing_shard : Z;
}.

#[export] Instance Process_eta : Eta Process := fun p =>
  {| kernels := kernels p; kDefaultLoggerState := kDefaultLoggerState p;
     thread_registry := thread_registry p; next_missing_shard := next_missing_shard p |}.

Definition kNullLoggerState : LoggerState :=
  {| threshold := kNone; producer_operations := kNullProducerOperations; producer_context := None |}.

(** The state of a logger must stay alive as long as the logger is used; the pointer to a
    kernel that is gone is read as the null state. *)
Definition state_at (p : Process) (pointer : StatePointer) : LoggerState :=
  match pointer with
  | null_state => kNullLoggerState
  | kernel_state a =>
      match kernels p !! a with
      | Some k => {| threshold := ProducerKernel.level (live_impl k);
                     producer_operations := kKernelProducerOperations; producer_context := Some a |}
      | None => kNullLoggerState
      end
  end.

(** ** Loggers *)

Definition DefaultConstructed : Logger := {| state_ := null_state |}.
Definition LoadLevel (state : LoggerState) : Level := threshold state.
Definition GetLevel (l : Logger) (p : Process) : Level := LoadLevel (state_at p (state_ l)).
Definition ShouldLog (l : Logger) (message_level : Level) (p : Process) : bool :=
  IsLevelEnabled message_level (LoadLevel (state_at p (state_ l))).

Definition FromState (pointer : StatePointer) : Logger := {| state_ := pointer |}.
Definition GetDefaultLogger (p : Process) : Logger := FromState (kDefaultLoggerState p).
Definition GetNullLogger : Logger := FromState null_state.
Definition ExchangeDefaultLogger (stable_logger : Logger) (p : Process) : Logger * Process :=
  (FromState (kDefaultLoggerState p), p <| kDefaultLoggerState := state_ stable_logger |>).

(** ** Messages *)

(** What a builder does with the sink: the texts it appends, then the result it returns or,
    for [None], its exception. *)
Definition MessageBuilder : Type := list (list byte) * option bool.

Definition DiscardMessage (p : Process) : Process := p.

Section Front.
(** [fmt::format_to] of a format and its arguments assigns characters to the iterator of the
    sink, one by one, and may throw. *)
Context {Format : Type} (format_to : Format -> list byte * bool).
Context (general_to_chars : Z -> option (list byte)).

(** [FormatOutput]: each character assigned through the iterator is appended alone. *)
Definition FormatOutput (chars : list byte) : list (list byte) := (fun c => [c]) <$> chars.

(** The operands of a macro: a text, whose conversion to a string view may throw, or a
    format. *)
Inductive Operands := OneText (text : option (list byte)) | Formatted (f : Format).

Definition WriteMessage (o : Operands) : MessageBuilder :=
  match o with
  | OneText (Some text) => ([text], Some true)
  | OneText None => ([], Some false)
  | Formatted f =>
      let '(chars, throws) := format_to f in (FormatOutput chars, Some (negb throws))
  end.

(** The builder a macro makes ([ULOG_DETAIL_MESSAGE_BUILDER]): it evaluates the operands,
    whose exception ([None]) comes before the handlers of [WriteMessage]. *)
Definition MacroBuilder (operands : option Operands) : MessageBuilder :=
  match operands with Some o => WriteMessage o | None => ([], None) end.


(** [Logger::LogMessage]: how the publication ended, if there was one, and the process. *)
Definition LogMessage (env : ProducerKernel.PublishEnv) (l : Logger) (message_level : Level)
    (source : SourceLocation) (build_message : MessageBuilder) (p : Process)
    : option ProducerKernel.PublishReturn * Process :=
  let state := state_at p (state_ l) in
  if negb (IsLevelEnabled message_level (LoadLevel state)) then (None, p)
  else
    match producer_operations state, producer_context state with
    | kKernelProducerOperations, Some a =>
        match kernels p !! a with
        | None => (None, p)
        | Some k =>
            let '(ret, s) :=
              ProducerKernel.LogMessage a (live_identity k) general_to_chars env message_level source
                build_message.1 build_message.2
                {| ProducerKernel.kernel := live_impl k; ProducerKernel.registry := thread_registry p;
                   ProducerKernel.next_shard := next_missing_shard p |} in
            (ret, p <| kernels ::= <[a := {| live_impl := ProducerKernel.kernel s;
                                              live_identity := live_identity k |}]> |>
                    <| thread_registry := ProducerKernel.registry s |>
                    <| next_missing_shard := ProducerKernel.next_shard s |>)
        end
    | _, _ => (None, DiscardMessage p)
    end.

(** [ULOG_COMPILE_TIME_MIN_LEVEL] is [minimum]. *)
Context (minimum : Z).



(** [LOG_TO]: the level is a value. *)
Definition LOG_TO (env : ProducerKernel.PublishEnv) (l : Logger) (message_level : Level)
    (source : SourceLocation) (operands : option Operands) (p : Process)
    : option ProducerKernel.PublishReturn * Process :=
  LogMessage env l message_level source (MacroBuilder operands) p.

(** [LOG_TRACE_TO] to [LOG_CRITICAL_TO]: below the minimum the macro expands to nothing. *)
Definition LOG_NAMED_TO (env : ProducerKernel.PublishEnv) (l : Logger) (kLevel : Level)
    (source : SourceLocation) (operands : option Operands) (p : Process)
    : option ProducerKernel.PublishReturn * Process :=
  if (minimum <=? kLevel) || (kLevel =? kCritical)
  then LogMessage env l kLevel source (MacroBuilder operands) p else (None, p).

(** [LOG] and [LOG_TRACE] to [LOG_CRITICAL] log to the default logger. *)
Definition LOG env message_level source operands (p : Process) :=
  LOG_TO env (GetDefaultLogger p) message_level source operands p.
Definition LOG_NAMED env kLevel source operands (p : Process) :=
  LOG_NAMED_TO env (GetDefaultLogger p) kLevel source operands p.
End Front.
Arguments Operands Format : clear implicits.

(** ** Lemmas *)



Definition refusal (ret : ProducerKernel.PublishReturn) : Prop :=
  exists o, o <> ProducerKernel.kAccepted /\ ret = ProducerKernel.refused o.

Lemma refusal_intro o : o <> ProducerKernel.kAccepted -> refusal (ProducerKernel.refused o).
Proof. by exists o. Qed.

#[local] Hint Extern 1 (refusal _) => by (apply refusal_intro) : core.





(** *** The messages *)


(** A message fails exactly when its text or its format throws. *)
Definition operands_throw {Format} (format_to : Format -> list byte * bool) (o : Operands Format) : bool :=
  match o with OneText text => bool_decide (text = None) | Formatted f => (format_to f).2 end.

Lemma macros_finish {Format} (format_to : Format -> list byte * bool) o :
  (WriteMessage format_to o).2 = Some (negb (operands_throw format_to o)).
Proof. destruct o as [[text|]|f]; [done|done|]. cbn. by destruct (format_to f). Qed.

(** ** Theorems *)

Section Properties.
Context {Format : Type} (format_to : Format -> list byte * bool).
Context (gc : Z -> option (list byte)) (minimum : Z).
Implicit Types (p : Process) (l : Logger) (o : option (Operands Format)).







(** The thread that logs is registered with the kernel at [a], which is that of the world [w]. *)
Record registered_with (a : nat) (w : KernelWorld.World) (p : Process) (slot : nat) (generation : Z) : Prop := {
  rg_kernel : exists k, kernels p !! a = Some k /\ live_impl k = KernelWorld.impl w
    /\ exists index r e, FindThreadRegistration a (live_identity k) (thread_registry p) = (Some index, r)
         /\ entries r !! index = Some e /\ slot_index e = slot /\ ThreadRegistry.generation e = generation;
  rg_active : ProducerKernel.IsActive slot generation (KernelWorld.impl w) = true;
  rg_shard : (missing_producer_shard (thread_registry p) < kMaximumProducerSlots)%nat;
}.

(** Looking an entry up only moves the cached index. *)
Lemma find_shard self identity r : missing_producer_shard (FindThreadRegistration self identity r).2 = missing_producer_shard r.
Proof. unfold FindThreadRegistration. by repeat case_match. Qed.

(** C17: a macro on a thread that is registered, whose level passes the threshold, publishes
    to the kernel of its logger: the call is a run of the kernel's steps that admits one
    record, built from the texts the operands append, or refuses it once under its reason;
    which of the two, and with what sequence, is what the state of the kernel decides. *)
Theorem macro_publishes c w a slot generation env l lvl source (o : Operands Format) p :
  KernelAccounting.kernel_reaches gc c w -> registered_with a w p slot generation ->
  state_ l = kernel_state a -> ShouldLog l lvl p = true ->
  0 <= lvl < 256 -> RecordStorage.source_ok source -> RecordLayout.is_s64 (ProducerKernel.env_timestamp env) ->
  Forall (Forall (fun b => 0 <= b < 256)) (WriteMessage format_to o).1 ->
  let call := {| ProducerKernel.call_slot := slot; ProducerKernel.call_generation := generation;
    ProducerKernel.call_level := lvl; ProducerKernel.call_source := source;
    ProducerKernel.call_operation := ProducerKernel.BuildMessage (WriteMessage format_to o).1
      (Some (negb (operands_throw format_to o))) |} in
  let ret := KernelWorld.expected_return gc w call (ProducerKernel.env_timestamp env) in
  let '(result, p') := LOG_TO format_to gc env l lvl source (Some o) p in
  result = Some ret
  /\ exists w', rtc (KernelWorld.kernel_step gc) w w'
     /\ KernelWorld.finished gc w w' call (ProducerKernel.env_timestamp env) ret
     /\ live_impl <$> kernels p' !! a = Some (KernelWorld.impl w').
Proof.
  intros Hw [(k & Hk & Hi & index & r & e & Hf & He & Hslot & Hgen) Hact Hshard] Hl Hlog Hlvl Hsrc Hts Htexts call ret.
  unfold LOG_TO, LogMessage. fold (ShouldLog l lvl p). rewrite Hlog. cbn [negb]. unfold state_at. rewrite Hl, Hk.
  cbn [producer_operations producer_context]. rewrite Hk. unfold ProducerKernel.LogMessage.
  cbn [ProducerKernel.registry ProducerKernel.kernel]. pose proof (find_shard a (live_identity k) (thread_registry p)) as Hs.
  rewrite Hf in *. cbn [snd] in Hs. rewrite He. cbn [from_option id]. rewrite Hi, Hslot, Hgen.
  match goal with |- context [ProducerKernel.kernel (?s <| ProducerKernel.registry := ?r |>)] =>
    change (ProducerKernel.kernel (s <| ProducerKernel.registry := r |>)) with (KernelWorld.impl w) end.
  rewrite Hact. cbn [negb MacroBuilder]. rewrite macros_finish.
  set (env' := {| ProducerKernel.env_shard := _ |}). fold call.
  assert (KernelWorld.call_ok gc call) as Hcall.
  { split; [done|done|]. intros b [= <-]. cbn. apply list.Forall_fmap. revert Htexts. apply Forall_impl.
    intros text Ht x [= <-]. exact Ht. }
  assert (KernelWorld.env_ok env') as Henv by (split; [cbn; lia|done]).
  pose proof (KernelAccounting.reaches_inv gc c w Hw) as Hinv. pose proof (proj2 (proj2 Hw)) as Hlen.
  pose proof (KernelWorld.TryPublishSlot_runs gc w call env' Hcall Henv Hinv Hlen) as Hrun.
  pose proof (KernelWorld.TryPublishSlot_returns gc w call env' Hcall Henv Hinv Hlen) as Hret.
  destruct (ProducerKernel.TryPublishSlot gc env' call (KernelWorld.impl w)) as [k' ret']. cbn [snd] in Hret.
  destruct Hrun as (w' & Hsteps & Hk' & Hfin). subst ret'. split; [done|]. exists w'. split_and!; [done|done|].
  cbn. rewrite lookup_insert_eq. cbn. by rewrite Hk'.
Qed.
End Properties.

(** *** Witnesses *)

(** A program with the kernel of [KernelProperties.v], one registered thread and a logger. *)
Definition demo_process : Process :=
  {| kernels := {[ 7%nat := {| live_impl := KernelWorld.impl KernelProperties.kernel_demo_registered;
                               live_identity := 5 |} ]};
     kDefaultLoggerState := kernel_state 7;
     thread_registry :=
       {| entries := [{| owner := Some 7%nat; lifetime_block := Some 8%nat; kernel_identity := 5;
                         slot_index := 0; ThreadRegistry.generation := 1 |}];
          last_hit := 0; missing_producer_shard := 3 |};
     next_missing_shard := 4 |}.

(** A format is its text. *)
Definition demo_format (text : list byte) : list byte * bool := (text, false).

Lemma macro_publishes_witness :
  fst (LOG demo_format RecordStorage.no_double KernelProperties.kernel_demo_env kError
         RecordStorage.demo_source (Some (Formatted [104; 105])) demo_process)
  = Some (ProducerKernel.Returned {| ProducerKernel.outcome := ProducerKernel.kAccepted;
       ProducerKernel.admission_sequence := Some 0; ProducerKernel.result_truncated := false |}).
Proof.
  pose proof (macro_publishes demo_format RecordStorage.no_double KernelProperties.kernel_demo_config
    KernelProperties.kernel_demo_registered 7 0 1 KernelProperties.kernel_demo_env (GetDefaultLogger demo_process)
    kError RecordStorage.demo_source (Formatted [104; 105]) demo_process) as H.
  unfold LOG. destruct (LOG_TO _ _ _ _ _ _ _ _) as [ret p']. cbn [fst].
  destruct H as [-> _]; [..|by vm_compute].
  - apply KernelProperties.kernel_demo_reaches.
  - split; [|by vm_compute|vm_compute; lia]. eexists. split; [by vm_compute|]. split; [done|].
    do 3 eexists. split; [by vm_compute|]. split; [by vm_compute|done].
  - done.
  - by vm_compute.
  - vm_compute. by split.
  - apply (KernelWorld.co_source _ _ (KernelProperties.kernel_demo_call_ok (ProducerKernel.BuildReturns ProducerKernel.kComplete))).
  - apply KernelProperties.kernel_demo_env_ok.
  - cbn. repeat constructor; lia.
Defined.
